(* ===== verification/_CoqProject ===== *)
-Q . S2P
Prelude.v
SkipList.v
Disk.v
Crc32.v
Wal.v
Pool.v
Bloom.v
GoFmt.v
Sst.v
Reader.v
GoHeap.v
Merge.v
Engine.v
Recovery.v
Flush.v
Compaction.v
Provenance.v
Concurrent.v
Faults.v
Durable.v
Interrupted.v
Survival.v
Restart.v
Lifecycle.v
Quiet.v
GoNet.v
Pb.v
Fsm.v
Halt.v
Cluster.v
Server.v
System.v
Main.v
Cli.v
Metrics.v
