(* ===== verification/Prelude.v ===== *)
(** * StrataGo: a verified model of a replicated key-value store

    StrataGo keeps a map from byte strings to byte strings.  A node is a storage
    engine (an LSM tree: a skip list in memory, a write-ahead log, sorted table
    files), a state machine that applies the commands of a Raft log to the
    engine, a gRPC server in front of Raft, and a process around them; a command
    line client talks to the server.  This library is a shallow embedding of that
    Go code, with the theorems that make it correct.  File names below are
    relative to the repository's [src/].

    ** Files

    Generic parts:
    - [Prelude]: bytes, slices with nil, sorted association lists, little-endian
      codes, fixed-width integers ([u32], [u64], [int64] wrap), tactics, hints;
    - [Disk]: the operating system and the parts of [os], [io] and
      [encoding/binary] the code uses.  [World] is a directory of names, inodes
      with their contents, open files, the clock, and the outcomes of the calls
      still to come ([w_faults]): any call may fail and any write may be cut
      short.  Operations run in the state monad [IO];
    - [Crc32], [GoFmt], [GoNet], [GoHeap]: [hash/crc32], decimal text,
      [net.SplitHostPort], [container/heap].

    The engine, [engine/]:
    - [SkipList]: [memtable/skiplist.go].  Nodes live in a store and pointers are
      locations; the coins of [randomLevel] are an argument;
    - [Wal]: [wal/wal.go];  [Pool]: its buffer pool, shared by all logs;
    - [Bloom]: [sstable/bloom.go];
    - [Sst]: [sstable/builder.go];  [Reader]: [sstable/reader.go] and
      [sstable/iterator.go];  [Merge]: [sstable/merge.go];
    - [Engine]: [stratago.go] and [inspect.go]; [Recovery]: [Open], restarts and
      crashes; [Flush]: [flush.go]; [Compaction]: [compaction.go];
    - [Provenance]: where the data of an engine comes from, and what a directory
      keeps at a crash; [Concurrent]: compactions interleaved with flushes and
      operations; [Metrics]: [metrics/metrics.go] and the gauges of the engine;
    - [Faults]: writes on a failing disk; [Durable]: crashes between the parts of
      an interleaving; [Interrupted]: crashes at any system call, with what each
      part leaves; [Survival]: what is kept then; [Restart]: a process that stops
      while it recovers; [Lifecycle]: [Close], [Purge] and the workers; [Quiet]:
      scans, compactions, [Close] and [Purge] of an engine that has been running.

    Around the engine:
    - [Pb]: the messages of [proto/gen/]; [Fsm]: [consensus/fsm.go]; [Halt]: a
      [Restore] that is interrupted; [Cluster]: nodes over one committed log,
      which crash, restart and exchange snapshots;
    - [Server]: [server/kv_server.go]; [System]: servers over a cluster of
      engines; [Main]: [main.go]; [Cli]: [cmd/cli/main.go].

    An operation keeps the name of its method ([StrataGo_Put] is [StrataGo.Put]).
    [None] as the result of a pure function is a panic, [inl] an error value.
    What a method does in one critical section is one function; methods that
    release their lock in between ([Flush], [getLeaderClient]) are split where
    they do, and composed as in the code.

    ** Interfaces

    Code outside the repository, and choices of the Go runtime, are type classes;
    laws are separate classes, and each has an instance, used by the witnesses.
    - [Murmur3]: the hash of the Bloom filter, a 32-bit number;
    - [Runtime]: the order of [range] over a map, and the coin flips;
    - [Proto], [ProtoLaws]: the protobuf codec, with its round trip, in which an
      empty byte field becomes nil;
    - [SnapshotSink], [SinkLaws]: a write that succeeds appends its bytes;
    - [Raft], [RaftLaws]: an entry whose future has no error was applied by the
      state machine and its response is the machine's; [RaftOnCluster] says the same
      in terms of the steps of a [Cluster], and [System] has an instance of it;
      [RaftAdmin], [RaftSetup];
    - [Growth]: how far a buffer grows;
    - [Grpc]: dialling may fail.  A call between nodes runs the handler of the
      target, or is lost on either way;
    - [Prometheus], [PrometheusLaws]: a registered vector accepts an update when
      the number of label values is right; integers are exact up to [2 ^ 53].

    ** What is shown

    - Memtable: it refines a map, iterates in order, and its size is exact,
      whatever the coins ([memtable_refines_map], [memtable_iterates_sorted]).
    - Log: round trip, atomicity of a cut write, detection of a corrupted record,
      stability of recovery, and the bound of its offset arithmetic ([wal_...]).
      Calls that interleave over the pool of buffers behave like calls without
      one ([pooled_writes_refine]).
    - Tables: the builder publishes all or nothing under any failure; [Get],
      [ReadAll] and iterators return what was written; the filter has no false
      negatives; the lookup ends on any file, and panics only on a filter whose length
      in bits wraps to zero ([huge_filter_panics]); the merge keeps the newest value.
    - Engine: [engine_ok] is the representation invariant and [answer] its
      abstraction: the map denoted by memtables and tables.  From it follows
      [engine_refines_map], and for an engine that has been [running]
      [engine_scan_agrees], [compaction_keeps_answers], [close_reopen_roundtrip].
    - Concurrency in the engine: [step] interleaves the parts of a flush with
      operations and the clock, [cstep] adds the parts of a compaction, [wstep]
      the flush worker and its signal channel: [flush_interleavings_refine],
      [compaction_interleavings_refine], [reachable_well_formed],
      [flush_worker_liveness].  A part that runs without the lock touches files of
      its own only and is one step.  [run_schedule] executes such interleavings.
      [cinv] is the invariant of the reachable states; its parameter [P] says of
      every piece of data, also of what is on its way to the disk, that an
      operation wrote it.  After any such interleaving [purge_resets].  The
      compactions in them are [orderly]: what they select are neighbours in the list
      of tables.  [selection_orderly] says when the code selects neighbours;
      [skipped_table_overtakes] shows a selection that it makes otherwise, and old
      values coming back.
    - Crashes and failures: a process crash keeps the contents of the disk.
      [dies] is the directory left by a crash between two steps, or at any system
      call of one, in which the part runs on with failing calls and cut writes.
      [crash_at_any_call] says that it opens and holds written values only,
      [crash_loses_nothing] what is kept of the acknowledged writes while only
      flushes run, [engine_crash_recovery] that without a flush all are,
      [recovery_can_be_interrupted] that crashes during [Open] do no harm, also while
      it recovers a log that a flush had set aside; [writes_under_faults] says what [Get] answers when writes and syncs of the
      log fail.
    - Metrics: [table_gauge_accurate] says by how much the gauge of the tables can
      be off.
    - Replication: a node refines its log, nodes with the same log answer alike,
      a snapshot restores, a cut snapshot is refused, and restoring ends
      ([Fsm]).  In a cluster ([gstep]: any node applies, flushes, compacts,
      crashes at a system call, also of a start or a restore, restarts, stores,
      sends or restores a snapshot, under the conditions listed at [rstep]) a node
      answers with a state of the log ([cluster_reads]), nodes that have applied the
      same entries agree ([caught_up_replicas_agree]), a node comes back
      ([restart_succeeds]) and catches up ([replica_catches_up]).
    - From end to end: a [Put] that a leader acknowledged is what every node that
      has applied its entry answers, until a later entry is about the key
      ([acked_put_survives]), and what the command line prints
      ([cli_put_get_delete]).
    - Server: acknowledged writes are committed, a proxied write has the effect of
      a direct one ([proxied_writes_reach_leader]), the connection cache leaks
      nothing, reads respect their consistency level ([Server]).  [ports_agree]
      connects the process to them.
    - Deviations.  Where the code does not do what it means to, a theorem or a
      concrete run shows it, next to the model of the part: among them
      [compaction_deletes_merged_table], [skipped_table_overtakes],
      [torn_log_loses_flushed_data], [failed_recovery_drops_log],
      [stale_flushing_entry_wins], [open_skips_unreadable_table],
      [flush_rename_failure_disables_writes],
      [deleted_key_found_after_restart], [close_races_with_flush_worker],
      [delete_acks_failed_apply], [restart_rewinds_reads],
      [snapshot_misses_compacted_data], [table_gauge_overcounts].  The
      assumptions of the positive theorems keep clear of these, and the comment of
      each says which of them it makes: tables below the last key of which a lookup
      lies ([lookup_inside]); no injected faults except where a theorem is about
      them; values that are not empty, or answers up to empty values ([visible]);
      compactions of neighbours; scans and snapshots while every open table is still
      named in its directory, which a compaction ends for the table it makes; while
      a log is set aside, no record that is cut in the middle ([dies_op]) and no
      start in which a call fails before the process stops ([dies_opening]); a clock
      that does not repeat.

    ** Fuel and bounds

    Recursion that is not structural takes fuel, and a theorem shows that it is
    enough: the length of the file for [recover_loop], [get_loop],
    [readall_loop] and [restore_loop] (each round consumes a header;
    [restore_terminates], [reader_get_terminates]), the length of the index for
    [search_index], the total number of entries for [merge_loop].  [hops] of
    [rpc_Put] is no fuel of the code: it stands for the deadline of a proxied
    request.  Lengths that the code writes in 32 bits, sequence numbers and
    offsets wrap as in Go; theorems that need room say so.

    ** Not modelled

    The durations of requests in the metrics; the registration
    of handlers and the goroutines that serve HTTP; the protobuf codec and gRPC
    transport; Raft itself (elections, replication, quorum), whose guarantees are
    the laws of [Raft]; cobra's parsing of the command line.  Handlers of the server run one after
    the other except for the critical sections of the connection cache.

    ** Plan

    [Close] with busy workers in general (a concrete race is here); a flush or a
    compaction that fails and returns while others go on; the gauges across
    [Purge]; the durations of the metrics. *)
From stdpp Require Import base gmap sets list strings numbers sorting.
From Stdlib Require Import ZArith Lia Strings.Byte.
Open Scope Z_scope.

(** ** Bytes *)

#[export] Instance byte_eq_dec : EqDecision byte := Byte.byte_eq_dec.

#[export] Program Instance byte_countable : Countable byte :=
  inj_countable Byte.to_N Byte.of_N _.
Next Obligation. exact Byte.of_to_N. Qed.

(** A Go [[]byte] whose nil-ness is irrelevant, and one where it matters
    ([None] is the nil slice). *)
Abbreviation bytes := (list byte).
Abbreviation slice := (option (list byte)).

Definition slice_bytes (s : slice) : bytes := default [] s.

Definition len {A} (l : list A) : Z := Z.of_nat (length l).

Definition byte_val (b : byte) : Z := Z.of_N (Byte.to_N b).
Definition byte_of (z : Z) : byte :=
  default x00 (Byte.of_N (Z.to_N (z mod 256))).

(** [bytes.Compare] *)
Fixpoint bytes_compare (a b : bytes) : comparison :=
  match a, b with
  | [], [] => Eq
  | [], _ :: _ => Lt
  | _ :: _, [] => Gt
  | x :: a', y :: b' =>
      match Z.compare (byte_val x) (byte_val y) with
      | Eq => bytes_compare a' b'
      | c => c
      end
  end.

Definition bytes_lt (a b : bytes) : Prop := bytes_compare a b = Lt.
Definition bytes_ltb (a b : bytes) : bool :=
  match bytes_compare a b with Lt => true | _ => false end.
(** [bytes.Equal] *)
Definition bytes_eqb (a b : bytes) : bool := bool_decide (a = b).

(** ** Machine integers *)

Definition u32 (z : Z) : Z := z mod 2 ^ 32.
Definition u64 (z : Z) : Z := z mod 2 ^ 64.
(** conversion of an unsigned 64-bit pattern to [int64] *)
Definition int64 (z : Z) : Z :=
  let r := z mod 2 ^ 64 in if r <? 2 ^ 63 then r else r - 2 ^ 64.

(** ** Little-endian integers ([encoding/binary]) *)

Fixpoint le_encode (n : nat) (z : Z) : bytes :=
  match n with
  | O => []
  | S n' => byte_of z :: le_encode n' (z / 256)
  end.

Fixpoint le_decode (l : bytes) : Z :=
  match l with
  | [] => 0
  | b :: l' => byte_val b + 256 * le_decode l'
  end.

Abbreviation le32 := (le_encode 4).
Abbreviation le64 := (le_encode 8).

(** ** Automation *)

Declare Scope go_scope.
Delimit Scope go_scope with go.

(** [strata_len]: rewriting the length of the byte strings the components
    build; [strata]: facts the components share. *)
Create Rewrite HintDb strata_len.
Create HintDb strata.

(** closed equations, by evaluation of both sides *)
Ltac vm_equal := match goal with |- _ = ?b => vm_cast_no_check (eq_refl b) end.

Ltac len_norm := unfold len in *; autorewrite with strata_len in *.
Ltac len_lia := len_norm; lia.

(** ** Lemmas on bytes *)

Lemma byte_val_range b : 0 <= byte_val b < 256.
Proof. unfold byte_val. pose proof (Byte.to_N_bounded b). lia. Qed.

Lemma byte_of_val b : byte_of (byte_val b) = b.
Proof.
  unfold byte_of. pose proof (byte_val_range b).
  rewrite Z.mod_small by lia. unfold byte_val.
  rewrite N2Z.id, Byte.of_to_N. done.
Qed.

Lemma byte_val_of z : byte_val (byte_of z) = z mod 256.
Proof.
  unfold byte_of, byte_val. pose proof (Z.mod_pos_bound z 256).
  destruct (Byte.of_N (Z.to_N (z mod 256))) eqn:E; simpl.
  - apply Byte.to_of_N in E. rewrite E. rewrite Z2N.id; lia.
  - apply Byte.of_N_None_iff in E. lia.
Qed.

Lemma byte_val_inj a b : byte_val a = byte_val b -> a = b.
Proof. intros E. rewrite <- (byte_of_val a), <- (byte_of_val b). by rewrite E. Qed.

Lemma bytes_compare_refl a : bytes_compare a a = Eq.
Proof. induction a as [|x a IH]; simpl; [done|]. by rewrite Z.compare_refl. Qed.

Lemma bytes_compare_eq a b : bytes_compare a b = Eq <-> a = b.
Proof.
  split; [|intros ->; apply bytes_compare_refl].
  revert b. induction a as [|x a IH]; intros [|y b]; simpl; try done.
  destruct (Z.compare_spec (byte_val x) (byte_val y)) as [E| |]; try done.
  intros H. f_equal; [by apply byte_val_inj|by apply IH].
Qed.

Lemma bytes_compare_antisym a b : bytes_compare b a = CompOpp (bytes_compare a b).
Proof.
  revert b. induction a as [|x a IH]; intros [|y b]; simpl; try done.
  rewrite (Z.compare_antisym (byte_val x)).
  destruct (Z.compare (byte_val x) (byte_val y)); simpl; auto.
Qed.

Lemma bytes_lt_trans a b c : bytes_lt a b -> bytes_lt b c -> bytes_lt a c.
Proof.
  unfold bytes_lt. revert b c.
  induction a as [|x a IH]; intros [|y b] [|z c]; simpl; try done.
  destruct (Z.compare_spec (byte_val x) (byte_val y));
    destruct (Z.compare_spec (byte_val y) (byte_val z));
    destruct (Z.compare_spec (byte_val x) (byte_val z)); try done; try lia.
  apply IH.
Qed.

Lemma bytes_lt_irrefl a : ~ bytes_lt a a.
Proof. unfold bytes_lt. by rewrite bytes_compare_refl. Qed.

#[export] Instance bytes_lt_strict : StrictOrder bytes_lt.
Proof. split; [intros a; apply bytes_lt_irrefl|intros a b c; apply bytes_lt_trans]. Qed.

#[export] Instance bytes_lt_dec a b : Decision (bytes_lt a b).
Proof. unfold bytes_lt. apply _. Defined.

Lemma bytes_ltb_lt a b : bytes_ltb a b = true <-> bytes_lt a b.
Proof. unfold bytes_ltb, bytes_lt. by destruct (bytes_compare a b). Qed.

Lemma bytes_gt_lt a b : bytes_compare a b = Gt <-> bytes_lt b a.
Proof.
  unfold bytes_lt. rewrite (bytes_compare_antisym a b).
  by destruct (bytes_compare a b).
Qed.

Lemma bytes_lt_not_eq a b : bytes_lt a b -> a <> b.
Proof. intros H ->. by apply bytes_lt_irrefl in H. Qed.

Lemma bytes_lt_asym a b : bytes_lt a b -> ~ bytes_lt b a.
Proof. intros H1 H2. apply (bytes_lt_irrefl a). by eapply bytes_lt_trans. Qed.

(** Case analysis on a comparison, with the order facts as hypotheses. *)
Lemma bytes_compare_spec a b :
  CompareSpec (a = b) (bytes_lt a b) (bytes_lt b a) (bytes_compare a b).
Proof.
  destruct (bytes_compare a b) eqn:E; constructor.
  - by apply bytes_compare_eq.
  - done.
  - by apply bytes_gt_lt.
Qed.

#[export] Hint Resolve byte_val_range bytes_lt_irrefl : strata.
#[export] Hint Resolve bytes_compare_refl : strata.

(** ** Lemmas on little-endian integers *)

Lemma length_le_encode n z : length (le_encode n z) = n.
Proof. revert z. induction n; intros; simpl; auto. Qed.

Lemma le_decode_encode n z : le_decode (le_encode n z) = z mod 2 ^ (8 * Z.of_nat n).
Proof.
  revert z. induction n as [|n IH]; intros z.
  - simpl. by rewrite Z.mod_1_r.
  - cbn [le_encode le_decode]. rewrite IH, byte_val_of.
    replace (8 * Z.of_nat (S n)) with (8 + 8 * Z.of_nat n) by lia.
    rewrite Z.pow_add_r by lia. change (2 ^ 8) with 256.
    rewrite Z.rem_mul_r; [lia|lia|apply Z.pow_pos_nonneg; lia].
Qed.

Lemma le_decode_range l : 0 <= le_decode l < 2 ^ (8 * len l).
Proof.
  unfold len. induction l as [|b l IH]; [simpl; lia|].
  cbn [le_decode]. pose proof (byte_val_range b).
  replace (8 * Z.of_nat (length (b :: l))) with (8 + 8 * Z.of_nat (length l))
    by (cbn [length]; lia).
  rewrite Z.pow_add_r by lia. change (2 ^ 8) with 256. nia.
Qed.

Lemma le_encode_decode n l : length l = n -> le_encode n (le_decode l) = l.
Proof.
  revert n. induction l as [|b l IH]; intros [|n] E; simplify_eq/=; [done|].
  pose proof (byte_val_range b).
  f_equal.
  - rewrite <- (byte_of_val b) at 2. unfold byte_of. do 3 f_equal.
    rewrite (Z.mul_comm 256), Z_mod_plus_full. done.
  - rewrite (Z.mul_comm 256), Z.div_add, Z.div_small by lia. simpl. by apply IH.
Qed.

Lemma le32_decode z : 0 <= z < 2 ^ 32 -> le_decode (le32 z) = z.
Proof. intros. rewrite le_decode_encode. by apply Z.mod_small. Qed.

Lemma le64_decode z : 0 <= z < 2 ^ 64 -> le_decode (le64 z) = z.
Proof. intros. rewrite le_decode_encode. by apply Z.mod_small. Qed.

Lemma u32_small z : 0 <= z < 2 ^ 32 -> u32 z = z.
Proof. intros. by apply Z.mod_small. Qed.

Lemma u32_range z : 0 <= u32 z < 2 ^ 32.
Proof. by apply Z.mod_pos_bound. Qed.

Lemma int64_small z : 0 <= z < 2 ^ 63 -> int64 z = z.
Proof.
  intros. unfold int64. rewrite Z.mod_small by lia.
  destruct (Z.ltb_spec z (2 ^ 63)); lia.
Qed.

Lemma Forall_snoc {A} (P : A -> Prop) l x : Forall P l -> P x -> Forall P (l ++ [x]).
Proof. intros Hl Hx. apply Forall_app. split; [done|by constructor]. Qed.

Lemma len_nonneg {A} (l : list A) : 0 <= len l.
Proof. unfold len. lia. Qed.

#[export] Hint Resolve u32_range len_nonneg : strata.
#[export] Hint Rewrite @length_app @length_cons @length_nil length_le_encode
  @length_replicate @length_insert : strata_len.

(** ** Lists sorted by a key

    Memtables, SSTables and merged runs are all lists of entries in strictly
    increasing key order; the lemmas are shared through this section. *)
Section keyed.
Context {A : Type} (key : A -> bytes).

Definition key_sorted (l : list A) : Prop :=
  StronglySorted (fun a b => bytes_lt (key a) (key b)) l.

Definition below (k : bytes) (l : list A) : list A :=
  filter (fun a => bytes_lt (key a) k) l.
Definition above (k : bytes) (l : list A) : list A :=
  filter (fun a => bytes_lt k (key a)) l.

Lemma key_sorted_cons a l :
  key_sorted (a :: l) <-> Forall (fun b => bytes_lt (key a) (key b)) l /\ key_sorted l.
Proof.
  split; [intros H; by apply StronglySorted_inv in H as [??]|].
  intros [??]. by constructor.
Qed.

Lemma key_sorted_app l1 l2 :
  key_sorted (l1 ++ l2) <->
  key_sorted l1 /\ key_sorted l2 /\
  (forall a b, a ∈ l1 -> b ∈ l2 -> bytes_lt (key a) (key b)).
Proof.
  induction l1 as [|x l1 IH]; simpl.
  - split; [|tauto]. intros. split_and!; [constructor|done|set_solver].
  - rewrite !key_sorted_cons, IH, Forall_app, !Forall_forall. split.
    + intros [[H1 H2] (H3 & H4 & H5)]. split_and!; try done.
      intros a b [->|?]%elem_of_cons ?; eauto.
    + intros [[H1 H2] [H3 H4]]. split_and!; try done; intros.
      * apply H4; [by left|done].
      * apply H4; [by right|done].
Qed.

Lemma key_sorted_filter (P : A -> Prop) `{!forall a, Decision (P a)} l :
  key_sorted l -> key_sorted (filter P l).
Proof.
  induction l as [|a l IH]; [done|]. rewrite key_sorted_cons. intros [H1 H2].
  rewrite filter_cons. case_decide; [|auto].
  rewrite key_sorted_cons. split; [|auto].
  rewrite Forall_forall in *. intros x [_ Hx]%list_elem_of_filter. by apply H1.
Qed.

Lemma filter_all (P : A -> Prop) `{!forall a, Decision (P a)} l :
  Forall P l -> filter P l = l.
Proof. induction 1; [done|]. rewrite filter_cons, decide_True by done. by f_equal. Qed.

Lemma above_id k l : Forall (fun a => bytes_lt k (key a)) l -> above k l = l.
Proof. apply filter_all. Qed.

Lemma filter_none (P : A -> Prop) `{!forall a, Decision (P a)} l :
  Forall (fun a => ~ P a) l -> filter P l = [].
Proof. induction 1; [done|]. rewrite filter_cons. by rewrite decide_False. Qed.

Lemma below_nil k l : Forall (fun a => bytes_lt k (key a)) l -> below k l = [].
Proof.
  intros H. apply filter_none. eapply Forall_impl; [done|].
  intros a ??; by eapply bytes_lt_asym.
Qed.

(** A sorted list splits at any key. *)
Lemma key_sorted_split k l :
  key_sorted l ->
  (exists a, key a = k /\ l = below k l ++ a :: above k l) \/
  (l = below k l ++ above k l /\ Forall (fun a => key a <> k) l).
Proof.
  induction l as [|a l IH]; [by right|].
  rewrite key_sorted_cons. intros [H1 H2]. unfold below, above.
  rewrite !filter_cons. fold (below k l) (above k l).
  destruct (bytes_compare_spec (key a) k) as [E|E|E].
  - left. exists a. split; [done|]. subst k.
    rewrite !decide_False by apply bytes_lt_irrefl. simpl.
    rewrite below_nil by done. by rewrite above_id.
  - rewrite decide_True, decide_False by (done || by apply bytes_lt_asym).
    destruct (IH H2) as [(b & Hb & Hl)|[Hl Hn]]; [left|right].
    + exists b. split; [done|]. simpl. by rewrite <- Hl.
    + simpl. rewrite <- Hl. split; [done|]. constructor; [|done].
      by apply bytes_lt_not_eq.
  - rewrite decide_False, decide_True by (done || by apply bytes_lt_asym).
    right. assert (Forall (fun b => bytes_lt k (key b)) l) as Hk.
    { eapply Forall_impl; [done|]. intros b Hb. simpl in Hb. by etrans. }
    rewrite below_nil, above_id by done. split; [done|].
    constructor; [intros Ea; rewrite Ea in E; by apply bytes_lt_irrefl in E|].
    eapply Forall_impl; [exact Hk|]. intros b Hb Eb. simpl in Hb.
    rewrite Eb in Hb. by apply bytes_lt_irrefl in Hb.
Qed.

Lemma below_Forall k l : Forall (fun a => bytes_lt (key a) k) (below k l).
Proof. rewrite Forall_forall. intros x [? _]%list_elem_of_filter. done. Qed.
Lemma above_Forall k l : Forall (fun a => bytes_lt k (key a)) (above k l).
Proof. rewrite Forall_forall. intros x [? _]%list_elem_of_filter. done. Qed.

(** Replacing or inserting an element at its place keeps the order. *)
Lemma key_sorted_put k l a :
  key_sorted l -> key a = k -> key_sorted (below k l ++ a :: above k l).
Proof.
  intros Hl Ha. rewrite key_sorted_app, key_sorted_cons.
  split; [by apply key_sorted_filter|]. split; [split|].
  - rewrite Ha. apply above_Forall.
  - by apply key_sorted_filter.
  - intros x y [Hx _]%list_elem_of_filter [->|[Hy _]%list_elem_of_filter]%elem_of_cons;
      subst k; [done|by etrans].
Qed.
End keyed.

Lemma below_fmap {A B} (f : A -> B) (kb : B -> bytes) (ka : A -> bytes) k l :
  (forall a, kb (f a) = ka a) -> below kb k (f <$> l) = f <$> below ka k l.
Proof.
  intros Hf. unfold below. induction l as [|a l IH]; [done|]. csimpl.
  rewrite !filter_cons, Hf, IH. by case_decide.
Qed.

Lemma above_fmap {A B} (f : A -> B) (kb : B -> bytes) (ka : A -> bytes) k l :
  (forall a, kb (f a) = ka a) -> above kb k (f <$> l) = f <$> above ka k l.
Proof.
  intros Hf. unfold above. induction l as [|a l IH]; [done|]. csimpl.
  rewrite !filter_cons, Hf, IH. by case_decide.
Qed.

Lemma key_sorted_fmap {A B} (f : A -> B) (kb : B -> bytes) (ka : A -> bytes) l :
  (forall a, kb (f a) = ka a) -> key_sorted kb (f <$> l) <-> key_sorted ka l.
Proof.
  intros Hf. induction l as [|a l IH]; [split; constructor|]. csimpl.
  rewrite !key_sorted_cons, IH, Forall_fmap.
  split; (intros [H ?]; split; [eapply Forall_impl; [exact H|]|done]);
    intros b; simpl; by rewrite !Hf.
Qed.

(** ** Sorted tables of entries as maps *)

(** Every arrangement of the entries of a map is that map. *)
Lemma list_to_map_perm {V} (es : list (bytes * V)) (m : gmap bytes V) :
  es ≡ₚ map_to_list m -> NoDup (es.*1) /\ (list_to_map es : gmap bytes V) = m.
Proof.
  intros HP. assert (NoDup (es.*1)) as Hnd by (rewrite HP; apply NoDup_fst_map_to_list).
  split; [done|]. rewrite <- (list_to_map_to_list m). by apply list_to_map_proper.
Qed.

Lemma map_union_absorb {V} (m1 m2 : gmap bytes V) : m2 ⊆ m1 -> m1 ∪ m2 = m1.
Proof.
  intros Hs. apply map_eq. intros k. rewrite lookup_union. destruct (m2 !! k) as [v|] eqn:E.
  - rewrite (lookup_weaken _ _ _ _ E Hs). done.
  - by destruct (m1 !! k).
Qed.

Section entries.
Context {V : Type}.
Implicit Types (es : list (bytes * V)) (k : bytes).

Abbreviation sorted_entries := (key_sorted (fun e : bytes * V => e.1)).

Definition entries_put k (v : V) es : list (bytes * V) :=
  below fst k es ++ (k, v) :: above fst k es.

Lemma sorted_entries_NoDup es : sorted_entries es -> NoDup (es.*1).
Proof.
  induction es as [|e es IH]; [constructor|]. rewrite key_sorted_cons.
  intros [H1 H2]. csimpl. constructor; [|auto].
  intros (e' & E & He')%list_elem_of_fmap. rewrite Forall_forall in H1.
  specialize (H1 _ He'). simpl in H1. rewrite E in H1. by apply bytes_lt_irrefl in H1.
Qed.

Lemma sorted_entries_put k v es :
  sorted_entries es -> sorted_entries (entries_put k v es).
Proof. intros. by apply key_sorted_put. Qed.

Lemma list_to_map_notin es k :
  Forall (fun e => e.1 <> k) es -> (list_to_map es : gmap bytes V) !! k = None.
Proof.
  intros H. apply not_elem_of_list_to_map_1.
  intros (e & -> & He)%list_elem_of_fmap. rewrite Forall_forall in H. by apply (H e).
Qed.

(** [entries_put] is insertion in the map the entries denote. *)
Lemma list_to_map_put k v es :
  sorted_entries es ->
  (list_to_map (entries_put k v es) : gmap bytes V) = <[k := v]> (list_to_map es).
Proof.
  intros Hs. pose proof (sorted_entries_put k v es Hs) as Hs'.
  apply sorted_entries_NoDup in Hs'. unfold entries_put in *.
  rewrite list_to_map_app, list_to_map_cons.
  assert ((list_to_map (below fst k es) : gmap bytes V) !! k = None) as Hb.
  { apply list_to_map_notin. eapply Forall_impl; [apply below_Forall|].
    intros e He. by apply bytes_lt_not_eq. }
  rewrite <- insert_union_r by done.
  destruct (key_sorted_split (fun e : bytes * V => e.1) k es Hs)
    as [([k' v'] & Hk & Hl)|[Hl _]]; simplify_eq/=.
  - rewrite Hl at 3. rewrite list_to_map_app, list_to_map_cons.
    rewrite <- insert_union_r by done. simpl. by rewrite insert_insert_eq.
  - rewrite Hl at 3. by rewrite list_to_map_app.
Qed.

Lemma list_to_map_sorted_lookup es k v :
  sorted_entries es -> (list_to_map es : gmap bytes V) !! k = Some v <-> (k, v) ∈ es.
Proof. intros. symmetry. by apply elem_of_list_to_map, sorted_entries_NoDup. Qed.
End entries.

(** The elements that are not below [k] start right after those that are. *)
Lemma key_sorted_rest {A} (key : A -> bytes) k l :
  key_sorted key l ->
  exists r, l = below key k l ++ r /\ Forall (fun a => ~ bytes_lt (key a) k) r.
Proof.
  intros H. destruct (key_sorted_split key k l H) as [(a & Ha & E)|[E _]].
  - exists (a :: above key k l). split; [done|]. constructor.
    + rewrite Ha. apply bytes_lt_irrefl.
    + eapply Forall_impl; [apply above_Forall|]. intros b. apply bytes_lt_asym.
  - exists (above key k l). split; [done|].
    eapply Forall_impl; [apply above_Forall|]. intros b. apply bytes_lt_asym.
Qed.

(** A list without duplicates inside the domain of a map is no longer than it. *)
Lemma length_le_dom {V} (h : gmap nat V) (ls : list nat) :
  NoDup ls -> (forall l, l ∈ ls -> is_Some (h !! l)) -> (length ls <= size h)%nat.
Proof.
  intros Hnd Hin. rewrite <- size_dom, <- (size_list_to_set (C := gset nat) ls Hnd).
  apply subseteq_size. intros x Hx%elem_of_list_to_set. apply elem_of_dom. auto.
Qed.

Lemma Forall_filter {A} (P Q : A -> Prop) `{!forall a, Decision (Q a)} l :
  Forall P l -> Forall P (filter Q l).
Proof.
  rewrite !Forall_forall. intros HP x [_ Hx]%list_elem_of_filter. auto.
Qed.

Lemma NoDup_fmap_filter {A B} (f : A -> B) (P : A -> Prop) `{!forall a, Decision (P a)} l :
  NoDup (f <$> l) -> NoDup (f <$> filter P l).
Proof.
  induction l as [|a l IH]; [done|]. rewrite fmap_cons, filter_cons.
  intros [Hn Hl]%NoDup_cons. case_decide; [|auto]. rewrite fmap_cons.
  apply NoDup_cons. split; [|auto]. intros Hin. apply Hn.
  apply list_elem_of_fmap in Hin as (b & -> & [_ Hb]%list_elem_of_filter).
  by apply list_elem_of_fmap_2.
Qed.

Lemma len_app {A} (l k : list A) : len (l ++ k) = len l + len k.
Proof. unfold len. rewrite length_app. lia. Qed.

Lemma len_cons {A} (a : A) l : len (a :: l) = 1 + len l.
Proof. unfold len. simpl. lia. Qed.

Lemma len_nil {A} : len (A := A) [] = 0.
Proof. done. Qed.

Lemma len_zero {A} (l : list A) : len l = 0 -> l = [].
Proof. unfold len. destruct l; simpl; [done|lia]. Qed.

Lemma len_le32 z : len (le32 z) = 4.
Proof. done. Qed.

Lemma len_le64 z : len (le64 z) = 8.
Proof. done. Qed.

Lemma to_nat_len {A} (l : list A) : Z.to_nat (len l) = length l.
Proof. unfold len. lia. Qed.

Lemma length_omap_le {A B} (f : A -> option B) l : (length (omap f l) <= length l)%nat.
Proof. induction l as [|a l IH]; cbn; [lia|]. destruct (f a); cbn; lia. Qed.

Create Rewrite HintDb len_simpl.
#[export] Hint Rewrite @len_app @len_cons @len_nil len_le32 len_le64 : len_simpl.

(** Arithmetic on the lengths of concatenated byte strings. *)
Ltac lens :=
  autorewrite with len_simpl in *;
  repeat match goal with
         | |- context [len ?l] =>
             lazymatch goal with
             | _ : 0 <= len l |- _ => fail
             | _ => pose proof (len_nonneg l)
             end
         | _ : context [len ?l] |- _ =>
             lazymatch goal with
             | _ : 0 <= len l |- _ => fail
             | _ => pose proof (len_nonneg l)
             end
         end;
  lia.
