(* ===== verification/SkipList.v ===== *)
(** * The memtable: [engine/memtable/skiplist.go]

    The skip list is modelled with its nodes in a store ([sl_heap]) and
    pointers as locations, so that the linking of a node at every level is
    the code's sequence of pointer writes.  [None] as the result of an
    operation is a Go panic (nil dereference, index out of range). *)
From stdpp Require Import base gmap sets list strings numbers sorting.
From Stdlib Require Import ZArith Lia Strings.Byte.
From S2P Require Import Prelude.
Open Scope Z_scope.

Definition MaxLevel : nat := 20.

(** A pointer to a node; nil is [None] of [option loc]. *)
Definition loc := nat.

Record Node := mkNode {
  n_Key : bytes;
  n_Value : slice;
  n_Next : list (option loc)
}.

(** [sl_rand] is the sequence of outcomes of [rand.Float64() < Probability]
    the generator will give; once it is exhausted the outcome is [false]. *)
Record SkipList := mkSkipList {
  sl_heap : gmap loc Node;
  sl_alloc : loc;
  sl_Head : loc;
  sl_Level : nat;
  sl_Size : Z;
  sl_SizeBytes : Z;
  sl_rand : list bool
}.

Definition NewSkipList (rand : list bool) : SkipList :=
  {| sl_heap := {[ 0%nat := mkNode [] None (replicate MaxLevel None) ]};
     sl_alloc := 1%nat; sl_Head := 0%nat; sl_Level := 1%nat; sl_Size := 0;
     sl_SizeBytes := 0; sl_rand := rand |}.

(** [current.Next[i]] *)
Definition node_next (h : gmap loc Node) (l : loc) (i : nat) : option (option loc) :=
  nd ← h !! l; n_Next nd !! i.

(** [p.Next[i] = v] *)
Definition set_next (h : gmap loc Node) (l : loc) (i : nat) (v : option loc)
    : option (gmap loc Node) :=
  nd ← h !! l;
  if decide (i < length (n_Next nd))%nat
  then Some (<[l := mkNode (n_Key nd) (n_Value nd) (<[i := v]> (n_Next nd))]> h)
  else None.

(** the inner loop: move right while the next key is smaller *)
Fixpoint advance (fuel : nat) (h : gmap loc Node) (key : bytes) (i : nat)
    (current : loc) : option loc :=
  match fuel with
  | O => None
  | S fuel' =>
      nx ← node_next h current i;
      match nx with
      | None => Some current
      | Some n =>
          nd ← h !! n;
          if bytes_ltb (n_Key nd) key then advance fuel' h key i n
          else Some current
      end
  end.

(** the outer loop from level [i - 1] down to 0, filling [update] *)
Fixpoint search (h : gmap loc Node) (key : bytes) (i : nat) (current : loc)
    (update : list (option loc)) : option (loc * list (option loc)) :=
  match i with
  | O => Some (current, update)
  | S i' =>
      c ← advance (S (size h)) h key i' current;
      search h key i' c (<[i' := Some c]> update)
  end.

Fixpoint randomLevel_loop (rand : list bool) (level : nat) : nat * list bool :=
  match rand with
  | [] => (level, [])
  | b :: rand' =>
      if b && bool_decide (level < MaxLevel)%nat
      then randomLevel_loop rand' (S level)
      else (level, rand')
  end.

Definition randomLevel (rand : list bool) : nat * list bool :=
  randomLevel_loop rand 1%nat.

(** [update[i] = sl.Head] for the levels [from .. from + n - 1] *)
Fixpoint fill_update (head : loc) (from n : nat) (update : list (option loc))
    : list (option loc) :=
  match n with
  | O => update
  | S n' => fill_update head (S from) n' (<[from := Some head]> update)
  end.

(** the linking loop, levels [i .. i + n - 1] *)
Fixpoint link (update : list (option loc)) (newNode : loc) (n i : nat)
    (h : gmap loc Node) : option (gmap loc Node) :=
  match n with
  | O => Some h
  | S n' =>
      p ← update !! i;
      u ← p;
      nx ← node_next h u i;
      h1 ← set_next h newNode i nx;
      h2 ← set_next h1 u i (Some newNode);
      link update newNode n' (S i) h2
  end.

(** [current != nil && bytes.Equal(current.Key, key)] *)
Definition found_node (h : gmap loc Node) (current : option loc) (key : bytes)
    : option (option (loc * Node)) :=
  match current with
  | None => Some None
  | Some c =>
      nd ← h !! c;
      Some (if bytes_eqb (n_Key nd) key then Some (c, nd) else None)
  end.

Definition SkipList_Put (sl : SkipList) (key : bytes) (value : slice)
    : option SkipList :=
  '(current, update) ←
     search (sl_heap sl) key (sl_Level sl) (sl_Head sl) (replicate MaxLevel None);
  next ← node_next (sl_heap sl) current 0;
  fn ← found_node (sl_heap sl) next key;
  match fn with
  | Some (c, nd) =>
      Some {| sl_heap := <[c := mkNode (n_Key nd) value (n_Next nd)]> (sl_heap sl);
              sl_alloc := sl_alloc sl; sl_Head := sl_Head sl;
              sl_Level := sl_Level sl; sl_Size := sl_Size sl;
              sl_SizeBytes := sl_SizeBytes sl
                + (len (slice_bytes value) - len (slice_bytes (n_Value nd)));
              sl_rand := sl_rand sl |}
  | None =>
      let '(newLevel, rand') := randomLevel (sl_rand sl) in
      let '(level', update') :=
        if decide (sl_Level sl < newLevel)%nat
        then (newLevel,
              fill_update (sl_Head sl) (sl_Level sl) (newLevel - sl_Level sl) update)
        else (sl_Level sl, update) in
      let newNode := sl_alloc sl in
      h' ← link update' newNode newLevel 0
             (<[newNode := mkNode key value (replicate newLevel None)]> (sl_heap sl));
      Some {| sl_heap := h'; sl_alloc := S newNode; sl_Head := sl_Head sl;
              sl_Level := level'; sl_Size := sl_Size sl + 1;
              sl_SizeBytes := sl_SizeBytes sl + (len key + len (slice_bytes value));
              sl_rand := rand' |}
  end.

(** [Some (Some v)]: found with value [v]; [Some None]: not found. *)
Definition SkipList_Get (sl : SkipList) (key : bytes) : option (option slice) :=
  '(current, _) ←
     search (sl_heap sl) key (sl_Level sl) (sl_Head sl) (replicate MaxLevel None);
  next ← node_next (sl_heap sl) current 0;
  fn ← found_node (sl_heap sl) next key;
  Some (match fn with Some (_, nd) => Some (n_Value nd) | None => None end).

(** [Iterator]: the current node *)
Definition SkipList_NewIterator (sl : SkipList) : loc := sl_Head sl.

Definition SkipListIterator_Next (h : gmap loc Node) (it : loc)
    : option (option loc) := node_next h it 0.

(** The pairs [(it.Key(), it.Value())] that a loop [for iter.Next()] sees. *)
Fixpoint iterate (fuel : nat) (h : gmap loc Node) (it : loc)
    : option (list (bytes * slice)) :=
  match fuel with
  | O => None
  | S fuel' =>
      nx ← SkipListIterator_Next h it;
      match nx with
      | None => Some []
      | Some n =>
          nd ← h !! n;
          rest ← iterate fuel' h n;
          Some ((n_Key nd, n_Value nd) :: rest)
      end
  end.

Definition SkipList_entries (sl : SkipList) : option (list (bytes * slice)) :=
  iterate (S (size (sl_heap sl))) (sl_heap sl) (SkipList_NewIterator sl).

(** ** Representation invariant

    The nodes of the list, in key order, with the number of levels each one
    has.  Level [i] of the list links exactly the nodes with more than [i]
    levels, in the same order. *)
Record anode := mkANode { a_loc : loc; a_key : bytes; a_val : slice; a_height : nat }.

Definition a_entry (a : anode) : bytes * slice := (a_key a, a_val a).

Definition level_nodes (i : nat) (ch : list anode) : list anode :=
  filter (fun a => (i < a_height a)%nat) ch.

(** [cur] is followed by exactly [rest] along the pointer function [f]. *)
Fixpoint linked (f : loc -> option (option loc)) (cur : loc) (rest : list loc) : Prop :=
  match rest with
  | [] => f cur = Some None
  | x :: rest' => f cur = Some (Some x) /\ linked f x rest'
  end.

Definition last_loc (d : loc) (l : list loc) : loc := default d (last l).

Definition entry_bytes (e : bytes * slice) : Z := len e.1 + len (slice_bytes e.2).
Definition entries_bytes (es : list (bytes * slice)) : Z := foldr Z.add 0 (entry_bytes <$> es).

Definition node_of (h : gmap loc Node) (a : anode) : Prop :=
  exists nd, h !! a_loc a = Some nd /\ n_Key nd = a_key a /\ n_Value nd = a_val a /\
             length (n_Next nd) = a_height a.

Record repr_chain (sl : SkipList) (ch : list anode) : Prop := {
  rc_head : exists nd, sl_heap sl !! sl_Head sl = Some nd /\ length (n_Next nd) = MaxLevel;
  rc_nodes : Forall (node_of (sl_heap sl)) ch;
  rc_heights : Forall (fun a => (1 <= a_height a <= sl_Level sl)%nat) ch;
  rc_linked : forall i, (i < MaxLevel)%nat ->
    linked (fun l => node_next (sl_heap sl) l i) (sl_Head sl) (a_loc <$> level_nodes i ch);
  rc_sorted : key_sorted a_key ch;
  rc_nodup : NoDup (sl_Head sl :: (a_loc <$> ch));
  rc_fresh : forall l, (sl_alloc sl <= l)%nat -> sl_heap sl !! l = None;
  rc_level : (1 <= sl_Level sl <= MaxLevel)%nat;
  rc_size : sl_Size sl = len ch;
  rc_bytes : sl_SizeBytes sl = entries_bytes (a_entry <$> ch)
}.

(** The memtable holds the entries [es]. *)
Definition repr (sl : SkipList) (es : list (bytes * slice)) : Prop :=
  exists ch, repr_chain sl ch /\ es = a_entry <$> ch.

(** ** Lists of pointers *)

Lemma last_loc_cons d x xs : last_loc d (x :: xs) = last_loc x xs.
Proof.
  unfold last_loc. destruct xs as [|y xs]; [done|].
  change (last (x :: y :: xs)) with (last (y :: xs)).
  destruct (last (y :: xs)) eqn:E; [done|]. by apply last_None in E.
Qed.

Lemma linked_app f cur xs ys :
  linked f cur (xs ++ ys) -> linked f (last_loc cur xs) ys.
Proof.
  revert cur. induction xs as [|x xs IH]; intros cur; simpl; [done|].
  intros [_ H]. rewrite last_loc_cons. by apply IH.
Qed.

Lemma linked_ext f g cur rest :
  (forall l, l ∈ cur :: rest -> f l = g l) -> linked f cur rest -> linked g cur rest.
Proof.
  revert cur. induction rest as [|x rest IH]; intros cur Hfg; simpl.
  - intros <-. symmetry. apply Hfg. by left.
  - intros [H1 H2]. rewrite <- Hfg by by left. split; [done|].
    apply IH; [|done]. intros l Hl. apply Hfg. by right.
Qed.

Lemma last_loc_snoc d xs x : last_loc d (xs ++ [x]) = x.
Proof. unfold last_loc. by rewrite last_snoc. Qed.

Lemma last_loc_app d xs x ys : last_loc d (xs ++ x :: ys) = last_loc x ys.
Proof.
  revert d. induction xs as [|y xs IH]; intros d; [apply last_loc_cons|].
  rewrite <- app_comm_cons, last_loc_cons. apply IH.
Qed.

Lemma last_loc_elem d xs : last_loc d xs ∈ d :: xs.
Proof.
  revert d. induction xs as [|x xs IH]; intros d; [by left|].
  rewrite last_loc_cons. right. apply IH.
Qed.

(** Splicing a new node behind the predecessor. *)
Lemma linked_insert f g cur xs ys new :
  NoDup (cur :: xs ++ ys) -> new ∉ cur :: xs ++ ys ->
  linked f cur (xs ++ ys) ->
  g (last_loc cur xs) = Some (Some new) -> g new = f (last_loc cur xs) ->
  (forall l, l ∈ cur :: xs ++ ys -> l <> last_loc cur xs -> g l = f l) ->
  linked g cur (xs ++ new :: ys).
Proof.
  revert cur. induction xs as [|x xs IH]; intros cur Hnd Hnew Hl Hg1 Hg2 Hg.
  - simpl in *. unfold last_loc in *; simpl in *. split; [done|].
    destruct ys as [|y ys]; simpl in *; [by rewrite Hg2|].
    destruct Hl as [Hl1 Hl2]. split; [by rewrite Hg2|].
    eapply linked_ext; [|exact Hl2]. intros l Hl. symmetry. apply Hg; [by right|].
    intros ->. apply NoDup_cons in Hnd as [Hnd _]. done.
  - rewrite last_loc_cons in *. simpl in *. destruct Hl as [Hl1 Hl2].
    apply NoDup_cons in Hnd as [Hnd1 Hnd2]. split.
    + rewrite Hg; [done|by left|]. intros E. apply Hnd1. rewrite E.
      pose proof (last_loc_elem x xs) as He. apply elem_of_cons in He.
      apply elem_of_cons. destruct He; [by left|right]. apply elem_of_app. by left.
    + apply IH; try done.
      * intros Hin. apply Hnew. by right.
      * intros l Hl. apply Hg. by right.
Qed.

(** ** Searching *)

Lemma advance_spec h key i cur l1 l2 fuel :
  linked (fun l => node_next h l i) cur (a_loc <$> (l1 ++ l2)) ->
  Forall (node_of h) (l1 ++ l2) ->
  Forall (fun a => bytes_lt (a_key a) key) l1 ->
  Forall (fun a => ~ bytes_lt (a_key a) key) l2 ->
  (length l1 < fuel)%nat ->
  advance fuel h key i cur = Some (last_loc cur (a_loc <$> l1)).
Proof.
  revert cur fuel. induction l1 as [|a l1 IH]; intros cur [|fuel] Hl Hn H1 H2 Hf;
    simpl in Hf; try lia.
  - destruct l2 as [|b l2]; simpl in *; [by rewrite Hl|].
    destruct Hl as [-> _]. simpl. apply Forall_cons in Hn as [(nd & -> & Hk & _) _].
    simpl. apply Forall_cons in H2 as [H2 _]. rewrite Hk.
    destruct (bytes_ltb (a_key b) key) eqn:E; [|done].
    by apply bytes_ltb_lt in E.
  - rewrite <- app_comm_cons, fmap_cons in Hl. destruct Hl as [Hl1 Hl2].
    cbn [advance]. rewrite Hl1. cbn [mbind option_bind].
    rewrite <- app_comm_cons in Hn.
    apply Forall_cons in Hn as [(nd & -> & Hk & _) Hn]. cbn [mbind option_bind].
    apply Forall_cons in H1 as [H1 H1']. rewrite Hk.
    apply bytes_ltb_lt in H1. rewrite H1. rewrite fmap_cons, last_loc_cons.
    apply IH; auto. lia.
Qed.

Lemma level_nodes_app i xs ys :
  level_nodes i (xs ++ ys) = level_nodes i xs ++ level_nodes i ys.
Proof. apply filter_app. Qed.

Lemma level_nodes_cons i a ys :
  level_nodes i (a :: ys) =
  if decide (i < a_height a)%nat then a :: level_nodes i ys else level_nodes i ys.
Proof. unfold level_nodes. by rewrite filter_cons. Qed.

(** The last node of a level splits the list. *)
Lemma level_nodes_last i ch :
  level_nodes i ch = [] \/
  exists q1 a q2, ch = q1 ++ a :: q2 /\ (i < a_height a)%nat /\ level_nodes i q2 = [].
Proof.
  induction ch as [|a ch IH]; [by left|].
  destruct IH as [IH|(q1 & b & q2 & -> & ? & ?)].
  - destruct (decide (i < a_height a)%nat) as [Hd|Hd].
    + right. by exists [], a, ch.
    + left. by rewrite level_nodes_cons, decide_False.
  - right. by exists (a :: q1), b, q2.
Qed.

Section search.
Context (h : gmap loc Node) (head : loc) (ch : list anode) (key : bytes).
Context (Hnodes : Forall (node_of h) ch).
Context (Hhead : is_Some (h !! head)).
Context (Hlinked : forall i, (i < MaxLevel)%nat ->
  linked (fun l => node_next h l i) head (a_loc <$> level_nodes i ch)).
Context (Hsorted : key_sorted a_key ch).
Context (Hnodup : NoDup (head :: (a_loc <$> ch))).

(** the predecessor of [key] at level [i] *)
Definition pred (i : nat) : loc :=
  last_loc head (a_loc <$> level_nodes i (below a_key key ch)).

Lemma chain_size : (length ch < size h)%nat.
Proof using Hnodes Hhead Hnodup.
  assert (length (head :: (a_loc <$> ch)) <= size h)%nat as H.
  { apply length_le_dom; [done|]. intros l [->|Hl]%elem_of_cons; [done|].
    apply list_elem_of_fmap in Hl as (a & -> & Ha).
    rewrite Forall_forall in Hnodes. destruct (Hnodes _ Ha) as (nd & ? & _). by eexists. }
  simpl in H. rewrite length_fmap in H. lia.
Qed.

Lemma advance_pred i :
  (i < MaxLevel)%nat ->
  advance (S (size h)) h key i (pred (S i)) = Some (pred i).
Proof using Hnodes Hhead Hlinked Hsorted Hnodup.
  intros Hi. pose proof chain_size as Hsz. specialize (Hlinked i Hi).
  destruct (key_sorted_rest a_key key ch Hsorted) as (r & Hch & Hr).
  pose proof (below_Forall a_key key ch) as Hbelow. unfold pred.
  set (L := below a_key key ch) in *. clearbody L. subst ch.
  rewrite length_app in Hsz. rewrite level_nodes_app in Hlinked.
  assert (forall (P : anode -> Prop) xs, Forall P xs -> Forall P (level_nodes i xs)) as Hlv.
  { intros P xs. by apply Forall_filter. }
  assert (forall xs, (length (level_nodes i xs) <= length xs)%nat) as Hlen.
  { intros xs. apply length_filter. }
  apply Forall_app in Hnodes as [Hn1 Hn2].
  destruct (level_nodes_last (S i) L) as [E|(q1 & a & q2 & -> & Ha & E)].
  - rewrite E. change (last_loc head (a_loc <$> [])) with head.
    eapply advance_spec with (l2 := level_nodes i r); eauto.
    { apply Forall_app. auto. } { specialize (Hlen L). lia. }
  - apply Forall_app in Hn1 as [_ [_ Hn1]%Forall_cons].
    apply Forall_app in Hbelow as [_ [_ Hbelow]%Forall_cons].
    rewrite !level_nodes_app, !level_nodes_cons, !decide_True in * by lia.
    rewrite E, !fmap_app, !fmap_cons, !last_loc_app in *.
    rewrite <- app_assoc, <- app_comm_cons, cons_middle, app_assoc in Hlinked.
    apply linked_app in Hlinked. rewrite last_loc_snoc in Hlinked.
    eapply advance_spec with (l2 := level_nodes i r).
    { by rewrite fmap_app. } { apply Forall_app. auto. } { auto. } { auto. }
    { specialize (Hlen q2). rewrite length_app in Hsz. simpl in Hsz. lia. }
Qed.

Lemma search_spec n upd :
  (n <= MaxLevel)%nat -> length upd = MaxLevel ->
  exists upd', search h key n (pred n) upd = Some (pred 0, upd') /\
    length upd' = MaxLevel /\
    (forall j, (j < n)%nat -> upd' !! j = Some (Some (pred j))) /\
    (forall j, (n <= j)%nat -> upd' !! j = upd !! j).
Proof using Hnodes Hhead Hlinked Hsorted Hnodup.
  revert upd. induction n as [|n IH]; intros upd Hn Hu; cbn [search].
  - exists upd. split_and!; try done. intros; lia.
  - rewrite advance_pred by lia. simpl.
    destruct (IH (<[n := Some (pred n)]> upd)) as (upd' & -> & Hu' & H1 & H2);
      [lia|by rewrite length_insert|].
    exists upd'. split_and!; try done.
    + intros j Hj. destruct (decide (j = n)) as [->|]; [|apply H1; lia].
      rewrite H2 by lia. apply list_lookup_insert_eq. lia.
    + intros j Hj. rewrite H2 by lia. apply list_lookup_insert_ne. lia.
Qed.
End search.

(** ** Linking a new node *)

Definition shape (h : gmap loc Node) (l : loc) : option (bytes * slice * nat) :=
  (fun nd => (n_Key nd, n_Value nd, length (n_Next nd))) <$> h !! l.

Lemma set_next_spec h l i v :
  is_Some (node_next h l i) ->
  exists h', set_next h l i v = Some h' /\
    (forall l', shape h' l' = shape h l') /\
    (forall l' j, node_next h' l' j =
       if decide (l' = l /\ j = i) then Some v else node_next h l' j).
Proof.
  unfold node_next, set_next, shape. intros [w Hw].
  destruct (h !! l) as [nd|] eqn:E; simplify_eq/=.
  pose proof (lookup_lt_Some _ _ _ Hw) as Hlt. rewrite decide_True by done.
  eexists; split; [done|]. split.
  - intros l'. destruct (decide (l' = l)) as [->|].
    + rewrite lookup_insert_eq, E. simpl. by rewrite length_insert.
    + by rewrite lookup_insert_ne.
  - intros l' j. destruct (decide (l' = l)) as [->|].
    + rewrite lookup_insert_eq, E. simpl. destruct (decide (j = i)) as [->|].
      * rewrite decide_True by done. by apply list_lookup_insert_eq.
      * rewrite decide_False by tauto. by apply list_lookup_insert_ne.
    + rewrite decide_False by tauto. by rewrite lookup_insert_ne.
Qed.

Lemma link_spec upd new (u : nat -> loc) n i h :
  (forall j, (i <= j < i + n)%nat ->
     upd !! j = Some (Some (u j)) /\ u j <> new /\
     is_Some (node_next h (u j) j) /\ is_Some (node_next h new j)) ->
  exists h', link upd new n i h = Some h' /\
    (forall l, shape h' l = shape h l) /\
    (forall l j, node_next h' l j =
       if decide (i <= j < i + n)%nat then
         if decide (l = u j) then Some (Some new)
         else if decide (l = new) then node_next h (u j) j else node_next h l j
       else node_next h l j).
Proof.
  revert i h. induction n as [|n IH]; intros i h Hu.
  - exists h. split_and!; try done. intros. by rewrite decide_False by lia.
  - destruct (Hu i) as (Hi & Hne & [w Hw] & Hnew); [lia|]. cbn [link].
    rewrite Hi. simpl. rewrite Hw. simpl.
    destruct (set_next_spec h new i w Hnew) as (h1 & -> & Hs1 & Hn1). simpl.
    assert (is_Some (node_next h1 (u i) i)) as Hu1.
    { rewrite Hn1. case_decide; [by eexists|]. by eexists. }
    destruct (set_next_spec h1 (u i) i (Some new) Hu1) as (h2 & -> & Hs2 & Hn2). simpl.
    destruct (IH (S i) h2) as (h' & -> & Hs & Hn).
    { intros j Hj. destruct (Hu j) as (? & ? & ? & ?); [lia|].
      rewrite !Hn2, !Hn1. split_and!; try done; repeat case_decide; done. }
    exists h'. split; [done|]. split; [intros l; by rewrite Hs, Hs2, Hs1|].
    intros l j. rewrite Hn, !Hn2, !Hn1.
    destruct (decide (j = i)) as [->|Hji].
    + rewrite (decide_False (P := (S i <= i < _)%nat)) by lia.
      rewrite (decide_True (P := (i <= i < _)%nat)) by lia.
      destruct (decide (l = u i)) as [->|]; [by rewrite decide_True|].
      rewrite decide_False by tauto.
      destruct (decide (l = new)) as [->|]; [by rewrite decide_True|].
      by rewrite decide_False by tauto.
    + rewrite !(decide_False (P := _ /\ j = i)) by tauto.
      repeat case_decide; try done; lia.
Qed.

Lemma randomLevel_loop_bounds rand level :
  (level <= MaxLevel)%nat -> (level <= (randomLevel_loop rand level).1 <= MaxLevel)%nat.
Proof.
  revert level. induction rand as [|b rand IH]; intros level Hl; simpl; [lia|].
  destruct b; simpl; [|lia]. case_bool_decide; simpl; [|lia].
  specialize (IH (S level)). lia.
Qed.

Lemma randomLevel_bounds rand : (1 <= (randomLevel rand).1 <= MaxLevel)%nat.
Proof. apply randomLevel_loop_bounds. unfold MaxLevel. lia. Qed.

Lemma fill_update_lookup head from n upd j :
  (from + n <= length upd)%nat ->
  fill_update head from n upd !! j =
    if decide (from <= j < from + n)%nat then Some (Some head) else upd !! j.
Proof.
  revert from upd. induction n as [|n IH]; intros from upd Hl; cbn [fill_update].
  - by rewrite decide_False by lia.
  - rewrite IH by (rewrite length_insert; lia).
    destruct (decide (j = from)) as [->|].
    + rewrite decide_False, decide_True by lia. apply list_lookup_insert_eq. lia.
    + rewrite list_lookup_insert_ne by done. repeat case_decide; try done; lia.
Qed.

(** ** Locating a key *)

Section located.
Context (sl : SkipList) (ch : list anode) (Hr : repr_chain sl ch) (key : bytes).

Abbreviation spred := (pred (sl_Head sl) ch key).

Lemma level_nodes_0 xs :
  Forall (fun a => (1 <= a_height a <= sl_Level sl)%nat) xs -> level_nodes 0 xs = xs.
Proof.
  intros H. apply filter_all. eapply Forall_impl; [exact H|]. intros a Ha. simpl in *. lia.
Qed.

Lemma level_nodes_top i xs :
  (sl_Level sl <= i)%nat ->
  Forall (fun a => (1 <= a_height a <= sl_Level sl)%nat) xs -> level_nodes i xs = [].
Proof.
  intros Hi H. apply filter_none. eapply Forall_impl; [exact H|].
  intros a Ha. simpl in *. lia.
Qed.

Lemma pred_top i : (sl_Level sl <= i)%nat -> spred i = sl_Head sl.
Proof using Hr.
  intros Hi. unfold pred. rewrite level_nodes_top; [done..|].
  apply Forall_filter, (rc_heights _ _ Hr).
Qed.

Lemma head_some : is_Some (sl_heap sl !! sl_Head sl).
Proof using Hr. destruct (rc_head _ _ Hr) as (nd & H & _). by eexists. Qed.

Lemma search_located :
  exists upd,
    search (sl_heap sl) key (sl_Level sl) (sl_Head sl) (replicate MaxLevel None)
      = Some (spred 0, upd) /\
    length upd = MaxLevel /\
    (forall j, (j < sl_Level sl)%nat -> upd !! j = Some (Some (spred j))).
Proof using Hr.
  pose proof (pred_top (sl_Level sl) (Nat.le_refl _)) as Htop.
  destruct (search_spec (sl_heap sl) (sl_Head sl) ch key (rc_nodes _ _ Hr) head_some
    (rc_linked _ _ Hr) (rc_sorted _ _ Hr) (rc_nodup _ _ Hr) (sl_Level sl)
    (replicate MaxLevel None)) as (upd & H1 & H2 & H3 & _).
  - apply (rc_level _ _ Hr).
  - by rewrite length_replicate.
  - rewrite Htop in H1. eauto.
Qed.

(** What the code sees at the node after the level-0 predecessor. *)
Lemma next_located :
  exists nx, node_next (sl_heap sl) (spred 0) 0 = Some nx /\
  ((exists a nd, ch = below a_key key ch ++ a :: above a_key key ch /\ a_key a = key /\
      sl_heap sl !! a_loc a = Some nd /\ n_Value nd = a_val a /\ n_Key nd = key /\
      length (n_Next nd) = a_height a /\
      found_node (sl_heap sl) nx key = Some (Some (a_loc a, nd))) \/
   (ch = below a_key key ch ++ above a_key key ch /\
      Forall (fun a => a_key a <> key) ch /\
      found_node (sl_heap sl) nx key = Some None)).
Proof using Hr.
  pose proof (rc_linked _ _ Hr 0%nat) as Hl. rewrite (level_nodes_0 ch) in Hl
    by apply (rc_heights _ _ Hr).
  assert (forall r, ch = below a_key key ch ++ r ->
    node_next (sl_heap sl) (spred 0) 0 = Some (a_loc <$> head r)) as Hnext.
  { intros r Hch. rewrite Hch, fmap_app in Hl.
    assert (0 < MaxLevel)%nat as Hm by (unfold MaxLevel; lia).
    specialize (Hl Hm). apply linked_app in Hl. unfold pred.
    rewrite (level_nodes_0 (below _ _ _)) by apply Forall_filter, (rc_heights _ _ Hr).
    destruct r; simpl in *; [done|]. by destruct Hl as [-> _]. }
  destruct (key_sorted_split a_key key ch (rc_sorted _ _ Hr)) as [(a & Ha & Hch)|[Hch Hn]].
  - exists (Some (a_loc a)). split; [by rewrite (Hnext _ Hch)|]. left.
    assert (a ∈ ch) as Hin by (rewrite Hch; apply elem_of_app; right; by left).
    pose proof (rc_nodes _ _ Hr) as Hnodes. rewrite Forall_forall in Hnodes.
    destruct (Hnodes _ Hin) as (nd & H1 & H2 & H3 & H4).
    exists a, nd. simpl. rewrite H1. simpl. rewrite H2, Ha.
    split_and!; try done. unfold bytes_eqb. by rewrite bool_decide_eq_true_2.
  - exists (a_loc <$> head (above a_key key ch)). split; [by apply Hnext|]. right.
    split_and!; [done..|]. destruct (above a_key key ch) as [|b r]; [done|]. simpl.
    assert (b ∈ ch) as Hin by (rewrite Hch; apply elem_of_app; right; by left).
    pose proof (rc_nodes _ _ Hr) as Hnodes. rewrite Forall_forall in Hnodes, Hn.
    destruct (Hnodes _ Hin) as (nd & H1 & H2 & _). rewrite H1. simpl. rewrite H2.
    unfold bytes_eqb. rewrite bool_decide_eq_false_2; [done|]. by apply Hn.
Qed.
End located.

(** ** Put *)

Lemma entries_bytes_app xs ys :
  entries_bytes (xs ++ ys) = entries_bytes xs + entries_bytes ys.
Proof.
  unfold entries_bytes. induction xs as [|x xs IH]; [done|]. csimpl. rewrite IH. lia.
Qed.

Lemma entries_bytes_cons x ys : entries_bytes (x :: ys) = entry_bytes x + entries_bytes ys.
Proof. done. Qed.

Lemma node_of_shape h a :
  node_of h a <-> shape h (a_loc a) = Some (a_key a, a_val a, a_height a).
Proof.
  unfold node_of, shape. split.
  - intros (nd & -> & <- & <- & <-). done.
  - destruct (h !! a_loc a) as [nd|]; [|done]. intros [= <- <- <-]. eauto 10.
Qed.

Lemma node_next_value h c nd v l i :
  h !! c = Some nd ->
  node_next (<[c := mkNode (n_Key nd) v (n_Next nd)]> h) l i = node_next h l i.
Proof.
  intros Hc. unfold node_next. destruct (decide (l = c)) as [->|].
  - by rewrite lookup_insert_eq, Hc.
  - by rewrite lookup_insert_ne.
Qed.

Definition set_val (a : anode) (v : slice) : anode :=
  mkANode (a_loc a) (a_key a) v (a_height a).

Lemma locs_set_val i (L R : list anode) a v :
  a_loc <$> level_nodes i (L ++ set_val a v :: R) = a_loc <$> level_nodes i (L ++ a :: R).
Proof.
  rewrite !level_nodes_app, !level_nodes_cons. simpl.
  case_decide; rewrite ?fmap_app; done.
Qed.

Lemma put_existing sl L a R nd v :
  repr_chain sl (L ++ a :: R) -> sl_heap sl !! a_loc a = Some nd ->
  repr_chain
    (mkSkipList (<[a_loc a := mkNode (n_Key nd) v (n_Next nd)]> (sl_heap sl))
       (sl_alloc sl) (sl_Head sl) (sl_Level sl) (sl_Size sl)
       (sl_SizeBytes sl + (len (slice_bytes v) - len (slice_bytes (n_Value nd))))
       (sl_rand sl))
    (L ++ set_val a v :: R).
Proof.
  intros [[hd [Hhd Hhdl]] Hn Hh Hl Hs Hd Hf Hlv Hsz Hby] Hnd.
  rewrite fmap_app, fmap_cons in Hd.
  assert (sl_Head sl <> a_loc a) as Hha.
  { apply NoDup_cons in Hd as [Hd _]. intros E. apply Hd. rewrite E.
    apply elem_of_app. right. by left. }
  assert (Forall (fun b => a_loc b <> a_loc a) (L ++ R)) as Hne.
  { apply NoDup_cons in Hd as [_ Hd]. apply NoDup_app in Hd as (_ & Hd1 & Hd2).
    apply NoDup_cons in Hd2 as [Hd2 _]. apply Forall_app. rewrite !Forall_forall. split.
    - intros b Hb E. apply (Hd1 (a_loc b)); [by apply list_elem_of_fmap_2|].
      rewrite E. by left.
    - intros b Hb E. apply Hd2. rewrite <- E. by apply list_elem_of_fmap_2. }
  assert (forall l, (sl_alloc sl <= l)%nat -> l <> a_loc a) as Hfresh.
  { intros l Hle ->. by rewrite Hf in Hnd. }
  apply Forall_app in Hne as [HneL HneR].
  apply Forall_app in Hn as [HnL [Hna HnR]%Forall_cons].
  assert (forall b, node_of (sl_heap sl) b -> a_loc b <> a_loc a ->
    node_of (<[a_loc a := mkNode (n_Key nd) v (n_Next nd)]> (sl_heap sl)) b) as Hkeep.
  { intros b (ndb & ? & ?) Hb. exists ndb. by rewrite lookup_insert_ne. }
  destruct Hna as (nd' & Hnd' & Hk & Hv & Hlen). simplify_eq.
  constructor; simpl.
  - exists hd. by rewrite lookup_insert_ne.
  - apply Forall_app. split; [|apply Forall_cons; split].
    + rewrite Forall_forall in *. auto.
    + eexists. simpl. by rewrite lookup_insert_eq.
    + rewrite Forall_forall in *. auto.
  - rewrite Forall_app, Forall_cons in *. done.
  - intros i Hi. rewrite locs_set_val. eapply linked_ext; [|by apply Hl].
    intros l _. by rewrite node_next_value.
  - apply (key_sorted_fmap a_key id a_key) in Hs; [|done].
    apply (key_sorted_fmap a_key id a_key); [done|].
    rewrite fmap_app, fmap_cons in *. exact Hs.
  - by rewrite fmap_app, fmap_cons.
  - intros l Hle. rewrite lookup_insert_ne; [auto|]. by apply not_eq_sym, Hfresh.
  - done.
  - rewrite Hsz. unfold len. rewrite !length_app. done.
  - rewrite Hby, !fmap_app, !fmap_cons, !entries_bytes_app, !entries_bytes_cons.
    unfold entry_bytes, a_entry; simpl. rewrite Hv. lia.
Qed.

(** The update array of the code covers every level of the new node. *)
Lemma update_covers sl ch key upd newLevel :
  repr_chain sl ch -> length upd = MaxLevel -> (1 <= newLevel <= MaxLevel)%nat ->
  (forall j, (j < sl_Level sl)%nat -> upd !! j = Some (Some (pred (sl_Head sl) ch key j))) ->
  forall level' upd',
  (level', upd') =
    (if decide (sl_Level sl < newLevel)%nat
     then (newLevel, fill_update (sl_Head sl) (sl_Level sl) (newLevel - sl_Level sl) upd)
     else (sl_Level sl, upd)) ->
  (level' = Nat.max (sl_Level sl) newLevel)%nat /\
  forall j, (j < newLevel)%nat -> upd' !! j = Some (Some (pred (sl_Head sl) ch key j)).
Proof.
  intros Hr Hu Hn Hp level' upd' E. case_decide; simplify_eq.
  - split; [lia|]. intros j Hj. rewrite fill_update_lookup by lia. case_decide.
    + rewrite (pred_top sl ch Hr); [done|lia].
    + apply Hp. lia.
  - split; [lia|]. intros j Hj. apply Hp. lia.
Qed.

Lemma linked_elem f cur rest l : linked f cur rest -> l ∈ cur :: rest -> is_Some (f l).
Proof.
  revert cur. induction rest as [|x rest IH]; intros cur; simpl.
  - intros H ->%list_elem_of_singleton. by eexists.
  - intros [H1 H2] [->|Hl]%elem_of_cons; [by eexists|by eapply IH].
Qed.

Lemma shape_None h l : shape h l = None -> h !! l = None.
Proof. unfold shape. by destruct (h !! l). Qed.

(** A new node between [L] and [R]. *)
Section new_node.
Context (sl : SkipList) (L R : list anode) (key : bytes) (v : slice) (newLevel : nat).
Context (Hr : repr_chain sl (L ++ R)) (Hnl : (1 <= newLevel <= MaxLevel)%nat).

Let new : loc := sl_alloc sl.
Let h0 : gmap loc Node := <[new := mkNode key v (replicate newLevel None)]> (sl_heap sl).

(** the node behind which the new one goes at each level *)
Definition put_pred (j : nat) : loc := last_loc (sl_Head sl) (a_loc <$> level_nodes j L).

Lemma old_not_new l : is_Some (sl_heap sl !! l) -> l <> new.
Proof using Hr. intros [nd Hl] ->. unfold new in Hl. by rewrite (rc_fresh _ _ Hr) in Hl. Qed.

Lemma next_not_new l i : is_Some (node_next (sl_heap sl) l i) -> l <> new.
Proof using Hr.
  intros Hs. apply old_not_new. unfold node_next in Hs. destruct (sl_heap sl !! l); [by eexists|by destruct Hs].
Qed.

Lemma next_reached i l :
  (i < MaxLevel)%nat -> l ∈ sl_Head sl :: (a_loc <$> level_nodes i (L ++ R)) ->
  is_Some (node_next (sl_heap sl) l i).
Proof using Hr. intros Hi. by apply (linked_elem _ _ _ _ (rc_linked _ _ Hr i Hi)). Qed.

Lemma pred_reached i : (i < MaxLevel)%nat -> is_Some (node_next (sl_heap sl) (put_pred i) i).
Proof using Hr.
  clear Hnl. intros Hi. apply next_reached; [done|]. rewrite level_nodes_app, fmap_app.
  pose proof (last_loc_elem (sl_Head sl) (a_loc <$> level_nodes i L)) as He.
  rewrite elem_of_cons, elem_of_app in *. unfold put_pred. tauto.
Qed.

Lemma next_old l i : l <> new -> node_next h0 l i = node_next (sl_heap sl) l i.
Proof using. intros Hl. unfold node_next, h0. by rewrite lookup_insert_ne. Qed.

(** what the loop of [Put] does to the pointers *)
Definition spliced (h' : gmap loc Node) : Prop :=
  (forall l, shape h' l = shape h0 l) /\
  forall l j, node_next h' l j =
    if decide (0 <= j < 0 + newLevel)%nat then
      if decide (l = put_pred j) then Some (Some new)
      else if decide (l = new) then node_next h0 (put_pred j) j else node_next h0 l j
    else node_next h0 l j.

Lemma put_link upd' :
  (forall j, (j < newLevel)%nat -> upd' !! j = Some (Some (put_pred j))) ->
  exists h', link upd' new newLevel 0 h0 = Some h' /\ spliced h'.
Proof using Hr Hnl.
  intros Hupd. apply link_spec. intros j Hj. pose proof (pred_reached j ltac:(lia)) as Hu.
  pose proof (next_not_new _ _ Hu) as Hne. rewrite Hupd, next_old by (done || lia).
  split; [done|]. split; [done|]. split; [done|]. unfold node_next, h0. rewrite lookup_insert_eq. simpl.
  eexists. apply lookup_replicate_2. lia.
Qed.

(** Every level stays a list, with the new node in the lower ones. *)
Lemma spliced_linked h' i :
  spliced h' -> (i < MaxLevel)%nat ->
  linked (fun l => node_next h' l i) (sl_Head sl)
    (a_loc <$> level_nodes i (L ++ mkANode new key v newLevel :: R)).
Proof using Hr Hnl.
  intros [_ Hnext] Hi. rewrite level_nodes_app, level_nodes_cons. simpl.
  pose proof (rc_linked _ _ Hr i Hi) as Hl. pose proof (pred_reached i Hi) as Hu.
  assert (NoDup (sl_Head sl :: (a_loc <$> level_nodes i (L ++ R)))) as Hndi.
  { pose proof (rc_nodup _ _ Hr) as [Hd1 Hd2]%NoDup_cons. apply NoDup_cons.
    split; [|by apply NoDup_fmap_filter].
    intros (a & E & [_ Ha]%list_elem_of_filter)%list_elem_of_fmap. apply Hd1.
    rewrite E. by apply list_elem_of_fmap_2. }
  rewrite level_nodes_app, fmap_app in Hl, Hndi.
  pose proof (next_reached i) as Hri. rewrite level_nodes_app, fmap_app in Hri.
  case_decide.
  - rewrite fmap_app, fmap_cons. simpl. eapply linked_insert; [exact Hndi| |exact Hl|..].
    + intros Hin. by eapply next_not_new; [apply Hri|].
    + simpl. rewrite Hnext, decide_True by lia. by rewrite decide_True.
    + simpl. rewrite Hnext, decide_True by lia. rewrite decide_False; [rewrite decide_True by done|].
      { apply next_old. by eapply next_not_new. }
      { intros E. by eapply next_not_new; [exact Hu|]. }
    + simpl. intros l Hl1 Hl2. rewrite Hnext, decide_True by lia.
      assert (l <> new) by (eapply next_not_new; by apply Hri).
      rewrite !decide_False by done. by apply next_old.
  - rewrite fmap_app. eapply linked_ext; [|exact Hl]. simpl. intros l Hin.
    rewrite Hnext, decide_False by lia. symmetry. apply next_old. eapply next_not_new. by apply Hri.
Qed.

Lemma spliced_shape_old h' l : spliced h' -> l <> new -> shape h' l = shape (sl_heap sl) l.
Proof using. intros [Hs _] Hl. rewrite Hs. unfold shape, h0. by rewrite lookup_insert_ne. Qed.

Lemma spliced_shape_new h' : spliced h' -> shape h' new = Some (key, v, newLevel).
Proof using.
  intros [Hs _]. rewrite Hs. unfold shape, h0. rewrite lookup_insert_eq. simpl. by rewrite length_replicate.
Qed.

(** The old nodes and the new one are nodes of the new heap. *)
Lemma spliced_nodes h' : spliced h' -> Forall (node_of h') (L ++ mkANode new key v newLevel :: R).
Proof using Hr.
  intros Hs. pose proof (rc_nodes _ _ Hr) as Hn.
  assert (Forall (node_of h') (L ++ R)) as HLR.
  { rewrite Forall_forall in *. intros a Ha. pose proof (Hn a Ha) as Hna. apply node_of_shape.
    rewrite spliced_shape_old; [by apply node_of_shape|done|].
    destruct Hna as (nd & E & _). apply old_not_new. by eexists. }
  apply Forall_app in HLR as [HL' HR']. apply Forall_app. split; [done|]. apply Forall_cons. split; [|done].
  by apply node_of_shape, spliced_shape_new.
Qed.

Lemma spliced_nodup : NoDup (sl_Head sl :: (a_loc <$> L ++ mkANode new key v newLevel :: R)).
Proof using Hr.
  pose proof (rc_nodup _ _ Hr) as Hd. rewrite fmap_app, fmap_cons in *. simpl. rewrite app_comm_cons in *.
  rewrite <- Permutation_middle. apply NoDup_cons. split; [|done]. rewrite <- app_comm_cons, <- fmap_app.
  rewrite elem_of_cons, list_elem_of_fmap. destruct (rc_head _ _ Hr) as (hd & Hhd & _).
  intros [E|(a & E & Ha)]; [by apply (old_not_new (sl_Head sl)); [eexists|]|].
  pose proof (rc_nodes _ _ Hr) as Hn. rewrite Forall_forall in Hn. destruct (Hn a Ha) as (nd & Hnd & _).
  by apply (old_not_new (a_loc a)); [eexists|].
Qed.

Lemma put_new level' upd' rand' :
  L = below a_key key (L ++ R) -> R = above a_key key (L ++ R) ->
  level' = Nat.max (sl_Level sl) newLevel ->
  (forall j, (j < newLevel)%nat -> upd' !! j = Some (Some (put_pred j))) ->
  exists h', link upd' new newLevel 0 h0 = Some h' /\
  repr_chain
    (mkSkipList h' (S new) (sl_Head sl) level' (sl_Size sl + 1)
       (sl_SizeBytes sl + (len key + len (slice_bytes v))) rand')
    (L ++ mkANode new key v newLevel :: R).
Proof using Hr Hnl.
  intros HL HR -> Hupd. destruct (put_link upd' Hupd) as (h' & Hlink & Hs).
  exists h'. split; [exact Hlink|].
  pose proof Hr as [[hd [Hhd Hhdl]] Hn Hh _ Hsort _ Hf Hlv Hsz Hby].
  constructor; cbn [sl_heap sl_Head sl_Level sl_alloc sl_Size sl_SizeBytes].
  - pose proof (spliced_shape_old h' (sl_Head sl) Hs (old_not_new _ (mk_is_Some _ _ Hhd))) as Hsh.
    unfold shape in Hsh. rewrite Hhd in Hsh.
    destruct (h' !! sl_Head sl) as [nd|]; [|done]. simplify_eq/=. exists nd. split; congruence.
  - by apply spliced_nodes.
  - rewrite Forall_app, Forall_cons in *. destruct Hh as [Hh1 Hh2].
    split_and!; [| simpl; lia | simpl; lia |];
      (eapply Forall_impl; [eassumption|]; simpl; intros; lia).
  - intros i Hi. by apply spliced_linked.
  - pose proof (key_sorted_put a_key key (L ++ R) (mkANode new key v newLevel) Hsort eq_refl)
      as Hp. by rewrite <- HL, <- HR in Hp.
  - apply spliced_nodup.
  - intros l Hl'. change (S (sl_alloc sl) <= l)%nat in Hl'.
    assert (l <> new) as Hne by (unfold new; intros ->; lia).
    apply shape_None. rewrite (spliced_shape_old h' l Hs Hne). unfold shape. by rewrite Hf by lia.
  - lia.
  - rewrite Hsz. unfold len. rewrite !length_app. simpl. lia.
  - rewrite Hby, !fmap_app, !fmap_cons, !entries_bytes_app, !entries_bytes_cons.
    unfold entry_bytes, a_entry; simpl. lia.
Qed.
End new_node.

(** ** Correctness of the operations *)

(** [NewSkipList] is an empty memtable. *)
Lemma NewSkipList_repr rand : repr (NewSkipList rand) [].
Proof.
  exists []. split; [|done]. constructor; simpl; try done.
  - eexists. split; done.
  - intros i Hi. unfold node_next. rewrite lookup_singleton_eq.
    by apply (lookup_replicate_2 MaxLevel).
  - constructor.
  - apply NoDup_singleton.
  - intros l Hl. apply lookup_singleton_ne. lia.
  - unfold MaxLevel. lia.
Qed.

Lemma SkipList_Put_spec sl es key v :
  repr sl es ->
  exists sl', SkipList_Put sl key v = Some sl' /\ repr sl' (entries_put key v es).
Proof.
  intros (ch & Hr & ->). unfold SkipList_Put, entries_put.
  destruct (search_located sl ch Hr key) as (upd & -> & Hlen & Hupd).
  destruct (next_located sl ch Hr key) as (nx & Hnx & Hcase). simpl. rewrite Hnx. simpl.
  rewrite (below_fmap a_entry _ a_key), (above_fmap a_entry _ a_key) by done.
  destruct Hcase as [(a & nd & Hch & Ha & Hnd & Hv & Hk & Hln & ->)|(Hch & Hne & ->)]; simpl.
  - eexists. split; [done|]. rewrite Hch in Hr.
    eexists. split; [by eapply put_existing|].
    rewrite fmap_app, fmap_cons. unfold a_entry at 4. simpl. by rewrite Ha.
  - pose proof (randomLevel_bounds (sl_rand sl)) as Hb.
    destruct (randomLevel (sl_rand sl)) as [newLevel rand'].
    destruct (if decide _ then _ else _) as [level' upd'] eqn:E.
    destruct (update_covers sl ch key upd newLevel Hr Hlen Hb Hupd level' upd' (eq_sym E))
      as [Hl' Hupd'].
    rewrite Hch in Hr.
    destruct (put_new sl _ _ key v newLevel Hr Hb level' upd' rand') as (h' & -> & Hr'); rewrite <- ?Hch; try done.
    eexists. split; [done|]. eexists. split; [exact Hr'|].
    by rewrite fmap_app, fmap_cons.
Qed.

Lemma repr_sorted sl es : repr sl es -> key_sorted fst es.
Proof.
  intros (ch & Hr & ->). by apply (key_sorted_fmap a_entry fst a_key), (rc_sorted _ _ Hr).
Qed.

Lemma repr_size sl es : repr sl es -> sl_Size sl = len es.
Proof.
  intros (ch & Hr & ->). rewrite (rc_size _ _ Hr). unfold len. by rewrite length_fmap.
Qed.

Lemma SkipList_Get_spec sl es key :
  repr sl es ->
  SkipList_Get sl key = Some ((list_to_map es : gmap bytes slice) !! key).
Proof.
  intros Hrepr. pose proof (repr_sorted _ _ Hrepr) as Hs. destruct Hrepr as (ch & Hr & ->).
  unfold SkipList_Get.
  destruct (search_located sl ch Hr key) as (upd & -> & _ & _).
  destruct (next_located sl ch Hr key) as (nx & Hnx & Hcase). simpl. rewrite Hnx. simpl.
  destruct Hcase as [(a & nd & Hch & Ha & Hnd & Hv & Hk & Hln & ->)|(Hch & Hne & ->)]; simpl.
  - f_equal. symmetry. apply list_to_map_sorted_lookup; [done|].
    rewrite Hch, fmap_app, fmap_cons, elem_of_app. right. unfold a_entry at 1.
    rewrite Ha, Hv. by left.
  - f_equal. symmetry. apply list_to_map_notin, Forall_fmap.
    eapply Forall_impl; [exact Hne|]. done.
Qed.

Lemma iterate_spec h ch it fuel :
  Forall (node_of h) ch -> linked (fun l => node_next h l 0) it (a_loc <$> ch) ->
  (length ch < fuel)%nat -> iterate fuel h it = Some (a_entry <$> ch).
Proof.
  revert it fuel. induction ch as [|a ch IH]; intros it [|fuel] Hn Hl Hf; simpl in Hf; try lia.
  - simpl in *. unfold SkipListIterator_Next. by rewrite Hl.
  - rewrite fmap_cons in Hl. destruct Hl as [Hl1 Hl2]. cbn [iterate].
    unfold SkipListIterator_Next. rewrite Hl1. cbn [mbind option_bind].
    apply Forall_cons in Hn as [(nd & -> & Hk & Hv & _) Hn]. cbn [mbind option_bind].
    rewrite (IH _ _ Hn Hl2) by lia. simpl. by rewrite Hk, Hv.
Qed.

(** The iterator yields the entries in key order. *)
Lemma SkipList_entries_spec sl es : repr sl es -> SkipList_entries sl = Some es.
Proof.
  intros (ch & Hr & ->). apply iterate_spec.
  - apply (rc_nodes _ _ Hr).
  - pose proof (rc_linked _ _ Hr 0%nat) as Hl. rewrite (level_nodes_0 sl) in Hl
      by apply (rc_heights _ _ Hr). apply Hl. unfold MaxLevel. lia.
  - eapply Nat.lt_trans; [eapply (chain_size _ (sl_Head sl))|]; try apply Hr; [|lia].
    by eapply head_some.
Qed.

(** A sequence of writes. *)
Fixpoint put_all (ops : list (bytes * slice)) (sl : SkipList) : option SkipList :=
  match ops with
  | [] => Some sl
  | (k, v) :: ops' => sl' ← SkipList_Put sl k v; put_all ops' sl'
  end.

Definition put_entries (ops es : list (bytes * slice)) : list (bytes * slice) :=
  foldl (fun es e => entries_put e.1 e.2 es) es ops.

Lemma put_all_repr ops : forall sl es,
  repr sl es -> exists sl', put_all ops sl = Some sl' /\ repr sl' (put_entries ops es).
Proof.
  induction ops as [|[k v] ops IH]; intros sl es Hr; [by exists sl|].
  destruct (SkipList_Put_spec sl es k v Hr) as (sl' & E & Hr'). cbn [put_all].
  rewrite E. by apply IH.
Qed.

Lemma put_entries_map ops : forall es,
  key_sorted fst es ->
  (list_to_map (put_entries ops es) : gmap bytes slice) =
  foldl (fun m e => <[e.1 := e.2]> m) (list_to_map es) ops.
Proof.
  induction ops as [|[k v] ops IH]; intros es Hs; [done|].
  change (put_entries ((k, v) :: ops) es) with (put_entries ops (entries_put k v es)).
  rewrite IH by (by apply sorted_entries_put). by rewrite list_to_map_put.
Qed.

(** ** Properties *)

(** C15: The skip list implements a map.  For every random choice of levels,
    a sequence of [Put]s never panics, and [Get] then returns for every key the
    value of the last write to it (a nil value included), and nothing for the
    other keys. *)
Theorem memtable_refines_map (rand : list bool) (ops : list (bytes * slice)) :
  exists sl, put_all ops (NewSkipList rand) = Some sl /\
  forall k, SkipList_Get sl k = Some (foldl (fun m e => <[e.1 := e.2]> m) (∅ : gmap bytes slice) ops !! k).
Proof.
  destruct (put_all_repr ops _ _ (NewSkipList_repr rand)) as (sl & E & Hr).
  exists sl. split; [done|]. intros k. rewrite (SkipList_Get_spec _ _ _ Hr).
  by rewrite put_entries_map by constructor.
Qed.

(** C16: The iterator of the skip list ends and yields every key once, in
    strictly increasing order, with its last value; [Size] is the number of keys
    and [SizeBytes] the number of bytes of the keys and values held. *)
Theorem memtable_iterates_sorted (rand : list bool) (ops : list (bytes * slice)) :
  exists sl es, put_all ops (NewSkipList rand) = Some sl /\
    SkipList_entries sl = Some es /\ key_sorted fst es /\
    (list_to_map es : gmap bytes slice) = foldl (fun m e => <[e.1 := e.2]> m) ∅ ops /\
    sl_Size sl = len es /\ sl_SizeBytes sl = entries_bytes es.
Proof.
  destruct (put_all_repr ops _ _ (NewSkipList_repr rand)) as (sl & E & Hr).
  exists sl, (put_entries ops []). split; [done|].
  split; [by apply SkipList_entries_spec|]. split; [by eapply repr_sorted|].
  split; [by rewrite put_entries_map by constructor|]. split; [by apply repr_size|].
  destruct Hr as (ch & Hc & Hes). rewrite Hes. apply (rc_bytes _ _ Hc).
Qed.
