(* ===== verification/Disk.v ===== *)
(** * The operating system as the engine uses it: [os], [io], [encoding/binary]

    Directory entries name inodes, file handles ([*os.File]) are entries of a
    table of open files, so a handle keeps its inode after the name has been
    renamed or removed.  Every call that changes the disk takes the next
    element of [w_faults] as its outcome; an exhausted list means success.
    File names are relative to the data directory. *)
From stdpp Require Import base gmap sets list strings numbers sorting.
From Stdlib Require Import ZArith Lia Strings.Byte.
From S2P Require Import Prelude.
Open Scope Z_scope.

Definition ino := nat.
Definition fd := nat.

Inductive error :=
| EIO                      (* an injected fault of the device *)
| ENOENT
| ErrClosed
| EOF
| ErrUnexpectedEOF
| Panic                    (* a Go panic; shown unreachable where it appears *)
| ErrMsg (msg : string)
| ErrWrap (msg : string) (e : error).

#[export] Instance error_eq_dec : EqDecision error.
Proof. solve_decision. Defined.

(** outcome of one system call: a failing write has stored [n] bytes first *)
Inductive outcome := Succeeds | Fails (n : nat).

Record World := mkWorld {
  w_dir : gmap string ino;
  w_data : gmap ino bytes;
  w_fds : gmap fd ino;
  w_next : nat;
  w_now : Z;
  w_faults : list outcome
}.

(** [*os.File] *)
Record File := mkFile { f_name : string; f_fd : fd }.

(** ** The state monad of programs over the world *)

Definition IO (A : Type) := World -> A * World.
Definition ret {A} (a : A) : IO A := fun w => (a, w).
#[export] Instance IO_bind : MBind IO := fun A B k m w => let '(a, w') := m w in k a w'.

(** A Go result [(T, error)]. *)
Abbreviation result T := (error + T)%type.
(** A Go result [error]: [None] is nil. *)
Abbreviation err := (option error).

(** [if err := c; err != nil { h }; k] *)
Definition and_then {A} (c : IO err) (h : error -> IO A) (k : IO A) : IO A :=
  e ← c; match e with Some e => h e | None => k end.

(** [r, err := c; if err != nil { h }; k] *)
Definition and_bind {T A} (c : IO (result T)) (h : error -> IO A) (k : T -> IO A) : IO A :=
  r ← c; match r with inl e => h e | inr x => k x end.

Definition gets {A} (f : World -> A) : IO A := fun w => (f w, w).

Definition set_dir (d : gmap string ino) (w : World) : World :=
  mkWorld d (w_data w) (w_fds w) (w_next w) (w_now w) (w_faults w).
Definition set_data (d : gmap ino bytes) (w : World) : World :=
  mkWorld (w_dir w) d (w_fds w) (w_next w) (w_now w) (w_faults w).
Definition set_fds (d : gmap fd ino) (w : World) : World :=
  mkWorld (w_dir w) (w_data w) d (w_next w) (w_now w) (w_faults w).

(** the outcome of the next fallible call *)
Definition next_outcome : IO outcome := fun w =>
  match w_faults w with
  | [] => (Succeeds, w)
  | o :: fs => (o, mkWorld (w_dir w) (w_data w) (w_fds w) (w_next w) (w_now w) fs)
  end.

(** ** Opening *)

(** a handle on inode [i]; descriptors are never reused *)
Definition new_handle (name : string) (i : ino) : IO File := fun w =>
  (mkFile name (w_next w),
   mkWorld (w_dir w) (w_data w) (<[w_next w := i]> (w_fds w)) (S (w_next w))
     (w_now w) (w_faults w)).

(** a fresh empty inode under [name] *)
Definition new_inode (name : string) : IO ino := fun w =>
  (w_next w,
   mkWorld (<[name := w_next w]> (w_dir w)) (<[w_next w := []]> (w_data w)) (w_fds w)
     (S (w_next w)) (w_now w) (w_faults w)).

(** [os.Open]: read only, the file must exist *)
Definition os_Open (name : string) : IO (result File) :=
  d ← gets w_dir;
  match d !! name with
  | None => ret (inl ENOENT)
  | Some i =>
      o ← next_outcome;
      match o with
      | Fails _ => ret (inl EIO)
      | Succeeds => f ← new_handle name i; ret (inr f)
      end
  end.

(** [os.OpenFile] with [O_APPEND|O_CREATE|O_RDWR] *)
Definition os_OpenAppend (name : string) : IO (result File) :=
  o ← next_outcome;
  match o with
  | Fails _ => ret (inl EIO)
  | Succeeds =>
      d ← gets w_dir;
      i ← match d !! name with Some i => ret i | None => new_inode name end;
      f ← new_handle name i; ret (inr f)
  end.

(** [os.Create]: truncates an existing file *)
Definition os_Create (name : string) : IO (result File) :=
  o ← next_outcome;
  match o with
  | Fails _ => ret (inl EIO)
  | Succeeds =>
      d ← gets w_dir;
      i ← match d !! name with
           | Some i => (fun w => (i, set_data (<[i := []]> (w_data w)) w)) : IO ino
           | None => new_inode name
           end;
      f ← new_handle name i; ret (inr f)
  end.

(** ** Operations on an open file *)

Definition file_ino (w : World) (f : File) : option ino := w_fds w !! f_fd f.

(** the bytes behind a handle, [None] once it is closed *)
Definition file_data (w : World) (f : File) : option bytes :=
  i ← file_ino w f; w_data w !! i.

(** [f.Write] at the end of the file: the handles that write are opened with
    [O_APPEND] or are only ever written sequentially. *)
Definition file_Write (f : File) (p : bytes) : IO err := fun w =>
  match file_ino w f with
  | None => (Some ErrClosed, w)
  | Some i =>
      let '(o, w') := next_outcome w in
      let old := default [] (w_data w' !! i) in
      match o with
      | Succeeds => (None, set_data (<[i := old ++ p]> (w_data w')) w')
      | Fails n => (Some EIO, set_data (<[i := old ++ take n p]> (w_data w')) w')
      end
  end.

(** [binary.Write] of a little-endian integer of [n] bytes *)
Definition binary_Write (f : File) (n : nat) (z : Z) : IO err :=
  file_Write f (le_encode n z).

(** [f.Sync] *)
Definition file_Sync (f : File) : IO err := fun w =>
  match file_ino w f with
  | None => (Some ErrClosed, w)
  | Some _ =>
      let '(o, w') := next_outcome w in
      (match o with Succeeds => None | Fails _ => Some EIO end, w')
  end.

(** [f.Close]: a second close is an error *)
Definition file_Close (f : File) : IO err := fun w =>
  match file_ino w f with
  | None => (Some ErrClosed, w)
  | Some _ =>
      let '(o, w') := next_outcome w in
      (match o with Succeeds => None | Fails _ => Some EIO end,
       set_fds (delete (f_fd f) (w_fds w')) w')
  end.

(** [f.Truncate]: the file is cut, or extended with zeros *)
Definition file_Truncate (f : File) (n : Z) : IO err := fun w =>
  match file_ino w f with
  | None => (Some ErrClosed, w)
  | Some i =>
      let '(o, w') := next_outcome w in
      match o with
      | Fails _ => (Some EIO, w')
      | Succeeds =>
          if n <? 0 then (Some EIO, w') else
          let old := default [] (w_data w' !! i) in
          (None, set_data (<[i := take (Z.to_nat n) old
                       ++ replicate (Z.to_nat n - length old) x00]> (w_data w')) w')
      end
  end.

(** ** Operations on names *)

(** [os.Rename] replaces the destination *)
Definition os_Rename (old new : string) : IO err := fun w =>
  match w_dir w !! old with
  | None => (Some ENOENT, w)
  | Some i =>
      let '(o, w') := next_outcome w in
      match o with
      | Fails _ => (Some EIO, w')
      | Succeeds => (None, set_dir (<[new := i]> (delete old (w_dir w'))) w')
      end
  end.

(** [os.Remove]: the inode lives on behind the open handles *)
Definition os_Remove (name : string) : IO err := fun w =>
  match w_dir w !! name with
  | None => (Some ENOENT, w)
  | Some _ =>
      let '(o, w') := next_outcome w in
      match o with
      | Fails _ => (Some EIO, w')
      | Succeeds => (None, set_dir (delete name (w_dir w')) w')
      end
  end.

(** [os.RemoveAll] and [os.MkdirAll] of the data directory: it is empty again.  A
    removal that fails has removed some of the files, in an order of its own: the
    bits of [n] say which. *)
Definition survivors (n : nat) (dir : gmap string ino) : gmap string ino :=
  list_to_map (omap (fun x => if Nat.testbit n x.1 then None else Some x.2)
                    (imap pair (map_to_list dir))).

Definition os_RemoveAll : IO err := fun w =>
  let '(o, w') := next_outcome w in
  match o with
  | Fails n => (Some EIO, set_dir (survivors n (w_dir w')) w')
  | Succeeds => (None, set_dir ∅ w')
  end.
Definition os_MkdirAll : IO err := fun w =>
  let '(o, w') := next_outcome w in
  (match o with Fails _ => Some EIO | Succeeds => None end, w').

(** [os.Stat(name).Size()] *)
Definition os_Stat_Size (w : World) (name : string) : result Z :=
  match w_dir w !! name with
  | None => inl ENOENT
  | Some i => inr (len (default [] (w_data w !! i)))
  end.

(** ** Reading

    Reads work on the bytes of the file and a position, and return the bytes
    and the new position.  Sizes come from the file itself and can be as large
    as [2^32], so the length test is on integers. *)

Definition suffix_at (data : bytes) (pos : Z) : bytes :=
  if pos <? len data then drop (Z.to_nat pos) data else [].

(** [io.ReadFull] of [n] bytes at [pos] *)
Definition ReadFull (data : bytes) (pos n : Z) : result (bytes * Z) :=
  if n =? 0 then inr ([], pos) else
  let rest := suffix_at data pos in
  if n <=? len rest then inr (take (Z.to_nat n) rest, pos + n)
  else if len rest =? 0 then inl EOF else inl ErrUnexpectedEOF.

(** [binary.Read] of a little-endian integer of [n] bytes *)
Definition binary_Read (data : bytes) (pos : Z) (n : nat) : result (Z * Z) :=
  match ReadFull data pos (Z.of_nat n) with
  | inl e => inl e
  | inr (p, pos') => inr (le_decode p, pos')
  end.

(** ** Lemmas on reading *)

Lemma suffix_at_app pre rest pos : pos = len pre -> suffix_at (pre ++ rest) pos = rest.
Proof.
  intros ->. unfold suffix_at. rewrite len_app, to_nat_len, drop_app_length.
  destruct (Z.ltb_spec (len pre) (len pre + len rest)); [done|].
  symmetry. apply len_zero. lens.
Qed.

(** Reading exactly the bytes that were written there. *)
Lemma ReadFull_app pre p post pos n :
  pos = len pre -> n = len p -> ReadFull (pre ++ p ++ post) pos n = inr (p, pos + n).
Proof.
  intros Hpos Hn. unfold ReadFull. destruct (Z.eqb_spec n 0) as [E|E].
  - assert (p = []) as -> by (apply len_zero; lia). do 2 f_equal. lia.
  - rewrite suffix_at_app, len_app by done.
    rewrite (proj2 (Z.leb_le _ _)) by lens.
    subst n. by rewrite to_nat_len, take_app_length.
Qed.

(** Reading past the end. *)
Lemma ReadFull_short pre rest pos n :
  pos = len pre -> len rest < n ->
  ReadFull (pre ++ rest) pos n = inl (if decide (rest = []) then EOF else ErrUnexpectedEOF).
Proof.
  intros Hpos Hn. unfold ReadFull.
  rewrite (proj2 (Z.eqb_neq _ _)) by lens. rewrite suffix_at_app by done.
  rewrite (proj2 (Z.leb_gt _ _)) by lia. case_decide as E.
  - by subst.
  - rewrite (proj2 (Z.eqb_neq _ _)); [done|]. intros ?%len_zero. done.
Qed.

Lemma binary_Read_app pre p post pos n :
  pos = len pre -> length p = n ->
  binary_Read (pre ++ p ++ post) pos n = inr (le_decode p, pos + Z.of_nat n).
Proof.
  intros Hpos Hn. unfold binary_Read. rewrite ReadFull_app; [done|done|]. unfold len. lia.
Qed.

Lemma ReadFull_inr data pos n p pos' :
  0 <= pos -> 0 <= n -> ReadFull data pos n = inr (p, pos') ->
  pos' = pos + n /\ len p = n /\ (0 < n -> pos + n <= len data).
Proof.
  intros H1 H2. unfold ReadFull. destruct (Z.eqb_spec n 0) as [->|E].
  { intros [= <- <-]. unfold len; simpl; lia. }
  unfold suffix_at. destruct (Z.ltb_spec pos (len data)) as [Hp|Hp].
  - destruct (Z.leb_spec n (len (drop (Z.to_nat pos) data))) as [Hle|]; [|by case_match].
    intros [= <- <-]. unfold len in *. rewrite length_take. rewrite length_drop in *. lia.
  - rewrite len_nil. rewrite (proj2 (Z.leb_gt _ _)) by lia. by case_match.
Qed.

(** Cutting a file beyond the bytes that are read changes nothing. *)
Lemma ReadFull_take data pos n v :
  0 <= pos -> 0 <= n -> pos + n <= v <= len data ->
  ReadFull (take (Z.to_nat v) data) pos n = ReadFull data pos n.
Proof.
  intros H1 H2 Hv. unfold ReadFull. destruct (Z.eqb_spec n 0); [done|].
  unfold suffix_at, len in *. rewrite length_take.
  rewrite !(proj2 (Z.ltb_lt _ _)) by lia. rewrite skipn_firstn_comm.
  rewrite length_take, length_drop, take_take.
  rewrite !(proj2 (Z.leb_le _ _)) by lia. do 4 f_equal. lia.
Qed.

(** ** Lemmas on the file operations *)

Lemma file_data_set_eq w f i d m :
  file_ino w f = Some i -> file_data (set_data (<[i := d]> m) w) f = Some d.
Proof.
  unfold file_data, file_ino. simpl. intros ->. simpl. apply lookup_insert_eq.
Qed.

Lemma file_data_ino w f d :
  file_data w f = Some d -> exists i, file_ino w f = Some i /\ w_data w !! i = Some d.
Proof. unfold file_data. intros (i & ? & ?)%bind_Some. eauto. Qed.

Lemma next_outcome_ok w : w_faults w = [] -> next_outcome w = (Succeeds, w).
Proof. unfold next_outcome. by intros ->. Qed.

Lemma file_Write_ok f p w i d :
  w_faults w = [] -> file_ino w f = Some i -> w_data w !! i = Some d ->
  file_Write f p w = (None, set_data (<[i := d ++ p]> (w_data w)) w).
Proof.
  intros Hf Hi Hd. unfold file_Write. by rewrite Hi, next_outcome_ok, Hd by done.
Qed.

Lemma file_Sync_ok f w i :
  w_faults w = [] -> file_ino w f = Some i -> file_Sync f w = (None, w).
Proof. intros Hf Hi. unfold file_Sync. by rewrite Hi, next_outcome_ok by done. Qed.

Lemma file_Truncate_ok f w i d n :
  w_faults w = [] -> file_ino w f = Some i -> w_data w !! i = Some d ->
  0 <= n <= len d ->
  file_Truncate f n w = (None, set_data (<[i := take (Z.to_nat n) d]> (w_data w)) w).
Proof.
  intros Hf Hi Hd Hn. unfold file_Truncate. rewrite Hi, next_outcome_ok, Hd by done. simpl.
  rewrite (proj2 (Z.ltb_ge _ _)) by lia. unfold len in Hn.
  replace (Z.to_nat n - length d)%nat with 0%nat by lia. simpl. by rewrite app_nil_r.
Qed.

(** The world in which inode [i] holds [d]; the writes to one file keep a
    world in this form. *)
Definition with_data (i : ino) (d : bytes) (w : World) : World :=
  set_data (<[i := d]> (w_data w)) w.

Lemma with_data_twice i d d' w : with_data i d' (with_data i d w) = with_data i d' w.
Proof. unfold with_data, set_data. simpl. by rewrite insert_insert_eq. Qed.

Lemma with_data_ino i d w f : file_ino (with_data i d w) f = file_ino w f.
Proof. done. Qed.

Lemma Write_with_data f i d p w :
  w_faults w = [] -> file_ino w f = Some i ->
  file_Write f p (with_data i d w) = (None, with_data i (d ++ p) w).
Proof.
  intros Hf Hi. rewrite (file_Write_ok _ _ _ i d); [|done|done|apply lookup_insert_eq].
  f_equal. apply (with_data_twice i d).
Qed.

Lemma and_then_Write {A} f i d p w (h : error -> IO A) k :
  w_faults w = [] -> file_ino w f = Some i ->
  and_then (file_Write f p) h k (with_data i d w) = k (with_data i (d ++ p) w).
Proof. intros Hf Hi. unfold and_then, mbind, IO_bind. by rewrite Write_with_data. Qed.

Lemma and_then_binary_Write {A} f i d n z w (h : error -> IO A) k :
  w_faults w = [] -> file_ino w f = Some i ->
  and_then (binary_Write f n z) h k (with_data i d w) =
  k (with_data i (d ++ le_encode n z) w).
Proof. apply and_then_Write. Qed.

(** Worlds whose counters are ahead of every identifier in use. *)
Record wf_world (w : World) : Prop := {
  ww_fds : forall n, (w_next w <= n)%nat -> w_fds w !! n = None;
  ww_data : forall n, (w_next w <= n)%nat -> w_data w !! n = None;
  ww_dir : forall s i, w_dir w !! s = Some i -> is_Some (w_data w !! i);
  ww_open : forall f i, w_fds w !! f = Some i -> is_Some (w_data w !! i)
}.

Lemma wf_dir_lt w s i : wf_world w -> w_dir w !! s = Some i -> (i < w_next w)%nat.
Proof.
  intros Hw H. destruct (ww_dir w Hw _ _ H) as [d Hd].
  destruct (decide (i < w_next w)%nat); [done|]. rewrite (ww_data w Hw) in Hd; [done|lia].
Qed.

Lemma wf_open_lt w f i : wf_world w -> w_fds w !! f = Some i -> (i < w_next w)%nat.
Proof.
  intros Hw H. destruct (ww_open w Hw _ _ H) as [d Hd].
  destruct (decide (i < w_next w)%nat); [done|]. rewrite (ww_data w Hw) in Hd; [done|lia].
Qed.

Lemma wf_fd_lt w f i : wf_world w -> file_ino w f = Some i -> (f_fd f < w_next w)%nat.
Proof.
  intros Hw Hi. destruct (decide (f_fd f < w_next w)%nat); [done|].
  unfold file_ino in Hi. rewrite (ww_fds w Hw) in Hi; [done|lia].
Qed.
