(* ===== verification/Crc32.v ===== *)
(** * CRC-32 ([hash/crc32], IEEE polynomial, reflected)

    The write-ahead log protects each record with this checksum.  The table
    driven loop of the standard library is given bit by bit; the lemmas show
    that a change of one byte of the message always changes the checksum. *)
From stdpp Require Import base gmap sets list strings numbers sorting.
From Stdlib Require Import ZArith Lia Strings.Byte.
From S2P Require Import Prelude.
Open Scope Z_scope.

Definition crc_poly : Z := 0xedb88320.
Definition crc_mask : Z := 0xffffffff.

Definition crc_bit (c : Z) : Z :=
  if Z.odd c then Z.lxor (Z.div2 c) crc_poly else Z.div2 c.

Definition crc_byte (c : Z) (b : byte) : Z :=
  Nat.iter 8 crc_bit (Z.lxor c (byte_val b)).

(** [crc32.Update]: also the effect of [h.Write(p)] on the running sum *)
Definition crc_update (crc : Z) (p : bytes) : Z :=
  Z.lxor (foldl crc_byte (Z.lxor crc crc_mask) p) crc_mask.

Definition ChecksumIEEE (p : bytes) : Z := crc_update 0 p.

Definition in32 (z : Z) : Prop := 0 <= z < 2 ^ 32.

Lemma in32_bits z : 0 <= z -> in32 z <-> forall l, 32 <= l -> Z.testbit z l = false.
Proof.
  intros Hz. unfold in32. rewrite <- (Z.bounded_iff_bits_nonneg 32 z) by lia. lia.
Qed.

Lemma in32_lxor a b : in32 a -> in32 b -> in32 (Z.lxor a b).
Proof.
  intros Ha Hb. unfold in32 in Ha, Hb.
  assert (0 <= Z.lxor a b) by (apply Z.lxor_nonneg; lia).
  apply in32_bits; [done|]. intros l Hl.
  rewrite Z.lxor_spec. rewrite (proj1 (in32_bits a ltac:(lia)) Ha l Hl).
  by rewrite (proj1 (in32_bits b ltac:(lia)) Hb l Hl).
Qed.

Lemma in32_byte b : in32 (byte_val b).
Proof. unfold in32. pose proof (byte_val_range b). lia. Qed.

Lemma div2_range c : in32 c -> 0 <= Z.div2 c < 2 ^ 31.
Proof. unfold in32. rewrite Z.div2_div. intros. split; [apply Z.div_pos; lia|].
  apply Z.div_lt_upper_bound; lia. Qed.

Lemma in32_bit c : in32 c -> in32 (crc_bit c).
Proof.
  intros Hc. pose proof (div2_range c Hc). assert (in32 (Z.div2 c)) by (unfold in32; lia).
  unfold crc_bit. destruct (Z.odd c); [|done]. by apply in32_lxor.
Qed.

(** The top bit of the new state tells the branch that was taken. *)
Lemma crc_bit_top c : in32 c -> Z.testbit (crc_bit c) 31 = Z.odd c.
Proof.
  intros Hc. pose proof (div2_range c Hc) as Hd.
  assert (Z.testbit (Z.div2 c) 31 = false) as Ht.
  { apply (Z.bounded_iff_bits_nonneg 31); lia. }
  unfold crc_bit. destruct (Z.odd c); [|done]. by rewrite Z.lxor_spec, Ht.
Qed.

Lemma lxor_cancel_r a b c : Z.lxor a c = Z.lxor b c -> a = b.
Proof.
  intros H. apply (f_equal (fun x => Z.lxor x c)) in H.
  by rewrite !Z.lxor_assoc, !Z.lxor_nilpotent, !Z.lxor_0_r in H.
Qed.

Lemma crc_bit_inj a b : in32 a -> in32 b -> crc_bit a = crc_bit b -> a = b.
Proof.
  intros Ha Hb E. pose proof (crc_bit_top a Ha) as Ta. pose proof (crc_bit_top b Hb) as Tb.
  rewrite E, Tb in Ta. rewrite (Z.div2_odd a), (Z.div2_odd b), Ta. do 2 f_equal.
  unfold crc_bit in E. rewrite Ta in E. destruct (Z.odd a); [|done].
  by apply lxor_cancel_r in E.
Qed.

Lemma in32_iter n c : in32 c -> in32 (Nat.iter n crc_bit c).
Proof. intros. induction n; simpl; [done|]. by apply in32_bit. Qed.

Lemma iter_inj n a b :
  in32 a -> in32 b -> Nat.iter n crc_bit a = Nat.iter n crc_bit b -> a = b.
Proof.
  intros Ha Hb. induction n as [|n IH]; simpl; [done|]. intros E.
  apply IH, crc_bit_inj; auto using in32_iter.
Qed.

Lemma in32_crc_byte c b : in32 c -> in32 (crc_byte c b).
Proof. intros. apply in32_iter, in32_lxor; auto using in32_byte. Qed.

Lemma in32_foldl c p : in32 c -> in32 (foldl crc_byte c p).
Proof. revert c. induction p as [|b p IH]; intros c Hc; simpl; [done|]. by apply IH, in32_crc_byte. Qed.

Lemma crc_byte_inj_state a b x : in32 a -> in32 b -> crc_byte a x = crc_byte b x -> a = b.
Proof.
  intros Ha Hb E. apply iter_inj in E; [by apply lxor_cancel_r in E|..];
    apply in32_lxor; auto using in32_byte.
Qed.

Lemma crc_byte_inj_byte c x y : in32 c -> crc_byte c x = crc_byte c y -> x = y.
Proof.
  intros Hc E. apply iter_inj in E; [|apply in32_lxor; auto using in32_byte..].
  rewrite !(Z.lxor_comm c) in E. apply lxor_cancel_r in E. by apply byte_val_inj.
Qed.

Lemma foldl_crc_inj a b p :
  in32 a -> in32 b -> foldl crc_byte a p = foldl crc_byte b p -> a = b.
Proof.
  revert a b. induction p as [|x p IH]; intros a b Ha Hb E; simpl in E; [done|].
  apply IH in E; auto using in32_crc_byte. by apply crc_byte_inj_state in E.
Qed.

Lemma ChecksumIEEE_range p : in32 (ChecksumIEEE p).
Proof. apply in32_lxor; [|done]. by apply in32_foldl. Qed.

(** Replacing one byte of a message by another changes its checksum. *)
Lemma ChecksumIEEE_detects_byte p x y q :
  ChecksumIEEE (p ++ x :: q) = ChecksumIEEE (p ++ y :: q) -> x = y.
Proof.
  unfold ChecksumIEEE, crc_update. intros E. apply lxor_cancel_r in E.
  rewrite !foldl_app in E. simpl in E. apply foldl_crc_inj in E.
  - apply crc_byte_inj_byte in E; [done|]. by apply in32_foldl.
  - by apply in32_crc_byte, in32_foldl.
  - by apply in32_crc_byte, in32_foldl.
Qed.

(** Writing key and value to the running hash is hashing their concatenation. *)
Lemma crc_update_app c p q : crc_update (crc_update c p) q = crc_update c (p ++ q).
Proof.
  unfold crc_update. by rewrite Z.lxor_assoc, Z.lxor_nilpotent, Z.lxor_0_r, foldl_app.
Qed.

(** The standard check value of CRC-32/ISO-HDLC, for the message "123456789". *)
Example ChecksumIEEE_check :
  ChecksumIEEE [x31;x32;x33;x34;x35;x36;x37;x38;x39] = 0xcbf43926.
Proof. vm_compute. reflexivity. Qed.
