(* ===== verification/Wal.v ===== *)
(** * The write-ahead log: [engine/wal/wal.go]

    Records are appended with one [write] and synced; recovery replays the
    valid prefix of the file and truncates the rest.  The buffer in
    which [WriteEntry] assembles a record comes from a pool; [Pool] shows that
    this cannot be noticed, so it does not appear here. *)
From stdpp Require Import base gmap sets list strings numbers sorting.
From Stdlib Require Import ZArith Lia Strings.Byte.
From S2P Require Import Prelude Disk Crc32.
Open Scope Z_scope.

Record WAL := mkWAL {
  wal_file : File;
  wal_path : string;
  wal_sequenceNumber : Z
}.

Definition NewWAL (path : string) : IO (result WAL) :=
  r ← os_OpenAppend path;
  match r with
  | inl e => ret (inl e)
  | inr file => ret (inr (mkWAL file path 0))
  end.

(** [SeqNum (8B)] [Key Size (4B)] [Val Size (4B)] [Checksum (4B)] [Key] [Value] *)
Definition wal_header (seq : Z) (key value : bytes) : bytes :=
  let checksum := crc_update (crc_update 0 key) value in
  le64 seq ++ le32 (u32 (len key)) ++ le32 (u32 (len value)) ++ le32 checksum.

Definition WAL_WriteEntry (w : WAL) (key : bytes) (value : slice) : IO (err * WAL) :=
  let w' := mkWAL (wal_file w) (wal_path w) (u64 (wal_sequenceNumber w + 1)) in
  let record := wal_header (wal_sequenceNumber w') key (slice_bytes value)
                  ++ key ++ slice_bytes value in
  e ← file_Write (wal_file w) record;
  match e with
  | Some e => ret (Some e, w')
  | None => e' ← file_Sync (wal_file w); ret (e', w')
  end.

Definition WAL_Close (w : WAL) : IO err := file_Close (wal_file w).

(** The loop of [Recover]: [file] is the content of the log, [pos] the file
    offset; the result is the data, the sequence number and [validOffset]. *)
Fixpoint recover_loop (fuel : nat) (file : bytes) (pos : Z)
    (data : gmap bytes slice) (sequenceNumber validOffset : Z)
    : option (gmap bytes slice * Z * Z) :=
  match fuel with
  | O => None
  | S fuel' =>
      let break := Some (data, sequenceNumber, validOffset) in
      match ReadFull file pos 20 with
      | inl _ => break
      | inr (header, pos1) =>
          let seqNum := le_decode (take 8 header) in
          let keySize := le_decode (take 4 (drop 8 header)) in
          let valSize := le_decode (take 4 (drop 12 header)) in
          let expectedChecksum := le_decode (take 4 (drop 16 header)) in
          match ReadFull file pos1 keySize with
          | inl _ => break
          | inr (key, pos2) =>
              match ReadFull file pos2 valSize with
              | inl _ => break
              | inr (value, pos3) =>
                  if ChecksumIEEE (key ++ value) =? expectedChecksum then
                    recover_loop fuel' file pos3 (<[key := Some value]> data)
                      (if sequenceNumber <? seqNum then seqNum else sequenceNumber)
                      (validOffset + u32 (20 + keySize + valSize))
                  else break
              end
          end
      end
  end.

Definition WAL_Recover (w : WAL) : IO (result (gmap bytes slice) * WAL) := fun world =>
  match file_data world (wal_file w) with
  | None => ((inl ErrClosed, w), world)
  | Some file =>
      match recover_loop (S (length file)) file 0 ∅ (wal_sequenceNumber w) 0 with
      | None => ((inl (ErrMsg "recovery does not terminate"), w), world)
      | Some (data, seq, validOffset) =>
          let w' := mkWAL (wal_file w) (wal_path w) seq in
          let '(e, world') := file_Truncate (wal_file w) validOffset world in
          match e with
          | Some e => ((inl e, w'), world')
          | None => ((inr data, w'), world')
          end
      end
  end.

(** ** Specification *)

(** the bytes of one record, and of a sequence of records numbered from [seq + 1] *)
Definition wal_record (seq : Z) (e : bytes * slice) : bytes :=
  wal_header seq e.1 (slice_bytes e.2) ++ e.1 ++ slice_bytes e.2.

Fixpoint wal_image (seq : Z) (es : list (bytes * slice)) : bytes :=
  match es with
  | [] => []
  | e :: es' => wal_record (seq + 1) e ++ wal_image (seq + 1) es'
  end.

(** the records of entries with any numbers *)
Definition wal_records (ss : list Z) (es : list (bytes * slice)) : bytes :=
  concat (zip_with wal_record ss es).

(** [d] holds the entries [es], with numbers up to [top] in any order: two logs
    that were written one after the other number their records twice *)
Definition logged (d : bytes) (top : Z) (es : list (bytes * slice)) : Prop :=
  exists ss, length ss = length es /\ Forall (fun s => 0 <= s <= top) ss /\ d = wal_records ss es.

(** what a replay of the entries makes of a map; the nil slice comes back as
    the empty slice *)
Definition wal_replay (es : list (bytes * slice)) (m : gmap bytes slice)
    : gmap bytes slice :=
  foldl (fun m e => <[e.1 := Some (slice_bytes e.2)]> m) m es.

(** the sizes a record can hold: the sum in [Recover] is a [uint32] *)
Definition entry_ok (e : bytes * slice) : Prop :=
  20 + len e.1 + len (slice_bytes e.2) < 2 ^ 32.

(** ** Parsing one record *)

Lemma len_wal_header seq key value : len (wal_header seq key value) = 20.
Proof. done. Qed.

Lemma len_wal_record seq e : len (wal_record seq e) = 20 + len e.1 + len (slice_bytes e.2).
Proof. unfold wal_record. autorewrite with len_simpl. rewrite len_wal_header. lia. Qed.

Lemma wal_header_fields seq key value :
  0 <= seq < 2 ^ 64 -> len key < 2 ^ 32 -> len value < 2 ^ 32 ->
  le_decode (take 8 (wal_header seq key value)) = seq /\
  le_decode (take 4 (drop 8 (wal_header seq key value))) = len key /\
  le_decode (take 4 (drop 12 (wal_header seq key value))) = len value /\
  le_decode (take 4 (drop 16 (wal_header seq key value))) = ChecksumIEEE (key ++ value).
Proof.
  intros Hs Hk Hv. unfold wal_header. rewrite crc_update_app.
  fold (ChecksumIEEE (key ++ value)). pose proof (ChecksumIEEE_range (key ++ value)).
  pose proof (len_nonneg key). pose proof (len_nonneg value).
  rewrite !u32_small by done.
  split_and!; simpl take; simpl drop.
  - change (le_decode (le64 seq) = seq). by apply le64_decode.
  - change (le_decode (le32 (len key)) = len key). by apply le32_decode.
  - change (le_decode (le32 (len value)) = len value). by apply le32_decode.
  - match goal with |- le_decode ?l = ?c => change l with (le32 c) end. by apply le32_decode.
Qed.

#[export] Hint Rewrite len_wal_header len_wal_record : len_simpl.

(** A record in the file is replayed and the loop goes on behind it; the
    offset advances by the 32-bit sum of the sizes. *)
Lemma recover_loop_record_u32 fuel pre seq e post data s v :
  len e.1 < 2 ^ 32 -> len (slice_bytes e.2) < 2 ^ 32 -> 0 <= seq < 2 ^ 64 ->
  recover_loop (S fuel) (pre ++ wal_record seq e ++ post) (len pre) data s v =
  recover_loop fuel (pre ++ wal_record seq e ++ post) (len pre + len (wal_record seq e))
    (<[e.1 := Some (slice_bytes e.2)]> data) (Z.max s seq)
    (v + u32 (len (wal_record seq e))).
Proof.
  destruct e as [key value]. unfold wal_record. cbn [fst snd].
  set (val := slice_bytes value). intros Hk Hv Hseq. cbn [recover_loop].
  destruct (wal_header_fields seq key val) as (H1 & H2 & H3 & H4); [done..|].
  rewrite <- !app_assoc. rewrite ReadFull_app by done. rewrite H1, H2, H3, H4.
  rewrite (app_assoc pre), ReadFull_app by lens.
  rewrite (app_assoc (pre ++ _)), ReadFull_app by lens.
  rewrite Z.eqb_refl. f_equal.
  - lens.
  - destruct (Z.ltb_spec s seq); lia.
  - do 2 f_equal. lens.
Qed.

Lemma recover_loop_record fuel pre seq e post data s v :
  entry_ok e -> 0 <= seq < 2 ^ 64 ->
  recover_loop (S fuel) (pre ++ wal_record seq e ++ post) (len pre) data s v =
  recover_loop fuel (pre ++ wal_record seq e ++ post) (len pre + len (wal_record seq e))
    (<[e.1 := Some (slice_bytes e.2)]> data) (Z.max s seq) (v + len (wal_record seq e)).
Proof.
  unfold entry_ok. intros Hok Hseq. rewrite recover_loop_record_u32 by (done || lens).
  rewrite u32_small; [done|]. lens.
Qed.

(** The numbers of the records of an image. *)
Lemma wal_image_records es : forall seq,
  exists ss, length ss = length es /\ Forall (fun s => seq + 1 <= s <= seq + len es) ss /\
    wal_image seq es = wal_records ss es /\ foldl Z.max seq ss = seq + len es.
Proof.
  induction es as [|e es IH]; intros seq.
  - exists []. split_and!; try done. cbn. rewrite len_nil. lia.
  - destruct (IH (seq + 1)) as (ss & Hl & Hs & E & Hm). exists (seq + 1 :: ss). rewrite len_cons.
    pose proof (len_nonneg es). split_and!.
    + cbn. congruence.
    + constructor; [lia|]. eapply Forall_impl; [exact Hs|]. cbn. lia.
    + cbn [wal_image]. by rewrite E.
    + cbn [foldl]. rewrite Z.max_r by lia. rewrite Hm. lia.
Qed.

Lemma logged_image es : logged (wal_image 0 es) (len es) es.
Proof.
  destruct (wal_image_records es 0) as (ss & Hl & Hs & E & _). exists ss. split; [done|].
  split; [|done]. eapply Forall_impl; [exact Hs|]. cbn. lia.
Qed.

Lemma logged_nil top : logged [] top [].
Proof. by exists []. Qed.

Lemma logged_mono d top top' es : logged d top es -> top <= top' -> logged d top' es.
Proof.
  intros (ss & Hl & Hs & E) Hle. exists ss. split; [done|]. split; [|done].
  eapply Forall_impl; [exact Hs|]. cbn. lia.
Qed.

Lemma logged_snoc d top es e :
  logged d top es -> 0 <= top -> logged (d ++ wal_record (top + 1) e) (top + 1) (es ++ [e]).
Proof.
  intros (ss & Hl & Hs & ->) Ht. exists (ss ++ [top + 1]). split; [by rewrite !length_app, Hl|].
  split.
  - apply Forall_app. split; [|repeat constructor; lia]. eapply Forall_impl; [exact Hs|]. cbn. lia.
  - unfold wal_records. rewrite zip_with_app by done. rewrite concat_app. cbn. by rewrite app_nil_r.
Qed.

Lemma foldl_max_range ss : forall s top,
  0 <= s <= top -> Forall (fun x => 0 <= x <= top) ss -> 0 <= foldl Z.max s ss <= top.
Proof.
  induction ss as [|x ss IH]; intros s top Hs Hss; [done|]. apply Forall_cons in Hss as [Hx Hss].
  cbn [foldl]. apply IH; [lia|done].
Qed.

Lemma foldl_max_bounds ss : forall s, Forall (fun x => x <= foldl Z.max s ss) (s :: ss).
Proof.
  induction ss as [|x ss IH]; intros s; [by repeat constructor|]. cbn [foldl].
  specialize (IH (Z.max s x)). apply Forall_cons in IH as [H1 H2].
  repeat constructor; [lia|lia|done].
Qed.

(** A prefix of the file made of whole records is replayed. *)
Lemma recover_loop_records es : forall ss fuel pre post data s v,
  length ss = length es -> Forall entry_ok es -> Forall (fun x => 0 <= x < 2 ^ 64) ss ->
  recover_loop (length es + fuel) (pre ++ wal_records ss es ++ post) (len pre) data s v =
  recover_loop fuel (pre ++ wal_records ss es ++ post) (len pre + len (wal_records ss es))
    (wal_replay es data) (foldl Z.max s ss) (v + len (wal_records ss es)).
Proof.
  induction es as [|e es IH]; intros [|x ss] fuel pre post data s v Hl Hok Hs; try done.
  - unfold wal_records. cbn [zip_with concat length app wal_replay foldl Nat.add].
    by rewrite len_nil, !Z.add_0_r.
  - apply Forall_cons in Hok as [He Hok]. apply Forall_cons in Hs as [Hx Hs].
    injection Hl as Hl. cbn [length Nat.add].
    change (wal_records (x :: ss) (e :: es)) with (wal_record x e ++ wal_records ss es).
    rewrite <- app_assoc, recover_loop_record by (done || lia).
    rewrite !len_app, (app_assoc pre), <- len_app.
    rewrite (IH ss fuel (pre ++ wal_record x e)) by (done || lia).
    cbn [wal_replay foldl]. fold (wal_replay es). rewrite len_app. f_equal; lia.
Qed.

(** [tail] holds no complete record: what a write cut short leaves behind. *)
Definition torn (tail : bytes) : Prop :=
  exists seq e n, entry_ok e /\ 0 <= seq < 2 ^ 64 /\
    (n < length (wal_record seq e))%nat /\ tail = take n (wal_record seq e).

(** The loop ends at [tail], wherever it is in the file. *)
Definition stops (tail : bytes) : Prop :=
  forall fuel pre data s v,
    recover_loop (S fuel) (pre ++ tail) (len pre) data s v = Some (data, s, v).

Lemma torn_stops tail : torn tail -> stops tail.
Proof.
  intros (seq & [key value] & n & Hok & Hseq & Hn & ->) fuel pre data s v. unfold entry_ok in Hok.
  unfold wal_record in *. cbn [fst snd] in *. set (val := slice_bytes value) in *.
  pose proof (len_nonneg key). pose proof (len_nonneg val).
  destruct (wal_header_fields seq key val) as (H1 & H2 & H3 & H4); [done|lia..|].
  set (hd := wal_header seq key val) in *.
  assert (len hd = 20) as Hhd by done. clearbody hd.
  assert (length hd = 20%nat) as Hhd' by (unfold len in Hhd; lia).
  rewrite !length_app in Hn. cbn [recover_loop].
  destruct (decide (n < 20)%nat).
  { rewrite (ReadFull_short pre) with (n := 20); [done|done|].
    unfold len. rewrite length_take. lia. }
  rewrite take_app_ge by lia. rewrite Hhd'. rewrite ReadFull_app by done.
  rewrite H2, H3, H4. destruct (decide (n - 20 < length key)%nat).
  { rewrite (app_assoc pre), ReadFull_short; [done|lens|].
    unfold len. rewrite length_take, length_app. lia. }
  rewrite (take_app_ge key) by lia.
  rewrite (app_assoc pre), ReadFull_app by lens.
  rewrite (app_assoc (pre ++ _)), ReadFull_short; [done|lens|].
  unfold len. rewrite length_take. lia.
Qed.

(** Recovery of a log of whole records followed by a torn tail. *)
Lemma recover_loop_complete es ss tail fuel s :
  length ss = length es -> Forall entry_ok es -> Forall (fun x => 0 <= x < 2 ^ 64) ss ->
  stops tail -> (length es < fuel)%nat ->
  recover_loop fuel (wal_records ss es ++ tail) 0 ∅ s 0 =
  Some (wal_replay es ∅, foldl Z.max s ss, len (wal_records ss es)).
Proof.
  intros Hl Hok Hs Ht Hf. replace fuel with (length es + S (fuel - length es - 1))%nat by lia.
  etransitivity; [apply (recover_loop_records es ss _ [] tail ∅ s 0 Hl Hok Hs)|].
  change (len [] + len (wal_records ss es)) with (len (wal_records ss es)).
  by rewrite app_nil_l, Ht.
Qed.

(** A record whose payload does not match its checksum ends the replay. *)
Lemma corrupt_stops seq e payload post :
  entry_ok e -> 0 <= seq < 2 ^ 64 -> len payload = len e.1 + len (slice_bytes e.2) ->
  ChecksumIEEE payload <> ChecksumIEEE (e.1 ++ slice_bytes e.2) ->
  stops (wal_header seq e.1 (slice_bytes e.2) ++ payload ++ post).
Proof.
  destruct e as [key value]. unfold entry_ok. cbn [fst snd].
  set (val := slice_bytes value). intros Hok Hseq Hlen Hcrc fuel pre data s v.
  destruct (wal_header_fields seq key val) as (H1 & H2 & H3 & H4); [done|lens..|].
  cbn [recover_loop]. rewrite ReadFull_app by done. rewrite H2, H3, H4.
  rewrite <- (take_drop (length key) payload).
  set (k' := take _ payload). set (v' := drop _ payload).
  assert (len k' = len key /\ len v' = len val) as [Hk Hv].
  { unfold k', v', len in *. rewrite length_take, length_drop. lia. }
  rewrite <- !app_assoc.
  rewrite (app_assoc pre), ReadFull_app by lens.
  rewrite (app_assoc (pre ++ _)), ReadFull_app by lens.
  unfold k', v'. rewrite take_drop, (proj2 (Z.eqb_neq _ _)); done.
Qed.

Lemma torn_nil : torn [].
Proof.
  exists 0, ([], None), 0%nat. split_and!; try done.
  change (0 < Z.to_nat 20)%nat. lia.
Qed.

Lemma length_wal_records ss es :
  length ss = length es -> (length es <= length (wal_records ss es))%nat.
Proof.
  revert ss. induction es as [|e es IH]; intros [|x ss] Hl; try done. injection Hl as Hl.
  unfold wal_records. cbn [zip_with concat length]. rewrite length_app.
  specialize (IH ss Hl). unfold wal_records in IH.
  pose proof (len_wal_record x e) as H. unfold len in H at 1.
  pose proof (len_nonneg e.1). pose proof (len_nonneg (slice_bytes e.2)). lia.
Qed.

(** ** Arbitrary content *)

(** Inversion of one turn of the loop, with the position it continues at. *)
Lemma recover_loop_step fuel file pos data s v :
  0 <= pos <= len file ->
  recover_loop (S fuel) file pos data s v = Some (data, s, v) \/
  exists key value seq ks vs,
    0 <= ks < 2 ^ 32 /\ 0 <= vs < 2 ^ 32 /\ pos + 20 + ks + vs <= len file /\
    let s' := if s <? seq then seq else s in
    recover_loop (S fuel) file pos data s v =
      recover_loop fuel file (pos + 20 + ks + vs) (<[key := Some value]> data) s'
        (v + u32 (20 + ks + vs)) /\
    forall n fuel', pos + 20 + ks + vs <= n <= len file ->
      recover_loop (S fuel') (take (Z.to_nat n) file) pos data s v =
      recover_loop fuel' (take (Z.to_nat n) file) (pos + 20 + ks + vs)
        (<[key := Some value]> data) s' (v + u32 (20 + ks + vs)).
Proof.
  intros Hpos. cbn [recover_loop].
  destruct (ReadFull file pos 20) as [?|[hd pos1]] eqn:E1; [by left|].
  apply ReadFull_inr in E1 as H1; [|lia..]. destruct H1 as (-> & Hhd & H1).
  set (ks := le_decode (take 4 (drop 8 hd))). set (vs := le_decode (take 4 (drop 12 hd))).
  assert (0 <= ks < 2 ^ 32) as Hks.
  { pose proof (le_decode_range (take 4 (drop 8 hd))) as H. unfold len in *.
    rewrite length_take, length_drop in H. replace (_ `min` _)%nat with 4%nat in H by lia. exact H. }
  assert (0 <= vs < 2 ^ 32) as Hvs.
  { pose proof (le_decode_range (take 4 (drop 12 hd))) as H. unfold len in *.
    rewrite length_take, length_drop in H. replace (_ `min` _)%nat with 4%nat in H by lia. exact H. }
  destruct (ReadFull file (pos + 20) ks) as [?|[key pos2]] eqn:E2; [by left|].
  apply ReadFull_inr in E2 as H2; [|lia..]. destruct H2 as (-> & Hk & H2).
  destruct (ReadFull file (pos + 20 + ks) vs) as [?|[value pos3]] eqn:E3; [by left|].
  apply ReadFull_inr in E3 as H3; [|lia..]. destruct H3 as (-> & Hv & H3).
  destruct (Z.eqb_spec (ChecksumIEEE (key ++ value)) (le_decode (take 4 (drop 16 hd))))
    as [Ec|]; [|by left].
  right. exists key, value, (le_decode (take 8 hd)), ks, vs.
  assert (pos + 20 + ks + vs <= len file) as Hend.
  { destruct (Z.eq_dec vs 0), (Z.eq_dec ks 0); lia. }
  split_and!; try done; try lia. intros n fuel' Hn. cbn [recover_loop].
  rewrite !ReadFull_take by lia. rewrite E1. fold ks vs.
  rewrite !ReadFull_take by lia. rewrite E2, !ReadFull_take by lia. rewrite E3.
  by rewrite Ec, Z.eqb_refl.
Qed.

(** The loop ends: every turn consumes at least a header. *)
Lemma recover_loop_total fuel file pos data s v :
  0 <= pos <= len file -> len file - pos < Z.of_nat fuel ->
  is_Some (recover_loop fuel file pos data s v).
Proof.
  revert pos data s v. induction fuel as [|fuel IH]; intros pos data s v Hpos Hf; [lia|].
  destruct (recover_loop_step fuel file pos data s v Hpos)
    as [->|(key & value & seq & ks & vs & ? & ? & ? & -> & _)]; [by eexists|].
  apply IH; lia.
Qed.

Lemma recover_loop_mono fuel fuel' file pos data s v r :
  recover_loop fuel file pos data s v = Some r -> (fuel <= fuel')%nat ->
  recover_loop fuel' file pos data s v = Some r.
Proof.
  revert fuel' pos data s v. induction fuel as [|fuel IH]; intros [|fuel'] pos data s v E Hf;
    try done; try lia. cbn [recover_loop] in *.
  repeat case_match; simplify_eq; try done; (apply IH; [done|lia]).
Qed.

(** What recovery keeps is a prefix of the file that recovers to the same data. *)
Lemma recover_loop_stable fuel file pos data s d' s' v' :
  0 <= pos <= len file -> len file < 2 ^ 32 ->
  recover_loop fuel file pos data s pos = Some (d', s', v') ->
  pos <= v' <= len file /\
  forall fuel', (fuel <= fuel')%nat ->
    recover_loop fuel' (take (Z.to_nat v') file) pos data s pos = Some (d', s', v').
Proof.
  revert pos data s. induction fuel as [|fuel IH]; intros pos data s Hpos Hlen E; [done|].
  destruct (recover_loop_step fuel file pos data s pos Hpos)
    as [E'|(key & value & seq & ks & vs & ? & ? & Hend & E' & Htake)].
  - rewrite E' in E. simplify_eq. split; [lia|]. intros [|fuel'] Hf; [lia|].
    cbn [recover_loop]. unfold ReadFull at 1. rewrite (proj2 (Z.eqb_neq _ _)) by lia.
    unfold suffix_at. rewrite (proj2 (Z.ltb_ge _ _)).
    2: { unfold len in *. rewrite length_take. lia. }
    rewrite (proj2 (Z.leb_gt _ _)); [|done]. by case_match.
  - rewrite E' in E. rewrite u32_small in * by lia.
    replace (pos + (20 + ks + vs)) with (pos + 20 + ks + vs) in * by lia.
    destruct (IH (pos + 20 + ks + vs) _ _ ltac:(lia) Hlen E) as [Hv Hstable]. split; [lia|].
    intros [|fuel'] Hf; [lia|]. rewrite Htake by lia. apply Hstable. lia.
Qed.

(** ** Writing and recovering through the disk *)

Lemma wal_image_snoc seq es e :
  wal_image seq (es ++ [e]) = wal_image seq es ++ wal_record (seq + len es + 1) e.
Proof.
  revert seq. induction es as [|x es IH]; intros seq; cbn [wal_image app].
  - rewrite app_nil_r. do 2 f_equal. lens.
  - rewrite IH, <- app_assoc. do 3 f_equal. lens.
Qed.

Lemma wal_replay_app es es' m : wal_replay (es ++ es') m = wal_replay es' (wal_replay es m).
Proof. apply foldl_app. Qed.

(** A fault-free [WriteEntry] appends the next record. *)
Lemma WriteEntry_ok wl e w i d :
  w_faults w = [] -> file_ino w (wal_file wl) = Some i -> w_data w !! i = Some d ->
  0 <= wal_sequenceNumber wl -> wal_sequenceNumber wl + 1 < 2 ^ 64 ->
  let s := wal_sequenceNumber wl + 1 in
  WAL_WriteEntry wl e.1 e.2 w =
  ((None, mkWAL (wal_file wl) (wal_path wl) s),
   set_data (<[i := d ++ wal_record s e]> (w_data w)) w).
Proof.
  intros Hf Hi Hd H0 Hs. unfold WAL_WriteEntry, mbind, IO_bind. cbn [wal_sequenceNumber].
  unfold u64. rewrite Z.mod_small by lia. rewrite (file_Write_ok _ _ _ _ _ Hf Hi Hd).
  by erewrite file_Sync_ok.
Qed.

(** Recovery of a log of whole records. *)
Lemma Recover_records f path w i ss es tail s :
  w_faults w = [] -> file_ino w f = Some i ->
  w_data w !! i = Some (wal_records ss es ++ tail) -> stops tail ->
  length ss = length es -> Forall entry_ok es -> Forall (fun x => 0 <= x < 2 ^ 64) ss ->
  WAL_Recover (mkWAL f path s) w =
  ((inr (wal_replay es ∅), mkWAL f path (foldl Z.max s ss)),
   set_data (<[i := wal_records ss es]> (w_data w)) w).
Proof.
  intros Hf Hi Hd Ht Hl Hok Hs. unfold WAL_Recover. cbn [wal_file wal_path].
  assert (file_data w f = Some (wal_records ss es ++ tail)) as ->
    by (unfold file_data; by rewrite Hi).
  cbn [wal_sequenceNumber].
  rewrite recover_loop_complete; try done.
  2: { rewrite length_app. pose proof (length_wal_records ss es Hl). lia. }
  rewrite (file_Truncate_ok _ _ _ _ _ Hf Hi Hd) by lens.
  by rewrite to_nat_len, take_app_length.
Qed.

(** The same for a log described by its entries. *)
Lemma Recover_logged f path w i d top es tail s :
  w_faults w = [] -> file_ino w f = Some i -> w_data w !! i = Some (d ++ tail) -> stops tail ->
  logged d top es -> Forall entry_ok es -> 0 <= s <= top -> top < 2 ^ 64 ->
  exists s', WAL_Recover (mkWAL f path s) w =
    ((inr (wal_replay es ∅), mkWAL f path s'), set_data (<[i := d]> (w_data w)) w) /\
    s <= s' <= top /\ logged d s' es.
Proof.
  intros Hf Hi Hd Ht (ss & Hl & Hss & ->) Hok Hs Htop. exists (foldl Z.max s ss).
  pose proof (foldl_max_bounds ss s) as [H1 H2]%Forall_cons. split.
  - apply (Recover_records _ _ _ _ _ _ tail); try done. eapply Forall_impl; [exact Hss|]. cbn. lia.
  - pose proof (foldl_max_range ss s top Hs Hss). split; [lia|]. exists ss. split; [done|].
    split; [|done]. rewrite Forall_forall in *. intros x Hx. specialize (H2 x Hx).
    specialize (Hss x Hx). cbn in *. lia.
Qed.

(** Recovery of a log written in one go through a fresh handle. *)
Lemma Recover_ok f path w i es tail :
  w_faults w = [] -> file_ino w f = Some i ->
  w_data w !! i = Some (wal_image 0 es ++ tail) -> stops tail ->
  Forall entry_ok es -> len es < 2 ^ 64 ->
  WAL_Recover (mkWAL f path 0) w =
  ((inr (wal_replay es ∅), mkWAL f path (len es)),
   set_data (<[i := wal_image 0 es]> (w_data w)) w).
Proof.
  intros Hf Hi Hd Ht Hok Hlen. destruct (wal_image_records es 0) as (ss & Hl & Hs & E & Hm).
  rewrite E in *. rewrite (Recover_records f path w i ss es tail 0); try done.
  - by rewrite Hm.
  - eapply Forall_impl; [exact Hs|]. cbn. lia.
Qed.

(** A session that logs some entries. *)
Fixpoint wal_write_all (wl : WAL) (es : list (bytes * slice)) : IO (err * WAL) :=
  match es with
  | [] => ret (None, wl)
  | e :: es' =>
      '(r, wl') ← WAL_WriteEntry wl e.1 e.2;
      match r with
      | Some _ => ret (r, wl')
      | None => wal_write_all wl' es'
      end
  end.

Lemma wal_write_all_ok es : forall wl w i d,
  w_faults w = [] -> file_ino w (wal_file wl) = Some i -> w_data w !! i = Some d ->
  0 <= wal_sequenceNumber wl -> wal_sequenceNumber wl + len es < 2 ^ 64 ->
  wal_write_all wl es w =
  ((None, mkWAL (wal_file wl) (wal_path wl) (wal_sequenceNumber wl + len es)),
   set_data (<[i := d ++ wal_image (wal_sequenceNumber wl) es]> (w_data w)) w).
Proof.
  induction es as [|e es IH]; intros [f p s] w i d Hf Hi Hd Hs Hlen; cbn [wal_sequenceNumber] in *.
  - cbn [wal_write_all wal_image]. rewrite app_nil_r, insert_id by done.
    unfold ret, len. simpl. rewrite Z.add_0_r. by destruct w.
  - rewrite len_cons in *. pose proof (len_nonneg es). cbn [wal_write_all]. unfold mbind, IO_bind.
    rewrite (WriteEntry_ok _ e w i d); cbn [wal_sequenceNumber]; try done; try lia.
    rewrite (IH _ _ i (d ++ wal_record (s + 1) e)); cbn; try done; try lia.
    + unfold set_data. cbn. rewrite insert_insert_eq. cbn [wal_image].
      rewrite <- app_assoc. do 3 f_equal. lia.
    + apply lookup_insert_eq.
Qed.

(** ** Properties *)

(** Open a new log, write the entries, close it, reopen it and recover. *)
Definition wal_session (path : string) (es : list (bytes * slice))
    : IO (result (gmap bytes slice * Z)) :=
  r ← NewWAL path;
  match r with
  | inl e => ret (inl e)
  | inr wl =>
      '(r, wl) ← wal_write_all wl es;
      match r with
      | Some e => ret (inl e)
      | None =>
          _ ← WAL_Close wl;
          r ← NewWAL path;
          match r with
          | inl e => ret (inl e)
          | inr wl =>
              '(r, wl) ← WAL_Recover wl;
              match r with
              | inl e => ret (inl e)
              | inr m => ret (inr (m, wal_sequenceNumber wl))
              end
          end
      end
  end.

(** C13: Entries written to a fresh log are what recovery returns after the log has
    been closed and reopened, but for nil values: later writes of a key win, the nil
    value of a tombstone comes back as an empty value, and the sequence number
    continues where the writer stopped. *)
Theorem wal_recovers_writes (path : string) (es : list (bytes * slice)) (w : World)
    (Hf : w_faults w = []) (Hnew : w_dir w !! path = None)
    (Hok : Forall entry_ok es) (Hlen : len es < 2 ^ 64) :
  (wal_session path es w).1 = inr (wal_replay es ∅, len es).
Proof.
  unfold wal_session, NewWAL, os_OpenAppend, mbind, IO_bind.
  rewrite (next_outcome_ok w Hf). unfold gets. rewrite Hnew. simpl.
  erewrite (wal_write_all_ok es _ _ (w_next w) []); cbn.
  2: exact Hf. 2: apply lookup_insert_eq. 2: by rewrite lookup_insert_eq. 2: done. 2: lia.
  unfold WAL_Close, file_Close, file_ino. cbn. rewrite lookup_insert_eq.
  rewrite next_outcome_ok by done. cbn. rewrite next_outcome_ok by done. cbn.
  rewrite lookup_insert_eq. cbn.
  rewrite (Recover_ok _ _ _ (w_next w) es []); try done; cbn.
  - apply lookup_insert_eq.
  - by rewrite lookup_insert_eq, app_nil_r.
  - apply torn_stops, torn_nil.
Qed.

(** C14: A write that is cut short is all or nothing: when [WriteEntry] fails
    after [n] bytes have reached the file, recovery yields either all the
    entries logged before, or those and the new one, and which of the two
    depends only on whether the record was complete. *)
Theorem wal_write_atomic (wl : WAL) (es : list (bytes * slice)) (e : bytes * slice)
    (w : World) (n : nat) (f : File) (i : ino)
    (Hf : w_faults w = [Fails n])
    (Hi : file_ino w (wal_file wl) = Some i) (Hfi : file_ino w f = Some i)
    (Hd : w_data w !! i = Some (wal_image 0 es))
    (Hseq : wal_sequenceNumber wl = len es) (Hlen : len es + 1 < 2 ^ 64)
    (Hok : Forall entry_ok (es ++ [e])) :
  let '((r, _), w') := WAL_WriteEntry wl e.1 e.2 w in
  r = Some EIO /\
  (WAL_Recover (mkWAL f (wal_path wl) 0) w').1.1 =
    inr (wal_replay (if decide (length (wal_record (len es + 1) e) <= n)%nat
                     then es ++ [e] else es) ∅).
Proof.
  unfold WAL_WriteEntry, mbind, IO_bind. cbn [wal_sequenceNumber].
  rewrite Hseq. unfold u64. rewrite Z.mod_small by lens. fold (wal_record (len es + 1) e).
  remember (wal_record (len es + 1) e) as rec eqn:Hrec. unfold file_Write. rewrite Hi. unfold next_outcome. rewrite Hf. cbn [w_data]. rewrite Hd.
  cbn. split; [done|]. apply Forall_app in Hok as [Hok He]. case_decide as Hn.
  - rewrite take_ge by done. erewrite Recover_ok with (es := es ++ [e]) (tail := []).
    + done.
    + done.
    + exact Hfi.
    + cbn. by rewrite lookup_insert_eq, wal_image_snoc, app_nil_r, Hrec.
    + apply torn_stops, torn_nil.
    + by apply Forall_app.
    + lens.
  - erewrite Recover_ok with (es := es) (tail := take n rec).
    + done.
    + done.
    + exact Hfi.
    + cbn. apply lookup_insert_eq.
    + apply torn_stops. exists (len es + 1), e, n. apply Forall_cons in He as [He _].
      subst rec. split_and!; try done; lens.
    + done.
    + lens.
Qed.

(** C22: Recovery is stable on any file shorter than 4 GiB, however damaged: when no
    system call fails, it succeeds, keeps a prefix of the file, and recovering that
    prefix again gives the same data and changes nothing. *)
Theorem wal_recover_stable (f : File) (path : string) (w : World) (i : ino) (d : bytes)
    (Hf : w_faults w = []) (Hi : file_ino w f = Some i) (Hd : w_data w !! i = Some d)
    (Hlen : len d < 2 ^ 32) :
  exists m wl n w',
    WAL_Recover (mkWAL f path 0) w = ((inr m, wl), w') /\
    w_data w' !! i = Some (take n d) /\
    WAL_Recover (mkWAL f path 0) w' = ((inr m, wl), w').
Proof.
  assert (file_data w f = Some d) as Hfd by (unfold file_data; by rewrite Hi).
  destruct (recover_loop_total (S (length d)) d 0 ∅ 0 0) as [[[m s] v] E];
    [lens|unfold len; lia|].
  destruct (recover_loop_stable _ d 0 ∅ 0 m s v ltac:(lens) Hlen E) as [Hv Hstable].
  exists m, (mkWAL f path s), (Z.to_nat v), (set_data (<[i := take (Z.to_nat v) d]> (w_data w)) w).
  unfold WAL_Recover. cbn [wal_file wal_path wal_sequenceNumber].
  rewrite Hfd, E, (file_Truncate_ok _ _ _ _ _ Hf Hi Hd Hv). split; [done|].
  split; [apply lookup_insert_eq|].
  erewrite file_data_set_eq by done.
  assert (length (take (Z.to_nat v) d) = Z.to_nat v) as Hl.
  { unfold len in Hv. rewrite length_take. lia. }
  assert (recover_loop (S (length (take (Z.to_nat v) d))) (take (Z.to_nat v) d) 0 ∅ 0 0
          = Some (m, s, v)) as ->.
  { destruct (recover_loop_total (S (length (take (Z.to_nat v) d))) (take (Z.to_nat v) d) 0 ∅ 0 0)
      as [r Hr]; [lens|unfold len; lia|]. rewrite Hr, <- (Hstable (S (length d)) (Nat.le_refl _)).
    symmetry. eapply recover_loop_mono; [exact Hr|]. unfold len in Hv. lia. }
  erewrite file_Truncate_ok; [|done|exact Hi|apply lookup_insert_eq|].
  - unfold set_data at 3. cbn. rewrite insert_insert_eq, take_take, Nat.min_id. done.
  - unfold len. rewrite Hl. lia.
Qed.

(** C23: Corruption of a payload is detected: if one byte of the key or the
    value of a logged record is replaced by another, recovery returns exactly
    the entries before that record, whatever follows it, and cuts the file
    there. *)
Theorem wal_detects_corruption (es : list (bytes * slice)) (e : bytes * slice)
    (p q post : bytes) (x y : byte) (f : File) (path : string) (w : World) (i : ino)
    (Hf : w_faults w = []) (Hi : file_ino w f = Some i)
    (Hpay : e.1 ++ slice_bytes e.2 = p ++ x :: q) (Hxy : x <> y)
    (Hd : w_data w !! i = Some (wal_image 0 es ++
            wal_header (len es + 1) e.1 (slice_bytes e.2) ++ (p ++ y :: q) ++ post))
    (Hlen : len es + 1 < 2 ^ 64) (Hok : Forall entry_ok (es ++ [e])) :
  let '((r, _), w') := WAL_Recover (mkWAL f path 0) w in
  r = inr (wal_replay es ∅) /\ w_data w' !! i = Some (wal_image 0 es).
Proof.
  apply Forall_app in Hok as [Hok [He _]%Forall_cons].
  erewrite Recover_ok; [|done|exact Hi|exact Hd| |done|lens].
  - split; [done|]. apply lookup_insert_eq.
  - apply corrupt_stops; [done|lens| |].
    + rewrite <- len_app, Hpay. lens.
    + rewrite Hpay. intros E%ChecksumIEEE_detects_byte. by apply Hxy.
Qed.

(** The offset of the valid prefix is a sum of 32-bit sizes: a single
    intact record of 4 GiB or more is replayed into memory, but the offset the
    file is then truncated to has wrapped around and lies inside the record. *)
Theorem wal_offset_wraps (key value : bytes)
    (Hk : len key < 2 ^ 32) (Hv : len value < 2 ^ 32)
    (Hbig : 2 ^ 32 <= 20 + len key + len value < 2 ^ 33) :
  recover_loop 2 (wal_record 1 (key, Some value)) 0 ∅ 0 0 =
  Some ({[key := Some value]}, 1, len (wal_record 1 (key, Some value)) - 2 ^ 32).
Proof.
  pose proof (recover_loop_record_u32 1 [] 1 (key, Some value) [] ∅ 0 0 Hk Hv) as E.
  rewrite app_nil_l, app_nil_r in E. etransitivity; [by apply E|].
  change (len [] + len (wal_record 1 (key, Some value)))
    with (len (wal_record 1 (key, Some value))).
  pose proof (torn_stops [] torn_nil 0%nat (wal_record 1 (key, Some value))) as Hstop.
  rewrite app_nil_r in Hstop. rewrite Hstop, insert_empty. do 2 f_equal.
  rewrite len_wal_record. cbn [fst snd slice_bytes default]. unfold u32, id.
  rewrite Z.add_0_l. symmetry.
  apply Z.mod_unique with (q := 1); lia.
Qed.

(** A record cut short by a failing device stays in the file: the next
    acknowledged write lands behind it and recovery does not reach it. *)
Definition disk0 : World := mkWorld ∅ ∅ ∅ 0 1 [Succeeds; Fails 1].

Definition torn_then_write : IO (option (err * err * result (gmap bytes slice))) :=
  r ← NewWAL "wal.log";
  match r with
  | inl _ => ret None
  | inr wl =>
      '(e1, wl) ← WAL_WriteEntry wl [x61] (Some [x01]);
      '(e2, wl) ← WAL_WriteEntry wl [x62] (Some [x02]);
      r ← NewWAL "wal.log";
      match r with
      | inl _ => ret None
      | inr wl' => '(m, _) ← WAL_Recover wl'; ret (Some (e1, e2, m))
      end
  end.

(** A torn write poisons the log: the first write fails after one byte, the
    second one is acknowledged, and recovery returns neither. *)
Theorem wal_torn_write_hides_later_write :
  (torn_then_write disk0).1 = Some (Some EIO, None, inr ∅).
Proof. vm_compute. reflexivity. Qed.

(** ** Witnesses *)

Definition es1 : list (bytes * slice) := [([x61], Some [x01; x02]); ([x62], None); ([x61], Some [x03])].

Lemma es1_ok : Forall entry_ok es1.
Proof. repeat constructor. Defined.

Lemma wal_recovers_writes_witness :
  (wal_session "wal.log" es1 (mkWorld ∅ ∅ ∅ 0 1 [])).1 =
  inr ({[ [x61] := Some [x03]; [x62] := Some [] ]}, 3).
Proof.
  rewrite (wal_recovers_writes "wal.log" es1 (mkWorld ∅ ∅ ∅ 0 1 []));
    [vm_compute; reflexivity|reflexivity|vm_compute; reflexivity|exact es1_ok|reflexivity].
Defined.

(** a world whose log, inode 0 open as descriptor 1, holds [d] *)
Definition world_of (d : bytes) (faults : list outcome) : World :=
  mkWorld {["wal.log" := 0%nat]} {[0%nat := d]} {[1%nat := 0%nat]} 2 1 faults.

Definition log_file : File := mkFile "wal.log" 1%nat.

Lemma wal_write_atomic_witness :
  let '((r, _), w') := WAL_WriteEntry (mkWAL log_file "wal.log" 3) [x63] (Some [x07])
                         (world_of (wal_image 0 es1) [Fails 21]) in
  r = Some EIO /\
  (WAL_Recover (mkWAL log_file "wal.log" 0) w').1.1 = inr (wal_replay es1 ∅).
Proof.
  apply (wal_write_atomic (mkWAL log_file "wal.log" 3) es1 ([x63], Some [x07])
    (world_of (wal_image 0 es1) [Fails 21]) 21 log_file 0%nat);
    try reflexivity. repeat constructor.
Defined.

Lemma wal_recover_stable_witness : exists m wl n w',
  WAL_Recover (mkWAL log_file "wal.log" 0) (world_of [x01; x02; x03] []) = ((inr m, wl), w') /\
  w_data w' !! 0%nat = Some (take n [x01; x02; x03]) /\
  WAL_Recover (mkWAL log_file "wal.log" 0) w' = ((inr m, wl), w').
Proof.
  by apply (wal_recover_stable log_file "wal.log" (world_of [x01; x02; x03] []) 0%nat
    [x01; x02; x03]).
Defined.

Lemma wal_detects_corruption_witness :
  let '((r, _), w') := WAL_Recover (mkWAL log_file "wal.log" 0)
    (world_of (wal_image 0 es1 ++ wal_header 4 [x63] [x07] ++ ([x63] ++ x08 :: []) ++ [x00]) []) in
  r = inr (wal_replay es1 ∅) /\ w_data w' !! 0%nat = Some (wal_image 0 es1).
Proof.
  apply (wal_detects_corruption es1 ([x63], Some [x07]) [x63] [] [x00] x07 x08); try reflexivity;
    [discriminate|repeat constructor].
Defined.

Lemma wal_offset_wraps_witness :
  let value := replicate (Z.to_nat (2 ^ 32 - 20)) x00 in
  recover_loop 2 (wal_record 1 ([], Some value)) 0 ∅ 0 0 =
  Some ({[ [] := Some value]}, 1, len (wal_record 1 ([], Some value)) - 2 ^ 32).
Proof.
  intros value. assert (len value = 2 ^ 32 - 20) as Hlen.
  { unfold value, len. rewrite length_replicate. apply Z2Nat.id. lia. }
  apply (wal_offset_wraps [] value); [reflexivity|rewrite Hlen; reflexivity|].
  rewrite Hlen. split; [discriminate|reflexivity].
Defined.
