(* ===== verification/Pool.v ===== *)
(** * The buffer pool of the log: [bufferPool] of [engine/wal/wal.go]

    [WriteEntry] assembles a record in a buffer borrowed from a pool that all
    logs of the process share, and that the garbage collector may empty at any
    time.  Here calls of several logs run step by step over a shared heap of
    buffers; the mutex of a log keeps its own calls apart, nothing else does.
    The theorem is that the pool cannot be noticed: the steps refine those of a
    system without buffers, in which a call writes [wal_record] and then syncs,
    as [Wal.WAL_WriteEntry] does. *)
From stdpp Require Import base gmap sets list strings numbers relations.
From Stdlib Require Import ZArith Lia Strings.Byte.
From S2P Require Import Prelude Disk Crc32 Wal.
Open Scope Z_scope.

Definition maxPoolBufferSize : Z := 64 * 1024.
Definition initialBufferSize : Z := 4096.

(** ** [bytes.Buffer] and [sync.Pool] *)

(** how far [append] grows a buffer of a capacity that has to hold a length *)
Class Growth := grown : Z -> Z -> Z.

(** nothing is read from these buffers, so the read offset stays 0 *)
Record Buffer := mkBuffer { b_buf : bytes; b_cap : Z }.

Definition Buffer_Reset (b : Buffer) : Buffer := mkBuffer [] (b_cap b).

Definition Buffer_Write `{Growth} (p : bytes) (b : Buffer) : Buffer :=
  let buf := b_buf b ++ p in
  mkBuffer buf (if len buf <=? b_cap b then b_cap b
                else Z.max (len buf) (grown (b_cap b) (len buf))).

(** The buffers of the process and those that lie in the pool. *)
Definition bloc := nat.
Record Pool := mkPool { p_heap : gmap bloc Buffer; p_free : gset bloc }.

Definition buf_at (p : Pool) (l : bloc) : Buffer := default (mkBuffer [] 0) (p_heap p !! l).
Definition set_buf (l : bloc) (b : Buffer) (p : Pool) : Pool :=
  mkPool (<[l := b]> (p_heap p)) (p_free p).

(** [New] of the pool *)
Definition bufferPool_New (p : Pool) : bloc * Pool :=
  let l := fresh (dom (p_heap p)) in (l, set_buf l (mkBuffer [] initialBufferSize) p).

(** [Get] takes any pooled buffer, here the one [c] asks for, or calls [New] *)
Definition bufferPool_Get (c : option bloc) (p : Pool) : bloc * Pool :=
  match c with
  | Some l => if decide (l ∈ p_free p) then (l, mkPool (p_heap p) (p_free p ∖ {[l]}))
              else bufferPool_New p
  | None => bufferPool_New p
  end.

Definition bufferPool_Put (l : bloc) (p : Pool) : Pool :=
  mkPool (p_heap p) ({[l]} ∪ p_free p).

(** ** [WriteEntry] in steps *)

(** The place a call has come to, or the result of the last one. *)
Inductive phase :=
  | PIdle (last : err)
  | PBorrow (key : bytes) (value : slice)
  | PReset (key : bytes) (value : slice) (b : bloc)
  | PFill (key : bytes) (value : slice) (b : bloc) (todo : list bytes)
  | PRecycle (b : bloc) (e : err)
  | PSync.

(** [w.mu.Lock(); w.sequenceNumber++] *)
Definition enter (wl : WAL) : WAL :=
  mkWAL (wal_file wl) (wal_path wl) (u64 (wal_sequenceNumber wl + 1)).

(** the next step of the call of a log; [c] is what the pool offers *)
Definition call_step `{Growth} (c : option bloc) (wl : WAL) (ph : phase) (p : Pool) (w : World)
    : phase * Pool * World :=
  match ph with
  | PIdle e => (PIdle e, p, w)
  | PBorrow key value =>
      let '(b, p') := bufferPool_Get c p in (PReset key value b, p', w)
  | PReset key value b =>
      (PFill key value b
         [wal_header (wal_sequenceNumber wl) key (slice_bytes value); key; slice_bytes value],
       set_buf b (Buffer_Reset (buf_at p b)) p, w)
  | PFill key value b (x :: todo) =>
      (PFill key value b todo, set_buf b (Buffer_Write x (buf_at p b)) p, w)
  | PFill key value b [] =>
      let '(e, w') := file_Write (wal_file wl) (b_buf (buf_at p b)) w in (PRecycle b e, p, w')
  | PRecycle b e =>
      (match e with Some _ => PIdle e | None => PSync end,
       if b_cap (buf_at p b) <=? maxPoolBufferSize then bufferPool_Put b p else p, w)
  | PSync => let '(e, w') := file_Sync (wal_file wl) w in (PIdle e, p, w')
  end.

Record Sys := mkSys { y_world : World; y_pool : Pool; y_logs : gmap nat (WAL * phase) }.

(** What can happen: a call, a step of a call, a collection, something else the
    program does with the disk ([other] says what), and a log without a call
    replaced by another. *)
Inductive pstep `{Growth} (other : World -> World -> Prop) : Sys -> Sys -> Prop :=
  | p_call w p ls i wl e key value :
      ls !! i = Some (wl, PIdle e) ->
      pstep other (mkSys w p ls) (mkSys w p (<[i := (enter wl, PBorrow key value)]> ls))
  | p_run w p ls i wl ph c ph' p' w' :
      ls !! i = Some (wl, ph) -> call_step c wl ph p w = (ph', p', w') ->
      pstep other (mkSys w p ls) (mkSys w' p' (<[i := (wl, ph')]> ls))
  | p_collect w p ls l :
      pstep other (mkSys w p ls) (mkSys w (mkPool (p_heap p) (p_free p ∖ {[l]})) ls)
  | p_other w p ls w' : other w w' -> pstep other (mkSys w p ls) (mkSys w' p ls)
  | p_open w p ls i wl :
      (forall wl0 ph, ls !! i = Some (wl0, ph) -> exists e, ph = PIdle e) ->
      pstep other (mkSys w p ls) (mkSys w p (<[i := (wl, PIdle None)]> ls)).

Definition pool_start (w : World) : Sys := mkSys w (mkPool ∅ ∅) ∅.

(** ** Specification: the same calls without buffers *)

Inductive bare_phase :=
  | BIdle (last : err)
  | BWrite (key : bytes) (value : slice)
  | BSync.

Definition bare_advance (wl : WAL) (ph : bare_phase) (w : World) : bare_phase * World :=
  match ph with
  | BIdle e => (BIdle e, w)
  | BWrite key value =>
      let '(e, w') := file_Write (wal_file wl)
        (wal_record (wal_sequenceNumber wl) (key, value)) w in
      (match e with Some _ => BIdle e | None => BSync end, w')
  | BSync => let '(e, w') := file_Sync (wal_file wl) w in (BIdle e, w')
  end.

Abbreviation bare_logs := (gmap nat (WAL * bare_phase)).

Inductive bstep (other : World -> World -> Prop) : World * bare_logs -> World * bare_logs -> Prop :=
  | b_call w ls i wl e key value :
      ls !! i = Some (wl, BIdle e) ->
      bstep other (w, ls) (w, <[i := (enter wl, BWrite key value)]> ls)
  | b_run w ls i wl ph ph' w' :
      ls !! i = Some (wl, ph) -> bare_advance wl ph w = (ph', w') ->
      bstep other (w, ls) (w', <[i := (wl, ph')]> ls)
  | b_other w ls w' : other w w' -> bstep other (w, ls) (w', ls)
  | b_open w ls i wl :
      (forall wl0 ph, ls !! i = Some (wl0, ph) -> exists e, ph = BIdle e) ->
      bstep other (w, ls) (w, <[i := (wl, BIdle None)]> ls).

(** a call is over for the caller's log once its write has failed or it synced *)
Definition bare (ph : phase) : bare_phase :=
  match ph with
  | PIdle e => BIdle e
  | PBorrow key value | PReset key value _ | PFill key value _ _ => BWrite key value
  | PRecycle _ e => match e with Some _ => BIdle e | None => BSync end
  | PSync => BSync
  end.

Definition unpooled (s : Sys) : World * bare_logs :=
  (y_world s, (fun x => (x.1, bare x.2)) <$> y_logs s).

(** ** The invariant *)

Definition borrowed (ph : phase) : option bloc :=
  match ph with
  | PReset _ _ b | PFill _ _ b _ | PRecycle b _ => Some b
  | _ => None
  end.

(** what the borrowed buffer of a log holds *)
Definition filled (p : Pool) (wl : WAL) (ph : phase) : Prop :=
  match ph with
  | PFill key value b todo =>
      b_buf (buf_at p b) ++ concat todo = wal_record (wal_sequenceNumber wl) (key, value)
  | _ => True
  end.

Record pool_ok (p : Pool) (ls : gmap nat (WAL * phase)) : Prop := {
  po_cap l : l ∈ p_free p -> b_cap (buf_at p l) <= maxPoolBufferSize;
  po_free l : l ∈ p_free p -> l ∈ dom (p_heap p);
  po_held i wl ph b :
    ls !! i = Some (wl, ph) -> borrowed ph = Some b -> b ∈ dom (p_heap p) /\ b ∉ p_free p;
  po_alone i j wl ph wl' ph' b :
    ls !! i = Some (wl, ph) -> ls !! j = Some (wl', ph') ->
    borrowed ph = Some b -> borrowed ph' = Some b -> i = j;
  po_filled i wl ph : ls !! i = Some (wl, ph) -> filled p wl ph
}.

Lemma buf_at_set p b x l : buf_at (set_buf b x p) l = if decide (l = b) then x else buf_at p l.
Proof.
  unfold buf_at, set_buf. cbn. destruct (decide (l = b)) as [->|Hne].
  - by rewrite lookup_insert_eq.
  - by rewrite lookup_insert_ne.
Qed.

Lemma dom_set_buf p b x : dom (p_heap (set_buf b x p)) = {[b]} ∪ dom (p_heap p).
Proof. apply dom_insert_L. Qed.

(** [Get] hands out a buffer that was free or is new, and changes no other. *)
Definition got (p : Pool) (b : bloc) (p' : Pool) : Prop :=
  (b ∈ p_free p \/ b ∉ dom (p_heap p)) /\ (b ∉ p_free p') /\ p_free p' ⊆ p_free p /\
  dom (p_heap p') = {[b]} ∪ dom (p_heap p) /\ (forall l, l <> b -> buf_at p' l = buf_at p l).

Lemma bufferPool_New_got p :
  (forall l, l ∈ p_free p -> l ∈ dom (p_heap p)) -> got p (bufferPool_New p).1 (bufferPool_New p).2.
Proof.
  intros Hf. unfold got, bufferPool_New. cbn [fst snd].
  pose proof (is_fresh (dom (p_heap p))) as Hb. set (b := fresh _) in *.
  split; [by right|]. split; [by intros ?%Hf|]. split; [done|].
  split; [apply dom_set_buf|]. intros l Hl. rewrite buf_at_set. by rewrite decide_False.
Qed.

Lemma bufferPool_Get_got c p b p' :
  (forall l, l ∈ p_free p -> l ∈ dom (p_heap p)) -> bufferPool_Get c p = (b, p') -> got p b p'.
Proof.
  intros Hf. pose proof (bufferPool_New_got p Hf) as Hnew. unfold bufferPool_Get.
  destruct c as [l|]; [case_decide as Hl|]; [|intros E; by rewrite E in Hnew..].
  intros [= <- <-]. specialize (Hf l Hl). unfold got. cbn. split; [by left|].
  clear Hnew. split_and!; [set_solver|set_solver|set_solver|done].
Qed.

(** A log moves on when its buffer is nobody else's and the others keep theirs. *)
Lemma pool_ok_frame p ls p' i wl ph' :
  pool_ok p ls ->
  (forall b, borrowed ph' = Some b -> b ∈ dom (p_heap p') /\ (b ∉ p_free p') /\
    forall j wlj phj, j <> i -> ls !! j = Some (wlj, phj) -> borrowed phj <> Some b) ->
  filled p' wl ph' ->
  (forall l, l ∈ p_free p' -> l ∈ dom (p_heap p') /\ b_cap (buf_at p' l) <= maxPoolBufferSize) ->
  (forall j wlj phj b, j <> i -> ls !! j = Some (wlj, phj) -> borrowed phj = Some b ->
    b ∈ dom (p_heap p') /\ (b ∉ p_free p') /\ buf_at p' b = buf_at p b) ->
  pool_ok p' (<[i := (wl, ph')]> ls).
Proof.
  intros [Hcap Hfree Hheld Halone Hfill] Hi Hfi Hf Hj. constructor.
  - intros l Hl. by apply Hf.
  - intros l Hl. by apply Hf.
  - intros j wlj phj b [[<- [= <- <-]]|[Hne E]]%lookup_insert_Some Hb.
    + by destruct (Hi b Hb) as (? & ? & _).
    + by destruct (Hj j wlj phj b) as (? & ? & _).
  - intros j k wlj phj wlk phk b [[<- [= <- <-]]|[Hnj Ej]]%lookup_insert_Some
      [[<- [= <- <-]]|[Hnk Ek]]%lookup_insert_Some Hbj Hbk; [done| | |by eauto].
    + destruct (Hi b Hbj) as (_ & _ & H). by destruct (H k wlk phk).
    + destruct (Hi b Hbk) as (_ & _ & H). by destruct (H j wlj phj).
  - intros j wlj phj [[<- [= <- <-]]|[Hne E]]%lookup_insert_Some; [done|].
    specialize (Hfill j wlj phj E). destruct phj; try done. cbn in *.
    by destruct (Hj j wlj _ b (not_eq_sym Hne) E eq_refl) as (_ & _ & ->).
Qed.

(** a log that touches no buffer but its own, which it keeps *)
Lemma pool_ok_modify p ls i wl ph ph' b x :
  pool_ok p ls -> ls !! i = Some (wl, ph) -> borrowed ph = Some b -> borrowed ph' = Some b ->
  filled (set_buf b x p) wl ph' -> pool_ok (set_buf b x p) (<[i := (wl, ph')]> ls).
Proof.
  intros Hok Hi Hb Hb' Hfill. pose proof Hok as [Hcap Hfree Hheld Halone _].
  destruct (Hheld _ _ _ _ Hi Hb) as [Hd Hnf]. apply (pool_ok_frame p); try done.
  - intros b' E. replace b' with b by congruence. rewrite dom_set_buf.
    split; [by apply elem_of_union_r|]. split; [done|].
    intros j wlj phj Hne Ej Hbj. apply Hne. by eapply Halone.
  - intros l Hl. rewrite dom_set_buf, buf_at_set. cbn in Hl.
    rewrite decide_False by (intros ->; done). split; [|by apply Hcap].
    apply elem_of_union_r. by apply Hfree.
  - intros j wlj phj b' Hne Ej Hbj. destruct (Hheld _ _ _ _ Ej Hbj). rewrite dom_set_buf, buf_at_set.
    rewrite decide_False by (intros ->; apply Hne; by eapply Halone).
    split; [by apply elem_of_union_r|done].
Qed.

(** a log that touches no buffer *)
Lemma pool_ok_still p ls i wl ph' :
  pool_ok p ls -> filled p wl ph' ->
  (forall b, borrowed ph' = Some b -> exists wl0 ph, ls !! i = Some (wl0, ph) /\ borrowed ph = Some b) ->
  pool_ok p (<[i := (wl, ph')]> ls).
Proof.
  intros Hok Hfill Hb. pose proof Hok as [Hcap Hfree Hheld Halone _].
  apply (pool_ok_frame p); try done.
  - intros b (wl0 & ph & Hi & Hbi)%Hb. destruct (Hheld _ _ _ _ Hi Hbi). split; [done|].
    split; [done|]. intros j wlj phj Hne Ej Hbj. apply Hne. by eapply Halone.
  - intros l Hl. split; [by apply Hfree|by apply Hcap].
  - intros j wlj phj b Hne Ej Hbj. by destruct (Hheld _ _ _ _ Ej Hbj).
Qed.

Lemma pool_ok_borrow p ls i wl key value c b p' :
  pool_ok p ls -> bufferPool_Get c p = (b, p') ->
  pool_ok p' (<[i := (wl, PReset key value b)]> ls).
Proof.
  intros Hok E. pose proof Hok as [Hcap Hfree Hheld _ _].
  destruct (bufferPool_Get_got _ _ _ _ Hfree E) as (Hb & Hnf & Hsub & Hd & Hsame).
  assert (forall j wlj phj b', ls !! j = Some (wlj, phj) -> borrowed phj = Some b' -> b' <> b) as Hne.
  { intros j wlj phj b' Ej Hbj ->. destruct (Hheld _ _ _ _ Ej Hbj), Hb; done. }
  apply (pool_ok_frame p); try done.
  - intros b' [= <-]. rewrite Hd. split; [by apply elem_of_union_l, elem_of_singleton|]. split; [done|].
    intros j wlj phj _ Ej Hbj. by eapply Hne.
  - intros l Hl. rewrite Hd, Hsame by (intros ->; done). apply Hsub in Hl.
    split; [apply elem_of_union_r; by apply Hfree|by apply Hcap].
  - intros j wlj phj b' _ Ej Hbj. destruct (Hheld _ _ _ _ Ej Hbj).
    rewrite Hd, Hsame by (by eapply Hne). split; [by apply elem_of_union_r|].
    split; [by intros ?%Hsub|done].
Qed.

Lemma pool_ok_release p ls i wl b e ph' :
  pool_ok p ls -> ls !! i = Some (wl, PRecycle b e) -> borrowed ph' = None -> filled p wl ph' ->
  b_cap (buf_at p b) <= maxPoolBufferSize ->
  pool_ok (bufferPool_Put b p) (<[i := (wl, ph')]> ls).
Proof.
  intros Hok Hi Hn Hfill Hc. pose proof Hok as [Hcap Hfree Hheld Halone _].
  destruct (Hheld _ _ _ b Hi eq_refl) as [Hd _].
  apply (pool_ok_frame p); try done; [by rewrite Hn| |].
  - intros l [->%elem_of_singleton|Hl]%elem_of_union; [done|]. split; [by apply Hfree|by apply Hcap].
  - intros j wlj phj b' Hne Ej Hbj. destruct (Hheld _ _ _ _ Ej Hbj). split; [done|]. split; [|done].
    intros [->%elem_of_singleton|Hl]%elem_of_union; [|done]. apply Hne. by eapply Halone.
Qed.

Section refine.
Context `{Growth} (other : World -> World -> Prop).

(** A step of a call keeps the invariant. *)
Lemma pool_ok_run p ls i wl ph c ph' p' w w' :
  pool_ok p ls -> ls !! i = Some (wl, ph) -> call_step c wl ph p w = (ph', p', w') ->
  pool_ok p' (<[i := (wl, ph')]> ls).
Proof.
  intros Hok Hi. pose proof (po_filled _ _ Hok _ _ _ Hi) as Hfill.
  destruct ph as [e|k v|k v b|k v b [|x todo]|b e|]; cbn [call_step].
  - intros [= <- <- <-]. by apply pool_ok_still.
  - destruct (bufferPool_Get c p) as [b p1] eqn:E. intros [= <- <- <-]. by eapply pool_ok_borrow.
  - intros [= <- <- <-]. eapply pool_ok_modify; [done..|]. cbn.
    by rewrite buf_at_set, decide_True, app_nil_r.
  - destruct (file_Write _ _ w) as [e w1]. intros [= <- <- <-]. apply pool_ok_still; [done..|].
    intros b' [= <-]. eauto.
  - intros [= <- <- <-]. eapply pool_ok_modify; [done..|]. cbn in *.
    rewrite buf_at_set, decide_True by done. cbn. by rewrite <- app_assoc.
  - intros [= <- <- <-]. destruct (Z.leb_spec (b_cap (buf_at p b)) maxPoolBufferSize).
    + by eapply pool_ok_release; [done..|destruct e|destruct e|].
    + by apply pool_ok_still; [|destruct e..].
  - destruct (file_Sync _ w) as [e w1]. intros [= <- <- <-]. by apply pool_ok_still.
Qed.

(** A step of a call is a step of the call without buffers, or none. *)
Lemma call_step_bare p ls i wl ph c ph' p' w w' :
  pool_ok p ls -> ls !! i = Some (wl, ph) -> call_step c wl ph p w = (ph', p', w') ->
  (bare ph' = bare ph /\ w' = w) \/ bare_advance wl (bare ph) w = (bare ph', w').
Proof.
  intros Hok Hi. pose proof (po_filled _ _ Hok _ _ _ Hi) as Hfill.
  destruct ph as [e|k v|k v b|k v b [|x todo]|b e|]; cbn [call_step bare bare_advance].
  - intros [= <- <- <-]. by left.
  - destruct (bufferPool_Get c p). intros [= <- <- <-]. by left.
  - intros [= <- <- <-]. by left.
  - cbn in Hfill. rewrite app_nil_r in Hfill. rewrite Hfill.
    destruct (file_Write _ _ w) as [e w1]. intros [= <- <- <-]. by right.
  - intros [= <- <- <-]. by left.
  - intros [= <- <- <-]. left. by destruct e.
  - destruct (file_Sync _ w) as [e w1]. intros [= <- <- <-]. by right.
Qed.

Lemma pstep_ok s s' : pool_ok (y_pool s) (y_logs s) -> pstep other s s' ->
  pool_ok (y_pool s') (y_logs s').
Proof.
  intros Hok Hs. destruct Hs; cbn in *.
  - by apply pool_ok_still.
  - by eapply pool_ok_run.
  - destruct Hok as [Hcap Hfree Hheld Halone Hfill]. constructor; cbn; try done.
    + intros l' [Hl _]%elem_of_difference. by apply Hcap.
    + intros l' [Hl _]%elem_of_difference. by apply Hfree.
    + intros i wl ph b Hi Hb. destruct (Hheld _ _ _ _ Hi Hb). split; [done|].
      by intros [Hl _]%elem_of_difference.
  - done.
  - by apply pool_ok_still.
Qed.

Lemma pstep_bare s s' : pool_ok (y_pool s) (y_logs s) -> pstep other s s' ->
  rtc (bstep other) (unpooled s) (unpooled s').
Proof.
  intros Hok Hs. destruct Hs as [w p ls i wl e k v Hi|w p ls i wl ph c ph' p' w' Hi E|w p ls l|
    w p ls w' Ho|w p ls i wl Hidle]; unfold unpooled; cbn in *; rewrite ?fmap_insert; cbn.
  - apply rtc_once. apply (b_call _ _ _ _ _ e). by rewrite lookup_fmap, Hi.
  - destruct (call_step_bare _ _ _ _ _ _ _ _ _ _ Hok Hi E) as [[-> ->]|Hb].
    + rewrite insert_id; [done|]. by rewrite lookup_fmap, Hi.
    + apply rtc_once. apply (b_run _ _ _ _ _ (bare ph)); [|done]. by rewrite lookup_fmap, Hi.
  - done.
  - by apply rtc_once, b_other.
  - apply rtc_once, b_open. intros wl0 ph. rewrite lookup_fmap.
    destruct (ls !! i) as [[wl1 ph1]|] eqn:Hi; [|done]. intros [= -> <-].
    destruct (Hidle _ _ eq_refl) as [e ->]. by exists e.
Qed.

(** Running alone, a call without buffers is [WriteEntry]. *)
Lemma WriteEntry_bare wl key value w :
  WAL_WriteEntry wl key value w =
  (let '(ph, w1) := bare_advance (enter wl) (BWrite key value) w in
   let '(ph, w2) := bare_advance (enter wl) ph w1 in
   ((match ph with BIdle e => e | _ => None end, enter wl), w2)).
Proof.
  unfold WAL_WriteEntry, mbind, IO_bind, ret. cbn [bare_advance]. fold (enter wl).
  destruct (file_Write _ _ w) as [[e|] w1]; cbn [bare_advance]; [done|].
  by destruct (file_Sync _ w1) as [e w2].
Qed.

(** Every step of a call brings it nearer to its end, and none waits. *)
Definition steps_left (ph : phase) : nat :=
  match ph with
  | PIdle _ => 0
  | PBorrow _ _ => 8
  | PReset _ _ _ => 7
  | PFill _ _ _ todo => 3 + length todo
  | PRecycle _ _ => 2
  | PSync => 1
  end.

Lemma call_step_left c wl ph p w : (steps_left (call_step c wl ph p w).1.1 <= steps_left ph - 1)%nat.
Proof.
  destruct ph as [e|k v|k v b|k v b [|x todo]|b e|]; cbn.
  - done.
  - by destruct (bufferPool_Get c p).
  - done.
  - by destruct (file_Write _ _ w).
  - lia.
  - destruct e; cbn; lia.
  - by destruct (file_Sync _ w).
Qed.

(** a call that nothing interrupts; the first offer of the pool is the one taken *)
Fixpoint run_call (n : nat) (c : option bloc) (wl : WAL) (ph : phase) (p : Pool) (w : World)
    : phase * Pool * World :=
  match n with
  | O => (ph, p, w)
  | S n' => let '(ph', p', w') := call_step c wl ph p w in run_call n' c wl ph' p' w'
  end.

Lemma run_call_left n c wl ph p w :
  (steps_left (run_call n c wl ph p w).1.1 <= steps_left ph - n)%nat.
Proof.
  revert ph p w. induction n as [|n IH]; intros ph p w; cbn; [lia|].
  pose proof (call_step_left c wl ph p w) as Hl. destruct (call_step c wl ph p w) as [[ph' p'] w'].
  cbn in Hl. specialize (IH ph' p' w'). lia.
Qed.

Lemma run_call_bare n c p ls i wl ph w ph' p' w' :
  pool_ok p ls -> ls !! i = Some (wl, ph) -> run_call n c wl ph p w = (ph', p', w') ->
  pool_ok p' (<[i := (wl, ph')]> ls) /\
  exists m, Nat.iter m (fun x => bare_advance wl x.1 x.2) (bare ph, w) = (bare ph', w').
Proof.
  revert p ls ph w. induction n as [|n IH]; intros p ls ph w Hok Hi; cbn.
  { intros [= <- <- <-]. rewrite insert_id by done. split; [done|]. by exists 0%nat. }
  destruct (call_step c wl ph p w) as [[ph1 p1] w1] eqn:E. intros Hr.
  pose proof (pool_ok_run _ _ _ _ _ _ _ _ _ _ Hok Hi E) as Hok1.
  destruct (IH p1 _ ph1 w1 Hok1 (lookup_insert_eq _ _ _) Hr) as [Hok' [m Hm]].
  rewrite insert_insert_eq in Hok'. split; [done|].
  destruct (call_step_bare _ _ _ _ _ _ _ _ _ _ Hok Hi E) as [[<- <-]|Hb]; [by exists m|].
  exists (S m). by rewrite Nat.iter_succ_r; cbn; rewrite Hb.
Qed.

Lemma pool_start_ok w : pool_ok (y_pool (pool_start w)) (y_logs (pool_start w)).
Proof. constructor; cbn; set_solver. Qed.

Lemma psteps_refine s s' : rtc (pstep other) s s' -> pool_ok (y_pool s) (y_logs s) ->
  pool_ok (y_pool s') (y_logs s') /\ rtc (bstep other) (unpooled s) (unpooled s').
Proof.
  induction 1 as [s|s s1 s' Hs _ IH]; intros Hok; [done|].
  destruct IH as [Hok' Hb]; [by eapply pstep_ok|]. split; [done|].
  etransitivity; [by apply pstep_bare|done].
Qed.

(** A call without buffers that has ended did what [WriteEntry] does. *)
Lemma bare_ended m wl key value w e w' :
  Nat.iter m (fun x => bare_advance (enter wl) x.1 x.2) (BWrite key value, w) = (BIdle e, w') ->
  WAL_WriteEntry wl key value w = ((e, enter wl), w').
Proof.
  assert (forall n r w0, Nat.iter n (fun x => bare_advance (enter wl) x.1 x.2) (BIdle r, w0) =
    (BIdle r, w0)) as Hstay.
  { intros n r w0. induction n as [|n IH]; [done|]. by rewrite Nat.iter_succ, IH. }
  rewrite WriteEntry_bare. destruct m as [|m]; [done|]. rewrite Nat.iter_succ_r. cbn [fst snd].
  destruct (bare_advance (enter wl) (BWrite key value) w) as [ph1 w1] eqn:E1. cbn in E1.
  destruct (file_Write _ _ w) as [[r|] w2].
  - injection E1 as <- <-. rewrite Hstay. by intros [= <- <-].
  - injection E1 as <- <-. destruct m as [|m]; [done|]. rewrite Nat.iter_succ_r. cbn.
    destruct (file_Sync _ w2) as [r w3]. rewrite Hstay. by intros [= <- <-].
Qed.

(** The whole call, run alone in any state of the pool. *)
Lemma run_call_WriteEntry c p ls i wl e0 key value w :
  pool_ok p ls -> ls !! i = Some (wl, PIdle e0) ->
  exists e p', run_call 8 c (enter wl) (PBorrow key value) p w =
    (PIdle e, p', (WAL_WriteEntry wl key value w).2) /\
    (WAL_WriteEntry wl key value w).1 = (e, enter wl) /\
    pool_ok p' (<[i := (enter wl, PIdle e)]> ls).
Proof.
  intros Hok Hi.
  pose proof (run_call_left 8 c (enter wl) (PBorrow key value) p w) as Hl.
  destruct (run_call 8 c (enter wl) (PBorrow key value) p w) as [[ph p'] w'] eqn:E.
  assert (pool_ok p (<[i := (enter wl, PBorrow key value)]> ls)) as Hok0 by (by apply pool_ok_still).
  destruct (run_call_bare _ _ _ _ _ _ _ _ _ _ _ Hok0 (lookup_insert_eq _ _ _) E) as [Hok' [m Hm]].
  rewrite insert_insert_eq in Hok'. cbn in Hl. destruct ph as [e| | | | |]; cbn in Hl; try lia.
  apply bare_ended in Hm. rewrite Hm. by exists e, p'.
Qed.

(** C24: However the calls of [WriteEntry] of all logs interleave, whatever
    buffers the pool hands out, drops or makes anew and however they grow, the
    logs and the disk go through steps of the system without buffers: each call
    writes its own whole record and syncs.  No pooled buffer is larger than
    [maxPoolBufferSize], and a call that is not interrupted returns, after at
    most eight steps, what [WAL_WriteEntry] returns. *)
Theorem pooled_writes_refine (w : World) (s : Sys) (Hs : rtc (pstep other) (pool_start w) s) :
  rtc (bstep other) (w, ∅) (unpooled s) /\
  (forall l, l ∈ p_free (y_pool s) -> b_cap (buf_at (y_pool s) l) <= maxPoolBufferSize) /\
  (forall i wl e0 key value c, y_logs s !! i = Some (wl, PIdle e0) ->
     exists e p', run_call 8 c (enter wl) (PBorrow key value) (y_pool s) (y_world s) =
       (PIdle e, p', (WAL_WriteEntry wl key value (y_world s)).2) /\
       (WAL_WriteEntry wl key value (y_world s)).1 = (e, enter wl)).
Proof.
  destruct (psteps_refine _ _ Hs (pool_start_ok w)) as [Hok Hb]. split; [done|].
  split; [by apply po_cap with (y_logs s)|]. intros i wl e0 key value c Hi.
  destruct (run_call_WriteEntry c _ _ _ _ _ key value (y_world s) Hok Hi) as (e & p' & H1 & H2 & _).
  by exists e, p'.
Qed.
End refine.

(** ** A run: two logs, one buffer handed from one call to the next *)

Inductive pool_act :=
  | AOpen (i : nat) (wl : WAL)
  | ACall (i : nat) (key : bytes) (value : slice)
  | ARun (i : nat) (c : option bloc)
  | ACollect (l : bloc).

(** an action that is not possible does nothing *)
Definition pool_act_run `{Growth} (s : Sys) (a : pool_act) : Sys :=
  let '(mkSys w p ls) := s in
  match a with
  | AOpen i wl => if decide (is_Some (ls !! i)) then s else mkSys w p (<[i := (wl, PIdle None)]> ls)
  | ACall i key value =>
      match ls !! i with
      | Some (wl, PIdle _) => mkSys w p (<[i := (enter wl, PBorrow key value)]> ls)
      | _ => s
      end
  | ARun i c =>
      match ls !! i with
      | Some (wl, ph) =>
          let '(ph', p', w') := call_step c wl ph p w in mkSys w' p' (<[i := (wl, ph')]> ls)
      | None => s
      end
  | ACollect l => mkSys w (mkPool (p_heap p) (p_free p ∖ {[l]})) ls
  end.

Lemma pool_act_steps `{Growth} other acts s :
  rtc (pstep other) s (foldl pool_act_run s acts).
Proof.
  revert s. induction acts as [|a acts IH]; intros s; cbn; [done|]. etransitivity; [|apply IH].
  destruct s as [w p ls], a as [i wl|i k v|i c|l]; cbn.
  - case_decide as Hi; [done|]. apply rtc_once, p_open. intros wl0 ph E. destruct Hi. by rewrite E.
  - destruct (ls !! i) as [[wl [e| | | | |]]|] eqn:Hi; try done. by apply rtc_once, p_call with e.
  - destruct (ls !! i) as [[wl ph]|] eqn:Hi; [|done].
    destruct (call_step c wl ph p w) as [[ph' p'] w'] eqn:E. apply rtc_once. by eapply p_run.
  - apply rtc_once, p_collect.
Qed.

#[export] Instance doubling : Growth := fun cap _ => 2 * cap.

Definition two_logs : World :=
  mkWorld {["a.log" := 0%nat; "b.log" := 1%nat]} {[0%nat := []; 1%nat := []]}
    {[1%nat := 0%nat; 2%nat := 1%nat]} 3 1 [].
Definition log_a : WAL := mkWAL (mkFile "a.log" 1%nat) "a.log" 0.
Definition log_b : WAL := mkWAL (mkFile "b.log" 2%nat) "b.log" 0.

(** The first call of [b] is half-way through while [a] logs two entries, the
    second of them in the buffer of the first; then [b] goes on. *)
Definition two_logs_run : list pool_act :=
  [AOpen 0 log_a; AOpen 1 log_b; ACall 0 [x61] (Some [x01; x02]); ACall 1 [x62] None]
  ++ replicate 4 (ARun 1 None) ++ replicate 8 (ARun 0 None) ++ [ACall 0 [x63] (Some [x03])]
  ++ replicate 8 (ARun 0 (Some 1%nat)) ++ replicate 4 (ARun 1 None).

Lemma pooled_writes_refine_witness :
  let s := foldl pool_act_run (pool_start two_logs) two_logs_run in
  w_data (y_world s) !! 0%nat = Some (wal_image 0 [([x61], Some [x01; x02]); ([x63], Some [x03])]) /\
  w_data (y_world s) !! 1%nat = Some (wal_image 0 [([x62], None)]) /\
  elements (p_free (y_pool s)) = [1%nat; 0%nat] /\
  rtc (bstep (fun _ _ => False)) (two_logs, ∅) (unpooled s).
Proof.
  split; [vm_compute; reflexivity|]. split; [vm_compute; reflexivity|].
  split; [vm_compute; reflexivity|].
  apply (pooled_writes_refine (fun _ _ => False) two_logs). apply pool_act_steps.
Defined.
