(* ===== verification/Bloom.v ===== *)
(** * The Bloom filter of an SSTable: [engine/sstable/bloom.go]

    [murmur3.Sum32] is third-party code: an interface with the one fact the
    filter relies on, that the hash is a [uint32]. *)
From stdpp Require Import base gmap sets list strings numbers sorting.
From Stdlib Require Import ZArith Lia Strings.Byte.
From S2P Require Import Prelude.
Open Scope Z_scope.

Class Murmur3 := {
  murmur3_Sum32 : bytes -> Z;
  murmur3_Sum32_range k : 0 <= murmur3_Sum32 k < 2 ^ 32
}.

Definition bitsPerKey : Z := 10.
Definition kProbes : nat := 7.

Record BloomFilter := mkBloomFilter { bf_bitset : bytes }.

Definition NewBloomFilter (numKeys : Z) : BloomFilter :=
  let numKeys := if numKeys <? 64 then 64 else numKeys in
  let bits := numKeys * bitsPerKey in
  let bytes := (bits + 7) / 8 in
  mkBloomFilter (replicate (Z.to_nat bytes) x00).

Definition HashKey `{Murmur3} (key : bytes) : Z := murmur3_Sum32 key.

(** [(h >> 17) | (h << 15)] on [uint32] *)
Definition bloom_delta (h : Z) : Z :=
  Z.lor (Z.shiftr h 17) (u32 (Z.shiftl h 15)).

(** [uint32(len(bf.bitset) * 8)] *)
Definition bloom_bitLength (bits : bytes) : Z := u32 (len bits * 8).

(** [bits[bitPos/8] |= 1 << (bitPos%8)]; [None] is a panic: index out of range *)
Definition set_bit (bits : bytes) (bitPos : Z) : option bytes :=
  let i := Z.to_nat (bitPos / 8) in
  b ← bits !! i;
  Some (<[i := byte_of (Z.lor (byte_val b) (Z.shiftl 1 (bitPos mod 8)))]> bits).

(** [(bits[bitPos/8] & (1 << (bitPos%8))) != 0] *)
Definition get_bit (bits : bytes) (bitPos : Z) : option bool :=
  b ← bits !! Z.to_nat (bitPos / 8);
  Some (negb (Z.land (byte_val b) (Z.shiftl 1 (bitPos mod 8)) =? 0)).

(** [h % bitLength]: a division by zero panics *)
Definition bit_pos (h bitLength : Z) : option Z :=
  if bitLength =? 0 then None else Some (h mod bitLength).

Fixpoint add_probes (n : nat) (h delta bitLength : Z) (bits : bytes) : option bytes :=
  match n with
  | O => Some bits
  | S n' =>
      bitPos ← bit_pos h bitLength;
      bits' ← set_bit bits bitPos;
      add_probes n' (u32 (h + delta)) delta bitLength bits'
  end.

Definition BloomFilter_AddHash (bf : BloomFilter) (h : Z) : option BloomFilter :=
  mkBloomFilter <$> add_probes kProbes h (bloom_delta h)
                      (bloom_bitLength (bf_bitset bf)) (bf_bitset bf).

Definition BloomFilter_Add `{Murmur3} (bf : BloomFilter) (key : bytes) : option BloomFilter :=
  BloomFilter_AddHash bf (HashKey key).

Fixpoint test_probes (n : nat) (h delta bitLength : Z) (bits : bytes) : option bool :=
  match n with
  | O => Some true
  | S n' =>
      bitPos ← bit_pos h bitLength;
      set ← get_bit bits bitPos;
      if negb set then Some false
      else test_probes n' (u32 (h + delta)) delta bitLength bits
  end.

Definition BloomFilter_MayContain `{Murmur3} (bf : BloomFilter) (key : bytes) : option bool :=
  if len (bf_bitset bf) =? 0 then Some true else
  let h := HashKey key in
  test_probes kProbes h (bloom_delta h) (bloom_bitLength (bf_bitset bf)) (bf_bitset bf).

(** the loop of [Builder.Finish] over the hashes it collected *)
Fixpoint add_hashes (hashes : list Z) (bf : BloomFilter) : option BloomFilter :=
  match hashes with
  | [] => Some bf
  | h :: hashes' => bf' ← BloomFilter_AddHash bf h; add_hashes hashes' bf'
  end.

Definition BloomFilter_Bytes (bf : BloomFilter) : bytes := bf_bitset bf.
Definition LoadBloomFilter (data : bytes) : BloomFilter := mkBloomFilter data.

(** ** Specification: filters whose bits are in range

    The same operations as total functions; a filter whose size fits the [uint32]
    arithmetic never panics, and they agree with the code on it. *)

(** [bits[bitPos/8] |= 1 << (bitPos%8)] *)
Definition put_bit (bits : bytes) (bitPos : Z) : bytes :=
  let i := Z.to_nat (bitPos / 8) in
  match bits !! i with
  | Some b => <[i := byte_of (Z.lor (byte_val b) (Z.shiftl 1 (bitPos mod 8)))]> bits
  | None => bits
  end.

(** [(bits[bitPos/8] & (1 << (bitPos%8))) != 0] *)
Definition has_bit (bits : bytes) (bitPos : Z) : bool :=
  match bits !! Z.to_nat (bitPos / 8) with
  | Some b => negb (Z.land (byte_val b) (Z.shiftl 1 (bitPos mod 8)) =? 0)
  | None => false
  end.

Fixpoint put_probes (n : nat) (h delta bitLength : Z) (bits : bytes) : bytes :=
  match n with
  | O => bits
  | S n' =>
      let bitPos := h mod bitLength in
      put_probes n' (u32 (h + delta)) delta bitLength (put_bit bits bitPos)
  end.

Definition filter_add (bf : BloomFilter) (h : Z) : BloomFilter :=
  mkBloomFilter (put_probes kProbes h (bloom_delta h)
                   (bloom_bitLength (bf_bitset bf)) (bf_bitset bf)).

Fixpoint has_probes (n : nat) (h delta bitLength : Z) (bits : bytes) : bool :=
  match n with
  | O => true
  | S n' =>
      let bitPos := h mod bitLength in
      if negb (has_bit bits bitPos) then false
      else has_probes n' (u32 (h + delta)) delta bitLength bits
  end.

(** the filter of the hashes that [Builder.Finish] collected *)
Definition bloom_of_hashes (hashes : list Z) : BloomFilter :=
  foldl filter_add (NewBloomFilter (len hashes)) hashes.

(** ** Bits *)

(** [b] has at least the bits of [a], byte for byte *)
Definition covers (a b : bytes) : Prop :=
  length a = length b /\ forall pos, 0 <= pos -> has_bit a pos = true -> has_bit b pos = true.

#[export] Instance covers_preorder : PreOrder covers.
Proof. split; [by intros x|]. intros x y z [H1 H2] [H3 H4]. split; [congruence|auto]. Qed.

Lemma length_put_bit bits pos : length (put_bit bits pos) = length bits.
Proof. unfold put_bit. case_match; [apply length_insert|done]. Qed.

Lemma land_shiftl_testbit a n :
  0 <= n -> negb (Z.land a (Z.shiftl 1 n) =? 0) = Z.testbit a n.
Proof.
  intros Hn. rewrite Z.shiftl_1_l. destruct (Z.testbit a n) eqn:E.
  - apply negb_true_iff, Z.eqb_neq. intros H.
    apply (f_equal (fun z => Z.testbit z n)) in H.
    by rewrite Z.land_spec, E, Z.pow2_bits_true, Z.bits_0 in H.
  - apply negb_false_iff, Z.eqb_eq. apply Z.bits_inj'. intros m Hm.
    rewrite Z.land_spec, Z.bits_0. destruct (decide (m = n)) as [->|].
    + by rewrite E.
    + rewrite Z.pow2_bits_false by done. by rewrite andb_false_r.
Qed.

Lemma has_bit_testbit bits pos :
  has_bit bits pos =
  match bits !! Z.to_nat (pos / 8) with
  | Some b => Z.testbit (byte_val b) (pos mod 8)
  | None => false
  end.
Proof.
  unfold has_bit. case_match; [|done]. apply land_shiftl_testbit.
  apply Z.mod_pos_bound. lia.
Qed.

Lemma byte_or_testbit b n m :
  0 <= n < 8 -> 0 <= m < 8 ->
  Z.testbit (byte_val (byte_of (Z.lor (byte_val b) (Z.shiftl 1 n)))) m =
  Z.testbit (byte_val b) m || (n =? m).
Proof.
  intros Hn Hm. rewrite byte_val_of. change 256 with (2 ^ 8).
  rewrite Z.mod_pow2_bits_low by lia. rewrite Z.lor_spec. f_equal.
  rewrite Z.shiftl_1_l, Z.pow2_bits_eqb by lia. done.
Qed.

Lemma put_bit_get bits pos q :
  0 <= pos -> 0 <= q -> pos / 8 < len bits ->
  has_bit (put_bit bits pos) q = has_bit bits q || (pos =? q).
Proof.
  intros Hp Hq Hlt. rewrite !has_bit_testbit. unfold put_bit, len in *.
  pose proof (Z.div_pos pos 8 Hp ltac:(lia)). pose proof (Z.div_pos q 8 Hq ltac:(lia)).
  destruct (lookup_lt_is_Some_2 bits (Z.to_nat (pos / 8))) as [b Hb]; [lia|]. rewrite Hb.
  pose proof (Z.mod_pos_bound pos 8 ltac:(lia)). pose proof (Z.mod_pos_bound q 8 ltac:(lia)).
  destruct (decide (pos / 8 = q / 8)) as [E|E].
  - rewrite <- E, list_lookup_insert_eq, Hb by lia. rewrite byte_or_testbit by done. f_equal.
    destruct (Z.eqb_spec (pos mod 8) (q mod 8)), (Z.eqb_spec pos q); try done; exfalso.
    + rewrite (Z.div_mod pos 8), (Z.div_mod q 8) in n by lia. congruence.
    + congruence.
  - rewrite list_lookup_insert_ne by lia.
    rewrite (proj2 (Z.eqb_neq pos q)) by congruence. by rewrite orb_false_r.
Qed.

Lemma put_bit_covers bits pos : 0 <= pos -> pos / 8 < len bits -> covers bits (put_bit bits pos).
Proof.
  intros. split; [by rewrite length_put_bit|]. intros q Hq E.
  rewrite put_bit_get by done. by rewrite E.
Qed.

(** A filter whose size fits the [uint32] arithmetic. *)
Definition good_bits (bits : bytes) : Prop := 0 < len bits /\ len bits * 8 < 2 ^ 32.

Lemma good_bits_length a b : length a = length b -> good_bits a -> good_bits b.
Proof. unfold good_bits, len. by intros ->. Qed.

Lemma bitLength_good bits : good_bits bits -> bloom_bitLength bits = len bits * 8.
Proof. intros [??]. apply u32_small. lia. Qed.

Section probes.
Context (bl : Z) (Hbl : 0 < bl).

Lemma probe_pos h (bits : bytes) : bl = len bits * 8 -> 0 <= h mod bl /\ h mod bl / 8 < len bits.
Proof using Hbl.
  intros ->. pose proof (Z.mod_pos_bound h (len bits * 8) Hbl). split; [lia|].
  apply Z.div_lt_upper_bound; lia.
Qed.

Lemma length_put_probes n h d bits : length (put_probes n h d bl bits) = length bits.
Proof using.
  revert h bits. induction n as [|n IH]; intros h bits; simpl; [done|].
  by rewrite IH, length_put_bit.
Qed.

Lemma put_probes_covers n h d (bits : bytes) :
  bl = len bits * 8 -> covers bits (put_probes n h d bl bits).
Proof using Hbl.
  revert h bits. induction n as [|n IH]; intros h bits Hb; simpl; [done|].
  pose proof (probe_pos h bits Hb) as [??]. etrans; [by apply put_bit_covers|].
  apply IH. unfold len in *. by rewrite length_put_bit.
Qed.

Lemma has_probes_covers n h d a b :
  covers a b -> has_probes n h d bl a = true -> has_probes n h d bl b = true.
Proof using Hbl.
  intros [Hl Hc]. revert h. induction n as [|n IH]; intros h; simpl; [done|].
  destruct (has_bit a (h mod bl)) eqn:E; simpl; [|done].
  rewrite (Hc _ (proj1 (Z.mod_pos_bound h bl Hbl)) E). simpl. apply IH.
Qed.

(** The probes of a hash find the bits the same hash has set. *)
Lemma test_put_probes n h d (bits : bytes) :
  bl = len bits * 8 -> has_probes n h d bl (put_probes n h d bl bits) = true.
Proof using Hbl.
  revert h bits. induction n as [|n IH]; intros h bits Hb; simpl; [done|].
  pose proof (probe_pos h bits Hb) as [??].
  assert (bl = len (put_bit bits (h mod bl)) * 8) as Hb'
    by (unfold len in *; by rewrite length_put_bit).
  rewrite IH by done.
  destruct (put_probes_covers n (u32 (h + d)) d _ Hb') as [_ Hc].
  rewrite Hc; [done|done|]. rewrite put_bit_get by done. by rewrite Z.eqb_refl, orb_true_r.
Qed.
End probes.

Lemma filter_add_covers bf h :
  good_bits (bf_bitset bf) -> covers (bf_bitset bf) (bf_bitset (filter_add bf h)).
Proof.
  intros Hg. pose proof Hg as [??]. unfold filter_add. cbn [bf_bitset].
  rewrite bitLength_good by done.
  apply put_probes_covers; lia.
Qed.

(** the answer of the filter for a hash that is not zero-sized *)
Definition may_contain_hash (bf : BloomFilter) (h : Z) : bool :=
  has_probes kProbes h (bloom_delta h) (bloom_bitLength (bf_bitset bf)) (bf_bitset bf).

Lemma may_contain_covers a b h :
  good_bits (bf_bitset a) -> covers (bf_bitset a) (bf_bitset b) ->
  may_contain_hash a h = true -> may_contain_hash b h = true.
Proof.
  intros Hg Hc. unfold may_contain_hash.
  assert (good_bits (bf_bitset b)) as Hg' by (eapply good_bits_length; [apply Hc|done]).
  rewrite !bitLength_good by done. pose proof Hg as [??].
  assert (len (bf_bitset a) = len (bf_bitset b)) as -> by (unfold len; by rewrite (proj1 Hc)).
  apply has_probes_covers; [|done]. destruct Hg'. lia.
Qed.

Lemma may_contain_added bf h :
  good_bits (bf_bitset bf) -> may_contain_hash (filter_add bf h) h = true.
Proof.
  intros Hg. unfold may_contain_hash, filter_add. cbn [bf_bitset].
  pose proof Hg as [??].
  assert (bloom_bitLength (put_probes kProbes h (bloom_delta h)
    (bloom_bitLength (bf_bitset bf)) (bf_bitset bf)) = bloom_bitLength (bf_bitset bf)) as ->.
  { unfold bloom_bitLength, len. by rewrite length_put_probes. }
  rewrite bitLength_good by done. apply test_put_probes; lia.
Qed.

Lemma foldl_filter_add_covers hs bf :
  good_bits (bf_bitset bf) ->
  covers (bf_bitset bf) (bf_bitset (foldl filter_add bf hs)).
Proof.
  revert bf. induction hs as [|h hs IH]; intros bf Hg; [done|]. simpl foldl.
  etrans; [by apply (filter_add_covers bf h)|]. apply IH.
  eapply good_bits_length; [|exact Hg]. by apply (filter_add_covers bf h).
Qed.

Lemma foldl_filter_add_contains hs bf h :
  good_bits (bf_bitset bf) -> h ∈ hs ->
  may_contain_hash (foldl filter_add bf hs) h = true.
Proof.
  revert bf. induction hs as [|x hs IH]; intros bf Hg Hin; [by apply not_elem_of_nil in Hin|].
  assert (good_bits (bf_bitset (filter_add bf x))) as Hg'.
  { eapply good_bits_length; [|exact Hg]. by apply (filter_add_covers bf x). }
  simpl foldl. apply elem_of_cons in Hin as [->|Hin]; [|by apply IH].
  eapply may_contain_covers; [exact Hg'| |by apply may_contain_added].
  by apply foldl_filter_add_covers.
Qed.

(** ** The size of a filter *)

Definition bloom_size (n : Z) : Z := (Z.max 64 n * bitsPerKey + 7) / 8.

Lemma len_NewBloomFilter n : len (bf_bitset (NewBloomFilter n)) = bloom_size n.
Proof.
  unfold NewBloomFilter, bloom_size, len. simpl. rewrite length_replicate.
  replace (if n <? 64 then 64 else n) with (Z.max 64 n)
    by (destruct (Z.ltb_spec n 64); lia).
  apply Z2Nat.id, Z.div_pos; unfold bitsPerKey; lia.
Qed.

(** the number of keys a filter can be made for *)
Definition bloom_keys_ok (n : Z) : Prop := n * bitsPerKey + 7 < 2 ^ 32.

Lemma bloom_size_bounds n : bloom_keys_ok n -> 80 <= bloom_size n < 2 ^ 29.
Proof.
  unfold bloom_keys_ok, bloom_size, bitsPerKey. intros H. split.
  - apply Z.div_le_lower_bound; lia.
  - apply Z.div_lt_upper_bound; lia.
Qed.

Lemma NewBloomFilter_good n : bloom_keys_ok n -> good_bits (bf_bitset (NewBloomFilter n)).
Proof.
  intros H. pose proof (bloom_size_bounds n H). unfold good_bits.
  rewrite len_NewBloomFilter. lia.
Qed.

Lemma len_bloom_of_hashes hs :
  bloom_keys_ok (len hs) -> len (bf_bitset (bloom_of_hashes hs)) = bloom_size (len hs).
Proof.
  intros H. rewrite <- len_NewBloomFilter. unfold bloom_of_hashes, len at 1 3.
  f_equal. symmetry. by apply foldl_filter_add_covers, NewBloomFilter_good.
Qed.

(** ** The code on filters in range *)

Lemma bit_pos_ok h bl : bl <> 0 -> bit_pos h bl = Some (h mod bl).
Proof. intros H. unfold bit_pos. by rewrite (proj2 (Z.eqb_neq _ _)). Qed.

(** A position inside the filter names one of its bytes. *)
Lemma bit_byte (bits : bytes) pos :
  0 <= pos -> pos / 8 < len bits -> is_Some (bits !! Z.to_nat (pos / 8)).
Proof.
  intros H1 H2. apply lookup_lt_is_Some_2. unfold len in H2.
  pose proof (Z.div_pos pos 8 H1 ltac:(lia)). lia.
Qed.

Lemma set_bit_ok (bits : bytes) pos :
  0 <= pos -> pos / 8 < len bits -> set_bit bits pos = Some (put_bit bits pos).
Proof. intros H1 H2. unfold set_bit, put_bit. by destruct (bit_byte bits pos H1 H2) as [b ->]. Qed.

Lemma get_bit_ok (bits : bytes) pos :
  0 <= pos -> pos / 8 < len bits -> get_bit bits pos = Some (has_bit bits pos).
Proof. intros H1 H2. unfold get_bit, has_bit. by destruct (bit_byte bits pos H1 H2) as [b ->]. Qed.

(** any modulus that does not exceed the number of bits keeps positions in range *)
Lemma probe_in_range bl h (bits : bytes) :
  0 < bl <= len bits * 8 -> 0 <= h mod bl /\ h mod bl / 8 < len bits.
Proof.
  intros H. pose proof (Z.mod_pos_bound h bl ltac:(lia)). split; [lia|].
  apply Z.div_lt_upper_bound; lia.
Qed.

Lemma add_probes_ok n bl d : forall h bits,
  0 < bl <= len bits * 8 -> add_probes n h d bl bits = Some (put_probes n h d bl bits).
Proof.
  induction n as [|n IH]; intros h bits Hb; [done|]. cbn [add_probes put_probes].
  destruct (probe_in_range bl h bits Hb) as [H1 H2].
  rewrite bit_pos_ok by lia. cbn [mbind option_bind]. rewrite set_bit_ok by done. cbn [mbind option_bind].
  apply IH. unfold len in *. by rewrite length_put_bit.
Qed.

Lemma test_probes_ok n bl d bits : 0 < bl <= len bits * 8 -> forall h,
  test_probes n h d bl bits = Some (has_probes n h d bl bits).
Proof.
  intros Hb. induction n as [|n IH]; intros h; [done|]. cbn [test_probes has_probes].
  destruct (probe_in_range bl h bits Hb) as [H1 H2].
  rewrite bit_pos_ok by lia. cbn [mbind option_bind]. rewrite get_bit_ok by done. cbn [mbind option_bind].
  by destruct (negb _).
Qed.

Lemma AddHash_ok bf h :
  good_bits (bf_bitset bf) -> BloomFilter_AddHash bf h = Some (filter_add bf h).
Proof.
  intros Hg. pose proof Hg as [??]. unfold BloomFilter_AddHash, filter_add.
  rewrite add_probes_ok by (rewrite bitLength_good by done; lia). done.
Qed.

Lemma add_hashes_ok hs : forall bf,
  good_bits (bf_bitset bf) -> add_hashes hs bf = Some (foldl filter_add bf hs).
Proof.
  induction hs as [|h hs IH]; intros bf Hg; [done|]. cbn [add_hashes foldl].
  rewrite AddHash_ok by done. cbn [mbind option_bind]. apply IH.
  eapply good_bits_length; [|exact Hg]. by apply (filter_add_covers bf h).
Qed.

(** Where the code does not panic, it agrees with the specification. *)
Lemma add_probes_Some n bl d : forall h bits bits',
  add_probes n h d bl bits = Some bits' -> bits' = put_probes n h d bl bits.
Proof.
  induction n as [|n IH]; intros h bits bits'; [by intros [= <-]|]. cbn [add_probes put_probes].
  unfold bit_pos. destruct (bl =? 0); [done|]. cbn [mbind option_bind].
  unfold set_bit, put_bit. destruct (bits !! _); [|done]. cbn. apply IH.
Qed.

Lemma add_hashes_Some hs : forall bf bf',
  add_hashes hs bf = Some bf' -> bf' = foldl filter_add bf hs.
Proof.
  induction hs as [|h hs IH]; intros bf bf'; [by intros [= <-]|]. cbn [add_hashes foldl].
  unfold BloomFilter_AddHash, filter_add at 2.
  destruct (add_probes _ _ _ _ _) as [bits|] eqn:E; [|done]. cbn [fmap option_fmap option_map mbind option_bind].
  rewrite (add_probes_Some _ _ _ _ _ _ E). apply IH.
Qed.

(** The filter of a table is built without a panic. *)
Lemma bloom_of_hashes_ok hs :
  bloom_keys_ok (len hs) -> add_hashes hs (NewBloomFilter (len hs)) = Some (bloom_of_hashes hs).
Proof. intros H. by apply add_hashes_ok, NewBloomFilter_good. Qed.

(** the filter is large enough for its number of bits to wrap around to zero *)
Definition wrapped (bf : BloomFilter) : Prop :=
  len (bf_bitset bf) <> 0 /\ bloom_bitLength (bf_bitset bf) = 0.

(** [MayContain] panics on a filter whose number of bits wraps to zero, and on no
    other. *)
Lemma MayContain_panics `{Murmur3} bf k : BloomFilter_MayContain bf k = None <-> wrapped bf.
Proof.
  unfold BloomFilter_MayContain, wrapped. destruct (Z.eqb_spec (len (bf_bitset bf)) 0) as [Hz|Hz].
  { split; [done|]. by intros [? _]. }
  unfold bloom_bitLength in *. set (n := len (bf_bitset bf)) in *.
  assert (0 <= n) as Hn by apply len_nonneg.
  pose proof (u32_range (n * 8)) as Hr. assert (u32 (n * 8) <= n * 8) as Hle.
  { unfold u32. apply Z.mod_le; lia. }
  destruct (decide (u32 (n * 8) = 0)) as [E|E].
  - rewrite E. cbn. done.
  - rewrite test_probes_ok by (fold n; lia). split; [done|]. by intros [_ ?].
Qed.

Lemma MayContain_hash `{Murmur3} bf k :
  good_bits (bf_bitset bf) ->
  BloomFilter_MayContain bf k = Some (may_contain_hash bf (HashKey k)).
Proof.
  intros Hg. pose proof Hg as [??]. unfold BloomFilter_MayContain, may_contain_hash.
  rewrite (proj2 (Z.eqb_neq _ _)) by lia. apply test_probes_ok.
  rewrite bitLength_good by done. lia.
Qed.

Lemma bloom_of_hashes_good hs :
  bloom_keys_ok (len hs) -> good_bits (bf_bitset (bloom_of_hashes hs)).
Proof.
  intros H. pose proof (bloom_size_bounds _ H). unfold good_bits.
  rewrite len_bloom_of_hashes by done. lia.
Qed.

(** The filter of a table never panics. *)
Lemma bloom_of_hashes_total `{Murmur3} hs k :
  bloom_keys_ok (len hs) -> is_Some (BloomFilter_MayContain (bloom_of_hashes hs) k).
Proof. intros Hok. rewrite MayContain_hash by by apply bloom_of_hashes_good. done. Qed.

Lemma bloom_of_hashes_contains `{Murmur3} hs k :
  bloom_keys_ok (len hs) -> HashKey k ∈ hs ->
  BloomFilter_MayContain (bloom_of_hashes hs) k = Some true.
Proof.
  intros Hok Hin. rewrite MayContain_hash by by apply bloom_of_hashes_good. f_equal.
  apply foldl_filter_add_contains; [by apply NewBloomFilter_good|done].
Qed.

(** ** Properties *)

(** C19: The filter has no false negatives, also after it has been written to
    disk and loaded again: the loop of the builder over the hashes it collected
    does not panic, and every key whose hash is among them is reported as possibly
    present. *)
Theorem bloom_no_false_negatives `{Murmur3} (keys : list bytes) (k : bytes)
    (Hsize : bloom_keys_ok (len keys)) (Hin : k ∈ keys) :
  exists bf, add_hashes (HashKey <$> keys) (NewBloomFilter (len keys)) = Some bf /\
    BloomFilter_MayContain (LoadBloomFilter (BloomFilter_Bytes bf)) k = Some true.
Proof.
  assert (len (HashKey <$> keys) = len keys) as Hl by (unfold len; by rewrite length_fmap).
  exists (bloom_of_hashes (HashKey <$> keys)). rewrite <- Hl at 1.
  split; [apply bloom_of_hashes_ok; by rewrite Hl|].
  unfold LoadBloomFilter, BloomFilter_Bytes.
  destruct (bloom_of_hashes (HashKey <$> keys)) eqn:E. cbn. rewrite <- E.
  apply bloom_of_hashes_contains; [by rewrite Hl|by apply list_elem_of_fmap_2].
Qed.

(** A filter of 512 MiB makes [MayContain] divide by zero, for every key. *)
Theorem huge_filter_panics `{Murmur3} (k : bytes) :
  BloomFilter_MayContain (mkBloomFilter (replicate (Z.to_nat (2 ^ 29)) x00)) k = None.
Proof.
  apply MayContain_panics. unfold wrapped, bloom_bitLength, len. cbn [bf_bitset].
  rewrite length_replicate, Z2Nat.id by done. done.
Qed.

(** a concrete hash for the witnesses: FNV-1a on 32 bits *)
Definition fnv_hash (k : bytes) : Z :=
  foldl (fun h b => u32 (Z.lxor h (byte_val b) * 16777619)) 2166136261 k.

Lemma fnv_hash_range k : 0 <= fnv_hash k < 2 ^ 32.
Proof.
  unfold fnv_hash. assert (0 <= 2166136261 < 2 ^ 32) as H by lia. revert H.
  generalize 2166136261. induction k as [|b k IH]; intros h Hh; simpl; [done|].
  apply IH, u32_range.
Qed.

Definition fnv : Murmur3 := {| murmur3_Sum32 := fnv_hash; murmur3_Sum32_range := fnv_hash_range |}.

Lemma bloom_no_false_negatives_witness :
  exists bf, add_hashes (HashKey (H := fnv) <$> [[x61]; [x62]]) (NewBloomFilter 2) = Some bf /\
    BloomFilter_MayContain (H := fnv) (LoadBloomFilter (BloomFilter_Bytes bf)) [x62] = Some true.
Proof.
  apply (bloom_no_false_negatives (H := fnv) [[x61]; [x62]] [x62]); [reflexivity|].
  right. left.
Defined.

(** an absent key is rejected (the filter of the witness is not trivial) *)
Example bloom_rejects :
  BloomFilter_MayContain (H := fnv) (bloom_of_hashes (HashKey (H := fnv) <$> [[x61]; [x62]]))
    [x70] = Some false.
Proof. vm_compute. reflexivity. Qed.
