(* ===== verification/GoFmt.v ===== *)
(** * Decimal text: [strconv.Itoa], [strconv.Atoi], [fmt.Sprintf("%d")],
    [fmt.Sscanf("data_%d.sst")], [strings.HasSuffix]

    The engine orders its SSTables by the number in their file names, and the
    server computes ports from addresses; both go through decimal text. *)
From stdpp Require Import base gmap sets list strings numbers sorting.
From Stdlib Require Import ZArith Lia Ascii.
From S2P Require Import Prelude.
Open Scope Z_scope.

Abbreviation chars := String.list_ascii_of_string.
Abbreviation of_chars := String.string_of_list_ascii.

Definition ascii_of_Z (z : Z) : ascii := ascii_of_N (Z.to_N z).
Definition Z_of_ascii (c : ascii) : Z := Z.of_N (N_of_ascii c).

Definition digit_char (d : Z) : ascii := ascii_of_Z (48 + d).
Definition char_digit (c : ascii) : option Z :=
  let z := Z_of_ascii c in if (48 <=? z) && (z <=? 57) then Some (z - 48) else None.

(** most significant digit first; [fuel] bounds the number of digits *)
Fixpoint digits_of (fuel : nat) (n : Z) : list Z :=
  match fuel with
  | O => [n mod 10]
  | S fuel' => if n <? 10 then [n] else digits_of fuel' (n / 10) ++ [n mod 10]
  end.

Definition nat_digits (n : Z) : list Z := digits_of (Z.to_nat (Z.log2 n)) n.
Definition of_digits (ds : list Z) : Z := foldl (fun a d => a * 10 + d) 0 ds.

(** [strconv.Itoa], and the text of [%d] *)
Definition itoa_chars (z : Z) : list ascii :=
  if z <? 0 then "-"%char :: (digit_char <$> nat_digits (- z))
  else digit_char <$> nat_digits z.
Definition Itoa (z : Z) : string := of_chars (itoa_chars z).

(** the longest run of digits at the front, and what follows it *)
Fixpoint span_digits (l : list ascii) : list Z * list ascii :=
  match l with
  | [] => ([], [])
  | c :: l' =>
      match char_digit c with
      | Some d => let '(ds, r) := span_digits l' in (d :: ds, r)
      | None => ([], l)
      end
  end.

Definition int64_range (z : Z) : bool := (- 2 ^ 63 <=? z) && (z <? 2 ^ 63).

Definition sign_of (l : list ascii) : Z * list ascii :=
  match l with
  | "-"%char :: l' => (-1, l')
  | "+"%char :: l' => (1, l')
  | _ => (1, l)
  end.

(** [strconv.Atoi]: [None] is an error (syntax or range) *)
Definition Atoi (s : string) : option Z :=
  let '(sg, l) := sign_of (chars s) in
  match span_digits l with
  | ([], _) => None
  | (ds, []) => let z := sg * of_digits ds in if int64_range z then Some z else None
  | (_, _ :: _) => None
  end.

Definition is_space (c : ascii) : bool :=
  let z := Z_of_ascii c in (z =? 32) || (z =? 9) || (z =? 11) || (z =? 12) || (z =? 13).

Fixpoint skip_space (l : list ascii) : list ascii :=
  match l with
  | c :: l' => if is_space c then skip_space l' else l
  | [] => []
  end.

Fixpoint strip_prefix (p l : list ascii) : option (list ascii) :=
  match p, l with
  | [], _ => Some l
  | c :: p', d :: l' => if Ascii.eqb c d then strip_prefix p' l' else None
  | _ :: _, [] => None
  end.

(** [ts] after [fmt.Sscanf(name, "data_%d.sst", &ts)] with [ts] initially 0:
    the text after the number is not needed for the assignment *)
Definition Sscanf_ts (name : string) : Z :=
  match strip_prefix (chars "data_") (chars name) with
  | None => 0
  | Some l =>
      let '(sg, l) := sign_of (skip_space l) in
      match span_digits l with
      | ([], _) => 0
      | (ds, _) => let z := sg * of_digits ds in if int64_range z then z else 0
      end
  end.

(** [fmt.Sprintf("data_%d.sst", ts)] *)
Definition sst_name (ts : Z) : string := ("data_" +:+ Itoa ts +:+ ".sst")%string.

(** [strings.HasSuffix] *)
Definition HasSuffix (s suffix : string) : bool :=
  match strip_prefix (rev (chars suffix)) (rev (chars s)) with Some _ => true | None => false end.

(** ** Lemmas *)

Lemma Z_of_ascii_of z : 0 <= z < 256 -> Z_of_ascii (ascii_of_Z z) = z.
Proof. intros. unfold Z_of_ascii, ascii_of_Z. rewrite N_ascii_embedding; lia. Qed.

Lemma char_digit_char d : 0 <= d < 10 -> char_digit (digit_char d) = Some d.
Proof.
  intros. unfold char_digit, digit_char. rewrite Z_of_ascii_of by lia.
  rewrite (proj2 (Z.leb_le _ _)), (proj2 (Z.leb_le _ _)) by lia. simpl. f_equal. lia.
Qed.

Lemma digits_of_range fuel n : 0 <= n -> Forall (fun d => 0 <= d < 10) (digits_of fuel n).
Proof.
  revert n. induction fuel as [|fuel IH]; intros n Hn; simpl.
  - repeat constructor; apply Z.mod_pos_bound; lia.
  - destruct (Z.ltb_spec n 10); [repeat constructor; lia|].
    apply Forall_app. split; [apply IH, Z.div_pos; lia|].
    repeat constructor; apply Z.mod_pos_bound; lia.
Qed.

Lemma of_digits_of fuel n : 0 <= n < 10 * 2 ^ Z.of_nat fuel -> of_digits (digits_of fuel n) = n.
Proof.
  revert n. induction fuel as [|fuel IH]; intros n Hn; simpl digits_of.
  - unfold of_digits. simpl. apply Z.mod_small. lia.
  - destruct (Z.ltb_spec n 10); [unfold of_digits; simpl; lia|].
    unfold of_digits. rewrite foldl_app. simpl. fold (of_digits (digits_of fuel (n / 10))).
    rewrite IH; [rewrite (Z.div_mod n 10) at 3; lia|].
    split; [apply Z.div_pos; lia|]. apply Z.div_lt_upper_bound; [lia|].
    rewrite Nat2Z.inj_succ, Z.pow_succ_r in Hn by lia. lia.
Qed.

Lemma of_nat_digits n : 0 <= n -> of_digits (nat_digits n) = n.
Proof.
  intros Hn. apply of_digits_of. split; [done|]. rewrite Z2Nat.id by apply Z.log2_nonneg.
  destruct (decide (n = 0)) as [->|]; [done|].
  pose proof (Z.log2_spec n ltac:(lia)) as [_ H]. rewrite Z.pow_succ_r in H
    by apply Z.log2_nonneg. lia.
Qed.

Lemma nat_digits_range n : 0 <= n -> Forall (fun d => 0 <= d < 10) (nat_digits n).
Proof. apply digits_of_range. Qed.

Lemma nat_digits_nonempty n : nat_digits n <> [].
Proof.
  unfold nat_digits. destruct (Z.to_nat (Z.log2 n)); simpl; [done|].
  case_match; [done|]. intros E. by apply app_eq_nil in E as [_ ?].
Qed.

(** the rest starts with a character that is no digit *)
Definition no_digit (r : list ascii) : Prop :=
  match r with [] => True | c :: _ => char_digit c = None end.

Lemma span_digits_app ds r :
  Forall (fun d => 0 <= d < 10) ds -> no_digit r ->
  span_digits ((digit_char <$> ds) ++ r) = (ds, r).
Proof.
  intros Hds Hr. induction Hds as [|d ds Hd Hds IH].
  - destruct r as [|c r]; [done|]. simpl in *. by rewrite Hr.
  - rewrite fmap_cons, <- app_comm_cons. cbn [span_digits].
    rewrite char_digit_char by done. by rewrite IH.
Qed.

Lemma int64_range_true z : - 2 ^ 63 <= z < 2 ^ 63 -> int64_range z = true.
Proof. intros. apply andb_true_intro. split; [apply Z.leb_le|apply Z.ltb_lt]; lia. Qed.

Lemma digit_char_cases d : 0 <= d < 10 ->
  digit_char d ∈ ["0";"1";"2";"3";"4";"5";"6";"7";"8";"9"]%char.
Proof.
  intros. assert (d = 0 \/ d = 1 \/ d = 2 \/ d = 3 \/ d = 4 \/ d = 5 \/ d = 6 \/ d = 7 \/
    d = 8 \/ d = 9) as Hd by lia.
  repeat destruct Hd as [->|Hd]; [..|subst d]; apply list_elem_of_In; vm_compute; tauto.
Qed.

(** a decimal text in front of [r] is read back, with its sign *)
Lemma sign_span z r :
  no_digit r ->
  exists sg l ds, sign_of (itoa_chars z ++ r) = (sg, l) /\ span_digits l = (ds, r) /\
    ds <> [] /\ sg * of_digits ds = z.
Proof.
  intros Hr. unfold itoa_chars. destruct (Z.ltb_spec z 0) as [Hz|Hz].
  - exists (-1), ((digit_char <$> nat_digits (- z)) ++ r), (nat_digits (- z)).
    split; [done|]. rewrite span_digits_app by (done || apply nat_digits_range; lia).
    split_and!; [done|apply nat_digits_nonempty|]. rewrite of_nat_digits; lia.
  - exists 1, ((digit_char <$> nat_digits z) ++ r), (nat_digits z). split.
    + pose proof (nat_digits_nonempty z) as Hn. pose proof (nat_digits_range z Hz) as Hd.
      destruct (nat_digits z) as [|d ds]; [done|]. apply Forall_cons in Hd as [Hd _].
      apply digit_char_cases in Hd. csimpl.
      rewrite !elem_of_cons, elem_of_nil in Hd.
      repeat destruct Hd as [->|Hd]; by try destruct Hd.
    + rewrite span_digits_app by (done || by apply nat_digits_range).
      split_and!; [done|apply nat_digits_nonempty|]. rewrite of_nat_digits; lia.
Qed.

Lemma chars_of_chars l : chars (of_chars l) = l.
Proof. apply String.list_ascii_of_string_of_list_ascii. Qed.

Lemma chars_app s t : chars (s +:+ t)%string = chars s ++ chars t.
Proof. induction s as [|c s IH]; [done|]. simpl. by rewrite IH. Qed.

Lemma chars_inj s t : chars s = chars t -> s = t.
Proof.
  intros E. rewrite <- (String.string_of_list_ascii_of_string s), E.
  apply String.string_of_list_ascii_of_string.
Qed.

Lemma Atoi_Itoa z : - 2 ^ 63 <= z < 2 ^ 63 -> Atoi (Itoa z) = Some z.
Proof.
  intros Hz. unfold Atoi, Itoa. rewrite chars_of_chars.
  destruct (sign_span z [] I) as (sg & l & ds & H1 & H2 & H3 & H4).
  rewrite app_nil_r in H1. rewrite H1, H2. destruct ds as [|d ds]; [done|].
  rewrite H4. by rewrite int64_range_true.
Qed.

Lemma skip_space_itoa z r : skip_space (itoa_chars z ++ r) = itoa_chars z ++ r.
Proof.
  unfold itoa_chars. destruct (Z.ltb_spec z 0) as [Hz|Hz]; [done|].
  pose proof (nat_digits_nonempty z) as Hn. pose proof (nat_digits_range z Hz) as Hd.
  destruct (nat_digits z) as [|d ds]; [done|]. apply Forall_cons in Hd as [Hd _].
  csimpl. unfold is_space, digit_char. rewrite Z_of_ascii_of by lia.
  rewrite !(proj2 (Z.eqb_neq _ _)) by lia. done.
Qed.

Lemma strip_prefix_app p l : strip_prefix p (p ++ l) = Some l.
Proof. induction p as [|c p IH]; simpl; [done|]. by rewrite Ascii.eqb_refl. Qed.

(** The timestamp in the name of an SSTable is read back. *)
Lemma Sscanf_sst_name ts : - 2 ^ 63 <= ts < 2 ^ 63 -> Sscanf_ts (sst_name ts) = ts.
Proof.
  intros Hz. unfold Sscanf_ts, sst_name. rewrite !chars_app, strip_prefix_app.
  unfold Itoa. rewrite chars_of_chars, skip_space_itoa.
  destruct (sign_span ts (chars ".sst")) as (sg & l & ds & H1 & H2 & H3 & H4); [done|].
  rewrite H1, H2. destruct ds as [|d ds]; [done|]. rewrite H4. by rewrite int64_range_true.
Qed.

Lemma sst_name_inj a b :
  - 2 ^ 63 <= a < 2 ^ 63 -> - 2 ^ 63 <= b < 2 ^ 63 -> sst_name a = sst_name b -> a = b.
Proof. intros Ha Hb E. by rewrite <- (Sscanf_sst_name a Ha), E, Sscanf_sst_name. Qed.

Lemma HasSuffix_app s t : HasSuffix (s +:+ t)%string t = true.
Proof. unfold HasSuffix. by rewrite chars_app, rev_app_distr, strip_prefix_app. Qed.

Lemma sst_name_suffix ts : HasSuffix (sst_name ts) ".sst" = true.
Proof.
  unfold sst_name. assert (forall a b c : string, a +:+ b +:+ c = (a +:+ b) +:+ c)%string as ->.
  { intros. apply chars_inj. rewrite !chars_app. by rewrite app_assoc. }
  apply HasSuffix_app.
Qed.
