(* ===== verification/Sst.v ===== *)
(** * SSTable files: [engine/sstable/builder.go]

    The builder appends entries, a Bloom filter block, a sparse index and a
    footer to a temporary file, and renames it at the end. *)
From stdpp Require Import base gmap sets list strings numbers sorting.
From Stdlib Require Import ZArith Lia Strings.Byte.
From S2P Require Import Prelude SkipList Disk Bloom GoFmt.
Open Scope Z_scope.

Definition IndexInterval : Z := 1024.

Record IndexEntry := mkIndexEntry { ie_Key : bytes; ie_Offset : Z }.

Record Builder := mkBuilder {
  b_file : File;
  b_tmpFilename : string;
  b_finalFilename : string;
  b_index : list IndexEntry;
  b_bytesWritten : Z;
  b_lastIndexPos : Z;
  b_hashes : list Z
}.

Definition tmp_name (filename : string) (now : Z) : string :=
  (filename +:+ ".tmp." +:+ Itoa now)%string.

Definition NewBuilder (filename : string) : IO (result Builder) :=
  now ← gets w_now;
  let tmpFilename := tmp_name filename now in
  and_bind (os_Create tmpFilename) (fun e => ret (inl e)) (fun file =>
  ret (inr (mkBuilder file tmpFilename filename [] 0 0 []))).

(** [cleanup] closes and removes the temporary file, ignoring errors *)
Definition Builder_cleanup (b : Builder) : IO unit :=
  _ ← file_Close (b_file b); _ ← os_Remove (b_tmpFilename b); ret tt.

Section builder.
Context `{Murmur3}.

Definition Builder_Add (b : Builder) (key : bytes) (val : slice) : IO (err * Builder) :=
  let hashes := b_hashes b ++ [HashKey key] in
  let startOffset := b_bytesWritten b in
  let b1 :=
    if (startOffset =? 0) || (IndexInterval <=? startOffset - b_lastIndexPos b)
    then mkBuilder (b_file b) (b_tmpFilename b) (b_finalFilename b)
           (b_index b ++ [mkIndexEntry key startOffset]) (b_bytesWritten b) startOffset hashes
    else mkBuilder (b_file b) (b_tmpFilename b) (b_finalFilename b)
           (b_index b) (b_bytesWritten b) (b_lastIndexPos b) hashes in
  let fail e := ret (Some e, b1) in
  and_then (binary_Write (b_file b) 4 (u32 (len key))) fail (
  and_then (binary_Write (b_file b) 4 (u32 (len (slice_bytes val)))) fail (
  and_then (file_Write (b_file b) key) fail (
  and_then (file_Write (b_file b) (slice_bytes val)) fail (
  ret (None, mkBuilder (b_file b1) (b_tmpFilename b1) (b_finalFilename b1) (b_index b1)
               (b_bytesWritten b1 + (8 + len key + len (slice_bytes val)))
               (b_lastIndexPos b1) (b_hashes b1)))))).

(** the loop of [writeIndex] *)
Fixpoint write_entries (f : File) (index : list IndexEntry) : IO err :=
  match index with
  | [] => ret None
  | entry :: index' =>
      let fail e := ret (Some e) in
      and_then (binary_Write f 4 (u32 (len (ie_Key entry)))) fail (
      and_then (file_Write f (ie_Key entry)) fail (
      and_then (binary_Write f 8 (ie_Offset entry)) fail (
      write_entries f index')))
  end.

Definition Builder_writeIndex (b : Builder) : IO err :=
  and_then (binary_Write (b_file b) 4 (u32 (len (b_index b)))) (fun e => ret (Some e)) (
  write_entries (b_file b) (b_index b)).

Definition Builder_Finish (b : Builder) : IO err :=
  let filterOffset := b_bytesWritten b in
  match add_hashes (b_hashes b) (NewBloomFilter (len (b_hashes b))) with
  | None => ret (Some Panic)
  | Some bf =>
  let filterData := BloomFilter_Bytes bf in
  let fail e := _ ← Builder_cleanup b; ret (Some e) in
  and_then (binary_Write (b_file b) 4 (u32 (len filterData))) fail (
  and_then (file_Write (b_file b) filterData) fail (
  let indexOffset := b_bytesWritten b + (4 + len filterData) in
  and_then (Builder_writeIndex b) fail (
  and_then (binary_Write (b_file b) 8 (u64 indexOffset)) fail (
  and_then (binary_Write (b_file b) 8 filterOffset) fail (
  and_then (file_Sync (b_file b)) fail (
  and_then (file_Close (b_file b)) fail (
  and_then (os_Rename (b_tmpFilename b) (b_finalFilename b)) fail (
  ret None))))))))
  end.

(** the loop of [Flush] over the iterator *)
Fixpoint add_entries (b : Builder) (es : list (bytes * slice)) : IO (err * Builder) :=
  match es with
  | [] => ret (None, b)
  | (key, val) :: es' =>
      '(r, b') ← Builder_Add b key val;
      match r with
      | Some e => _ ← Builder_cleanup b'; ret (Some e, b')
      | None => add_entries b' es'
      end
  end.

Definition Builder_Flush (b : Builder) (skiplist : SkipList) : IO err :=
  match SkipList_entries skiplist with
  | None => ret (Some Panic)
  | Some es =>
      '(r, b') ← add_entries b es;
      match r with
      | Some e => ret (Some e)
      | None => Builder_Finish b'
      end
  end.
End builder.

(** ** The file format *)

Definition entry_enc (e : bytes * slice) : bytes :=
  le32 (u32 (len e.1)) ++ le32 (u32 (len (slice_bytes e.2))) ++ e.1 ++ slice_bytes e.2.

Definition data_of (es : list (bytes * slice)) : bytes := concat (entry_enc <$> es).

(** the sparse index: offset of the next entry, of the last indexed one, entries *)
Definition index_step (st : Z * Z * list IndexEntry) (e : bytes * slice)
    : Z * Z * list IndexEntry :=
  let '(off, last, idx) := st in
  let off' := off + (8 + len e.1 + len (slice_bytes e.2)) in
  if (off =? 0) || (IndexInterval <=? off - last)
  then (off', off, idx ++ [mkIndexEntry e.1 off])
  else (off', last, idx).

Definition index_state (es : list (bytes * slice)) : Z * Z * list IndexEntry :=
  foldl index_step (0, 0, []) es.
Definition index_of (es : list (bytes * slice)) : list IndexEntry := (index_state es).2.

Definition index_entry_enc (x : IndexEntry) : bytes :=
  le32 (u32 (len (ie_Key x))) ++ ie_Key x ++ le64 (ie_Offset x).

Definition index_enc (idx : list IndexEntry) : bytes :=
  le32 (u32 (len idx)) ++ concat (index_entry_enc <$> idx).

Definition filter_of `{Murmur3} (es : list (bytes * slice)) : bytes :=
  bf_bitset (bloom_of_hashes ((fun e => HashKey e.1) <$> es)).

(** the filter block, the index block and the footer *)
Definition trailer_of `{Murmur3} (es : list (bytes * slice)) : bytes :=
  let filterOffset := len (data_of es) in
  let indexOffset := filterOffset + (4 + len (filter_of es)) in
  le32 (u32 (len (filter_of es))) ++ filter_of es ++ index_enc (index_of es) ++
  le64 (u64 indexOffset) ++ le64 filterOffset.

Definition sst_bytes `{Murmur3} (es : list (bytes * slice)) : bytes :=
  data_of es ++ trailer_of es.

Lemma data_of_app xs ys : data_of (xs ++ ys) = data_of xs ++ data_of ys.
Proof. unfold data_of. by rewrite fmap_app, concat_app. Qed.

Lemma data_of_cons e es : data_of (e :: es) = entry_enc e ++ data_of es.
Proof. done. Qed.

Lemma len_entry_enc e : len (entry_enc e) = 8 + len e.1 + len (slice_bytes e.2).
Proof. unfold entry_enc. autorewrite with len_simpl. lia. Qed.

Lemma index_state_snoc es e : index_state (es ++ [e]) = index_step (index_state es) e.
Proof. unfold index_state. by rewrite foldl_app. Qed.

Lemma index_state_off es : (index_state es).1.1 = len (data_of es).
Proof.
  induction es as [|e es IH] using rev_ind; [done|].
  rewrite index_state_snoc, data_of_app, len_app, data_of_cons, len_app, len_entry_enc, <- IH.
  destruct (index_state es) as [[off last] idx]. unfold index_step.
  change (len (data_of [])) with 0. case_match; simpl; lia.
Qed.

(** ** The builder writes the format *)

Section builder_ok.
Context `{Murmur3}.

Definition hashes_of (es : list (bytes * slice)) : list Z := (fun e => HashKey e.1) <$> es.

(** the builder after the entries [es] *)
Definition builder_at (f : File) (tmp final : string) (es : list (bytes * slice)) : Builder :=
  let '(off, last, idx) := index_state es in
  mkBuilder f tmp final idx off last (hashes_of es).

Lemma Builder_Add_ok f tmp final es e i w :
  w_faults w = [] -> file_ino w f = Some i ->
  Builder_Add (builder_at f tmp final es) e.1 e.2 (with_data i (data_of es) w) =
  ((None, builder_at f tmp final (es ++ [e])), with_data i (data_of (es ++ [e])) w).
Proof.
  intros Hf Hi. unfold builder_at, hashes_of. rewrite index_state_snoc, data_of_app, data_of_cons.
  rewrite fmap_app. destruct (index_state es) as [[off last] idx]. unfold Builder_Add, index_step.
  cbn [b_file b_bytesWritten b_lastIndexPos b_index b_hashes b_tmpFilename b_finalFilename].
  rewrite !(and_then_binary_Write f i), !(and_then_Write f i) by done.
  unfold ret, entry_enc. change (data_of []) with (@nil byte).
  rewrite app_nil_r, <- !app_assoc.
  by destruct ((off =? 0) || (IndexInterval <=? off - last)).
Qed.

Lemma add_entries_ok f tmp final es' : forall es i w,
  w_faults w = [] -> file_ino w f = Some i ->
  add_entries (builder_at f tmp final es) es' (with_data i (data_of es) w) =
  ((None, builder_at f tmp final (es ++ es')), with_data i (data_of (es ++ es')) w).
Proof.
  induction es' as [|[key val] es' IH]; intros es i w Hf Hi; cbn [add_entries].
  - by rewrite app_nil_r.
  - unfold mbind, IO_bind. rewrite (Builder_Add_ok f tmp final es (key, val)) by done.
    rewrite IH by done. by rewrite <- app_assoc.
Qed.

Lemma write_entries_ok f idx : forall i d w,
  w_faults w = [] -> file_ino w f = Some i ->
  write_entries f idx (with_data i d w) =
  (None, with_data i (d ++ concat (index_entry_enc <$> idx)) w).
Proof.
  induction idx as [|x idx IH]; intros i d w Hf Hi.
  - cbn [write_entries fmap list_fmap concat]. by rewrite app_nil_r.
  - rewrite fmap_cons. cbn [write_entries concat].
    rewrite !(and_then_binary_Write f i), !(and_then_Write f i),
      !(and_then_binary_Write f i) by done.
    rewrite IH by done. unfold index_entry_enc at 2. by rewrite <- !app_assoc.
Qed.

Lemma len_hashes_of es : len (hashes_of es) = len es.
Proof. unfold hashes_of, len. by rewrite length_fmap. Qed.

(** [Finish] publishes the complete file under its final name. *)
Lemma Builder_Finish_ok f tmp final es i w :
  w_faults w = [] -> file_ino w f = Some i -> w_dir w !! tmp = Some i -> bloom_keys_ok (len es) ->
  Builder_Finish (builder_at f tmp final es) (with_data i (data_of es) w) =
  (None, set_dir (<[final := i]> (delete tmp (w_dir w)))
           (set_fds (delete (f_fd f) (w_fds w)) (with_data i (sst_bytes es) w))).
Proof.
  intros Hf Hi Hdir Hk. unfold Builder_Finish, builder_at, Builder_writeIndex.
  pose proof (index_state_off es) as Hoff. unfold sst_bytes, trailer_of, index_of.
  destruct (index_state es) as [[off last] idx]. cbn in Hoff. subst off.
  cbn [b_file b_bytesWritten b_lastIndexPos b_index b_hashes b_tmpFilename b_finalFilename snd].
  rewrite bloom_of_hashes_ok by by rewrite len_hashes_of. unfold BloomFilter_Bytes.
  change (bf_bitset (bloom_of_hashes (hashes_of es))) with (filter_of es).
  rewrite !(and_then_binary_Write f i), !(and_then_Write f i) by done.
  unfold and_then at 1, mbind, IO_bind. rewrite (and_then_binary_Write f i) by done.
  rewrite write_entries_ok by done. cbn beta iota.
  rewrite !(and_then_binary_Write f i) by done.
  unfold and_then, mbind, IO_bind. erewrite file_Sync_ok by done.
  unfold file_Close, os_Rename. rewrite with_data_ino, Hi, next_outcome_ok by done.
  cbn [w_dir set_fds with_data set_data]. rewrite Hdir, next_outcome_ok by done.
  unfold ret, index_enc. rewrite <- !app_assoc. done.
Qed.
End builder_ok.

(** ** Building a table from scratch *)

Section build_ok.
Context `{Murmur3}.

(** the world after a complete table has been published as [final] *)
Definition publish (final : string) (d : bytes) (w : World) : World :=
  mkWorld (<[final := w_next w]> (w_dir w)) (<[w_next w := d]> (w_data w)) (w_fds w)
    (S (S (w_next w))) (w_now w) (w_faults w).

Definition builder_file (final : string) (w : World) : File :=
  mkFile (tmp_name final (w_now w)) (S (w_next w)).

(** the world once the temporary file has been created *)
Definition building (final : string) (w : World) : World :=
  mkWorld (<[tmp_name final (w_now w) := w_next w]> (w_dir w))
    (<[w_next w := []]> (w_data w)) (<[S (w_next w) := w_next w]> (w_fds w))
    (S (S (w_next w))) (w_now w) (w_faults w).

Lemma NewBuilder_ok final w :
  w_faults w = [] -> w_dir w !! tmp_name final (w_now w) = None ->
  NewBuilder final w =
  (inr (builder_at (builder_file final w) (tmp_name final (w_now w)) final []),
   with_data (w_next w) (data_of []) (building final w)).
Proof.
  intros Hf Hnew. unfold NewBuilder, mbind, IO_bind, and_bind, os_Create, gets.
  unfold mbind, IO_bind. rewrite next_outcome_ok by done. rewrite Hnew.
  unfold new_inode, new_handle, ret. cbn. f_equal.
  unfold with_data, set_data, building. cbn. by rewrite insert_insert_eq.
Qed.

Lemma building_ino final w :
  file_ino (building final w) (builder_file final w) = Some (w_next w).
Proof. unfold file_ino. cbn. apply lookup_insert_eq. Qed.

Lemma building_publish final d w :
  wf_world w -> w_dir w !! tmp_name final (w_now w) = None ->
  set_dir (<[final := w_next w]>
            (delete (tmp_name final (w_now w)) (w_dir (building final w))))
    (set_fds (delete (f_fd (builder_file final w)) (w_fds (building final w)))
      (with_data (w_next w) d (building final w))) = publish final d w.
Proof.
  intros Hw Hnew. unfold set_dir, set_fds, with_data, set_data, publish. cbn.
  rewrite insert_insert_eq, !delete_insert_id; [done| |done].
  apply (ww_fds w Hw). lia.
Qed.

(** Without faults, [NewBuilder] and [Flush] publish the table of the
    memtable's entries and change nothing else. *)
Lemma Builder_Flush_ok final sl es w :
  w_faults w = [] -> wf_world w -> w_dir w !! tmp_name final (w_now w) = None ->
  repr sl es -> bloom_keys_ok (len es) ->
  exists b w1, NewBuilder final w = (inr b, w1) /\
    Builder_Flush b sl w1 = (None, publish final (sst_bytes es) w).
Proof.
  intros Hf Hw Hnew Hr Hk. eexists _, _. split; [by apply NewBuilder_ok|].
  unfold Builder_Flush. rewrite (SkipList_entries_spec _ _ Hr).
  unfold mbind, IO_bind. rewrite add_entries_ok by (done || apply building_ino).
  rewrite app_nil_l, Builder_Finish_ok; [|done|apply building_ino|cbn; apply lookup_insert_eq|done].
  by rewrite building_publish.
Qed.
End build_ok.

(** ** Faults: a small Hoare logic over the world *)

Definition triple {A} (P : World -> Prop) (m : IO A) (Q : A -> World -> Prop) : Prop :=
  forall w, P w -> Q (m w).1 (m w).2.

Lemma triple_ret {A} (P : World -> Prop) (a : A) (Q : A -> World -> Prop) :
  (forall w, P w -> Q a w) -> triple P (ret a) Q.
Proof. intros HQ w Hw. by apply HQ. Qed.

Lemma triple_bind {A B} P (m : IO A) (k : A -> IO B) R Q :
  triple P m R -> (forall a, triple (R a) (k a) Q) -> triple P (m ≫= k) Q.
Proof.
  intros Hm Hk w Hw. specialize (Hm w Hw). unfold mbind, IO_bind.
  destruct (m w) as [a w']. by apply Hk.
Qed.

Lemma triple_and_then {A} P (c : IO err) (h : error -> IO A) k (R : error -> World -> Prop) S Q :
  triple P c (fun r w => match r with Some e => R e w | None => S w end) ->
  (forall e, triple (R e) (h e) Q) -> triple S k Q -> triple P (and_then c h k) Q.
Proof.
  intros Hc Hh Hk w Hw. specialize (Hc w Hw). unfold and_then, mbind, IO_bind.
  destruct (c w) as [[e|] w']; [by apply Hh|by apply Hk].
Qed.

Lemma triple_conseq {A} (P P' : World -> Prop) (m : IO A) (Q Q' : A -> World -> Prop) :
  triple P' m Q' -> (forall w, P w -> P' w) -> (forall a w, Q' a w -> Q a w) -> triple P m Q.
Proof. intros Hm HP HQ w Hw. by apply HQ, Hm, HP. Qed.

(** ** Publication is atomic under faults *)

Section atomic.
Context `{Murmur3}.
Context (f : File) (i : ino) (tmp final : string) (D : gmap string ino).

(** the temporary file is open on inode [i] and holds [d] *)
Definition writing (d : bytes) (w : World) : Prop :=
  file_ino w f = Some i /\ w_data w !! i = Some d /\ w_dir w = D.

(** the directory is as before, the temporary name possibly gone *)
Definition unpublished (w : World) : Prop := w_dir w = D \/ w_dir w = delete tmp D.

Definition published (d : bytes) (w : World) : Prop :=
  w_dir w = <[final := i]> (delete tmp D) /\ w_data w !! i = Some d.

Definition or_unpublished (S : World -> Prop) (r : err) (w : World) : Prop :=
  match r with Some _ => unpublished w | None => S w end.

Lemma next_outcome_same w :
  (w_dir (next_outcome w).2, w_data (next_outcome w).2, w_fds (next_outcome w).2) =
  (w_dir w, w_data w, w_fds w).
Proof. unfold next_outcome. by destruct (w_faults w). Qed.

Ltac outcome :=
  match goal with
  | |- context [next_outcome ?w] =>
      let E := fresh in
      pose proof (next_outcome_same w) as E; destruct (next_outcome w) as [[|?] ?];
      cbn in E; injection E as ? ? ?; cbn
  end.

Lemma Write_triple d p :
  triple (writing d) (file_Write f p)
    (fun r w => match r with Some _ => w_dir w = D | None => writing (d ++ p) w end).
Proof.
  intros w (Hi & Hd & HD). unfold file_Write, writing, file_ino in *. rewrite Hi.
  outcome; [|congruence]. split_and!; [congruence| |congruence].
  rewrite lookup_insert_eq. simpl. do 2 f_equal.
  match goal with E : w_data _ = w_data w |- _ => rewrite E, Hd end. done.
Qed.

Lemma Close_triple g :
  triple (fun w => w_dir w = D) (file_Close g) (fun _ w => w_dir w = D).
Proof.
  intros w HD. unfold file_Close. destruct (file_ino w g); [|done]. outcome; congruence.
Qed.

Lemma Remove_triple :
  triple (fun w => w_dir w = D) (os_Remove tmp) (fun _ => unpublished).
Proof.
  intros w HD. unfold os_Remove, unpublished. destruct (w_dir w !! tmp); [|by left].
  outcome; [right|left]; congruence.
Qed.

Lemma cleanup_triple b :
  b_tmpFilename b = tmp ->
  triple (fun w => w_dir w = D) (Builder_cleanup b) (fun _ => unpublished).
Proof.
  intros Hb. unfold Builder_cleanup. rewrite Hb.
  eapply triple_bind; [apply Close_triple|]. intros ?.
  eapply triple_bind; [apply Remove_triple|]. intros ?. by apply triple_ret.
Qed.

Lemma Sync_triple d :
  triple (writing d) (file_Sync f)
    (fun r w => match r with Some _ => w_dir w = D | None => writing d w end).
Proof.
  intros w (Hi & Hd & HD). unfold file_Sync, writing, file_ino in *. rewrite Hi.
  outcome; [|congruence]. split_and!; congruence.
Qed.

Lemma Close_last_triple d :
  triple (writing d) (file_Close f)
    (fun r w => match r with
                | Some _ => w_dir w = D
                | None => w_dir w = D /\ w_data w !! i = Some d end).
Proof.
  intros w (Hi & Hd & HD). unfold file_Close. rewrite Hi. outcome; [split|]; congruence.
Qed.

Lemma Rename_triple d :
  D !! tmp = Some i ->
  triple (fun w => w_dir w = D /\ w_data w !! i = Some d) (os_Rename tmp final)
    (fun r w => match r with Some _ => w_dir w = D | None => published d w end).
Proof.
  intros Htmp w [HD Hd]. unfold os_Rename, published. rewrite HD, Htmp.
  outcome; [split|]; congruence.
Qed.

Lemma and_then_Write_triple {A} d p (h : error -> IO A) k Q :
  (forall e, triple (fun w => w_dir w = D) (h e) Q) ->
  triple (writing (d ++ p)) k Q ->
  triple (writing d) (and_then (file_Write f p) h k) Q.
Proof.
  intros Hh Hk. eapply triple_and_then; [apply Write_triple|done|done].
Qed.

Lemma Builder_Add_triple es e :
  triple (writing (data_of es)) (Builder_Add (builder_at f tmp final es) e.1 e.2)
    (fun r w => b_tmpFilename r.2 = tmp /\
       match r.1 with
       | Some _ => w_dir w = D
       | None => r.2 = builder_at f tmp final (es ++ [e]) /\ writing (data_of (es ++ [e])) w
       end).
Proof.
  unfold builder_at, hashes_of. rewrite index_state_snoc, data_of_app, data_of_cons, fmap_app.
  destruct (index_state es) as [[off last] idx]. unfold Builder_Add, index_step, binary_Write.
  cbn [b_file b_bytesWritten b_lastIndexPos b_index b_hashes b_tmpFilename b_finalFilename].
  repeat (apply and_then_Write_triple;
    [intros; apply triple_ret; intros; by destruct ((off =? 0) || _)|]).
  apply triple_ret. intros w Hw. split; [by destruct ((off =? 0) || _)|].
  split; [by destruct ((off =? 0) || _)|].
  unfold entry_enc. change (data_of []) with (@nil byte). by rewrite app_nil_r, !app_assoc in *.
Qed.

Lemma add_entries_triple es' : forall es,
  triple (writing (data_of es)) (add_entries (builder_at f tmp final es) es')
    (fun r => or_unpublished (fun w =>
       r.2 = builder_at f tmp final (es ++ es') /\ writing (data_of (es ++ es')) w) r.1).
Proof.
  induction es' as [|[key val] es' IH]; intros es; cbn [add_entries].
  - apply triple_ret. intros w Hw. by rewrite app_nil_r.
  - eapply triple_bind; [apply (Builder_Add_triple es (key, val))|]. intros [[e|] b].
    + eapply (triple_bind _ _ _ (fun _ => unpublished)).
      * intros w [Hb HD]. apply (cleanup_triple b Hb w HD).
      * intros ?. by apply triple_ret.
    + intros w (_ & Hb & Hw). cbn [fst snd] in *. subst b.
      assert (es ++ (key, val) :: es' = (es ++ [(key, val)]) ++ es') as ->
        by (by rewrite <- app_assoc).
      apply (IH _ w Hw).
Qed.

Lemma write_entries_triple idx : forall d,
  triple (writing d) (write_entries f idx)
    (fun r w => match r with
                | Some _ => w_dir w = D
                | None => writing (d ++ concat (index_entry_enc <$> idx)) w end).
Proof.
  induction idx as [|x idx IH]; intros d; cbn [write_entries].
  - apply triple_ret. intros w Hw. cbn. by rewrite app_nil_r.
  - unfold binary_Write. do 3 (apply and_then_Write_triple; [intros; by apply triple_ret|]).
    eapply triple_conseq; [apply IH|done|]. intros [e|] w Hw; [done|].
    rewrite fmap_cons. cbn [concat]. unfold index_entry_enc at 1. by rewrite !app_assoc in *.
Qed.

(** [Finish] publishes the complete table or leaves the directory alone. *)
Lemma Builder_Finish_triple es :
  D !! tmp = Some i ->
  triple (writing (data_of es)) (Builder_Finish (builder_at f tmp final es))
    (fun r => or_unpublished (published (sst_bytes es)) r).
Proof.
  intros Htmp. unfold Builder_Finish, builder_at, Builder_writeIndex.
  pose proof (index_state_off es) as Hoff. unfold sst_bytes, trailer_of, index_of.
  destruct (index_state es) as [[off last] idx]. cbn in Hoff. subst off.
  cbn [b_file b_bytesWritten b_lastIndexPos b_index b_hashes b_tmpFilename b_finalFilename snd].
  destruct (add_hashes _ _) as [bf|] eqn:Ebf.
  2: { apply triple_ret. intros w Hw. left. apply Hw. }
  apply add_hashes_Some in Ebf as ->. fold (bloom_of_hashes (hashes_of es)). unfold BloomFilter_Bytes.
  change (bf_bitset (bloom_of_hashes (hashes_of es))) with (filter_of es).
  set (fail := fun e : error => _).
  assert (forall Q e, triple (fun w => w_dir w = D) (fail e)
    (fun r => or_unpublished Q r)) as Hfail.
  { intros Q e. unfold fail. eapply triple_bind; [by apply cleanup_triple|].
    intros ?. by apply triple_ret. }
  clearbody fail. unfold binary_Write.
  do 2 (apply and_then_Write_triple; [apply Hfail|]).
  eapply triple_and_then; [|apply Hfail|].
  { apply and_then_Write_triple; [intros; by apply triple_ret|]. apply write_entries_triple. }
  do 2 (apply and_then_Write_triple; [apply Hfail|]).
  eapply triple_and_then; [apply Sync_triple|apply Hfail|].
  eapply triple_and_then; [apply Close_last_triple|apply Hfail|].
  eapply triple_and_then; [by apply Rename_triple|apply Hfail|].
  apply triple_ret. intros w Hw. unfold index_enc. by rewrite <- !app_assoc in *.
Qed.
End atomic.

Lemma tmp_name_ne filename now : tmp_name filename now <> filename.
Proof.
  intros E. apply (f_equal chars), (f_equal length) in E. unfold tmp_name in E.
  rewrite !chars_app, !length_app in E. simpl in E. lia.
Qed.

(** What [NewBuilder] does when it succeeds, whatever the faults. *)
Lemma NewBuilder_writing `{Murmur3} final w b w1 :
  w_dir w !! tmp_name final (w_now w) = None ->
  NewBuilder final w = (inr b, w1) ->
  b = builder_at (builder_file final w) (tmp_name final (w_now w)) final [] /\
  writing (builder_file final w) (w_next w)
    (<[tmp_name final (w_now w) := w_next w]> (w_dir w)) (data_of []) w1.
Proof.
  intros Hnew. unfold NewBuilder, and_bind, os_Create, gets, mbind, IO_bind, next_outcome.
  destruct (w_faults w) as [|[|n] fs]; rewrite ?Hnew; unfold new_inode, new_handle, ret; cbn.
  all: rewrite ?Hnew; cbn; intros E; simplify_eq; (split; [done|]).
  all: unfold writing, file_ino, builder_file; cbn.
  all: repeat split; apply lookup_insert_eq.
Qed.

(** C11: Tables are published atomically.  Whatever system calls fail while the
    memtable is written out, either [Flush] reports success and the final name
    denotes a file that holds exactly the entries of the memtable, or it
    reports an error and the final name is as it was before; no other name
    except the temporary one is affected. *)
Theorem builder_publishes_atomically `{Murmur3} (final : string) (sl : SkipList)
    (es : list (bytes * slice)) (w w1 : World) (b : Builder)
    (Hr : repr sl es) (Hnew : w_dir w !! tmp_name final (w_now w) = None)
    (Hb : NewBuilder final w = (inr b, w1)) :
  let '(r, w2) := Builder_Flush b sl w1 in
  (forall s, s <> final -> s <> tmp_name final (w_now w) -> w_dir w2 !! s = w_dir w !! s) /\
  match r with
  | None => exists i, w_dir w2 !! final = Some i /\ w_data w2 !! i = Some (sst_bytes es)
  | Some _ => w_dir w2 !! final = w_dir w !! final
  end.
Proof.
  pose proof (tmp_name_ne final (w_now w)) as Hne.
  destruct (NewBuilder_writing final w b w1 Hnew Hb) as [-> Hw1].
  unfold Builder_Flush. rewrite (SkipList_entries_spec _ _ Hr).
  set (tmp := tmp_name final (w_now w)) in *.
  assert (triple (writing (builder_file final w) (w_next w) (<[tmp := w_next w]> (w_dir w))
      (data_of []))
    ('(r, b') ← add_entries (builder_at (builder_file final w) tmp final []) es;
     match r with Some e => ret (Some e) | None => Builder_Finish b' end)
    (or_unpublished tmp (<[tmp := w_next w]> (w_dir w))
       (published (w_next w) tmp final (<[tmp := w_next w]> (w_dir w)) (sst_bytes es)))) as Ht.
  { eapply triple_bind; [apply add_entries_triple|]. intros [[e|] b'].
    - by apply triple_ret.
    - intros w' [Hb' Hw']. cbn in Hb', Hw'. subst b'. apply (Builder_Finish_triple _ _ _ _ _ _ (lookup_insert_eq _ _ _) w' Hw'). }
  specialize (Ht w1 Hw1). revert Ht.
  match goal with |- context [(?m ≫= ?k) w1] => destruct ((m ≫= k) w1) as [r w2] end.
  cbn. intros Ht.
  destruct r as [e|]; cbn in Ht; [destruct Ht as [E|E]|destruct Ht as [E Hd]]; rewrite E.
  - split; [intros s ??|]; by rewrite lookup_insert_ne.
  - split; [intros s ??|]; by rewrite lookup_delete_ne, lookup_insert_ne.
  - split; [intros s ??; by rewrite lookup_insert_ne, lookup_delete_ne, lookup_insert_ne|].
    exists (w_next w). by rewrite lookup_insert_eq.
Qed.

Lemma builder_publishes_atomically_witness :
  let w := mkWorld ∅ ∅ ∅ 0 7 [Succeeds; Succeeds; Succeeds; Fails 1] in
  exists sl b w1,
    put_all [([x61], Some [x01]); ([x62], None)] (NewSkipList [true; false]) = Some sl /\
    NewBuilder "data_7.sst" w = (inr b, w1) /\
    let '(r, w2) := Builder_Flush (H := fnv) b sl w1 in
    (forall s, s <> "data_7.sst"%string -> s <> tmp_name "data_7.sst" 7 ->
       w_dir w2 !! s = w_dir w !! s) /\
    match r with
    | None => exists i, w_dir w2 !! "data_7.sst"%string = Some i /\
        w_data w2 !! i = Some (sst_bytes (H := fnv) [([x61], Some [x01]); ([x62], None)])
    | Some _ => w_dir w2 !! "data_7.sst"%string = w_dir w !! "data_7.sst"%string
    end.
Proof.
  intros w.
  destruct (put_all_repr [([x61], Some [x01]); ([x62], None)] (NewSkipList [true; false]) []
    (NewSkipList_repr _)) as (sl & Hsl & Hr).
  destruct (NewBuilder "data_7.sst" w) as [[e|b] w1] eqn:Hb;
    [exfalso; vm_compute in Hb; discriminate|].
  exists sl, b, w1. split; [exact Hsl|]. split; [reflexivity|].
  apply (builder_publishes_atomically (H := fnv) "data_7.sst" sl
    [([x61], Some [x01]); ([x62], None)] w w1 b Hr); [vm_compute; reflexivity|exact Hb].
Defined.
