(* ===== verification/Reader.v ===== *)
(** * Reading SSTables: [engine/sstable/reader.go], [engine/sstable/iterator.go]

    A reader keeps the sparse index and the filter in memory and parses the
    file for everything else.  The functions on the content of a file are
    separate from those that fetch it through a handle. *)
From stdpp Require Import base gmap sets list strings numbers sorting.
From Stdlib Require Import ZArith Lia Strings.Byte.
From S2P Require Import Prelude Disk Bloom Sst.
Open Scope Z_scope.

Record Reader := mkReader {
  r_file : File;
  r_index : list IndexEntry;
  r_filter : option BloomFilter
}.

(** ** Opening *)

(** [f.Seek(offset, 0)] *)
Definition seek_set (offset : Z) : result Z :=
  if offset <? 0 then inl EIO else inr offset.

Fixpoint read_index (n : nat) (data : bytes) (pos : Z) : result (list IndexEntry) :=
  match n with
  | O => inr []
  | S n' =>
      match binary_Read data pos 4 with
      | inl e => inl e
      | inr (keyLen, pos1) =>
          match ReadFull data pos1 keyLen with
          | inl e => inl e
          | inr (key, pos2) =>
              match binary_Read data pos2 8 with
              | inl e => inl e
              | inr (offset, pos3) =>
                  match read_index n' data pos3 with
                  | inl e => inl e
                  | inr rest => inr (mkIndexEntry key (int64 offset) :: rest)
                  end
              end
          end
      end
  end.

(** the two offsets of the footer: index block, filter block *)
Definition read_footer (data : bytes) : result (Z * Z) :=
  match ReadFull data (len data - 16) 16 with
  | inl e => inl e
  | inr (footer, _) =>
      inr (int64 (le_decode (take 8 footer)), int64 (le_decode (drop 8 footer)))
  end.

Definition loadIndex (data : bytes) : result (list IndexEntry * option BloomFilter) :=
  if len data <? 16 then inr ([], None) else
  match read_footer data with
  | inl e => inl e
  | inr (indexOffset, filterOffset) =>
      match seek_set filterOffset with
      | inl e => inl e
      | inr pos =>
          match binary_Read data pos 4 with
          | inl e => inl e
          | inr (filterLen, pos1) =>
              match ReadFull data pos1 filterLen with
              | inl e => inl e
              | inr (filterData, _) =>
                  match seek_set indexOffset with
                  | inl e => inl e
                  | inr pos =>
                      match binary_Read data pos 4 with
                      | inl e => inl e
                      | inr (numEntries, pos1) =>
                          match read_index (Z.to_nat numEntries) data pos1 with
                          | inl e => inl e
                          | inr index => inr (index, Some (LoadBloomFilter filterData))
                          end
                      end
                  end
              end
          end
      end
  end.

Definition NewReader (filename : string) : IO (result Reader) :=
  and_bind (os_Open filename) (fun e => ret (inl e)) (fun file =>
  d ← gets (fun w => file_data w file);
  match loadIndex (default [] d) with
  | inl e => _ ← file_Close file; ret (inl e)
  | inr (index, filter) => ret (inr (mkReader file index filter))
  end).

Definition Reader_Close (r : Reader) : IO err := file_Close (r_file r).
Definition Reader_Path (r : Reader) : string := f_name (r_file r).

(** ** Point lookup *)

(** The binary search; [None] is an index out of range (or exhausted fuel). *)
Fixpoint search_index (fuel : nat) (index : list IndexEntry) (searchKey : bytes)
    (left right result : Z) : option Z :=
  match fuel with
  | O => None
  | S fuel' =>
      if left <=? right then
        let mid := (left + right) / 2 in
        x ← index !! Z.to_nat mid;
        match bytes_compare (ie_Key x) searchKey with
        | Lt | Eq => search_index fuel' index searchKey (mid + 1) right (ie_Offset x)
        | Gt => search_index fuel' index searchKey left (mid - 1) result
        end
      else Some result
  end.

Definition findIndexEntry (index : list IndexEntry) (searchKey : bytes) : option Z :=
  if len index =? 0 then Some 0
  else search_index (S (length index)) index searchKey 0 (len index - 1) 0.

(** The scan of [Get] from [pos]; [None]: the fuel is exhausted, [Some None]:
    not found. *)
Fixpoint get_loop (fuel : nat) (data : bytes) (pos : Z) (searchKey : bytes)
    : option (option bytes) :=
  match fuel with
  | O => None
  | S fuel' =>
      match binary_Read data pos 4 with
      | inl _ => Some None
      | inr (keySize, pos1) =>
          match binary_Read data pos1 4 with
          | inl _ => Some None
          | inr (valSize, pos2) =>
              match ReadFull data pos2 keySize with
              | inl _ => Some None
              | inr (key, pos3) =>
                  match bytes_compare key searchKey with
                  | Eq =>
                      match ReadFull data pos3 valSize with
                      | inl _ => Some None
                      | inr (val, _) => Some (Some val)
                      end
                  | Gt => Some None
                  | Lt => get_loop fuel' data (pos3 + valSize) searchKey
                  end
              end
          end
      end
  end.

Section reader.
Context `{Murmur3}.

(** [Get] on the content of the file *)
Definition reader_get (data : bytes) (index : list IndexEntry) (filter : option BloomFilter)
    (searchKey : bytes) : option (option bytes) :=
  mayContain ← match filter with Some bf => BloomFilter_MayContain bf searchKey | None => Some true end;
  if negb mayContain then Some None else
  startOffset ← findIndexEntry index searchKey;
  match seek_set startOffset with
  | inl _ => Some None
  | inr pos => get_loop (S (length data)) data pos searchKey
  end.

(** [None]: panic; [Some None]: [(nil, false)]; a closed file is not found *)
Definition Reader_Get (w : World) (r : Reader) (searchKey : bytes) : option (option bytes) :=
  match file_data w (r_file r) with
  | Some data => reader_get data (r_index r) (r_filter r) searchKey
  | None => Some None
  end.
End reader.

(** ** Reading everything *)

(** where the entries end: the filter offset of the footer *)
Definition data_limit (data : bytes) : Z :=
  if 16 <? len data then
    match ReadFull data (len data - 16) 16 with
    | inr (footer, _) => int64 (le_decode (drop 8 footer))
    | inl _ => 0
    end
  else len data.

Fixpoint readall_loop (fuel : nat) (data : bytes) (limit pos currentPos : Z)
    (m : gmap bytes bytes) : option (result (gmap bytes bytes)) :=
  match fuel with
  | O => None
  | S fuel' =>
      if currentPos <? limit then
        match binary_Read data pos 4 with
        | inl EOF => Some (inr m)
        | inl e => Some (inl e)
        | inr (keySize, pos1) =>
            match binary_Read data pos1 4 with
            | inl e => Some (inl e)
            | inr (valSize, pos2) =>
                match ReadFull data pos2 keySize with
                | inl e => Some (inl e)
                | inr (key, pos3) =>
                    match ReadFull data pos3 valSize with
                    | inl e => Some (inl e)
                    | inr (val, pos4) =>
                        readall_loop fuel' data limit pos4
                          (currentPos + u32 (8 + keySize + valSize)) (<[key := val]> m)
                    end
                end
            end
        end
      else Some (inr m)
  end.

Definition Reader_ReadAll (w : World) (r : Reader) : result (gmap bytes bytes) :=
  match file_data w (r_file r) with
  | None => inl ErrClosed
  | Some data =>
      match readall_loop (S (length data)) data (data_limit data) 0 0 ∅ with
      | Some res => res
      | None => inl Panic
      end
  end.

(** ** Iterators *)

Record Iterator := mkIterator {
  it_file : File;
  it_limit : Z;
  it_currentPos : Z;
  it_filePos : Z;
  it_key : bytes;
  it_val : bytes;
  it_err : err
}.

Definition NewIterator (r : Reader) : IO (result Iterator) :=
  and_bind (os_Open (f_name (r_file r))) (fun e => ret (inl e)) (fun f =>
  d ← gets (fun w => file_data w f);
  ret (inr (mkIterator f (data_limit (default [] d)) 0 0 [] [] None))).

(** [Next] on the content of the file; after a failed read the buffers [key] and
    [val] are never looked at again, so they are left as they were *)
Definition iterator_next (data : bytes) (it : Iterator) : bool * Iterator :=
  if it_limit it <=? it_currentPos it then (false, it) else
  let failed pos e :=
    (false, mkIterator (it_file it) (it_limit it) (it_currentPos it) pos
              (it_key it) (it_val it) (Some e)) in
  match binary_Read data (it_filePos it) 4 with
  | inl e => failed (len data) e
  | inr (keySize, pos1) =>
      match binary_Read data pos1 4 with
      | inl e => failed (len data) e
      | inr (valSize, pos2) =>
          match ReadFull data pos2 keySize with
          | inl e => failed (len data) e
          | inr (key, pos3) =>
              match ReadFull data pos3 valSize with
              | inl e => failed (len data) e
              | inr (val, pos4) =>
                  (true, mkIterator (it_file it) (it_limit it)
                           (it_currentPos it + u32 (8 + keySize + valSize)) pos4 key val
                           (it_err it))
              end
          end
      end
  end.

(** a handle that has been closed reports [ErrClosed] *)
Definition Iterator_Next (it : Iterator) : IO (bool * Iterator) := fun w =>
  match file_data w (it_file it) with
  | Some data => (iterator_next data it, w)
  | None =>
      ((if it_limit it <=? it_currentPos it then (false, it) else
        (false, mkIterator (it_file it) (it_limit it) (it_currentPos it) (it_filePos it)
                  (it_key it) (it_val it) (Some ErrClosed))), w)
  end.

Definition Iterator_Error (it : Iterator) : err :=
  match it_err it with Some EOF => None | e => e end.

Definition Iterator_Close (it : Iterator) : IO err := file_Close (it_file it).

(** ** The index of a table *)

(** the sizes the format and its 32-bit arithmetic can hold *)
Definition sst_entry_ok (e : bytes * slice) : Prop :=
  8 + len e.1 + len (slice_bytes e.2) < 2 ^ 32.

Record sst_ok (es : list (bytes * slice)) : Prop := {
  so_sorted : key_sorted fst es;
  so_entries : Forall sst_entry_ok es;
  so_keys : bloom_keys_ok (len es);
  so_data : len (data_of es) < 2 ^ 62
}.

(** an index entry points at the entry with its key *)
Definition index_points (es : list (bytes * slice)) (x : IndexEntry) : Prop :=
  exists es1 e es2, es = es1 ++ e :: es2 /\ ie_Key x = e.1 /\ ie_Offset x = len (data_of es1).

Lemma index_of_snoc es e :
  index_of (es ++ [e]) = index_of es \/
  index_of (es ++ [e]) = index_of es ++ [mkIndexEntry e.1 (len (data_of es))].
Proof.
  unfold index_of. rewrite index_state_snoc. pose proof (index_state_off es) as Hoff.
  destruct (index_state es) as [[off last] idx]. cbn in Hoff. subst off.
  unfold index_step. case_match; [by right|by left].
Qed.

Lemma index_of_points es : Forall (index_points es) (index_of es).
Proof.
  induction es as [|e es IH] using rev_ind; [constructor|].
  assert (Forall (index_points (es ++ [e])) (index_of es)) as IH'.
  { eapply Forall_impl; [exact IH|]. intros x (es1 & e' & es2 & -> & ? & ?).
    exists es1, e', (es2 ++ [e]). by rewrite <- app_assoc. }
  destruct (index_of_snoc es e) as [->| ->]; [done|].
  apply Forall_app. split; [done|]. apply Forall_singleton. by exists es, e, [].
Qed.

Lemma index_of_keys es x : x ∈ index_of es -> exists e, e ∈ es /\ ie_Key x = e.1.
Proof.
  intros Hx. pose proof (index_of_points es) as Hp. rewrite Forall_forall in Hp.
  destruct (Hp _ Hx) as (es1 & e & es2 & -> & ? & _). exists e. split; [|done].
  apply elem_of_app. right. by left.
Qed.

Lemma index_of_sorted es : key_sorted fst es -> key_sorted ie_Key (index_of es).
Proof.
  induction es as [|e es IH] using rev_ind; [constructor|].
  rewrite key_sorted_app. intros (H1 & _ & H3).
  destruct (index_of_snoc es e) as [->| ->]; [auto|]. rewrite key_sorted_app.
  split_and!; [auto|repeat constructor|].
  intros x y Hx ->%list_elem_of_singleton. destruct (index_of_keys _ _ Hx) as (e' & ? & ->).
  apply H3; [done|by left].
Qed.

Lemma length_index_of es : (length (index_of es) <= length es)%nat.
Proof.
  induction es as [|e es IH] using rev_ind; [done|].
  destruct (index_of_snoc es e) as [->| ->]; rewrite !length_app; simpl; lia.
Qed.

(** ** Binary search *)

Section search.
Context (index : list IndexEntry) (k : bytes) (Hs : key_sorted ie_Key index).

(** the offset of the last entry whose key is at most [k], 0 if there is none *)
Definition index_spec : Z :=
  match last (filter (fun x => ~ bytes_lt k (ie_Key x)) index) with
  | Some x => ie_Offset x
  | None => 0
  end.

Lemma index_split :
  exists l1 l2, index = l1 ++ l2 /\
    Forall (fun x => ~ bytes_lt k (ie_Key x)) l1 /\ Forall (fun x => bytes_lt k (ie_Key x)) l2 /\
    index_spec = match last l1 with Some x => ie_Offset x | None => 0 end.
Proof using Hs.
  set (P := fun x => ~ bytes_lt k (ie_Key x)).
  assert (forall l1 l2, index = l1 ++ l2 -> Forall P l1 ->
    Forall (fun x => bytes_lt k (ie_Key x)) l2 ->
    index_spec = match last l1 with Some x => ie_Offset x | None => 0 end) as Hspec.
  { intros l1 l2 E H1 H2. unfold index_spec. rewrite E, filter_app.
    rewrite (filter_all P l1), (filter_none P l2), app_nil_r; [done| |done].
    eapply Forall_impl; [exact H2|]. unfold P. tauto. }
  destruct (key_sorted_split ie_Key k index Hs) as [(a & Ha & E)|[E _]].
  - exists (below ie_Key k index ++ [a]), (above ie_Key k index).
    assert (Forall P (below ie_Key k index ++ [a])).
    { apply Forall_app. split; [|apply Forall_singleton; unfold P; rewrite Ha; apply bytes_lt_irrefl].
      eapply Forall_impl; [apply below_Forall|]. intros x. apply bytes_lt_asym. }
    assert (index = (below ie_Key k index ++ [a]) ++ above ie_Key k index)
      by (by rewrite <- app_assoc).
    split_and!; try done; [apply above_Forall|]. eapply Hspec; [done..|apply above_Forall].
  - exists (below ie_Key k index), (above ie_Key k index).
    assert (Forall P (below ie_Key k index)).
    { eapply Forall_impl; [apply below_Forall|]. intros x. apply bytes_lt_asym. }
    split_and!; try done; [apply above_Forall|]. eapply Hspec; [done..|apply above_Forall].
Qed.

Lemma search_index_spec l1 l2 :
  index = l1 ++ l2 ->
  Forall (fun x => ~ bytes_lt k (ie_Key x)) l1 -> Forall (fun x => bytes_lt k (ie_Key x)) l2 ->
  forall fuel left right result,
  0 <= left <= len l1 -> len l1 - 1 <= right <= len index - 1 -> right - left + 1 < Z.of_nat fuel ->
  result = match last (take (Z.to_nat left) l1) with Some x => ie_Offset x | None => 0 end ->
  search_index fuel index k left right result =
  Some (match last l1 with Some x => ie_Offset x | None => 0 end).
Proof using.
  intros E H1 H2. induction fuel as [|fuel IH]; intros left right result Hl Hr Hf Hres; [lia|].
  cbn [search_index]. destruct (Z.leb_spec left right) as [Hle|Hgt].
  - pose proof (Z.div_lt_upper_bound (left + right) 2 (right + 1) ltac:(lia) ltac:(lia)).
    pose proof (Z.div_le_lower_bound (left + right) 2 left ltac:(lia) ltac:(lia)).
    set (mid := (left + right) / 2) in *.
    destruct (lookup_lt_is_Some_2 index (Z.to_nat mid)) as [x Hx]; [unfold len in *; lia|].
    rewrite Hx. cbn [mbind option_bind]. rewrite Forall_forall in H1, H2.
    destruct (decide (mid < len l1)) as [Hm|Hm].
    + rewrite E, lookup_app_l in Hx by (unfold len in *; lia).
      assert (search_index fuel index k (mid + 1) right (ie_Offset x) =
        Some (match last l1 with Some x => ie_Offset x | None => 0 end)) as Hgo.
      { apply IH; try lia. replace (Z.to_nat (mid + 1)) with (S (Z.to_nat mid)) by lia.
        erewrite take_S_r by done. by rewrite last_snoc. }
      specialize (H1 x (list_elem_of_lookup_2 _ _ _ Hx)).
      destruct (bytes_compare_spec (ie_Key x) k); done.
    + rewrite E, lookup_app_r in Hx by (unfold len in *; lia).
      specialize (H2 x (list_elem_of_lookup_2 _ _ _ Hx)).
      destruct (bytes_compare_spec (ie_Key x) k) as [Ek|Ek|Ek].
      * exfalso. rewrite Ek in H2. by apply bytes_lt_irrefl in H2.
      * exfalso. by apply (bytes_lt_asym _ _ Ek).
      * apply IH; lia || done.
  - rewrite Hres. replace left with (len l1) by lia. by rewrite to_nat_len, firstn_all.
Qed.

(** The binary search never leaves the index and finds the right entry. *)
Lemma findIndexEntry_spec : findIndexEntry index k = Some index_spec.
Proof using Hs.
  destruct index_split as (l1 & l2 & E & H1 & H2 & Hspec). unfold findIndexEntry.
  destruct (Z.eqb_spec (len index) 0) as [Hz|Hz].
  - unfold index_spec. apply len_zero in Hz. by rewrite Hz.
  - rewrite Hspec. assert (len index = len l1 + len l2) by (by rewrite E, len_app).
    apply (search_index_spec l1 l2 E H1 H2); [lens|lens| |done].
    unfold len in *. lia.
Qed.
End search.

(** ** A table on disk *)

Section table.
Context `{Murmur3} (es : list (bytes * slice)) (Hok : sst_ok es).

Let F : Z := len (data_of es).

Lemma len_filter_of : 0 <= len (filter_of es) < 2 ^ 29.
Proof using Hok.
  pose proof (so_keys es Hok) as Hk. unfold filter_of. fold (hashes_of es).
  rewrite len_bloom_of_hashes; rewrite len_hashes_of; [|done].
  pose proof (bloom_size_bounds _ Hk). lia.
Qed.

Lemma index_entry_bounds x :
  x ∈ index_of es -> len (ie_Key x) < 2 ^ 32 /\ 0 <= ie_Offset x < 2 ^ 63.
Proof using Hok.
  intros Hx. pose proof (index_of_points es) as Hp. rewrite Forall_forall in Hp.
  destruct (Hp _ Hx) as (es1 & e & es2 & E & -> & ->).
  pose proof (so_data es Hok) as Hd. pose proof (so_entries es Hok) as He.
  rewrite E in Hd, He. rewrite data_of_app in Hd. rewrite Forall_app, Forall_cons in He.
  destruct He as (_ & He & _). unfold sst_entry_ok in He. lens.
Qed.

(** where the two offsets of the footer lie *)
Lemma footer_offsets :
  0 <= F + (4 + len (filter_of es)) < 2 ^ 63 /\ 0 <= F < 2 ^ 62.
Proof using Hok. pose proof len_filter_of. pose proof (so_data es Hok). unfold F. lens. Qed.

Lemma sst_footer :
  exists body, sst_bytes es = body ++ (le64 (F + (4 + len (filter_of es))) ++ le64 F) ++ [] /\
    body = data_of es ++ le32 (len (filter_of es)) ++ filter_of es ++ index_enc (index_of es).
Proof using Hok.
  eexists. split; [|done]. unfold sst_bytes, trailer_of. fold F.
  pose proof footer_offsets. pose proof len_filter_of.
  rewrite (u32_small (len (filter_of es))) by lia. unfold u64. rewrite Z.mod_small by lia.
  by rewrite app_nil_r, <- !app_assoc.
Qed.

Lemma sst_footer_read :
  ReadFull (sst_bytes es) (len (sst_bytes es) - 16) 16 =
    inr (le64 (F + (4 + len (filter_of es))) ++ le64 F, len (sst_bytes es)) /\
  16 < len (sst_bytes es).
Proof using Hok.
  destruct sst_footer as (body & -> & Hb).
  assert (4 <= len body).
  { rewrite Hb. pose proof (len_nonneg (data_of es)). lens. }
  rewrite ReadFull_app; [|lens|done]. split; [|lens]. do 2 f_equal. lens.
Qed.

Lemma data_limit_sst : data_limit (sst_bytes es) = F.
Proof using Hok.
  destruct sst_footer_read as [E ?]. unfold data_limit. rewrite (proj2 (Z.ltb_lt _ _)) by done.
  rewrite E. rewrite drop_app_length' by done. pose proof footer_offsets.
  rewrite le64_decode by lia. apply int64_small. lia.
Qed.

Lemma read_footer_sst :
  read_footer (sst_bytes es) = inr (F + (4 + len (filter_of es)), F).
Proof using Hok.
  destruct sst_footer_read as [E ?]. unfold read_footer. rewrite E.
  rewrite take_app_length', drop_app_length' by done. pose proof footer_offsets.
  rewrite !le64_decode by lia. by rewrite !int64_small by lia.
Qed.
End table.

Lemma read_index_ok idx : forall pre post,
  Forall (fun x => len (ie_Key x) < 2 ^ 32 /\ 0 <= ie_Offset x < 2 ^ 63) idx ->
  read_index (length idx) (pre ++ concat (index_entry_enc <$> idx) ++ post) (len pre) = inr idx.
Proof.
  induction idx as [|[key off] idx IH]; intros pre post Hb; [done|].
  apply Forall_cons in Hb as [[Hk Ho] Hb]. cbn [ie_Key ie_Offset] in *.
  rewrite fmap_cons. cbn [length read_index concat]. 
  change (index_entry_enc (mkIndexEntry key off)) with (le32 (u32 (len key)) ++ key ++ le64 off).
  rewrite u32_small by lens.
  rewrite <- !app_assoc, binary_Read_app by done. rewrite le32_decode by lens.
  set (post' := concat _ ++ post).
  replace (pre ++ le32 (len key) ++ key ++ le64 off ++ post')
    with ((pre ++ le32 (len key)) ++ key ++ le64 off ++ post') by (by rewrite <- !app_assoc).
  rewrite ReadFull_app; [|lens|done].
  replace ((pre ++ le32 (len key)) ++ key ++ le64 off ++ post')
    with ((pre ++ le32 (len key) ++ key) ++ le64 off ++ post') by (by rewrite <- !app_assoc).
  rewrite binary_Read_app; [|lens|done]. rewrite le64_decode, int64_small by lia.
  replace ((pre ++ le32 (len key) ++ key) ++ le64 off ++ post')
    with ((pre ++ le32 (len key) ++ key ++ le64 off) ++ post') by (by rewrite <- !app_assoc).
  replace (len pre + Z.of_nat 4 + len key + Z.of_nat 8)
    with (len (pre ++ le32 (len key) ++ key ++ le64 off)) by lens.
  unfold post'. by rewrite IH.
Qed.

(** Opening recovers the index and the filter the builder had. *)
Lemma loadIndex_sst `{Murmur3} es :
  sst_ok es ->
  loadIndex (sst_bytes es) =
  inr (index_of es, Some (bloom_of_hashes (hashes_of es))).
Proof.
  intros Hok. destruct (sst_footer_read es Hok) as [_ Hlen].
  unfold loadIndex. rewrite (proj2 (Z.ltb_ge _ _)) by lia.
  rewrite read_footer_sst by done. pose proof (footer_offsets es Hok) as [Ho1 Ho2].
  unfold seek_set. rewrite !(proj2 (Z.ltb_ge _ _)) by lia.
  destruct (sst_footer es Hok) as (body & E & Hb). rewrite E, Hb. clear E Hb body Hlen.
  pose proof (len_filter_of es Hok) as Hfl. rewrite <- !app_assoc.
  rewrite binary_Read_app by done. rewrite le32_decode by lens.
  set (foot := le64 _ ++ _). set (idx := index_enc _ ++ foot).
  replace (data_of es ++ le32 (len (filter_of es)) ++ filter_of es ++ idx)
    with ((data_of es ++ le32 (len (filter_of es))) ++ filter_of es ++ idx)
    by (by rewrite <- !app_assoc).
  rewrite ReadFull_app; [|lens|done].
  replace ((data_of es ++ le32 (len (filter_of es))) ++ filter_of es ++ idx)
    with ((data_of es ++ le32 (len (filter_of es)) ++ filter_of es) ++ idx)
    by (by rewrite <- !app_assoc).
  set (pre := data_of es ++ le32 (len (filter_of es)) ++ filter_of es).
  replace (len (data_of es) + (4 + len (filter_of es))) with (len pre) by (unfold pre; lens).
  unfold idx, index_enc. rewrite <- app_assoc, binary_Read_app by done.
  pose proof (so_keys es Hok) as Hk. unfold bloom_keys_ok, bitsPerKey in Hk.
  pose proof (length_index_of es) as Hle.
  assert (0 <= len (index_of es) < 2 ^ 32) by (unfold len in *; lia).
  rewrite u32_small, le32_decode, to_nat_len by done.
  rewrite (app_assoc pre). replace (len pre + Z.of_nat 4)
    with (len (pre ++ le32 (len (index_of es)))) by lens.
  rewrite read_index_ok; [|apply Forall_forall; by apply index_entry_bounds].
  unfold filter_of, LoadBloomFilter. by destruct (bloom_of_hashes _).
Qed.

(** ** Reading one entry *)

Lemma entry_sizes e :
  sst_entry_ok e ->
  u32 (len e.1) = len e.1 /\ u32 (len (slice_bytes e.2)) = len (slice_bytes e.2) /\
  u32 (8 + len e.1 + len (slice_bytes e.2)) = 8 + len e.1 + len (slice_bytes e.2).
Proof. unfold sst_entry_ok. intros He. rewrite !u32_small; [done|lens..]. Qed.

(** The four reads that fetch an entry. *)
Lemma read_entry pre e post :
  sst_entry_ok e ->
  let data := pre ++ entry_enc e ++ post in
  let p := len pre in
  binary_Read data p 4 = inr (len e.1, p + 4) /\
  binary_Read data (p + 4) 4 = inr (len (slice_bytes e.2), p + 8) /\
  ReadFull data (p + 8) (len e.1) = inr (e.1, p + 8 + len e.1) /\
  ReadFull data (p + 8 + len e.1) (len (slice_bytes e.2)) =
    inr (slice_bytes e.2, len (pre ++ entry_enc e)).
Proof.
  intros He data p. destruct (entry_sizes e He) as (E1 & E2 & _). unfold sst_entry_ok in He.
  assert (data = pre ++ le32 (len e.1) ++ le32 (len (slice_bytes e.2)) ++ e.1 ++
    slice_bytes e.2 ++ post) as Ed.
  { unfold data, entry_enc. by rewrite E1, E2, <- !app_assoc. }
  split_and!.
  - rewrite Ed, binary_Read_app by done. rewrite le32_decode by lens. done.
  - rewrite Ed, app_assoc, binary_Read_app; [|unfold p; lens|done].
    rewrite le32_decode by lens. do 2 f_equal. lia.
  - rewrite Ed, (app_assoc pre), (app_assoc (pre ++ _)).
    apply ReadFull_app; [unfold p; lens|done].
  - rewrite Ed, (app_assoc pre), (app_assoc (pre ++ _)), (app_assoc ((pre ++ _) ++ _)).
    rewrite ReadFull_app; [|unfold p; lens|done]. do 2 f_equal.
    rewrite len_app, len_entry_enc. unfold p. lia.
Qed.

(** ** The scan of [Get] *)


Section scan.
Context (k : bytes).

(** what the entries decide: [Some r] as soon as one is not below the key *)
Fixpoint scan_spec (es : list (bytes * slice)) : option (option bytes) :=
  match es with
  | [] => None
  | e :: es' =>
      match bytes_compare e.1 k with
      | Eq => Some (Some (slice_bytes e.2))
      | Gt => Some None
      | Lt => scan_spec es'
      end
  end.

Lemma scan_entries es2 : forall pre post fuel,
  Forall sst_entry_ok es2 ->
  get_loop (length es2 + fuel) (pre ++ data_of es2 ++ post) (len pre) k =
  match scan_spec es2 with
  | Some r => Some r
  | None => get_loop fuel (pre ++ data_of es2 ++ post) (len (pre ++ data_of es2)) k
  end.
Proof using.
  induction es2 as [|e es2 IH]; intros pre post fuel He; [by rewrite app_nil_r|].
  apply Forall_cons in He as [He Hes]. rewrite data_of_cons.
  cbn [length Nat.add get_loop scan_spec].
  destruct (read_entry pre e (data_of es2 ++ post) He) as (E1 & E2 & E3 & E4).
  rewrite <- app_assoc, E1, E2, E3.
  destruct (bytes_compare e.1 k); [by rewrite E4| |done].
  replace (len pre + 8 + len e.1 + len (slice_bytes e.2)) with (len (pre ++ entry_enc e))
    by (rewrite len_app, len_entry_enc; lia).
  rewrite (app_assoc pre), (app_assoc pre), IH by done. done.
Qed.

Lemma scan_spec_app es1 es2 :
  Forall (fun e => bytes_lt e.1 k) es1 -> scan_spec (es1 ++ es2) = scan_spec es2.
Proof using. induction 1 as [|e es1 He _ IH]; [done|]. cbn. by rewrite He. Qed.

Lemma scan_spec_found es v :
  key_sorted fst es -> (k, v) ∈ es -> scan_spec es = Some (Some (slice_bytes v)).
Proof using.
  induction es as [|e es IH]; [by intros _ ?%not_elem_of_nil|].
  rewrite key_sorted_cons. intros [He Hs] [<- |Hin]%elem_of_cons.
  - cbn. by rewrite bytes_compare_refl.
  - rewrite Forall_forall in He. specialize (He _ Hin). cbn in *. rewrite He. auto.
Qed.

Lemma scan_spec_absent es :
  key_sorted fst es -> k ∉ es.*1 ->
  scan_spec es = if decide (Exists (fun e => bytes_lt k e.1) es) then Some None else None.
Proof using.
  induction es as [|e es IH]; intros Hs Hn; cbn [scan_spec].
  - rewrite decide_False; [done|by intros ?%Exists_nil].
  - apply key_sorted_cons in Hs as [He Hs]. rewrite fmap_cons, not_elem_of_cons in Hn.
    destruct Hn as [Hne Hn]. destruct (bytes_compare_spec e.1 k) as [E|E|E].
    + by destruct Hne.
    + rewrite IH by done. apply decide_ext. rewrite Exists_cons. split; [by right|].
      intros [?|?]; [|done]. by apply (bytes_lt_asym _ _ E) in H.
    + rewrite decide_True; [done|]. by left.
Qed.
End scan.

(** The binary search starts the scan at or before the key. *)
Lemma index_start es k :
  key_sorted fst es ->
  exists es1 es2, es = es1 ++ es2 /\ Forall (fun e => bytes_lt e.1 k) es1 /\
    findIndexEntry (index_of es) k = Some (len (data_of es1)).
Proof.
  intros Hs. rewrite findIndexEntry_spec by by apply index_of_sorted. unfold index_spec.
  destruct (last (filter _ (index_of es))) as [x|] eqn:E; [|by exists [], es].
  apply last_Some_elem_of, list_elem_of_filter in E as [Hx Hin].
  pose proof (index_of_points es) as Hp. rewrite Forall_forall in Hp.
  destruct (Hp _ Hin) as (es1 & e & es2 & -> & Ek & ->). exists es1, (e :: es2).
  split; [done|]. split; [|done]. apply key_sorted_app in Hs as (_ & _ & Hlt).
  apply Forall_forall. intros e' He'. specialize (Hlt e' e He' ltac:(by left)).
  rewrite Ek in Hx. destruct (bytes_compare_spec e.1 k) as [E|E|E]; [by subst|by etrans|done].
Qed.

Lemma length_data_of es : (length es <= length (data_of es))%nat.
Proof.
  induction es as [|e es IH]; [done|]. rewrite data_of_cons, length_app.
  pose proof (len_entry_enc e). cbn [length]. pose proof (len_nonneg e.1).
  pose proof (len_nonneg (slice_bytes e.2)). unfold len in *. lia.
Qed.

(** [Get] decides by the entries, and past the last one by the blocks that
    follow them. *)
Lemma reader_get_sst `{Murmur3} es k :
  sst_ok es ->
  exists fuel, (0 < fuel)%nat /\ len (trailer_of es) < Z.of_nat fuel /\
  reader_get (sst_bytes es) (index_of es) (Some (bloom_of_hashes (hashes_of es))) k =
  match BloomFilter_MayContain (bloom_of_hashes (hashes_of es)) k with
  | Some true =>
      match scan_spec k es with
      | Some r => Some r
      | None => get_loop fuel (sst_bytes es) (len (data_of es)) k
      end
  | Some false => Some None
  | None => None
  end.
Proof.
  intros Hok. destruct (index_start es k (so_sorted es Hok)) as (es1 & es2 & E & Hlt & Hf).
  unfold reader_get. rewrite Hf. cbn [mbind option_bind]. unfold seek_set.
  rewrite (proj2 (Z.ltb_ge _ _)) by lens. pose proof (length_data_of es2) as Hle.
  exists (S (length (sst_bytes es)) - length es2)%nat.
  assert (length (sst_bytes es) = length (data_of es1) + length (data_of es2) +
    length (trailer_of es))%nat as El.
  { unfold sst_bytes. rewrite E at 1. rewrite data_of_app, !length_app. lia. }
  split; [lia|]. split; [unfold len; lia|].
  destruct (BloomFilter_MayContain _ k) as [[|]|]; [cbn [negb mbind option_bind]|done|done].
  assert (scan_spec k es = scan_spec k es2) as -> by (rewrite E; by apply scan_spec_app).
  replace (S (length (sst_bytes es)))
    with (length es2 + (S (length (sst_bytes es)) - length es2))%nat at 1 by lia.
  assert (sst_bytes es = data_of es1 ++ data_of es2 ++ trailer_of es) as ->
    by (unfold sst_bytes; rewrite E at 1; by rewrite data_of_app, <- app_assoc).
  rewrite scan_entries, <- data_of_app, <- E; [done|].
  pose proof (so_entries es Hok) as He. rewrite E, Forall_app in He. apply He.
Qed.

(** The filter of a table answers. *)
Lemma table_filter_total `{Murmur3} es k :
  sst_ok es -> exists b, BloomFilter_MayContain (bloom_of_hashes (hashes_of es)) k = Some b.
Proof. intros Hok. apply bloom_of_hashes_total. rewrite len_hashes_of. apply (so_keys es Hok). Qed.

(** ** Sequential reading *)

Section sequential.
Context `{Murmur3} (es : list (bytes * slice)) (Hok : sst_ok es).

Let vals : list (bytes * bytes) := (fun e => (e.1, slice_bytes e.2)) <$> es.

Lemma readall_loop_sst es2 : forall es1 fuel m,
  es = es1 ++ es2 -> (length es2 < fuel)%nat ->
  readall_loop fuel (sst_bytes es) (len (data_of es)) (len (data_of es1))
    (len (data_of es1)) m =
  Some (inr (foldl (fun m e => <[e.1 := slice_bytes e.2]> m) m es2)).
Proof using Hok.
  induction es2 as [|e es2 IH]; intros es1 [|fuel] m E Hf; try (cbn in Hf; lia);
    cbn [readall_loop foldl].
  - rewrite app_nil_r in E. rewrite E, Z.ltb_irrefl. done.
  - assert (Forall sst_entry_ok (e :: es2)) as He.
    { pose proof (so_entries es Hok) as He. rewrite E, Forall_app in He. apply He. }
    apply Forall_cons in He as [He _].
    rewrite (proj2 (Z.ltb_lt _ _)).
    2: { rewrite E, data_of_app, len_app, data_of_cons, len_app, len_entry_enc. lens. }
    destruct (read_entry (data_of es1) e (data_of es2 ++ trailer_of es) He) as (E1 & E2 & E3 & E4).
    assert (data_of es1 ++ entry_enc e ++ data_of es2 ++ trailer_of es = sst_bytes es) as Ed.
    { unfold sst_bytes at 1. rewrite E at 2. rewrite data_of_app, data_of_cons. by rewrite <- !app_assoc. }
    rewrite Ed in *. rewrite E1, E2, E3, E4. destruct (entry_sizes e He) as (_ & _ & Hu).
    rewrite Hu. replace (data_of es1 ++ entry_enc e) with (data_of (es1 ++ [e]))
      by (rewrite data_of_app, data_of_cons; change (data_of []) with (@nil byte); by rewrite app_nil_r).
    replace (len (data_of es1) + (8 + len e.1 + len (slice_bytes e.2)))
      with (len (data_of (es1 ++ [e]))).
    2: { rewrite data_of_app, len_app, data_of_cons, len_app, len_entry_enc.
         change (len (data_of [])) with 0. lia. }
    apply IH; [by rewrite <- app_assoc|cbn in Hf; lia].
Qed.

Lemma foldl_insert_map (l : list (bytes * slice)) : forall m,
  NoDup (l.*1) -> (forall e, e ∈ l -> m !! e.1 = None) ->
  foldl (fun m e => <[e.1 := slice_bytes e.2]> m) m l =
  list_to_map ((fun e => (e.1, slice_bytes e.2)) <$> l) ∪ (m : gmap bytes bytes).
Proof using.
  induction l as [|e l IH]; intros m Hnd Hm; cbn [foldl];
    [symmetry; apply (left_id_L ∅ (∪))|].
  rewrite fmap_cons, NoDup_cons in Hnd. destruct Hnd as [Hn Hnd].
  rewrite IH; [|done|].
  - rewrite fmap_cons, list_to_map_cons, <- insert_union_r, <- insert_union_l; [done|].
    cbn. apply not_elem_of_list_to_map_1. 
    intros (x & Ex & (e' & -> & He')%list_elem_of_fmap)%list_elem_of_fmap. apply Hn.
    cbn in Ex. rewrite Ex. by apply list_elem_of_fmap_2.
  - intros e' He'. rewrite lookup_insert_ne; [apply Hm; by right|].
    intros Ee. apply Hn. rewrite Ee. by apply list_elem_of_fmap_2.
Qed.

(** the iterator after it has returned the entries [es1] *)
Definition iterator_at (f : File) (es1 : list (bytes * slice)) : Iterator :=
  let '(k, v) := default ([], Some []) (last es1) in
  mkIterator f (len (data_of es)) (len (data_of es1)) (len (data_of es1)) k (slice_bytes v) None.

Lemma iterator_next_sst f es1 es2 :
  es = es1 ++ es2 ->
  iterator_next (sst_bytes es) (iterator_at f es1) =
  match es2 with
  | [] => (false, iterator_at f es1)
  | e :: _ => (true, iterator_at f (es1 ++ [e]))
  end.
Proof using Hok.
  intros E. unfold iterator_next, iterator_at.
  destruct (default _ (last es1)) as [lk lv].
  cbn [it_file it_limit it_currentPos it_filePos it_key it_val it_err].
  destruct es2 as [|[key val] es2].
  - rewrite app_nil_r in E. rewrite E, Z.leb_refl. done.
  - pose proof (so_entries es Hok) as He. rewrite E, Forall_app, Forall_cons in He.
    destruct He as (_ & He & _). rewrite (proj2 (Z.leb_gt _ _)).
    2: { rewrite E, data_of_app, len_app, data_of_cons, len_app, len_entry_enc. lens. }
    destruct (read_entry (data_of es1) (key, val) (data_of es2 ++ trailer_of es) He) as (E1 & E2 & E3 & E4).
    assert (data_of es1 ++ entry_enc (key, val) ++ data_of es2 ++ trailer_of es = sst_bytes es)
      as Ed.
    { unfold sst_bytes at 1. rewrite E at 2. rewrite data_of_app, data_of_cons. by rewrite <- !app_assoc. }
    rewrite Ed in *. rewrite E1, E2, E3, E4. destruct (entry_sizes _ He) as (_ & _ & Hu).
    rewrite Hu, last_snoc. cbn [default fst snd]. rewrite data_of_app, data_of_cons.
    change (data_of []) with (@nil byte). rewrite app_nil_r. do 2 f_equal.
    rewrite len_app, len_entry_enc. done.
Qed.
End sequential.

(** ** Opening a table file *)

(** the world after [name], which is inode [i], has been opened *)
Definition opened (i : ino) (w : World) : World :=
  mkWorld (w_dir w) (w_data w) (<[w_next w := i]> (w_fds w)) (S (w_next w)) (w_now w) (w_faults w).

Lemma os_Open_ok name i w :
  w_faults w = [] -> w_dir w !! name = Some i ->
  os_Open name w = (inr (mkFile name (w_next w)), opened i w).
Proof.
  intros Hf Hd. unfold os_Open, gets, mbind, IO_bind. cbn. rewrite Hd.
  unfold IO_bind. by rewrite next_outcome_ok.
Qed.

Lemma file_data_opened name i d w :
  w_data w !! i = Some d -> file_data (opened i w) (mkFile name (w_next w)) = Some d.
Proof. intros Hd. unfold file_data, file_ino. cbn. by rewrite lookup_insert_eq. Qed.

Section open.
Context `{Murmur3} (es : list (bytes * slice)) (Hok : sst_ok es).
Context (name : string) (w : World) (i : ino).
Context (Hdir : w_dir w !! name = Some i) (Hdata : w_data w !! i = Some (sst_bytes es)).

(** the reader of a table *)
Definition sst_reader (f : File) : Reader :=
  mkReader f (index_of es) (Some (bloom_of_hashes (hashes_of es))).

Lemma NewReader_ok :
  w_faults w = [] ->
  NewReader name w = (inr (sst_reader (mkFile name (w_next w))), opened i w).
Proof using Hok Hdir Hdata.
  intros Hf. unfold NewReader, and_bind, mbind, IO_bind.
  rewrite (os_Open_ok name i) by done. unfold gets.
  rewrite (file_data_opened name i (sst_bytes es)) by done. cbn [default id].
  rewrite loadIndex_sst by done. done.
Qed.

(** Whatever the faults, a reader that was made is the reader of the table. *)
Lemma NewReader_inv r w1 :
  NewReader name w = (inr r, w1) ->
  exists f, r = sst_reader f /\ f_name f = name /\ file_data w1 f = Some (sst_bytes es) /\
    w_dir w1 = w_dir w /\ w_data w1 = w_data w.
Proof using Hok Hdir Hdata.
  unfold NewReader, and_bind, os_Open, gets, mbind, IO_bind, next_outcome. rewrite Hdir.
  unfold IO_bind, new_handle, file_data, file_ino.
  destruct (w_faults w) as [|[|n] fs]; cbn; [| |done].
  all: rewrite lookup_insert_eq; cbn; rewrite Hdata; cbn; rewrite loadIndex_sst by done.
  all: intros E; injection E as <- <-; eexists; split; [done|]; cbn.
  all: by rewrite lookup_insert_eq.
Qed.

End open.



(** [ReadAll] of a table. *)
Lemma ReadAll_sst `{Murmur3} es f w :
  sst_ok es -> file_data w f = Some (sst_bytes es) ->
  Reader_ReadAll w (sst_reader es f) =
  inr (list_to_map ((fun e => (e.1, slice_bytes e.2)) <$> es)).
Proof.
  intros Hok Hd. unfold Reader_ReadAll. cbn [sst_reader r_file]. rewrite Hd, data_limit_sst by done.
  assert (length es < S (length (sst_bytes es)))%nat as Hlen.
  { unfold sst_bytes. rewrite length_app. pose proof (length_data_of es). lia. }
  rewrite (readall_loop_sst es Hok es [] _ ∅ eq_refl Hlen).
  rewrite foldl_insert_map; [by rewrite (right_id_L ∅ (∪))| |done].
  apply sorted_entries_NoDup, (so_sorted es Hok).
Qed.

(** ** Properties *)

(** C17: A table answers point lookups exactly as its entries do: a stored key
    is found with its value (a nil value reads back as the empty slice), and a
    key that is absent but smaller than the last key of the table is reported
    as missing.  (Keys beyond the last entry are the subject of
    [reader_get_past_entries].) *)
Theorem reader_get_correct `{Murmur3} (es : list (bytes * slice)) (name : string) (i : ino)
    (w w1 : World) (r : Reader) (Hok : sst_ok es)
    (Hdir : w_dir w !! name = Some i) (Hdata : w_data w !! i = Some (sst_bytes es))
    (Hopen : NewReader name w = (inr r, w1)) :
  (forall k v, (k, v) ∈ es -> Reader_Get w1 r k = Some (Some (slice_bytes v))) /\
  (forall k, k ∉ es.*1 -> Exists (fun e => bytes_lt k e.1) es -> Reader_Get w1 r k = Some None).
Proof.
  destruct (NewReader_inv es Hok name w i Hdir Hdata r w1 Hopen) as (f & -> & _ & Hd & _).
  unfold Reader_Get. cbn [sst_reader r_file r_index r_filter]. rewrite Hd. split.
  - intros k v Hin. destruct (reader_get_sst es k Hok) as (fuel & _ & _ & ->).
    rewrite bloom_of_hashes_contains.
    + by rewrite (scan_spec_found k es v (so_sorted es Hok) Hin).
    + rewrite len_hashes_of. apply (so_keys es Hok).
    + apply (list_elem_of_fmap_2 (fun e => HashKey e.1) _ (k, v) Hin).
  - intros k Hn Hgt. destruct (reader_get_sst es k Hok) as (fuel & _ & _ & ->).
    rewrite scan_spec_absent, decide_True by (done || apply (so_sorted es Hok)).
    by destruct (table_filter_total es k Hok) as [[|] ->].
Qed.


(** The binary search over the sparse index agrees with the linear
    reference definition: it returns the offset of the last indexed entry whose
    key is not greater than the search key, and 0 when there is none. *)
Theorem findIndexEntry_is_last_below (index : list IndexEntry) (k : bytes)
    (Hs : key_sorted ie_Key index) :
  findIndexEntry index k =
  Some (foldl (fun off x => if bytes_ltb k (ie_Key x) then off else ie_Offset x) 0 index).
Proof.
  rewrite findIndexEntry_spec by done. unfold index_spec. f_equal. clear Hs.
  induction index as [|x index IH] using rev_ind; [done|].
  rewrite foldl_snoc, filter_app, <- IH. cbn [filter list_filter].
  destruct (bytes_ltb k (ie_Key x)) eqn:E.
  - apply bytes_ltb_lt in E. rewrite decide_False by tauto. by rewrite app_nil_r.
  - rewrite decide_True; [by rewrite last_snoc|]. intros ?%bytes_ltb_lt. congruence.
Qed.

(** C20: [ReadAll] of a table the builder has written returns exactly its
    entries, as a map. *)
Theorem reader_readall_roundtrip `{Murmur3} (es : list (bytes * slice)) (name : string) (i : ino)
    (w w1 : World) (r : Reader) (Hok : sst_ok es)
    (Hdir : w_dir w !! name = Some i) (Hdata : w_data w !! i = Some (sst_bytes es))
    (Hopen : NewReader name w = (inr r, w1)) :
  Reader_ReadAll w1 r = inr (list_to_map ((fun e => (e.1, slice_bytes e.2)) <$> es)).
Proof.
  destruct (NewReader_inv es Hok name w i Hdir Hdata r w1 Hopen) as (f & -> & _ & Hd & _).
  by apply ReadAll_sst.
Qed.

(** [for it.Next() { ... }]: the pairs the loop sees, and the final iterator *)
Fixpoint iterator_drain (fuel : nat) (it : Iterator) : IO (list (bytes * bytes) * Iterator) :=
  match fuel with
  | O => ret ([], it)
  | S fuel' =>
      '(more, it') ← Iterator_Next it;
      if more : bool then
        '(rest, it'') ← iterator_drain fuel' it';
        ret ((it_key it', it_val it') :: rest, it'')
      else ret ([], it')
  end.

Lemma iterator_at_key `{Murmur3} es f es1 e :
  it_key (iterator_at es f (es1 ++ [e])) = e.1 /\
  it_val (iterator_at es f (es1 ++ [e])) = slice_bytes e.2.
Proof. unfold iterator_at. rewrite last_snoc. by destruct e. Qed.

Lemma iterator_at_file `{Murmur3} es f es1 : it_file (iterator_at es f es1) = f.
Proof. unfold iterator_at. by destruct (default _ (last es1)). Qed.

Lemma iterator_at_err `{Murmur3} es f es1 : it_err (iterator_at es f es1) = None.
Proof. unfold iterator_at. by destruct (default _ (last es1)). Qed.

Lemma iterator_drain_sst `{Murmur3} es f w : 
  sst_ok es -> file_data w f = Some (sst_bytes es) ->
  forall es2 es1, es = es1 ++ es2 ->
  iterator_drain (S (length es2)) (iterator_at es f es1) w =
  (((fun e => (e.1, slice_bytes e.2)) <$> es2, iterator_at es f es), w).
Proof.
  intros Hok Hd. induction es2 as [|e es2 IH]; intros es1 E; cbn [length].
  - cbn [iterator_drain]. unfold mbind, IO_bind, Iterator_Next. rewrite iterator_at_file, Hd.
    rewrite (iterator_next_sst es Hok f es1 [] E). rewrite app_nil_r in E. by rewrite E.
  - remember (S (length es2)) as n eqn:En. cbn [iterator_drain].
    unfold mbind, IO_bind, Iterator_Next. rewrite iterator_at_file, Hd.
    rewrite (iterator_next_sst es Hok f es1 (e :: es2) E).
    rewrite IH by (by rewrite <- app_assoc).
    destruct (iterator_at_key es f es1 e) as [-> ->]. done.
Qed.

(** An iterator over a table the builder has written yields the entries in
    key order and then stops without an error; it stays stopped. *)
Theorem iterator_yields_entries `{Murmur3} (es : list (bytes * slice)) (name : string) (i : ino)
    (w w1 w2 : World) (r : Reader) (it : Iterator) (Hok : sst_ok es)
    (Hdir : w_dir w !! name = Some i) (Hdata : w_data w !! i = Some (sst_bytes es))
    (Hopen : NewReader name w = (inr r, w1)) (Hit : NewIterator r w1 = (inr it, w2)) :
  exists it',
    iterator_drain (S (length es)) it w2 =
      (((fun e => (e.1, slice_bytes e.2)) <$> es, it'), w2) /\
    Iterator_Error it' = None /\ Iterator_Next it' w2 = ((false, it'), w2).
Proof.
  destruct (NewReader_inv es Hok name w i Hdir Hdata r w1 Hopen) as (f & -> & Hn & _ & Hd1 & Hd2).
  revert Hit. unfold NewIterator, and_bind, os_Open, gets, mbind, IO_bind. cbn [sst_reader r_file].
  rewrite Hn, Hd1, Hdir. unfold mbind, IO_bind. destruct (next_outcome w1) as [[|n] w1'] eqn:Eo;
    [|done]. unfold new_handle, ret. cbn [fst snd].
  assert (w_data w1' = w_data w1) as Ew.
  { revert Eo. unfold next_outcome. destruct (w_faults w1); intros Eo; by simplify_eq. }
  set (f' := mkFile name (w_next w1')). set (w' := mkWorld _ _ _ _ _ _). intros [= <- <-].
  assert (file_data w' f' = Some (sst_bytes es)) as Hf.
  { unfold file_data, file_ino. cbn. by rewrite lookup_insert_eq; cbn; rewrite Ew, Hd2. }
  rewrite Hf. cbn [default id]. rewrite data_limit_sst by done.
  exists (iterator_at es f' es).
  split; [apply (iterator_drain_sst es f' w' Hok Hf es []); done|].
  split; [unfold Iterator_Error; by rewrite iterator_at_err|].
  unfold Iterator_Next. rewrite iterator_at_file, Hf.
  by rewrite (iterator_next_sst es Hok f' es []) by by rewrite app_nil_r.
Qed.

(** a hash that maps every key to the same word *)
Definition constant_hash : Murmur3 :=
  {| murmur3_Sum32 := fun _ => 0; murmur3_Sum32_range := fun _ => conj (Z.le_refl 0) eq_refl |}.

Definition phantom_key : bytes := replicate 76 x00 ++ [x01; x00; x00; x00].

(** The scan of [Get] does not stop at the end of the entries: for a key
    beyond the last entry whose hash collides in the filter, it parses the
    filter and index blocks as if they were an entry, and reports a key that was
    never stored as found.  [ReadAll] of the same file has no such key. *)
Theorem reader_get_past_entries :
  let es := [(([x00] : bytes), Some [x07])] in
  let data := sst_bytes (H := constant_hash) es in
  exists index filter,
    loadIndex data = inr (index, filter) /\ ~ (phantom_key ∈ es.*1) /\
    reader_get (H := constant_hash) data index filter phantom_key = Some (Some [x01]) /\
    readall_loop (S (length data)) data (data_limit data) 0 0 ∅ =
      Some (inr (list_to_map [([x00], [x07])])).
Proof.
  eexists _, _. split; [vm_compute; reflexivity|]. split; [|split; vm_compute; reflexivity].
  intros Hin. vm_compute in Hin. by inversion Hin as [|? ? ? Hin']; inversion Hin'.
Qed.

(** ** Witnesses *)

Definition table1 : list (bytes * slice) := [([x61], Some [x01; x02]); ([x62], None); ([x64], Some [])].
Definition disk1 : World :=
  mkWorld {["data_1.sst"%string := 0%nat]} {[0%nat := sst_bytes (H := fnv) table1]} ∅ 1%nat 5 [].

Lemma table1_ok : sst_ok table1.
Proof.
  split; [repeat constructor|repeat constructor|vm_compute; reflexivity|vm_compute; reflexivity].
Qed.

Lemma reader_get_correct_witness :
  exists r w1, NewReader "data_1.sst" disk1 = (inr r, w1) /\
    (forall k v, (k, v) ∈ table1 -> Reader_Get (H := fnv) w1 r k = Some (Some (slice_bytes v))) /\
    (forall k, k ∉ table1.*1 -> Exists (fun e => bytes_lt k e.1) table1 ->
      Reader_Get (H := fnv) w1 r k = Some None).
Proof.
  destruct (NewReader "data_1.sst" disk1) as [[e|r] w1] eqn:E;
    [exfalso; vm_compute in E; discriminate|].
  exists r, w1. split; [done|].
  apply (reader_get_correct (H := fnv) table1 "data_1.sst" 0%nat disk1 w1 r table1_ok);
    [vm_compute; reflexivity|vm_compute; reflexivity|exact E].
Defined.

Lemma findIndexEntry_is_last_below_witness :
  findIndexEntry [mkIndexEntry [x61] 0; mkIndexEntry [x68] 1030] [x67] = Some 0.
Proof.
  refine (eq_trans (findIndexEntry_is_last_below _ [x67] _) _); [repeat constructor|].
  vm_compute. reflexivity.
Defined.

Lemma reader_readall_roundtrip_witness :
  exists r w1, NewReader "data_1.sst" disk1 = (inr r, w1) /\
    Reader_ReadAll w1 r = inr (list_to_map [([x61], [x01; x02]); ([x62], []); ([x64], [])]).
Proof.
  destruct (NewReader "data_1.sst" disk1) as [[e|r] w1] eqn:E;
    [exfalso; vm_compute in E; discriminate|].
  exists r, w1. split; [done|].
  apply (reader_readall_roundtrip (H := fnv) table1 "data_1.sst" 0%nat disk1 w1 r table1_ok);
    [vm_compute; reflexivity|vm_compute; reflexivity|exact E].
Defined.

Lemma iterator_yields_entries_witness :
  exists r w1 it w2 it', NewReader "data_1.sst" disk1 = (inr r, w1) /\
    NewIterator r w1 = (inr it, w2) /\
    iterator_drain 4 it w2 = (([([x61], [x01; x02]); ([x62], []); ([x64], [])], it'), w2) /\
    Iterator_Error it' = None /\ Iterator_Next it' w2 = ((false, it'), w2).
Proof.
  destruct (NewReader "data_1.sst" disk1) as [[e|r] w1] eqn:E;
    [exfalso; vm_compute in E; discriminate|].
  destruct (NewIterator r w1) as [[e|it] w2] eqn:E2.
  { exfalso. vm_compute in E. injection E as <- <-. vm_compute in E2. discriminate. }
  exists r, w1, it, w2.
  destruct (iterator_yields_entries (H := fnv) table1 "data_1.sst" 0%nat disk1 w1 w2 r it table1_ok
    ltac:(vm_compute; reflexivity) ltac:(vm_compute; reflexivity) E E2) as (it' & H1 & H2 & H3).
  exists it'. split_and!; done.
Defined.
