(* ===== verification/GoHeap.v ===== *)
(** * [container/heap] of the Go standard library, as [engine/sstable/merge.go] uses it

    The heap is a list, [Less] a boolean comparison.  [up] and [down] recurse
    with fuel: the index strictly decreases in one and increases in the other. *)
From Stdlib Require Import ZArith Lia ZifyNat.
From stdpp Require Import base list numbers.
From S2P Require Import Prelude.
Local Open Scope nat_scope.

(** a strict weak order, as a client's [Less] has to be *)
Class HeapLess (A : Type) := heap_less : A -> A -> bool.
Class HeapLaws (A : Type) `{HeapLess A} := {
  heap_less_asym a b : heap_less a b = true -> heap_less b a = false;
  heap_less_trans a b c : heap_less b a = false -> heap_less c b = false -> heap_less c a = false
}.

Section heap.
Context {A : Type} `{HeapLess A}.

(** [h[i], h[j] = h[j], h[i]] *)
Definition heap_swap (h : list A) (i j : nat) : list A :=
  match h !! i, h !! j with
  | Some x, Some y => <[i := y]> (<[j := x]> h)
  | _, _ => h
  end.

(** [h.Less(i, j)] *)
Definition heap_Less (h : list A) (i j : nat) : bool :=
  match h !! i, h !! j with
  | Some x, Some y => heap_less x y
  | _, _ => false
  end.

Definition parent (j : nat) : nat := (j - 1) / 2.

Fixpoint heap_up (fuel : nat) (h : list A) (j : nat) : list A :=
  match fuel with
  | O => h
  | S fuel' =>
      let i := parent j in
      if (i =? j) || negb (heap_Less h j i) then h
      else heap_up fuel' (heap_swap h i j) i
  end.

Fixpoint heap_down (fuel : nat) (h : list A) (i n : nat) : list A :=
  match fuel with
  | O => h
  | S fuel' =>
      let j1 := 2 * i + 1 in
      if n <=? j1 then h else
      let j2 := j1 + 1 in
      let j := if (j2 <? n) && heap_Less h j2 j1 then j2 else j1 in
      if negb (heap_Less h j i) then h
      else heap_down fuel' (heap_swap h i j) j n
  end.

Definition heap_Push (h : list A) (x : A) : list A :=
  heap_up (S (length h)) (h ++ [x]) (length h).

(** the item and the rest; [None] on an empty heap (a panic) *)
Definition heap_Pop (h : list A) : option (A * list A) :=
  let n := length h - 1 in
  let h' := heap_down (S n) (heap_swap h 0 n) 0 n in
  item ← h' !! n;
  Some (item, take n h').
End heap.

(** ** Correctness *)

Section heap_ok.
Context {A : Type} `{HeapLaws A, !Inhabited A}.

(** [a] may be popped before [b] *)
Definition heap_le (a b : A) : Prop := heap_less b a = false.

Lemma heap_le_trans a b c : heap_le a b -> heap_le b c -> heap_le a c.
Proof using All. unfold heap_le. intros. by eapply heap_less_trans. Qed.

Lemma heap_less_le a b : heap_less a b = true -> heap_le a b.
Proof using All. apply heap_less_asym. Qed.

(** the first [n] elements form a heap *)
Definition heap_ordered (n : nat) (h : list A) : Prop :=
  forall k, 0 < k < n -> heap_le (h !!! parent k) (h !!! k).

Lemma length_heap_swap (h : list A) i j : length (heap_swap h i j) = length h.
Proof using. unfold heap_swap. repeat case_match; rewrite ?length_insert; done. Qed.

Lemma heap_swap_lookup (h : list A) i j k :
  i < length h -> j < length h ->
  heap_swap h i j !!! k =
  if decide (k = i) then h !!! j else if decide (k = j) then h !!! i else h !!! k.
Proof using.
  intros Hi Hj. destruct (lookup_lt_is_Some_2 h i Hi) as [x Hx].
  destruct (lookup_lt_is_Some_2 h j Hj) as [y Hy]. unfold heap_swap. rewrite Hx, Hy.
  rewrite !list_lookup_total_alt. repeat case_decide; subst.
  - rewrite list_lookup_insert_eq by (by rewrite length_insert). by rewrite Hy.
  - rewrite list_lookup_insert_ne, list_lookup_insert_eq by done. by rewrite Hx.
  - by rewrite !list_lookup_insert_ne by done.
Qed.

Lemma heap_swap_Permutation (h : list A) i j : heap_swap h i j ≡ₚ h.
Proof using.
  unfold heap_swap. destruct (h !! i) as [x|] eqn:Hi; [|done].
  destruct (h !! j) as [y|] eqn:Hj; [|done].
  pose proof (lookup_lt_Some _ _ _ Hi). pose proof (lookup_lt_Some _ _ _ Hj).
  apply Permutation_inj. rewrite !length_insert. split; [done|].
  exists (fun k => if decide (k = i) then j else if decide (k = j) then i else k). split.
  - intros a b. repeat case_decide; congruence.
  - intros k. repeat case_decide; subst.
    + by rewrite list_lookup_insert_eq by (by rewrite length_insert).
    + by rewrite list_lookup_insert_ne, list_lookup_insert_eq by done.
    + by rewrite !list_lookup_insert_ne by done.
Qed.

Lemma heap_Less_lookup (h : list A) i j :
  i < length h -> j < length h -> heap_Less h i j = heap_less (h !!! i) (h !!! j).
Proof using.
  intros Hi Hj. unfold heap_Less.
  destruct (lookup_lt_is_Some_2 h i Hi) as [x Hx].
  destruct (lookup_lt_is_Some_2 h j Hj) as [y Hy].
  rewrite Hx, Hy. by rewrite !list_lookup_total_alt, Hx, Hy.
Qed.

(** ** Sifting up *)

(** a heap, except that the element at [j] may be too small for its place *)
Definition almost_up (n j : nat) (h : list A) : Prop :=
  (forall k, 0 < k < n -> k <> j -> heap_le (h !!! parent k) (h !!! k)) /\
  (forall k, 0 < k < n -> parent k = j -> 0 < j -> heap_le (h !!! parent j) (h !!! k)).

Lemma almost_up_swap (h : list A) j :
  let n := length h in
  0 < j < n -> almost_up n j h -> heap_less (h !!! j) (h !!! parent j) = true ->
  almost_up n (parent j) (heap_swap h (parent j) j).
Proof using All.
  intros n Hj [H1 H2] Hless. pose proof (heap_less_le _ _ Hless) as Hle.
  assert (parent j < j) as Hp by (unfold parent; lia). split.
  - intros k Hk Hki. rewrite !heap_swap_lookup by lia.
    assert (parent k < k) by (unfold parent; lia).
    destruct (decide (k = j)) as [->|Hkj].
    + by rewrite (decide_True (P := parent j = parent j)), decide_False by done.
    + rewrite (decide_False (P := k = parent j)) by done.
      repeat case_decide; subst.
      * eapply heap_le_trans; [exact Hle|]. rewrite <- H4. by apply H1.
      * apply H2; [lia|done|lia].
      * by apply H1.
  - intros k Hk Hki Hi. rewrite !heap_swap_lookup by lia.
    assert (parent (parent j) < parent j) by (unfold parent in *; lia).
    assert (parent k < k) by (unfold parent in *; lia).
    rewrite (decide_False (P := parent (parent j) = parent j)) by lia.
    rewrite (decide_False (P := parent (parent j) = j)) by lia.
    rewrite (decide_False (P := k = parent j)) by lia.
    case_decide; subst.
    + apply H1; lia.
    + eapply heap_le_trans; [apply (H1 (parent j)); lia|]. rewrite <- Hki. by apply H1.
Qed.

Lemma heap_up_ok fuel : forall (h : list A) j,
  j < length h -> j < fuel -> almost_up (length h) j h ->
  heap_ordered (length h) (heap_up fuel h j) /\ heap_up fuel h j ≡ₚ h.
Proof using All.
  induction fuel as [|fuel IH]; intros h j Hj Hf Ha; [lia|]. cbn [heap_up].
  destruct (Nat.eqb_spec (parent j) j) as [E|E]; cbn [orb].
  - split; [|done]. intros k Hk. apply Ha; [done|]. unfold parent in *. lia.
  - assert (0 < j) by (destruct j; [by destruct E|lia]).
    assert (parent j < j) by (unfold parent; lia).
    rewrite heap_Less_lookup by lia.
    destruct (heap_less (h !!! j) (h !!! parent j)) eqn:El; cbn [negb].
    + destruct (IH (heap_swap h (parent j) j) (parent j)) as [IH1 IH2];
        rewrite ?length_heap_swap in *; [lia|lia|by apply almost_up_swap|].
      split; [done|]. etrans; [done|]. apply heap_swap_Permutation.
    + split; [|done]. intros k Hk. destruct (decide (k = j)) as [->|]; [done|]. by apply Ha.
Qed.

Lemma heap_Push_ok (h : list A) x :
  heap_ordered (length h) h ->
  heap_ordered (length (heap_Push h x)) (heap_Push h x) /\ heap_Push h x ≡ₚ x :: h.
Proof using All.
  intros Hh. unfold heap_Push.
  destruct (heap_up_ok (S (length h)) (h ++ [x]) (length h)) as [H1 H2].
  - rewrite length_app. simpl. lia.
  - lia.
  - rewrite length_app. simpl. split.
    + intros k Hk Hne. assert (parent k < k) by (unfold parent; lia).
      rewrite !lookup_total_app_l by lia. apply Hh. lia.
    + intros k Hk Hp. unfold parent in Hp. lia.
  - assert (heap_up (S (length h)) (h ++ [x]) (length h) ≡ₚ x :: h) as HP
      by (rewrite H2; symmetry; apply Permutation_cons_append).
    split; [|done]. rewrite (Permutation_length HP).
    rewrite length_app in H1. simpl in *. by rewrite Nat.add_1_r in H1.
Qed.

(** ** Sifting down *)

(** a heap, except that the element at [i] may be too large for its place *)
Definition almost_down (n i : nat) (h : list A) : Prop :=
  (forall k, 0 < k < n -> parent k <> i -> heap_le (h !!! parent k) (h !!! k)) /\
  (forall k, 0 < k < n -> parent k = i -> 0 < i -> heap_le (h !!! parent i) (h !!! k)).

(** [j] is the smaller child of [i] *)
Definition min_child (n i j : nat) (h : list A) : Prop :=
  0 < j < n /\ parent j = i /\ (forall k, 0 < k < n -> parent k = i -> heap_le (h !!! j) (h !!! k)).

Lemma almost_down_swap (h : list A) n i j :
  n <= length h -> min_child n i j h -> almost_down n i h ->
  heap_less (h !!! j) (h !!! i) = true -> almost_down n j (heap_swap h i j).
Proof using All.
  intros Hn (Hj & Hp & Hmin) [H1 H2] Hless. pose proof (heap_less_le _ _ Hless) as Hle.
  assert (i < j) as Hij by (unfold parent in *; lia). split.
  - intros k Hk Hkj. rewrite !heap_swap_lookup by lia.
    assert (parent k < k) by (unfold parent in *; lia).
    rewrite (decide_False (P := parent k = j)) by done.
    destruct (decide (k = j)) as [->|].
    + by rewrite decide_True, decide_False by lia.
    + destruct (decide (k = i)) as [->|].
      * rewrite decide_False by lia. apply H2; [lia|done|lia].
      * case_decide as Hki; [by apply Hmin|by apply H1].
  - intros k Hk Hkj Hjp. rewrite !heap_swap_lookup by lia.
    assert (parent k < k) by (unfold parent in *; lia).
    rewrite Hp, decide_True by done. rewrite decide_False by lia. rewrite decide_False by lia.
    rewrite <- Hkj. apply H1; [done|]. lia.
Qed.

Lemma min_child_of (h : list A) n i :
  n <= length h -> 2 * i + 1 < n ->
  min_child n i (if (2 * i + 1 + 1 <? n) && heap_Less h (2 * i + 1 + 1) (2 * i + 1)
                 then 2 * i + 1 + 1 else 2 * i + 1) h.
Proof using All.
  intros Hn Hi. assert (forall k, 0 < k -> parent k = i -> k = 2 * i + 1 \/ k = 2 * i + 2) as Hc
    by (unfold parent; lia).
  destruct (Nat.ltb_spec (2 * i + 1 + 1) n) as [Hlt|Hge]; cbn [andb].
  - rewrite heap_Less_lookup by lia.
    replace (2 * i + 1 + 1) with (2 * i + 2) in * by lia.
    destruct (heap_less (h !!! (2 * i + 2)) (h !!! (2 * i + 1))) eqn:El.
    + split_and!; [lia|lia|unfold parent; lia|]. intros k Hk Hp.
      destruct (Hc k) as [-> | ->]; [lia|done|by apply heap_less_le|].
      unfold heap_le. destruct (heap_less (h !!! (2 * i + 2)) (h !!! (2 * i + 2))) eqn:E; [|done].
      pose proof (heap_less_asym _ _ E). congruence.
    + split_and!; [lia|lia|unfold parent; lia|]. intros k Hk Hp.
      destruct (Hc k) as [-> | ->]; [lia|done| |done].
      unfold heap_le. destruct (heap_less (h !!! (2 * i + 1)) (h !!! (2 * i + 1))) eqn:E; [|done].
      pose proof (heap_less_asym _ _ E). congruence.
  - split_and!; [lia|lia|unfold parent; lia|]. intros k Hk Hp.
    destruct (Hc k) as [-> | ->]; [lia|done| |lia].
    unfold heap_le. destruct (heap_less (h !!! (2 * i + 1)) (h !!! (2 * i + 1))) eqn:E; [|done].
    pose proof (heap_less_asym _ _ E). congruence.
Qed.

Lemma heap_down_ok fuel : forall (h : list A) i n,
  n <= length h -> n < i + fuel -> almost_down n i h ->
  heap_ordered n (heap_down fuel h i n) /\ heap_down fuel h i n ≡ₚ h /\
  (forall k, n <= k -> i < n \/ n = 0 -> heap_down fuel h i n !!! k = h !!! k).
Proof using All.
  induction fuel as [|fuel IH]; intros h i n Hn Hf Ha; cbn [heap_down].
  - split_and!; [|done|done]. intros k Hk. apply Ha; [done|]. unfold parent. lia.
  - destruct (Nat.leb_spec n (2 * i + 1)) as [Hle|Hlt].
    + split_and!; [|done|done]. intros k Hk. apply Ha; [done|]. unfold parent. lia.
    + pose proof (min_child_of h n i Hn Hlt) as Hmin. revert Hmin.
      generalize (if (2 * i + 1 + 1 <? n) && heap_Less h (2 * i + 1 + 1) (2 * i + 1)
                  then 2 * i + 1 + 1 else 2 * i + 1). intros j Hmin.
      pose proof Hmin as (Hj & Hp & Hm). assert (i < j) by (unfold parent in *; lia).
      rewrite heap_Less_lookup by lia.
      destruct (heap_less (h !!! j) (h !!! i)) eqn:El; cbn [negb].
      * destruct (IH (heap_swap h i j) j n) as (IH1 & IH2 & IH3);
          rewrite ?length_heap_swap in *; [done|lia|by apply almost_down_swap|].
        split_and!; [done|by rewrite IH2, heap_swap_Permutation|]. intros k Hk Hin.
        rewrite IH3 by lia. rewrite heap_swap_lookup by lia. by rewrite !decide_False by lia.
      * split_and!; [|done|done]. intros k Hk. destruct (decide (parent k = i)) as [E|E].
        -- rewrite E. eapply heap_le_trans; [exact El|]. by apply Hm.
        -- by apply Ha.
Qed.

Lemma heap_ordered_min (h : list A) n k :
  heap_ordered n h -> 0 < k < n -> heap_le (h !!! 0) (h !!! k).
Proof using All.
  intros Hh. induction k as [k IH] using lt_wf_ind. intros Hk.
  destruct (decide (parent k = 0)) as [E|E]; [rewrite <- E; by apply Hh|].
  eapply heap_le_trans; [apply (IH (parent k)); unfold parent in *; lia|by apply Hh].
Qed.

Lemma heap_Pop_ok (h : list A) :
  h <> [] -> heap_ordered (length h) h ->
  exists x rest, heap_Pop h = Some (x, rest) /\ h ≡ₚ x :: rest /\
    heap_ordered (length rest) rest /\ Forall (heap_le x) rest.
Proof using All.
  intros Hne Hh. assert (0 < length h) as Hpos by (destruct h; simpl; [done|lia]).
  unfold heap_Pop. set (n := length h - 1). set (h1 := heap_swap h 0 n).
  assert (length h1 = length h) as Hl1 by apply length_heap_swap.
  destruct (heap_down_ok (S n) h1 0 n) as (H1 & H2 & H3); [lia|lia| |].
  { split; [|lia]. intros k Hk Hp. unfold h1. rewrite !heap_swap_lookup by lia.
    assert (parent k < k) by (unfold parent; lia).
    rewrite !decide_False by lia. apply Hh. lia. }
  set (h2 := heap_down (S n) h1 0 n) in *.
  assert (length h2 = S n) as Hl2 by (rewrite (Permutation_length H2); lia).
  destruct (lookup_lt_is_Some_2 h2 n ltac:(lia)) as [x Hx]. rewrite Hx.
  assert (x = h !!! 0) as Ex.
  { transitivity (h2 !!! n); [by rewrite list_lookup_total_alt, Hx|].
    rewrite H3 by lia. unfold h1. rewrite heap_swap_lookup by lia. case_decide as E1; [by rewrite E1|]. by rewrite decide_True. }
  exists x, (take n h2). split; [done|]. assert (h2 = take n h2 ++ [x]) as E2.
  { rewrite <- (take_S_r _ _ _ Hx). symmetry. by apply take_ge; lia. }
  assert (h ≡ₚ x :: take n h2) as HP.
  { transitivity h2; [|rewrite E2 at 1; symmetry; apply Permutation_cons_append].
    rewrite H2. symmetry. apply heap_swap_Permutation. }
  split_and!; [done| |].
  - rewrite length_take. intros k Hk. assert (parent k < k) by (unfold parent; lia).
    rewrite !list_lookup_total_alt, !lookup_take_lt, <- !list_lookup_total_alt by lia.
    apply H1. lia.
  - apply Forall_forall. intros y Hy%list_elem_of_In.
    assert (y ∈ x :: take n h2) as Hin by (by right). rewrite <- HP in Hin.
    apply list_elem_of_lookup in Hin as [k Hk]. pose proof (lookup_lt_Some _ _ _ Hk).
    assert (y = h !!! k) as -> by (by rewrite list_lookup_total_alt, Hk). subst x.
    destruct (decide (k = 0)) as [->|]; [|apply (heap_ordered_min h (length h)); [done|lia]].
    unfold heap_le. destruct (heap_less (h !!! 0) (h !!! 0)) eqn:E; [|done].
    pose proof (heap_less_asym _ _ E). congruence.
Qed.
End heap_ok.
