(* ===== verification/Merge.v ===== *)
(** * The k-way merge: [engine/sstable/merge.go]

    A heap holds the current entry of every iterator; the smallest key is
    popped, and among equal keys the one of the newest table.  Iterators are
    shared objects: they live in a list and an item refers to its iterator by
    its position. *)
From stdpp Require Import base gmap sets list strings numbers sorting.
From Stdlib Require Import ZArith Lia Strings.Byte.
From S2P Require Import Prelude Disk Bloom Sst Reader GoHeap.
Open Scope Z_scope.

Record mergeItem := mkItem {
  mi_key : bytes;
  mi_val : bytes;
  mi_iterIdx : nat;
  mi_iter : nat
}.

#[export] Instance mergeItem_inhabited : Inhabited mergeItem := populate (mkItem [] [] 0 0).

(** [mergeHeap.Less] *)
#[export] Instance mergeHeap_Less : HeapLess mergeItem := fun a b =>
  match bytes_compare (mi_key a) (mi_key b) with
  | Eq => (mi_iterIdx a <? mi_iterIdx b)%nat
  | Lt => true
  | Gt => false
  end.

(** the loop that seeds the heap with the first item of each file *)
Fixpoint merge_seed (i : nat) (iters : list Iterator) (h : list mergeItem)
    : IO (err * (list Iterator * list mergeItem)) :=
  match iters with
  | [] => ret (None, ([], h))
  | it :: iters' =>
      '(more, it') ← Iterator_Next it;
      if more : bool then
        '(r, (rest, h')) ← merge_seed (S i) iters'
           (heap_Push h (mkItem (it_key it') (it_val it') i i));
        ret (r, (it' :: rest, h'))
      else
        match Iterator_Error it' with
        | Some e => ret (Some e, (it' :: iters', h))
        | None =>
            '(r, (rest, h')) ← merge_seed (S i) iters' h;
            ret (r, (it' :: rest, h'))
        end
  end.

Section merge.
Context `{Murmur3}.

(** the main loop; each round consumes an entry of some file *)
Fixpoint merge_loop (fuel : nat) (iters : list Iterator) (h : list mergeItem)
    (lastKey : slice) (builder : Builder) : IO (err * Builder) :=
  match fuel with
  | O => ret (Some Panic, builder)
  | S fuel' =>
      if (length h =? 0)%nat then ret (None, builder) else
      match heap_Pop h with
      | None => ret (Some Panic, builder)
      | Some (item, h1) =>
          let fresh := match lastKey with
                       | None => true
                       | Some k => negb (bytes_eqb k (mi_key item))
                       end in
          '(r, builder1) ←
            (if fresh : bool then Builder_Add builder (mi_key item) (Some (mi_val item))
             else ret (None, builder));
          match r with
          | Some e => ret (Some e, builder1)
          | None =>
              let lastKey' := if fresh then Some (mi_key item) else lastKey in
              match iters !! mi_iter item with
              | None => ret (Some Panic, builder1)
              | Some it =>
                  '(more, it') ← Iterator_Next it;
                  let iters' := <[mi_iter item := it']> iters in
                  if more : bool then
                    merge_loop fuel' iters'
                      (heap_Push h1 (mkItem (it_key it') (it_val it') (mi_iterIdx item)
                                       (mi_iter item)))
                      lastKey' builder1
                  else
                    match Iterator_Error it' with
                    | Some e => ret (Some e, builder1)
                    | None => merge_loop fuel' iters' h1 lastKey' builder1
                    end
              end
          end
      end
  end.

Definition merge_fuel (iters : list Iterator) (w : World) : nat :=
  S (sum_list ((fun it => length (default [] (file_data w (it_file it)))) <$> iters)).

Definition Merge (iters : list Iterator) (builder : Builder) : IO err :=
  fuel ← gets (merge_fuel iters);
  '(r, (iters', h)) ← merge_seed 0 iters [];
  match r with
  | Some e => ret (Some e)
  | None =>
      '(r, builder') ← merge_loop fuel iters' h None builder;
      match r with
      | Some e => ret (Some e)
      | None => Builder_Finish builder'
      end
  end.
End merge.

(** ** The order of the heap *)

#[export] Instance mergeHeap_laws : HeapLaws mergeItem.
Proof.
  split.
  - intros a b. unfold heap_less, mergeHeap_Less. rewrite (bytes_compare_antisym (mi_key a)).
    destruct (bytes_compare (mi_key a) (mi_key b)); cbn; [|done|done].
    intros ?%Nat.ltb_lt. apply Nat.ltb_ge. lia.
  - intros a b c. unfold heap_less, mergeHeap_Less.
    destruct (bytes_compare_spec (mi_key b) (mi_key a)) as [E1|E1|E1]; [|done|];
      destruct (bytes_compare_spec (mi_key c) (mi_key b)) as [E2|E2|E2]; try done.
    + rewrite E2, E1, bytes_compare_refl. intros ?%Nat.ltb_ge ?%Nat.ltb_ge. apply Nat.ltb_ge. lia.
    + rewrite <- E1, (proj2 (bytes_gt_lt _ _) E2). done.
    + rewrite E2, (proj2 (bytes_gt_lt _ _) E1). done.
    + assert (bytes_lt (mi_key a) (mi_key c)) as E3 by (by etrans).
      by rewrite (proj2 (bytes_gt_lt _ _) E3).
Qed.

(** [x] comes first: no key below its key, and no smaller index at its key *)
Lemma mergeItem_le x y :
  heap_le x y ->
  ~ bytes_lt (mi_key y) (mi_key x) /\
  (mi_key y = mi_key x -> (mi_iterIdx x <= mi_iterIdx y)%nat).
Proof.
  unfold heap_le, heap_less, mergeHeap_Less, bytes_lt.
  destruct (bytes_compare_spec (mi_key y) (mi_key x)) as [E|E|E]; [|done|].
  - intros ?%Nat.ltb_ge. done.
  - intros _. split; [done|]. intros Ey. rewrite Ey in E. by apply bytes_lt_irrefl in E.
Qed.

(** ** What a merge has to produce *)

(** the entries as they are read back *)
Definition read_back (es : list (bytes * slice)) : list (bytes * bytes) :=
  (fun e => (e.1, slice_bytes e.2)) <$> es.

(** the map of several tables, newest first: the first table that has a key wins *)
Definition newest_wins (tables : list (list (bytes * slice))) : gmap bytes bytes :=
  foldr (fun es m => list_to_map (read_back es) ∪ m) ∅ tables.

Lemma newest_wins_app xs ys : newest_wins (xs ++ ys) = newest_wins xs ∪ newest_wins ys.
Proof.
  induction xs as [|x xs IH]; cbn; [by rewrite (left_id_L ∅ (∪))|].
  fold (newest_wins xs) (newest_wins (xs ++ ys)). by rewrite IH, (assoc_L (∪)).
Qed.

Lemma newest_wins_None tables k :
  (forall es, es ∈ tables -> k ∉ es.*1) -> newest_wins tables !! k = None.
Proof.
  induction tables as [|es tables IH]; intros Hn; cbn; [apply lookup_empty|].
  apply lookup_union_None. split; [|apply IH; intros es' ?; apply Hn; by right].
  apply not_elem_of_list_to_map_1. intros ([k' v] & -> & Hin)%list_elem_of_fmap.
  apply list_elem_of_fmap in Hin as (e & [= -> _] & He). apply (Hn es); [by left|].
  exact (list_elem_of_fmap_2 fst es e He).
Qed.

(** It is the value of the first table that has the key. *)
Lemma newest_wins_find tables k :
  newest_wins tables !! k =
  list_find (fun es => k ∈ es.*1) tables ≫= fun x => (list_to_map (read_back x.2) : gmap bytes bytes) !! k.
Proof.
  induction tables as [|es tables IH]; [apply lookup_empty|]. cbn [list_find]. cbn [newest_wins foldr].
  fold (newest_wins tables). destruct (decide (k ∈ es.*1)) as [Hin|Hn].
  - cbn. rewrite lookup_union.
    destruct ((list_to_map (read_back es) : gmap bytes bytes) !! k) eqn:E.
    + by destruct (newest_wins tables !! k).
    + exfalso. apply not_elem_of_list_to_map_2 in E. apply E.
      apply list_elem_of_fmap in Hin as (e & -> & He).
      apply (list_elem_of_fmap_2 fst _ (e.1, slice_bytes e.2)).
      exact (list_elem_of_fmap_2 (fun e => (e.1, slice_bytes e.2)) es e He).
  - rewrite lookup_union, IH.
    assert ((list_to_map (read_back es) : gmap bytes bytes) !! k = None) as ->.
    { apply not_elem_of_list_to_map_1.
      intros (x & -> & (e & -> & He)%list_elem_of_fmap)%list_elem_of_fmap.
      apply Hn. exact (list_elem_of_fmap_2 fst es e He). }
    rewrite (left_id_L None (∪)). by destruct (list_find _ tables) as [[]|].
Qed.

(** ** The state of the loop *)

(** an input: its file, the table, the entries before the current one, and the
    current one with the rest *)
Record cursor := mkCursor {
  c_file : File;
  c_pre : list (bytes * slice);
  c_rem : list (bytes * slice)
}.

Definition c_tab (c : cursor) : list (bytes * slice) := c_pre c ++ c_rem c.

Definition c_item (j : nat) (c : cursor) : list mergeItem :=
  match c_rem c with
  | [] => []
  | e :: _ => [mkItem e.1 (slice_bytes e.2) j j]
  end.

(** the items on the heap, by position *)
Fixpoint heads (j : nat) (cs : list cursor) : list mergeItem :=
  match cs with
  | [] => []
  | c :: cs' => c_item j c ++ heads (S j) cs'
  end.

Lemma heads_app j cs cs' : heads j (cs ++ cs') = heads j cs ++ heads (j + length cs) cs'.
Proof.
  revert j. induction cs as [|c cs IH]; intros j; cbn; [by rewrite Nat.add_0_r|].
  by rewrite IH, Nat.add_succ_r, <- app_assoc.
Qed.

Lemma elem_of_heads x j cs :
  x ∈ heads j cs ->
  exists cs1 c cs2 e r, cs = cs1 ++ c :: cs2 /\ c_rem c = e :: r /\
    x = mkItem e.1 (slice_bytes e.2) (j + length cs1) (j + length cs1).
Proof.
  revert j. induction cs as [|c cs IH]; intros j; cbn; [by intros ?%not_elem_of_nil|].
  intros [Hx|Hx]%elem_of_app.
  - unfold c_item in Hx. destruct (c_rem c) as [|e r] eqn:E; [by apply not_elem_of_nil in Hx|].
    apply list_elem_of_singleton in Hx as ->. exists [], c, cs, e, r.
    by rewrite Nat.add_0_r.
  - destruct (IH _ Hx) as (cs1 & c' & cs2 & e & r & -> & Hr & ->).
    exists (c :: cs1), c', cs2, e, r. cbn. by rewrite Nat.add_succ_r.
Qed.

Lemma heads_elem j cs1 c cs2 e r :
  c_rem c = e :: r ->
  mkItem e.1 (slice_bytes e.2) (j + length cs1) (j + length cs1) ∈ heads j (cs1 ++ c :: cs2).
Proof.
  intros Hr. rewrite heads_app. cbn. unfold c_item. rewrite Hr.
  apply elem_of_app. right. by left.
Qed.

(** [o] may be written before everything that is left *)
Definition below_rem (o : bytes) (cs : list cursor) : Prop :=
  forall c e, c ∈ cs -> e ∈ c_rem c -> ~ bytes_lt e.1 o.

(** The popped item is a smallest remaining key, and no newer table has it. *)
Lemma popped_min cs1 c cs2 e r rest :
  c_rem c = e :: r ->
  (forall c', c' ∈ cs1 ++ c :: cs2 -> key_sorted fst (c_rem c')) ->
  heads 0 (cs1 ++ c :: cs2) ≡ₚ mkItem e.1 (slice_bytes e.2) (length cs1) (length cs1) :: rest ->
  Forall (heap_le (mkItem e.1 (slice_bytes e.2) (length cs1) (length cs1))) rest ->
  below_rem e.1 (cs1 ++ c :: cs2) /\ (forall es, es ∈ c_rem <$> cs1 -> e.1 ∉ es.*1).
Proof.
  intros Hr Hs HP Hmin.
  set (x := mkItem e.1 (slice_bytes e.2) (length cs1) (length cs1)) in *.
  assert (forall a c' b e' r', cs1 ++ c :: cs2 = a ++ c' :: b -> c_rem c' = e' :: r' ->
    length a <> length cs1 ->
    ~ bytes_lt e'.1 e.1 /\ (e'.1 = e.1 -> (length cs1 <= length a)%nat)) as Hle.
  { intros a c' b e' r' E Hr' Hne. pose proof (heads_elem 0 a c' b e' r' Hr') as Hin.
    rewrite <- E, HP in Hin. apply elem_of_cons in Hin as [Hin|Hin].
    - injection Hin. intros. by destruct Hne.
    - rewrite Forall_forall in Hmin. by apply (mergeItem_le x _ (Hmin _ Hin)). }
  assert (forall c' e' r' y, c' ∈ cs1 ++ c :: cs2 -> c_rem c' = e' :: r' -> y ∈ r' ->
    bytes_lt e'.1 y.1) as Hrest.
  { intros c' e' r' y Hin Hr' Hy. specialize (Hs _ Hin). rewrite Hr', key_sorted_cons in Hs.
    destruct Hs as [Hs _]. rewrite Forall_forall in Hs. by apply Hs. }
  split.
  - intros c' y Hin Hy. pose proof Hin as Hin'. apply list_elem_of_split in Hin as (a & b & E).
    destruct (c_rem c') as [|e' r'] eqn:Hr'; [by apply not_elem_of_nil in Hy|].
    assert (~ bytes_lt e'.1 e.1) as Hhead.
    { destruct (decide (length a = length cs1)) as [El|El]; [|by eapply Hle].
      apply app_inj_1 in E as [_ E]; [|done]. injection E as <- _.
      rewrite Hr in Hr'. injection Hr' as <- _. apply bytes_lt_irrefl. }
    apply elem_of_cons in Hy as [->|Hy]; [done|]. intros Hlt. apply Hhead.
    etrans; [|exact Hlt]. by eapply Hrest.
  - intros es (c' & -> & Hc')%list_elem_of_fmap (y & Ey & Hy)%list_elem_of_fmap.
    pose proof Hc' as Hin. apply list_elem_of_split in Hc' as (a & b & ->).
    rewrite <- app_assoc in *. cbn in *. destruct (c_rem c') as [|e' r'] eqn:Hr';
      [by apply not_elem_of_nil in Hy|].
    assert (length a <> length (a ++ c' :: b)) as Hlen by (rewrite length_app; cbn; lia).
    destruct (Hle a c' (b ++ c :: cs2) e' r' eq_refl Hr' Hlen) as [H1 H2].
    apply elem_of_cons in Hy as [->|Hy].
    + specialize (H2 (eq_sym Ey)). rewrite length_app in H2. cbn in H2. lia.
    + apply H1. rewrite Ey. eapply Hrest; [|exact Hr'|exact Hy].
      apply elem_of_app. right. by left.
Qed.

Section merge_ok.
Context `{Murmur3}.

(** the iterator of a cursor: the current entry has already been read *)
Definition c_iter (c : cursor) : Iterator :=
  match c_rem c with
  | [] => iterator_at (c_tab c) (c_file c) (c_pre c)
  | e :: _ => iterator_at (c_tab c) (c_file c) (c_pre c ++ [e])
  end.

(** the cursor after its current entry *)
Definition c_next (c : cursor) : cursor :=
  match c_rem c with
  | [] => c
  | e :: r => mkCursor (c_file c) (c_pre c ++ [e]) r
  end.

(** the input file of a cursor, apart from the inode [i] the merge writes *)
Definition c_ok (i : ino) (w : World) (c : cursor) : Prop :=
  sst_ok (c_tab c) /\
  exists j, file_ino w (c_file c) = Some j /\ j <> i /\ w_data w !! j = Some (sst_bytes (c_tab c)).

Lemma c_tab_next c : c_tab (c_next c) = c_tab c.
Proof. unfold c_tab, c_next. destruct (c_rem c) eqn:E; [by rewrite E|]. cbn. by rewrite <- app_assoc. Qed.

Lemma c_file_next c : c_file (c_next c) = c_file c.
Proof. unfold c_next. by destruct (c_rem c). Qed.

Lemma c_ok_next i w c : c_ok i w c -> c_ok i w (c_next c).
Proof. unfold c_ok. by rewrite c_tab_next, c_file_next. Qed.

Lemma c_file_data i w c d :
  c_ok i w c -> file_data (with_data i d w) (c_file c) = Some (sst_bytes (c_tab c)).
Proof.
  intros (_ & j & Hj & Hne & Hd). unfold file_data. rewrite with_data_ino, Hj. cbn.
  by rewrite lookup_insert_ne.
Qed.

Lemma it_file_c_iter c : it_file (c_iter c) = c_file c.
Proof. unfold c_iter. destruct (c_rem c); apply iterator_at_file. Qed.

Lemma it_err_c_iter c : Iterator_Error (c_iter c) = None.
Proof. unfold c_iter, Iterator_Error. destruct (c_rem c); by rewrite iterator_at_err. Qed.

(** [Next] on the iterator of a cursor moves to the next cursor. *)
Lemma Iterator_Next_cursor i w c e r d :
  c_ok i w c -> c_rem c = e :: r ->
  Iterator_Next (c_iter c) (with_data i d w) =
  (match r with [] => false | _ :: _ => true end, c_iter (c_next c), with_data i d w).
Proof.
  intros Hok Hr. unfold Iterator_Next. rewrite it_file_c_iter, (c_file_data i w c d Hok).
  f_equal. destruct Hok as [Hok _]. unfold c_iter at 1. rewrite Hr.
  rewrite (iterator_next_sst (c_tab c) Hok _ (c_pre c ++ [e]) r)
    by (unfold c_tab; by rewrite Hr, <- app_assoc).
  unfold c_iter. rewrite c_tab_next, c_file_next. unfold c_next. rewrite Hr. cbn.
  by destruct r.
Qed.

Lemma c_iter_item c e r :
  c_rem c = e :: r -> it_key (c_iter c) = e.1 /\ it_val (c_iter c) = slice_bytes e.2.
Proof. intros Hr. unfold c_iter. rewrite Hr. apply iterator_at_key. Qed.

Lemma c_rem_sorted i w c : c_ok i w c -> key_sorted fst (c_rem c).
Proof. intros [Hok _]. apply so_sorted in Hok. unfold c_tab in Hok. by apply key_sorted_app in Hok as (_ & Hs & _). Qed.

(** ** The invariant *)

Record merge_inv (all : list (bytes * bytes)) (T : gmap bytes bytes) (i : ino) (w : World)
    (cs : list cursor) (h : list mergeItem) (out : list (bytes * slice)) : Prop := {
  mv_ok : Forall (c_ok i w) cs;
  mv_heap : heap_ordered (length h) h;
  mv_perm : h ≡ₚ heads 0 cs;
  mv_sorted : key_sorted fst out;
  mv_below : forall o, o ∈ out -> below_rem o.1 cs;
  mv_map : list_to_map (read_back out) ∪ newest_wins (c_rem <$> cs) = T;
  mv_sub : read_back out ++ concat ((fun c => read_back (c_rem c)) <$> cs) ⊆+ all
}.

Lemma read_back_lookup_notin (es : list (bytes * slice)) k :
  k ∉ es.*1 -> (list_to_map (read_back es) : gmap bytes bytes) !! k = None.
Proof.
  intros Hn. apply not_elem_of_list_to_map_1.
  intros (x & -> & (e & -> & He)%list_elem_of_fmap)%list_elem_of_fmap.
  apply Hn. exact (list_elem_of_fmap_2 fst es e He).
Qed.

Lemma list_to_map_snoc (es : list (bytes * bytes)) k v :
  k ∉ es.*1 -> (list_to_map (es ++ [(k, v)]) : gmap bytes bytes) = <[k := v]> (list_to_map es).
Proof.
  intros Hn. rewrite list_to_map_app. cbn. rewrite <- insert_union_r, (right_id_L ∅ (∪)); [done|].
  by apply not_elem_of_list_to_map_1.
Qed.

(** Writing the popped entry, which no newer table has, keeps the merged map. *)
Lemma newest_wins_pop (out : list (bytes * slice)) rem1 e r rem2 :
  e.1 ∉ out.*1 -> (forall es, es ∈ rem1 -> e.1 ∉ es.*1) ->
  list_to_map (read_back (out ++ [(e.1, Some (slice_bytes e.2))])) ∪
    newest_wins (rem1 ++ r :: rem2) =
  (list_to_map (read_back out) ∪ newest_wins (rem1 ++ (e :: r) :: rem2) : gmap bytes bytes).
Proof.
  intros Hout Hrem. unfold read_back. rewrite fmap_app. fold (read_back out). cbn [fmap list_fmap].
  rewrite list_to_map_snoc.
  2: { intros (x & Ex & (e' & -> & He)%list_elem_of_fmap)%list_elem_of_fmap. apply Hout.
       cbn in Ex. rewrite Ex. exact (list_elem_of_fmap_2 fst _ _ He). }
  rewrite !newest_wins_app. cbn. fold (newest_wins rem2) (read_back r).
  pose proof (newest_wins_None rem1 e.1 Hrem) as HN.
  pose proof (read_back_lookup_notin out e.1 Hout) as HO.
  rewrite <- insert_union_l, <- insert_union_l, <- insert_union_r by done.
  rewrite <- insert_union_r by done. done.
Qed.

(** Skipping a key that has been written already keeps it too. *)
Lemma newest_wins_skip (out : list (bytes * slice)) rem1 e r rem2 :
  e.1 ∈ out.*1 ->
  (list_to_map (read_back out) ∪ newest_wins (rem1 ++ r :: rem2) : gmap bytes bytes) =
  list_to_map (read_back out) ∪ newest_wins (rem1 ++ (e :: r) :: rem2).
Proof.
  intros Hout. apply map_eq. intros k. rewrite !newest_wins_app. cbn.
  fold (newest_wins rem2) (read_back r). rewrite !lookup_union.
  destruct (decide (k = e.1)) as [->|Hne].
  - destruct ((list_to_map (read_back out) : gmap bytes bytes) !! e.1) eqn:E.
    + by destruct (newest_wins rem1 !! e.1 ∪ _), (newest_wins rem1 !! e.1 ∪ _).
    + exfalso. apply not_elem_of_list_to_map_2 in E. apply E.
      apply list_elem_of_fmap in Hout as (e' & Ee & He').
      rewrite Ee. apply (list_elem_of_fmap_2 fst _ (e'.1, slice_bytes e'.2)).
      by apply (list_elem_of_fmap_2 (fun e => (e.1, slice_bytes e.2))).
  - by rewrite lookup_insert_ne.
Qed.

(** ** One round *)

Lemma below_rem_next o cs1 c cs2 :
  below_rem o (cs1 ++ c :: cs2) -> below_rem o (cs1 ++ c_next c :: cs2).
Proof.
  intros Hb c' e Hc' He. apply elem_of_app in Hc' as [Hc'|[Ec|Hc']%elem_of_cons].
  - apply (Hb c' e); [apply elem_of_app; by left|done].
  - subst c'. apply (Hb c e); [apply elem_of_app; right; by left|].
    unfold c_next in He. destruct (c_rem c) as [|e' r] eqn:Er; [by rewrite Er in He|by right].
  - apply (Hb c' e); [apply elem_of_app; right; by right|done].
Qed.

(** keys not above [k] whose last one is not [k] are all below it *)
Lemma out_below (out : list (bytes * slice)) k :
  key_sorted fst out -> (forall o, o ∈ out -> ~ bytes_lt k o.1) -> fst <$> last out <> Some k ->
  forall o, o ∈ out -> bytes_lt o.1 k.
Proof.
  destruct out as [|l out _] using rev_ind; [by intros _ _ _ o ?%not_elem_of_nil|].
  rewrite last_snoc. cbn. rewrite key_sorted_app. intros (_ & _ & Hs) Hb Hne o Ho.
  assert (bytes_lt l.1 k) as Hl.
  { destruct (bytes_compare_spec l.1 k) as [E|E|E]; [congruence|done|].
    destruct (Hb l); [apply elem_of_app; right; by left|done]. }
  apply elem_of_app in Ho as [Ho| ->%list_elem_of_singleton]; [|done].
  etrans; [|exact Hl]. apply Hs; [done|by left].
Qed.

Lemma below_notin (out : list (bytes * slice)) k :
  (forall o, o ∈ out -> bytes_lt o.1 k) -> k ∉ out.*1.
Proof.
  intros Hb (o & -> & Ho)%list_elem_of_fmap. specialize (Hb o Ho).
  by apply bytes_lt_irrefl in Hb.
Qed.

(** what is written in a round *)
Definition out_next (out : list (bytes * slice)) (e : bytes * slice) : list (bytes * slice) :=
  if decide (fst <$> last out = Some e.1) then out else out ++ [(e.1, Some (slice_bytes e.2))].

Lemma heads_next cs1 c cs2 e r rest :
  c_rem c = e :: r ->
  heads 0 (cs1 ++ c :: cs2) ≡ₚ mkItem e.1 (slice_bytes e.2) (length cs1) (length cs1) :: rest ->
  heads 0 (cs1 ++ c_next c :: cs2) ≡ₚ
  match r with [] => rest | e' :: _ => mkItem e'.1 (slice_bytes e'.2) (length cs1) (length cs1) :: rest end.
Proof.
  intros Hr. rewrite !heads_app. cbn [heads Nat.add]. unfold c_item, c_next. rewrite Hr. cbn.
  rewrite <- Permutation_middle. intros HP%Permutation_cons_inv.
  destruct r as [|e' r]; cbn; [done|].
  etrans; [symmetry; apply Permutation_middle|]. by constructor.
Qed.

Lemma merge_sub_next all cs1 c cs2 e r (out : list (bytes * slice)) :
  c_rem c = e :: r ->
  read_back out ++ concat ((fun c => read_back (c_rem c)) <$> cs1 ++ c :: cs2) ⊆+ all ->
  read_back (out_next out e) ++
    concat ((fun c => read_back (c_rem c)) <$> cs1 ++ c_next c :: cs2) ⊆+ all.
Proof.
  intros Hr Hsub. etrans; [|exact Hsub]. rewrite !fmap_app, !fmap_cons, !concat_app.
  unfold c_next. rewrite Hr. cbn [c_rem concat].
  change (read_back (e :: r)) with ((e.1, slice_bytes e.2) :: read_back r). unfold out_next. case_decide.
  - apply submseteq_app; [done|]. apply submseteq_app; [done|].
    apply submseteq_app; [|done]. by apply submseteq_cons.
  - assert (read_back (out ++ [(e.1, Some (slice_bytes e.2))]) =
      read_back out ++ [(e.1, slice_bytes e.2)]) as -> by (unfold read_back; by rewrite fmap_app).
    rewrite <- !app_assoc. apply submseteq_app; [done|]. cbn.
    apply Permutation_submseteq. apply Permutation_middle.
Qed.

Lemma merge_step all T i w cs h out :
  merge_inv all T i w cs h out -> h <> [] ->
  exists rest cs1 c cs2 e r,
    heap_Pop h = Some (mkItem e.1 (slice_bytes e.2) (length cs1) (length cs1), rest) /\
    cs = cs1 ++ c :: cs2 /\ c_rem c = e :: r /\
    merge_inv all T i w (cs1 ++ c_next c :: cs2)
      (match r with
       | [] => rest
       | e' :: _ => heap_Push rest (mkItem e'.1 (slice_bytes e'.2) (length cs1) (length cs1))
       end) (out_next out e).
Proof.
  intros [Hok Hheap HP Hsort Hbelow Hmap Hsub] Hne.
  destruct (heap_Pop_ok h Hne Hheap) as (x & rest & Hpop & HPx & Hrest & Hmin).
  assert (x ∈ heads 0 cs) as Hx by (rewrite <- HP, HPx; by left).
  destruct (elem_of_heads x 0 cs Hx) as (cs1 & c & cs2 & e & r & -> & Hr & ->).
  cbn [Nat.add] in *. exists rest, cs1, c, cs2, e, r.
  split_and!; [done|done|done|]. rewrite HP in HPx.
  pose proof Hok as Hok'. rewrite Forall_forall in Hok'.
  destruct (popped_min cs1 c cs2 e r rest Hr) as [Hle Hnew];
    [intros c' Hc'; by eapply c_rem_sorted, Hok'|done|done|].
  assert (forall o, o ∈ out -> ~ bytes_lt e.1 o.1) as Hoe.
  { intros o Ho. apply (Hbelow o Ho c e); [apply elem_of_app; right; by left|].
    rewrite Hr. by left. }
  split.
  - apply Forall_app in Hok as [H1 [H2 H3]%Forall_cons]. apply Forall_app. split; [done|].
    constructor; [by apply c_ok_next|done].
  - destruct r; [done|]. by apply heap_Push_ok.
  - rewrite (heads_next cs1 c cs2 e r rest Hr HPx). destruct r; [done|]. by apply heap_Push_ok.
  - unfold out_next. case_decide as Hd; [done|]. apply key_sorted_app.
    split_and!; [done|repeat constructor|]. intros a b Ha ->%list_elem_of_singleton.
    by apply (out_below out).
  - intros o Ho. apply below_rem_next. unfold out_next in Ho. case_decide; [by apply Hbelow|].
    apply elem_of_app in Ho as [Ho| ->%list_elem_of_singleton]; [by apply Hbelow|done].
  - rewrite <- Hmap. rewrite !fmap_app, !fmap_cons. unfold c_next, out_next. rewrite Hr.
    cbn [c_rem]. case_decide as Hd.
    + apply newest_wins_skip. apply fmap_Some in Hd as (o & Ho & ->).
      apply (list_elem_of_fmap_2 fst). by apply last_Some_elem_of.
    + apply newest_wins_pop; [|done]. by apply below_notin, out_below.
  - by eapply merge_sub_next.
Qed.

(** ** The whole merge *)

Definition rems (cs : list cursor) : nat := sum_list ((fun c => length (c_rem c)) <$> cs).

Lemma rems_next cs1 c cs2 e r :
  c_rem c = e :: r -> rems (cs1 ++ c :: cs2) = S (rems (cs1 ++ c_next c :: cs2)).
Proof.
  intros Hr. unfold rems.
  induction cs1 as [|c1 cs1 IH]; cbn; unfold c_next; rewrite ?Hr; cbn; [done|].
  cbn in IH. unfold c_next in IH. rewrite Hr in IH. cbn in IH. lia.
Qed.

Lemma heads_nil j cs : heads j cs = [] -> newest_wins (c_rem <$> cs) = ∅.
Proof.
  revert j. induction cs as [|c cs IH]; intros j; [done|]. cbn [heads]. unfold c_item.
  destruct (c_rem c) eqn:E; [|done]. cbn [app]. intros Hh. rewrite fmap_cons, E. cbn.
  rewrite (left_id_L ∅ (∪)). by eapply IH.
Qed.

Lemma fresh_out_next (out : list (bytes * slice)) e :
  let fresh := match fst <$> last out with
               | None => true
               | Some k => negb (bytes_eqb k e.1)
               end in
  fresh = negb (bool_decide (fst <$> last out = Some e.1)) /\
  (if fresh then Some e.1 else fst <$> last out) = fst <$> last (out_next out e) /\
  out_next out e = (if fresh then out ++ [(e.1, Some (slice_bytes e.2))] else out).
Proof.
  unfold out_next. destruct (fst <$> last out) as [k|] eqn:E; cbn.
  - unfold bytes_eqb. destruct (decide (k = e.1)) as [->|Hne].
    + rewrite !bool_decide_eq_true_2, decide_True by done. by rewrite E.
    + rewrite !bool_decide_eq_false_2, decide_False by congruence. cbn. by rewrite last_snoc.
  - by rewrite bool_decide_eq_false_2, decide_False, last_snoc by done.
Qed.

Lemma merge_loop_ok all T i w f tmp final :
  w_faults w = [] -> file_ino w f = Some i ->
  forall fuel cs h out, merge_inv all T i w cs h out -> (rems cs < fuel)%nat ->
  exists out',
    merge_loop fuel (c_iter <$> cs) h (fst <$> last out) (builder_at f tmp final out)
      (with_data i (data_of out) w) =
    ((None, builder_at f tmp final out'), with_data i (data_of out') w) /\
    key_sorted fst out' /\ list_to_map (read_back out') = T /\ read_back out' ⊆+ all.
Proof.
  intros Hf Hi. induction fuel as [|fuel IH]; intros cs h out Hinv Hlt; [lia|].
  cbn [merge_loop]. destruct (Nat.eqb_spec (length h) 0) as [E|E].
  - apply length_zero_iff_nil in E as ->. exists out. split; [done|].
    destruct Hinv as [_ _ HP Hs _ Hm Hsub]. apply Permutation_nil_l in HP.
    rewrite (heads_nil 0 cs) in Hm by done. rewrite (right_id_L ∅ (∪)) in Hm.
    split_and!; [done|done|]. etrans; [|exact Hsub]. apply submseteq_inserts_r. done.
  - assert (h <> []) as Hne by (by intros ->).
    destruct (merge_step _ _ _ _ _ _ _ Hinv Hne)
      as (rest & cs1 & c & cs2 & e & r & -> & -> & Hr & Hinv').
    cbn [mi_key mi_val mi_iter mi_iterIdx].
    destruct (fresh_out_next out e) as (_ & Hlast & Hout).
    set (fresh := match _ with None => _ | Some _ => _ end) in *. rewrite Hlast.
    unfold mbind at 1, IO_bind at 1.
    assert ((if fresh then Builder_Add (builder_at f tmp final out) e.1 (Some (slice_bytes e.2))
             else ret (None, builder_at f tmp final out)) (with_data i (data_of out) w) =
      ((None, builder_at f tmp final (out_next out e)),
       with_data i (data_of (out_next out e)) w)) as ->.
    { rewrite Hout. destruct fresh; [|done].
      by apply (Builder_Add_ok f tmp final out (e.1, Some (slice_bytes e.2))). }
    rewrite fmap_app, fmap_cons.
    assert (((c_iter <$> cs1) ++ c_iter c :: (c_iter <$> cs2)) !! length cs1 = Some (c_iter c))
      as ->.
    { rewrite lookup_app_r; rewrite length_fmap; [by rewrite Nat.sub_diag|done]. }
    assert (c_ok i w c) as Hc.
    { pose proof (mv_ok _ _ _ _ _ _ _ Hinv) as Hok. rewrite Forall_app, Forall_cons in Hok. tauto. }
    unfold mbind at 1, IO_bind at 1. rewrite (Iterator_Next_cursor i w c e r) by done.
    assert (<[length cs1:=c_iter (c_next c)]> ((c_iter <$> cs1) ++ c_iter c :: (c_iter <$> cs2)) =
      c_iter <$> (cs1 ++ c_next c :: cs2)) as ->.
    { rewrite fmap_app, fmap_cons, insert_app_r_alt; rewrite length_fmap; [|done].
      by rewrite Nat.sub_diag. }
    assert (rems (cs1 ++ c_next c :: cs2) < fuel)%nat as Hlt'
      by (rewrite (rems_next cs1 c cs2 e r Hr) in Hlt; lia).
    destruct r as [|e' r].
    + rewrite it_err_c_iter. by apply IH.
    + assert (c_rem (c_next c) = e' :: r) as Hn by (unfold c_next; by rewrite Hr).
      destruct (c_iter_item (c_next c) e' r Hn) as [-> ->]. by apply IH.
Qed.

(** the cursor of an iterator that has just been opened *)
Definition c_open (c : cursor) : Iterator := iterator_at (c_tab c) (c_file c) [].

Lemma Iterator_Next_open i w c d :
  c_ok i w c -> c_pre c = [] ->
  Iterator_Next (c_open c) (with_data i d w) =
  (match c_rem c with [] => false | _ :: _ => true end, c_iter c, with_data i d w).
Proof.
  intros Hok Hp. unfold Iterator_Next, c_open.
  rewrite iterator_at_file, (c_file_data i w c d Hok). f_equal. destruct Hok as [Hok _].
  rewrite (iterator_next_sst (c_tab c) Hok _ [] (c_rem c)) by (unfold c_tab; by rewrite Hp).
  unfold c_iter. rewrite Hp. by destruct (c_rem c).
Qed.

Lemma merge_seed_ok i w d cs : forall j h,
  Forall (fun c => c_ok i w c /\ c_pre c = []) cs -> heap_ordered (length h) h ->
  exists h',
    merge_seed j (c_open <$> cs) h (with_data i d w) =
      ((None, (c_iter <$> cs, h')), with_data i d w) /\
    heap_ordered (length h') h' /\ h' ≡ₚ h ++ heads j cs.
Proof.
  induction cs as [|c cs IH]; intros j h Hcs Hh.
  - exists h. cbn. by rewrite app_nil_r.
  - apply Forall_cons in Hcs as [[Hok Hp] Hcs]. rewrite !fmap_cons. cbn [merge_seed heads].
    unfold mbind at 1, IO_bind at 1. rewrite (Iterator_Next_open i w c d Hok Hp).
    unfold c_item. destruct (c_rem c) as [|e r] eqn:Hr.
    + rewrite it_err_c_iter. destruct (IH (S j) h Hcs Hh) as (h' & E & Hh' & HP).
      unfold mbind, IO_bind. rewrite E. by exists h'.
    + destruct (c_iter_item c e r Hr) as [-> ->].
      set (x := mkItem e.1 (slice_bytes e.2) j j).
      destruct (heap_Push_ok h x Hh) as [Hh1 HP1].
      destruct (IH (S j) (heap_Push h x) Hcs Hh1) as (h' & E & Hh' & HP).
      unfold mbind, IO_bind. rewrite E. exists h'. split_and!; [done|done|].
      rewrite HP, HP1. cbn. apply Permutation_middle.
Qed.

Lemma merge_fuel_enough i w d cs :
  Forall (fun c => c_ok i w c /\ c_pre c = []) cs ->
  (rems cs < merge_fuel (c_open <$> cs) (with_data i d w))%nat.
Proof.
  unfold merge_fuel, rems. induction 1 as [|c cs [Hok Hp] _ IH]; [cbn; lia|].
  rewrite !fmap_cons. cbn [sum_list sum_list_with foldr]. unfold c_open at 1.
  rewrite iterator_at_file, (c_file_data i w c d Hok). cbn [default id].
  pose proof (length_data_of (c_tab c)) as Hl. unfold c_tab in Hl at 1. rewrite Hp in Hl.
  unfold sst_bytes. rewrite length_app. cbn in Hl. cbn in IH. cbn. lia.
Qed.

(** The merge writes the sorted, deduplicated union of its inputs. *)
Lemma Merge_ok i w f tmp final cs :
  w_faults w = [] -> file_ino w f = Some i -> w_dir w !! tmp = Some i ->
  Forall (fun c => c_ok i w c /\ c_pre c = []) cs ->
  bloom_keys_ok (len (concat ((fun c => read_back (c_tab c)) <$> cs))) ->
  exists out,
    Merge (c_open <$> cs) (builder_at f tmp final []) (with_data i (data_of []) w) =
    (None, set_dir (<[final := i]> (delete tmp (w_dir w)))
             (set_fds (delete (f_fd f) (w_fds w)) (with_data i (sst_bytes out) w))) /\
    key_sorted fst out /\ list_to_map (read_back out) = newest_wins (c_tab <$> cs) /\
    read_back out ⊆+ concat ((fun c => read_back (c_tab c)) <$> cs).
Proof.
  intros Hf Hi Hd Hcs Hkeys. unfold Merge, gets, mbind, IO_bind.
  destruct (merge_seed_ok i w (data_of []) cs 0 [] Hcs) as (h & Eseed & Hh & HP);
    [intros k Hk; cbn in Hk; lia|]. rewrite Eseed.
  assert (c_rem <$> cs = c_tab <$> cs) as Etab.
  { apply Forall_fmap_ext. eapply Forall_impl; [exact Hcs|]. intros c [_ Hp].
    unfold c_tab. by rewrite Hp. }
  assert ((fun c => read_back (c_rem c)) <$> cs = (fun c => read_back (c_tab c)) <$> cs) as Etab'.
  { apply Forall_fmap_ext. eapply Forall_impl; [exact Hcs|]. intros c [_ Hp].
    unfold c_tab. by rewrite Hp. }
  destruct (merge_loop_ok (concat ((fun c => read_back (c_tab c)) <$> cs))
    (newest_wins (c_tab <$> cs)) i w f tmp final Hf Hi
    (merge_fuel (c_open <$> cs) (with_data i (data_of []) w)) cs h []) as (out & Eloop & Hs & Hm & Hsub).
  - split; [|done|done|constructor|by intros o ?%not_elem_of_nil| |].
    + eapply Forall_impl; [exact Hcs|]. by intros c [? _].
    + cbn. by rewrite Etab, (left_id_L ∅ (∪)).
    + cbn. by rewrite Etab'.
  - by apply merge_fuel_enough.
  - exists out. split; [|done]. cbn [last fmap option_fmap option_map] in Eloop. rewrite Eloop.
    apply Builder_Finish_ok; try done. pose proof (submseteq_length _ _ Hsub) as Hl.
    unfold read_back at 1 in Hl. rewrite length_fmap in Hl. unfold bloom_keys_ok, bitsPerKey, len in *. lia.
Qed.
End merge_ok.

(** ** The size of the result *)

(** the bytes the entries occupy in a file *)
Definition data_size (es : list (bytes * bytes)) : Z :=
  foldr (fun e n => 8 + len e.1 + len e.2 + n) 0 es.

Lemma len_data_of es : len (data_of es) = data_size (read_back es).
Proof.
  induction es as [|e es IH]; [done|]. rewrite data_of_cons, len_app, len_entry_enc, IH. done.
Qed.

Lemma data_size_app xs ys : data_size (xs ++ ys) = data_size xs + data_size ys.
Proof. induction xs as [|x xs IH]; cbn; [done|]. fold (data_size (xs ++ ys)) (data_size xs). lia. Qed.

Lemma data_size_nonneg xs : 0 <= data_size xs.
Proof. induction xs as [|x xs IH]; cbn; [done|]. fold (data_size xs). lens. Qed.

#[export] Instance data_size_proper : Proper ((≡ₚ) ==> (=)) data_size.
Proof. unfold data_size. induction 1; simpl in *; lia. Qed.

Lemma data_size_submseteq xs ys : xs ⊆+ ys -> data_size xs <= data_size ys.
Proof.
  intros (zs & ->)%submseteq_Permutation. rewrite data_size_app.
  pose proof (data_size_nonneg zs). lia.
Qed.

Lemma read_back_concat tables : read_back (concat tables) = concat (read_back <$> tables).
Proof.
  induction tables as [|es tables IH]; [done|]. cbn. fold (read_back es). rewrite <- IH.
  unfold read_back. by rewrite fmap_app.
Qed.

(** the tables together do not exceed what one file can hold *)
Definition tables_fit (tables : list (list (bytes * slice))) : Prop :=
  bloom_keys_ok (len (concat tables)) /\ len (data_of (concat tables)) < 2 ^ 62.

Lemma concat_Permutation {A} (xs ys : list (list A)) : xs ≡ₚ ys -> concat xs ≡ₚ concat ys.
Proof.
  induction 1 as [|x xs ys _ IH|x y xs|xs ys zs _ IH1 _ IH2]; cbn; [done|by rewrite IH| |by etrans].
  rewrite !app_assoc. f_equiv. apply Permutation_app_comm.
Qed.

Lemma tables_fit_rev tables : tables_fit tables -> tables_fit (rev tables).
Proof.
  intros [Hk Hd]. assert (concat (rev tables) ≡ₚ concat tables) as HP
    by (apply concat_Permutation; symmetry; apply Permutation_rev).
  split.
  - unfold len in *. by rewrite (Permutation_length HP).
  - rewrite len_data_of in *. unfold read_back in *. by rewrite HP.
Qed.

Lemma merged_sst_ok tables out :
  Forall sst_ok tables -> tables_fit tables -> key_sorted fst out ->
  read_back out ⊆+ concat (read_back <$> tables) -> sst_ok out.
Proof.
  intros Hok [Hk Hd] Hs Hsub. rewrite <- read_back_concat in Hsub. split; [done| | |].
  - apply Forall_forall. intros e He.
    assert ((e.1, slice_bytes e.2) ∈ read_back (concat tables)) as Hin.
    { eapply elem_of_submseteq; [|exact Hsub].
      exact (list_elem_of_fmap_2 (fun e => (e.1, slice_bytes e.2)) out e He). }
    apply list_elem_of_fmap in Hin as (e' & Ee & He').
    apply list_elem_of_In, in_concat in He' as (es & Hes & He').
    apply list_elem_of_In in Hes, He'. rewrite Forall_forall in Hok.
    pose proof (so_entries es (Hok es Hes)) as Hent. rewrite Forall_forall in Hent.
    specialize (Hent e' He'). unfold sst_entry_ok in *. by injection Ee as -> ->.
  - pose proof (submseteq_length _ _ Hsub) as Hl. unfold read_back in Hl.
    rewrite !length_fmap in Hl. unfold bloom_keys_ok, bitsPerKey, len in *. lia.
  - pose proof (data_size_submseteq _ _ Hsub) as Hl. rewrite <- !len_data_of in Hl. lia.
Qed.

(** ** From a fresh builder to the published file *)

(** the iterators of tables that have just been opened *)
Definition open_iters `{Murmur3} (ts : list (File * list (bytes * slice))) : list Iterator :=
  (fun t => iterator_at t.2 t.1 []) <$> ts.

Lemma Merge_publish `{Murmur3} final (ts : list (File * list (bytes * slice))) w :
  w_faults w = [] -> wf_world w -> w_dir w !! tmp_name final (w_now w) = None ->
  Forall (fun t => sst_ok t.2 /\ file_data w t.1 = Some (sst_bytes t.2)) ts ->
  bloom_keys_ok (len (concat (ts.*2))) ->
  exists b w1 out,
    NewBuilder final w = (inr b, w1) /\
    Merge (open_iters ts) b w1 = (None, publish final (sst_bytes out) w) /\
    key_sorted fst out /\ list_to_map (read_back out) = newest_wins (ts.*2) /\
    read_back out ⊆+ concat (read_back <$> ts.*2).
Proof.
  intros Hf Hw Hnew Hts Hk. eexists _, _.
  set (cs := (fun t => mkCursor t.1 [] t.2) <$> ts : list cursor).
  destruct (Merge_ok (w_next w) (building final w) (builder_file final w)
    (tmp_name final (w_now w)) final cs) as (out & E & Hs & Hm & Hsub).
  - done.
  - apply building_ino.
  - apply lookup_insert_eq.
  - apply Forall_fmap. eapply Forall_impl; [exact Hts|]. intros [f es] [Hok Hd]. cbn in *.
    split; [|done]. split; [done|]. apply file_data_ino in Hd as (j & Hj & Hd).
    pose proof (wf_open_lt w (f_fd f) j Hw Hj) as Hlt. exists j.
    assert (f_fd f <> S (w_next w)) as Hfd.
    { intros E. unfold file_ino in Hj. rewrite E, (ww_fds w Hw) in Hj; [done|lia]. }
    split_and!; [|lia|].
    + unfold file_ino. cbn. by rewrite lookup_insert_ne.
    + cbn. rewrite lookup_insert_ne by lia. done.
  - unfold cs. rewrite <- list_fmap_compose. unfold compose, c_tab. cbn [c_pre c_rem app].
    change (fun t : File * list (bytes * slice) => read_back t.2) with (read_back ∘ (@snd File (list (bytes * slice)))).
    rewrite (list_fmap_compose snd read_back), <- read_back_concat.
    unfold len, read_back. by rewrite length_fmap.
  - exists out. split; [by apply NewBuilder_ok|]. split.
    + rewrite building_publish in E by done. rewrite <- E. unfold open_iters, cs.
      by rewrite <- list_fmap_compose.
    + split_and!; [done| |]; unfold cs in *.
      * rewrite Hm, <- list_fmap_compose. done.
      * by rewrite <- !list_fmap_compose in *.
Qed.

(** ** Properties *)

(** C12: Merging tables, given newest first, publishes under the final name a
    well-formed table that has strictly increasing keys and, for every key, the
    value of the newest input that has it; no entry is invented, and nothing
    else in the directory changes. *)
Theorem merge_keeps_newest `{Murmur3} (final : string)
    (ts : list (File * list (bytes * slice))) (w : World)
    (Hf : w_faults w = []) (Hw : wf_world w)
    (Hnew : w_dir w !! tmp_name final (w_now w) = None)
    (Hts : Forall (fun t => sst_ok t.2 /\ file_data w t.1 = Some (sst_bytes t.2)) ts)
    (Hfit : tables_fit (ts.*2)) :
  exists b w1 out,
    NewBuilder final w = (inr b, w1) /\
    Merge (open_iters ts) b w1 = (None, publish final (sst_bytes out) w) /\
    sst_ok out /\
    forall k, (list_to_map (read_back out) : gmap bytes bytes) !! k =
      list_find (fun es => k ∈ es.*1) (ts.*2) ≫= fun x => (list_to_map (read_back x.2) : gmap bytes bytes) !! k.
Proof.
  destruct (Merge_publish final ts w Hf Hw Hnew Hts (proj1 Hfit)) as (b & w1 & out & Hb & Hm & Hs & Hmap & Hsub).
  exists b, w1, out. split_and!; [done|done| |].
  - eapply merged_sst_ok; [|done..]. apply Forall_fmap. eapply Forall_impl; [exact Hts|].
    by intros [f es] [Hok _].
  - intros k. rewrite Hmap. apply newest_wins_find.
Qed.

(** ** Witness *)

Definition merge_new : list (bytes * slice) := [([x62], None); ([x63], Some [x03])].
Definition merge_old : list (bytes * slice) := [([x61], Some [x01]); ([x62], Some [x02])].

Definition merge_world : World :=
  mkWorld {["data_1.sst"%string := 0%nat; "data_2.sst"%string := 1%nat]}
    {[0%nat := sst_bytes (H := fnv) merge_old; 1%nat := sst_bytes (H := fnv) merge_new]}
    {[2%nat := 0%nat; 3%nat := 1%nat]} 4%nat 9 [].

Lemma merge_world_wf : wf_world merge_world.
Proof.
  split; unfold merge_world; cbn [w_fds w_next w_data w_dir].
  - intros n Hn. rewrite lookup_insert_ne, lookup_singleton_ne by lia. done.
  - intros n Hn. rewrite lookup_insert_ne, lookup_singleton_ne by lia. done.
  - intros s i. rewrite lookup_insert_Some, lookup_singleton_Some.
    intros [[_ <-]|[_ [_ <-]]]; vm_compute; eauto.
  - intros s i. rewrite lookup_insert_Some, lookup_singleton_Some.
    intros [[_ <-]|[_ [_ <-]]]; vm_compute; eauto.
Qed.

Lemma merge_keeps_newest_witness :
  let ts := [(mkFile "data_2.sst" 3%nat, merge_new); (mkFile "data_1.sst" 2%nat, merge_old)] in
  exists b w1 out,
    NewBuilder "data_2.sst" merge_world = (inr b, w1) /\
    Merge (H := fnv) (open_iters (H := fnv) ts) b w1 =
      (None, publish "data_2.sst" (sst_bytes (H := fnv) out) merge_world) /\
    sst_ok out /\
    forall k, (list_to_map (read_back out) : gmap bytes bytes) !! k =
      list_find (fun es => k ∈ es.*1) (ts.*2) ≫= fun x => (list_to_map (read_back x.2) : gmap bytes bytes) !! k.
Proof.
  intros ts.
  apply (merge_keeps_newest (H := fnv) "data_2.sst" ts merge_world eq_refl merge_world_wf).
  - vm_compute. reflexivity.
  - repeat constructor; vm_compute; reflexivity.
  - split; vm_compute; reflexivity.
Defined.
