(* ===== verification/Engine.v ===== *)
(** * The storage engine: [engine/stratago.go], [engine/inspect.go]

    The engine is a record of its two memtables, its log, its open tables and
    the state of its flush channel.  Every method of the source that holds the
    lock throughout is one function here; [Flush] and [RunCompaction], which
    release the lock in between, are in [Flush] and [Compaction].  Paths are
    relative to the data directory.  [range] over a Go map and the coins of the
    skip lists are the choices of the Go runtime: a typeclass. *)
From stdpp Require Import base gmap sets list strings numbers sorting.
From Stdlib Require Import ZArith Lia Strings.Byte.
From S2P Require Import Prelude SkipList Disk Wal Bloom GoFmt Sst Reader.
Open Scope Z_scope.

Class Runtime := {
  (** the order in which [range] visits a map *)
  go_range : gmap bytes slice -> list (bytes * slice);
  go_range_perm m : go_range m ≡ₚ map_to_list m;
  (** the outcomes of [rand.Float64() < Probability] for a new skip list *)
  go_coins : World -> list bool
}.

Definition DefaultMemtableThreshold : Z := 4 * 1024 * 1024.

Definition walName : string := "wal.log".
Definition flushingName : string := "wal.log.flushing".

(** [flushChan]: a channel with one slot, and whether it is taken *)
Inductive chan := ChanOpen (full : bool) | ChanClosed.

Record StrataGo := mkStrataGo {
  db_activeMemtable : SkipList;
  db_immutableMemtable : option SkipList;
  db_wal : WAL;
  db_sstReaders : list Reader;
  db_flushChan : chan;
  db_closed : bool
}.

Definition set_active (m : SkipList) (db : StrataGo) : StrataGo :=
  mkStrataGo m (db_immutableMemtable db) (db_wal db) (db_sstReaders db) (db_flushChan db)
    (db_closed db).
Definition set_immutable (m : option SkipList) (db : StrataGo) : StrataGo :=
  mkStrataGo (db_activeMemtable db) m (db_wal db) (db_sstReaders db) (db_flushChan db)
    (db_closed db).
Definition set_wal (l : WAL) (db : StrataGo) : StrataGo :=
  mkStrataGo (db_activeMemtable db) (db_immutableMemtable db) l (db_sstReaders db)
    (db_flushChan db) (db_closed db).
Definition set_readers (rs : list Reader) (db : StrataGo) : StrataGo :=
  mkStrataGo (db_activeMemtable db) (db_immutableMemtable db) (db_wal db) rs
    (db_flushChan db) (db_closed db).
Definition set_chan (c : chan) (db : StrataGo) : StrataGo :=
  mkStrataGo (db_activeMemtable db) (db_immutableMemtable db) (db_wal db) (db_sstReaders db) c
    (db_closed db).
Definition set_closed (b : bool) (db : StrataGo) : StrataGo :=
  mkStrataGo (db_activeMemtable db) (db_immutableMemtable db) (db_wal db) (db_sstReaders db)
    (db_flushChan db) b.

(** ** Sorting *)

(** insertion sort, as [sort.Slice] does on short slices *)
Fixpoint insert_by {A} (less : A -> A -> bool) (x : A) (l : list A) : list A :=
  match l with
  | [] => [x]
  | y :: l' => if less x y then x :: l else y :: insert_by less x l'
  end.
Definition sort_by {A} (less : A -> A -> bool) (l : list A) : list A :=
  foldl (fun acc x => insert_by less x acc) [] l.

(** [os.ReadDir]: the names in the directory, sorted *)
Definition os_ReadDir (w : World) : list string :=
  sort_by String.ltb ((map_to_list (w_dir w)).*1).

Record sstableInfo := mkSstableInfo { si_path : string; si_timestamp : Z }.

Definition sstables_of (names : list string) : list sstableInfo :=
  sort_by (fun a b => si_timestamp a <? si_timestamp b)
    ((fun name => mkSstableInfo name (Sscanf_ts name)) <$>
       filter (fun name => HasSuffix name ".sst" = true) names).

Section engine.
Context `{Murmur3} `{Runtime}.

(** ** Open *)

(** [for k, v := range restored { mem.Put; walLog.WriteEntry }] *)
Fixpoint restore_flushing (mem : SkipList) (walLog : WAL) (es : list (bytes * slice))
    : IO (result (SkipList * WAL)) :=
  match es with
  | [] => ret (inr (mem, walLog))
  | (k, v) :: es' =>
      match SkipList_Put mem k v with
      | None => ret (inl Panic)
      | Some mem' =>
          '(r, walLog') ← WAL_WriteEntry walLog k v;
          match r with
          | Some e => ret (inl (ErrWrap "failed to persist recovered data" e))
          | None => restore_flushing mem' walLog' es'
          end
      end
  end.

(** the crash protection: an abandoned log is replayed into the memtable and
    into the new log, and removed *)
Definition recover_flushing (mem : SkipList) (walLog : WAL) : IO (result (SkipList * WAL)) :=
  st ← gets (fun w => os_Stat_Size w flushingName);
  match st with
  | inl _ => ret (inr (mem, walLog))
  | inr _ =>
      r ← NewWAL flushingName;
      match r with
      | inl _ => ret (inr (mem, walLog))
      | inr tempWAL =>
          '(rr, tempWAL) ← WAL_Recover tempWAL;
          restored ← match rr with
                     | inl _ => _ ← WAL_Close tempWAL; ret ∅
                     | inr m => ret m
                     end;
          r ← restore_flushing mem walLog (go_range restored);
          match r with
          | inl e => ret (inl e)
          | inr res =>
              _ ← WAL_Close tempWAL;
              _ ← os_Remove flushingName;
              ret (inr res)
          end
      end
  end.

(** tables that cannot be opened are left out *)
Fixpoint open_readers (ssts : list sstableInfo) : IO (list Reader) :=
  match ssts with
  | [] => ret []
  | sst :: ssts' =>
      r ← NewReader (si_path sst);
      rest ← open_readers ssts';
      ret (match r with inr r => r :: rest | inl _ => rest end)
  end.

(** the log is replayed on top of the memtable, and the tables are opened *)
Definition open_rest (mem : SkipList) (walLog : WAL) : IO (result StrataGo) :=
  '(r, walLog) ← WAL_Recover walLog;
  match r with
  | inl e => ret (inl (ErrWrap "WAL recovery failed" e))
  | inr restored =>
      match put_all (go_range restored) mem with
      | None => ret (inl Panic)
      | Some mem =>
          names ← gets os_ReadDir;
          readers ← open_readers (sstables_of names);
          ret (inr (mkStrataGo mem None walLog readers (ChanOpen false) false))
      end
  end.

Definition Open : IO (result StrataGo) :=
  and_then os_MkdirAll (fun e => ret (inl e)) (
  mem ← gets (fun w => NewSkipList (go_coins w));
  and_bind (NewWAL walName) (fun e => ret (inl e)) (fun walLog =>
  and_bind (recover_flushing mem walLog) (fun e => ret (inl e)) (fun '(mem, walLog) =>
  open_rest mem walLog))).

(** ** Writes *)

(** [select { case db.flushChan <- struct{}{}: default: }] *)
Definition signal_flush (db : StrataGo) : err * StrataGo :=
  match db_flushChan db with
  | ChanOpen _ => (None, set_chan (ChanOpen true) db)
  | ChanClosed => (Some Panic, db)
  end.

(** the part that [Put] and [Delete] share once the log has the entry *)
Definition apply_write (db : StrataGo) (key : bytes) (value : slice) : err * StrataGo :=
  match SkipList_Put (db_activeMemtable db) key value with
  | None => (Some Panic, db)
  | Some mem =>
      let db' := set_active mem db in
      if DefaultMemtableThreshold <=? sl_SizeBytes mem then signal_flush db' else (None, db')
  end.

Definition StrataGo_Put (db : StrataGo) (key : bytes) (value : slice) : IO (err * StrataGo) :=
  if db_closed db then ret (Some (ErrMsg "database is closed"), db) else
  '(r, wal) ← WAL_WriteEntry (db_wal db) key value;
  let db' := set_wal wal db in
  match r with
  | Some e => ret (Some e, db')
  | None => ret (apply_write db' key value)
  end.

Definition StrataGo_Delete (db : StrataGo) (key : bytes) : IO (err * StrataGo) :=
  if db_closed db then ret (Some (ErrMsg "database is closed"), db) else
  '(r, wal) ← WAL_WriteEntry (db_wal db) key None;
  let db' := set_wal wal db in
  match r with
  | Some e => ret (Some e, db')
  | None => ret (apply_write db' key None)
  end.

(** ** Reads *)

(** the tables, newest first; the outer [None] is a panic *)
Fixpoint get_readers (w : World) (newest_first : list Reader) (key : bytes)
    : option (option bytes) :=
  match newest_first with
  | [] => Some None
  | r :: rs =>
      res ← Reader_Get w r key;
      match res with
      | Some val => Some (if len val =? 0 then None else Some val)
      | None => get_readers w rs key
      end
  end.

(** the memtables first; a nil value is a tombstone *)
Definition StrataGo_Get (w : World) (db : StrataGo) (key : bytes) : option (option bytes) :=
  a ← SkipList_Get (db_activeMemtable db) key;
  match a with
  | Some val => Some val
  | None =>
      i ← match db_immutableMemtable db with
          | Some imm => SkipList_Get imm key
          | None => Some None
          end;
      match i with
      | Some val => Some val
      | None => get_readers w (rev (db_sstReaders db)) key
      end
  end.

(** [for iter.Next() { state[key] = val }] over a table *)
Fixpoint scan_loop (fuel : nat) (it : Iterator) (state : gmap bytes slice)
    : IO (option (gmap bytes slice)) :=
  match fuel with
  | O => ret None
  | S fuel' =>
      '(more, it') ← Iterator_Next it;
      if more : bool then scan_loop fuel' it' (<[it_key it' := Some (it_val it')]> state)
      else ret (Some state)
  end.

Fixpoint scan_readers (readers : list Reader) (state : gmap bytes slice)
    : IO (option (gmap bytes slice)) :=
  match readers with
  | [] => ret (Some state)
  | r :: rs =>
      i ← NewIterator r;
      match i with
      | inl _ => scan_readers rs state
      | inr iter =>
          fuel ← gets (fun w => S (length (default [] (file_data w (it_file iter)))));
          s ← scan_loop fuel iter state;
          match s with
          | None => ret None
          | Some state' => _ ← Iterator_Close iter; scan_readers rs state'
          end
      end
  end.

(** [for iter.Next() { state[string(iter.Key())] = iter.Value() }] over a memtable *)
Definition put_map (es : list (bytes * slice)) (state : gmap bytes slice) : gmap bytes slice :=
  foldl (fun m e => <[e.1 := e.2]> m) state es.

Definition scan_memtable (sl : SkipList) (state : gmap bytes slice) : option (gmap bytes slice) :=
  es ← SkipList_entries sl; Some (put_map es state).

(** the loop that drops tombstones *)
Definition drop_tombstones (state : gmap bytes slice) : gmap bytes bytes :=
  omap (fun v => if 0 <? len (slice_bytes v) then Some (slice_bytes v) else None) state.

Definition StrataGo_ScanAll (db : StrataGo) : IO (result (gmap bytes bytes)) :=
  if db_closed db then ret (inl (ErrMsg "database is closed")) else
  s ← scan_readers (db_sstReaders db) ∅;
  ret (match
         (state ← s;
          state ← match db_immutableMemtable db with
                  | Some imm => scan_memtable imm state
                  | None => Some state
                  end;
          scan_memtable (db_activeMemtable db) state)
       with
       | Some state => inr (drop_tombstones state)
       | None => inl Panic
       end).

(** ** Inspection *)

Definition GetWAL (db : StrataGo) : WAL := db_wal db.
Definition GetActiveContents (db : StrataGo) : option (gmap bytes slice) :=
  scan_memtable (db_activeMemtable db) ∅.
(** [None] inside is the nil map *)
Definition GetImmutableContents (db : StrataGo) : option (option (gmap bytes slice)) :=
  match db_immutableMemtable db with
  | None => Some None
  | Some imm => m ← scan_memtable imm ∅; Some (Some m)
  end.
Definition GetSSTableContents (w : World) (db : StrataGo) : gmap string (gmap bytes bytes) :=
  foldl (fun m r => <[Reader_Path r := match Reader_ReadAll w r with inr d => d | inl _ => ∅ end]> m)
    ∅ (db_sstReaders db).
End engine.

(** ** The contents of an engine *)

(** the value a read of the memtables or the tables makes visible *)
Definition nonempty (v : bytes) : option bytes := if len v =? 0 then None else Some v.

(** the map of a list of tables, given oldest first *)
Definition tables_map (Ts : list (list (bytes * slice))) : gmap bytes bytes :=
  foldl (fun m es => (list_to_map ((fun e => (e.1, slice_bytes e.2)) <$> es)) ∪ m) ∅ Ts.

Lemma tables_map_snoc Ts es :
  tables_map (Ts ++ [es]) =
  (list_to_map ((fun e => (e.1, slice_bytes e.2)) <$> es)) ∪ tables_map Ts.
Proof. unfold tables_map. by rewrite foldl_snoc. Qed.

(** the memtables, the active one first *)
Definition memory_map (A : list (bytes * slice)) (I : option (list (bytes * slice)))
    : gmap bytes slice :=
  list_to_map A ∪ list_to_map (default [] I).

(** what [Get] is to answer *)
Definition answer (A : list (bytes * slice)) (I : option (list (bytes * slice)))
    (Ts : list (list (bytes * slice))) (k : bytes) : option bytes :=
  match memory_map A I !! k with
  | Some v => v
  | None => tables_map Ts !! k ≫= nonempty
  end.

Section tables.
Context `{Murmur3}.

(** [r] reads the table of the entries [t.2], stored under the name of time [t.1] *)
Definition table_ok (w : World) (r : Reader) (t : Z * list (bytes * slice)) : Prop :=
  sst_ok t.2 /\ r = sst_reader t.2 (r_file r) /\ f_name (r_file r) = sst_name t.1 /\
  exists i, w_dir w !! sst_name t.1 = Some i /\ file_ino w (r_file r) = Some i /\
    w_data w !! i = Some (sst_bytes t.2).

(** the scan of a point lookup stays inside the entries: the key is there, or a
    larger one is, or the filter rejects it *)
Definition no_phantom (es : list (bytes * slice)) (k : bytes) : Prop :=
  k ∈ es.*1 \/ Exists (fun e => bytes_lt k e.1) es \/
  BloomFilter_MayContain (bloom_of_hashes (hashes_of es)) k = Some false.

Lemma table_ok_data w r t : table_ok w r t -> file_data w (r_file r) = Some (sst_bytes t.2).
Proof. intros (_ & _ & _ & i & _ & Hi & Hd). unfold file_data. by rewrite Hi. Qed.

Lemma plain_lookup (es : list (bytes * slice)) k :
  (list_to_map ((fun e => (e.1, slice_bytes e.2)) <$> es) : gmap bytes bytes) !! k =
  slice_bytes <$> (list_to_map es : gmap bytes slice) !! k.
Proof.
  induction es as [|[k' v] es IH]; [cbn; by rewrite !lookup_empty|]. rewrite fmap_cons. cbn.
  destruct (decide (k' = k)) as [->|]; [by rewrite !lookup_insert_eq|].
  by rewrite !lookup_insert_ne.
Qed.

(** [r] is an open reader of the table of [es], whatever its name is now *)
Definition reads (w : World) (r : Reader) (es : list (bytes * slice)) : Prop :=
  sst_ok es /\ r = sst_reader es (r_file r) /\ file_data w (r_file r) = Some (sst_bytes es).

Lemma table_ok_reads w r t : table_ok w r t -> reads w r t.2.
Proof. intros Ht. split; [apply Ht|]. split; [apply Ht|]. by apply table_ok_data. Qed.

(** A point lookup in one table. *)
Lemma Reader_Get_table w r es k :
  reads w r es -> no_phantom es k ->
  Reader_Get w r k =
  Some ((list_to_map ((fun e => (e.1, slice_bytes e.2)) <$> es) : gmap bytes bytes) !! k).
Proof.
  intros (Hok & -> & Hd) Hp.
  unfold Reader_Get. cbn [sst_reader r_file r_index r_filter] in *. rewrite Hd.
  destruct (reader_get_sst es k Hok) as (fuel & _ & _ & ->). rewrite plain_lookup.
  pose proof (so_sorted _ Hok) as Hs. destruct (decide (k ∈ es.*1)) as [Hin|Hn].
  - apply list_elem_of_fmap in Hin as ([k' v] & -> & Hin). cbn [fst].
    rewrite bloom_of_hashes_contains.
    + rewrite (scan_spec_found k' es v Hs Hin). do 2 f_equal.
      symmetry. apply fmap_Some. exists v. split; [|done].
      by apply list_to_map_sorted_lookup.
    + rewrite len_hashes_of. apply (so_keys _ Hok).
    + apply (list_elem_of_fmap_2 (fun e => HashKey e.1) _ (k', v) Hin).
  - assert ((list_to_map es : gmap bytes slice) !! k = None) as ->
      by (by apply not_elem_of_list_to_map_1). cbn.
    destruct Hp as [?|[Hgt|Hf]]; [done| |by rewrite Hf].
    rewrite scan_spec_absent, decide_True by done.
    by destruct (table_filter_total es k Hok) as [[|] ->].
Qed.

Lemma get_readers_open w rs ess k :
  Forall2 (reads w) rs ess -> Forall (fun es => no_phantom es k) ess ->
  get_readers w (rev rs) k = Some (tables_map ess !! k ≫= nonempty).
Proof.
  revert ess. induction rs as [|r rs IH] using rev_ind; intros ess HF Hp.
  - by apply Forall2_nil_inv_l in HF as ->.
  - apply Forall2_app_inv_l in HF as (ess1 & ess2 & H1 & H2 & ->).
    destruct ess2 as [|es [|? ?]]; [by inversion H2| |by inversion H2 as [|? ? ? ? ? H3]; inversion H3].
    apply Forall2_cons in H2 as [Ht _]. apply Forall_app in Hp as [Hp1 [Hp2 _]%Forall_cons].
    rewrite rev_app_distr. cbn [rev app get_readers]. rewrite (Reader_Get_table w r es k Ht Hp2).
    cbn [mbind option_bind]. rewrite tables_map_snoc, lookup_union.
    destruct ((list_to_map _ : gmap bytes bytes) !! k) as [v|].
    + by destruct (tables_map ess1 !! k).
    + rewrite (left_id_L None (∪)). by apply IH.
Qed.

Lemma tables_reads w rs Ts : Forall2 (table_ok w) rs Ts -> Forall2 (reads w) rs (Ts.*2).
Proof. induction 1 as [|r t rs Ts Ht _ IH]; constructor; [by apply table_ok_reads|done]. Qed.

Lemma get_readers_ok w rs Ts k :
  Forall2 (table_ok w) rs Ts -> Forall (fun t => no_phantom t.2 k) Ts ->
  get_readers w (rev rs) k = Some (tables_map (Ts.*2) !! k ≫= nonempty).
Proof.
  intros HF Hp. apply get_readers_open; [by apply tables_reads|]. by apply Forall_fmap.
Qed.

(** Lookups depend on the content of the table files only. *)
Lemma get_readers_frame w w' rs Ts k :
  (forall r t, table_ok w r t -> file_data w' (r_file r) = file_data w (r_file r)) ->
  Forall2 (table_ok w) rs Ts -> get_readers w' (rev rs) k = get_readers w (rev rs) k.
Proof.
  intros Hfr HF. assert (Forall (fun r => file_data w' (r_file r) = file_data w (r_file r)) (rev rs)).
  { apply Forall_rev. induction HF; constructor; eauto. }
  induction (rev rs) as [|r l IH]; [done|]. apply Forall_cons in H0 as [H1 H2].
  cbn [get_readers]. unfold Reader_Get. rewrite H1. by rewrite IH.
Qed.
End tables.

(** ** The invariant *)

(** values as the log gives them back: nil becomes empty *)
Definition norm (v : slice) : slice := Some (slice_bytes v).

(** the log file behind [wl] holds the records of the entries [log] *)
Definition wal_ok (w : World) (wl : WAL) (log : list (bytes * slice)) : Prop :=
  wal_path wl = walName /\ 0 <= wal_sequenceNumber wl <= len log /\ Forall entry_ok log /\
  exists i, w_dir w !! walName = Some i /\ file_ino w (wal_file wl) = Some i /\
    exists d, w_data w !! i = Some d /\ logged d (wal_sequenceNumber wl) log.

Definition imm_repr (m : option SkipList) (I : option (list (bytes * slice))) : Prop :=
  match m, I with
  | Some sl, Some es => repr sl es
  | None, None => True
  | _, _ => False
  end.

Section invariant.
Context `{Murmur3}.

Record engine_ok (w : World) (db : StrataGo) (log A : list (bytes * slice))
    (I : option (list (bytes * slice))) (Ts : list (Z * list (bytes * slice))) : Prop := {
  eo_wf : wf_world w;
  eo_inj : forall s1 s2 i, w_dir w !! s1 = Some i -> w_dir w !! s2 = Some i -> s1 = s2;
  eo_chan : exists full, db_flushChan db = ChanOpen full;
  eo_active : repr (db_activeMemtable db) A;
  eo_imm : imm_repr (db_immutableMemtable db) I;
  eo_wal : wal_ok w (db_wal db) log;
  eo_log : norm <$> (list_to_map A : gmap bytes slice) = wal_replay log ∅;
  eo_tables : Forall2 (table_ok w) (db_sstReaders db) Ts;
  eo_sorted : StronglySorted Z.lt (Ts.*1);
  eo_range : Forall (fun t => - 2 ^ 63 <= t.1 < 2 ^ 63) Ts
}.

(** the only tables in the directory are [Ts] *)
Definition dir_ok (w : World) (Ts : list (Z * list (bytes * slice))) : Prop :=
  forall s, HasSuffix s ".sst" = true -> is_Some (w_dir w !! s) ->
    exists t, t ∈ Ts /\ s = sst_name t.1.

Lemma engine_seq w db log A I Ts :
  engine_ok w db log A I Ts -> 0 <= wal_sequenceNumber (db_wal db) <= len log.
Proof. intros He. apply (eo_wal _ _ _ _ _ _ He). Qed.

(** The state has tables in which no lookup of [k] runs past the entries. *)
Definition clean_lookup (Ts : list (Z * list (bytes * slice))) (k : bytes) : Prop :=
  Forall (fun t => no_phantom t.2 k) Ts.

(** The memtables answer first. *)
Lemma Get_memory w db A I k :
  repr (db_activeMemtable db) A -> imm_repr (db_immutableMemtable db) I ->
  StrataGo_Get w db k =
  match memory_map A I !! k with
  | Some v => Some v
  | None => get_readers w (rev (db_sstReaders db)) k
  end.
Proof.
  intros Ha Hi. unfold StrataGo_Get, memory_map.
  rewrite (SkipList_Get_spec _ _ _ Ha). cbn [mbind option_bind].
  rewrite lookup_union. destruct ((list_to_map A : gmap bytes slice) !! k) as [v|].
  { by destruct ((list_to_map (default [] I) : gmap bytes slice) !! k). }
  rewrite (left_id_L None (∪)).
  assert (match db_immutableMemtable db with
          | Some imm => SkipList_Get imm k
          | None => Some None
          end = Some ((list_to_map (default [] I) : gmap bytes slice) !! k)) as ->.
  { unfold imm_repr in Hi. destruct (db_immutableMemtable db), I; try done.
    by rewrite (SkipList_Get_spec _ _ _ Hi). }
  cbn [mbind option_bind]. by destruct ((list_to_map (default [] I) : gmap bytes slice) !! k).
Qed.

Lemma Get_ok w db log A I Ts k :
  engine_ok w db log A I Ts -> clean_lookup Ts k ->
  StrataGo_Get w db k = Some (answer A I (Ts.*2) k).
Proof.
  intros He Hc. rewrite (Get_memory w db A I k (eo_active _ _ _ _ _ _ He) (eo_imm _ _ _ _ _ _ He)).
  unfold answer. destruct (memory_map A I !! k); [done|].
  apply get_readers_ok; [|done]. apply (eo_tables _ _ _ _ _ _ He).
Qed.
End invariant.

(** ** Scanning *)

Lemma put_map_union (es : list (bytes * slice)) : forall m : gmap bytes slice,
  NoDup (es.*1) -> put_map es m = list_to_map es ∪ m.
Proof.
  induction es as [|[k v] es IH]; intros m Hnd; [symmetry; apply (left_id_L ∅ (∪))|].
  rewrite fmap_cons, NoDup_cons in Hnd. destruct Hnd as [Hn Hnd]. 
  change (put_map ((k, v) :: es) m) with (put_map es (<[k:=v]> m)). rewrite IH by done. cbn.
  rewrite <- insert_union_r, <- insert_union_l; [done|]. by apply not_elem_of_list_to_map_1.
Qed.

Lemma scan_memtable_ok sl es m :
  repr sl es -> scan_memtable sl m = Some (list_to_map es ∪ m).
Proof.
  intros Hr. unfold scan_memtable. rewrite (SkipList_entries_spec _ _ Hr).
  cbn [mbind option_bind]. f_equal. apply put_map_union, sorted_entries_NoDup. by eapply repr_sorted.
Qed.

(** the world after [n] handles have been opened and closed again *)
Definition skip_handles (n : nat) (w : World) : World :=
  mkWorld (w_dir w) (w_data w) (w_fds w) (n + w_next w) (w_now w) (w_faults w).

Section scan.
Context `{Murmur3}.

Lemma scan_loop_sst es f w :
  sst_ok es -> file_data w f = Some (sst_bytes es) ->
  forall es2 es1 fuel m, es = es1 ++ es2 -> (length es2 < fuel)%nat ->
  scan_loop fuel (iterator_at es f es1) m w =
  (Some (put_map ((fun e => (e.1, Some (slice_bytes e.2))) <$> es2) m), w).
Proof.
  intros Hok Hd. induction es2 as [|e es2 IH]; intros es1 [|fuel] m E Hf; try (cbn in Hf; lia).
  - cbn [scan_loop]. unfold mbind, IO_bind, Iterator_Next. rewrite iterator_at_file, Hd.
    by rewrite (iterator_next_sst es Hok f es1 [] E).
  - cbn [scan_loop]. unfold mbind, IO_bind, Iterator_Next. rewrite iterator_at_file, Hd.
    rewrite (iterator_next_sst es Hok f es1 (e :: es2) E).
    destruct (iterator_at_key es f es1 e) as [-> ->].
    rewrite IH; [done|by rewrite <- app_assoc|cbn in Hf; lia].
Qed.

(** the entries of a table as the scan sees them *)
Lemma put_map_table es m :
  key_sorted fst es ->
  put_map ((fun e => (e.1, Some (slice_bytes e.2))) <$> es) m =
  (Some <$> (list_to_map ((fun e => (e.1, slice_bytes e.2)) <$> es) : gmap bytes bytes)) ∪ m.
Proof.
  intros Hs. rewrite put_map_union.
  - f_equal. rewrite <- list_to_map_fmap, <- list_fmap_compose. done.
  - rewrite <- list_fmap_compose. by apply sorted_entries_NoDup.
Qed.

Lemma scan_readers_ok rs : forall Ts w m,
  Forall2 (table_ok w) rs Ts -> w_faults w = [] -> wf_world w ->
  scan_readers rs m w =
  (Some (foldl (fun m t => (Some <$> (list_to_map ((fun e => (e.1, slice_bytes e.2)) <$> t.2)
                                      : gmap bytes bytes)) ∪ m) m Ts),
   skip_handles (length rs) w).
Proof.
  induction rs as [|r rs IH]; intros Ts w m HF Hf Hw.
  - apply Forall2_nil_inv_l in HF as ->. cbn. by destruct w.
  - apply Forall2_cons_inv_l in HF as ([ts es] & Ts' & Ht & HF & ->).
    destruct Ht as (Hok & Er & Hname & i & Hdir & Hino & Hdata). cbn [fst snd] in *.
    cbn [scan_readers]. unfold NewIterator, and_bind, mbind, IO_bind. rewrite Hname.
    rewrite (os_Open_ok _ i) by done. unfold gets, ret.
    assert (file_data (opened i w) (mkFile (sst_name ts) (w_next w)) = Some (sst_bytes es)) as Hd
      by by apply file_data_opened.
    rewrite Hd. cbn [default id]. rewrite data_limit_sst by done.
    change (mkIterator (mkFile (sst_name ts) (w_next w)) (len (data_of es)) 0 0 [] [] None)
      with (iterator_at es (mkFile (sst_name ts) (w_next w)) []).
    rewrite iterator_at_file, Hd. cbn [default id].
    rewrite (scan_loop_sst es _ _ Hok Hd es []); [|done|].
    2: { unfold sst_bytes. rewrite length_app. pose proof (length_data_of es). lia. }
    rewrite put_map_table by apply (so_sorted _ Hok).
    unfold Iterator_Close, file_Close. rewrite iterator_at_file. unfold file_ino. cbn [f_fd].
    unfold opened at 1. cbn [w_fds]. rewrite lookup_insert_eq, next_outcome_ok by done.
    set (w1 := set_fds _ (opened i w)). assert (w1 = skip_handles 1 w) as ->.
    { unfold w1, set_fds, opened, skip_handles. cbn. rewrite delete_insert_id; [done|].
      by apply (ww_fds w Hw). }
    rewrite (IH Ts' (skip_handles 1 w)).
    + cbn [foldl]. f_equal. unfold skip_handles. cbn. by rewrite Nat.add_succ_r.
    + eapply Forall2_impl; [exact HF|]. intros r' t' Ht'. exact Ht'.
    + done.
    + destruct Hw as [H1 H2 H3 H4]. split; cbn; [|..]; try done; intros n Hn; [apply H1|apply H2]; lia.
Qed.

Lemma foldl_tables (Ts : list (Z * list (bytes * slice))) (m : gmap bytes slice) :
  foldl (fun m (t : Z * list (bytes * slice)) =>
    (Some <$> (list_to_map ((fun e => (e.1, slice_bytes e.2)) <$> t.2) : gmap bytes bytes)) ∪ m) m Ts =
  (Some <$> tables_map (Ts.*2)) ∪ m.
Proof.
  induction Ts as [|t Ts IH] using rev_ind; [cbn; by rewrite fmap_empty, (left_id_L ∅ (∪))|].
  rewrite foldl_snoc, IH, fmap_app. cbn [fmap list_fmap].
  rewrite tables_map_snoc, map_fmap_union, (assoc_L (∪)). done.
Qed.

Lemma drop_tombstones_lookup (m : gmap bytes slice) k :
  drop_tombstones m !! k =
  match m !! k with Some (Some v) => nonempty v | _ => None end.
Proof.
  unfold drop_tombstones. rewrite lookup_omap. destruct (m !! k) as [[v|]|]; [|done|done].
  cbn. unfold nonempty. pose proof (len_nonneg v).
  destruct (Z.ltb_spec 0 (len v)), (Z.eqb_spec (len v) 0); done || lia.
Qed.

(** A scan finds what the lookups find. *)
Lemma ScanAll_ok w db log A I Ts :
  engine_ok w db log A I Ts -> w_faults w = [] -> db_closed db = false ->
  exists m, StrataGo_ScanAll db w = (inr m, skip_handles (length (db_sstReaders db)) w) /\
    forall k, m !! k = answer A I (Ts.*2) k ≫= nonempty.
Proof.
  intros He Hf Hc. unfold StrataGo_ScanAll. rewrite Hc. unfold mbind, IO_bind.
  rewrite (scan_readers_ok _ _ _ _ (eo_tables _ _ _ _ _ _ He) Hf (eo_wf _ _ _ _ _ _ He)).
  rewrite foldl_tables, (right_id_L ∅ (∪)). unfold ret.
  assert (match db_immutableMemtable db with
          | Some imm => scan_memtable imm (Some <$> tables_map (Ts.*2))
          | None => Some (Some <$> tables_map (Ts.*2))
          end = Some (list_to_map (default [] I) ∪ (Some <$> tables_map (Ts.*2)))) as E.
  { pose proof (eo_imm _ _ _ _ _ _ He) as Hi. unfold imm_repr in Hi.
    destruct (db_immutableMemtable db), I; try done; [by apply scan_memtable_ok|].
    cbn. by rewrite (left_id_L ∅ (∪)). }
  cbn [mbind option_bind]. rewrite E. cbn [mbind option_bind].
  rewrite (scan_memtable_ok _ _ _ (eo_active _ _ _ _ _ _ He)).
  eexists. split; [done|]. intros k. rewrite drop_tombstones_lookup. unfold answer, memory_map.
  rewrite !lookup_union, lookup_fmap.
  destruct ((list_to_map A : gmap bytes slice) !! k), ((list_to_map (default [] I) : gmap bytes slice) !! k),
    (tables_map Ts.*2 !! k) as [v|]; cbn; try done.
  unfold nonempty. destruct (len v =? 0) eqn:Ev; cbn; [done|]. by rewrite Ev.
Qed.
End scan.

(** ** Writing *)

Lemma wf_set_data w i d :
  wf_world w -> is_Some (w_data w !! i) -> wf_world (set_data (<[i := d]> (w_data w)) w).
Proof.
  intros [H1 H2 H3 H4] [d0 Hi]. split; cbn.
  - done.
  - intros n Hn. rewrite lookup_insert_ne; [by apply H2|]. intros ->. rewrite H2 in Hi; done.
  - intros s j Hs. apply lookup_insert_is_Some. destruct (decide (i = j)); eauto.
  - intros f j Hj. apply lookup_insert_is_Some. destruct (decide (i = j)); eauto.
Qed.

Lemma sst_name_not_wal ts : sst_name ts <> walName.
Proof. intros E. pose proof (sst_name_suffix ts) as Hs. by rewrite E in Hs. Qed.

Lemma sst_name_not_flushing ts : sst_name ts <> flushingName.
Proof. intros E. pose proof (sst_name_suffix ts) as Hs. by rewrite E in Hs. Qed.

Section write.
Context `{Murmur3}.

(** Changing a file that is not a table leaves the tables alone. *)
Lemma table_ok_set_data w s i d r t :
  (forall s1 s2 i, w_dir w !! s1 = Some i -> w_dir w !! s2 = Some i -> s1 = s2) ->
  w_dir w !! s = Some i -> s <> sst_name t.1 ->
  table_ok w r t -> table_ok (set_data (<[i := d]> (w_data w)) w) r t.
Proof.
  intros Hinj Hs Hne (Hok & Er & Hn & j & Hj & Hf & Hd). split_and!; [done..|].
  exists j. split_and!; [done|done|]. cbn. rewrite lookup_insert_ne; [done|].
  intros ->. apply Hne. by eapply Hinj.
Qed.

Lemma repr_lookup_put (A : list (bytes * slice)) k v :
  key_sorted fst A ->
  norm <$> (list_to_map (entries_put k v A) : gmap bytes slice) =
  <[k := norm v]> (norm <$> (list_to_map A : gmap bytes slice)).
Proof. intros Hs. by rewrite list_to_map_put, fmap_insert. Qed.

Lemma apply_write_ok w db log A I Ts k v wal :
  engine_ok w db log A I Ts ->
  exists mem full,
    apply_write (set_wal wal db) k v =
      (None, set_chan (ChanOpen full) (set_active mem (set_wal wal db))) /\
    repr mem (entries_put k v A).
Proof.
  intros He. destruct (SkipList_Put_spec _ _ k v (eo_active _ _ _ _ _ _ He)) as (mem & E & Hr).
  unfold apply_write. cbn [set_wal db_activeMemtable]. rewrite E. unfold signal_flush.
  cbn [set_active db_flushChan set_wal].
  destruct (eo_chan _ _ _ _ _ _ He) as [full Hc]. rewrite Hc. case_match.
  - by exists mem, true.
  - exists mem, full. split; [|done]. unfold set_chan, set_active. cbn. by rewrite <- Hc.
Qed.

(** One acknowledged write: the log and the active memtable get the entry, the
    rest of the engine and of the disk stays. *)
Lemma write_ok w db log A I Ts k v :
  engine_ok w db log A I Ts -> w_faults w = [] -> entry_ok (k, v) ->
  wal_sequenceNumber (db_wal db) + 1 < 2 ^ 64 ->
  exists wal w' db',
    WAL_WriteEntry (db_wal db) k v w = ((None, wal), w') /\
    apply_write (set_wal wal db) k v = (None, db') /\
    engine_ok w' db' (log ++ [(k, v)]) (entries_put k v A) I Ts /\
    (forall r t, table_ok w r t -> table_ok w' r t) /\
    w_faults w' = [] /\ w_dir w' = w_dir w /\ db_closed db' = db_closed db.
Proof.
  intros He Hf Hk Hl. pose proof He as [Hwf Hinj Hc Hact Himm Hwal Hlog Htab Hs Hr].
  destruct Hwal as (Hp & Hseq & Hlok & i & Hdir & Hino & d & Hdata & Hlgd).
  pose proof (WriteEntry_ok (db_wal db) (k, v) w i _ Hf Hino Hdata ltac:(lia) ltac:(lia)) as E.
  cbn [fst snd] in E. eexists _, _.
  destruct (apply_write_ok w db log A I Ts k v
    (mkWAL (wal_file (db_wal db)) (wal_path (db_wal db)) (wal_sequenceNumber (db_wal db) + 1)) He)
    as (mem & full & Ea & Hmem).
  eexists. split; [exact E|]. split; [exact Ea|].
  set (wl := mkWAL _ _ _). set (w' := set_data _ w).
  assert (forall r t, table_ok w r t -> table_ok w' r t) as Hframe.
  { intros r t Ht. eapply (table_ok_set_data w walName); [done|done| |done].
    intros Ew. by apply (sst_name_not_wal t.1). }
  split; [|split_and!; done].
  split; cbn; try done.
  - by apply wf_set_data.
  - by exists full.
  - split; [done|]. split; [cbn; lens|]. split; [apply Forall_app; by repeat constructor|].
    exists i. split; [done|]. split; [done|]. eexists. split; [apply lookup_insert_eq|].
    apply logged_snoc; [done|lia].
  - rewrite repr_lookup_put by by eapply repr_sorted. rewrite Hlog, wal_replay_app. done.
  - eapply Forall2_impl; [exact Htab|]. done.
Qed.

Lemma Put_ok w db log A I Ts k v :
  engine_ok w db log A I Ts -> db_closed db = false -> w_faults w = [] ->
  entry_ok (k, v) -> wal_sequenceNumber (db_wal db) + 1 < 2 ^ 64 ->
  exists db' w', StrataGo_Put db k v w = ((None, db'), w') /\
    engine_ok w' db' (log ++ [(k, v)]) (entries_put k v A) I Ts /\
    (forall r t, table_ok w r t -> table_ok w' r t) /\
    w_faults w' = [] /\ w_dir w' = w_dir w /\ db_closed db' = false.
Proof.
  intros He Hc Hf Hk Hl. destruct (write_ok w db log A I Ts k v He Hf Hk Hl)
    as (wal & w' & db' & E1 & E2 & He' & Hfr & Hf' & Hd' & Hc').
  exists db', w'. unfold StrataGo_Put, mbind, IO_bind. rewrite Hc, E1. unfold ret. rewrite E2.
  by rewrite Hc in Hc'.
Qed.

Lemma Delete_ok w db log A I Ts k :
  engine_ok w db log A I Ts -> db_closed db = false -> w_faults w = [] ->
  entry_ok (k, None) -> wal_sequenceNumber (db_wal db) + 1 < 2 ^ 64 ->
  exists db' w', StrataGo_Delete db k w = ((None, db'), w') /\
    engine_ok w' db' (log ++ [(k, None)]) (entries_put k None A) I Ts /\
    (forall r t, table_ok w r t -> table_ok w' r t) /\
    w_faults w' = [] /\ w_dir w' = w_dir w /\ db_closed db' = false.
Proof.
  intros He Hc Hf Hk Hl. destruct (write_ok w db log A I Ts k None He Hf Hk Hl)
    as (wal & w' & db' & E1 & E2 & He' & Hfr & Hf' & Hd' & Hc').
  exists db', w'. unfold StrataGo_Delete, mbind, IO_bind. rewrite Hc, E1. unfold ret. rewrite E2.
  by rewrite Hc in Hc'.
Qed.

(** what a write does to the answers *)
Lemma answer_put A I Ts k v k' :
  key_sorted fst A ->
  answer (entries_put k v A) I Ts k' = if decide (k' = k) then v else answer A I Ts k'.
Proof.
  intros Hs. unfold answer, memory_map. rewrite list_to_map_put by done.
  rewrite <- insert_union_l. case_decide as E.
  - by rewrite E, lookup_insert_eq.
  - by rewrite lookup_insert_ne.
Qed.
End write.
