(* ===== verification/Recovery.v ===== *)
(** * Opening the engine: [Open] of [engine/stratago.go], restarts and crashes

    [disk_ok] describes a data directory between two runs; [Open] turns it into
    an engine that satisfies the invariant of [Engine]. *)
From stdpp Require Import base gmap sets list strings numbers sorting.
From Stdlib Require Import ZArith Lia Strings.Byte.
From S2P Require Import Prelude SkipList Disk Wal Bloom GoFmt Sst Reader Engine.
Open Scope Z_scope.

(** ** Sorting the directory *)

Section sort.
Context {A : Type} (less : A -> A -> bool).

Lemma insert_by_Permutation x l : insert_by less x l ≡ₚ x :: l.
Proof.
  induction l as [|y l IH]; cbn; [done|]. case_match; [done|]. rewrite IH. apply Permutation_swap.
Qed.

Lemma sort_by_snoc l x : sort_by less (l ++ [x]) = insert_by less x (sort_by less l).
Proof. unfold sort_by. by rewrite foldl_snoc. Qed.

Lemma sort_by_Permutation l : sort_by less l ≡ₚ l.
Proof.
  induction l as [|x l IH] using rev_ind; [done|].
  rewrite sort_by_snoc, insert_by_Permutation, IH. apply Permutation_cons_append.
Qed.
End sort.

Lemma insert_by_sorted {A} (f : A -> Z) x l :
  StronglySorted (fun a b => f a <= f b) l ->
  StronglySorted (fun a b => f a <= f b) (insert_by (fun a b => f a <? f b) x l).
Proof.
  induction 1 as [|y l Hl IH Hy]; cbn; [repeat constructor|].
  destruct (Z.ltb_spec (f x) (f y)).
  - constructor; [by constructor|]. constructor; [lia|]. eapply Forall_impl; [exact Hy|].
    intros z Hz. cbn in Hz. lia.
  - constructor; [done|]. rewrite insert_by_Permutation. by constructor.
Qed.

Lemma sort_by_sorted {A} (f : A -> Z) l :
  StronglySorted (fun a b => f a <= f b) (sort_by (fun a b => f a <? f b) l).
Proof.
  induction l as [|x l IH] using rev_ind; [constructor|]. rewrite sort_by_snoc.
  by apply insert_by_sorted.
Qed.

(** A list with distinct keys has one sorted arrangement. *)
Lemma sort_by_unique {A} (f : A -> Z) l l' :
  l ≡ₚ l' -> StronglySorted (fun a b => f a < f b) l' -> sort_by (fun a b => f a <? f b) l = l'.
Proof.
  intros HP Hs. assert (sort_by (fun a b => f a <? f b) l ≡ₚ l') as HP'
    by (by rewrite sort_by_Permutation).
  pose proof (sort_by_sorted f l) as Hs'. clear HP. revert Hs' l' Hs HP'.
  generalize (sort_by (fun a b => f a <? f b) l). intros s0 Hs'.
  induction Hs' as [|x s Hs' IH Hx]; intros l' Hs HP'.
  - by apply Permutation_nil_l in HP' as ->.
  - destruct l' as [|y l']; [by apply Permutation_nil_r in HP'|].
    apply StronglySorted_inv in Hs as [Hs Hy]. rewrite Forall_forall in Hx, Hy.
    assert (x = y) as ->.
    { assert (x ∈ y :: l') as [->|Hxl]%elem_of_cons by (rewrite <- HP'; by left); [done|].
      assert (y ∈ x :: s) as [->|Hys]%elem_of_cons by (rewrite HP'; by left); [done|].
      specialize (Hx _ Hys). specialize (Hy _ Hxl). cbn in *. lia. }
    apply Permutation_cons_inv in HP'. f_equal. by apply IH.
Qed.

(** ** The directory between two runs *)

Section recovery.
Context `{Murmur3} `{Runtime}.

Definition info_of (t : Z * list (bytes * slice)) : sstableInfo :=
  mkSstableInfo (sst_name t.1) t.1.

(** the table [t] is stored under its name *)
Definition stored (w : World) (t : Z * list (bytes * slice)) : Prop :=
  sst_ok t.2 /\ exists i, w_dir w !! sst_name t.1 = Some i /\ w_data w !! i = Some (sst_bytes t.2).

(** the log that a flush has set aside, if there is one: its entries are [fl] *)
Definition flushing_ok (w : World) (fl : option (list (bytes * slice))) : Prop :=
  match w_dir w !! flushingName, fl with
  | None, None => True
  | Some i, Some es => exists d top, w_data w !! i = Some d /\ logged d top es /\
      0 <= top < 2 ^ 64 /\ Forall entry_ok es /\
      Z.of_nat (size (wal_replay es ∅ : gmap bytes slice)) < 2 ^ 64
  | _, _ => False
  end.

(** a data directory: the log with the entries [log] and possibly a torn tail,
    the log of an interrupted flush, and the tables [Ts] *)
Record disk_at (w : World) (log : list (bytes * slice)) (tail : bytes)
    (fl : option (list (bytes * slice))) (Ts : list (Z * list (bytes * slice))) : Prop := {
  do_wf : wf_world w;
  do_faults : w_faults w = [];
  do_inj : forall s1 s2 i, w_dir w !! s1 = Some i -> w_dir w !! s2 = Some i -> s1 = s2;
  do_wal : match w_dir w !! walName with
           | Some i => exists d top, w_data w !! i = Some (d ++ tail) /\ logged d top log /\
               0 <= top <= len log /\ top < 2 ^ 64
           | None => log = [] /\ tail = []
           end;
  do_tail : stops tail;
  do_log : Forall entry_ok log;
  do_flushing : flushing_ok w fl;
  do_tables : Forall (stored w) Ts;
  do_sorted : StronglySorted Z.lt (Ts.*1);
  do_range : Forall (fun t => - 2 ^ 63 <= t.1 < 2 ^ 63) Ts;
  do_dir : dir_ok w Ts
}.

(** a directory in which no flush was interrupted *)
Definition disk_ok (w : World) (log : list (bytes * slice)) (tail : bytes)
    (Ts : list (Z * list (bytes * slice))) : Prop := disk_at w log tail None Ts.

Lemma flushing_none w : flushing_ok w None <-> w_dir w !! flushingName = None.
Proof. unfold flushing_ok. by destruct (w_dir w !! flushingName). Qed.

Lemma sorted_fst_NoDup (Ts : list (Z * list (bytes * slice))) :
  StronglySorted Z.lt (Ts.*1) -> NoDup (Ts.*1).
Proof.
  induction (Ts.*1) as [|x l IH]; [constructor|]. intros [Hs Hx]%StronglySorted_inv.
  constructor; [|auto]. rewrite Forall_forall in Hx. intros Hin. specialize (Hx _ Hin). lia.
Qed.

(** The scan of the directory finds the tables, oldest first. *)
Lemma sstables_of_ok w Ts :
  StronglySorted Z.lt (Ts.*1) -> Forall (fun t => - 2 ^ 63 <= t.1 < 2 ^ 63) Ts ->
  dir_ok w Ts ->
  Forall (fun t => is_Some (w_dir w !! sst_name t.1)) Ts ->
  sstables_of (os_ReadDir w) = info_of <$> Ts.
Proof.
  intros Hs Hr Hd Hin. unfold sstables_of. apply sort_by_unique.
  - assert (filter (fun name => HasSuffix name ".sst" = true) (os_ReadDir w) ≡ₚ
      (fun t => sst_name t.1) <$> Ts) as HP.
    { apply NoDup_Permutation.
      - apply NoDup_filter. unfold os_ReadDir. rewrite sort_by_Permutation.
        apply NoDup_fst_map_to_list.
      - pose proof (sorted_fst_NoDup Ts Hs) as Hnd. clear -Hnd Hr.
        induction Ts as [|t Ts IH]; [constructor|]. rewrite fmap_cons in Hnd. rewrite fmap_cons. apply NoDup_cons in Hnd.
        apply NoDup_cons. apply Forall_cons in Hr as [Ht Hr]. destruct Hnd as [Hn Hnd]. split; [|by apply IH].
        intros (t' & E & Ht')%list_elem_of_fmap. apply Hn.
        rewrite Forall_forall in Hr. apply sst_name_inj in E; [|done|by apply Hr].
        rewrite E. by apply (list_elem_of_fmap_2 fst).
      - intros s. rewrite list_elem_of_filter. unfold os_ReadDir.
        rewrite sort_by_Permutation, list_elem_of_fmap. split.
        + intros [Hsuf ([s' i] & -> & Hi%elem_of_map_to_list)]. cbn in *.
          destruct (Hd s' Hsuf ltac:(eauto)) as (t & Ht & ->).
          by apply (list_elem_of_fmap_2 (fun t => sst_name t.1)).
        + intros (t & -> & Ht)%list_elem_of_fmap. split; [apply sst_name_suffix|].
          rewrite Forall_forall in Hin. destruct (Hin t Ht) as [i Hi].
          exists (sst_name t.1, i). split; [done|]. by apply elem_of_map_to_list. }
    rewrite HP, <- list_fmap_compose.
    match goal with |- ?a ≡ₚ ?b => assert (a = b) as ->; [|done] end. apply Forall_fmap_ext.
    eapply Forall_impl; [exact Hr|]. intros t Ht. unfold info_of. cbn.
    by rewrite Sscanf_sst_name.
  - clear -Hs. induction Ts as [|t Ts IH]; [constructor|]. rewrite fmap_cons in Hs. rewrite fmap_cons.
    apply StronglySorted_inv in Hs as [Hs Ht]. constructor; [by apply IH|].
    apply Forall_fmap. exact (proj1 (Forall_fmap fst _ _) Ht).
Qed.

(** ** Opening the tables *)

(** [w'] is [w] with more open files *)
Definition extends (w w' : World) : Prop :=
  w_dir w' = w_dir w /\ w_data w' = w_data w /\ w_fds w ⊆ w_fds w' /\
  w_faults w' = w_faults w /\ (w_next w <= w_next w')%nat.

Lemma extends_refl w : extends w w.
Proof. by repeat split. Qed.

Lemma opened_extends i w : wf_world w -> extends w (opened i w).
Proof.
  intros Hw. repeat split; [|cbn; lia]. cbn. apply insert_subseteq. apply (ww_fds w Hw). lia.
Qed.

Lemma wf_opened i w : wf_world w -> is_Some (w_data w !! i) -> wf_world (opened i w).
Proof.
  intros [H1 H2 H3 H4] Hi. split; cbn.
  - intros n Hn. rewrite lookup_insert_ne by lia. apply H1. lia.
  - intros n Hn. apply H2. lia.
  - done.
  - intros f j. rewrite lookup_insert_Some. intros [[_ <-]|[_ Hj]]; [done|by eapply H4].
Qed.

Lemma table_ok_extends w w' r t : extends w w' -> table_ok w r t -> table_ok w' r t.
Proof.
  intros (Ed & Ea & Hf & _) (Hok & Er & Hn & i & Hdir & Hino & Hdata).
  split_and!; [done..|]. exists i. rewrite Ed, Ea. split_and!; [done| |done].
  unfold file_ino in *. by eapply lookup_weaken.
Qed.

Lemma open_readers_ok Ts : forall w,
  w_faults w = [] -> wf_world w -> Forall (stored w) Ts ->
  exists rs w', open_readers (info_of <$> Ts) w = (rs, w') /\ extends w w' /\ wf_world w' /\
    Forall2 (table_ok w') rs Ts.
Proof.
  induction Ts as [|t Ts IH]; intros w Hf Hw Hst.
  - exists [], w. split; [done|]. split; [apply extends_refl|done].
  - apply Forall_cons in Hst as [(Hok & i & Hdir & Hdata) Hst]. rewrite fmap_cons.
    cbn [open_readers info_of si_path]. unfold mbind, IO_bind.
    rewrite (NewReader_ok t.2 Hok (sst_name t.1) w i) by done.
    assert (wf_world (opened i w)) as Hw' by (apply wf_opened; eauto).
    destruct (IH (opened i w)) as (rs & w' & E & Hext & Hwf & HF); [done|done|done|].
    rewrite E. eexists _, w'. split; [done|].
    assert (extends w w') as Hext'.
    { pose proof (opened_extends i w Hw) as (H1 & H2 & H3 & H4 & H5).
      destruct Hext as (H1' & H2' & H3' & H4' & H5').
      split_and!; [congruence|congruence|by etrans|congruence|lia]. }
    split; [done|]. split; [done|]. constructor; [|done].
    split; [done|]. split; [done|]. split; [done|]. exists i.
    destruct Hext' as (-> & -> & _). split_and!; [done| |done].
    unfold file_ino. destruct Hext as (_ & _ & Hfd & _). eapply lookup_weaken; [|exact Hfd].
    apply lookup_insert_eq.
Qed.

(** ** Replaying the log *)

Lemma norm_wal_replay log : norm <$> (wal_replay log ∅ : gmap bytes slice) = wal_replay log ∅.
Proof.
  induction log as [|e log IH] using rev_ind; [apply fmap_empty|].
  rewrite wal_replay_app. unfold wal_replay at 1 3. cbn [foldl].
  fold (wal_replay log ∅). by rewrite fmap_insert, IH.
Qed.

(** Every value of a replay was logged. *)
Lemma wal_replay_lookup log k v :
  (wal_replay log ∅ : gmap bytes slice) !! k = Some v ->
  exists e, e ∈ log /\ e.1 = k /\ v = norm e.2.
Proof.
  induction log as [|e log IH] using rev_ind; [cbn; by rewrite lookup_empty|].
  rewrite wal_replay_app. cbn. rewrite lookup_insert_Some. intros [[<- <-]|[_ Hk]].
  - exists e. split; [|done]. apply elem_of_app. right. by left.
  - destruct (IH Hk) as (e' & ? & ?). exists e'. split; [|done]. apply elem_of_app. by left.
Qed.

(** ** Open *)

Lemma stored_frame w w' t :
  w_dir w' !! sst_name t.1 = w_dir w !! sst_name t.1 ->
  (forall i, w_dir w !! sst_name t.1 = Some i -> w_data w' !! i = w_data w !! i) ->
  stored w t -> stored w' t.
Proof.
  intros Ed Ea (Hok & i & Hdir & Hdata). split; [done|]. exists i. by rewrite Ed, (Ea i Hdir).
Qed.

(** Nothing but names, contents and faults matters. *)
Lemma disk_at_same w w' log tail fl Ts :
  disk_at w log tail fl Ts -> wf_world w' -> w_dir w' = w_dir w -> w_data w' = w_data w ->
  w_faults w' = w_faults w -> disk_at w' log tail fl Ts.
Proof.
  intros [Hw Hf Hinj Hwal Htail Hlog Hfl Htab Hs Hr Hd] Hw' Ed Ea Ef.
  unfold flushing_ok, stored, dir_ok in *.
  split; unfold flushing_ok, stored, dir_ok; rewrite ?Ed, ?Ea, ?Ef; done.
Qed.

Lemma flushing_frame w w' fl :
  w_dir w' !! flushingName = w_dir w !! flushingName ->
  (forall i, w_dir w !! flushingName = Some i -> w_data w' !! i = w_data w !! i) ->
  flushing_ok w fl -> flushing_ok w' fl.
Proof.
  unfold flushing_ok. intros -> Hd. destruct (w_dir w !! flushingName) as [i|]; [|done].
  by rewrite (Hd i eq_refl).
Qed.

Lemma NewWAL_ok w log tail fl Ts :
  disk_at w log tail fl Ts ->
  exists i f w1, NewWAL walName w = (inr (mkWAL f walName 0), w1) /\ disk_at w1 log tail fl Ts /\
    w_dir w1 !! walName = Some i /\ file_ino w1 f = Some i.
Proof.
  intros Hdo. pose proof Hdo as [Hw Hf Hinj Hwal Htail Hlog Hfl Htab Hs Hr Hd].
  unfold NewWAL, os_OpenAppend, gets, mbind, IO_bind. rewrite next_outcome_ok by done.
  destruct (w_dir w !! walName) as [i|] eqn:Edir.
  - exists i, (mkFile walName (w_next w)), (opened i w).
    split; [done|]. split; [|split; [done|apply lookup_insert_eq]].
    apply (disk_at_same w); try done. apply wf_opened; [done|]. by eapply (ww_dir w Hw).
  - destruct Hwal as [-> ->]. eexists (w_next w), _, _. unfold new_inode, new_handle, ret.
    split; [done|]. split; [|split; apply lookup_insert_eq].
    assert (forall s i, w_dir w !! s = Some i -> i <> w_next w) as Hne.
    { intros s i Hi. pose proof (wf_dir_lt w s i Hw Hi). lia. }
    split; cbn; try done.
    + destruct Hw as [H1' H2' H3' H4']. split; cbn.
      * intros n Hn. rewrite lookup_insert_ne by lia. apply H1'. lia.
      * intros n Hn. rewrite lookup_insert_ne by lia. apply H2'. lia.
      * intros s j. rewrite lookup_insert_Some. intros [[_ <-]|[_ Hj]];
          apply lookup_insert_is_Some; [by left|]. right. split; [|by eapply H3'].
        intros E. by apply (Hne s j).
      * intros f j. rewrite lookup_insert_Some. intros [[_ <-]|[_ Hj]];
          apply lookup_insert_is_Some; [by left|]. right. split; [|by eapply H4'].
        intros E. apply H4' in Hj as [d Hj].
        assert (w_data w !! j = None) as HN by (apply H2'; lia). by rewrite HN in Hj.
    + intros s1 s2 j. rewrite !lookup_insert_Some.
      intros [[<- <-]|[Hn1 Hj1]] [[<- E]|[Hn2 Hj2]]; try done.
      * by destruct (Hne _ _ Hj2).
      * subst j. by destruct (Hne _ _ Hj1).
      * by eapply Hinj.
    + rewrite !lookup_insert_eq. exists [], 0. split; [done|]. split; [apply logged_nil|done].
    + apply (flushing_frame w); [by apply lookup_insert_ne| |done]. intros i Hi. cbn.
      rewrite lookup_insert_ne; [done|]. by apply not_eq_sym, (Hne flushingName).
    + eapply Forall_impl; [exact Htab|]. intros t. apply stored_frame; cbn.
      * rewrite lookup_insert_ne; [done|]. intros E. by apply (sst_name_not_wal t.1).
      * intros i Hi. rewrite lookup_insert_ne; [done|]. intros E. by apply (Hne _ _ Hi).
    + intros s Hsuf. cbn. rewrite lookup_insert_is_Some. intros [<-|[_ Hs']]; [done|by apply Hd].
Qed.

(** The log is rewritten. *)
Lemma disk_at_torn w log tail fl Ts i d top log' tail' :
  disk_at w log tail fl Ts -> w_dir w !! walName = Some i ->
  logged d top log' -> 0 <= top <= len log' -> top < 2 ^ 64 -> Forall entry_ok log' -> stops tail' ->
  disk_at (set_data (<[i := d ++ tail']> (w_data w)) w) log' tail' fl Ts.
Proof.
  intros [Hw Hf Hinj Hwal Htail Hlog Hfl Htab Hs Hr Hd] Hi Hlg Htop Ht64 Hlog' Htail'.
  rewrite Hi in Hwal. destruct Hwal as (d0 & top0 & Hd0 & _). split; cbn; try done.
  - apply wf_set_data; [done|eauto].
  - rewrite Hi, lookup_insert_eq. by exists d, top.
  - apply (flushing_frame w); [done| |done]. intros j Hj. cbn.
    rewrite lookup_insert_ne; [done|]. intros ->. by specialize (Hinj _ _ _ Hi Hj).
  - eapply Forall_impl; [exact Htab|]. intros t. apply stored_frame; cbn; [done|].
    intros j Hj. rewrite lookup_insert_ne; [done|]. intros ->.
    apply (sst_name_not_wal t.1). by eapply Hinj.
Qed.

Lemma disk_at_log w log tail fl Ts i d top log' :
  disk_at w log tail fl Ts -> w_dir w !! walName = Some i ->
  logged d top log' -> 0 <= top <= len log' -> top < 2 ^ 64 -> Forall entry_ok log' ->
  disk_at (set_data (<[i := d]> (w_data w)) w) log' [] fl Ts.
Proof.
  intros. rewrite <- (app_nil_r d). eapply disk_at_torn; try done. apply torn_stops, torn_nil.
Qed.

(** Removing the log that was set aside. *)
Lemma disk_at_remove w log tail fl Ts :
  disk_at w log tail fl Ts -> disk_ok (set_dir (delete flushingName (w_dir w)) w) log tail Ts.
Proof.
  intros [Hw Hf Hinj Hwal Htail Hlog Hfl Htab Hs Hr Hd]. split; cbn; try done.
  - destruct Hw as [H1 H2 H3 H4]. split; cbn; try done.
    intros s k. rewrite lookup_delete_Some. intros [_ ?]. eauto.
  - intros s1 s2 i. rewrite !lookup_delete_Some. intros [_ ?] [_ ?]. eauto.
  - by rewrite lookup_delete_ne.
  - apply flushing_none, lookup_delete_eq.
  - eapply Forall_impl; [exact Htab|]. intros t. apply stored_frame; cbn; [|done].
    rewrite lookup_delete_ne; [done|]. intros E. by apply (sst_name_not_flushing t.1).
  - intros s Hsuf [i Hi]. cbn in Hi. apply lookup_delete_Some in Hi as [_ Hi]. apply Hd; eauto.
Qed.

(** *** The end of [Open]: replaying the log and opening the tables *)

Lemma open_rest_ok w log tail Ts mem M0 f s0 i :
  disk_ok w log tail Ts -> w_dir w !! walName = Some i -> file_ino w f = Some i ->
  0 <= s0 <= len log -> s0 < 2 ^ 64 -> repr mem M0 ->
  (list_to_map M0 : gmap bytes slice) ⊆ wal_replay log ∅ ->
  exists db w' A, open_rest mem (mkWAL f walName s0) w = (inr db, w') /\
    engine_ok w' db log A None Ts /\ (list_to_map A : gmap bytes slice) = wal_replay log ∅ /\
    db_closed db = false /\ w_faults w' = [] /\ w_dir w' !! flushingName = None /\ dir_ok w' Ts /\
    wal_sequenceNumber (db_wal db) < 2 ^ 64.
Proof.
  intros Hdo Hdir Hino Hs0 Hs64 Hmem HM0. pose proof Hdo as [Hw Hf Hinj Hwal Htail Hlog Hfl Htab Hs Hr Hd].
  rewrite Hdir in Hwal. destruct Hwal as (d & top & Hdata & Hlg & Htop & Ht64).
  unfold open_rest, gets, mbind, IO_bind.
  destruct (Recover_logged f walName w i d (Z.max top s0) log tail s0 Hf Hino Hdata Htail)
    as (s & -> & Hss & Hlgs); [eapply logged_mono; [exact Hlg|lia]|done|lia|lia|].
  pose proof (disk_at_log w log tail None Ts i d top log Hdo Hdir Hlg Htop Ht64 Hlog)
    as [Hw2 Hf2 Hinj2 _ _ _ Hfl2 Htab2 _ _ Hd2].
  set (w2 := set_data _ w) in *. rewrite flushing_none in Hfl2.
  destruct (put_all_repr (go_range (wal_replay log ∅)) _ _ Hmem) as (sl & -> & Hrepr).
  set (A := put_entries _ M0) in *.
  assert ((list_to_map A : gmap bytes slice) = wal_replay log ∅) as HA.
  { unfold A. rewrite put_entries_map by (by eapply repr_sorted).
    fold (put_map (go_range (wal_replay log ∅)) (list_to_map M0)).
    destruct (list_to_map_perm _ _ (go_range_perm (wal_replay log ∅))) as [Hnd Em].
    rewrite put_map_union, Em by done. by apply map_union_absorb. }
  rewrite (sstables_of_ok w2 Ts); try done.
  2: { eapply Forall_impl; [exact Htab2|]. intros t (_ & j & Hj & _). eauto. }
  destruct (open_readers_ok Ts w2 Hf2 Hw2 Htab2) as (rs & w3 & -> & Hext & Hw3 & HF).
  pose proof Hext as (Ed & Ea & Hfd & Hfa & _).
  exists (mkStrataGo sl None (mkWAL f walName s) rs (ChanOpen false) false), w3, A.
  split; [done|]. split; [|split_and!; [done|done|by rewrite Hfa|by rewrite Ed|unfold dir_ok; by rewrite Ed|cbn; lia]].
  split; cbn; try done.
  - by rewrite Ed.
  - by exists false.
  - split; [done|]. split; [cbn; lia|]. split; [done|]. exists i. rewrite Ed, Ea.
    split; [done|]. split; [by eapply lookup_weaken|]. exists d. split; [apply lookup_insert_eq|done].
  - by rewrite HA, norm_wal_replay.
Qed.

(** *** The beginning of [Open]: the log that was set aside *)

Lemma restore_flushing_ok es : forall mem M0 wl w i d,
  repr mem M0 -> w_faults w = [] -> file_ino w (wal_file wl) = Some i -> w_data w !! i = Some d ->
  0 <= wal_sequenceNumber wl -> wal_sequenceNumber wl + len es < 2 ^ 64 ->
  exists mem', repr mem' (put_entries es M0) /\
    restore_flushing mem wl es w =
      (inr (mem', mkWAL (wal_file wl) (wal_path wl) (wal_sequenceNumber wl + len es)),
       set_data (<[i := d ++ wal_image (wal_sequenceNumber wl) es]> (w_data w)) w).
Proof.
  induction es as [|[k v] es IH]; intros mem M0 [f p s] w i d Hm Hf Hi Hd Hs Hl;
    cbn [wal_file wal_path wal_sequenceNumber] in *.
  - exists mem. split; [done|]. cbn [restore_flushing wal_image]. rewrite app_nil_r, insert_id by done.
    rewrite len_nil, Z.add_0_r. unfold ret. by destruct w.
  - rewrite len_cons in *. pose proof (len_nonneg es). cbn [restore_flushing].
    destruct (SkipList_Put_spec mem M0 k v Hm) as (mem1 & -> & Hm1). unfold mbind, IO_bind.
    rewrite (WriteEntry_ok _ (k, v) w i d) by (cbn; done || lia). cbn [wal_file wal_path wal_sequenceNumber].
    destruct (IH mem1 _ (mkWAL f p (s + 1)) (set_data (<[i := d ++ wal_record (s + 1) (k, v)]> (w_data w)) w)
      i (d ++ wal_record (s + 1) (k, v)) Hm1) as (mem' & Hm' & E);
      cbn [wal_sequenceNumber] in *; try done; try lia; [apply lookup_insert_eq|].
    exists mem'. split; [exact Hm'|]. cbn [wal_file wal_path] in E. rewrite E.
    unfold set_data. cbn. rewrite insert_insert_eq, <- app_assoc. do 4 f_equal. lia.
Qed.

(** The entries of a log that was set aside, in the order in which they are
    written to the new log. *)
Definition reordered (es fl : list (bytes * slice)) : Prop := fl ≡ₚ map_to_list (wal_replay es ∅).

Lemma reordered_replay log es fl :
  reordered es fl ->
  (wal_replay (log ++ fl) ∅ : gmap bytes slice) = wal_replay es ∅ ∪ wal_replay log ∅.
Proof.
  intros HP. rewrite wal_replay_app. generalize (wal_replay log ∅ : gmap bytes slice). intros m.
  unfold reordered in HP.
  assert (Forall (fun e : bytes * slice => Some (slice_bytes e.2) = e.2) fl) as Hn.
  { rewrite HP. apply Forall_forall. intros [k v] Hkv%elem_of_map_to_list.
    rewrite <- norm_wal_replay, lookup_fmap in Hkv. apply fmap_Some in Hkv as (u & _ & ->). done. }
  transitivity (put_map fl m).
  - clear HP. revert m. induction Hn as [|e fl He _ IH]; intros m; [done|].
    cbn [wal_replay foldl]. rewrite He. apply IH.
  - apply list_to_map_perm in HP as [Hnd Em]. by rewrite put_map_union, Em.
Qed.

(** Replaying a log after another one. *)
Lemma wal_replay_over (log es : list (bytes * slice)) :
  (wal_replay (log ++ es) ∅ : gmap bytes slice) = wal_replay es ∅ ∪ wal_replay log ∅.
Proof.
  induction es as [|e es IH] using rev_ind; [by rewrite app_nil_r; cbn; rewrite (left_id_L ∅ (∪))|].
  rewrite app_assoc, !(wal_replay_app _ [e]), IH. cbn. by rewrite insert_union_l.
Qed.

Lemma reordered_len es fl : reordered es fl -> len fl <= len es.
Proof.
  intros HP. unfold len. rewrite (HP : fl ≡ₚ map_to_list _), length_map_to_list.
  clear HP fl. induction es as [|e es IH] using rev_ind; [done|].
  rewrite wal_replay_app, length_app. cbn. rewrite map_size_insert. case_match; unfold id; lia.
Qed.

Lemma reordered_ok es fl : reordered es fl -> Forall entry_ok es -> Forall entry_ok fl.
Proof.
  intros HP Hok. unfold reordered in HP. rewrite HP. apply Forall_forall.
  intros [k v] Hkv%elem_of_map_to_list. destruct (wal_replay_lookup _ _ _ Hkv) as (e & Hin & <- & ->).
  rewrite Forall_forall in Hok. apply (Hok e Hin).
Qed.

Lemma logged_app d top es fl :
  logged d top es -> logged (d ++ wal_image 0 fl) (Z.max top (len fl)) (es ++ fl).
Proof.
  intros (ss & Hl & Hs & ->). destruct (logged_image fl) as (ss' & Hl' & Hs' & ->).
  exists (ss ++ ss'). split; [by rewrite !length_app, Hl, Hl'|]. split.
  - apply Forall_app. split; (eapply Forall_impl; [eassumption|]); cbn; lia.
  - unfold wal_records. by rewrite zip_with_app, concat_app.
Qed.

(** The log of the interrupted flush is opened and read. *)
Lemma aside_log_ok w log es Ts :
  disk_at w log [] (Some es) Ts ->
  exists j ft s, w_dir w !! flushingName = Some j /\ f_fd ft = w_next w /\
    NewWAL flushingName w = (inr (mkWAL ft flushingName 0), opened j w) /\
    file_ino (opened j w) ft = Some j /\
    WAL_Recover (mkWAL ft flushingName 0) (opened j w) =
      ((inr (wal_replay es ∅), mkWAL ft flushingName s), opened j w).
Proof.
  intros Hdo. pose proof (do_faults _ _ _ _ _ Hdo) as Hf. pose proof (do_flushing _ _ _ _ _ Hdo) as Hfl.
  unfold flushing_ok in Hfl. destruct (w_dir w !! flushingName) as [j|] eqn:Ej; [|done].
  destruct Hfl as (df & topf & Hdf & Hlgf & Htopf & Hokf & _). set (ft := mkFile flushingName (w_next w)).
  assert (file_ino (opened j w) ft = Some j) as Hft by apply lookup_insert_eq.
  destruct (Recover_logged ft flushingName (opened j w) j df topf es [] 0 Hf Hft) as (s & Er & _);
    [by rewrite app_nil_r|apply torn_stops, torn_nil|done|done|lia|lia|].
  assert (set_data (<[j := df]> (w_data (opened j w))) (opened j w) = opened j w) as E
    by (unfold set_data, opened; cbn; by rewrite insert_id).
  rewrite E in Er. exists j, ft, s. split; [done|]. split; [done|]. split; [|done].
  unfold NewWAL, os_OpenAppend, gets, mbind, IO_bind. by rewrite next_outcome_ok, Ej by done.
Qed.

Lemma disk_at_close w log tail fl Ts f :
  disk_at w log tail fl Ts -> disk_at (set_fds (delete f (w_fds w)) w) log tail fl Ts.
Proof.
  intros Hd. apply (disk_at_same w); try done. destruct (do_wf _ _ _ _ _ Hd) as [H1 H2 H3 H4]. split; try done.
  - intros n Hn. cbn. rewrite lookup_delete_None. right. by apply H1.
  - intros g k. unfold file_ino. cbn. rewrite lookup_delete_Some. intros [_ ?]. by apply (H4 g).
Qed.

Lemma recover_flushing_ok w log es Ts mem f i :
  disk_at w log [] (Some es) Ts -> w_dir w !! walName = Some i -> file_ino w f = Some i ->
  repr mem [] ->
  exists mem' w' fl, recover_flushing mem (mkWAL f walName 0) w =
      (inr (mem', mkWAL f walName (len fl)), w') /\
    reordered es fl /\ len fl < 2 ^ 64 /\ repr mem' (put_entries fl []) /\
    disk_ok w' (log ++ fl) [] Ts /\ w_dir w' !! walName = Some i /\ file_ino w' f = Some i.
Proof.
  intros Hdo Hdir Hino Hmem. pose proof Hdo as [Hw Hf _ Hwal _ Hlog Hfl _ _ _ _].
  rewrite Hdir in Hwal. destruct Hwal as (d & top & Hdata & Hlg & Htop & Ht64).
  destruct (aside_log_ok _ _ _ _ Hdo) as (j & ft & s & Ej & Eft & En & Hft & Er).
  unfold flushing_ok in Hfl. rewrite Ej in Hfl. destruct Hfl as (_ & _ & _ & _ & _ & Hokf & Hsize).
  set (m := wal_replay es ∅) in *. set (fl := go_range m).
  assert (reordered es fl) as HP by apply go_range_perm.
  assert (len fl < 2 ^ 64) as Hlen by (unfold len; by rewrite (HP : fl ≡ₚ map_to_list m), length_map_to_list).
  unfold recover_flushing, gets, mbind, IO_bind, os_Stat_Size. rewrite Ej, En, Er. unfold ret. fold fl.
  pose proof (wf_fd_lt w f i Hw Hino) as Hlt.
  assert (file_ino (opened j w) f = Some i) as Hino1.
  { unfold file_ino. cbn. by rewrite lookup_insert_ne by lia. }
  rewrite app_nil_r in Hdata.
  destruct (restore_flushing_ok fl mem [] (mkWAL f walName 0) (opened j w) i d Hmem Hf Hino1 Hdata)
    as (mem' & Hm' & E); cbn [wal_sequenceNumber]; [done|lia|].
  cbn [wal_file wal_path wal_sequenceNumber] in E. rewrite Z.add_0_l in E. rewrite E.
  set (w2 := set_data _ (opened j w)).
  assert (disk_at (opened j w) log [] (Some es) Ts) as Hdo1
    by (apply (disk_at_same w); try done; apply wf_opened; [done|by eapply (ww_dir w Hw)]).
  pose proof (disk_at_log _ _ _ _ _ i _ _ (log ++ fl) Hdo1 Hdir (logged_app d top log fl Hlg)) as Hdo2.
  fold w2 in Hdo2. rewrite len_app in Hdo2. pose proof (len_nonneg fl) as Hfl0.
  specialize (Hdo2 ltac:(lia) ltac:(lia)
    ltac:(apply Forall_app; split; [done|by apply (reordered_ok es)])).
  unfold WAL_Close. cbn [wal_file]. unfold file_Close.
  assert (file_ino w2 ft = Some j) as -> by done. rewrite next_outcome_ok by done.
  pose proof (disk_at_close _ _ _ _ _ (f_fd ft) Hdo2) as Hdo3. set (w3 := set_fds _ w2) in *.
  unfold os_Remove. assert (w_dir w3 !! flushingName = Some j) as -> by done.
  rewrite next_outcome_ok by done.
  exists mem', (set_dir (delete flushingName (w_dir w3)) w3), fl.
  split; [done|]. split; [done|]. split; [done|]. split; [done|].
  split; [by eapply disk_at_remove|]. split; [cbn; by rewrite lookup_delete_ne|].
  unfold file_ino. cbn. rewrite Eft, lookup_delete_ne, lookup_insert_ne by lia. done.
Qed.

(** *** [Open] *)

(** what follows the log entries [log] after the recovery *)
Definition recovered (fl : option (list (bytes * slice))) (es : list (bytes * slice)) : Prop :=
  match fl with None => es = [] | Some fl => reordered fl es end.

Lemma Open_at w log tail fl Ts :
  disk_at w log tail fl Ts -> (fl <> None -> tail = []) ->
  exists db w' A es, Open w = (inr db, w') /\ recovered fl es /\
    engine_ok w' db (log ++ es) A None Ts /\
    (list_to_map A : gmap bytes slice) = wal_replay (log ++ es) ∅ /\
    db_closed db = false /\ w_faults w' = [] /\ w_dir w' !! flushingName = None /\
    dir_ok w' Ts /\ wal_sequenceNumber (db_wal db) < 2 ^ 64.
Proof.
  intros Hdo Htl. unfold Open, and_then at 1, and_bind, mbind, IO_bind, os_MkdirAll.
  rewrite next_outcome_ok by apply (do_faults _ _ _ _ _ Hdo). unfold gets.
  destruct (NewWAL_ok w log tail fl Ts Hdo) as (i & f & w1 & -> & Hdo1 & Hdir & Hino).
  destruct fl as [fl|].
  - rewrite Htl in * by done.
    destruct (recover_flushing_ok w1 log fl Ts _ f i Hdo1 Hdir Hino (NewSkipList_repr (go_coins w)))
      as (mem' & w2 & es & -> & HP & Hlen & Hm & Hdo2 & Hdir2 & Hino2).
    destruct (open_rest_ok w2 _ [] Ts mem' (put_entries es []) f (len es) i Hdo2 Hdir2 Hino2)
      as (db & w3 & A & E & H1); [rewrite len_app; pose proof (len_nonneg log); pose proof (len_nonneg es); lia
        |lia|done| |by exists db, w3, A, es].
    rewrite (reordered_replay log fl) by done. rewrite put_entries_map by constructor.
    fold (put_map es (list_to_map [])).
    destruct (list_to_map_perm _ _ HP) as [Hnd Em]. rewrite put_map_union, Em by done.
    change (list_to_map []) with (∅ : gmap bytes slice). rewrite (right_id_L ∅ (∪)).
    apply map_union_subseteq_l.
  - pose proof (proj1 (flushing_none _) (do_flushing _ _ _ _ _ Hdo1)) as Hfl1.
    unfold recover_flushing, gets, mbind, IO_bind, os_Stat_Size. rewrite Hfl1. unfold ret.
    destruct (open_rest_ok w1 log tail Ts (NewSkipList (go_coins w)) [] f 0 i Hdo1 Hdir Hino) as (db & w3 & A & E & H1);
      [pose proof (len_nonneg log); lia|lia|apply NewSkipList_repr|apply map_empty_subseteq|].
    exists db, w3, A, []. rewrite app_nil_r. done.
Qed.

Lemma Open_ok w log tail Ts :
  disk_ok w log tail Ts ->
  exists db w' A, Open w = (inr db, w') /\ engine_ok w' db log A None Ts /\
    (list_to_map A : gmap bytes slice) = wal_replay log ∅ /\
    db_closed db = false /\ w_faults w' = [] /\ w_dir w' !! flushingName = None /\
    dir_ok w' Ts.
Proof.
  intros Hdo. destruct (Open_at w log tail None Ts Hdo) as (db & w' & A & es & E & -> & H1); [done|].
  rewrite app_nil_r in H1. exists db, w', A. tauto.
Qed.
End recovery.

(** ** Client programs *)

Inductive op := OpPut (key : bytes) (value : slice) | OpDelete (key : bytes).

(** what an operation logs *)
Definition op_entry (o : op) : bytes * slice :=
  match o with OpPut k v => (k, v) | OpDelete k => (k, None) end.

(** the answer for [k] after the operation, given the one before *)
Definition op_answer (k : bytes) (a : option bytes) (o : op) : option bytes :=
  if decide (k = (op_entry o).1) then (op_entry o).2 else a.

(** a crash: the handles are gone, the directory stays *)
Definition crash (w : World) : World :=
  mkWorld (w_dir w) (w_data w) ∅ (w_next w) (w_now w) [].

Section clients.
Context `{Murmur3} `{Runtime}.

Definition run_op (o : op) (db : StrataGo) : IO (err * StrataGo) :=
  match o with
  | OpPut k v => StrataGo_Put db k v
  | OpDelete k => StrataGo_Delete db k
  end.

Fixpoint run_ops (ops : list op) (db : StrataGo) : IO (err * StrataGo) :=
  match ops with
  | [] => ret (None, db)
  | o :: ops' =>
      '(r, db') ← run_op o db;
      match r with
      | Some e => ret (Some e, db')
      | None => run_ops ops' db'
      end
  end.

Definition op_ok (o : op) : Prop := entry_ok (op_entry o).

(** One operation, as a write of its entry. *)
Lemma run_op_ok w db log A I Ts o :
  engine_ok w db log A I Ts -> db_closed db = false -> w_faults w = [] ->
  op_ok o -> wal_sequenceNumber (db_wal db) + 1 < 2 ^ 64 ->
  exists db' w', run_op o db w = ((None, db'), w') /\
    engine_ok w' db' (log ++ [op_entry o]) (entries_put (op_entry o).1 (op_entry o).2 A) I Ts /\
    (forall r t, table_ok w r t -> table_ok w' r t) /\
    w_faults w' = [] /\ w_dir w' = w_dir w /\ db_closed db' = false.
Proof.
  intros He Hc Hf Ho Hl.
  destruct o as [k v|k]; [by apply (Put_ok w db log A)|by apply (Delete_ok w db log A)].
Qed.

(** Every operation takes the next sequence number. *)
Lemma run_op_seq o db w r db' w' :
  db_closed db = false -> run_op o db w = ((r, db'), w') ->
  wal_sequenceNumber (db_wal db') = u64 (wal_sequenceNumber (db_wal db) + 1).
Proof.
  intros Hc. assert (forall k v x, (WAL_WriteEntry (db_wal db) k v x).1.2 =
    mkWAL (wal_file (db_wal db)) (wal_path (db_wal db)) (u64 (wal_sequenceNumber (db_wal db) + 1))) as Hw.
  { intros k v x. unfold WAL_WriteEntry, mbind, IO_bind. destruct (file_Write _ _ x) as [[e|] x1]; [done|].
    by destruct (file_Sync _ x1). }
  destruct o as [k v|k]; cbn [run_op]; unfold StrataGo_Put, StrataGo_Delete, mbind, IO_bind; rewrite Hc;
    (match goal with |- context [WAL_WriteEntry _ ?a ?b _] => specialize (Hw a b w) end);
    (destruct (WAL_WriteEntry _ _ _ w) as [[[e|] wl] w1]; cbn [fst snd] in Hw; subst wl;
       [by intros [= <- <- <-]|]);
    unfold apply_write, signal_flush, ret; cbn [set_wal set_active db_activeMemtable db_flushChan];
    (destruct (SkipList_Put _ _ _) as [mem|]; [|by intros [= <- <- <-]]);
    (destruct (DefaultMemtableThreshold <=? _); [|by intros [= <- <- <-]]);
    destruct (db_flushChan db); by intros [= <- <- <-].
Qed.

Lemma run_ops_ok I Ts ops : forall w db log A,
  engine_ok w db log A I Ts -> db_closed db = false -> w_faults w = [] ->
  Forall op_ok ops -> len log + len ops < 2 ^ 64 ->
  exists db' w' A', run_ops ops db w = ((None, db'), w') /\
    engine_ok w' db' (log ++ (op_entry <$> ops)) A' I Ts /\
    (forall k, answer A' I (Ts.*2) k = foldl (op_answer k) (answer A I (Ts.*2) k) ops) /\
    w_faults w' = [] /\ w_dir w' = w_dir w /\ db_closed db' = false.
Proof.
  induction ops as [|o ops IH]; intros w db log A He Hc Hf Hok Hlen.
  - exists db, w, A. rewrite app_nil_r. done.
  - apply Forall_cons in Hok as [Ho Hok]. rewrite len_cons in Hlen. pose proof (len_nonneg ops).
    pose proof (repr_sorted _ _ (eo_active _ _ _ _ _ _ He)) as Hs.
    pose proof (engine_seq _ _ _ _ _ _ He) as Hseq.
    destruct (run_op_ok w db log A I Ts o He Hc Hf Ho ltac:(lia))
      as (db' & w' & E & He' & _ & Hf' & Hd' & Hc').
    destruct (IH w' db' _ _ He' Hc' Hf' Hok) as (db2 & w2 & A2 & E2 & He2 & Ha2 & Hf2 & Hd2 & Hc2);
      [lens|].
    exists db2, w2, A2. cbn [run_ops]. unfold mbind, IO_bind. rewrite E, E2.
    split; [done|]. rewrite fmap_cons. rewrite <- app_assoc in He2. split; [done|].
    split; [|split_and!; [done|congruence|done]].
    intros k. rewrite Ha2. cbn [foldl]. f_equal. unfold op_answer. by apply answer_put.
Qed.

(** what an engine answers right after it has been opened *)
Definition initial_answer (log : list (bytes * slice)) (Ts : list (Z * list (bytes * slice)))
    (k : bytes) : option bytes :=
  match (wal_replay log ∅ : gmap bytes slice) !! k with
  | Some v => v
  | None => tables_map (Ts.*2) !! k ≫= nonempty
  end.

Lemma answer_initial log A Ts k :
  (list_to_map A : gmap bytes slice) = wal_replay log ∅ ->
  answer A None (Ts.*2) k = initial_answer log Ts k.
Proof.
  intros HA. unfold answer, memory_map. rewrite HA.
  change (list_to_map (default [] None)) with (∅ : gmap bytes slice).
  by rewrite (right_id_L ∅ (∪)).
Qed.

(** What is on the disk after a crash. *)
Lemma crash_disk w db log A I Ts fl Ts' :
  engine_ok w db log A I Ts -> wal_sequenceNumber (db_wal db) < 2 ^ 64 ->
  flushing_ok w fl -> Forall (stored w) Ts' -> StronglySorted Z.lt (Ts'.*1) ->
  Forall (fun t => - 2 ^ 63 <= t.1 < 2 ^ 63) Ts' -> dir_ok w Ts' ->
  disk_at (crash w) log [] fl Ts'.
Proof.
  intros [Hwf Hinj Hc Hact Himm (Hp & Hseq & Hlok & i & Hdir & Hino & d & Hdata & Hlg) Hlog _ _ _]
    Hl Hfl Htab Hs Hr Hd.
  split; cbn; try done.
  - destruct Hwf as [H1 H2 H3 H4]. split; cbn; done.
  - rewrite Hdir. exists d. rewrite app_nil_r. eauto.
  - apply torn_stops, torn_nil.
Qed.

Lemma tables_stored w rs Ts : Forall2 (table_ok w) rs Ts -> Forall (stored w) Ts.
Proof.
  induction 1 as [|r t rs Ts Ht _ IH]; [constructor|]. constructor; [|done].
  destruct Ht as (Hok & _ & _ & i & Hdir & _ & Hdata). split; [done|]. by exists i.
Qed.

Lemma crash_disk_ok w db log A Ts :
  engine_ok w db log A None Ts -> wal_sequenceNumber (db_wal db) < 2 ^ 64 ->
  w_dir w !! flushingName = None -> dir_ok w Ts -> disk_ok (crash w) log [] Ts.
Proof.
  intros He Hl Hfl Hd. eapply crash_disk; [exact He|done|by apply flushing_none| | | |done].
  - eapply tables_stored, He.
  - apply He.
  - apply He.
Qed.

Lemma initial_answer_app log ops Ts k :
  initial_answer (log ++ (op_entry <$> ops)) Ts k =
  foldl (fun a o => if decide (k = (op_entry o).1) then norm (op_entry o).2 else a)
    (initial_answer log Ts k) ops.
Proof.
  induction ops as [|o ops IH] using rev_ind; [cbn; by rewrite app_nil_r|].
  rewrite fmap_app, app_assoc, foldl_snoc, <- IH. unfold initial_answer.
  rewrite wal_replay_app. cbn. case_decide as E.
  - by rewrite E, lookup_insert_eq.
  - by rewrite lookup_insert_ne.
Qed.

(** The two readings of the operations agree on a key whose last value is not nil. *)
Lemma foldl_norm_last k a ops :
  (forall o, last (filter (fun o => (op_entry o).1 = k) ops) = Some o -> is_Some (op_entry o).2) ->
  foldl (fun a o => if decide (k = (op_entry o).1) then norm (op_entry o).2 else a) a ops =
  foldl (op_answer k) a ops.
Proof.
  induction ops as [|o ops IH] using rev_ind; [done|]. rewrite !foldl_snoc, filter_app.
  unfold op_answer at 1. rewrite filter_cons, filter_nil. intros Hlast. case_decide as E.
  - destruct (Hlast o) as [v Hv]; [by rewrite last_snoc|].
    by rewrite !(decide_True (P := k = (op_entry o).1)), Hv.
  - rewrite app_nil_r in Hlast. rewrite !(decide_False (P := k = (op_entry o).1)) by congruence.
    auto.
Qed.

(** a session: open the directory and run some operations *)
Definition session (ops : list op) : IO (result StrataGo) :=
  and_bind Open (fun e => ret (inl e)) (fun db =>
  '(r, db') ← run_ops ops db;
  ret (match r with Some e => inl e | None => inr db' end)).

Lemma session_ok w log tail Ts ops :
  disk_ok w log tail Ts -> Forall op_ok ops -> len log + len ops < 2 ^ 64 ->
  exists db w' A, session ops w = (inr db, w') /\
    engine_ok w' db (log ++ (op_entry <$> ops)) A None Ts /\
    (forall k, answer A None (Ts.*2) k = foldl (op_answer k) (initial_answer log Ts k) ops) /\
    w_faults w' = [] /\ db_closed db = false /\ w_dir w' !! flushingName = None /\ dir_ok w' Ts.
Proof.
  intros Hdo Hok Hlen. destruct (Open_ok w log tail Ts Hdo)
    as (db & w1 & A & E & He & HA & Hc & Hf & Hfl & Hdir).
  destruct (run_ops_ok None Ts ops w1 db log A He Hc Hf Hok Hlen)
    as (db' & w2 & A' & E2 & He2 & Ha & Hf2 & Hd2 & Hc2).
  exists db', w2, A'. unfold session, and_bind, mbind, IO_bind. rewrite E, E2.
  split; [done|]. split; [done|]. split; [|split_and!; [done|done|congruence|unfold dir_ok; by rewrite Hd2]].
  intros k. by rewrite Ha, (answer_initial log).
Qed.

(** The same on a directory with a log that was set aside. *)
Lemma session_at_ok w log tail fl Ts ops :
  disk_at w log tail fl Ts -> (fl <> None -> tail = []) -> Forall op_ok ops ->
  len log + len (default [] fl) + len ops < 2 ^ 64 ->
  exists db w' A es, session ops w = (inr db, w') /\
    (forall k, initial_answer (log ++ es) Ts k = initial_answer (log ++ default [] fl) Ts k) /\
    engine_ok w' db ((log ++ es) ++ (op_entry <$> ops)) A None Ts /\
    (forall k, answer A None (Ts.*2) k = foldl (op_answer k) (initial_answer (log ++ default [] fl) Ts k) ops) /\
    wal_sequenceNumber (db_wal db) < 2 ^ 64 /\ w_dir w' !! flushingName = None /\ dir_ok w' Ts.
Proof.
  intros Hdo Htl Hok Hlen. destruct (Open_at w log tail fl Ts Hdo Htl)
    as (db & w1 & A & es & E & Hrec & He & HA & Hc & Hf & Hfl & Hdir & Hq).
  assert (len es <= len (default [] fl)) as Hes.
  { destruct fl as [fl|]; cbn [recovered default id] in *; [by apply reordered_len|by subst es]. }
  destruct (run_ops_ok None Ts ops w1 db (log ++ es) A He Hc Hf Hok ltac:(rewrite len_app; lia))
    as (db' & w2 & A' & E2 & He2 & Ha & Hf2 & Hd2 & Hc2).
  assert (forall k, initial_answer (log ++ es) Ts k = initial_answer (log ++ default [] fl) Ts k) as Hinit.
  { intros k. unfold initial_answer. destruct fl as [fl|]; cbn [recovered default id] in *; [|by subst es].
    by rewrite (reordered_replay _ fl), <- wal_replay_over. }
  exists db', w2, A', es. unfold session, and_bind, mbind, IO_bind. rewrite E, E2.
  split; [done|]. split; [done|]. split; [done|]. split; [|split; [|split; [congruence|unfold dir_ok; by rewrite Hd2]]].
  - intros k. by rewrite Ha, (answer_initial (log ++ es)), Hinit.
  - pose proof (engine_seq _ _ _ _ _ _ He2) as [_ Hs]. revert Hs. rewrite !len_app. unfold len in *.
    rewrite length_fmap. lia.
Qed.

(** ** Properties *)

(** C1: The engine is a map.  Opened on any well-formed data directory, torn
    log tail included, it accepts every sequence of [Put]s and [Delete]s without
    an error, and afterwards [Get] answers for every key the last value written
    to it (nothing after a delete), or what the directory held before; for keys
    on which no table lookup runs past its entries. *)
Theorem engine_refines_map (w : World) (log : list (bytes * slice)) (tail : bytes)
    (Ts : list (Z * list (bytes * slice))) (ops : list op)
    (Hd : disk_ok w log tail Ts) (Hops : Forall op_ok ops) (Hlen : len log + len ops < 2 ^ 64) :
  exists db w', session ops w = (inr db, w') /\
    forall k, clean_lookup Ts k ->
      StrataGo_Get w' db k = Some (foldl (op_answer k) (initial_answer log Ts k) ops).
Proof.
  destruct (session_ok w log tail Ts ops Hd Hops Hlen) as (db & w' & A & E & He & Ha & _).
  exists db, w'. split; [done|]. intros k Hk. by rewrite (Get_ok _ _ _ _ _ _ k He Hk), Ha.
Qed.

End clients.

(** ** Witnesses and counterexamples *)

(** a runtime that visits maps in the order of the implementation of [gmap] and
    throws tails only *)
Definition plain_runtime : Runtime :=
  {| go_range m := map_to_list m; go_range_perm m := reflexivity _; go_coins _ := [] |}.

Definition empty_disk : World := mkWorld ∅ ∅ ∅ 0%nat 1000 [].

Lemma empty_disk_ok : disk_ok (H := fnv) empty_disk [] [] [].
Proof.
  split; try done.
  - apply torn_stops, torn_nil.
  - constructor.
  - intros s _ [i Hi]. cbn in Hi. by rewrite lookup_empty in Hi.
Qed.

(** a directory with one table, one logged entry and a torn record *)
Definition old_log : list (bytes * slice) := [([x62], Some [x05])].
Definition old_tail : bytes := take 7 (wal_record 2 ([x63], Some [x01])).
Definition used_disk : World :=
  mkWorld {[sst_name 5 := 0%nat; walName := 1%nat]}
    {[0%nat := sst_bytes (H := fnv) table1; 1%nat := wal_image 0 old_log ++ old_tail]} ∅ 2%nat 1000 [].

Lemma used_disk_ok : disk_ok (H := fnv) used_disk old_log old_tail [(5, table1)].
Proof.
  split; unfold used_disk; cbn [w_dir w_data w_fds w_next w_faults].
  - split; cbn [w_dir w_data w_fds w_next].
    + done.
    + intros n Hn. rewrite lookup_insert_ne, lookup_singleton_ne by lia. done.
    + intros s i. rewrite lookup_insert_Some, lookup_singleton_Some.
      intros [[_ <-]|[_ [_ <-]]]; vm_compute; eauto.
    + intros f i Hi. by rewrite lookup_empty in Hi.
  - done.
  - intros s1 s2 i. rewrite !lookup_insert_Some, !lookup_singleton_Some.
    intros [[<- <-]|[_ [<- <-]]] [[<- E]|[_ [<- E]]]; done.
  - rewrite lookup_insert_ne, lookup_singleton_eq by done.
    exists (wal_image 0 old_log), 1. split; [by vm_compute|]. split; [apply logged_image|done].
  - apply torn_stops. exists 2, ([x63], Some [x01]), 7%nat. split_and!; try done; cbn; lia.
  - repeat constructor.
  - vm_compute. reflexivity.
  - apply Forall_singleton. split; [exact table1_ok|]. exists 0%nat. split; vm_compute; reflexivity.
  - repeat constructor.
  - apply Forall_singleton. cbn. lia.
  - intros s Hs. cbn [w_dir]. rewrite lookup_insert_is_Some, lookup_singleton_is_Some.
    intros [<-|[_ <-]]; [exists (5, table1); split; [by apply list_elem_of_singleton|done]|].
    vm_compute in Hs. discriminate.
Qed.

Definition ops1 : list op :=
  [OpPut [x61] (Some [x09]); OpDelete [x62]; OpPut [x64] None; OpPut [x65] (Some [x07])].

Lemma ops1_ok : Forall op_ok ops1.
Proof. repeat constructor. Qed.

Lemma engine_refines_map_witness :
  exists db w', session (H0 := plain_runtime) ops1 used_disk = (inr db, w') /\
    forall k, clean_lookup (H := fnv) [(5, table1)] k ->
      StrataGo_Get (H := fnv) w' db k =
        Some (foldl (op_answer k) (initial_answer old_log [(5, table1)] k) ops1).
Proof.
  apply (engine_refines_map (H := fnv) (H0 := plain_runtime) used_disk old_log old_tail
    [(5, table1)] ops1 used_disk_ok ops1_ok). vm_compute. reflexivity.
Defined.

(** the answer for [k] of an engine that was opened successfully *)
Definition get_after (r : result StrataGo * World) (k : bytes) : option (option bytes) :=
  match r with
  | (inr db, w) => StrataGo_Get (H := fnv) w db k
  | (inl _, _) => None
  end.

(** A tombstone does not survive a restart.  The log has no way to record
    a nil value, so after a crash a deleted key is found again, with an empty
    value, although it was reported as missing before. *)
Theorem deleted_key_found_after_restart :
  let r := session (H0 := plain_runtime)
             [OpPut [x61] (Some [x01]); OpDelete [x61]] empty_disk in
  get_after r [x61] = Some None /\
  get_after (Open (H0 := plain_runtime) (crash r.2)) [x61] = Some (Some []).
Proof. vm_compute. split; reflexivity. Qed.
