(* ===== verification/Flush.v ===== *)
(** * Flushing: [engine/flush.go]

    [Flush] holds the lock only in parts: rotation of the memtable and the log,
    the installation of the new table.  The parts are separate functions, which
    [StrataGo_Flush] composes as the code does; the interleavings of the parts
    with the operations of clients are the step relation at the end. *)
From stdpp Require Import base gmap sets list strings numbers sorting.
From Stdlib Require Import ZArith Lia Strings.Byte.
From S2P Require Import Prelude SkipList Disk Wal Bloom GoFmt Sst Reader Engine Recovery.
Open Scope Z_scope.

Inductive build_result :=
| Built (reader : Reader) (verified : Z)   (* the table, and the number of keys read back *)
| BuildFailed (e : error)                  (* [recoverFromFlushFailure(e)] *)
| BuildError (e : error).                  (* [return e] *)

Section flush.
Context `{Murmur3} `{Runtime}.

(** the first locked part: [Some r] is [return r], [None] goes on *)
Definition flush_rotate (db : StrataGo) : IO (option err * StrataGo) :=
  match db_immutableMemtable db with
  | Some _ => ret (None, db)
  | None =>
      if sl_Size (db_activeMemtable db) =? 0 then ret (Some None, db) else
      new ← gets (fun w => NewSkipList (go_coins w));
      let db1 := set_active new (set_immutable (Some (db_activeMemtable db)) db) in
      let undone := set_immutable None (set_active (db_activeMemtable db) db1) in
      and_then (WAL_Close (db_wal db)) (fun e => ret (Some (Some e), undone)) (
      and_then (os_Rename walName flushingName) (fun e => ret (Some (Some e), undone)) (
      r ← NewWAL walName;
      match r with
      | inl e => _ ← os_Rename flushingName walName; ret (Some (Some e), undone)
      | inr newWal => ret (None, set_wal newWal db1)
      end))
  end.

(** the part without the lock *)
Definition flush_build (db : StrataGo) : IO build_result :=
  now ← gets w_now;
  let sstPath := sst_name now in
  and_bind (NewBuilder sstPath) (fun e => ret (BuildFailed e)) (fun builder =>
  match db_immutableMemtable db with
  | None => ret (BuildError Panic)
  | Some imm =>
      and_then (Builder_Flush builder imm) (fun e => ret (BuildFailed e)) (
      and_bind (NewReader sstPath) (fun e => ret (BuildError e)) (fun reader =>
      verifyData ← gets (fun w => Reader_ReadAll w reader);
      match verifyData with
      | inl e =>
          _ ← Reader_Close reader;
          _ ← os_Remove sstPath;
          ret (BuildFailed (ErrWrap "SSTable verification failed" e))
      | inr m => ret (Built reader (Z.of_nat (size m)))
      end))
  end).

(** [WriteEntry] of every entry, errors only printed *)
Fixpoint relog (wal : WAL) (es : list (bytes * slice)) : IO WAL :=
  match es with
  | [] => ret wal
  | (k, v) :: es' => '(_, wal') ← WAL_WriteEntry wal k v; relog wal' es'
  end.

Definition recoverFromFlushFailure (db : StrataGo) (originalErr : error) : IO (err * StrataGo) :=
  match db_immutableMemtable db ≫= SkipList_entries with
  | None => ret (Some Panic, db)
  | Some es =>
      wal ← relog (db_wal db) es;
      ret (Some (ErrWrap "flush failed, data preserved" originalErr),
           set_immutable None (set_wal wal db))
  end.

(** the second locked part *)
Definition flush_install (db : StrataGo) (reader : Reader) : StrataGo :=
  set_immutable None (set_readers (db_sstReaders db ++ [reader]) db).

(** what follows the build: the size check, the installation, the removal of
    the old log *)
Definition flush_finish (db : StrataGo) (b : build_result) : IO (err * StrataGo) :=
  match b with
  | BuildFailed e => recoverFromFlushFailure db e
  | BuildError e => ret (Some e, db)
  | Built reader verified =>
      match db_immutableMemtable db with
      | None => ret (Some Panic, db)
      | Some imm =>
          if negb (verified =? sl_Size imm) then
            _ ← Reader_Close reader;
            _ ← os_Remove (Reader_Path reader);
            recoverFromFlushFailure db (ErrMsg "SSTable size mismatch")
          else
            let db' := flush_install db reader in
            _ ← os_Remove flushingName;
            ret (None, db')
      end
  end.

Definition StrataGo_Flush (db : StrataGo) : IO (err * StrataGo) :=
  '(r, db1) ← flush_rotate db;
  match r with
  | Some e => ret (e, db1)
  | None => b ← flush_build db1; flush_finish db1 b
  end.
End flush.

(** ** Worlds *)

Lemma table_ok_frame `{Murmur3} w w' r t :
  w_dir w' !! sst_name t.1 = w_dir w !! sst_name t.1 ->
  file_ino w' (r_file r) = file_ino w (r_file r) ->
  (forall i, w_dir w !! sst_name t.1 = Some i -> w_data w' !! i = w_data w !! i) ->
  table_ok w r t -> table_ok w' r t.
Proof.
  intros Ed Ef Ea (Hok & Er & Hn & i & Hdir & Hino & Hdata).
  split_and!; [done..|]. exists i. by rewrite Ed, Ef, (Ea i Hdir).
Qed.

(** the world after the log has been rotated; [i] is the inode of the old log *)
Definition rotated (f : File) (i : ino) (w : World) : World :=
  mkWorld (<[walName := w_next w]> (<[flushingName := i]> (delete walName (w_dir w))))
    (<[w_next w := []]> (w_data w))
    (<[S (w_next w) := w_next w]> (delete (f_fd f) (w_fds w)))
    (S (S (w_next w))) (w_now w) (w_faults w).

Lemma wf_rotated f i w : wf_world w -> is_Some (w_data w !! i) -> wf_world (rotated f i w).
Proof.
  intros [H1 H2 H3 H4] Hi. split; cbn.
  - intros n Hn. rewrite lookup_insert_ne by lia. apply lookup_delete_None. right. apply H1. lia.
  - intros n Hn. rewrite lookup_insert_ne by lia. apply H2. lia.
  - intros s j. rewrite !lookup_insert_Some, lookup_delete_Some.
    intros [[_ <-]|[_ [[_ <-]|[_ [_ Hj]]]]]; apply lookup_insert_is_Some'; eauto.
  - intros g j. rewrite lookup_insert_Some, lookup_delete_Some.
    intros [[_ <-]|[_ [_ Hj]]]; apply lookup_insert_is_Some'; eauto.
Qed.

Lemma inj_rotated f i w :
  wf_world w -> w_dir w !! walName = Some i ->
  (forall s1 s2 i, w_dir w !! s1 = Some i -> w_dir w !! s2 = Some i -> s1 = s2) ->
  forall s1 s2 j, w_dir (rotated f i w) !! s1 = Some j -> w_dir (rotated f i w) !! s2 = Some j ->
  s1 = s2.
Proof.
  intros Hw Hi Hinj s1 s2 j. cbn. rewrite !lookup_insert_Some, !lookup_delete_Some.
  assert (forall s k, w_dir w !! s = Some k -> k <> w_next w) as Hne.
  { intros s k Hk. pose proof (wf_dir_lt w s k Hw Hk). lia. }
  pose proof (Hne _ _ Hi) as Hin.
  intros [[<- <-]|[Hn1 [[<- <-]|[Hf1 [Hd1 Hj1]]]]] [[<- E]|[Hn2 [[<- E]|[Hf2 [Hd2 Hj2]]]]];
    try done; try congruence.
  - by destruct (Hne _ _ Hj2).
  - subst. by destruct Hd2; eapply Hinj.
  - subst. by destruct (Hne _ _ Hj1).
  - subst. by destruct Hd1; eapply Hinj.
  - by eapply Hinj.
Qed.

(** ** The phases without faults *)

Section phases.
Context `{Murmur3} `{Runtime}.

(** the sizes a table can hold *)
Definition memtable_fits (A : list (bytes * slice)) : Prop :=
  bloom_keys_ok (len A) /\ len (data_of A) < 2 ^ 62.

(** What can be logged can be stored in a table. *)
Lemma logged_sst_ok w db log A I Ts :
  engine_ok w db log A I Ts -> memtable_fits A -> sst_ok A.
Proof.
  intros He [Hk Hd]. pose proof (repr_sorted _ _ (eo_active _ _ _ _ _ _ He)) as Hs.
  split; [done| |done|done]. apply Forall_forall. intros [k v] Hin.
  assert ((wal_replay log ∅ : gmap bytes slice) !! k = Some (norm v)) as Hl.
  { rewrite <- (eo_log _ _ _ _ _ _ He), lookup_fmap.
    by rewrite (proj2 (list_to_map_sorted_lookup A k v Hs) Hin). }
  destruct (wal_replay_lookup _ _ _ Hl) as (e & He' & <- & Hv).
  destruct (eo_wal _ _ _ _ _ _ He) as (_ & _ & Hok & _). rewrite Forall_forall in Hok.
  specialize (Hok e He'). unfold entry_ok, sst_entry_ok in *. unfold norm in Hv.
  cbn [fst snd]. injection Hv as ->. lia.
Qed.

Lemma NewWAL_fresh w :
  w_faults w = [] -> w_dir w !! walName = None ->
  NewWAL walName w =
  (inr (mkWAL (mkFile walName (S (w_next w))) walName 0),
   mkWorld (<[walName := w_next w]> (w_dir w)) (<[w_next w := []]> (w_data w))
     (<[S (w_next w) := w_next w]> (w_fds w)) (S (S (w_next w))) (w_now w) (w_faults w)).
Proof.
  intros Hf Hd. unfold NewWAL, os_OpenAppend, gets, mbind, IO_bind.
  rewrite next_outcome_ok, Hd by done. done.
Qed.

Lemma table_fd_ne w r t f i :
  (forall s1 s2 i, w_dir w !! s1 = Some i -> w_dir w !! s2 = Some i -> s1 = s2) ->
  table_ok w r t -> file_ino w f = Some i -> w_dir w !! walName = Some i ->
  f_fd (r_file r) <> f_fd f.
Proof.
  intros Hinj (_ & _ & _ & j & Hdir & Hino & _) Hf Hi E. unfold file_ino in *. rewrite E in Hino.
  apply (sst_name_not_wal t.1), (Hinj _ _ i); congruence.
Qed.

(** the engine after a rotation *)
Definition rotated_db (w : World) (db : StrataGo) : StrataGo :=
  set_wal (mkWAL (mkFile walName (S (w_next w))) walName 0)
    (set_active (NewSkipList (go_coins w)) (set_immutable (Some (db_activeMemtable db)) db)).

(** Rotation moves the active memtable and its log aside. *)
Lemma flush_rotate_eq w db log A Ts i :
  engine_ok w db log A None Ts -> w_faults w = [] -> A <> [] -> w_dir w !! walName = Some i ->
  flush_rotate db w = ((None, rotated_db w db), rotated (wal_file (db_wal db)) i w).
Proof.
  intros [_ _ _ Hact Himm (_ & _ & _ & i' & Hdir & Hino & _) _ _ _ _] Hf HA Hi.
  assert (i' = i) as -> by congruence. unfold flush_rotate. unfold imm_repr in Himm.
  destruct (db_immutableMemtable db) eqn:Eimm; [done|].
  rewrite (repr_size _ _ Hact). destruct (Z.eqb_spec (len A) 0) as [E|_];
    [by apply len_zero in E|].
  unfold gets, mbind, IO_bind, and_then, WAL_Close, file_Close.
  unfold mbind, IO_bind. rewrite Hino, next_outcome_ok by done. unfold os_Rename.
  cbn [w_dir set_fds]. rewrite Hdir, next_outcome_ok by done.
  rewrite NewWAL_fresh; [done|done|]. cbn. rewrite lookup_insert_ne by done. apply lookup_delete_eq.
Qed.

Lemma flush_rotate_ok w db log A Ts :
  engine_ok w db log A None Ts -> w_faults w = [] -> A <> [] ->
  exists db' w', flush_rotate db w = ((None, db'), w') /\
    engine_ok w' db' [] [] (Some A) Ts /\ w_faults w' = [] /\ w_now w' = w_now w /\
    db_closed db' = db_closed db /\
    (forall s, s <> walName -> s <> flushingName -> w_dir w' !! s = w_dir w !! s).
Proof.
  intros He Hf HA. pose proof He as [Hwf Hinj Hc Hact Himm Hwal Hlog Htab Hs Hr].
  destruct Hwal as (Hp & Hseq & Hlok & i & Hdir & Hino & dw & Hdata & Hlg).
  rewrite (flush_rotate_eq w db log A Ts i He Hf HA Hdir). unfold rotated_db.
  set (f := wal_file (db_wal db)) in *. eexists _, _. split; [reflexivity|].
  split; [|split_and!; [done|done|done|intros s H1 H2; cbn; by rewrite !lookup_insert_ne, lookup_delete_ne]].
  split; cbn [set_wal set_active set_immutable db_activeMemtable db_immutableMemtable db_wal
    db_sstReaders db_flushChan]; try done.
  - apply wf_rotated; eauto.
  - by eapply inj_rotated.
  - apply NewSkipList_repr.
  - split; [done|]. split; [done|]. split; [constructor|]. exists (w_next w). cbn.
    unfold file_ino. cbn. rewrite !lookup_insert_eq. split; [done|]. split; [done|].
    exists []. split; [done|]. apply logged_nil.
  - eapply Forall2_impl; [exact Htab|]. intros r t Ht. pose proof (table_fd_ne _ _ _ _ _ Hinj Ht Hino Hdir) as Hne.
    destruct Ht as (Hok & Er & Hn & j & Hj1 & Hj2 & Hj3).
    apply (table_ok_frame w); [| | |by split_and!; eauto].
    + cbn. rewrite !lookup_insert_ne, lookup_delete_ne; [done|..]; apply not_eq_sym;
        [apply sst_name_not_wal|apply sst_name_not_flushing|apply sst_name_not_wal].
    + unfold file_ino. cbn. assert (f_fd (r_file r) < w_next w)%nat.
      { destruct (decide (f_fd (r_file r) < w_next w)%nat); [done|].
        unfold file_ino in Hj2. rewrite (ww_fds w Hwf) in Hj2; [done|lia]. }
      rewrite lookup_insert_ne, lookup_delete_ne by lia. done.
    + intros k Hk. cbn. rewrite lookup_insert_ne; [done|].
      pose proof (wf_dir_lt w _ k Hwf Hk). lia.
Qed.

Lemma answer_rotate A Ts k : answer [] (Some A) Ts k = answer A None Ts k.
Proof.
  unfold answer, memory_map.
  change (list_to_map (default [] None)) with (∅ : gmap bytes slice).
  change (list_to_map []) with (∅ : gmap bytes slice).
  cbn [default id]. by rewrite (left_id_L ∅ (∪)), (right_id_L ∅ (∪)).
Qed.

(** ** Growing worlds *)

(** [w'] has everything [w] has *)
Definition grows (w w' : World) : Prop :=
  w_dir w ⊆ w_dir w' /\ w_data w ⊆ w_data w' /\ w_fds w ⊆ w_fds w'.

Lemma table_ok_grows w w' r t : grows w w' -> table_ok w r t -> table_ok w' r t.
Proof.
  intros (H1 & H2 & H3) (Hok & Er & Hn & i & Hdir & Hino & Hdata).
  split_and!; [done..|]. exists i. unfold file_ino in *.
  split_and!; by eapply lookup_weaken.
Qed.

Lemma engine_ok_grows w w' db log A I Ts :
  engine_ok w db log A I Ts -> grows w w' -> wf_world w' ->
  (forall s1 s2 i, w_dir w' !! s1 = Some i -> w_dir w' !! s2 = Some i -> s1 = s2) ->
  engine_ok w' db log A I Ts.
Proof.
  intros [Hwf Hinj Hc Hact Himm (Hp & Hseq & Hlok & i & Hdir & Hino & Hdata) Hlog Htab Hs Hr]
    Hg Hw' Hinj'. split; try done.
  - split; [done|]. split; [done|]. split; [done|].
    destruct Hg as (H1 & H2 & H3), Hdata as (d & Hdata & Hlg).
    exists i. unfold file_ino in *. split; [by eapply lookup_weaken|].
    split; [by eapply lookup_weaken|]. exists d. split; [by eapply lookup_weaken|done].
  - eapply Forall2_impl; [exact Htab|]. intros r t. by apply table_ok_grows.
Qed.

Lemma wf_publish final d w : wf_world w -> wf_world (publish final d w).
Proof.
  intros [H1 H2 H3 H4]. split; cbn.
  - intros n Hn. apply H1. lia.
  - intros n Hn. rewrite lookup_insert_ne by lia. apply H2. lia.
  - intros s j. rewrite lookup_insert_Some.
    intros [[_ <-]|[_ Hj]]; apply lookup_insert_is_Some'; eauto.
  - intros g j Hj. apply lookup_insert_is_Some'; eauto.
Qed.

Lemma inj_publish final d w :
  wf_world w ->
  (forall s1 s2 i, w_dir w !! s1 = Some i -> w_dir w !! s2 = Some i -> s1 = s2) ->
  forall s1 s2 j, w_dir (publish final d w) !! s1 = Some j ->
    w_dir (publish final d w) !! s2 = Some j -> s1 = s2.
Proof.
  intros Hw Hinj s1 s2 j. cbn. rewrite !lookup_insert_Some.
  assert (forall s k, w_dir w !! s = Some k -> k <> w_next w) as Hne.
  { intros s k Hk. pose proof (wf_dir_lt w s k Hw Hk). lia. }
  intros [[<- <-]|[Hn1 Hj1]] [[<- E]|[Hn2 Hj2]]; try done.
  - by destruct (Hne _ _ Hj2).
  - subst. by destruct (Hne _ _ Hj1).
  - by eapply Hinj.
Qed.

Lemma grows_publish final d w :
  wf_world w -> w_dir w !! final = None -> grows w (publish final d w).
Proof.
  intros Hw Hn. split_and!; cbn.
  - by apply insert_subseteq.
  - apply insert_subseteq, (ww_data w Hw). lia.
  - done.
Qed.

Lemma grows_opened i w : wf_world w -> grows w (opened i w).
Proof.
  intros Hw. split_and!; cbn; [done|done|]. apply insert_subseteq, (ww_fds w Hw). lia.
Qed.

Lemma grows_trans w1 w2 w3 : grows w1 w2 -> grows w2 w3 -> grows w1 w3.
Proof. intros (?&?&?) (?&?&?). split_and!; by etrans. Qed.

(** the names a flush at this time uses are free, and its table is the newest *)
Definition flush_time_ok (w : World) (Ts : list (Z * list (bytes * slice))) : Prop :=
  w_dir w !! tmp_name (sst_name (w_now w)) (w_now w) = None /\
  w_dir w !! sst_name (w_now w) = None /\ 0 <= w_now w < 2 ^ 63 /\
  Forall (fun t => t.1 < w_now w) Ts.

(** The build makes a table of the immutable memtable. *)
Lemma flush_build_ok w db log A B Ts :
  engine_ok w db log A (Some B) Ts -> w_faults w = [] -> sst_ok B -> flush_time_ok w Ts ->
  exists r w', flush_build db w = (Built r (len B), w') /\
    engine_ok w' db log A (Some B) Ts /\ table_ok w' r (w_now w, B) /\
    w_faults w' = [] /\ w_now w' = w_now w /\
    (forall s, s <> sst_name (w_now w) -> w_dir w' !! s = w_dir w !! s) /\
    grows w w' /\ (w_next w <= f_fd (r_file r))%nat.
Proof.
  intros He Hf Hok (Htmp & Hfresh & Hnow & Hnew).
  pose proof (eo_wf _ _ _ _ _ _ He) as Hwf. pose proof (eo_inj _ _ _ _ _ _ He) as Hinj.
  pose proof (eo_imm _ _ _ _ _ _ He) as Himm. unfold imm_repr in Himm.
  unfold flush_build, gets, and_bind, and_then, mbind, IO_bind.
  destruct (db_immutableMemtable db) as [imm|] eqn:Eimm; [|done].
  destruct (Builder_Flush_ok (sst_name (w_now w)) imm B w Hf Hwf Htmp Himm (so_keys B Hok))
    as (b & w1 & -> & ->). set (w2 := publish _ _ w).
  assert (w_dir w2 !! sst_name (w_now w) = Some (w_next w)) as Hdir2 by apply lookup_insert_eq.
  assert (w_data w2 !! w_next w = Some (sst_bytes B)) as Hdata2 by apply lookup_insert_eq.
  assert (wf_world w2) as Hwf2 by by apply wf_publish.
  rewrite (NewReader_ok B Hok _ w2 _ Hdir2 Hdata2) by done.
  set (f := mkFile _ _). set (w3 := opened _ w2).
  assert (file_data w3 f = Some (sst_bytes B)) as Hfd by by apply file_data_opened.
  rewrite ReadAll_sst by done.
  assert (Z.of_nat (size (list_to_map ((fun e => (e.1, slice_bytes e.2)) <$> B) : gmap bytes bytes))
    = len B) as ->.
  { rewrite <- length_map_to_list, map_to_list_to_map.
    - unfold len. by rewrite length_fmap.
    - rewrite <- list_fmap_compose. apply sorted_entries_NoDup, (so_sorted _ Hok). }
  assert (grows w w3) as Hg.
  { eapply grows_trans; [by apply grows_publish|]. by apply grows_opened. }
  exists (sst_reader B f), w3. split; [done|]. split; [|split; [|split_and!; [done|done| |done|cbn; lia]]].
  - eapply engine_ok_grows; [exact He|done| |].
    + apply wf_opened; [done|by eauto].
    + by apply inj_publish.
  - split; [done|]. split; [done|]. split; [done|]. exists (w_next w). cbn. unfold file_ino.
    cbn. by rewrite !lookup_insert_eq.
  - intros s Hs. cbn. by rewrite lookup_insert_ne.
Qed.
End phases.

Lemma tmp_name_not_wal ts now : tmp_name (sst_name ts) now <> walName.
Proof. discriminate. Qed.

Lemma tmp_name_not_flushing ts now : tmp_name (sst_name ts) now <> flushingName.
Proof. discriminate. Qed.

Section finish.
Context `{Murmur3} `{Runtime}.

(** A table of a later time keeps the tables sorted. *)
Lemma sorted_snoc (Ts : list (Z * list (bytes * slice))) (t : Z * list (bytes * slice)) :
  StronglySorted Z.lt (Ts.*1) -> Forall (fun t' => t'.1 < t.1) Ts ->
  StronglySorted Z.lt (Ts.*1 ++ [t].*1).
Proof.
  intros Hs Hlt. induction Ts as [|t' Ts IH]; [repeat constructor|]. rewrite fmap_cons in *.
  apply StronglySorted_inv in Hs as [Hs Ht]. apply Forall_cons in Hlt as [H1 Hlt].
  cbn [app]. constructor; [by apply IH|]. apply Forall_app. split; [done|by repeat constructor].
Qed.

Lemma flush_install_ok w db log A B Ts r ts :
  engine_ok w db log A (Some B) Ts -> table_ok w r (ts, B) -> 0 <= ts < 2 ^ 63 ->
  Forall (fun t => t.1 < ts) Ts ->
  engine_ok w (flush_install db r) log A None (Ts ++ [(ts, B)]).
Proof.
  intros [Hwf Hinj Hc Hact Himm Hwal Hlog Htab Hs Hr] Ht Hts Hlt. split; try done.
  - cbn. apply Forall2_app; [done|]. by constructor.
  - rewrite fmap_app. by apply sorted_snoc.
  - apply Forall_app. split; [done|]. repeat constructor; cbn; lia.
Qed.

(** Removing the old log. *)
Lemma remove_flushing_ok w db log A I Ts :
  engine_ok w db log A I Ts -> w_faults w = [] ->
  engine_ok (os_Remove flushingName w).2 db log A I Ts /\
  w_faults (os_Remove flushingName w).2 = [] /\ w_now (os_Remove flushingName w).2 = w_now w /\
  w_dir (os_Remove flushingName w).2 = delete flushingName (w_dir w).
Proof.
  intros He Hf. unfold os_Remove. destruct (w_dir w !! flushingName) as [i|] eqn:Ei.
  2: { cbn. by rewrite delete_id. }
  rewrite next_outcome_ok by done. cbn. split; [|done].
  destruct He as [Hwf Hinj Hc Hact Himm (Hp & Hseq & Hlok & j & Hdir & Hino & Hdata) Hlog Htab Hs Hr].
  split; try done.
  - destruct Hwf as [H1 H2 H3 H4]. split; cbn; try done.
    intros s k. rewrite lookup_delete_Some. intros [_ ?]. eauto.
  - intros s1 s2 k. cbn. rewrite !lookup_delete_Some. intros [_ ?] [_ ?]. eauto.
  - split; [done|]. split; [done|]. split; [done|]. exists j. split; [|done]. cbn.
    by rewrite lookup_delete_ne.
  - eapply Forall2_impl; [exact Htab|]. intros r t. apply table_ok_frame; [|done|done].
    cbn. rewrite lookup_delete_ne; [done|]. intros E. by apply (sst_name_not_flushing t.1).
Qed.

(** what a flush does to the answers: only an empty value makes a difference *)
Lemma answer_install A B Ts k :
  (forall v, (list_to_map B : gmap bytes slice) !! k = Some v -> v <> Some []) ->
  answer A None (Ts ++ [B]) k = answer A (Some B) Ts k.
Proof.
  intros Hne. unfold answer, memory_map.
  change (list_to_map (default [] None)) with (∅ : gmap bytes slice).
  cbn [default id]. rewrite (right_id_L ∅ (∪)), lookup_union.
  destruct ((list_to_map A : gmap bytes slice) !! k) as [v|].
  { by destruct ((list_to_map B : gmap bytes slice) !! k). }
  rewrite (left_id_L None (∪)), tables_map_snoc, lookup_union, plain_lookup.
  destruct ((list_to_map B : gmap bytes slice) !! k) as [[v|]|] eqn:EB; cbn.
  - specialize (Hne _ eq_refl). destruct (tables_map Ts !! k); cbn;
      unfold nonempty; destruct v; try done.
  - by destruct (tables_map Ts !! k).
  - by rewrite (left_id_L None (∪)).
Qed.

(** A fault-free flush. *)
Lemma Flush_ok w db log A Ts :
  engine_ok w db log A None Ts -> w_faults w = [] -> A <> [] -> memtable_fits A ->
  flush_time_ok w Ts ->
  exists db' w', StrataGo_Flush db w = ((None, db'), w') /\
    engine_ok w' db' [] [] None (Ts ++ [(w_now w, A)]) /\
    w_faults w' = [] /\ w_now w' = w_now w /\ db_closed db' = db_closed db /\
    w_dir w' !! flushingName = None /\ (dir_ok w Ts -> dir_ok w' (Ts ++ [(w_now w, A)])).
Proof.
  intros He Hf HA Hfit Ht. pose proof (logged_sst_ok _ _ _ _ _ _ He Hfit) as Hok.
  destruct (flush_rotate_ok w db log A Ts He Hf HA) as (db1 & w1 & E1 & He1 & Hf1 & Hn1 & Hc1 & Hd1).
  assert (flush_time_ok w1 Ts) as Ht1.
  { destruct Ht as (H1 & H2 & H3 & H4). unfold flush_time_ok. rewrite Hn1.
    by rewrite !Hd1 by (apply tmp_name_not_wal || apply tmp_name_not_flushing ||
                        apply sst_name_not_wal || apply sst_name_not_flushing). }
  destruct (flush_build_ok w1 db1 [] [] A Ts He1 Hf1 Hok Ht1)
    as (r & w2 & E2 & He2 & Htab & Hf2 & Hn2 & Hd2 & _).
  rewrite Hn1 in *. destruct Ht1 as (_ & _ & Hnow & Hlt). rewrite Hn1 in *.
  pose proof (flush_install_ok w2 db1 [] [] A Ts r (w_now w) He2 Htab Hnow Hlt) as He3.
  destruct (remove_flushing_ok w2 _ _ _ _ _ He3 Hf2) as (He4 & Hf4 & Hn4 & Hd4).
  exists (flush_install db1 r), (os_Remove flushingName w2).2.
  split.
  - unfold StrataGo_Flush, mbind, IO_bind. rewrite E1, E2. unfold flush_finish.
    pose proof (eo_imm _ _ _ _ _ _ He2) as Himm. unfold imm_repr in Himm.
    destruct (db_immutableMemtable db1); [|done]. rewrite (repr_size _ _ Himm), Z.eqb_refl.
    cbn [negb]. unfold mbind, IO_bind. by destruct (os_Remove flushingName w2).
  - split; [done|]. split; [done|]. split; [by rewrite Hn4, Hn2|]. split; [done|].
    split; [rewrite Hd4; apply lookup_delete_eq|].
    intros Hdir s Hs. rewrite Hd4. intros [i Hi]. apply lookup_delete_Some in Hi as [Hne Hi].
    destruct (decide (s = sst_name (w_now w))) as [->|Hns].
    + exists (w_now w, A). split; [|done]. apply elem_of_app. right. by left.
    + rewrite Hd2 in Hi by done. rewrite Hd1 in Hi; [|intros ->; done|done].
      destruct (Hdir s Hs ltac:(eauto)) as (t & Hin & ->). exists t. split; [|done].
      apply elem_of_app. by left.
Qed.
End finish.

(** ** Flushing while clients write

    The flush worker runs the parts of [Flush] in order, clients run operations
    in between.  A part without the lock touches only its own table file, so it
    is one step.  The premises on sizes and on the clock are assumptions on the
    environment. *)

Inductive flush_pc := Idle | Building | Finishing (b : build_result) | Removing.

Record sys := mkSys { s_world : World; s_db : StrataGo; s_pc : flush_pc }.

Definition set_now (t : Z) (w : World) : World :=
  mkWorld (w_dir w) (w_data w) (w_fds w) (w_next w) t (w_faults w).

(** the memtable can become a table *)
Definition mem_fits (m : SkipList) : Prop :=
  bloom_keys_ok (sl_Size m) /\ 8 * sl_Size m + sl_SizeBytes m < 2 ^ 62.

(** the clock is ahead of the tables and the names of its instant are free *)
Definition clock_ok (w : World) (db : StrataGo) : Prop :=
  w_dir w !! tmp_name (sst_name (w_now w)) (w_now w) = None /\
  w_dir w !! sst_name (w_now w) = None /\ 0 <= w_now w < 2 ^ 63 /\
  Forall (fun r => Sscanf_ts (Reader_Path r) < w_now w) (db_sstReaders db).

(** the value written is not the empty, non-nil slice *)
Definition op_nonempty (o : op) : Prop := (op_entry o).2 <> Some [].

(** Empty, non-nil values do not get into the memtables. *)
Definition no_empty (A : list (bytes * slice)) (I : option (list (bytes * slice))) : Prop :=
  forall k, memory_map A I !! k <> Some (Some []).

Lemma no_empty_put A I o :
  key_sorted fst A -> op_nonempty o -> no_empty A I ->
  no_empty (entries_put (op_entry o).1 (op_entry o).2 A) I.
Proof.
  intros Hs Hne Hn k. unfold memory_map. rewrite list_to_map_put, <- insert_union_l by done.
  destruct (decide (k = (op_entry o).1)) as [->|]; [|rewrite lookup_insert_ne by done; apply Hn].
  rewrite lookup_insert_eq. intros [= E]. by apply Hne.
Qed.

Lemma memory_map_None A : memory_map A None = list_to_map A.
Proof. unfold memory_map. cbn. by rewrite (right_id_L ∅ (∪)). Qed.

Lemma memory_map_rotated A : memory_map [] (Some A) = list_to_map A.
Proof. unfold memory_map. cbn. by rewrite (left_id_L ∅ (∪)). Qed.

Lemma no_empty_rotate A : no_empty A None -> no_empty [] (Some A).
Proof. intros Hn k. specialize (Hn k). by rewrite memory_map_rotated, <- memory_map_None. Qed.

Lemma no_empty_install A B : no_empty A (Some B) -> no_empty A None.
Proof.
  intros Hn k. specialize (Hn k). rewrite memory_map_None. unfold memory_map in Hn.
  rewrite lookup_union in Hn. cbn [default id] in Hn.
  destruct ((list_to_map A : gmap bytes slice) !! k); [|done].
  by destruct ((list_to_map B : gmap bytes slice) !! k).
Qed.

(** Without empty values, a flush changes no answer. *)
Lemma answer_installed A B Ts k :
  no_empty A (Some B) -> answer A None (Ts ++ [B]) k = answer A (Some B) Ts k.
Proof.
  intros Hn. specialize (Hn k). destruct ((list_to_map A : gmap bytes slice) !! k) as [v|] eqn:EA.
  - unfold answer. rewrite memory_map_None, EA. unfold memory_map. rewrite lookup_union, EA.
    by destruct ((list_to_map (default [] (Some B)) : gmap bytes slice) !! k).
  - apply answer_install. intros v Hv ->. unfold memory_map in Hn.
    rewrite lookup_union, EA, (left_id_L None (∪)) in Hn.
    change (default [] (Some B)) with B in Hn. by rewrite Hv in Hn.
Qed.

Section steps.
Context `{Murmur3} `{Runtime}.

Inductive step : sys -> option (op * err) -> sys -> Prop :=
| step_op w db pc o r db' w' :
    op_ok o -> wal_sequenceNumber (db_wal db) + 1 < 2 ^ 64 ->
    run_op o db w = ((r, db'), w') ->
    step (mkSys w db pc) (Some (o, r)) (mkSys w' db' pc)
| step_tick w db pc t :
    w_now w <= t -> step (mkSys w db pc) None (mkSys (set_now t w) db pc)
| step_rotate w db db' w' :
    mem_fits (db_activeMemtable db) ->
    flush_rotate db w = ((None, db'), w') ->
    step (mkSys w db Idle) None (mkSys w' db' Building)
| step_rotate_return w db r db' w' :
    flush_rotate db w = ((Some r, db'), w') ->
    step (mkSys w db Idle) None (mkSys w' db' Idle)
| step_build w db b w' :
    clock_ok w db ->
    flush_build db w = (b, w') ->
    step (mkSys w db Building) None (mkSys w' db (Finishing b))
| step_install w db reader verified imm :
    db_immutableMemtable db = Some imm -> verified = sl_Size imm ->
    step (mkSys w db (Finishing (Built reader verified))) None
         (mkSys w (flush_install db reader) Removing)
| step_remove w db :
    step (mkSys w db Removing) None (mkSys (os_Remove flushingName w).2 db Idle)
| step_fail w db b db' w' r :
    match b with
    | Built _ verified => forall imm, db_immutableMemtable db = Some imm -> verified <> sl_Size imm
    | _ => True
    end ->
    flush_finish db b w = ((r, db'), w') ->
    step (mkSys w db (Finishing b)) None (mkSys w' db' Idle).

Inductive steps : sys -> list (op * err) -> sys -> Prop :=
| steps_refl s : steps s [] s
| steps_silent s1 s2 s3 l : step s1 None s2 -> steps s2 l s3 -> steps s1 l s3
| steps_op s1 s2 s3 x l : step s1 (Some x) s2 -> steps s2 l s3 -> steps s1 (x :: l) s3.

(** The system holds the answers [f]. *)
Record simulates (s : sys) (f : bytes -> option bytes) (log A : list (bytes * slice))
    (I : option (list (bytes * slice))) (Ts : list (Z * list (bytes * slice))) : Prop := {
  sim_engine : engine_ok (s_world s) (s_db s) log A I Ts;
  sim_faults : w_faults (s_world s) = [];
  sim_open : db_closed (s_db s) = false;
  sim_answer : forall k, answer A I (Ts.*2) k = f k;
  sim_nonempty : no_empty A I;
  sim_pc : match s_pc s with
           | Idle | Removing => I = None
           | Building => exists B, I = Some B /\ sst_ok B
           | Finishing b => exists B r ts, I = Some B /\ b = Built r (len B) /\
               table_ok (s_world s) r (ts, B) /\ 0 <= ts < 2 ^ 63 /\
               Forall (fun t => t.1 < ts) Ts
           end
}.

Lemma mem_fits_ok m A : repr m A -> mem_fits m -> memtable_fits A.
Proof.
  intros Hr [H1 H2]. pose proof (repr_size _ _ Hr) as Hs.
  destruct Hr as (ch & Hc & HA). pose proof (rc_bytes _ _ Hc) as Hb. rewrite <- HA in Hb.
  rewrite Hs in *. rewrite Hb in H2. split; [done|].
  assert (len (data_of A) = 8 * len A + entries_bytes A) as ->; [|done]. clear.
  induction A as [|e A IH]; [done|]. rewrite data_of_cons, len_app, len_entry_enc, IH, len_cons.
  unfold entries_bytes. cbn. unfold entry_bytes at 2. fold (entries_bytes A). lia.
Qed.

Lemma clock_time_ok w db log A I Ts :
  engine_ok w db log A I Ts -> clock_ok w db -> flush_time_ok w Ts.
Proof.
  intros He (H1 & H2 & H3 & H4). split_and!; [done|done|apply H3|apply H3|].
  pose proof (eo_tables _ _ _ _ _ _ He) as HF. pose proof (eo_range _ _ _ _ _ _ He) as Hr.
  revert Hr H4. clear -HF. induction HF as [|r t rs Ts Ht _ IH]; [done|].
  intros [Hr1 Hr]%Forall_cons [H4 Hrs]%Forall_cons. constructor; [|by apply IH].
  destruct Ht as (_ & _ & Hn & _). unfold Reader_Path in H4. rewrite Hn in H4.
  by rewrite Sscanf_sst_name in H4.
Qed.

Lemma simulates_pc_same s f log A I Ts w' db' :
  simulates s f log A I Ts ->
  (forall r t, table_ok (s_world s) r t -> table_ok w' r t) ->
  match s_pc s with
  | Idle | Removing => I = None
  | Building => exists B, I = Some B /\ sst_ok B
  | Finishing b => exists B r ts, I = Some B /\ b = Built r (len B) /\
      table_ok (s_world (mkSys w' db' (s_pc s))) r (ts, B) /\ 0 <= ts < 2 ^ 63 /\
      Forall (fun t => t.1 < ts) Ts
  end.
Proof.
  intros Hsim Hfr. pose proof (sim_pc _ _ _ _ _ _ Hsim) as Hpc.
  destruct (s_pc s); try done. destruct Hpc as (B & r & ts & ? & ? & Ht & Hts & ?).
  exists B, r, ts. split; [done|]. split; [done|]. split; [by apply Hfr|done].
Qed.

(** a client's operation *)
Lemma sim_op s f log A I Ts o r db' w' :
  simulates s f log A I Ts -> op_ok o -> op_nonempty o ->
  wal_sequenceNumber (db_wal (s_db s)) + 1 < 2 ^ 64 ->
  run_op o (s_db s) (s_world s) = ((r, db'), w') ->
  r = None /\ simulates (mkSys w' db' (s_pc s)) (fun k => op_answer k (f k) o)
    (log ++ [op_entry o]) (entries_put (op_entry o).1 (op_entry o).2 A) I Ts.
Proof.
  intros Hsim Ho Hne Hseq Hrun. pose proof Hsim as [He Hf Hc Ha Hn Hpc].
  destruct (run_op_ok _ _ log A I Ts o He Hc Hf Ho Hseq)
    as (db2 & w2 & E & He2 & Hfr & Hf2 & Hd2 & Hc2).
  rewrite Hrun in E. injection E as -> -> ->. split; [done|].
  pose proof (repr_sorted _ _ (eo_active _ _ _ _ _ _ He)) as Hs. split; try done.
  - intros k. cbn. rewrite answer_put by done. unfold op_answer. by rewrite Ha.
  - by apply no_empty_put.
  - by apply (simulates_pc_same s f log A I Ts w2 db2 Hsim).
Qed.

Lemma sim_tick s f log A I Ts t :
  simulates s f log A I Ts ->
  simulates (mkSys (set_now t (s_world s)) (s_db s) (s_pc s)) f log A I Ts.
Proof.
  intros Hsim. pose proof Hsim as [He Hf Hc Ha Hn Hpc]. split; try done.
  - apply (engine_ok_grows (s_world s)); [done|done| |].
    + destruct (eo_wf _ _ _ _ _ _ He) as [H1 H2 H3 H4]. by split.
    + apply (eo_inj _ _ _ _ _ _ He).
Qed.

Lemma sim_rotate w db f log A I Ts x db' w' :
  simulates (mkSys w db Idle) f log A I Ts -> flush_rotate db w = ((x, db'), w') ->
  match x with
  | None => mem_fits (db_activeMemtable db) ->
      simulates (mkSys w' db' Building) f [] [] (Some A) Ts
  | Some _ => simulates (mkSys w' db' Idle) f log A I Ts
  end.
Proof.
  intros [He Hf Hc Ha Hn ->] E. cbn [s_world s_db s_pc] in *.
  destruct (decide (A = [])) as [EA|HA].
  - revert E. unfold flush_rotate. pose proof (eo_imm _ _ _ _ _ _ He) as Himm.
    unfold imm_repr in Himm. destruct (db_immutableMemtable db); [done|].
    rewrite (repr_size _ _ (eo_active _ _ _ _ _ _ He)), EA. cbn. intros [= <- <- <-].
    by subst.
  - destruct (flush_rotate_ok w db log A Ts He Hf HA) as (db1 & w1 & E1 & He1 & Hf1 & Hn1 & Hc1 & Hd1).
    rewrite E1 in E. injection E as <- <- <-. intros Hfit. split; cbn; try done.
    + congruence.
    + intros k. by rewrite answer_rotate.
    + by apply no_empty_rotate.
    + exists A. split; [done|]. eapply logged_sst_ok; [exact He|].
      apply (mem_fits_ok (db_activeMemtable db)); [by apply (eo_active _ _ _ _ _ _ He)|done].
Qed.

Lemma sim_build w db f log A I Ts b w' :
  simulates (mkSys w db Building) f log A I Ts -> clock_ok w db ->
  flush_build db w = (b, w') ->
  simulates (mkSys w' db (Finishing b)) f log A I Ts.
Proof.
  intros [He Hf Hc Ha Hn (B & -> & HB)] Hck E. cbn [s_world s_db s_pc] in *.
  pose proof (clock_time_ok _ _ _ _ _ _ He Hck) as Ht.
  destruct (flush_build_ok w db log A B Ts He Hf HB Ht) as (r & w2 & E2 & He2 & Ht2 & Hf2 & _).
  rewrite E2 in E. injection E as <- <-. split; try done. cbn.
  destruct Ht as (_ & _ & Hnow & Hlt). by exists B, r, (w_now w).
Qed.

Lemma sim_install w db f log A I Ts reader verified :
  simulates (mkSys w db (Finishing (Built reader verified))) f log A I Ts ->
  exists B ts, I = Some B /\ table_ok w reader (ts, B) /\
    simulates (mkSys w (flush_install db reader) Removing) f log A None (Ts ++ [(ts, B)]).
Proof.
  intros [He Hf Hc Ha Hn (B & r & ts & -> & Eb & Ht & Hts & Hlt)]. cbn [s_world s_db s_pc] in *.
  injection Eb as -> ->. exists B, ts. split; [done|]. split; [done|].
  pose proof (flush_install_ok w db log A B Ts r ts He Ht Hts Hlt) as He'. split; try done.
  - intros k. rewrite fmap_app. cbn [fmap list_fmap snd]. rewrite <- Ha. by apply answer_installed.
  - by eapply no_empty_install.
Qed.

Lemma sim_remove w db f log A I Ts :
  simulates (mkSys w db Removing) f log A I Ts ->
  simulates (mkSys (os_Remove flushingName w).2 db Idle) f log A I Ts.
Proof.
  intros [He Hf Hc Ha Hn ->]. cbn [s_world s_db s_pc] in *.
  by destruct (remove_flushing_ok w db log A None Ts He Hf) as (He' & Hf' & _).
Qed.

Lemma sim_no_failure w db f log A I Ts b :
  simulates (mkSys w db (Finishing b)) f log A I Ts ->
  exists reader imm, b = Built reader (sl_Size imm) /\ db_immutableMemtable db = Some imm.
Proof.
  intros [He _ _ _ _ (B & r & ts & -> & -> & _)]. cbn [s_world s_db s_pc] in *.
  pose proof (eo_imm _ _ _ _ _ _ He) as Himm. unfold imm_repr in Himm.
  destruct (db_immutableMemtable db) as [imm|]; [|done]. exists r, imm.
  by rewrite (repr_size _ _ Himm).
Qed.

Definition after (f : bytes -> option bytes) (l : option (op * err)) (k : bytes) : option bytes :=
  match l with Some (o, _) => op_answer k (f k) o | None => f k end.

(** The simulation: no step fails, and the answers change as the operations say. *)
Lemma step_simulates s l s' f log A I Ts :
  simulates s f log A I Ts -> step s l s' -> (forall x, l = Some x -> op_nonempty x.1) ->
  (forall x, l = Some x -> x.2 = None) /\
  exists log' A' I' Ts', simulates s' (after f l) log' A' I' Ts'.
Proof.
  intros Hsim Hstep Hne. destruct Hstep as [w db pc o r db' w' Ho Hseq E|w db pc t Hle
    |w db db' w' Hfit E|w db r db' w' E|w db b w' Hck E|w db reader verified imm Ei Ev|w db
    |w db b db' w' r Hb E].
  - destruct (sim_op _ _ _ _ _ _ o r db' w' Hsim Ho (Hne _ eq_refl) Hseq E) as [-> Hs'].
    split; [by intros x [= <-]|]. eauto.
  - split; [done|]. change (after f None) with f. pose proof (sim_tick _ _ _ _ _ _ t Hsim). eauto.
  - split; [done|]. change (after f None) with f. pose proof (sim_rotate _ _ _ _ _ _ _ _ _ _ Hsim E Hfit). eauto.
  - split; [done|]. change (after f None) with f. pose proof (sim_rotate _ _ _ _ _ _ _ _ _ _ Hsim E) as Hs. cbn in Hs. eauto.
  - split; [done|]. change (after f None) with f. pose proof (sim_build _ _ _ _ _ _ _ _ _ Hsim Hck E). eauto.
  - split; [done|]. change (after f None) with f. destruct (sim_install _ _ _ _ _ _ _ _ _ Hsim) as (B & ts & _ & _ & ?). eauto 10.
  - split; [done|]. change (after f None) with f. pose proof (sim_remove _ _ _ _ _ _ _ Hsim). eauto.
  - exfalso. destruct (sim_no_failure _ _ _ _ _ _ _ _ Hsim) as (rd & imm & -> & Ei).
    by apply (Hb imm).
Qed.

Lemma simulates_ext s f g log A I Ts :
  (forall k, f k = g k) -> simulates s f log A I Ts -> simulates s g log A I Ts.
Proof. intros E [H1 H2 H3 H4 H5 H6]. split; try done. intros k. by rewrite H4. Qed.

Lemma steps_simulate s l s' : forall f log A I Ts,
  steps s l s' -> simulates s f log A I Ts -> Forall (fun x => op_nonempty x.1) l ->
  Forall (fun x => x.2 = None) l /\
  exists log' A' I' Ts',
    simulates s' (fun k => foldl (op_answer k) (f k) (l.*1)) log' A' I' Ts'.
Proof.
  intros f log A I Ts Hst. revert f log A I Ts.
  induction Hst as [s|s1 s2 s3 l Hs _ IH|s1 s2 s3 x l Hs _ IH]; intros f log A I Ts Hsim Hne.
  - split; [done|]. by exists log, A, I, Ts.
  - destruct (step_simulates _ _ _ _ _ _ _ _ Hsim Hs ltac:(done)) as (_ & log' & A' & I' & Ts' & Hsim').
    by apply (IH _ _ _ _ _ Hsim').
  - apply Forall_cons in Hne as [Hne1 Hne].
    destruct (step_simulates _ _ _ _ _ _ _ _ Hsim Hs ltac:(by intros y [= <-]))
      as (Hx & log' & A' & I' & Ts' & Hsim').
    destruct (IH _ _ _ _ _ Hsim' Hne) as [Hl Hsim'']. split; [constructor; [by apply Hx|done]|].
    destruct x as [o r]. exact Hsim''.
Qed.

(** no lookup of [k] in an open table runs past its entries *)
Definition lookup_inside (w : World) (db : StrataGo) (k : bytes) : Prop :=
  Forall (fun r => forall es, r = sst_reader es (r_file r) ->
    file_data w (r_file r) = Some (sst_bytes es) -> no_phantom es k) (db_sstReaders db).

Lemma lookup_inside_clean w db log A I Ts k :
  engine_ok w db log A I Ts -> lookup_inside w db k -> clean_lookup Ts k.
Proof.
  intros He Hl. pose proof (eo_tables _ _ _ _ _ _ He) as HF. unfold lookup_inside, clean_lookup in *.
  revert Hl. clear He. induction HF as [|r t rs Ts' Ht _ IH]; [done|]. intros [Hr Hl]%Forall_cons.
  constructor; [|by apply IH]. apply Hr; [apply Ht|]. by apply table_ok_data.
Qed.

(** What an opened directory answers, the system that runs on it answers. *)
Lemma replay_no_empty log A :
  Forall (fun e => slice_bytes e.2 <> []) log ->
  (list_to_map A : gmap bytes slice) = wal_replay log ∅ -> no_empty A None.
Proof.
  intros Hne HA k. rewrite memory_map_None, HA. intros Hk.
  destruct (wal_replay_lookup log k (Some []) Hk) as (e & Hin & _ & Ee).
  rewrite Forall_forall in Hne. apply (Hne e Hin). unfold norm in Ee. congruence.
Qed.

Lemma Open_simulates w log tail Ts db w1 :
  disk_ok w log tail Ts -> Forall (fun e => slice_bytes e.2 <> []) log ->
  Open w = (inr db, w1) ->
  exists A, simulates (mkSys w1 db Idle) (initial_answer log Ts) log A None Ts.
Proof.
  intros Hd Hne E. destruct (Open_ok w log tail Ts Hd) as (db' & w1' & A & E' & He & HA & Hc & Hf & _).
  rewrite E in E'. injection E' as <- <-. exists A. split; try done.
  - intros k. by apply answer_initial.
  - by apply (replay_no_empty log).
Qed.

(** A flush is invisible to clients.  Whatever the interleaving of the
    parts of flushes with [Put]s, [Delete]s and the clock, every operation is
    acknowledged, and at every moment (memtable rotated, table being built, table
    installed, old log removed) [Get] answers with the last value written. *)
Theorem flush_interleavings_refine (w : World) (log : list (bytes * slice)) (tail : bytes)
    (Ts : list (Z * list (bytes * slice))) (db : StrataGo) (w1 : World)
    (l : list (op * err)) (s : sys)
    (Hd : disk_ok w log tail Ts) (Hne : Forall (fun e => slice_bytes e.2 <> []) log)
    (Hopen : Open w = (inr db, w1)) (Hsteps : steps (mkSys w1 db Idle) l s)
    (Hops : Forall (fun x => op_nonempty x.1) l) :
  Forall (fun x => x.2 = None) l /\
  forall k, lookup_inside (s_world s) (s_db s) k ->
    StrataGo_Get (s_world s) (s_db s) k =
      Some (foldl (op_answer k) (initial_answer log Ts k) (l.*1)).
Proof.
  destruct (Open_simulates w log tail Ts db w1 Hd Hne Hopen) as [A Hsim].
  destruct (steps_simulate _ _ _ _ _ _ _ _ Hsteps Hsim Hops) as (Hl & log' & A' & I' & Ts' & Hs').
  split; [done|]. intros k Hk. pose proof (sim_engine _ _ _ _ _ _ Hs') as He.
  rewrite (Get_ok _ _ _ _ _ _ k He); [|by eapply lookup_inside_clean].
  by rewrite (sim_answer _ _ _ _ _ _ Hs').
Qed.
End steps.

(** ** Failures *)

Section failures.
Context `{Murmur3} `{Runtime}.

(** A rotation that cannot rename the log is undone for readers, but not for
    the log: [Flush] reports the error, every [Get] answers as before, and from
    then on every [Put] fails, because the handle of the log has been closed. *)
Theorem flush_rename_failure_disables_writes (w : World) (db : StrataGo)
    (log A : list (bytes * slice)) (Ts : list (Z * list (bytes * slice))) (n : nat)
    (fs : list outcome)
    (He : engine_ok w db log A None Ts) (HA : A <> []) (Hopen : db_closed db = false)
    (Hf : w_faults w = Succeeds :: Fails n :: fs) :
  let '((r, db'), w') := StrataGo_Flush db w in
  r = Some EIO /\
  (forall k, StrataGo_Get w' db' k = StrataGo_Get w db k) /\
  (forall k v, (StrataGo_Put db' k v w').1.1 = Some ErrClosed).
Proof.
  pose proof He as [Hwf Hinj Hc Hact Himm Hwal Hlog Htab Hs Hr].
  destruct Hwal as (Hp & Hseq & Hlok & i & Hdir & Hino & Hdata).
  unfold imm_repr in Himm. destruct (db_immutableMemtable db) eqn:Eimm; [done|].
  unfold StrataGo_Flush, flush_rotate. rewrite Eimm, (repr_size _ _ Hact).
  destruct (Z.eqb_spec (len A) 0) as [E|_]; [by apply len_zero in E|].
  unfold gets, mbind, IO_bind, and_then, WAL_Close, file_Close.
  unfold mbind, IO_bind. rewrite Hino. unfold next_outcome. rewrite Hf.
  unfold os_Rename. cbn [set_fds w_dir]. rewrite Hdir. unfold next_outcome. cbn. split; [done|].
  split.
  - intros k. unfold StrataGo_Get. cbn. rewrite Eimm. destruct (SkipList_Get _ k) as [[?|]|]; try done.
    cbn. apply (get_readers_frame w _ (db_sstReaders db) Ts); [|exact Htab].
    intros r t Ht. pose proof (table_fd_ne _ _ _ _ _ Hinj Ht Hino Hdir) as Hne.
    unfold file_data, file_ino. cbn. by rewrite lookup_delete_ne.
  - intros k v. unfold StrataGo_Put. cbn. rewrite Hopen. unfold WAL_WriteEntry, mbind, IO_bind.
    unfold file_Write, file_ino. cbn. by rewrite lookup_delete_eq.
Qed.
End failures.

(** ** Concrete runs *)

Definition set_faults (fs : list outcome) (w : World) : World :=
  mkWorld (w_dir w) (w_data w) (w_fds w) (w_next w) (w_now w) fs.

Section runs.
#[local] Existing Instance fnv.
#[local] Existing Instance plain_runtime.

(** open, write, rotate, write again *)
Definition write_rotate_write : result StrataGo * World :=
  match session [OpPut [x61] (Some [x01])] empty_disk with
  | (inr db, w) =>
      let '((_, db), w) := flush_rotate db w in
      match run_op (OpPut [x61] (Some [x02])) db w with
      | ((None, db), w) => (inr db, w)
      | ((Some e, _), w) => (inl e, w)
      end
  | r => r
  end.

(** one operation, then a whole flush under the given outcomes *)
Definition write_flush (o : op) (fs : list outcome) : result (err * StrataGo) * World :=
  match session [o] empty_disk with
  | (inr db, w) => let '(res, w) := StrataGo_Flush db (set_faults fs w) in (inr res, w)
  | (inl e, w) => (inl e, w)
  end.

(** after the second write the table cannot be created, and [Flush] recovers *)
Definition write_rotate_write_fail : result StrataGo * World :=
  match write_rotate_write with
  | (inr db, w) =>
      let '(b, w) := flush_build db (set_faults [Fails 0] w) in
      let '((_, db), w) := flush_finish db b w in (inr db, w)
  | r => r
  end.

Definition result_of (r : result (err * StrataGo) * World) : option err * (result StrataGo * World) :=
  match r with
  | (inr (e, db), w) => (Some e, (inr db, w))
  | (inl e, w) => (None, (inl e, w))
  end.

(** Recovery replays the rotated log after the current one.  [Open] appends
    the entries of [wal.log.flushing] to [wal.log] and then recovers [wal.log],
    so a value written during a flush is replaced by the older value of the
    rotated memtable when the process dies before the flush ends. *)
Theorem stale_flushing_entry_wins :
  get_after write_rotate_write [x61] = Some (Some [x02]) /\
  get_after (Open (crash write_rotate_write.2)) [x61] = Some (Some [x01]).
Proof. vm_compute. split; reflexivity. Qed.

(** A failed flush loses acknowledged writes from view.  When the table
    cannot be created, [Flush] reports that the data is preserved, but the
    memtable is dropped after it has been copied to the log: the key is missing
    until the engine is restarted. *)
Theorem failed_flush_hides_writes :
  let r := result_of (write_flush (OpPut [x61] (Some [x01])) [Succeeds; Succeeds; Succeeds; Fails 0]) in
  r.1 = Some (Some (ErrWrap "flush failed, data preserved" EIO)) /\
  get_after r.2 [x61] = Some None /\
  get_after (Open (crash r.2.2)) [x61] = Some (Some [x01]).
Proof. vm_compute. split_and!; reflexivity. Qed.

(** A failed flush reorders the log.  The older values of the rotated
    memtable are appended after the newer ones of the current log, and win at the
    next start. *)
Theorem failed_flush_reverts_newer_write :
  get_after write_rotate_write_fail [x61] = Some (Some [x02]) /\
  get_after (Open (crash write_rotate_write_fail.2)) [x61] = Some (Some [x01]).
Proof. vm_compute. split; reflexivity. Qed.

(** An empty, non-nil value is found while it is in memory and vanishes when
    the memtable is flushed: tables encode deletion as the empty value. *)
Theorem empty_value_vanishes_on_flush :
  let s := session [OpPut [x61] (Some [])] empty_disk in
  let r := result_of (write_flush (OpPut [x61] (Some [])) []) in
  get_after s [x61] = Some (Some []) /\ r.1 = Some None /\ get_after r.2 [x61] = Some None.
Proof. vm_compute. split_and!; reflexivity. Qed.

(** ** Witnesses *)

(** compute the outcome of a step and name its results *)
Ltac run_step E :=
  match type of E with
  | ?lhs = _ => vm_compute in E; injection E as <- <-
  end.

Lemma flush_interleavings_refine_witness :
  exists db w1 s,
    let l := [(OpPut [x61] (Some [x09]), None); (OpDelete [x61], None)] in
    Open used_disk = (inr db, w1) /\ steps (mkSys w1 db Idle) l s /\ s_pc s = Idle /\
    Forall (fun x => x.2 = None) l /\
    forall k, lookup_inside (s_world s) (s_db s) k ->
      StrataGo_Get (s_world s) (s_db s) k =
        Some (foldl (op_answer k) (initial_answer old_log [(5, table1)] k) (l.*1)).
Proof.
  destruct (Open used_disk) as [[e|db] w1] eqn:E0; [exfalso; vm_compute in E0; discriminate|].
  destruct (run_op (OpPut [x61] (Some [x09])) db w1) as [[r1 db1] w2] eqn:E1.
  destruct (flush_rotate db1 w2) as [[x2 db2] w3] eqn:E2.
  destruct (run_op (OpDelete [x61]) db2 w3) as [[r3 db3] w4] eqn:E3.
  destruct (flush_build db3 w4) as [b w5] eqn:E4.
  pose proof E0 as E0'. vm_compute in E0'. injection E0' as Edb Ew1.
  pose proof E1 as E1'. rewrite <- Edb, <- Ew1 in E1'. vm_compute in E1'. injection E1' as Er1 Edb1 Ew2.
  pose proof E2 as E2'. rewrite <- Edb1, <- Ew2 in E2'. vm_compute in E2'. injection E2' as Ex2 Edb2 Ew3.
  pose proof E3 as E3'. rewrite <- Edb2, <- Ew3 in E3'. vm_compute in E3'. injection E3' as Er3 Edb3 Ew4.
  pose proof E4 as E4'. rewrite <- Edb3, <- Ew4 in E4'. vm_compute in E4'. injection E4' as Eb Ew5.
  destruct (db_immutableMemtable db3) as [imm|] eqn:Ei; [|rewrite <- Edb3 in Ei; discriminate].
  destruct b as [rd vf|e|e]; [|discriminate..].
  exists db, w1, (mkSys (os_Remove flushingName w5).2 (flush_install db3 rd) Idle). intros l.
  assert (steps (mkSys w1 db Idle) l
    (mkSys (os_Remove flushingName w5).2 (flush_install db3 rd) Idle)) as Hst.
  { eapply steps_op; [eapply step_op; [..|rewrite E1; by rewrite <- Er1]|].
    { done. } { rewrite <- Edb. vm_compute. reflexivity. }
    eapply steps_silent; [eapply step_rotate; [|rewrite E2; by rewrite <- Ex2]|].
    { rewrite <- Edb1. split; vm_compute; reflexivity. }
    eapply steps_op; [eapply step_op; [..|rewrite E3; by rewrite <- Er3]|].
    { done. } { rewrite <- Edb2. vm_compute. reflexivity. }
    eapply steps_silent; [eapply step_build; [|exact E4]|].
    { rewrite <- Edb3, <- Ew4. split; [vm_compute; reflexivity|]. split; [vm_compute; reflexivity|].
      split; [vm_compute; split; [discriminate|reflexivity]|]. repeat constructor. }
    eapply steps_silent; [eapply step_install; [exact Ei|]|].
    { rewrite <- Edb3 in Ei. injection Ei as <-. injection Eb as _ <-. vm_compute. reflexivity. }
    eapply steps_silent; [apply step_remove|]. apply steps_refl. }
  split; [done|]. split; [exact Hst|]. split; [done|].
  apply (flush_interleavings_refine used_disk old_log old_tail [(5, table1)] db w1 l _
    used_disk_ok); [repeat constructor; discriminate|exact E0|exact Hst|repeat constructor; discriminate].
Defined.

Lemma flush_rename_failure_disables_writes_witness :
  exists db w, (session [OpPut [x61] (Some [x01])] used_disk) = (inr db, w) /\
  let '((r, db'), w') := StrataGo_Flush db (set_faults [Succeeds; Fails 0] w) in
  r = Some EIO /\
  (forall k, StrataGo_Get w' db' k = StrataGo_Get (set_faults [Succeeds; Fails 0] w) db k) /\
  (forall k v, (StrataGo_Put db' k v w').1.1 = Some ErrClosed).
Proof.
  assert (Forall op_ok [OpPut [x61] (Some [x01])]) as Hops by repeat constructor.
  destruct (session_ok used_disk old_log old_tail [(5, table1)] [OpPut [x61] (Some [x01])]
    used_disk_ok Hops ltac:(reflexivity)) as (db & w & A & E & He & Ha & Hf & Hc & _).
  exists db, w. split; [done|].
  apply (flush_rename_failure_disables_writes (set_faults [Succeeds; Fails 0] w) db
    (old_log ++ [([x61], Some [x01])]) A [(5, table1)] 0 []).
  - clear E. apply (engine_ok_grows w); [exact He|repeat split; reflexivity| |apply (eo_inj _ _ _ _ _ _ He)].
    destruct (eo_wf _ _ _ _ _ _ He) as [H1 H2 H3 H4]. split; assumption.
  - clear E. intros ->. specialize (Ha [x61]). vm_compute in Ha. discriminate.
  - exact Hc.
  - reflexivity.
Defined.
End runs.
