(* ===== verification/Compaction.v ===== *)
(** * Compaction: [engine/compaction.go]

    Four tables of the same size tier are merged into one, which takes the place of
    the first of them in the list of readers.  They are neighbours as long as every table
    can be examined. *)
From stdpp Require Import base gmap sets list strings numbers sorting.
From Stdlib Require Import ZArith Lia Strings.Byte.
From S2P Require Import Prelude SkipList Disk Wal Bloom GoFmt Sst Reader GoHeap.
From S2P Require Import Merge Engine Recovery Flush.
Open Scope Z_scope.

Definition CompactionThreshold : nat := 4.

Definition getTier (size : Z) : Z :=
  let mb := 1024 * 1024 in
  if size <? 10 * mb then 0
  else if size <? 50 * mb then 1
  else if size <? 250 * mb then 2
  else if size <? 1024 * mb then 3
  else 4.

(** the loop of [selectFilesForCompaction] *)
Fixpoint select_loop (w : World) (readers : list Reader) (currentTier : Z)
    (currentGroup : list Reader) : list Reader * Z :=
  match readers with
  | [] => ([], -1)
  | r :: rs =>
      match os_Stat_Size w (Reader_Path r) with
      | inl _ => select_loop w rs currentTier currentGroup
      | inr size =>
          let tier := getTier size in
          if tier =? currentTier then
            let currentGroup := currentGroup ++ [r] in
            if (length currentGroup =? CompactionThreshold)%nat then (currentGroup, currentTier)
            else select_loop w rs currentTier currentGroup
          else select_loop w rs tier [r]
      end
  end.

Definition selectFilesForCompaction (w : World) (db : StrataGo) : list Reader * Z :=
  select_loop w (db_sstReaders db) (-1) [].

(** the iterators, in the order of the readers given *)
Fixpoint make_iters (readers : list Reader) : IO (result (list Iterator)) :=
  match readers with
  | [] => ret (inr [])
  | r :: rs =>
      and_bind (NewIterator r) (fun e => ret (inl e)) (fun iter =>
      and_bind (make_iters rs) (fun e => ret (inl e)) (fun iters =>
      ret (inr (iter :: iters))))
  end.

(** readers are compared by identity: the descriptor they hold *)
Definition same_reader (r1 r2 : Reader) : bool := (f_fd (r_file r1) =? f_fd (r_file r2))%nat.
Definition in_compacted (compacted : list Reader) (r : Reader) : bool :=
  existsb (same_reader r) compacted.

(** the loop that rebuilds the list of readers *)
Fixpoint rebuild_readers (compacted : list Reader) (newReader : Reader) (readers : list Reader)
    (inserted : bool) : list Reader :=
  match readers with
  | [] => []
  | r :: rs =>
      if in_compacted compacted r then
        if inserted then rebuild_readers compacted newReader rs true
        else newReader :: rebuild_readers compacted newReader rs true
      else r :: rebuild_readers compacted newReader rs inserted
  end.

(** the part under the lock *)
Definition compaction_install (db : StrataGo) (compacted : list Reader) (newReader : Reader)
    : StrataGo :=
  set_readers (rebuild_readers compacted newReader (db_sstReaders db) false) db.

Fixpoint close_iters (iters : list Iterator) : IO unit :=
  match iters with
  | [] => ret tt
  | it :: its => _ ← Iterator_Close it; close_iters its
  end.

(** [r.Close(); os.Remove(oldPath)] for every old reader *)
Fixpoint delete_old (readers : list Reader) : IO unit :=
  match readers with
  | [] => ret tt
  | r :: rs => _ ← Reader_Close r; _ ← os_Remove (Reader_Path r); delete_old rs
  end.

(** the path of the merged table: the one of the newest input *)
Definition merged_path (files : list Reader) : string :=
  sst_name (Sscanf_ts (match last files with Some r => Reader_Path r | None => "" end)).

Section compaction.
Context `{Murmur3}.

(** from the iterators to the reader of the merged table, without the lock *)
Definition compaction_build (files : list Reader) : IO (result (list Iterator * Reader)) :=
  and_bind (make_iters (rev files))
    (fun e => ret (inl (ErrWrap "failed to create iterator" e))) (fun iters =>
  and_bind (NewBuilder (merged_path files)) (fun e => ret (inl e)) (fun builder =>
  and_then (Merge iters builder) (fun e => ret (inl (ErrWrap "merge failed" e))) (
  and_bind (NewReader (merged_path files)) (fun e => ret (inl e)) (fun newReader =>
  ret (inr (iters, newReader)))))).

(** the files are closed and deleted after the lock has been released *)
Definition compaction_cleanup (files : list Reader) (iters : list Iterator) : IO unit :=
  _ ← close_iters iters;
  _ ← delete_old files;
  close_iters iters.

Definition RunCompaction (db : StrataGo) : IO (err * StrataGo) :=
  '(files, _) ← gets (fun w => selectFilesForCompaction w db);
  if (length files =? 0)%nat then ret (None, db) else
  and_bind (compaction_build files) (fun e => ret (Some e, db)) (fun '(iters, newReader) =>
  let db' := compaction_install db files newReader in
  _ ← compaction_cleanup files iters;
  ret (None, db')).
End compaction.

(** ** Selection *)

Definition tier_of (w : World) (r : Reader) : option Z :=
  match os_Stat_Size w (Reader_Path r) with inl _ => None | inr size => Some (getTier size) end.

Lemma select_loop_segment w all : forall readers tier group pre,
  Forall (fun r => is_Some (tier_of w r)) readers ->
  all = pre ++ group ++ readers -> Forall (fun r => tier_of w r = Some tier) group ->
  let files := (select_loop w readers tier group).1 in
  files = [] \/
  exists p q t, all = p ++ files ++ q /\ length files = CompactionThreshold /\
    Forall (fun r => tier_of w r = Some t) files.
Proof.
  induction readers as [|r rs IH]; intros tier group pre Hst E Hg; [by left|].
  apply Forall_cons in Hst as [[t Hr] Hst]. cbn [select_loop].
  pose proof Hr as Hr'. unfold tier_of in Hr'.
  destruct (os_Stat_Size w (Reader_Path r)) as [e|size]; [done|]. injection Hr' as Et.
  destruct (Z.eqb_spec (getTier size) tier) as [Ett|Hne].
  - destruct (Nat.eqb_spec (length (group ++ [r])) CompactionThreshold) as [El|_].
    + right. exists pre, rs, tier. cbn. split; [by rewrite E, <- app_assoc|]. split; [done|].
      apply Forall_app. split; [done|]. repeat constructor. congruence.
    + apply (IH tier (group ++ [r]) pre); [done|by rewrite E, <- !app_assoc|].
      apply Forall_app. split; [done|]. repeat constructor. congruence.
  - apply (IH (getTier size) [r] (pre ++ group)); [done|by rewrite E, <- !app_assoc|].
    repeat constructor. congruence.
Qed.

(** Whatever can be examined, a selection has four tables. *)
Lemma select_loop_length w readers : forall tier group,
  let files := (select_loop w readers tier group).1 in files = [] \/ length files = CompactionThreshold.
Proof.
  induction readers as [|r rs IH]; intros tier group; [by left|]. cbn [select_loop].
  destruct (os_Stat_Size w (Reader_Path r)) as [e|size]; [apply IH|].
  destruct (getTier size =? tier); [|apply IH].
  destruct (Nat.eqb_spec (length (group ++ [r])) CompactionThreshold); [by right|apply IH].
Qed.

(** ** Replacing a group of readers *)

Definition reader_fd (r : Reader) : fd := f_fd (r_file r).

Lemma in_compacted_spec files r : in_compacted files r = true <-> reader_fd r ∈ reader_fd <$> files.
Proof.
  unfold in_compacted. rewrite existsb_exists. setoid_rewrite <- list_elem_of_In.
  unfold same_reader. setoid_rewrite Nat.eqb_eq. rewrite list_elem_of_fmap.
  split; intros (x & ? & ?); by exists x.
Qed.

Lemma rebuild_skip files nr rs b :
  (forall r, r ∈ rs -> reader_fd r ∉ reader_fd <$> files) ->
  forall rest, rebuild_readers files nr (rs ++ rest) b = rs ++ rebuild_readers files nr rest b.
Proof.
  intros Hn rest. induction rs as [|r rs IH]; [done|]. cbn [app rebuild_readers].
  destruct (in_compacted files r) eqn:E.
  - apply in_compacted_spec in E. by destruct (Hn r ltac:(by left)).
  - rewrite IH; [done|]. intros r' Hr'. apply Hn. by right.
Qed.

Lemma rebuild_drop files nr rs :
  (forall r, r ∈ rs -> reader_fd r ∈ reader_fd <$> files) ->
  forall rest, rebuild_readers files nr (rs ++ rest) true = rebuild_readers files nr rest true.
Proof.
  intros Hn rest. induction rs as [|r rs IH]; [done|]. cbn [app rebuild_readers].
  rewrite (proj2 (in_compacted_spec files r)) by (apply Hn; by left).
  apply IH. intros r' Hr'. apply Hn. by right.
Qed.

(** The new reader takes the place of the group. *)
Lemma rebuild_ok pre files post nr :
  NoDup (reader_fd <$> pre ++ files ++ post) -> files <> [] ->
  rebuild_readers files nr (pre ++ files ++ post) false = pre ++ nr :: post.
Proof.
  intros Hnd Hne. rewrite !fmap_app, !NoDup_app in Hnd.
  destruct Hnd as (_ & Hpre & _ & Hpost & _).
  rewrite rebuild_skip.
  2: { intros r Hr Hin. apply (Hpre (reader_fd r)); [by apply list_elem_of_fmap_2|].
       apply elem_of_app. by left. }
  f_equal. destruct files as [|f files]; [done|]. cbn [app rebuild_readers].
  rewrite (proj2 (in_compacted_spec (f :: files) f)) by (rewrite fmap_cons; by left).
  rewrite rebuild_drop by (intros r Hr; rewrite fmap_cons; right; by apply list_elem_of_fmap_2).
  f_equal. rewrite <- (app_nil_r post) at 1. rewrite rebuild_skip; [cbn; by rewrite app_nil_r|].
  intros r Hr Hin. apply (Hpost (reader_fd r)); [done|]. by apply list_elem_of_fmap_2.
Qed.

Section fds.
Context `{Murmur3}.

Lemma tables_fds_NoDup w rs Ts :
  (forall s1 s2 i, w_dir w !! s1 = Some i -> w_dir w !! s2 = Some i -> s1 = s2) ->
  Forall2 (table_ok w) rs Ts -> StronglySorted Z.lt (Ts.*1) ->
  Forall (fun t => - 2 ^ 63 <= t.1 < 2 ^ 63) Ts -> NoDup (reader_fd <$> rs).
Proof.
  intros Hinj HF. induction HF as [|r t rs Ts Ht HF IH]; [constructor|].
  rewrite fmap_cons. intros [Hs Hlt]%StronglySorted_inv [Hr1 Hr]%Forall_cons.
  rewrite fmap_cons. constructor; [|by apply IH].
  intros (r' & E & Hin)%list_elem_of_fmap.
  apply list_elem_of_lookup in Hin as [j Hj]. destruct (Forall2_lookup_l _ _ _ _ _ HF Hj) as (t' & Htj & Ht').
  destruct Ht as (_ & _ & _ & i & Hd & Hi & _). destruct Ht' as (_ & _ & _ & i' & Hd' & Hi' & _).
  unfold reader_fd, file_ino in *. rewrite E in Hi. assert (i = i') as <- by congruence.
  pose proof (Hinj _ _ _ Hd Hd') as En. apply list_elem_of_lookup_2 in Htj.
  rewrite Forall_forall in Hr. apply sst_name_inj in En; [|done|by apply Hr].
  rewrite Forall_forall in Hlt. specialize (Hlt t'.1 (list_elem_of_fmap_2 fst _ _ Htj)). lia.
Qed.

(** ** The steps of a compaction *)

Lemma make_iters_ok rs : forall Ts w,
  Forall2 (table_ok w) rs Ts -> w_faults w = [] -> wf_world w ->
  exists fs w', make_iters rs w = (inr (open_iters (zip fs (Ts.*2))), w') /\
    extends w w' /\ wf_world w' /\ length fs = length Ts /\ w_now w' = w_now w /\
    Forall2 (fun f t => file_data w' f = Some (sst_bytes t.2) /\
                        file_ino w' f = w_dir w !! sst_name t.1) fs Ts /\
    Forall (fun f => (w_next w <= f_fd f)%nat) fs.
Proof.
  induction rs as [|r rs IH]; intros Ts w HF Hf Hw.
  - apply Forall2_nil_inv_l in HF as ->. exists [], w. split; [done|]. split; [apply extends_refl|done].
  - pose proof HF as HF0. apply Forall2_cons_inv_l in HF as (t & Ts' & Ht & HF & ->). pose proof Ht as (Hok & Er & Hname & i & Hdir & Hino & Hdata).
    cbn [make_iters]. unfold NewIterator, and_bind, mbind, IO_bind. rewrite Hname, (os_Open_ok _ i) by done.
    unfold gets, ret. rewrite (file_data_opened _ i (sst_bytes t.2)) by done.
    cbn [default id]. rewrite data_limit_sst by done.
    set (f := mkFile (sst_name t.1) (w_next w)).
    assert (wf_world (opened i w)) as Hw' by (apply wf_opened; eauto).
    destruct (IH Ts' (opened i w)) as (fs & w' & E & Hext & Hwf & Hl & Hn & HFd & Hfd); [|done|done|].
    { eapply Forall2_impl; [exact HF|]. intros r' t'. apply table_ok_extends, opened_extends. done. }
    rewrite E. exists (f :: fs), w'.
    pose proof (opened_extends i w Hw) as (H1 & H2 & H3 & H4 & H5).
    pose proof Hext as (H1' & H2' & H3' & H4' & H5').
    split; [done|]. split; [split_and!; [congruence|congruence|by etrans|congruence|lia]|].
    split; [done|]. split; [cbn; by rewrite Hl|]. split; [by rewrite Hn|]. split.
    + constructor; [|done].
      assert (w_fds w' !! f_fd f = Some i) as Hfi
        by (eapply lookup_weaken; [|exact H3']; apply lookup_insert_eq).
      unfold file_data, file_ino. rewrite Hfi, Hdir. cbn. by rewrite H2'.
    + constructor; [done|]. eapply Forall_impl; [exact Hfd|]. cbn. intros g Hg. lia.
Qed.

Lemma close_iters_ok its : forall w,
  w_faults w = [] ->
  exists w', close_iters its w = (tt, w') /\ w_dir w' = w_dir w /\ w_data w' = w_data w /\
    w_faults w' = [] /\
    (forall f, f_fd f ∉ (fun it => f_fd (it_file it)) <$> its -> file_ino w' f = file_ino w f).
Proof.
  induction its as [|it its IH]; intros w Hf; [by exists w|]. cbn [close_iters].
  unfold Iterator_Close, file_Close, mbind, IO_bind. destruct (file_ino w (it_file it)) as [i|].
  - rewrite next_outcome_ok by done.
    destruct (IH (set_fds (delete (f_fd (it_file it)) (w_fds w)) w) Hf)
      as (w' & E & H1 & H2 & H3 & H4).
    exists w'. split_and!; try done. intros f Hn. rewrite fmap_cons, not_elem_of_cons in Hn.
    destruct Hn as [Hne Hn]. rewrite H4 by done. unfold file_ino. cbn. by rewrite lookup_delete_ne.
  - destruct (IH w Hf) as (w' & E & H1 & H2 & H3 & H4). exists w'. split_and!; try done.
    intros f Hn. apply H4. rewrite fmap_cons, not_elem_of_cons in Hn. tauto.
Qed.

Lemma delete_old_ok rs : forall w,
  w_faults w = [] ->
  exists w', delete_old rs w = (tt, w') /\ w_data w' = w_data w /\ w_faults w' = [] /\
    (forall s, w_dir w' !! s = if decide (s ∈ Reader_Path <$> rs) then None else w_dir w !! s) /\
    (forall f, f_fd f ∉ reader_fd <$> rs -> file_ino w' f = file_ino w f).
Proof.
  induction rs as [|r rs IH]; intros w Hf.
  - exists w. split_and!; try done.
  - cbn [delete_old]. unfold mbind, IO_bind.
    assert (exists w1, Reader_Close r w = (if decide (is_Some (file_ino w (r_file r))) then None else Some ErrClosed, w1) /\
      w_data w1 = w_data w /\ w_faults w1 = [] /\ w_dir w1 = w_dir w /\
      (forall f, f_fd f <> reader_fd r -> file_ino w1 f = file_ino w f)) as (w1 & -> & D1 & F1 & R1 & I1).
    { unfold Reader_Close, file_Close. destruct (file_ino w (r_file r)) as [i|] eqn:Ei.
      - rewrite next_outcome_ok by done. eexists. split; [done|]. split_and!; try done.
        intros f Hne. unfold file_ino. cbn. by rewrite lookup_delete_ne.
      - exists w. by rewrite decide_False by (by intros [? ?]). }
    assert (exists e w2, os_Remove (Reader_Path r) w1 = (e, w2) /\ w_data w2 = w_data w1 /\
      w_faults w2 = [] /\ w_dir w2 = delete (Reader_Path r) (w_dir w1) /\ w_fds w2 = w_fds w1)
      as (e & w2 & -> & D2 & F2 & R2 & I2).
    { unfold os_Remove. destruct (w_dir w1 !! Reader_Path r) eqn:Ed.
      - rewrite next_outcome_ok by done. eexists _, _. split; [done|]. done.
      - eexists _, _. split; [done|]. by rewrite delete_id. }
    destruct (IH w2 F2) as (w' & -> & D3 & F3 & R3 & I3). exists w'. split; [done|].
    split; [congruence|]. split; [done|]. split.
    + intros s. rewrite R3, fmap_cons, R2, R1. destruct (decide (s = Reader_Path r)) as [->|Hne].
      * rewrite lookup_delete_eq, (decide_True (P := _ ∈ _ :: _)) by (by left). by case_decide.
      * rewrite lookup_delete_ne by done. apply decide_ext. rewrite elem_of_cons.
        split; [by right|by intros [?|?]].
    + intros f Hn. rewrite fmap_cons, not_elem_of_cons in Hn. destruct Hn as [Hne Hn].
      rewrite I3 by done. unfold file_ino at 1. rewrite I2. by apply I1.
Qed.
End fds.

(** ** A whole compaction *)

Lemma tables_map_app Ts Ts' : tables_map (Ts ++ Ts') = tables_map Ts' ∪ tables_map Ts.
Proof.
  induction Ts' as [|es Ts' IH] using rev_ind.
  - rewrite app_nil_r. cbn. by rewrite (left_id_L ∅ (∪)).
  - rewrite app_assoc, !tables_map_snoc, IH. by rewrite (assoc_L (∪)).
Qed.

Lemma newest_wins_rev Ts : newest_wins (rev Ts) = tables_map Ts.
Proof.
  induction Ts as [|es Ts IH] using rev_ind; [done|].
  rewrite rev_app_distr, tables_map_snoc, <- IH. done.
Qed.

Section run.
Context `{Murmur3}.

Lemma rev_fmap {A B} (g : A -> B) l : g <$> rev l = rev (g <$> l).
Proof. rewrite !rev_alt. apply fmap_reverse. Qed.

(** The merged table is stored under the name of the newest input. *)
Lemma merged_path_in w files G :
  Forall2 (table_ok w) files G -> files <> [] -> Forall (fun t => - 2 ^ 63 <= t.1 < 2 ^ 63) G ->
  merged_path files ∈ Reader_Path <$> files.
Proof.
  intros HF Hne Hr. destruct files as [|r files _] using rev_ind; [done|].
  apply Forall2_app_inv_l in HF as (G1 & G2 & _ & HF & ->).
  apply Forall2_cons_inv_l in HF as (t & G3 & (_ & _ & Hn & _) & _ & ->).
  apply Forall_app in Hr as [_ [Ht _]%Forall_cons].
  unfold merged_path. rewrite last_snoc. unfold Reader_Path at 1. rewrite Hn, Sscanf_sst_name by done.
  rewrite <- Hn, fmap_app. apply elem_of_app. right. by left.
Qed.

(** the file behind a handle has not changed *)
Definition kept (w w' : World) (f : File) : Prop :=
  file_ino w' f = file_ino w f /\ file_data w' f = file_data w f.

(** no two names share an inode *)
Definition dir_inj (w : World) : Prop :=
  forall s1 s2 i, w_dir w !! s1 = Some i -> w_dir w !! s2 = Some i -> s1 = s2.

Lemma publish_kept name d w w1 f i :
  wf_world w -> extends w w1 -> file_ino w f = Some i -> kept w (publish name d w1) f.
Proof.
  intros Hw (_ & Ea & Hfds & _ & Hnx) Hi. pose proof (wf_open_lt w _ _ Hw Hi) as Hlt.
  assert (file_ino (publish name d w1) f = Some i) as E by by eapply lookup_weaken.
  split; [congruence|]. unfold file_data. rewrite E, Hi. cbn. by rewrite lookup_insert_ne, Ea by lia.
Qed.

(** what the part of a compaction without the lock leaves behind: the merged
    table, newest value first, under the name of the newest input; the iterators
    still open on the files of the inputs; every open file as it was *)
Record built (w : World) (files : list Reader) (G : list (Z * list (bytes * slice)))
    (iters : list Iterator) (nr : Reader) (out : list (bytes * slice)) (w' : World) : Prop := {
  bu_ok : sst_ok out;
  bu_reader : nr = sst_reader out (r_file nr);
  bu_name : f_name (r_file nr) = merged_path files;
  bu_map : list_to_map (read_back out) = tables_map (G.*2);
  bu_wf : wf_world w';
  bu_inj : dir_inj w';
  bu_faults : w_faults w' = [];
  bu_ino : exists j, w_dir w' = <[merged_path files := j]> (w_dir w) /\
             file_ino w' (r_file nr) = Some j /\ (w_next w <= j)%nat /\
             w_data w' !! j = Some (sst_bytes out);
  bu_data : w_data w ⊆ w_data w';
  bu_kept : forall f, is_Some (file_ino w f) -> kept w w' f;
  bu_fd : (w_next w <= reader_fd nr)%nat;
  bu_iters : Forall (fun it => (w_next w <= f_fd (it_file it))%nat /\
               f_fd (it_file it) <> reader_fd nr /\
               exists t, t ∈ G /\ file_ino w' (it_file it) = w_dir w !! sst_name t.1) iters
}.

(** The opened inputs hold the tables. *)
Definition input_file (w w1 : World) (f : File) (t : Z * list (bytes * slice)) : Prop :=
  file_data w1 f = Some (sst_bytes t.2) /\ file_ino w1 f = w_dir w !! sst_name t.1.

Lemma inputs_sources w w1 rs fs G :
  Forall2 (table_ok w) rs G -> Forall2 (input_file w w1) fs G ->
  Forall (fun t => sst_ok t.2 /\ file_data w1 t.1 = Some (sst_bytes t.2)) (zip fs (G.*2)).
Proof.
  intros HG. revert fs. induction HG as [|r t rs G Ht _ IH]; intros fs HFd.
  - apply Forall2_nil_inv_r in HFd as ->. constructor.
  - apply Forall2_cons_inv_r in HFd as (f & fs' & [Hd _] & HFd & ->). rewrite fmap_cons. cbn.
    constructor; [|by apply IH]. split; [apply Ht|done].
Qed.

Lemma inputs_iters w w1 w' fs G fd :
  Forall2 (input_file w w1) fs G -> Forall (fun f => (w_next w <= f_fd f)%nat) fs ->
  wf_world w1 -> (w_next w1 <= fd)%nat ->
  (forall f, (f_fd f < w_next w1)%nat -> file_ino w' f = file_ino w1 f) ->
  Forall (fun it => (w_next w <= f_fd (it_file it))%nat /\ f_fd (it_file it) <> fd /\
    exists t, t ∈ G /\ file_ino w' (it_file it) = w_dir w !! sst_name t.1) (open_iters (zip fs (G.*2))).
Proof.
  intros HFd Hfd Hw1 Hlt Hsame. apply Forall_fmap, Forall_forall. intros [f es] Hin.
  apply elem_of_zip_l in Hin as Hf. cbn [compose fst snd]. rewrite iterator_at_file.
  rewrite Forall_forall in Hfd. apply list_elem_of_lookup in Hf as [n Hn].
  destruct (Forall2_lookup_l _ _ _ _ _ HFd Hn) as (t & Ht & Hd & Hino).
  apply file_data_ino in Hd as (i & Hi & _). pose proof (wf_fd_lt w1 f i Hw1 Hi).
  split; [by eapply Hfd, list_elem_of_lookup_2|]. split; [lia|]. exists t.
  split; [by eapply list_elem_of_lookup_2|]. by rewrite Hsame.
Qed.

Lemma compaction_build_ok w files G :
  wf_world w -> dir_inj w -> w_faults w = [] -> Forall2 (table_ok w) files G ->
  w_dir w !! tmp_name (merged_path files) (w_now w) = None -> tables_fit (G.*2) ->
  exists iters nr out w', compaction_build files w = (inr (iters, nr), w') /\
    built w files G iters nr out w'.
Proof.
  intros Hw Hinj Hf HG Htmp Hfit.
  assert (Forall2 (table_ok w) (rev files) (rev G)) as HGr by (rewrite !rev_alt; by apply Forall2_reverse).
  unfold compaction_build, and_bind, and_then, mbind, IO_bind.
  destruct (make_iters_ok (rev files) (rev G) w HGr Hf Hw)
    as (fs & w1 & -> & Hext & Hw1 & Hlen & Hn1 & HFd & Hfd).
  pose proof Hext as (Ed & Ea & Hfds & Hfa & Hnx).
  set (ts := zip fs ((rev G).*2)).
  assert (ts.*2 = (rev G).*2) as Ets by (apply snd_zip; rewrite length_fmap; lia).
  destruct (Merge_publish (merged_path files) ts w1) as (b & wb & out & -> & -> & Hsort & Hmap & Hsub).
  { congruence. } { done. } { by rewrite Hn1, Ed. }
  { by eapply inputs_sources. }
  { rewrite Ets, rev_fmap. by apply tables_fit_rev. }
  assert (sst_ok out) as Hout.
  { eapply merged_sst_ok; [| |done|exact Hsub].
    - rewrite Ets. apply Forall_fmap. clear -HGr. induction HGr as [|r t rs G' Ht _ IH]; constructor; [apply Ht|done].
    - rewrite Ets, rev_fmap. by apply tables_fit_rev. }
  set (w2 := publish _ _ w1).
  assert (wf_world w2) as Hw2 by by apply wf_publish.
  assert (w_dir w2 !! merged_path files = Some (w_next w1)) as Hd2 by apply lookup_insert_eq.
  assert (w_data w2 !! w_next w1 = Some (sst_bytes out)) as Ha2 by apply lookup_insert_eq.
  rewrite (NewReader_ok out Hout _ w2 _ Hd2 Ha2) by (cbn; congruence).
  assert (forall g, is_Some (file_ino w2 g) -> kept w2 (opened (w_next w1) w2) g) as Hk2.
  { intros g [j Hj]. assert (file_ino (opened (w_next w1) w2) g = Some j) as E.
    { eapply lookup_weaken; [exact Hj|]. apply insert_subseteq, (ww_fds w2 Hw2). lia. }
    split; [congruence|]. unfold file_data. by rewrite E, Hj. }
  eexists _, _, out, _. split; [reflexivity|]. split; try done.
  - by rewrite Hmap, Ets, rev_fmap, newest_wins_rev.
  - apply wf_opened; [done|by eauto].
  - intros s1 s2 j. apply (inj_publish _ _ w1 Hw1). by rewrite Ed.
  - cbn. congruence.
  - exists (w_next w1). cbn. rewrite Ed. split_and!; [done| |done|done].
    unfold file_ino. cbn. apply lookup_insert_eq.
  - cbn. rewrite <- Ea. apply insert_subseteq, (ww_data w1 Hw1). lia.
  - intros f [i Hi]. destruct (publish_kept (merged_path files) (sst_bytes out) w w1 f i Hw Hext Hi) as [E1 E2].
    destruct (Hk2 f) as [E3 E4]; [exists i; etrans; [exact E1|done]|].
    split; [etrans; [exact E3|exact E1]|etrans; [exact E4|exact E2]].
  - unfold reader_fd. cbn. lia.
  - eapply Forall_impl; [apply (inputs_iters w w1 (opened (w_next w1) w2) fs (rev G) (w_next w2)); [done..|cbn; lia|]|].
    + intros f Hlt. unfold file_ino. cbn. rewrite lookup_insert_ne by lia. done.
    + intros it (H1 & H2 & t & Ht & Hi). split; [exact H1|]. split; [exact H2|]. exists t. split; [|done].
      apply list_elem_of_In, in_rev, list_elem_of_In. exact Ht.
Qed.

Lemma compaction_cleanup_ok w files iters :
  w_faults w = [] ->
  exists w', compaction_cleanup files iters w = (tt, w') /\ w_data w' = w_data w /\
    w_faults w' = [] /\
    (forall s, w_dir w' !! s = if decide (s ∈ Reader_Path <$> files) then None else w_dir w !! s) /\
    (forall f, f_fd f ∉ (fun it => f_fd (it_file it)) <$> iters -> f_fd f ∉ reader_fd <$> files ->
      kept w w' f).
Proof.
  intros Hf. unfold compaction_cleanup, mbind, IO_bind.
  destruct (close_iters_ok iters w Hf) as (w4 & -> & D4 & A4 & F4 & I4).
  destruct (delete_old_ok files w4 F4) as (w5 & -> & A5 & F5 & D5 & I5).
  destruct (close_iters_ok iters w5 F5) as (w6 & -> & D6 & A6 & F6 & I6).
  exists w6. split; [done|]. split; [congruence|]. split; [done|]. split.
  - intros s. by rewrite D6, D5, D4.
  - intros f H1 H2. unfold kept, file_data. by rewrite I6, I5, I4, A6, A5, A4.
Qed.

Lemma kept_reads w w' r es : kept w w' (r_file r) -> reads w r es -> reads w' r es.
Proof. intros [_ E] (H1 & H2 & H3). split; [done|]. split; [done|]. congruence. Qed.

(** A whole compaction, the engine being idle otherwise. *)
(** The cleanup spares the tables that were not merged. *)
Lemma built_spares w files G iters nr out w1 w2 rs Ts :
  wf_world w -> built w files G iters nr out w1 ->
  (forall f, f_fd f ∉ (fun it => f_fd (it_file it)) <$> iters -> f_fd f ∉ reader_fd <$> files ->
    kept w1 w2 f) ->
  Forall2 (table_ok w) rs Ts -> (forall r, r ∈ rs -> reader_fd r ∉ reader_fd <$> files) ->
  Forall2 (reads w2) rs (Ts.*2).
Proof.
  intros Hw Hb K2. induction 1 as [|r t rs Ts Ht _ IH]; intros Hn; [constructor|]. rewrite fmap_cons.
  constructor; [|apply IH; intros r' Hr'; apply Hn; by right].
  pose proof Ht as (_ & _ & _ & i & _ & Hi & _).
  apply (kept_reads w1); [apply K2; [|apply Hn; by left]|].
  - intros (it & E & Hin)%list_elem_of_fmap. pose proof (wf_fd_lt w _ _ Hw Hi).
    pose proof (bu_iters _ _ _ _ _ _ _ Hb) as HI. rewrite Forall_forall in HI.
    destruct (HI it Hin) as (? & _). lia.
  - apply (kept_reads w); [apply (bu_kept _ _ _ _ _ _ _ Hb); eauto|]. by apply table_ok_reads.
Qed.

Lemma RunCompaction_ok w db log A I Tpre G Tpost rpre files rpost tier :
  engine_ok w db log A I (Tpre ++ G ++ Tpost) -> w_faults w = [] ->
  selectFilesForCompaction w db = (files, tier) -> files <> [] ->
  db_sstReaders db = rpre ++ files ++ rpost ->
  Forall2 (table_ok w) rpre Tpre -> Forall2 (table_ok w) files G ->
  Forall2 (table_ok w) rpost Tpost ->
  w_dir w !! tmp_name (merged_path files) (w_now w) = None -> tables_fit (G.*2) ->
  exists w' out nr,
    RunCompaction db w = ((None, set_readers (rpre ++ nr :: rpost) db), w') /\
    Forall2 (reads w') (rpre ++ nr :: rpost) (Tpre.*2 ++ out :: Tpost.*2) /\
    list_to_map (read_back out) = tables_map (G.*2) /\ w_faults w' = [] /\
    w_dir w' !! merged_path files = None.
Proof.
  intros He Hf Hsel Hne Hrs Hpre HG Hpost Htmp Hfit.
  pose proof (eo_wf _ _ _ _ _ _ He) as Hw. pose proof (eo_inj _ _ _ _ _ _ He) as Hinj.
  pose proof (eo_range _ _ _ _ _ _ He) as Hr.
  pose proof (tables_fds_NoDup _ _ _ Hinj (eo_tables _ _ _ _ _ _ He) (eo_sorted _ _ _ _ _ _ He) Hr)
    as Hnd. rewrite Hrs in Hnd.
  unfold RunCompaction, gets, and_bind, mbind, IO_bind. rewrite Hsel.
  destruct (Nat.eqb_spec (length files) 0) as [E0|_]; [by apply length_zero_iff_nil in E0|].
  destruct (compaction_build_ok w files G Hw Hinj Hf HG Htmp Hfit)
    as (iters & nr & out & w1 & -> & Hb).
  destruct (compaction_cleanup_ok w1 files iters (bu_faults _ _ _ _ _ _ _ Hb))
    as (w2 & -> & A2 & F2 & D2 & K2).
  unfold compaction_install. rewrite Hrs, rebuild_ok by done.
  rewrite !fmap_app, !NoDup_app in Hnd. destruct Hnd as (_ & Hnpre & _ & Hnpost & _).
  pose proof (fun rs Ts => built_spares w files G iters nr out w1 w2 rs Ts Hw Hb K2) as Hall.
  exists w2, out, nr. split; [done|]. split; [|split; [apply (bu_map _ _ _ _ _ _ _ Hb)|split; [done|]]].
  - apply Forall2_app; [apply Hall; [done|]|constructor; [|apply Hall; [done|]]].
    + intros r Hr' Hin. apply (Hnpre (reader_fd r)); [by apply list_elem_of_fmap_2|].
      apply elem_of_app. by left.
    + destruct (bu_ino _ _ _ _ _ _ _ Hb) as (j & _ & Hj & _ & Hd).
      apply (kept_reads w1); [apply K2|].
      * intros (it & E & Hin)%list_elem_of_fmap. pose proof (bu_iters _ _ _ _ _ _ _ Hb) as HI.
        rewrite Forall_forall in HI. destruct (HI it Hin) as (_ & Hn & _). by apply Hn.
      * intros (r & E & Hin)%list_elem_of_fmap. apply list_elem_of_lookup in Hin as [n Hn].
        destruct (Forall2_lookup_l _ _ _ _ _ HG Hn) as (t & _ & (_ & _ & _ & i & _ & Hi & _)).
        pose proof (wf_fd_lt w _ _ Hw Hi). pose proof (bu_fd _ _ _ _ _ _ _ Hb).
        unfold reader_fd in *. lia.
      * split; [apply (bu_ok _ _ _ _ _ _ _ Hb)|]. split; [apply (bu_reader _ _ _ _ _ _ _ Hb)|].
        unfold file_data. by rewrite Hj.
    + intros r Hr' Hin. apply (Hnpost (reader_fd r)); [done|by apply list_elem_of_fmap_2].
  - rewrite D2, decide_True; [done|]. apply (merged_path_in w files G); [done|done|].
    rewrite !Forall_app in Hr. apply Hr.
Qed.
End run.

(** ** Properties *)

Section properties.
Context `{Murmur3}.

Lemma inside_open w db rs ess k :
  db_sstReaders db = rs -> lookup_inside w db k -> Forall2 (reads w) rs ess ->
  Forall (fun es => no_phantom es k) ess.
Proof.
  unfold lookup_inside. intros ->. intros Hl HF. revert Hl.
  induction HF as [|r es rs ess (_ & Er & Hd) _ IH]; [done|]. intros [Hr Hl]%Forall_cons.
  constructor; [by apply Hr|by apply IH].
Qed.

Lemma selected_group w db log A I Ts files tier :
  engine_ok w db log A I Ts -> selectFilesForCompaction w db = (files, tier) -> files <> [] ->
  exists rpre rpost Tpre G Tpost,
    db_sstReaders db = rpre ++ files ++ rpost /\ Ts = Tpre ++ G ++ Tpost /\
    Forall2 (table_ok w) rpre Tpre /\ Forall2 (table_ok w) files G /\
    Forall2 (table_ok w) rpost Tpost /\ length files = CompactionThreshold.
Proof.
  intros He Hsel Hne. pose proof (eo_tables _ _ _ _ _ _ He) as HF.
  assert (Forall (fun r => is_Some (tier_of w r)) (db_sstReaders db)) as Hst.
  { clear -HF. induction HF as [|r t rs Ts (_ & _ & Hn & i & Hd & _) _ IH]; constructor; [|done].
    unfold tier_of, Reader_Path, os_Stat_Size. rewrite Hn, Hd. eauto. }
  pose proof (select_loop_segment w (db_sstReaders db) (db_sstReaders db) (-1) [] [] Hst eq_refl
    ltac:(constructor)) as Hseg. unfold selectFilesForCompaction in Hsel. rewrite Hsel in Hseg.
  destruct Hseg as [?|(p & q & t & E & Hl & _)]; [done|]. cbn [fst] in *.
  rewrite E in HF. apply Forall2_app_inv_l in HF as (Tpre & T' & H1 & HF & ->).
  apply Forall2_app_inv_l in HF as (G & Tpost & H2 & H3 & ->).
  by exists p, q, Tpre, G, Tpost.
Qed.

(** the bytes of the files of the group *)
Definition group_size (w : World) (files : list Reader) : Z :=
  foldr (fun r n => len (default [] (file_data w (r_file r))) + n) 0 files.

Lemma len_entries es : 8 * len es <= len (data_of es).
Proof.
  induction es as [|e es IH]; [done|].
  rewrite data_of_cons, len_app, len_entry_enc, len_cons. lens.
Qed.

(** Up to 2 GiB in total, a group fits one table. *)
Lemma group_fits w files ess :
  Forall2 (reads w) files ess -> group_size w files < 2 ^ 31 -> tables_fit ess.
Proof.
  intros HF Hs. assert (len (data_of (concat ess)) <= group_size w files) as Hle.
  { clear Hs. induction HF as [|r es rs ess (_ & _ & Hd) _ IH]; [done|].
    cbn [group_size foldr concat]. fold (group_size w rs).
    rewrite data_of_app, len_app, Hd. cbn [default id]. unfold sst_bytes. lens. }
  pose proof (len_entries (concat ess)). unfold tables_fit, bloom_keys_ok, bitsPerKey. lia.
Qed.

(** A compaction deletes its own result.  The merged table is renamed to the
    path of the newest input, and then the paths of all inputs are removed: when
    the compaction is over, no file of that name can be opened, so the merged
    data is reachable through the open descriptor only. *)
Theorem compaction_deletes_merged_table (w : World) (db : StrataGo) (log A : list (bytes * slice))
    (I : option (list (bytes * slice))) (Ts : list (Z * list (bytes * slice)))
    (files : list Reader) (tier : Z)
    (He : engine_ok w db log A I Ts) (Hf : w_faults w = [])
    (Hsel : selectFilesForCompaction w db = (files, tier)) (Hne : files <> [])
    (Htmp : w_dir w !! tmp_name (merged_path files) (w_now w) = None) (Hsize : group_size w files < 2 ^ 31) :
  let '((r, db'), w') := RunCompaction db w in
  r = None /\ (NewReader (merged_path files) w').1 = inl ENOENT.
Proof.
  destruct (selected_group _ _ _ _ _ _ _ _ He Hsel Hne)
    as (rpre & rpost & Tpre & G & Tpost & Hrs & -> & H1 & H2 & H3 & Hl).
  destruct (RunCompaction_ok w db log A I Tpre G Tpost rpre files rpost tier He Hf Hsel Hne Hrs
    H1 H2 H3 Htmp) as (w' & out & nr & E & _ & _ & _ & Hd).
  { eapply group_fits; [by apply tables_reads|done]. }
  rewrite E. split; [done|]. unfold NewReader, and_bind, os_Open, gets, mbind, IO_bind.
  by rewrite Hd.
Qed.

(** C26: The group that is selected for compaction is contiguous: when the file
    of every open table can be examined, the selection is empty or four
    neighbouring readers of the same size tier. *)
Theorem compaction_group_contiguous (w : World) (db : StrataGo)
    (Hstat : Forall (fun r => exists size, os_Stat_Size w (Reader_Path r) = inr size)
               (db_sstReaders db)) :
  let files := (selectFilesForCompaction w db).1 in
  files = [] \/
  exists pre post tier, db_sstReaders db = pre ++ files ++ post /\
    length files = CompactionThreshold /\
    Forall (fun r => exists size, os_Stat_Size w (Reader_Path r) = inr size /\ getTier size = tier)
      files.
Proof.
  assert (Forall (fun r => is_Some (tier_of w r)) (db_sstReaders db)) as Hst.
  { eapply Forall_impl; [exact Hstat|]. intros r [size E]. unfold tier_of. rewrite E. eauto. }
  destruct (select_loop_segment w (db_sstReaders db) (db_sstReaders db) (-1) [] [] Hst eq_refl
    ltac:(constructor)) as [E|(p & q & t & E & Hl & Ht)]; [by left|]. right.
  exists p, q, t. split; [done|]. split; [done|]. eapply Forall_impl; [exact Ht|].
  intros r Hr. unfold tier_of in Hr. destruct (os_Stat_Size w (Reader_Path r)); [done|].
  eexists. split; [done|]. congruence.
Qed.
End properties.

(** ** Concrete runs *)

Section runs.
#[local] Existing Instance fnv.
#[local] Existing Instance plain_runtime.

(** write one key, flush it, let the clock advance; for every key *)
Fixpoint fill (keys : list bytes) (db : StrataGo) : IO StrataGo :=
  match keys with
  | [] => ret db
  | k :: ks =>
      '(_, db) ← run_op (OpPut k (Some k)) db;
      '(_, db) ← StrataGo_Flush db;
      _ ← (fun w => (tt, set_now (w_now w + 1) w)) : IO unit;
      fill ks db
  end.

(** four flushed tables *)
Definition four_tables : result StrataGo * World :=
  match Open empty_disk with
  | (inr db, w) => let '(db, w) := fill [[x61]; [x62]; [x63]; [x64]] db w in (inr db, w)
  | r => r
  end.

Definition compacted : result StrataGo * World :=
  match four_tables with
  | (inr db, w) => let '((_, db), w) := RunCompaction db w in (inr db, w)
  | r => r
  end.

Definition scan_of (r : result StrataGo * World) : result (gmap bytes bytes) :=
  match r with
  | (inr db, w) => (StrataGo_ScanAll db w).1
  | (inl e, _) => inl e
  end.

(** Compaction loses data.  After four flushed tables have been compacted,
    [Get] still finds a key through the open descriptor, but [ScanAll], which
    opens the file by name, silently returns nothing, and after a restart the key
    is gone; before the compaction both found it. *)
Theorem compaction_loses_data :
  get_after compacted [x61] = Some (Some [x61]) /\
  scan_of four_tables =
    inr (list_to_map [([x61], [x61]); ([x62], [x62]); ([x63], [x63]); ([x64], [x64])]) /\
  scan_of compacted = inr ∅ /\
  get_after (Open (crash four_tables.2)) [x61] = Some (Some [x61]) /\
  get_after (Open (crash compacted.2)) [x61] = Some None.
Proof. split_and!; vm_equal. Qed.

(** ** Witnesses *)

(** a directory with four small tables *)
Definition table_n (b : byte) : list (bytes * slice) := [([b], Some [b])].
Definition tables4 : list (Z * list (bytes * slice)) :=
  [(1, table_n x61); (2, table_n x62); (3, table_n x63); (4, table_n x64)].
Definition disk4 : World :=
  mkWorld {[sst_name 1 := 0%nat; sst_name 2 := 1%nat; sst_name 3 := 2%nat; sst_name 4 := 3%nat]}
    {[0%nat := sst_bytes (table_n x61); 1%nat := sst_bytes (table_n x62);
      2%nat := sst_bytes (table_n x63); 3%nat := sst_bytes (table_n x64)]} ∅ 4%nat 1000 [].

Lemma table_n_ok b : sst_ok (table_n b).
Proof. split; [repeat constructor|repeat constructor|done|done]. Qed.

Lemma disk4_dir s i :
  w_dir disk4 !! s = Some i ->
  (s, i) ∈ [(sst_name 1, 0%nat); (sst_name 2, 1%nat); (sst_name 3, 2%nat); (sst_name 4, 3%nat)].
Proof.
  unfold disk4. cbn [w_dir]. rewrite !lookup_insert_Some, lookup_singleton_Some.
  rewrite !elem_of_cons.
  intros [[<- <-]|[_ [[<- <-]|[_ [[<- <-]|[_ [<- <-]]]]]]]; auto.
Qed.

Lemma disk4_ok : disk_ok disk4 [] [] tables4.
Proof.
  split.
  - split; unfold disk4; cbn [w_dir w_data w_fds w_next].
    + done.
    + intros n Hn. rewrite !lookup_insert_ne, lookup_singleton_ne by lia. done.
    + intros s i Hi. apply disk4_dir in Hi. rewrite !elem_of_cons in Hi.
      destruct Hi as [[= _ ->]|[[= _ ->]|[[= _ ->]|[[= _ ->]|Hi]]]]; [vm_compute; eauto..|].
      by apply not_elem_of_nil in Hi.
    + intros f i Hi. by rewrite lookup_empty in Hi.
  - done.
  - intros s1 s2 i H1%disk4_dir H2%disk4_dir. rewrite !elem_of_cons in H1, H2.
    destruct H1 as [[= -> ->]|[[= -> ->]|[[= -> ->]|[[= -> ->]|H1]]]];
      [..|by apply not_elem_of_nil in H1];
      destruct H2 as [[= ->]|[[= ->]|[[= ->]|[[= ->]|H2]]]]; done || by apply not_elem_of_nil in H2.
  - vm_compute. done.
  - apply torn_stops, torn_nil.
  - done.
  - vm_compute. reflexivity.
  - repeat constructor; cbn [fst snd]; try apply table_n_ok; [exists 0%nat|exists 1%nat|exists 2%nat|exists 3%nat];
      split; vm_compute; reflexivity.
  - repeat constructor.
  - repeat constructor; cbn; lia.
  - intros s Hs [i Hi]. apply disk4_dir in Hi. rewrite !elem_of_cons in Hi.
    assert (forall n t, s = sst_name n -> (n, t) ∈ tables4 -> exists t, t ∈ tables4 /\ s = sst_name t.1)
      as Hin by (intros n t -> ?; by exists (n, t)).
    destruct Hi as [[= -> _]|[[= -> _]|[[= -> _]|[[= -> _]|Hi]]]]; [..|by apply not_elem_of_nil in Hi].
    + eapply Hin; [done|]. by left.
    + eapply Hin; [done|]. right. by left.
    + eapply Hin; [done|]. right. right. by left.
    + eapply Hin; [done|]. right. right. right. by left.
Qed.

Lemma compaction_deletes_merged_table_witness :
  exists db w, Open disk4 = (inr db, w) /\
  let '((r, db'), w') := RunCompaction db w in
  r = None /\ (NewReader (merged_path (db_sstReaders db)) w').1 = inl ENOENT.
Proof.
  destruct (Open_ok disk4 [] [] tables4 disk4_ok) as (db & w & A & E & He & _ & _ & Hf & _).
  exists db, w. split; [exact E|].
  pose proof E as E'. vm_compute in E'. injection E' as Edb Ew.
  apply (compaction_deletes_merged_table w db [] A None tables4 (db_sstReaders db) 0 He Hf);
    rewrite <- ?Edb, <- ?Ew; [vm_compute; reflexivity|discriminate|vm_compute; reflexivity..].
Defined.

Lemma compaction_group_contiguous_witness :
  exists db w, Open disk4 = (inr db, w) /\
  let files := (selectFilesForCompaction w db).1 in
  files = [] \/
  exists pre post tier, db_sstReaders db = pre ++ files ++ post /\
    length files = CompactionThreshold /\
    Forall (fun r => exists size, os_Stat_Size w (Reader_Path r) = inr size /\ getTier size = tier)
      files.
Proof.
  destruct (Open disk4) as [[e|db] w] eqn:E; [exfalso; vm_compute in E; discriminate|].
  exists db, w. split; [done|]. vm_compute in E. injection E as <- <-.
  apply compaction_group_contiguous. repeat constructor; eexists; vm_compute; reflexivity.
Defined.
End runs.
