(* ===== verification/Provenance.v ===== *)
(** * Where values come from

    A predicate [P] says which values a key may have.  [sourced] states that all
    the data of a running engine satisfies it: the log, the memtable that is being
    flushed, the open tables, and the files in the directory, whether or not the
    engine uses them.  From a directory with this property [Open] makes an engine
    whose answers satisfy it, wherever the process was stopped. *)
From stdpp Require Import base gmap sets list strings numbers sorting.
From Stdlib Require Import ZArith Lia Strings.Byte.
From S2P Require Import Prelude SkipList Disk Wal Bloom GoFmt Sst Reader Engine Recovery Flush.
From S2P Require Import GoHeap Merge Compaction.
Open Scope Z_scope.

(** ** What a reader sees of a value

    Once it is in a table, an empty value stands for a deleted one. *)
Definition visible (v : slice) : option bytes := v ≫= nonempty.

Lemma visible_idemp v : visible (visible v) = visible v.
Proof.
  destruct v as [v|]; [|done]. cbn. unfold nonempty. destruct (len v =? 0) eqn:E; [done|].
  cbn. unfold nonempty. by rewrite E.
Qed.

Lemma visible_norm v : visible (norm v) = visible v.
Proof. by destruct v. Qed.

Lemma visible_slice_bytes v : nonempty (slice_bytes v) = visible v.
Proof. by destruct v. Qed.

Lemma visible_bind a : visible (a ≫= nonempty) = visible a.
Proof. apply visible_idemp. Qed.

(** A flush changes nothing that is visible. *)
Lemma visible_installed A B Ts k :
  visible (answer A None (Ts ++ [B]) k) = visible (answer A (Some B) Ts k).
Proof.
  unfold answer. rewrite memory_map_None. unfold memory_map. rewrite lookup_union.
  change (default [] (Some B)) with B.
  destruct ((list_to_map A : gmap bytes slice) !! k) as [v|];
    [by destruct ((list_to_map B : gmap bytes slice) !! k)|].
  rewrite (left_id_L None (∪)), tables_map_snoc, lookup_union, plain_lookup.
  destruct ((list_to_map B : gmap bytes slice) !! k) as [v|]; cbn.
  - destruct (tables_map Ts !! k); cbn; by rewrite visible_slice_bytes, visible_idemp.
  - by rewrite (left_id_L None (∪)).
Qed.

(** An operation acts on what is visible. *)
Lemma visible_op k a b o : visible a = visible b -> visible (op_answer k a o) = visible (op_answer k b o).
Proof. intros E. unfold op_answer. by case_decide. Qed.

(** [w'] has no file with a name in [S] that [w] does not have, with the same contents *)
Definition retains (w w' : World) (S : string -> Prop) : Prop :=
  forall s i, S s -> w_dir w' !! s = Some i -> w_dir w !! s = Some i /\ w_data w' !! i = w_data w !! i.

Lemma retains_weaken w w' (S S' : string -> Prop) :
  retains w w' S -> (forall s, S' s -> S s) -> retains w w' S'.
Proof. intros Hr HS s i Hs. apply Hr, HS, Hs. Qed.

Lemma retains_data w w' S :
  wf_world w -> (forall s, S s -> w_dir w' !! s = w_dir w !! s) -> w_data w ⊆ w_data w' ->
  retains w w' S.
Proof.
  intros Hw Hd Ha s i Hs. rewrite Hd by done. intros Hi. split; [done|].
  destruct (ww_dir w Hw _ _ Hi) as [d Hdata]. rewrite Hdata. by eapply lookup_weaken.
Qed.

(** The rotation sets the log aside. *)
Lemma rotated_data w f i s k :
  wf_world w -> w_dir w !! s = Some k -> w_data (rotated f i w) !! k = w_data w !! k.
Proof. intros Hw Hk. pose proof (wf_dir_lt w s k Hw Hk). cbn. by rewrite lookup_insert_ne by lia. Qed.

(** The log of an engine is the log of an interrupted flush once it has its name. *)
Lemma aside_flushing w w' wl log A i :
  wal_ok w wl log -> wal_sequenceNumber wl < 2 ^ 64 -> w_dir w !! walName = Some i ->
  norm <$> (list_to_map A : gmap bytes slice) = wal_replay log ∅ ->
  key_sorted fst A -> len A < 2 ^ 64 ->
  w_dir w' !! flushingName = Some i -> w_data w' !! i = w_data w !! i -> flushing_ok w' (Some log).
Proof.
  intros (_ & Hseq & Hlok & j & Hj & _ & d & Hd & Hlg) Hs64 Hi HA Hsort Hlen Hfl Ed.
  assert (j = i) as -> by congruence. unfold flushing_ok. rewrite Hfl.
  exists d, (wal_sequenceNumber wl). split; [congruence|]. split; [done|]. split; [lia|]. split; [done|].
  rewrite <- HA, map_size_fmap. unfold len in Hlen.
  rewrite map_size_list_to_map by (by apply sorted_entries_NoDup). done.
Qed.

Lemma rotated_flushing w wl log A i :
  wf_world w -> wal_ok w wl log -> wal_sequenceNumber wl < 2 ^ 64 ->
  w_dir w !! walName = Some i -> norm <$> (list_to_map A : gmap bytes slice) = wal_replay log ∅ ->
  key_sorted fst A -> len A < 2 ^ 64 -> flushing_ok (rotated (wal_file wl) i w) (Some log).
Proof.
  intros Hw Hwal Hs64 Hi HA Hsort Hlen. eapply aside_flushing; try done.
  - cbn. by rewrite lookup_insert_ne, lookup_insert_eq.
  - by apply (rotated_data w (wal_file wl) i walName).
Qed.

(** the files that hold data, the log aside *)
Definition tracked (s : string) : Prop := s = flushingName \/ HasSuffix s ".sst" = true.

Lemma tracked_not_wal s : tracked s -> s <> walName.
Proof. intros [->|Hs]; [done|]. by intros ->. Qed.

Section provenance.
Context `{Murmur3} (P : bytes -> option bytes -> Prop).

Definition good (e : bytes * slice) : Prop := P e.1 (visible e.2).

(** the name [s] is that of a table with good entries *)
Definition table_file (w : World) (s : string) (i : ino) (t : Z * list (bytes * slice)) : Prop :=
  s = sst_name t.1 /\ - 2 ^ 63 <= t.1 < 2 ^ 63 /\ sst_ok t.2 /\
  w_data w !! i = Some (sst_bytes t.2) /\ Forall good t.2.

Definition tables_sourced (w : World) : Prop :=
  forall s i, HasSuffix s ".sst" = true -> w_dir w !! s = Some i -> exists t, table_file w s i t.

Definition flushing_sourced (w : World) : Prop :=
  w_dir w !! flushingName = None \/ exists es, flushing_ok w (Some es) /\ Forall good es.

Record sourced (w : World) (log : list (bytes * slice)) (I : option (list (bytes * slice)))
    (Ts : list (Z * list (bytes * slice))) : Prop := {
  sr_log : Forall good log;
  sr_imm : Forall good (default [] I);
  sr_tables : Forall (fun t => Forall good t.2) Ts;
  sr_flushing : flushing_sourced w;
  sr_disk : tables_sourced w
}.

(** ** Answers *)

Lemma replay_good log k v : Forall good log ->
  (wal_replay log ∅ : gmap bytes slice) !! k = Some v -> P k (visible v).
Proof.
  intros Hg Hk. destruct (wal_replay_lookup _ _ _ Hk) as (e & Hin & <- & ->).
  rewrite visible_norm. rewrite Forall_forall in Hg. by apply Hg.
Qed.

Lemma entries_good es k v : Forall good es ->
  (list_to_map es : gmap bytes slice) !! k = Some v -> P k (visible v).
Proof.
  intros Hg Hk%elem_of_list_to_map_2. rewrite Forall_forall in Hg. by apply (Hg (k, v)).
Qed.

Lemma tables_good Ts k v : Forall (Forall good) Ts -> tables_map Ts !! k = Some v -> P k (nonempty v).
Proof.
  induction Ts as [|es Ts IH] using rev_ind.
  { change (tables_map []) with (∅ : gmap bytes bytes). by rewrite lookup_empty. }
  rewrite Forall_app, Forall_singleton, tables_map_snoc, lookup_union_Some_raw. intros [HT He].
  rewrite plain_lookup. intros [(u & Hu & ->)%fmap_Some|[_ Hv]]; [|by apply IH].
  rewrite visible_slice_bytes. by eapply entries_good.
Qed.

(** An engine with good data gives good answers. *)
Lemma answer_good w db log A I Ts k :
  engine_ok w db log A I [] -> Forall good log -> Forall good (default [] I) ->
  Forall (fun t : Z * list (bytes * slice) => Forall good t.2) Ts -> P k None ->
  P k (visible (answer A I (Ts.*2) k)).
Proof.
  intros He Hlog HI HT HN. unfold answer, memory_map.
  destruct ((list_to_map A ∪ list_to_map (default [] I) : gmap bytes slice) !! k) as [v|] eqn:E.
  - apply lookup_union_Some_raw in E as [E|[_ E]]; [|by apply (entries_good (default [] I))].
    rewrite <- visible_norm. apply (replay_good log); [done|].
    by rewrite <- (eo_log _ _ _ _ _ _ He), lookup_fmap, E.
  - rewrite visible_bind. destruct (tables_map (Ts.*2) !! k) as [v|] eqn:Et; [|done].
    apply (tables_good (Ts.*2)); [|done]. by apply Forall_fmap.
Qed.

(** What a merge writes is good. *)
Lemma merged_good out Ts :
  key_sorted fst out -> list_to_map (read_back out) = tables_map Ts -> Forall (Forall good) Ts ->
  Forall good out.
Proof.
  intros Hs Hm HT. apply Forall_forall. intros [k v] Hin. unfold good. cbn [fst snd].
  rewrite <- visible_slice_bytes. apply (tables_good Ts); [done|].
  rewrite <- Hm. unfold read_back. rewrite plain_lookup.
  by rewrite (proj2 (list_to_map_sorted_lookup out k v Hs) Hin).
Qed.

(** ** Steps *)

Lemma tables_sourced_frame w w' :
  tables_sourced w ->
  (forall s i, HasSuffix s ".sst" = true -> w_dir w' !! s = Some i ->
     w_dir w !! s = Some i /\ w_data w' !! i = w_data w !! i \/ exists t, table_file w' s i t) ->
  tables_sourced w'.
Proof.
  intros Hw Hfr s i Hs Hi. destruct (Hfr s i Hs Hi) as [[Hd Ea]|Ht]; [|done].
  destruct (Hw s i Hs Hd) as (t & En & Hr & Hok & Hdata & Hg). exists t.
  split; [done|]. split; [done|]. split; [done|]. split; [congruence|done].
Qed.

Lemma flushing_sourced_frame w w' :
  flushing_sourced w ->
  w_dir w' !! flushingName = None \/
  w_dir w' !! flushingName = w_dir w !! flushingName /\
  (forall i, w_dir w !! flushingName = Some i -> w_data w' !! i = w_data w !! i) ->
  flushing_sourced w'.
Proof.
  intros Hw [Hn|[Ed Ea]]; [by left|]. destruct Hw as [Hn|(es & Hes & Hg)]; [left; congruence|].
  right. exists es. split; [|done]. by apply (flushing_frame w).
Qed.

(** A step that writes to no file but the log. *)
Lemma sourced_retains w w' log log' I Ts :
  sourced w log I Ts -> Forall good log' -> retains w w' tracked -> sourced w' log' I Ts.
Proof.
  intros [Hl HI HT Hf Hd] Hl' Hfr. split; try done.
  - apply (flushing_sourced_frame w); [done|]. destruct (w_dir w' !! flushingName) as [i|] eqn:E; [|by left].
    destruct (Hfr flushingName i (or_introl eq_refl) E) as [E1 E2]. right. split; [congruence|].
    intros j Hj. congruence.
  - apply (tables_sourced_frame w); [done|]. intros s i Hs Hi. left. apply Hfr; [by right|done].
Qed.

(** A step that writes a table. *)
Lemma sourced_table w w' log I Ts ts es :
  sourced w log I Ts -> retains w w' (fun s => s <> sst_name ts) -> - 2 ^ 63 <= ts < 2 ^ 63 ->
  sst_ok es -> Forall good es ->
  (forall i, w_dir w' !! sst_name ts = Some i -> w_data w' !! i = Some (sst_bytes es)) ->
  sourced w' log I Ts.
Proof.
  intros [Hl HI HT Hf Hd] Hfr Hts Hok Hg Hnew. split; try done.
  - apply (flushing_sourced_frame w); [done|]. destruct (w_dir w' !! flushingName) as [i|] eqn:E; [|by left].
    destruct (Hfr flushingName i (not_eq_sym (sst_name_not_flushing ts)) E) as [E1 E2].
    right. split; [congruence|]. intros j Hj. congruence.
  - apply (tables_sourced_frame w); [done|]. intros s i Hs Hi.
    destruct (decide (s = sst_name ts)) as [->|Hne]; [|left; by apply Hfr].
    right. exists (ts, es). split_and!; try done; try apply Hts. by apply Hnew.
Qed.

(** The rotation: the log is set aside, and the memtable with it. *)
Lemma sourced_rotated w wl log A Ts i :
  wf_world w -> wal_ok w wl log -> wal_sequenceNumber wl < 2 ^ 64 ->
  w_dir w !! walName = Some i -> norm <$> (list_to_map A : gmap bytes slice) = wal_replay log ∅ ->
  key_sorted fst A -> len A < 2 ^ 64 -> sourced w log None Ts ->
  sourced (rotated (wal_file wl) i w) [] (Some A) Ts.
Proof.
  intros Hw Hwal Hs64 Hi HA Hsort Hlen [Hl _ HT Hf Ht]. split; try done.
  - cbn. apply Forall_forall. intros [k v] Hin. unfold good. cbn [fst snd].
    rewrite <- visible_norm. apply (replay_good log); [done|]. rewrite <- HA, lookup_fmap.
    by rewrite (proj2 (list_to_map_sorted_lookup A k v Hsort) Hin).
  - right. exists log. split; [|done]. by apply (rotated_flushing w wl log A).
  - apply (tables_sourced_frame w); [done|]. intros s k Hs. cbn.
    rewrite !lookup_insert_ne, lookup_delete_ne by (intros <-; done). intros Hk. left.
    split; [done|]. by apply (rotated_data w (wal_file wl) i s).
Qed.

Lemma sourced_same w log I Ts I' Ts' :
  sourced w log I Ts -> Forall good (default [] I') -> Forall (fun t => Forall good t.2) Ts' ->
  sourced w log I' Ts'.
Proof. intros [Hl HI HT Hf Hd]. by split. Qed.

(** ** What the directory holds *)

Lemma name_tables w (l : list string) :
  tables_sourced w ->
  Forall (fun s => HasSuffix s ".sst" = true /\ is_Some (w_dir w !! s)) l ->
  exists Ts, (fun t : Z * list (bytes * slice) => sst_name t.1) <$> Ts = l /\
    Forall (fun t => exists i, w_dir w !! sst_name t.1 = Some i /\ table_file w (sst_name t.1) i t) Ts.
Proof.
  intros Hw. induction 1 as [|s l [Hs [i Hi]] _ (Ts & <- & HF)]; [by exists []|].
  destruct (Hw s i Hs Hi) as (t & Ht). pose proof Ht as [En _]. exists (t :: Ts). split.
  - by rewrite fmap_cons, En.
  - constructor; [|done]. exists i. rewrite En in Ht, Hi. done.
Qed.

Lemma tables_sorted w :
  tables_sourced w ->
  exists Ts, Forall (stored w) Ts /\ StronglySorted Z.lt (Ts.*1) /\
    Forall (fun t => - 2 ^ 63 <= t.1 < 2 ^ 63) Ts /\ dir_ok w Ts /\
    Forall (fun t => Forall good t.2) Ts.
Proof.
  intros Hw. set (names := filter (fun s => HasSuffix s ".sst" = true) ((map_to_list (w_dir w)).*1)).
  destruct (name_tables w names Hw) as (Ts & En & HF).
  { apply Forall_forall. intros s [Hs Hin]%list_elem_of_filter. split; [done|].
    apply list_elem_of_fmap in Hin as ([s' i] & -> & Hi%elem_of_map_to_list). by exists i. }
  assert (NoDup (Ts.*1)) as Hnd.
  { assert (NoDup names) as Hn by apply NoDup_filter, NoDup_fst_map_to_list.
    rewrite <- En in Hn. apply (NoDup_fmap_1 sst_name). by rewrite <- list_fmap_compose. }
  set (less := fun a b : Z * list (bytes * slice) => a.1 <? b.1).
  assert (sort_by less Ts ≡ₚ Ts) as HP by apply sort_by_Permutation.
  exists (sort_by less Ts).
  split; [rewrite HP|split; [|split; [rewrite HP|split; [|rewrite HP]]]].
  - eapply Forall_impl; [exact HF|]. intros t (i & Hi & _ & _ & Hok & Hd & _). split; [done|]. by exists i.
  - assert (NoDup ((sort_by less Ts).*1)) as Hnd' by by rewrite HP.
    assert (StronglySorted (fun a b => a.1 <= b.1) (sort_by less Ts)) as Hs
      by exact (sort_by_sorted (fun t : Z * list (bytes * slice) => t.1) Ts).
    clear -Hs Hnd'. induction Hs as [|t l Hs IH Ht]; [constructor|].
    rewrite fmap_cons in *. apply NoDup_cons in Hnd' as [Hn Hnd]. constructor; [by apply IH|].
    apply Forall_fmap, Forall_forall. intros t' Hin. rewrite Forall_forall in Ht. specialize (Ht t' Hin).
    cbn in *. assert (t.1 <> t'.1); [|lia]. intros E. apply Hn. rewrite E. by apply (list_elem_of_fmap_2 fst).
  - eapply Forall_impl; [exact HF|]. by intros t (i & _ & _ & ? & _).
  - intros s Hs [i Hi]. assert (s ∈ names) as Hin.
    { apply list_elem_of_filter. split; [done|]. apply list_elem_of_fmap. exists (s, i).
      split; [done|]. by apply elem_of_map_to_list. }
    rewrite <- En in Hin. apply list_elem_of_fmap in Hin as (t & -> & Ht). exists t. split; [by rewrite HP|done].
  - eapply Forall_impl; [exact HF|]. by intros t (i & _ & _ & _ & _ & _ & ?).
Qed.

(** ** Stopping and opening again *)

Lemma reordered_good es fl : reordered es fl -> Forall good es -> Forall good fl.
Proof.
  intros HP Hg. unfold reordered in HP. rewrite HP. apply Forall_forall.
  intros [k v] Hkv%elem_of_map_to_list. by apply (replay_good es).
Qed.

(** An engine that uses all the tables of its directory. *)
Lemma engine_sourced w db log A I Ts :
  engine_ok w db log A I Ts -> dir_ok w Ts -> w_dir w !! flushingName = None -> Forall good log ->
  Forall good (default [] I) -> Forall (fun t => Forall good t.2) Ts -> sourced w log I Ts.
Proof.
  intros He Hd Hfl Hlog HI HT. split; try done; [by left|]. intros s i Hs Hi.
  destruct (Hd s Hs ltac:(eauto)) as (t & Ht & ->). exists t.
  pose proof (eo_range _ _ _ _ _ _ He) as Hr. rewrite Forall_forall in Hr, HT.
  destruct (proj1 (list_elem_of_lookup _ _) Ht) as [n Hn].
  destruct (Forall2_lookup_r _ _ _ _ _ (eo_tables _ _ _ _ _ _ He) Hn)
    as (r & _ & Hok & _ & _ & j & Hj & _ & Hdata).
  assert (j = i) as -> by congruence.
  split; [done|]. split; [by apply Hr|]. split; [done|]. split; [done|by apply HT].
Qed.

(** All that is left of an engine when its process has ended: a directory with
    good data, perhaps with an interrupted flush, or with a log whose last record
    is cut. *)
Definition at_rest (w : World) : Prop :=
  exists log tail fl Ts, disk_at w log tail fl Ts /\ (fl <> None -> tail = []) /\
    Forall good log /\ Forall good (default [] fl) /\ Forall (fun t => Forall good t.2) Ts.

Lemma at_rest_tick w t : at_rest w -> at_rest (set_now t w).
Proof.
  intros (log & tail & fl & Ts & Hd & Hg). exists log, tail, fl, Ts. split; [|done].
  apply (disk_at_same w); try done. destruct (do_wf _ _ _ _ _ Hd) as [H1 H2 H3 H4]. by split.
Qed.

(** what the file of the log holds *)
Definition log_file_ok (w : World) (log : list (bytes * slice)) (tail : bytes) : Prop :=
  match w_dir w !! walName with
  | Some i => exists d top, w_data w !! i = Some (d ++ tail) /\ logged d top log /\
      0 <= top <= len log /\ top < 2 ^ 64
  | None => log = [] /\ tail = []
  end.

Lemma stopped_at_rest w log tail :
  wf_world w -> dir_inj w -> log_file_ok w log tail -> stops tail ->
  (tail <> [] -> w_dir w !! flushingName = None) -> Forall entry_ok log -> Forall good log ->
  flushing_sourced w -> tables_sourced w -> at_rest (crash w).
Proof.
  intros Hw Hinj Hlf Htl Htf Hok Hg Hfl Hdisk.
  destruct (tables_sorted w Hdisk) as (Ts & Hst & Hs & Hr & Hd & HT).
  assert (exists fl, flushing_ok w fl /\ Forall good (default [] fl) /\ (fl <> None -> tail = []))
    as (fl & Hflo & Hgf & Hft).
  { destruct Hfl as [Hn|(es & Hes & Hge)].
    - exists None. split; [by apply flushing_none|]. split; [constructor|done].
    - exists (Some es). split; [done|]. split; [done|]. intros _. destruct (decide (tail = [])) as [|Hne]; [done|].
      unfold flushing_ok in Hes. by rewrite (Htf Hne) in Hes. }
  exists log, tail, fl, Ts. split; [|done]. split; cbn; try done.
  destruct Hw as [H1 H2 H3 H4]. by split.
Qed.

(** Stopping leaves such a directory. *)
Lemma crash_at_rest w wl log I Ts :
  wf_world w -> dir_inj w -> wal_ok w wl log -> wal_sequenceNumber wl < 2 ^ 64 ->
  sourced w log I Ts -> at_rest (crash w).
Proof.
  intros Hw Hinj (_ & Hseq & Hlok & i & Hdir & _ & d & Hdata & Hlg) Hl [Hlog _ _ Hfl Hdisk].
  apply (stopped_at_rest w log []); try done.
  - unfold log_file_ok. rewrite Hdir. exists d, (wal_sequenceNumber wl). by rewrite app_nil_r.
  - apply torn_stops, torn_nil.
Qed.

(** Opening it makes an engine whose data comes from where it came before. *)
Lemma at_rest_Open `{Runtime} w :
  at_rest w ->
  exists db w' A log Ts, Open w = (inr db, w') /\
    engine_ok w' db log A None Ts /\ sourced w' log None Ts /\
    db_closed db = false /\ w_faults w' = [] /\ wal_sequenceNumber (db_wal db) < 2 ^ 64.
Proof.
  intros (log & tail & fl & Ts & Hd & Htl & Hg1 & Hg2 & Hg3).
  destruct (Open_at w log tail fl Ts Hd Htl) as (db & w' & A & es & E & Hrec & He & _ & Hc & Hf & Hfl & Hdir & Hs).
  exists db, w', A, (log ++ es), Ts. split_and!; try done.
  apply (engine_sourced w' db _ A); try done.
  apply Forall_app. split; [done|]. destruct fl as [fl|]; [by eapply reordered_good|]. by rewrite Hrec.
Qed.
End provenance.

(** ** Weaker predicates *)

Section weaken.
Context `{Murmur3} (P Q : bytes -> option bytes -> Prop) (HPQ : forall k a, P k a -> Q k a).

Lemma good_weaken es : Forall (good P) es -> Forall (good Q) es.
Proof using HPQ. intros HF. eapply Forall_impl; [exact HF|]. intros e. apply HPQ. Qed.

Lemma tables_weaken (Ts : list (Z * list (bytes * slice))) :
  Forall (fun t => Forall (good P) t.2) Ts -> Forall (fun t => Forall (good Q) t.2) Ts.
Proof using HPQ. intros HF. eapply Forall_impl; [exact HF|]. intros t. apply good_weaken. Qed.

Lemma sourced_weaken w log I Ts : sourced P w log I Ts -> sourced Q w log I Ts.
Proof using HPQ.
  intros [Hl HI HT Hf Hd]. split; [by apply good_weaken|by apply good_weaken|by apply tables_weaken| |].
  - destruct Hf as [Hn|(es & He & Hg)]; [by left|]. right. exists es. split; [done|by apply good_weaken].
  - intros s i Hs Hi. destruct (Hd s i Hs Hi) as (t & H1 & H2 & H3 & H4 & H5). exists t.
    split_and!; try done; try apply H2. by apply good_weaken.
Qed.

Lemma at_rest_weaken w : at_rest P w -> at_rest Q w.
Proof using HPQ.
  intros (log & tail & fl & Ts & Hd & Htl & H1 & H2 & H3). exists log, tail, fl, Ts.
  split; [done|]. split; [done|]. split; [by apply good_weaken|]. split; [by apply good_weaken|by apply tables_weaken].
Qed.
End weaken.
