(* ===== verification/Concurrent.v ===== *)
(** * Compactions among flushes and operations

    [compactionWorker] runs [RunCompaction] while clients write and the flush
    worker flushes.  A compaction holds the lock to select its files and to
    install the merged table; it merges, and closes and deletes the old files,
    without it.  Here its four parts are interleaved with the steps of [Flush] and
    with operations, and the answers turn out not to notice.

    While a compaction runs, names no longer determine tables (the merged table
    takes the name of its newest input), so the invariant is about open files: a
    table is what its descriptor reads, and no descriptor is closed or written
    behind its owner's back. *)
From stdpp Require Import base gmap sets list strings numbers sorting.
From Stdlib Require Import ZArith Lia Strings.Byte.
From S2P Require Import Prelude SkipList Disk Wal Bloom GoFmt Sst Reader GoHeap.
From S2P Require Import Merge Engine Recovery Flush Compaction Provenance.
Open Scope Z_scope.

Section files.
Context `{Murmur3}.

(** ** Open files *)

(** the file is open, and it is not the log *)
Definition safe (w : World) (wl : WAL) (f : File) : Prop :=
  f_fd f <> f_fd (wal_file wl) /\ exists i, file_ino w f = Some i /\ w_dir w !! walName <> Some i.

(** a step of somebody else: it leaves the open files alone *)
Definition spares (w : World) (wl : WAL) (w' : World) (wl' : WAL) : Prop :=
  forall f, safe w wl f -> kept w w' f /\ safe w' wl' f.

(** [r] is an open reader of the table [t], whether or not its name still exists *)
Definition open_table (w : World) (wl : WAL) (r : Reader) (t : Z * list (bytes * slice)) : Prop :=
  reads w r t.2 /\ f_name (r_file r) = sst_name t.1 /\ safe w wl (r_file r).

(** the name of [r] stands for its file, or for none *)
Definition settled (w : World) (r : Reader) : Prop :=
  w_dir w !! f_name (r_file r) = file_ino w (r_file r) \/ w_dir w !! f_name (r_file r) = None.

Lemma spares_table w wl w' wl' r t :
  spares w wl w' wl' -> open_table w wl r t -> open_table w' wl' r t.
Proof.
  intros Hs (Hr & Hn & Hsafe). destruct (Hs _ Hsafe) as [Hk Hsafe'].
  split; [by eapply kept_reads|]. done.
Qed.

Lemma spares_tables w wl w' wl' rs Ts :
  spares w wl w' wl' -> Forall2 (open_table w wl) rs Ts -> Forall2 (open_table w' wl') rs Ts.
Proof. intros Hs HF. eapply Forall2_impl; [exact HF|]. intros r t. by apply spares_table. Qed.

Lemma spares_settled w wl w' wl' r :
  spares w wl w' wl' -> safe w wl (r_file r) ->
  w_dir w' !! f_name (r_file r) = w_dir w !! f_name (r_file r) -> settled w r -> settled w' r.
Proof. intros Hs Hf E. destruct (Hs _ Hf) as [[Ei _] _]. unfold settled. by rewrite E, Ei. Qed.

Lemma safe_lt w wl f : wf_world w -> safe w wl f -> (f_fd f < w_next w)%nat.
Proof. intros Hw (_ & i & Hi & _). by eapply wf_fd_lt. Qed.

(** A settled name of an open table that exists names that table. *)
Lemma settled_table_ok w wl r t :
  open_table w wl r t -> w_dir w !! f_name (r_file r) = file_ino w (r_file r) -> table_ok w r t.
Proof.
  intros ((Hok & Er & Hd) & Hn & _ & i & Hi & _) E. split; [done|]. split; [done|]. split; [done|].
  exists i. rewrite <- Hn, E. split; [done|]. split; [done|].
  unfold file_data in Hd. by rewrite Hi in Hd.
Qed.

(** ** The running engine *)

(** the engine without its tables satisfies the invariant of [Engine], and its
    tables are open *)
Record live (w : World) (db : StrataGo) (log A : list (bytes * slice))
    (I : option (list (bytes * slice))) (Ts : list (Z * list (bytes * slice))) : Prop := {
  lv_engine : engine_ok w (set_readers [] db) log A I [];
  lv_tables : Forall2 (open_table w (db_wal db)) (db_sstReaders db) Ts;
  lv_sorted : StronglySorted Z.lt (Ts.*1);
  lv_range : Forall (fun t => - 2 ^ 63 <= t.1 < 2 ^ 63) Ts
}.

Lemma live_wal w db log A I Ts :
  live w db log A I Ts -> wal_ok w (db_wal db) log.
Proof. intros Hl. exact (eo_wal _ _ _ _ _ _ (lv_engine _ _ _ _ _ _ Hl)). Qed.

Lemma live_wf w db log A I Ts : live w db log A I Ts -> wf_world w.
Proof. intros Hl. exact (eo_wf _ _ _ _ _ _ (lv_engine _ _ _ _ _ _ Hl)). Qed.

Lemma live_inj w db log A I Ts : live w db log A I Ts -> dir_inj w.
Proof. intros Hl. exact (eo_inj _ _ _ _ _ _ (lv_engine _ _ _ _ _ _ Hl)). Qed.

(** Files under the name of a table are not the log. *)
Lemma named_safe w wl log f ts i :
  wal_ok w wl log -> dir_inj w -> w_dir w !! sst_name ts = Some i -> file_ino w f = Some i ->
  safe w wl f.
Proof.
  intros (_ & _ & _ & j & Hj & Hwj & _) Hinj Hd Hi.
  assert (w_dir w !! walName <> Some i) as Hne.
  { intros E. by apply (sst_name_not_wal ts), (Hinj _ _ i). }
  split; [|by exists i]. intros E. unfold file_ino in *. rewrite E in Hi. congruence.
Qed.

(** Opening makes a running engine. *)
Lemma engine_live w db log A I Ts : engine_ok w db log A I Ts -> live w db log A I Ts.
Proof.
  intros He. pose proof He as [Hwf Hinj Hc Hact Himm Hwal Hlog Htab Hs Hr]. split; try done.
  - split; try done; constructor.
  - eapply Forall2_impl; [exact Htab|]. intros r t Ht. split; [by apply table_ok_reads|].
    split; [apply Ht|]. destruct Ht as (_ & _ & _ & i & Hd & Hi & _). by eapply named_safe.
Qed.

Lemma live_reads w db log A I Ts :
  live w db log A I Ts -> Forall2 (reads w) (db_sstReaders db) (Ts.*2).
Proof.
  intros Hl. pose proof (lv_tables _ _ _ _ _ _ Hl) as HF. clear Hl.
  induction HF as [|r t rs Ts [Hr _] _ IH]; [constructor|]. rewrite fmap_cons. by constructor.
Qed.

(** A read of a running engine. *)
Lemma Get_live w db log A I Ts k :
  live w db log A I Ts -> lookup_inside w db k ->
  StrataGo_Get w db k = Some (answer A I (Ts.*2) k).
Proof.
  intros Hl Hk. pose proof (lv_engine _ _ _ _ _ _ Hl) as He.
  rewrite (Get_memory w db A I k (eo_active _ _ _ _ _ _ He) (eo_imm _ _ _ _ _ _ He)).
  unfold answer. destruct (memory_map A I !! k); [done|].
  pose proof (live_reads _ _ _ _ _ _ Hl) as HF. apply get_readers_open; [done|].
  by apply (inside_open w db (db_sstReaders db)).
Qed.
End files.

(** ** Operations and flushes on a running engine

    Each step is taken by the engine without its tables, to which the lemmas of
    [Recovery] and [Flush] apply; its tables are spared. *)

Section steps.
Context `{Murmur3} `{Runtime}.

(** the engine without its tables takes the same steps *)
Lemma run_op_strip o db w r db' w' :
  run_op o db w = ((r, db'), w') ->
  run_op o (set_readers [] db) w = ((r, set_readers [] db'), w') /\
  db_sstReaders db' = db_sstReaders db.
Proof.
  destruct o as [k v|k]; cbn [run_op]; unfold StrataGo_Put, StrataGo_Delete, mbind, IO_bind;
    cbn [set_readers db_closed db_wal]; (destruct (db_closed db); [by intros [= <- <- <-]|]);
    (destruct (WAL_WriteEntry _ _ _ w) as [[[e|] wl] w1]; [by intros [= <- <- <-]|]);
    unfold apply_write, signal_flush, ret; cbn [set_wal set_readers set_active db_activeMemtable
      db_flushChan];
    (destruct (SkipList_Put _ _ _) as [mem|]; [|by intros [= <- <- <-]]);
    (destruct (DefaultMemtableThreshold <=? _); [|by intros [= <- <- <-]]);
    destruct (db_flushChan db); by intros [= <- <- <-].
Qed.

Lemma run_op_write o db w db' w' :
  db_closed db = false -> run_op o db w = ((None, db'), w') ->
  WAL_WriteEntry (db_wal db) (op_entry o).1 (op_entry o).2 w = ((None, db_wal db'), w').
Proof.
  intros Hc. destruct o as [k v|k]; cbn [run_op op_entry fst snd];
    unfold StrataGo_Put, StrataGo_Delete, mbind, IO_bind; rewrite Hc;
    (destruct (WAL_WriteEntry _ _ _ w) as [[[e|] wl] w1]; [done|]);
    unfold apply_write, signal_flush, ret; cbn [set_wal set_active db_activeMemtable db_flushChan];
    (destruct (SkipList_Put _ _ _) as [mem|]; [|done]);
    (destruct (DefaultMemtableThreshold <=? _); [|by intros [= <- <-]]);
    (destruct (db_flushChan db); [by intros [= <- <-]|done]).
Qed.

(** An append to the log spares the other files. *)
Lemma WriteEntry_spares w wl log e wl' w' :
  wal_ok w wl log -> dir_inj w -> w_faults w = [] -> wal_sequenceNumber wl + 1 < 2 ^ 64 ->
  WAL_WriteEntry wl e.1 e.2 w = ((None, wl'), w') ->
  spares w wl w' wl' /\ retains w w' (fun s => s <> walName).
Proof.
  intros (_ & Hseq & _ & i & Hdir & Hino & d & Hdata & _) Hinj Hf Hl E.
  rewrite (WriteEntry_ok wl e w i _ Hf Hino Hdata) in E by lia. injection E as <- <-. split.
  2: { intros s j Hs Hj. split; [done|]. cbn. rewrite lookup_insert_ne; [done|].
       intros ->. by apply Hs, (Hinj _ _ j). }
  intros f (Hfd & j & Hj & Hne). split; [|split; [done|by exists j]].
  split; [done|]. unfold file_data, file_ino in *. cbn. rewrite Hj. cbn.
  rewrite lookup_insert_ne; [done|]. intros ->. done.
Qed.

Lemma live_op w db log A I Ts o r db' w' :
  live w db log A I Ts -> db_closed db = false -> w_faults w = [] -> op_ok o ->
  wal_sequenceNumber (db_wal db) + 1 < 2 ^ 64 -> run_op o db w = ((r, db'), w') ->
  r = None /\
  live w' db' (log ++ [op_entry o]) (entries_put (op_entry o).1 (op_entry o).2 A) I Ts /\
  spares w (db_wal db) w' (db_wal db') /\ w_faults w' = [] /\ db_closed db' = false /\
  w_dir w' = w_dir w /\ db_sstReaders db' = db_sstReaders db /\ retains w w' (fun s => s <> walName).
Proof.
  intros Hl Hc Hf Ho Hlen E. pose proof Hl as [He Htab Hs Hr].
  destruct (run_op_strip _ _ _ _ _ _ E) as [E' Hrs].
  destruct (run_op_ok _ _ _ _ _ _ o He Hc Hf Ho Hlen) as (db2 & w2 & E2 & He2 & _ & Hf2 & Hd2 & Hc2).
  rewrite E' in E2. assert (r = None) as -> by congruence.
  assert (set_readers [] db' = db2) as <- by congruence. assert (w' = w2) as <- by congruence.
  pose proof (WriteEntry_spares _ _ _ _ _ _ (live_wal _ _ _ _ _ _ Hl) (live_inj _ _ _ _ _ _ Hl) Hf Hlen
    (run_op_write _ _ _ _ _ Hc E)) as [Hsp Hret].
  split; [done|]. split; [|split_and!; done]. split; [exact He2| |done|done].
  rewrite Hrs. by apply (spares_tables w (db_wal db)).
Qed.

Lemma flush_rotate_strip db w r db' w' :
  flush_rotate db w = ((r, db'), w') ->
  flush_rotate (set_readers [] db) w = ((r, set_readers [] db'), w') /\
  db_sstReaders db' = db_sstReaders db.
Proof.
  unfold flush_rotate, gets, and_then, mbind, IO_bind, ret.
  cbn [set_readers db_activeMemtable db_immutableMemtable db_wal].
  destruct (db_immutableMemtable db); [by intros [= <- <- <-]|].
  destruct (sl_Size _ =? 0); [by intros [= <- <- <-]|].
  destruct (WAL_Close _ w) as [[e|] w1]; [by intros [= <- <- <-]|].
  destruct (os_Rename walName flushingName w1) as [[e|] w2]; [by intros [= <- <- <-]|].
  destruct (NewWAL walName w2) as [[e|wl] w3]; [|by intros [= <- <- <-]].
  destruct (os_Rename flushingName walName w3) as [x w4]. by intros [= <- <- <-].
Qed.
(** A world that only grows spares every file. *)
Lemma grows_spares w w' wl log :
  wf_world w -> wal_ok w wl log -> grows w w' -> spares w wl w' wl.
Proof.
  intros Hw (_ & _ & _ & i & Hi & _) (H1 & H2 & H3) f (Hfd & j & Hj & Hne).
  assert (file_ino w' f = Some j) as Hj' by by eapply lookup_weaken.
  assert (w_dir w' !! walName = Some i) as Hi' by by eapply lookup_weaken.
  split; [|split; [done|exists j; split; [done|congruence]]]. split; [congruence|].
  destruct (ww_open w Hw _ _ Hj) as [d Hd]. unfold file_data. rewrite Hj', Hj. cbn.
  rewrite Hd. by eapply lookup_weaken.
Qed.

(** The rotation replaces the log by a fresh file. *)
Lemma rotated_spares w db i :
  wf_world w -> w_dir w !! walName = Some i ->
  spares w (db_wal db) (rotated (wal_file (db_wal db)) i w) (db_wal (rotated_db w db)).
Proof.
  intros Hw Hi f (Hfd & j & Hj & Hne). pose proof (wf_fd_lt w f j Hw Hj) as Hlt.
  pose proof (wf_open_lt w _ j Hw Hj) as Hjlt.
  assert (file_ino (rotated (wal_file (db_wal db)) i w) f = Some j) as E.
  { unfold file_ino. cbn. rewrite lookup_insert_ne, lookup_delete_ne by (done || lia). done. }
  split.
  - split; [congruence|]. unfold file_data. rewrite E, Hj. cbn. by rewrite lookup_insert_ne by lia.
  - split; [cbn; lia|]. exists j. split; [done|]. cbn. rewrite lookup_insert_eq. intros [= Ej]. lia.
Qed.

Lemma rotated_dir w f i s :
  s <> walName -> s <> flushingName -> w_dir (rotated f i w) !! s = w_dir w !! s.
Proof. intros H1 H2. cbn. by rewrite !lookup_insert_ne, lookup_delete_ne. Qed.

(** the names that the steps of a flush touch, besides that of the new table *)
Definition log_name (s : string) : Prop := s = walName \/ s = flushingName.

Lemma live_rotate w db log A Ts r db' w' :
  live w db log A None Ts -> w_faults w = [] -> flush_rotate db w = ((r, db'), w') ->
  match r with
  | Some _ => db' = db /\ w' = w
  | None =>
      live w' db' [] [] (Some A) Ts /\ spares w (db_wal db) w' (db_wal db') /\
      w_faults w' = [] /\ db_closed db' = db_closed db /\
      db_sstReaders db' = db_sstReaders db /\
      (forall s, ~ log_name s -> w_dir w' !! s = w_dir w !! s) /\
      exists i, w_dir w !! walName = Some i /\ w' = rotated (wal_file (db_wal db)) i w
  end.
Proof.
  intros Hl Hf E. pose proof Hl as [He Htab Hs Hr].
  destruct (decide (A = [])) as [EA|HA].
  - revert E. unfold flush_rotate. pose proof (eo_imm _ _ _ _ _ _ He) as Himm.
    unfold imm_repr in Himm. cbn [set_readers db_immutableMemtable] in Himm.
    destruct (db_immutableMemtable db); [done|].
    pose proof (repr_size _ _ (eo_active _ _ _ _ _ _ He)) as Hsz.
    cbn [set_readers db_activeMemtable] in Hsz. rewrite Hsz, EA. cbn. by intros [= <- <- <-].
  - destruct (flush_rotate_strip _ _ _ _ _ E) as [E' Hrs].
    destruct (eo_wal _ _ _ _ _ _ He) as (_ & _ & _ & i & Hi & _).
    destruct (flush_rotate_ok w _ log A [] He Hf HA) as (db1 & w1 & E1 & He1 & Hf1 & _ & Hc1 & _).
    rewrite (flush_rotate_eq w _ log A [] i He Hf HA Hi) in E1.
    rewrite (flush_rotate_eq w _ log A [] i He Hf HA Hi) in E'.
    assert (r = None) as -> by congruence. assert (w' = w1) as <- by congruence.
    assert (set_readers [] db' = db1) as <- by congruence.
    assert (w' = rotated (wal_file (db_wal db)) i w) as Ew by (cbn in E'; congruence).
    assert (db_wal db' = db_wal (rotated_db w db)) as Ewal.
    { assert (set_readers [] db' = rotated_db w (set_readers [] db)) as Ed by congruence.
      apply (f_equal db_wal) in Ed. exact Ed. }
    assert (spares w (db_wal db) w' (db_wal db')) as Hsp.
    { rewrite Ew, Ewal. apply rotated_spares; [apply (eo_wf _ _ _ _ _ _ He)|done]. }
    split; [|split; [done|split_and!; [done|exact Hc1|done| |by exists i]]].
    + split; [exact He1| |done|done]. rewrite Hrs. by eapply spares_tables.
    + intros s Hn. rewrite Ew. apply rotated_dir; intros ->; apply Hn; [by left|by right].
Qed.

Lemma flush_build_strip db rs w : flush_build (set_readers rs db) w = flush_build db w.
Proof. done. Qed.

(** the clock is ahead of all tables *)
Lemma live_clock w db log A I Ts :
  live w db log A I Ts -> clock_ok w db -> flush_time_ok w Ts.
Proof.
  intros Hl (H1 & H2 & H3 & H4). split_and!; [done|done|apply H3|apply H3|].
  pose proof (lv_tables _ _ _ _ _ _ Hl) as HF. pose proof (lv_range _ _ _ _ _ _ Hl) as Hr.
  clear Hl. revert Hr H4. induction HF as [|r t rs Ts (_ & Hn & _) _ IH]; [done|].
  intros [Hr1 Hr]%Forall_cons [H4 Hrs]%Forall_cons. constructor; [|by apply IH].
  unfold Reader_Path in H4. by rewrite Hn, Sscanf_sst_name in H4.
Qed.

Lemma live_build w db log A B Ts b w' :
  live w db log A (Some B) Ts -> w_faults w = [] -> sst_ok B -> clock_ok w db ->
  flush_build db w = (b, w') ->
  exists r, b = Built r (len B) /\ live w' db log A (Some B) Ts /\
    spares w (db_wal db) w' (db_wal db) /\ w_faults w' = [] /\
    open_table w' (db_wal db) r (w_now w, B) /\ settled w' r /\ (w_next w <= reader_fd r)%nat /\
    0 <= w_now w < 2 ^ 63 /\ Forall (fun t => t.1 < w_now w) Ts /\
    (forall s, s <> sst_name (w_now w) -> w_dir w' !! s = w_dir w !! s) /\
    retains w w' (fun s => s <> sst_name (w_now w)) /\ table_ok w' r (w_now w, B).
Proof.
  intros Hl Hf HB Hck E. pose proof Hl as [He Htab Hs Hr].
  pose proof (live_clock _ _ _ _ _ _ Hl Hck) as (Ht1 & Ht2 & Ht3 & Ht4).
  assert (flush_time_ok w []) as Ht by (split_and!; done || apply Ht3 || constructor).
  destruct (flush_build_ok w _ log A B [] He Hf HB Ht)
    as (r & w2 & E2 & He2 & Htr & Hf2 & _ & Hd2 & Hg & Hfd).
  rewrite flush_build_strip, E in E2. assert (b = Built r (len B)) as -> by congruence.
  assert (w' = w2) as <- by congruence. clear E E2.
  pose proof (grows_spares _ _ _ _ (eo_wf _ _ _ _ _ _ He) (eo_wal _ _ _ _ _ _ He) Hg) as Hsp.
  cbn [set_readers db_wal] in Hsp. exists r. split; [done|]. split.
  { split; [exact He2| |done|done]. by eapply spares_tables. }
  pose proof Htr as (_ & _ & Hn & i & Hi & Hino & _). cbn [fst snd] in *.
  pose proof (eo_inj _ _ _ _ _ _ He2) as Hinj.
  split; [done|]. split; [done|]. split.
  { split; [by apply (table_ok_reads _ _ _ Htr)|]. split; [done|].
    eapply named_safe; [apply (eo_wal _ _ _ _ _ _ He2)|exact Hinj|exact Hi|exact Hino]. }
  split; [left; congruence|]. split; [done|]. split; [done|]. split; [done|]. split; [exact Hd2|]. split; [|done].
  apply retains_data; [apply (eo_wf _ _ _ _ _ _ He)|done|apply Hg].
Qed.

Lemma live_install w db log A B Ts r ts :
  live w db log A (Some B) Ts -> open_table w (db_wal db) r (ts, B) -> 0 <= ts < 2 ^ 63 ->
  Forall (fun t => t.1 < ts) Ts ->
  live w (flush_install db r) log A None (Ts ++ [(ts, B)]).
Proof.
  intros [[Hwf Hinj Hc Hact Himm Hwal Hlog _ _ _] Htab Hs Hr] Ht Hts Hlt. split.
  - split; try done; constructor.
  - cbn. apply Forall2_app; [exact Htab|]. by apply Forall2_cons.
  - rewrite fmap_app. by apply sorted_snoc.
  - apply Forall_app. split; [done|]. repeat constructor; cbn; lia.
Qed.

(** Removing a name spares the files. *)
Lemma remove_spares w wl log s :
  wal_ok w wl log -> s <> walName -> w_faults w = [] ->
  spares w wl (os_Remove s w).2 wl /\
  forall s', s' <> s -> w_dir (os_Remove s w).2 !! s' = w_dir w !! s'.
Proof.
  intros _ Hs Hf. unfold os_Remove. destruct (w_dir w !! s) as [i|] eqn:Ei; [|done].
  rewrite next_outcome_ok by done. cbn. split; [|intros s' Hne; by rewrite lookup_delete_ne].
  intros f (Hfd & j & Hj & Hne). split; [done|]. split; [done|]. exists j. split; [done|].
  cbn. by rewrite lookup_delete_ne.
Qed.

Lemma live_remove w db log A I Ts :
  live w db log A I Ts -> w_faults w = [] ->
  let w' := (os_Remove flushingName w).2 in
  live w' db log A I Ts /\ spares w (db_wal db) w' (db_wal db) /\ w_faults w' = [] /\
  (forall s, ~ log_name s -> w_dir w' !! s = w_dir w !! s).
Proof.
  intros Hl Hf. pose proof Hl as [He Htab Hs Hr].
  destruct (remove_flushing_ok _ _ _ _ _ _ He Hf) as (He' & Hf' & _).
  destruct (remove_spares w (db_wal db) log flushingName) as [Hsp Hd]; [by eapply live_wal|done..|].
  split; [|split; [done|split; [done|]]].
  - split; [done| |done|done]. by eapply spares_tables.
  - intros s Hn. apply Hd. intros ->. apply Hn. by right.
Qed.

End steps.

(** ** The parts of a compaction on a running engine *)

(** [w'] has fewer names and fewer open files *)
Definition sheds (w w' : World) : Prop :=
  w_dir w' ⊆ w_dir w /\ w_data w' = w_data w /\ w_fds w' ⊆ w_fds w /\ w_next w' = w_next w /\
  w_faults w' = w_faults w.

#[local] Instance sheds_preorder : PreOrder sheds.
Proof.
  split.
  - intros w. by repeat split.
  - intros w1 w2 w3 (?&?&?&?&?) (?&?&?&?&?). split_and!; congruence || by etrans.
Qed.

Lemma file_Close_sheds f w : w_faults w = [] -> sheds w (file_Close f w).2.
Proof.
  intros Hf. unfold file_Close. destruct (file_ino w f); [|done].
  rewrite next_outcome_ok by done. split_and!; try done. cbn. apply delete_subseteq.
Qed.

Lemma os_Remove_sheds s w : w_faults w = [] -> sheds w (os_Remove s w).2.
Proof.
  intros Hf. unfold os_Remove. destruct (w_dir w !! s); [|done].
  rewrite next_outcome_ok by done. split_and!; try done. cbn. apply delete_subseteq.
Qed.

Lemma close_iters_sheds its : forall w, w_faults w = [] -> sheds w (close_iters its w).2.
Proof.
  induction its as [|it its IH]; intros w Hf; [done|]. cbn [close_iters].
  unfold mbind, IO_bind, Iterator_Close. pose proof (file_Close_sheds (it_file it) w Hf) as H1.
  destruct (file_Close _ w) as [e w1]. etrans; [exact H1|]. apply IH.
  destruct H1 as (_&_&_&_&E). cbn [snd] in E. by rewrite E.
Qed.

Lemma delete_old_sheds rs : forall w, w_faults w = [] -> sheds w (delete_old rs w).2.
Proof.
  induction rs as [|r rs IH]; intros w Hf; [done|]. cbn [delete_old].
  unfold mbind, IO_bind, Reader_Close. pose proof (file_Close_sheds (r_file r) w Hf) as H1.
  destruct (file_Close _ w) as [e w1]. cbn [snd] in H1. pose proof H1 as (_&_&_&_&E1).
  pose proof (os_Remove_sheds (Reader_Path r) w1 ltac:(by rewrite E1)) as H2.
  destruct (os_Remove _ w1) as [e2 w2]. cbn [snd] in H2. pose proof H2 as (_&_&_&_&E2).
  etrans; [exact H1|]. etrans; [exact H2|]. apply IH. by rewrite E2, E1.
Qed.

Lemma cleanup_sheds files iters w :
  w_faults w = [] -> sheds w (compaction_cleanup files iters w).2.
Proof.
  intros Hf. unfold compaction_cleanup, mbind, IO_bind.
  pose proof (close_iters_sheds iters w Hf) as H1. destruct (close_iters iters w) as [[] w1].
  cbn [snd] in H1. pose proof H1 as (_&_&_&_&E1).
  pose proof (delete_old_sheds files w1 ltac:(by rewrite E1)) as H2.
  destruct (delete_old files w1) as [[] w2]. cbn [snd] in H2. pose proof H2 as (_&_&_&_&E2).
  etrans; [exact H1|]. etrans; [exact H2|]. apply close_iters_sheds. by rewrite E2, E1.
Qed.

Lemma sheds_retains w w' S : sheds w w' -> retains w w' S.
Proof.
  intros (Hd & Ha & _) s i _ Hi. split; [by eapply lookup_weaken|by rewrite Ha].
Qed.

Lemma sheds_wf w w' : sheds w w' -> wf_world w -> wf_world w'.
Proof.
  intros (Ed & Ea & Hfd & En & _) [H1 H2 H3 H4]. split.
  - intros n. rewrite En. intros Hn. eapply lookup_weaken_None; [by apply H1|done].
  - intros n. rewrite En, Ea. apply H2.
  - intros s i Hi. rewrite Ea. apply (H3 s). by eapply lookup_weaken.
  - intros f i Hi. rewrite Ea. apply (H4 f). by eapply lookup_weaken.
Qed.

Lemma sheds_inj w w' : sheds w w' -> dir_inj w -> dir_inj w'.
Proof. intros (Ed & _) Hi s1 s2 i H1 H2. by apply (Hi s1 s2 i); eapply lookup_weaken. Qed.

Section parts.
Context `{Murmur3}.

(** A change of the world that keeps the log and the tables. *)
Lemma live_frame w w' db log A I Ts :
  live w db log A I Ts -> wf_world w' -> dir_inj w' ->
  w_dir w' !! walName = w_dir w !! walName -> kept w w' (wal_file (db_wal db)) ->
  Forall2 (open_table w' (db_wal db)) (db_sstReaders db) Ts -> live w' db log A I Ts.
Proof.
  intros [[_ _ Hc Hact Himm (Hp & Hseq & Hok & i & Hd & Hi & d & Hdata & Hlg) Hlog _ _ _] _ Hs Hr]
    Hwf Hinj Ed [Ei Ek] Htab.
  split; [|done|done|done]. split; try done; [|constructor..].
  split; [done|]. split; [done|]. split; [done|]. exists i. cbn [set_readers db_wal] in *.
  split; [congruence|]. split; [congruence|]. exists d. split; [|done].
  unfold file_data in Ek. rewrite Ei, Hi in Ek. cbn in Ek. congruence.
Qed.

Lemma merged_path_last w files G G0 ts es :
  Forall2 (table_ok w) files G -> G = G0 ++ [(ts, es)] -> - 2 ^ 63 <= ts < 2 ^ 63 ->
  merged_path files = sst_name ts /\
  exists files0 r, files = files0 ++ [r] /\ f_name (r_file r) = sst_name ts.
Proof.
  intros HF -> Hr. apply Forall2_app_inv_r in HF as (files0 & l & _ & HF & ->).
  apply Forall2_cons_inv_r in HF as (r & l' & (_ & _ & Hn & _) & HF & ->).
  apply Forall2_nil_inv_r in HF as ->. cbn [fst] in Hn. split; [|by exists files0, r].
  unfold merged_path. rewrite last_snoc. unfold Reader_Path. by rewrite Hn, Sscanf_sst_name.
Qed.

(** Building the merged table spares every open file. *)
Lemma live_merge w db log A I Ts files G G0 ts es :
  live w db log A I Ts -> w_faults w = [] -> Forall2 (table_ok w) files G ->
  G = G0 ++ [(ts, es)] -> - 2 ^ 63 <= ts < 2 ^ 63 ->
  w_dir w !! tmp_name (merged_path files) (w_now w) = None -> tables_fit (G.*2) ->
  exists iters nr out w', compaction_build files w = (inr (iters, nr), w') /\
    live w' db log A I Ts /\ spares w (db_wal db) w' (db_wal db) /\ w_faults w' = [] /\
    open_table w' (db_wal db) nr (ts, out) /\ (w_next w <= reader_fd nr)%nat /\
    list_to_map (read_back out) = tables_map (G.*2) /\
    Forall (fun it => safe w' (db_wal db) (it_file it) /\ (w_next w <= f_fd (it_file it))%nat /\
                      f_fd (it_file it) <> reader_fd nr) iters /\
    (forall s, s <> sst_name ts -> w_dir w' !! s = w_dir w !! s) /\
    retains w w' (fun s => s <> sst_name ts) /\ sst_ok out /\
    exists j, w_dir w' !! sst_name ts = Some j /\ w_data w' !! j = Some (sst_bytes out).
Proof.
  intros Hl Hf HG EG Hts Htmp Hfit. pose proof (live_wf _ _ _ _ _ _ Hl) as Hw.
  pose proof (live_inj _ _ _ _ _ _ Hl) as Hinj. pose proof (live_wal _ _ _ _ _ _ Hl) as Hwal.
  destruct (compaction_build_ok w files G Hw Hinj Hf HG Htmp Hfit)
    as (iters & nr & out & w' & E & [Hok Er Hn Hm Hwf' Hinj' Hf' (j & Ed & Hj & Hnj & Hd) Ha Hk Hfd Hit]).
  destruct (merged_path_last w files G G0 ts es HG EG Hts) as [Ep _]. rewrite Ep in *.
  assert (forall s, s <> sst_name ts -> w_dir w' !! s = w_dir w !! s) as Hdir
    by (intros s Hs; by rewrite Ed, lookup_insert_ne).
  assert (w_dir w' !! walName = w_dir w !! walName) as Hdw
    by (apply Hdir, not_eq_sym, sst_name_not_wal).
  assert (spares w (db_wal db) w' (db_wal db)) as Hsp.
  { intros f (Hne & i & Hi & Hni). pose proof (Hk f ltac:(eauto)) as Hkf. split; [done|].
    split; [done|]. exists i. destruct Hkf as [-> _]. by rewrite Hdw. }
  destruct Hwal as (Hwp & Hwseq & Hwok & i & Hdwal & Hiwal & Hdata) eqn:Ewal. clear Ewal.
  assert (live w' db log A I Ts) as Hl'.
  { apply (live_frame w); [done|done|done|done|by apply Hk; eauto|].
    eapply spares_tables; [exact Hsp|]. apply (lv_tables _ _ _ _ _ _ Hl). }
  pose proof (live_wal _ _ _ _ _ _ Hl') as Hwal'.
  exists iters, nr, out, w'. split; [done|]. split; [done|]. split; [done|]. split; [done|]. split.
  { split; [|split; [done|]].
    - split; [done|]. split; [done|]. unfold file_data. by rewrite Hj.
    - apply (named_safe w' _ log _ ts j); [done|done| |done]. rewrite Ed. apply lookup_insert_eq. }
  split; [done|]. split; [done|]. split; [|split; [done|split; [by apply retains_data|split; [done|]]]].
  2: { exists j. rewrite Ed. split; [apply lookup_insert_eq|done]. }
  eapply Forall_impl; [exact Hit|]. intros it (H1 & H2 & t & Ht & Hi). split; [|done].
  apply list_elem_of_lookup in Ht as [n Hn'].
  destruct (Forall2_lookup_r _ _ _ _ _ HG Hn') as (r & _ & (_ & _ & _ & k & Hkd & _)).
  rewrite Hkd in Hi. assert (w_dir w !! walName <> Some k) as Hnk.
  { intros Ek. apply (sst_name_not_wal t.1), (Hinj _ _ k); congruence. }
  split; [|exists k; by rewrite Hdw]. intros Efd. unfold file_ino in *.
  destruct (Hk (wal_file (db_wal db)) ltac:(unfold file_ino; eauto)) as [Eiw _]. unfold file_ino in Eiw.
  rewrite Efd in Hi. congruence.
Qed.

(** Installing the merged table changes no answer. *)
Lemma live_replace w db log A I Tpre G Tpost rpre files rpost nr G0 ts es out :
  live w db log A I (Tpre ++ G ++ Tpost) -> db_sstReaders db = rpre ++ files ++ rpost ->
  length rpre = length Tpre -> length files = length G -> G = G0 ++ [(ts, es)] ->
  NoDup (reader_fd <$> db_sstReaders db) -> open_table w (db_wal db) nr (ts, out) ->
  list_to_map (read_back out) = tables_map (G.*2) ->
  db_sstReaders (compaction_install db files nr) = rpre ++ nr :: rpost /\
  live w (compaction_install db files nr) log A I (Tpre ++ (ts, out) :: Tpost) /\
  tables_map ((Tpre ++ (ts, out) :: Tpost).*2) = tables_map ((Tpre ++ G ++ Tpost).*2).
Proof.
  intros [He Htab Hs Hr] Hrs Hl1 Hl2 EG Hnd Hnr Hm.
  assert (files <> []) as Hne by (intros ->; rewrite EG, length_app in Hl2; cbn in Hl2; lia).
  unfold compaction_install. rewrite Hrs in *. rewrite rebuild_ok by done. split; [done|]. split.
  - apply Forall2_app_inv in Htab as [Ht1 Htab]; [|done].
    apply Forall2_app_inv in Htab as [Ht2 Ht3]; [|done].
    split; [exact He| | |].
    + cbn. apply Forall2_app; [done|]. by apply Forall2_cons.
    + rewrite EG in Hs. rewrite !fmap_app in *. cbn [fmap list_fmap fst] in *.
      rewrite !StronglySorted_app in Hs.
      destruct Hs as (H1 & H2 & H3 & (_ & _ & H4) & H5).
      apply StronglySorted_app. split; [|split; [done|]].
      * intros x y Hx Hy. apply H1; [done|]. rewrite !elem_of_app, !elem_of_cons in *. tauto.
      * apply SSorted_cons; [done|]. apply Forall_forall. intros y Hy. apply H3; [|done].
        apply elem_of_app. right. by left.
    + rewrite EG, !Forall_app in Hr. rewrite Forall_app, Forall_cons.
      destruct Hr as (H1 & (_ & [H2 _]%Forall_cons) & H3). done.
  - rewrite !fmap_app, fmap_cons, !tables_map_app. cbn [fst snd].
    change (out :: Tpost.*2) with ([out] ++ Tpost.*2). rewrite tables_map_app, <- Hm. f_equal. f_equal. cbn.
    by rewrite (right_id_L ∅ (∪)).
Qed.
End parts.

(** Closing and deleting the old files spares every other file. *)
Lemma live_cleanup `{Murmur3} w db log A I Ts files iters w' :
  live w db log A I Ts -> w_faults w = [] ->
  Forall (fun r => safe w (db_wal db) (r_file r)) files ->
  Forall (fun it => safe w (db_wal db) (it_file it)) iters ->
  (forall r, r ∈ db_sstReaders db ->
     (reader_fd r ∉ (fun it => f_fd (it_file it)) <$> iters) /\
     (reader_fd r ∉ reader_fd <$> files)) ->
  walName ∉ Reader_Path <$> files ->
  compaction_cleanup files iters w = (tt, w') ->
  live w' db log A I Ts /\ w_faults w' = [] /\
  (forall f, safe w (db_wal db) f -> f_fd f ∉ (fun it => f_fd (it_file it)) <$> iters ->
     f_fd f ∉ reader_fd <$> files -> kept w w' f /\ safe w' (db_wal db) f) /\
  (forall s, w_dir w' !! s = if decide (s ∈ Reader_Path <$> files) then None else w_dir w !! s).
Proof.
  intros Hl Hf Hsf Hsi Hr Hwn E.
  destruct (compaction_cleanup_ok w files iters Hf) as (w2 & E2 & Ea & Hf2 & Hd & Hk).
  rewrite E in E2. injection E2 as <-.
  pose proof (cleanup_sheds files iters w Hf) as Hsh. rewrite E in Hsh. cbn [snd] in Hsh.
  assert (w_dir w' !! walName = w_dir w !! walName) as Hdw by by rewrite Hd, decide_False.
  assert (forall f, safe w (db_wal db) f -> f_fd f ∉ (fun it => f_fd (it_file it)) <$> iters ->
     f_fd f ∉ reader_fd <$> files -> kept w w' f /\ safe w' (db_wal db) f) as Hsp.
  { intros f (Hne & i & Hi & Hni) H1 H2. pose proof (Hk f H1 H2) as Hkf. split; [done|].
    split; [done|]. exists i. destruct Hkf as [-> _]. by rewrite Hdw. }
  split; [|done].
  apply (live_frame w); [done|eapply sheds_wf; [done|by eapply live_wf]
    |eapply sheds_inj; [done|by eapply live_inj]|done| |].
  - apply Hk.
    + intros (it & Ef & Hin)%list_elem_of_fmap. rewrite Forall_forall in Hsi.
      destruct (Hsi it Hin) as [Hne _]. by apply Hne.
    + intros (r & Ef & Hin)%list_elem_of_fmap. rewrite Forall_forall in Hsf.
      destruct (Hsf r Hin) as [Hne _]. by apply Hne.
  - pose proof (lv_tables _ _ _ _ _ _ Hl) as HF. clear -HF Hr Hsp. revert Hr.
    induction HF as [|r t rs Ts (Hrd & Hn & Hs) _ IH]; intros Hr; [constructor|].
    constructor; [|apply IH; intros r' Hr'; apply Hr; by right].
    destruct (Hr r ltac:(by left)) as [H1 H2]. destruct (Hsp _ Hs H1 H2) as [Hk Hs'].
    split; [by eapply kept_reads|done].
Qed.

(** ** The system *)

Inductive compaction_pc :=
| CIdle
| CSelected (files : list Reader)
| CBuilt (files : list Reader) (iters : list Iterator) (newReader : Reader)
| CInstalled (files : list Reader) (iters : list Iterator).

Record csys := mkCsys { c_sys : sys; c_pc : compaction_pc }.

Section system.
Context `{Murmur3} `{Runtime}.

(** The steps of clients, the clock and the flush worker, and the parts of
    [RunCompaction]. *)
Inductive cstep : csys -> option (op * err) -> csys -> Prop :=
| cstep_flush s l s' c :
    step s l s' -> cstep (mkCsys s c) l (mkCsys s' c)
| cstep_select w db pc files tier :
    selectFilesForCompaction w db = (files, tier) -> files <> [] ->
    cstep (mkCsys (mkSys w db pc) CIdle) None (mkCsys (mkSys w db pc) (CSelected files))
| cstep_build w db pc files r w' :
    w_dir w !! tmp_name (merged_path files) (w_now w) = None -> group_size w files < 2 ^ 31 ->
    compaction_build files w = (r, w') ->
    cstep (mkCsys (mkSys w db pc) (CSelected files)) None
          (mkCsys (mkSys w' db pc)
             match r with inr (iters, newReader) => CBuilt files iters newReader | inl _ => CIdle end)
| cstep_install w db pc files iters newReader :
    cstep (mkCsys (mkSys w db pc) (CBuilt files iters newReader)) None
          (mkCsys (mkSys w (compaction_install db files newReader) pc) (CInstalled files iters))
| cstep_cleanup w db pc files iters :
    cstep (mkCsys (mkSys w db pc) (CInstalled files iters)) None
          (mkCsys (mkSys (compaction_cleanup files iters w).2 db pc) CIdle).

(** runs whose states, after the first, satisfy [ok] *)
Inductive csteps (ok : csys -> Prop) : csys -> list (op * err) -> csys -> Prop :=
| csteps_refl s : csteps ok s [] s
| csteps_silent s1 s2 s3 l : cstep s1 None s2 -> ok s2 -> csteps ok s2 l s3 -> csteps ok s1 l s3
| csteps_op s1 s2 s3 x l :
    cstep s1 (Some x) s2 -> ok s2 -> csteps ok s2 l s3 -> csteps ok s1 (x :: l) s3.

(** The selected tables are neighbours.  They are when the file of every table can
    be examined ([selection_orderly]).  The selection skips a table whose file it
    cannot examine, and after a compaction the merged table has no name: a later
    selection can then reach across it ([skipped_table_overtakes]). *)
Definition orderly (s : csys) : Prop :=
  match c_pc s with
  | CSelected files => exists pre post, db_sstReaders (s_db (c_sys s)) = pre ++ files ++ post
  | _ => True
  end.

Lemma selection_orderly w db files tier :
  Forall (fun r => is_Some (tier_of w r)) (db_sstReaders db) ->
  selectFilesForCompaction w db = (files, tier) -> files <> [] ->
  exists pre post, db_sstReaders db = pre ++ files ++ post.
Proof.
  intros Hst Hsel Hne.
  pose proof (select_loop_segment w (db_sstReaders db) (db_sstReaders db) (-1) [] [] Hst eq_refl
    ltac:(constructor)) as Hs. cbn zeta in Hs.
  unfold selectFilesForCompaction in Hsel. rewrite Hsel in Hs. cbn [fst] in Hs.
  destruct Hs as [?|(p & q & t & E & _)]; [done|by exists p, q].
Qed.

(** The steps of clients and of the flush only append to the list of tables. *)
Lemma finish_readers db b w :
  match b with
  | Built _ verified => forall imm, db_immutableMemtable db = Some imm -> verified <> sl_Size imm
  | _ => True
  end -> db_sstReaders (flush_finish db b w).1.2 = db_sstReaders db.
Proof.
  assert (forall e w0, db_sstReaders (recoverFromFlushFailure db e w0).1.2 = db_sstReaders db) as Hrec.
  { intros e w0. unfold recoverFromFlushFailure.
    destruct (db_immutableMemtable db ≫= SkipList_entries); [|done]. unfold mbind, IO_bind.
    by destruct (relog _ _ w0). }
  unfold flush_finish. destruct b as [r v|e|e]; [|by intros _..]. intros Hv.
  destruct (db_immutableMemtable db) as [imm|]; [|done].
  rewrite (proj2 (Z.eqb_neq v (sl_Size imm))) by by apply Hv. cbn [negb]. unfold mbind, IO_bind.
  destruct (Reader_Close r w) as [x1 w1]. destruct (os_Remove (Reader_Path r) w1) as [x2 w2]. apply Hrec.
Qed.

Lemma step_readers s l s' :
  step s l s' -> exists more, db_sstReaders (s_db s') = db_sstReaders (s_db s) ++ more.
Proof.
  assert (forall db db', db_sstReaders db' = db_sstReaders db ->
    exists more, db_sstReaders db' = db_sstReaders db ++ more) as Hsame
    by (intros db db' ->; exists []; by rewrite app_nil_r).
  intros Hst. destruct Hst as [w db pc o r db' w' Ho Hseq E|w db pc t Hle
    |w db db' w' Hfit E|w db r db' w' E|w db b w' Hck E|w db reader verified imm Ei Ev|w db
    |w db b db' w' r Hb E]; cbn [s_db]; try (by apply Hsame).
  - apply Hsame. by apply run_op_strip in E as [_ ->].
  - apply Hsame. by apply flush_rotate_strip in E as [_ ->].
  - apply Hsame. by apply flush_rotate_strip in E as [_ ->].
  - by exists [reader].
  - apply Hsame. rewrite <- (finish_readers db b w Hb). by rewrite E.
Qed.

(** Once made, a selection stays one of neighbours. *)
Lemma cstep_orderly s l s' :
  cstep s l s' -> orderly s -> (c_pc s = CIdle -> orderly s') -> orderly s'.
Proof.
  intros Hst Ho Hsel. destruct Hst as [s l s' c Hst|w db pc files tier _ _
    |w db pc files r w' _ _ _|w db pc files iters nr|w db pc files iters]; unfold orderly in *;
    cbn [c_pc c_sys s_db] in *; try done; [|by apply Hsel|by destruct r as [|[??]]].
  destruct c as [|files|files its nr|files its]; try done.
  destruct Ho as (pre & post & E), (step_readers _ _ _ Hst) as [more E'].
  exists pre, (post ++ more). by rewrite E', E, <- !app_assoc.
Qed.

(** *** The invariant *)

Section invariant.
Context (P : bytes -> option bytes -> Prop) (exact : Prop).

(** the reader of the flush that is about to install its table *)
Definition flush_readers (pc : flush_pc) : list Reader :=
  match pc with Finishing (Built r _) => [r] | _ => [] end.

(** the readers of the compaction that the engine does not list *)
Definition comp_readers (c : compaction_pc) : list Reader :=
  match c with CBuilt _ _ nr => [nr] | CInstalled files _ => files | _ => [] end.

Definition comp_iters (c : compaction_pc) : list Iterator :=
  match c with CBuilt _ iters _ | CInstalled _ iters => iters | _ => [] end.

Definition named (w : World) (r : Reader) : Prop :=
  w_dir w !! f_name (r_file r) = file_ino w (r_file r).

#[export] Instance named_dec w r : Decision (named w r).
Proof. unfold named. apply _. Defined.

(** where the compaction stands *)
Definition comp_ok (w : World) (db : StrataGo) (Ts : list (Z * list (bytes * slice)))
    (c : compaction_pc) : Prop :=
  match c with
  | CIdle => Forall (settled w) (db_sstReaders db)
  | CSelected files =>
      Forall (settled w) (db_sstReaders db) /\ files <> [] /\ Forall (named w) files /\
      exists pre post, db_sstReaders db = pre ++ files ++ post
  | CBuilt files iters nr =>
      exists pre post Tpre G0 ts es Tpost out,
        db_sstReaders db = pre ++ files ++ post /\ Ts = Tpre ++ (G0 ++ [(ts, es)]) ++ Tpost /\
        length pre = length Tpre /\ length files = length (G0 ++ [(ts, es)]) /\
        Forall (settled w) (pre ++ post) /\ open_table w (db_wal db) nr (ts, out) /\
        list_to_map (read_back out) = tables_map ((G0 ++ [(ts, es)]).*2)
  | CInstalled files iters =>
      exists pre nr post ts,
        db_sstReaders db = pre ++ nr :: post /\ ts ∈ Ts.*1 /\ Reader_Path nr = sst_name ts /\
        Forall (settled w) (pre ++ post) /\ sst_name ts ∈ Reader_Path <$> files /\
        Forall (fun r => Reader_Path r ∉ Reader_Path <$> files) (pre ++ post) /\
        Forall (fun r => safe w (db_wal db) (r_file r) /\
                  exists t, Reader_Path r = sst_name t /\ - 2 ^ 63 <= t <= ts) files
  end.

(** The descriptors in use are distinct; [pending] is the reader of the flush. *)
Record held (w : World) (db : StrataGo) (Ts : list (Z * list (bytes * slice)))
    (pending : list Reader) (c : compaction_pc) : Prop := {
  h_nodup : NoDup (reader_fd <$> db_sstReaders db ++ pending ++ comp_readers c);
  h_iters : Forall (fun it => safe w (db_wal db) (it_file it) /\
              f_fd (it_file it) ∉ reader_fd <$> db_sstReaders db ++ pending ++ comp_readers c)
              (comp_iters c);
  h_comp : comp_ok w db Ts c
}.

(** the flush, as in [simulates], on open tables *)
Definition flush_ok (w : World) (db : StrataGo) (I : option (list (bytes * slice)))
    (Ts : list (Z * list (bytes * slice))) (pc : flush_pc) : Prop :=
  match pc with
  | Idle | Removing => I = None
  | Building => exists B, I = Some B /\ sst_ok B
  | Finishing b => exists B r ts, I = Some B /\ b = Built r (len B) /\
      open_table w (db_wal db) r (ts, B) /\ settled w r /\ 0 <= ts < 2 ^ 63 /\
      Forall (fun t => t.1 < ts) Ts
  end.

(** The system holds the answers [f], and its data satisfies [P].  Data recovered
    from a log may hold empty values, which a flush turns into absent ones: then
    the answers are [f] up to what is visible; they are [f] itself when [exact]
    holds. *)
Record cinv (s : csys) (f : bytes -> option bytes) (log A : list (bytes * slice))
    (I : option (list (bytes * slice))) (Ts : list (Z * list (bytes * slice))) : Prop := {
  ci_live : live (s_world (c_sys s)) (s_db (c_sys s)) log A I Ts;
  ci_faults : w_faults (s_world (c_sys s)) = [];
  ci_open : db_closed (s_db (c_sys s)) = false;
  ci_seq : wal_sequenceNumber (db_wal (s_db (c_sys s))) < 2 ^ 64;
  ci_answer : forall k, visible (answer A I (Ts.*2) k) = visible (f k);
  ci_exact : exact -> no_empty A I /\ forall k, answer A I (Ts.*2) k = f k;
  ci_sourced : sourced P (s_world (c_sys s)) log I Ts;
  ci_flush : flush_ok (s_world (c_sys s)) (s_db (c_sys s)) I Ts (s_pc (c_sys s));
  ci_held : held (s_world (c_sys s)) (s_db (c_sys s)) Ts (flush_readers (s_pc (c_sys s))) (c_pc s)
}.

Lemma comp_readers_safe w db Ts c :
  comp_ok w db Ts c -> Forall (fun r => safe w (db_wal db) (r_file r)) (comp_readers c).
Proof.
  destruct c; cbn [comp_readers comp_ok]; try constructor.
  - destruct H1 as (? & ? & ? & ? & ? & ? & ? & ? & _ & _ & _ & _ & _ & Ht & _).
    apply Ht.
  - constructor.
  - intros (? & ? & ? & ? & _ & _ & _ & _ & _ & _ & HF). eapply Forall_impl; [exact HF|].
    cbn. tauto.
Qed.
(** *** Steps that spare the tables *)

Section spared.
Context (w : World) (db : StrataGo) (Ts : list (Z * list (bytes * slice))).
Context (w' : World) (db' : StrataGo).
Context (Htab : Forall2 (open_table w (db_wal db)) (db_sstReaders db) Ts).
Context (Hsp : spares w (db_wal db) w' (db_wal db')).
Context (Hrs : db_sstReaders db' = db_sstReaders db).
Context (Hdir : forall r, r ∈ db_sstReaders db ->
           w_dir w' !! f_name (r_file r) = w_dir w !! f_name (r_file r)).

Lemma reader_safe r : r ∈ db_sstReaders db -> safe w (db_wal db) (r_file r).
Proof using Htab.
  intros [n Hn]%list_elem_of_lookup. destruct (Forall2_lookup_l _ _ _ _ _ Htab Hn) as (t & _ & Ht).
  apply Ht.
Qed.

Lemma settled_spared rs :
  (forall r, r ∈ rs -> r ∈ db_sstReaders db) -> Forall (settled w) rs -> Forall (settled w') rs.
Proof using Htab Hsp Hdir.
  intros Hin HF. apply Forall_forall. intros r Hr. rewrite Forall_forall in HF.
  eapply spares_settled; [exact Hsp|apply reader_safe; auto|apply Hdir; auto|auto].
Qed.

Lemma comp_ok_spared c : comp_ok w db Ts c -> comp_ok w' db' Ts c.
Proof using Htab Hsp Hrs Hdir.
  destruct c as [|files|files iters nr|files iters]; cbn [comp_ok]; rewrite Hrs.
  - by apply settled_spared.
  - intros (Hs & Hne & Hn & pre & post & E). split; [by apply settled_spared|]. split; [done|].
    split; [|by exists pre, post]. apply Forall_forall. intros r Hr. rewrite Forall_forall in Hn.
    assert (r ∈ db_sstReaders db) as Hin by (rewrite E, !elem_of_app; tauto).
    unfold named. rewrite Hdir by done. destruct (Hsp _ (reader_safe r Hin)) as [[-> _] _].
    by apply Hn.
  - intros (pre & post & Tpre & G0 & ts & es & Tpost & out & E & HTs & H1 & H2 & Hs & Ht & Hm).
    exists pre, post, Tpre, G0, ts, es, Tpost, out. split; [done|]. split; [done|].
    split; [done|]. split; [done|]. split; [|split; [by eapply spares_table|done]].
    apply settled_spared; [|done]. intros r. rewrite E, !elem_of_app. tauto.
  - intros (pre & nr & post & ts & E & Hts & Hn & Hs & Hin & Hd & HF).
    exists pre, nr, post, ts. split; [done|]. split; [done|]. split; [done|].
    split; [|split; [done|split; [done|]]].
    + apply settled_spared; [|done]. intros r. rewrite E, !elem_of_app, elem_of_cons. tauto.
    + eapply Forall_impl; [exact HF|]. intros r [Hf ?]. split; [by apply (Hsp _ Hf)|done].
Qed.

Lemma held_spared pending c : held w db Ts pending c -> held w' db' Ts pending c.
Proof using Htab Hsp Hrs Hdir.
  intros [Hnd Hit Hc]. split; [by rewrite Hrs| |by apply comp_ok_spared].
  rewrite Hrs. eapply Forall_impl; [exact Hit|]. intros it [Hf Hn].
  split; [by apply (Hsp _ Hf)|done].
Qed.
End spared.

(** A reader that has just been opened can be held in addition. *)
Lemma held_pending w db Ts c r :
  Forall2 (open_table w (db_wal db)) (db_sstReaders db) Ts -> held w db Ts [] c ->
  (forall f, safe w (db_wal db) f -> f_fd f <> reader_fd r) ->
  held w db Ts [r] c.
Proof.
  intros Htab [Hnd Hit Hc] Hfresh. pose proof (comp_readers_safe _ _ _ _ Hc) as Hcs.
  rewrite Forall_forall in Hcs.
  assert (reader_fd r ∉ reader_fd <$> db_sstReaders db ++ comp_readers c) as Hnotin.
  { intros (r' & E & Hin)%list_elem_of_fmap. apply (Hfresh (r_file r')); [|done].
    apply elem_of_app in Hin as [Hin|Hin]; [by eapply reader_safe|by apply Hcs]. }
  assert (reader_fd <$> db_sstReaders db ++ [r] ++ comp_readers c ≡ₚ
    reader_fd r :: (reader_fd <$> db_sstReaders db ++ comp_readers c)) as HP.
  { rewrite <- fmap_cons. apply fmap_Permutation. symmetry. apply Permutation_middle. }
  split; [|eapply Forall_impl; [exact Hit|]|done].
  - rewrite HP. by constructor.
  - cbn. intros it [Hs Hf]. split; [done|]. rewrite HP, not_elem_of_cons.
    split; [by apply Hfresh|done].
Qed.

(** The table of a flush joins the tables. *)
Lemma comp_ok_install w db Ts c r B ts :
  comp_ok w db Ts c -> settled w r -> Reader_Path r = sst_name ts -> 0 <= ts < 2 ^ 63 ->
  Forall (fun t => t.1 < ts) Ts -> comp_ok w (flush_install db r) (Ts ++ [(ts, B)]) c.
Proof.
  intros Hc Hs Hn Hts Hlt.
  destruct c as [|files|files iters nr|files iters]; cbn [comp_ok flush_install set_immutable
    set_readers db_sstReaders db_wal] in *.
  - by apply Forall_snoc.
  - destruct Hc as (Hc & Hne & Hf & pre & post & E). split; [by apply Forall_snoc|].
    split; [done|]. split; [done|]. exists pre, (post ++ [r]). by rewrite E, <- !app_assoc.
  - destruct Hc as (pre & post & Tpre & G0 & t0 & es & Tpost & out & E & HTs & H1 & H2 & Hc & Ht & Hm).
    exists pre, (post ++ [r]), Tpre, G0, t0, es, (Tpost ++ [(ts, B)]), out.
    split; [by rewrite E, <- !app_assoc|]. split; [by rewrite HTs, <- !app_assoc|].
    split; [done|]. split; [done|]. split; [|done]. rewrite app_assoc. by apply Forall_snoc.
  - destruct Hc as (pre & nr & post & t0 & E & Ht0 & Hnr & Hc & Hin & Hd & HF).
    exists pre, nr, (post ++ [r]), t0. split; [by rewrite E, <- !app_assoc|].
    split; [rewrite fmap_app, elem_of_app; by left|]. split; [done|].
    rewrite app_assoc. split; [by apply Forall_snoc|]. split; [done|]. split; [|done].
    apply Forall_snoc; [done|]. rewrite Hn.
    intros (r' & E' & Hr')%list_elem_of_fmap. rewrite Forall_forall in HF.
    destruct (HF r' Hr') as (_ & t & Et & Hrng). rewrite Et in E'.
    apply list_elem_of_fmap in Ht0 as (x & -> & Hx). rewrite Forall_forall in Hlt.
    specialize (Hlt x Hx). apply sst_name_inj in E'; lia.
Qed.

Lemma held_install w db Ts c r B ts :
  held w db Ts [r] c -> settled w r -> Reader_Path r = sst_name ts -> 0 <= ts < 2 ^ 63 ->
  Forall (fun t => t.1 < ts) Ts -> held w (flush_install db r) (Ts ++ [(ts, B)]) [] c.
Proof.
  intros [Hnd Hit Hc] Hs Hn Hts Hlt. split; [| |by apply comp_ok_install];
    cbn [flush_install set_immutable set_readers db_sstReaders db_wal app];
    by rewrite <- app_assoc.
Qed.

(** *** The steps of a compaction *)

Lemma select_loop_exist w readers : forall tier group,
  Forall (fun r => is_Some (w_dir w !! Reader_Path r)) group ->
  Forall (fun r => is_Some (w_dir w !! Reader_Path r)) (select_loop w readers tier group).1.
Proof.
  induction readers as [|r rs IH]; intros tier group Hg; [constructor|]. cbn [select_loop].
  destruct (os_Stat_Size w (Reader_Path r)) as [e|size] eqn:Es; [by apply IH|].
  assert (is_Some (w_dir w !! Reader_Path r)) as Hr.
  { unfold os_Stat_Size in Es. destruct (w_dir w !! Reader_Path r); [eauto|done]. }
  destruct (getTier size =? tier).
  - destruct (length (group ++ [r]) =? CompactionThreshold)%nat; [|apply IH];
      by apply Forall_snoc.
  - apply IH. by repeat constructor.
Qed.

Lemma held_select w db Ts pending files tier :
  held w db Ts pending CIdle -> selectFilesForCompaction w db = (files, tier) -> files <> [] ->
  (exists pre post, db_sstReaders db = pre ++ files ++ post) ->
  held w db Ts pending (CSelected files).
Proof.
  intros [Hnd _ Hc] Hsel Hne Hcont. split; [done|constructor|]. cbn [comp_ok] in *.
  split; [done|]. split; [done|]. split; [|done].
  pose proof (select_loop_exist w (db_sstReaders db) (-1) [] ltac:(constructor)) as HF.
  unfold selectFilesForCompaction in Hsel. rewrite Hsel in HF. cbn [fst] in HF.
  destruct Hcont as (pre & post & E). apply Forall_forall. intros r Hr.
  rewrite Forall_forall in HF, Hc. destruct (HF r Hr) as [i Hi].
  destruct (Hc r) as [?|E0]; [rewrite E, !elem_of_app; tauto|done|].
  unfold Reader_Path in Hi. congruence.
Qed.

(** The selected files are tables under their own names. *)
Lemma selected_tables w db log A I Ts pre files post :
  live w db log A I Ts -> db_sstReaders db = pre ++ files ++ post -> files <> [] ->
  Forall (named w) files ->
  exists Tpre G0 ts es Tpost, Ts = Tpre ++ (G0 ++ [(ts, es)]) ++ Tpost /\
    length pre = length Tpre /\ Forall2 (table_ok w) files (G0 ++ [(ts, es)]) /\
    - 2 ^ 63 <= ts < 2 ^ 63.
Proof.
  intros Hl E Hne Hn. pose proof (lv_tables _ _ _ _ _ _ Hl) as HF.
  pose proof (lv_range _ _ _ _ _ _ Hl) as Hr. rewrite E in HF. clear Hl E.
  apply Forall2_app_inv_l in HF as (Tpre & T' & H1 & HF & ->).
  apply Forall2_app_inv_l in HF as (G & Tpost & H2 & H3 & ->).
  destruct G as [|[ts es] G0 _] using rev_ind; [by apply Forall2_nil_inv_r in H2|].
  exists Tpre, G0, ts, es, Tpost. split; [done|].
  split; [by apply Forall2_length in H1|]. split.
  - clear -H2 Hn. induction H2 as [|r t rs Ts Ht _ IH]; [constructor|].
    apply Forall_cons in Hn as [Hn Hns]. constructor; [by eapply settled_table_ok|by apply IH].
  - rewrite !Forall_app in Hr. destruct Hr as (_ & (_ & [Hr _]%Forall_cons) & _). done.
Qed.

(** *** Preservation *)

(** The steps of clients and of the flush worker. *)
Lemma flush_ok_spared w db I Ts pc w' db' :
  flush_ok w db I Ts pc -> spares w (db_wal db) w' (db_wal db') ->
  (forall ts, Forall (fun t => t.1 < ts) Ts -> 0 <= ts < 2 ^ 63 ->
     w_dir w' !! sst_name ts = w_dir w !! sst_name ts) ->
  flush_ok w' db' I Ts pc.
Proof.
  intros Hp Hsp Hd. destruct pc; try done.
  destruct Hp as (B & r & ts & ? & ? & Ht & Hs & ? & ?). exists B, r, ts.
  split; [done|]. split; [done|]. split; [by eapply spares_table|]. split; [|done].
  destruct Ht as (_ & Hn & Hf). eapply spares_settled; [exact Hsp|done| |done].
  rewrite Hn. by apply Hd.
Qed.

Lemma sst_not_log ts : ~ log_name (sst_name ts).
Proof. intros [E|E]; [by apply (sst_name_not_wal ts)|by apply (sst_name_not_flushing ts)]. Qed.

Lemma reader_name w db log A I Ts r :
  live w db log A I Ts -> r ∈ db_sstReaders db ->
  exists t, t ∈ Ts /\ f_name (r_file r) = sst_name t.1.
Proof.
  intros Hl [n Hn]%list_elem_of_lookup.
  destruct (Forall2_lookup_l _ _ _ _ _ (lv_tables _ _ _ _ _ _ Hl) Hn) as (t & Ht & _ & E & _).
  exists t. split; [by eapply list_elem_of_lookup_2|done].
Qed.

(** The step changes no name of a table. *)
Lemma held_step w db log A I Ts pending c w' db' :
  live w db log A I Ts -> held w db Ts pending c -> spares w (db_wal db) w' (db_wal db') ->
  db_sstReaders db' = db_sstReaders db ->
  (forall s, ~ log_name s -> w_dir w' !! s = w_dir w !! s) -> held w' db' Ts pending c.
Proof.
  intros Hl Hh Hsp Hrs Hd. apply (held_spared w db Ts w' db'); try done.
  - apply (lv_tables _ _ _ _ _ _ Hl).
  - intros r Hr. destruct (reader_name _ _ _ _ _ _ _ Hl Hr) as (t & _ & ->). apply Hd, sst_not_log.
Qed.

Lemma cinv_op w db pc c f log A I Ts o r db' w' :
  cinv (mkCsys (mkSys w db pc) c) f log A I Ts -> op_ok o -> (exact -> op_nonempty o) ->
  good P (op_entry o) ->
  wal_sequenceNumber (db_wal db) + 1 < 2 ^ 64 -> run_op o db w = ((r, db'), w') ->
  r = None /\
  cinv (mkCsys (mkSys w' db' pc) c) (fun k => op_answer k (f k) o)
    (log ++ [op_entry o]) (entries_put (op_entry o).1 (op_entry o).2 A) I Ts.
Proof.
  intros [Hl Hf Hc Hq Ha Hn Hsr Hp Hh] Ho Hne Hg Hseq E. cbn [c_sys c_pc s_world s_db s_pc] in *.
  destruct (live_op _ _ _ _ _ _ o r db' w' Hl Hc Hf Ho Hseq E)
    as (-> & Hl' & Hsp & Hf' & Hc' & Hd & Hrs & Hret).
  pose proof (repr_sorted _ _ (eo_active _ _ _ _ _ _ (lv_engine _ _ _ _ _ _ Hl))) as Hs.
  split; [done|]. split; cbn [c_sys c_pc s_world s_db s_pc]; try done.
  - rewrite (run_op_seq _ _ _ _ _ _ Hc E). unfold u64. lia.
  - intros k. rewrite answer_put by done. by apply visible_op.
  - intros Hx. destruct (Hn Hx) as [Hn1 Hn2]. split; [by apply no_empty_put; [|apply Hne|]|]. intros k.
    rewrite answer_put by done. unfold op_answer. by rewrite Hn2.
  - apply (sourced_retains P w w' log); [done|apply Forall_snoc; [apply Hsr|done]|].
    eapply retains_weaken; [exact Hret|]. apply tracked_not_wal.
  - apply (flush_ok_spared w db); [done|done|]. intros. by rewrite Hd.
  - eapply held_step; [exact Hl|done|done|done|]. intros. by rewrite Hd.
Qed.

(** Only names, contents and open files matter. *)
Lemma cinv_same w w' db pc c f log A I Ts :
  cinv (mkCsys (mkSys w db pc) c) f log A I Ts -> wf_world w' ->
  w_dir w' = w_dir w -> w_data w' = w_data w -> w_fds w' = w_fds w -> w_faults w' = w_faults w ->
  cinv (mkCsys (mkSys w' db pc) c) f log A I Ts.
Proof.
  intros [Hl Hf Hc Hq Ha Hn Hsr Hp Hh] Hw Ed Ea Efd Ef. cbn [c_sys c_pc s_world s_db s_pc] in *.
  assert (spares w (db_wal db) w' (db_wal db)) as Hsp.
  { intros g (Hg & i & Hi & Hne). unfold kept, safe, file_data, file_ino in *. rewrite Ed, Ea, Efd. eauto 6. }
  split; cbn [c_sys c_pc s_world s_db s_pc]; [|congruence|exact Hc|exact Hq|exact Ha|exact Hn| | |].
  - apply (live_frame w); [done|done| |by rewrite Ed|by unfold kept, file_data, file_ino; rewrite Efd, Ea|].
    + intros s1 s2 i. rewrite Ed. apply (live_inj _ _ _ _ _ _ Hl).
    + eapply spares_tables; [exact Hsp|]. apply (lv_tables _ _ _ _ _ _ Hl).
  - apply (sourced_retains P w _ log); [done|apply Hsr|]. intros s i _. by rewrite Ed, Ea.
  - apply (flush_ok_spared w db); [done|done|]. intros. by rewrite Ed.
  - eapply held_step; [exact Hl|exact Hh|exact Hsp|done|]. intros. by rewrite Ed.
Qed.

Lemma cinv_tick w db pc c f log A I Ts t :
  cinv (mkCsys (mkSys w db pc) c) f log A I Ts ->
  cinv (mkCsys (mkSys (set_now t w) db pc) c) f log A I Ts.
Proof.
  intros Hi. apply (cinv_same w); try done.
  destruct (live_wf _ _ _ _ _ _ (ci_live _ _ _ _ _ _ Hi)) as [H1 H2 H3 H4]. by split.
Qed.

Lemma cinv_rotate w db c f log A I Ts r db' w' :
  cinv (mkCsys (mkSys w db Idle) c) f log A I Ts -> flush_rotate db w = ((r, db'), w') ->
  match r with
  | None => mem_fits (db_activeMemtable db) ->
      cinv (mkCsys (mkSys w' db' Building) c) f [] [] (Some A) Ts
  | Some _ => cinv (mkCsys (mkSys w' db' Idle) c) f log A I Ts
  end.
Proof.
  intros Hi E. pose proof Hi as [Hl Hf Hc Hq Ha Hn Hsr Hp Hh]. cbn [c_sys c_pc s_world s_db s_pc] in *.
  cbn [flush_ok] in Hp. subst I. pose proof (live_rotate _ _ _ _ _ _ _ _ Hl Hf E) as Hr. destruct r as [r|].
  - destruct Hr as [-> ->]. done.
  - destruct Hr as (Hl' & Hsp & Hf' & Hc' & Hrs & Hd & i & Hi0 & Ew). intros Hfit.
    split; cbn [c_sys c_pc s_world s_db s_pc]; try done.
    + congruence.
    + pose proof (engine_seq _ _ _ _ _ _ (lv_engine _ _ _ _ _ _ Hl')) as Hz. cbn in Hz.
      change (len []) with 0 in Hz. lia.
    + intros k. by rewrite answer_rotate.
    + intros [Hn1 Hn2]%Hn. split; [by apply no_empty_rotate|]. intros k. by rewrite answer_rotate.
    + rewrite Ew. pose proof (lv_engine _ _ _ _ _ _ Hl) as He. pose proof (eo_active _ _ _ _ _ _ He) as Hact.
      apply (sourced_rotated P w (db_wal db) log); try done; [by eapply live_wf
        |by eapply live_wal|apply (eo_log _ _ _ _ _ _ He)|by eapply repr_sorted|].
      destruct Hfit as [Hb _]. cbn [set_readers db_activeMemtable] in Hact. rewrite (repr_size _ _ Hact) in Hb.
      unfold bloom_keys_ok, bitsPerKey in Hb. lia.
    + exists A. split; [done|]. pose proof (lv_engine _ _ _ _ _ _ Hl) as He.
      eapply logged_sst_ok; [exact He|]. apply (mem_fits_ok (db_activeMemtable db)); [|done].
      apply (eo_active _ _ _ _ _ _ He).
    + eapply held_step; [exact Hl|exact Hh|exact Hsp|done|exact Hd].
Qed.

Lemma cinv_build w db c f log A I Ts b w' :
  cinv (mkCsys (mkSys w db Building) c) f log A I Ts -> clock_ok w db ->
  flush_build db w = (b, w') -> cinv (mkCsys (mkSys w' db (Finishing b)) c) f log A I Ts.
Proof.
  intros [Hl Hf Hc Hq Ha Hn Hsr (B & -> & HB) Hh] Hck E. cbn [c_sys c_pc s_world s_db s_pc] in *.
  destruct (live_build _ _ _ _ _ _ _ _ Hl Hf HB Hck E)
    as (r & -> & Hl' & Hsp & Hf' & Ht & Hs & Hfd & Hnow & Hlt & Hd & Hret & Htk).
  split; cbn [c_sys c_pc s_world s_db s_pc flush_readers]; try done.
  - apply (sourced_table P w w' log (Some B) Ts (w_now w) B); try done; [lia|apply Hsr|].
    destruct Htk as (_ & _ & _ & i & Hi & _ & Hdata). cbn [fst snd] in *. intros j Hj. congruence.
  - by exists B, r, (w_now w).
  - apply (held_spared w db Ts w' db); try done.
    + apply (lv_tables _ _ _ _ _ _ Hl).
    + intros r' Hr'. destruct (reader_name _ _ _ _ _ _ _ Hl Hr') as (t & Hin & ->). apply Hd.
      rewrite Forall_forall in Hlt. specialize (Hlt t Hin).
      pose proof (lv_range _ _ _ _ _ _ Hl) as Hrg. rewrite Forall_forall in Hrg.
      specialize (Hrg t Hin). cbn in *. intros En. apply sst_name_inj in En; lia.
    + apply held_pending; [apply (lv_tables _ _ _ _ _ _ Hl)|done|].
      intros g Hg. pose proof (safe_lt _ _ _ (live_wf _ _ _ _ _ _ Hl) Hg). lia.
Qed.

Lemma cinv_install w db c f log A I Ts r v :
  cinv (mkCsys (mkSys w db (Finishing (Built r v))) c) f log A I Ts ->
  exists Ts', cinv (mkCsys (mkSys w (flush_install db r) Removing) c) f log A None Ts'.
Proof.
  intros [Hl Hf Hc Hq Ha Hn Hsr (B & r0 & ts & -> & Eb & Ht & Hs & Hts & Hlt) Hh].
  cbn [c_sys c_pc s_world s_db s_pc flush_readers] in *. injection Eb as <- ->.
  exists (Ts ++ [(ts, B)]).
  split; cbn [c_sys c_pc s_world s_db s_pc flush_readers flush_ok]; try done.
  - by apply live_install.
  - intros k. rewrite fmap_app. cbn [fmap list_fmap snd]. rewrite <- Ha. apply visible_installed.
  - intros [Hn1 Hn2]%Hn. split; [by eapply no_empty_install|]. intros k.
    rewrite fmap_app. cbn [fmap list_fmap snd]. rewrite <- Hn2. by apply answer_installed.
  - apply (sourced_same P w log (Some B) Ts); [done|by cbn|]. apply Forall_snoc; apply Hsr.
  - apply held_install; [done|done|apply Ht|done|done].
Qed.

Lemma cinv_remove w db c f log A I Ts :
  cinv (mkCsys (mkSys w db Removing) c) f log A I Ts ->
  cinv (mkCsys (mkSys (os_Remove flushingName w).2 db Idle) c) f log A I Ts.
Proof.
  intros [Hl Hf Hc Hq Ha Hn Hsr Hp Hh]. cbn [c_sys c_pc s_world s_db s_pc] in *.
  destruct (live_remove _ _ _ _ _ _ Hl Hf) as (Hl' & Hsp & Hf' & Hd).
  split; cbn [c_sys c_pc s_world s_db s_pc]; try done.
  { apply (sourced_retains P w _ log); [done|apply Hsr|]. by apply sheds_retains, os_Remove_sheds. }
  by eapply held_step; [exact Hl|exact Hh|exact Hsp|..].
Qed.

Lemma cinv_no_failure w db c f log A I Ts b :
  cinv (mkCsys (mkSys w db (Finishing b)) c) f log A I Ts ->
  exists reader imm, b = Built reader (sl_Size imm) /\ db_immutableMemtable db = Some imm.
Proof.
  intros [Hl _ _ _ _ _ _ (B & r & ts & -> & -> & _) _]. cbn [c_sys c_pc s_world s_db s_pc] in *.
  pose proof (eo_imm _ _ _ _ _ _ (lv_engine _ _ _ _ _ _ Hl)) as Himm. unfold imm_repr in Himm.
  cbn [set_readers db_immutableMemtable] in Himm.
  destruct (db_immutableMemtable db) as [imm|]; [|done]. exists r, imm.
  by rewrite (repr_size _ _ Himm).
Qed.

(** *** The compaction's own steps *)

(** The names around the selected group, and in it. *)
Lemma group_names w db log A I Tpre G0 ts es Tpost pre files post :
  live w db log A I (Tpre ++ (G0 ++ [(ts, es)]) ++ Tpost) ->
  db_sstReaders db = pre ++ files ++ post -> length pre = length Tpre ->
  length files = length (G0 ++ [(ts, es)]) ->
  Forall (fun r => exists t, Reader_Path r = sst_name t /\ - 2 ^ 63 <= t <= ts) files /\
  sst_name ts ∈ Reader_Path <$> files /\ - 2 ^ 63 <= ts < 2 ^ 63 /\
  Forall (fun r => Reader_Path r ∉ Reader_Path <$> files) (pre ++ post).
Proof.
  intros Hl E H1 H2. pose proof Hl as [_ HF Hs Hr]. rewrite E in HF.
  apply Forall2_app_inv in HF as [Hpre HF]; [|done].
  apply Forall2_app_inv in HF as [Hfiles Hpost]; [|done].
  rewrite !fmap_app, !StronglySorted_app in Hs.
  destruct Hs as (Hpg & Hsp & Hgp & (Hg0 & _ & _) & _). rewrite !Forall_app in Hr.
  destruct Hr as (Hrpre & [Hrg0 [Hrts _]%Forall_cons] & Hrpost). cbn [fst] in *.
  assert (forall r, r ∈ files -> exists t, Reader_Path r = sst_name t /\ t ∈ (G0 ++ [(ts, es)]).*1) as Hin.
  { intros r [n Hn]%list_elem_of_lookup. destruct (Forall2_lookup_l _ _ _ _ _ Hfiles Hn) as (t & Ht & _ & En & _).
    exists t.1. split; [done|]. apply list_elem_of_fmap_2. by eapply list_elem_of_lookup_2. }
  assert (forall t, t ∈ (G0 ++ [(ts, es)]).*1 -> - 2 ^ 63 <= t <= ts) as Hle.
  { intros t Ht. rewrite fmap_app, elem_of_app in Ht. cbn [fmap list_fmap fst] in *.
    destruct Ht as [Ht|Ht]; [|apply list_elem_of_singleton in Ht; lia].
    specialize (Hg0 t ts Ht ltac:(by left)). apply list_elem_of_fmap in Ht as (x & -> & Hx).
    rewrite Forall_forall in Hrg0. specialize (Hrg0 x Hx). cbn in *. lia. }
  split; [|split; [|split; [lia|]]].
  - apply Forall_forall. intros r Hr. destruct (Hin r Hr) as (t & Et & Ht). exists t. auto.
  - apply Forall2_app_inv_r in Hfiles as (f0 & l & _ & Hl1 & ->).
    apply Forall2_cons_inv_r in Hl1 as (r & l' & (_ & En & _) & _ & ->).
    rewrite fmap_app, elem_of_app, fmap_cons, elem_of_cons. right. left.
    unfold Reader_Path. by rewrite En.
  - assert (forall r t, r ∈ pre ++ post -> Reader_Path r = sst_name t ->
      t ∈ (G0 ++ [(ts, es)]).*1 -> False) as Hno.
    { intros r t Hr Et Ht. pose proof (Hle t Ht) as Hrt.
      assert (exists x, Reader_Path r = sst_name x /\ - 2 ^ 63 <= x < 2 ^ 63 /\ x <> t) as (x & Ex & Hx & Hne).
      { apply elem_of_app in Hr as [Hr|Hr]; apply list_elem_of_lookup in Hr as [n Hn];
          [destruct (Forall2_lookup_l _ _ _ _ _ Hpre Hn) as (y & Hy & _ & En & _)
          |destruct (Forall2_lookup_l _ _ _ _ _ Hpost Hn) as (y & Hy & _ & En & _)];
          exists y.1; (split; [done|]); apply list_elem_of_lookup_2 in Hy;
          rewrite Forall_forall in Hrpre, Hrpost; rewrite !fmap_app in *;
          pose proof (list_elem_of_fmap_2 fst _ y Hy) as Hy1.
        - split; [by apply Hrpre|]. specialize (Hpg y.1 t Hy1). rewrite !elem_of_app in *.
          specialize (Hpg ltac:(tauto)). lia.
        - split; [by apply Hrpost|]. specialize (Hgp t y.1 Ht Hy1). lia. }
      apply Hne, sst_name_inj; [lia|lia|congruence]. }
    apply Forall_forall. intros r Hr (r' & E' & Hr')%list_elem_of_fmap.
    destruct (Hin r' Hr') as (t & Et & Ht). eapply Hno; [exact Hr| |exact Ht]. congruence.
Qed.

Lemma pending_safe w db I Ts pc :
  flush_ok w db I Ts pc -> Forall (fun r => safe w (db_wal db) (r_file r)) (flush_readers pc).
Proof.
  destruct pc as [| |b|]; try by constructor.
  intros (B & r & ts & _ & -> & Ht & _). cbn. repeat constructor; apply Ht.
Qed.

(** what the invariant says of the descriptors in use *)
Lemma held_lt w db log A I Ts pc c :
  live w db log A I Ts -> flush_ok w db I Ts pc -> comp_ok w db Ts c ->
  Forall (fun r => (reader_fd r < w_next w)%nat) (db_sstReaders db ++ flush_readers pc ++ comp_readers c).
Proof.
  intros Hl Hp Hc. pose proof (live_wf _ _ _ _ _ _ Hl) as Hw.
  rewrite !Forall_app. split_and!.
  - apply Forall_forall. intros r Hr. eapply safe_lt; [done|].
    eapply reader_safe; [apply (lv_tables _ _ _ _ _ _ Hl)|done].
  - eapply Forall_impl; [by eapply pending_safe|]. intros r. by apply safe_lt.
  - eapply Forall_impl; [by eapply comp_readers_safe|]. intros r. by apply safe_lt.
Qed.

Lemma cinv_cbuild w db pc files f log A I Ts r w' :
  cinv (mkCsys (mkSys w db pc) (CSelected files)) f log A I Ts ->
  w_dir w !! tmp_name (merged_path files) (w_now w) = None -> group_size w files < 2 ^ 31 ->
  compaction_build files w = (r, w') ->
  exists iters nr, r = inr (iters, nr) /\
    cinv (mkCsys (mkSys w' db pc) (CBuilt files iters nr)) f log A I Ts.
Proof.
  intros [Hl Hf Hc Hq Ha Hn Hsr Hp [Hnd _ Hcomp]] Htmp Hsize E. cbn [c_sys c_pc s_world s_db s_pc] in *.
  pose proof (held_lt _ _ _ _ _ _ _ _ Hl Hp Hcomp) as Hlt.
  destruct Hcomp as (Hset & Hne & Hnamed & pre & post & Hrs).
  destruct (selected_tables _ _ _ _ _ _ _ _ _ Hl Hrs Hne Hnamed)
    as (Tpre & G0 & ts & es & Tpost & -> & Hl1 & HG & Hts).
  pose proof (Forall2_length _ _ _ HG) as Hl2.
  destruct (group_names _ _ _ _ _ _ _ _ _ _ _ _ _ Hl Hrs Hl1 Hl2) as (_ & Hin & _ & Hnames).
  destruct (live_merge w db log A I _ files _ G0 ts es Hl Hf HG eq_refl Hts Htmp)
    as (iters & nr & out & w2 & E2 & Hl' & Hsp & Hf' & Hnr & Hfd & Hm & Hit & Hd & Hret & Hout & j & Hj & Hdata).
  { eapply group_fits; [by apply tables_reads|done]. }
  rewrite E in E2. injection E2 as -> <-. exists iters, nr. split; [done|].
  assert (forall r', r' ∈ pre ++ post -> w_dir w' !! f_name (r_file r') = w_dir w !! f_name (r_file r')) as Hdk.
  { intros r' Hr'. rewrite Forall_forall in Hnames. specialize (Hnames r' Hr'). apply Hd.
    intros En. apply Hnames. unfold Reader_Path at 1. by rewrite En. }
  split; cbn [c_sys c_pc s_world s_db s_pc]; try done.
  - apply (sourced_table P w w' log I _ ts out); try done; [|intros j' Hj'; congruence].
    eapply merged_good; [apply (so_sorted _ Hout)|exact Hm|]. apply Forall_fmap.
    pose proof (sr_tables _ _ _ _ _ Hsr) as HT. rewrite !Forall_app in HT. rewrite Forall_app. apply HT.
  - apply (flush_ok_spared w db); [done|done|]. intros ts' Hlt' Hts'. apply Hd.
    intros En. apply sst_name_inj in En; [|lia|done]. subst ts'.
    rewrite !Forall_app, Forall_cons in Hlt'. cbn in Hlt'. lia.
  - cbn [comp_readers] in *. rewrite app_nil_r in *.
    assert (forall n, (w_next w <= n)%nat -> n ∉ reader_fd <$> db_sstReaders db ++ flush_readers pc) as Hfresh.
    { intros n Hn' (r' & -> & Hr')%list_elem_of_fmap. rewrite Forall_forall in Hlt.
      specialize (Hlt r' Hr'). cbn in Hlt. lia. }
    split.
    + cbn [comp_readers]. rewrite app_assoc, fmap_app. apply NoDup_app. split; [done|]. cbn.
      split; [|apply NoDup_singleton]. intros n Hn' ->%list_elem_of_singleton.
      by apply (Hfresh _ Hfd).
    + cbn [comp_iters comp_readers]. eapply Forall_impl; [exact Hit|]. intros it (H1 & H2 & H3).
      split; [done|]. rewrite app_assoc, fmap_app, elem_of_app. intros [Hin'|Hin'].
      * by apply (Hfresh _ H2).
      * apply list_elem_of_singleton in Hin'. done.
    + exists pre, post, Tpre, G0, ts, es, Tpost, out. split_and!; try done.
      apply Forall_forall. intros r' Hr'. rewrite Forall_forall in Hset.
      assert (r' ∈ db_sstReaders db) as Hr2 by (rewrite Hrs, !elem_of_app; apply elem_of_app in Hr'; tauto).
      eapply spares_settled; [exact Hsp| |by apply Hdk|by apply Hset].
      eapply reader_safe; [apply (lv_tables _ _ _ _ _ _ Hl)|done].
Qed.

Lemma cinv_cinstall w db pc files iters nr f log A I Ts :
  cinv (mkCsys (mkSys w db pc) (CBuilt files iters nr)) f log A I Ts ->
  exists Ts', cinv (mkCsys (mkSys w (compaction_install db files nr) pc) (CInstalled files iters))
                f log A I Ts'.
Proof.
  intros [Hl Hf Hc Hq Ha Hn Hsr Hp [Hnd Hit Hcomp]]. cbn [c_sys c_pc s_world s_db s_pc comp_readers] in *.
  destruct Hcomp as (pre & post & Tpre & G0 & ts & es & Tpost & out & Hrs & -> & Hl1 & Hl2 & Hset & Ht & Hm).
  destruct (group_names _ _ _ _ _ _ _ _ _ _ _ _ _ Hl Hrs Hl1 Hl2) as (Hle & Hin & Hts & Hnames).
  assert (NoDup (reader_fd <$> db_sstReaders db)) as Hnd1
    by (rewrite fmap_app, NoDup_app in Hnd; apply Hnd).
  destruct (live_replace w db log A I Tpre _ Tpost pre files post nr G0 ts es out Hl Hrs Hl1 Hl2
    eq_refl Hnd1 Ht Hm) as (Hrs' & Hl' & Hmap).
  exists (Tpre ++ (ts, out) :: Tpost).
  assert (reader_fd <$> (pre ++ nr :: post) ++ flush_readers pc ++ files ≡ₚ
    reader_fd <$> db_sstReaders db ++ flush_readers pc ++ [nr]) as HP.
  { apply fmap_Permutation. rewrite Hrs. solve_Permutation. }
  assert (forall k, answer A I ((Tpre ++ (ts, out) :: Tpost).*2) k =
    answer A I ((Tpre ++ (G0 ++ [(ts, es)]) ++ Tpost).*2) k) as Hans
    by (intros k; unfold answer; by rewrite Hmap).
  split; cbn [c_sys c_pc s_world s_db s_pc]; try done.
  - intros k. by rewrite Hans.
  - intros [Hn1 Hn2]%Hn. split; [done|]. intros k. by rewrite Hans.
  - pose proof (sr_tables _ _ _ _ _ Hsr) as HT. rewrite !Forall_app in HT.
    eapply sourced_same; [exact Hsr|apply Hsr|]. rewrite Forall_app, Forall_cons. split; [apply HT|].
    split; [|apply HT]. cbn [snd]. destruct Ht as ((Hok & _) & _).
    eapply merged_good; [apply (so_sorted _ Hok)|exact Hm|]. apply Forall_fmap. rewrite Forall_app. apply HT.
  - destruct pc as [| |b|]; try done.
    destruct Hp as (B & r & t & -> & -> & Hr & Hs & Hrg & Hlt). exists B, r, t.
    split; [done|]. split; [done|]. split; [exact Hr|]. split; [done|]. split; [done|].
    rewrite !Forall_app, !Forall_cons in *. cbn [fst] in *. tauto.
  - split; cbn [comp_readers comp_iters]; rewrite ?Hrs'.
    + by rewrite HP.
    + eapply Forall_impl; [exact Hit|]. intros it [H1 H2]. split; [exact H1|]. by rewrite HP.
    + exists pre, nr, post, ts. rewrite Hrs'. split; [done|]. split.
      { rewrite fmap_app, elem_of_app, fmap_cons, elem_of_cons. right. by left. }
      split; [apply Ht|]. split; [done|]. split; [done|]. split; [done|].
      apply Forall_forall. intros r Hr. rewrite Forall_forall in Hle. split; [|by apply Hle].
      apply (reader_safe w db _ (lv_tables _ _ _ _ _ _ Hl)). rewrite Hrs, !elem_of_app. tauto.
Qed.

(** The cleanup closes no reader of the engine and none of a flush. *)
Lemma installed_fds db pc files (iters : list Iterator) r :
  NoDup (reader_fd <$> db_sstReaders db ++ flush_readers pc ++ files) ->
  (forall it, it ∈ iters -> f_fd (it_file it) ∉ reader_fd <$> db_sstReaders db ++ flush_readers pc ++ files) ->
  r ∈ db_sstReaders db ++ flush_readers pc ->
  (reader_fd r ∉ (fun it => f_fd (it_file it)) <$> iters) /\ (reader_fd r ∉ reader_fd <$> files).
Proof.
  intros Hnd Hit Hr. rewrite app_assoc, fmap_app, NoDup_app in Hnd. destruct Hnd as (_ & Hnd & _). split.
  - intros (it & E & Hit')%list_elem_of_fmap. apply (Hit it Hit').
    rewrite <- E, app_assoc, fmap_app, elem_of_app. left. by apply list_elem_of_fmap_2.
  - apply Hnd. by apply list_elem_of_fmap_2.
Qed.

Lemma cinv_cleanup w db pc files iters f log A I Ts :
  cinv (mkCsys (mkSys w db pc) (CInstalled files iters)) f log A I Ts ->
  cinv (mkCsys (mkSys (compaction_cleanup files iters w).2 db pc) CIdle) f log A I Ts.
Proof.
  intros [Hl Hf Hc Hq Ha Hn Hsr Hp [Hnd Hit Hcomp]].
  cbn [c_sys c_pc s_world s_db s_pc comp_readers comp_iters] in *.
  destruct Hcomp as (pre & nr & post & ts & Hrs & Hts & Hnr & Hset & Hin & Hnames & HF).
  rewrite Forall_forall in Hit. rewrite Forall_forall in HF.
  assert (forall r, r ∈ db_sstReaders db ++ flush_readers pc ->
    (reader_fd r ∉ (fun it => f_fd (it_file it)) <$> iters) /\ (reader_fd r ∉ reader_fd <$> files)) as Hfds.
  { intros r. apply (installed_fds db pc files iters r Hnd). intros it Hi. apply (Hit it Hi). }
  pose proof (cleanup_sheds files iters w Hf) as Hsh.
  destruct (compaction_cleanup files iters w) as [[] w'] eqn:E. cbn [snd] in *.
  destruct (live_cleanup w db log A I Ts files iters w' Hl Hf) as (Hl' & Hf' & Hsp & Hd); try done.
  { apply Forall_forall. intros r Hr. apply (HF r Hr). }
  { apply Forall_forall. intros it Hi. apply (Hit it Hi). }
  { intros r Hr. apply Hfds, elem_of_app. by left. }
  { intros (r & En & Hr)%list_elem_of_fmap. destruct (HF r Hr) as (_ & t & Et & _).
    apply (sst_name_not_wal t). congruence. }
  assert (forall r, safe w (db_wal db) (r_file r) -> r ∈ db_sstReaders db ++ flush_readers pc ->
    Reader_Path r ∉ Reader_Path <$> files -> settled w r -> settled w' r) as Hsettled.
  { intros r Hs Hr Hno Hst. destruct (Hfds r Hr) as [H1 H2].
    destruct (Hsp _ Hs H1 H2) as [[Ei _] _]. unfold settled, Reader_Path in *.
    by rewrite Hd, decide_False, Ei. }
  pose proof (lv_tables _ _ _ _ _ _ Hl) as Htab.
  split; cbn [c_sys c_pc s_world s_db s_pc]; try done.
  - apply (sourced_retains P w w' log); [done|apply Hsr|by apply sheds_retains].
  - destruct pc as [| |b|]; try done.
    destruct Hp as (B & r & t & -> & -> & (Hr & Hnm & Hs) & Hst & Hrg & Hlt). exists B, r, t.
    assert (r ∈ db_sstReaders db ++ flush_readers (Finishing (Built r (len B)))) as Hr'
      by (rewrite elem_of_app; right; by left).
    destruct (Hfds r Hr') as [H1 H2]. destruct (Hsp _ Hs H1 H2) as [Hk Hs'].
    split; [done|]. split; [done|]. split.
    { split; [by eapply kept_reads|done]. }
    split; [|done]. apply Hsettled; try done. unfold Reader_Path at 1. rewrite Hnm. cbn [fst].
    intros (r' & E' & Hr2)%list_elem_of_fmap. destruct (HF r' Hr2) as (_ & x & Ex & Hx).
    rewrite Ex in E'. apply list_elem_of_fmap in Hts as (y & -> & Hy). rewrite Forall_forall in Hlt.
    specialize (Hlt y Hy). apply sst_name_inj in E'; lia.
  - split; cbn [comp_readers comp_iters]; [|constructor|].
    + rewrite app_nil_r. rewrite app_assoc, fmap_app, NoDup_app in Hnd. apply Hnd.
    + cbn [comp_ok]. apply Forall_forall. intros r Hr. pose proof Hr as Hr0.
      rewrite Hrs, elem_of_app, elem_of_cons in Hr.
      assert (r = nr \/ r ∈ pre ++ post) as [->|Hr2] by (rewrite elem_of_app; tauto).
      * right. unfold Reader_Path in Hnr at 1. by rewrite Hnr, Hd, decide_True.
      * rewrite Forall_forall in Hnames, Hset.
        apply Hsettled; [by eapply reader_safe|rewrite elem_of_app; by left|by apply Hnames|by apply Hset].
Qed.

(** *** The simulation *)

Lemma cinv_select w db pc files tier f log A I Ts :
  cinv (mkCsys (mkSys w db pc) CIdle) f log A I Ts ->
  selectFilesForCompaction w db = (files, tier) -> files <> [] ->
  (exists pre post, db_sstReaders db = pre ++ files ++ post) ->
  cinv (mkCsys (mkSys w db pc) (CSelected files)) f log A I Ts.
Proof.
  intros [Hl Hf Hc Hq Ha Hn Hsr Hp Hh] Hsel Hne Hcont. split; try done. by eapply held_select.
Qed.

Lemma cinv_flush_step s l s' c f log A I Ts :
  step s l s' -> cinv (mkCsys s c) f log A I Ts ->
  (forall x, l = Some x -> good P (op_entry x.1) /\ (exact -> op_nonempty x.1)) ->
  (forall x, l = Some x -> x.2 = None) /\
  exists log' A' I' Ts', cinv (mkCsys s' c) (after f l) log' A' I' Ts'.
Proof.
  intros Hst Hi Hg. destruct Hst as [w db pc o r db' w' Ho Hseq E|w db pc t Hle
    |w db db' w' Hfit E|w db r db' w' E|w db b w' Hck E|w db reader verified imm Ei Ev|w db
    |w db b db' w' r Hb E]; try (split; [done|]; change (after f None) with f).
  - destruct (Hg (o, r) eq_refl) as [Hgo Hne].
    destruct (cinv_op _ _ _ _ _ _ _ _ _ o r db' w' Hi Ho Hne Hgo Hseq E) as [-> Hi'].
    split; [by intros x [= <-]|]. eauto.
  - pose proof (cinv_tick _ _ _ _ _ _ _ _ _ t Hi). eauto.
  - pose proof (cinv_rotate _ _ _ _ _ _ _ _ _ _ _ Hi E Hfit). eauto.
  - pose proof (cinv_rotate _ _ _ _ _ _ _ _ _ _ _ Hi E) as Hs. cbn in Hs. eauto.
  - pose proof (cinv_build _ _ _ _ _ _ _ _ _ _ Hi Hck E). eauto.
  - destruct (cinv_install _ _ _ _ _ _ _ _ _ _ Hi) as [Ts' ?]. eauto.
  - pose proof (cinv_remove _ _ _ _ _ _ _ _ Hi). eauto.
  - exfalso. destruct (cinv_no_failure _ _ _ _ _ _ _ _ _ Hi) as (rd & imm & -> & Ei).
    by apply (Hb imm).
Qed.

Lemma cstep_cinv s l s' f log A I Ts :
  cinv s f log A I Ts -> cstep s l s' -> orderly s' ->
  (forall x, l = Some x -> good P (op_entry x.1) /\ (exact -> op_nonempty x.1)) ->
  (forall x, l = Some x -> x.2 = None) /\
  exists log' A' I' Ts', cinv s' (after f l) log' A' I' Ts'.
Proof.
  intros Hi Hst Hcont Hg. destruct Hst as [s l s' c Hst|w db pc files tier Hsel Hne
    |w db pc files r w' Htmp Hsize E|w db pc files iters nr|w db pc files iters];
    [by eapply cinv_flush_step|..]; (split; [done|]; change (after f None) with f).
  - pose proof (cinv_select _ _ _ _ _ _ _ _ _ _ Hi Hsel Hne Hcont). eauto.
  - destruct (cinv_cbuild _ _ _ _ _ _ _ _ _ _ _ Hi Htmp Hsize E) as (iters & nr & -> & Hi'). eauto.
  - destruct (cinv_cinstall _ _ _ _ _ _ _ _ _ _ _ Hi) as [Ts' ?]. eauto.
  - pose proof (cinv_cleanup _ _ _ _ _ _ _ _ _ _ Hi). eauto.
Qed.

Lemma csteps_cinv s l s' : forall f log A I Ts,
  csteps orderly s l s' -> cinv s f log A I Ts ->
  Forall (fun x => good P (op_entry x.1) /\ (exact -> op_nonempty x.1)) l ->
  Forall (fun x => x.2 = None) l /\
  exists log' A' I' Ts',
    cinv s' (fun k => foldl (op_answer k) (f k) (l.*1)) log' A' I' Ts'.
Proof.
  intros f log A I Ts Hst. revert f log A I Ts.
  induction Hst as [s|s1 s2 s3 l Hs Ho _ IH|s1 s2 s3 x l Hs Ho _ IH]; intros f log A I Ts Hi Hg.
  - split; [done|]. by exists log, A, I, Ts.
  - destruct (cstep_cinv _ _ _ _ _ _ _ _ Hi Hs Ho ltac:(done)) as (_ & log' & A' & I' & Ts' & Hi').
    by apply (IH _ _ _ _ _ Hi' Hg).
  - apply Forall_cons in Hg as [Hg1 Hg].
    destruct (cstep_cinv _ _ _ _ _ _ _ _ Hi Hs Ho ltac:(by intros y [= <-])) as (Hx & log' & A' & I' & Ts' & Hi').
    destruct (IH _ _ _ _ _ Hi' Hg) as [Hl Hi'']. split; [constructor; [by apply Hx|done]|].
    destruct x as [o r]. exact Hi''.
Qed.

(** An engine that has just been opened. *)
Lemma engine_cinv w db log A Ts :
  engine_ok w db log A None Ts -> w_faults w = [] -> db_closed db = false ->
  wal_sequenceNumber (db_wal db) < 2 ^ 64 -> sourced P w log None Ts ->
  (exact -> no_empty A None) ->
  cinv (mkCsys (mkSys w db Idle) CIdle) (answer A None (Ts.*2)) log A None Ts.
Proof.
  intros He Hf Hc Hq Hsr Hn. split; cbn [c_sys c_pc s_world s_db s_pc]; try done.
  - by apply engine_live.
  - intros Hx. split; [by apply Hn|done].
  - split; cbn [comp_readers comp_iters comp_ok flush_readers app]; [|constructor|].
    + rewrite app_nil_r. eapply tables_fds_NoDup; [apply (eo_inj _ _ _ _ _ _ He)
        |apply (eo_tables _ _ _ _ _ _ He)|apply (eo_sorted _ _ _ _ _ _ He)|apply (eo_range _ _ _ _ _ _ He)].
    + pose proof (eo_tables _ _ _ _ _ _ He) as HF. clear -HF.
      induction HF as [|r t rs Ts (_ & _ & Hn & i & Hd & Hi & _) _ IH]; [constructor|].
      constructor; [|done]. left. by rewrite Hn, Hd, Hi.
Qed.
End invariant.

Lemma labels_nonempty (l : list (op * err)) :
  Forall op_nonempty (l.*1) -> Forall (fun x => op_nonempty x.1) l.
Proof. by rewrite Forall_fmap. Qed.

(** any data will do *)
Definition any_value (_ : bytes) (_ : option bytes) : Prop := True.

Lemma any_good l : Forall (good any_value) l.
Proof. by apply Forall_forall. Qed.

Lemma Open_cinv w log tail Ts db w1 :
  disk_ok w log tail Ts -> Forall (fun e => slice_bytes e.2 <> []) log ->
  Open w = (inr db, w1) ->
  exists A, cinv any_value True (mkCsys (mkSys w1 db Idle) CIdle) (answer A None (Ts.*2)) log A None Ts /\
    forall k, answer A None (Ts.*2) k = initial_answer log Ts k.
Proof.
  intros Hd Hne E. destruct (Open_at w log tail None Ts Hd) as (db' & w' & A & es & E' & -> & He & HA & Hc & Hf & Hfl & Hdir & Hq);
    [done|]. rewrite E in E'. injection E' as <- <-. rewrite app_nil_r in *.
  exists A. split; [|intros k; by apply answer_initial].
  apply engine_cinv; try done; [|intros _; by apply (replay_no_empty log)].
  apply (engine_sourced any_value w1 db log A); try done; [apply any_good|].
  apply Forall_forall. intros t _. apply any_good.
Qed.

(** *** Scanning *)

(** An engine whose open tables all have their names. *)
Lemma live_engine w db log A I Ts :
  live w db log A I Ts -> Forall (named w) (db_sstReaders db) -> engine_ok w db log A I Ts.
Proof.
  intros [[Hwf Hinj Hc Hact Himm Hwal Hlog _ _ _] Htab Hs Hr] Hn. split; try done.
  clear -Htab Hn. induction Htab as [|r t rs Ts Ht _ IH]; [constructor|].
  apply Forall_cons in Hn as [Hn Hns]. constructor; [by eapply settled_table_ok|by apply IH].
Qed.

(** [ScanAll] of such an engine returns what [Get] answers, without the empty values. *)
Lemma cinv_scan P exact s f log A I Ts :
  cinv P exact s f log A I Ts -> Forall (named (s_world (c_sys s))) (db_sstReaders (s_db (c_sys s))) ->
  exists m w', StrataGo_ScanAll (s_db (c_sys s)) (s_world (c_sys s)) = (inr m, w') /\
    (forall k, m !! k = answer A I (Ts.*2) k ≫= nonempty) /\
    forall k, lookup_inside (s_world (c_sys s)) (s_db (c_sys s)) k ->
      StrataGo_Get (s_world (c_sys s)) (s_db (c_sys s)) k = Some (answer A I (Ts.*2) k).
Proof.
  intros Hi Hnamed. pose proof (live_engine _ _ _ _ _ _ (ci_live _ _ _ _ _ _ _ _ Hi) Hnamed) as He.
  destruct (ScanAll_ok _ _ log A I Ts He (ci_faults _ _ _ _ _ _ _ _ Hi) (ci_open _ _ _ _ _ _ _ _ Hi))
    as (m & E & Hm). eexists m, _. split; [exact E|]. split; [exact Hm|].
  intros k Hk. exact (Get_live _ _ _ _ _ _ k (ci_live _ _ _ _ _ _ _ _ Hi) Hk).
Qed.

(** C2: Compactions of neighbouring tables and flushes are invisible to clients.
    In every interleaving of the parts of flushes and of such compactions with
    [Put]s, [Delete]s and the clock, in which no system call fails and no empty
    value is written, every operation is acknowledged, and at every moment (tables
    selected, merged, replaced, closed and deleted) [Get] answers with the last value
    written.  Compactions of other selections are left out, since they can bring
    old values back: the code selects neighbours as long as every table it examines
    has its name in the directory ([selection_orderly]), and may not do so later
    ([skipped_table_overtakes]). *)
Theorem compaction_interleavings_refine (w : World) (log : list (bytes * slice)) (tail : bytes)
    (Ts : list (Z * list (bytes * slice))) (db : StrataGo) (w1 : World)
    (l : list (op * err)) (s : csys)
    (Hd : disk_ok w log tail Ts) (Hne : Forall (fun e => slice_bytes e.2 <> []) log)
    (Hopen : Open w = (inr db, w1))
    (Hsteps : csteps orderly (mkCsys (mkSys w1 db Idle) CIdle) l s)
    (Hops : Forall (fun x => op_nonempty x.1) l) :
  Forall (fun x => x.2 = None) l /\
  forall k, lookup_inside (s_world (c_sys s)) (s_db (c_sys s)) k ->
    StrataGo_Get (s_world (c_sys s)) (s_db (c_sys s)) k =
      Some (foldl (op_answer k) (initial_answer log Ts k) (l.*1)).
Proof.
  destruct (Open_cinv w log tail Ts db w1 Hd Hne Hopen) as (A & Hi & Ha).
  destruct (csteps_cinv _ _ _ _ _ _ _ _ _ _ Hsteps Hi) as (Hl & log' & A' & I' & Ts' & Hi').
  { eapply Forall_impl; [exact Hops|]. by intros x Hx. }
  split; [done|]. intros k Hk. rewrite (Get_live _ _ _ _ _ _ k (ci_live _ _ _ _ _ _ _ _ Hi') Hk).
  destruct (ci_exact _ _ _ _ _ _ _ _ Hi' Logic.I) as [_ ->]. by rewrite Ha.
Qed.
End system.

(** ** A selection that is not contiguous

    A table whose file cannot be examined is skipped by the selection, and the
    name of a merged table is gone after its compaction.  When such a table lies
    between the selected ones, the next merged table takes the place of the oldest
    input, behind it: its older values are found instead of newer ones. *)
Theorem skipped_table_overtakes `{Murmur3} (w : World) (db : StrataGo) (tier : Z)
    (r1 m r2 r3 r4 n : Reader) (e1 em e2 e3 e4 out : list (bytes * slice)) (k old new : bytes) :
  db_sstReaders db = [r1; m; r2; r3; r4] -> NoDup (reader_fd <$> [r1; m; r2; r3; r4]) ->
  Forall (fun r => tier_of w r = Some tier) [r1; r2; r3; r4] -> tier <> -1 -> tier_of w m = None ->
  Forall2 (reads w) [r1; m; r2; r3; r4; n] [e1; em; e2; e3; e4; out] ->
  list_to_map (read_back out) = tables_map [e1; e2; e3; e4] ->
  Forall (fun es => no_phantom es k) [e1; em; e2; e3; e4; out] ->
  (list_to_map (read_back em) : gmap bytes bytes) !! k = Some old ->
  (list_to_map (read_back e4) : gmap bytes bytes) !! k = Some new ->
  selectFilesForCompaction w db = ([r1; r2; r3; r4], tier) /\
  get_readers w (rev (db_sstReaders db)) k = Some (nonempty new) /\
  get_readers w (rev (db_sstReaders (compaction_install db [r1; r2; r3; r4] n))) k =
    Some (nonempty old).
Proof.
  intros Hrs Hnd Ht Htn Hm HF Hout Hp Hold Hnew.
  rewrite !Forall2_cons in HF. destruct HF as (F1 & Fm & F2 & F3 & F4 & Fn & _).
  rewrite !Forall_cons in Hp. destruct Hp as (P1 & Pm & P2 & P3 & P4 & Pn & _).
  assert (compaction_install db [r1; r2; r3; r4] n = set_readers [n; m] db) as ->.
  { unfold compaction_install. rewrite Hrs. f_equal.
    cbn [fmap list_fmap] in Hnd. rewrite !NoDup_cons, !not_elem_of_cons in Hnd.
    assert (in_compacted [r1; r2; r3; r4] m = false) as Em.
    { apply not_true_is_false. rewrite in_compacted_spec. cbn [fmap list_fmap].
      rewrite !elem_of_cons. intros [?|[?|[?|[?|[]%elem_of_nil]]]]; intuition congruence. }
    assert (forall r, r ∈ [r1; r2; r3; r4] -> in_compacted [r1; r2; r3; r4] r = true) as Ein.
    { intros r Hr. apply in_compacted_spec. by apply list_elem_of_fmap_2. }
    cbn [rebuild_readers]. rewrite Em, !Ein by (rewrite !elem_of_cons; tauto). done. }
  split; [|split].
  - unfold selectFilesForCompaction. rewrite Hrs. rewrite !Forall_cons in Ht.
    assert (forall r, tier_of w r = Some tier ->
      exists size, os_Stat_Size w (Reader_Path r) = inr size /\ getTier size = tier) as Hst.
    { intros r. unfold tier_of. destruct (os_Stat_Size _ _) as [|size]; [done|]. exists size.
      split; [done|congruence]. }
    destruct Ht as ((s1 & E1 & T1)%Hst & (s2 & E2 & T2)%Hst & (s3 & E3 & T3)%Hst &
      (s4 & E4 & T4)%Hst & _).
    unfold tier_of in Hm. destruct (os_Stat_Size w (Reader_Path m)) eqn:Em; [|done].
    cbn [select_loop app]. rewrite E1, Em, E2, E3, E4, T1, T2, T3, T4.
    rewrite (proj2 (Z.eqb_neq tier (-1)) Htn), Z.eqb_refl. done.
  - rewrite Hrs, (get_readers_open w _ [e1; em; e2; e3; e4]);
      [|by rewrite !Forall2_cons|by rewrite !Forall_cons].
    change [e1; em; e2; e3; e4] with ([e1; em; e2; e3] ++ [e4]). rewrite tables_map_snoc.
    erewrite lookup_union_Some_l by exact Hnew. done.
  - cbn [set_readers db_sstReaders]. rewrite (get_readers_open w _ [out; em]);
      [|by rewrite !Forall2_cons|by rewrite !Forall_cons].
    change [out; em] with ([out] ++ [em]). rewrite tables_map_snoc.
    erewrite lookup_union_Some_l by exact Hold. done.
Qed.

(** ** Schedules

    An executable version of the steps: an action is taken when its premises
    hold.  Its runs are runs of [cstep]. *)

Inductive action :=
| DoOp (o : op) | DoTick (t : Z) | DoRotate | DoBuild | DoInstall | DoRemove
| DoSelect (before : nat) | DoCompact | DoReplace | DoCleanup.

#[export] Instance File_eq_dec : EqDecision File.
Proof. solve_decision. Defined.
#[export] Instance IndexEntry_eq_dec : EqDecision IndexEntry.
Proof. solve_decision. Defined.
#[export] Instance BloomFilter_eq_dec : EqDecision BloomFilter.
Proof. solve_decision. Defined.
#[export] Instance Reader_eq_dec : EqDecision Reader.
Proof. solve_decision. Defined.

Section schedules.
Context `{Murmur3} `{Runtime}.

#[export] Instance op_ok_dec o : Decision (op_ok o).
Proof. unfold op_ok, entry_ok. apply _. Defined.
#[export] Instance op_nonempty_dec o : Decision (op_nonempty o).
Proof. unfold op_nonempty. apply _. Defined.
#[export] Instance mem_fits_dec m : Decision (mem_fits m).
Proof. unfold mem_fits, bloom_keys_ok. apply _. Defined.
#[export] Instance clock_ok_dec w db : Decision (clock_ok w db).
Proof. unfold clock_ok. apply _. Defined.

Definition act (a : action) (s : csys) : option (option (op * err) * csys) :=
  let w := s_world (c_sys s) in
  let db := s_db (c_sys s) in
  let pc := s_pc (c_sys s) in
  let c := c_pc s in
  match a, pc, c with
  | DoOp o, _, _ =>
      guard (op_ok o /\ wal_sequenceNumber (db_wal db) + 1 < 2 ^ 64);;
      let '((r, db'), w') := run_op o db w in Some (Some (o, r), mkCsys (mkSys w' db' pc) c)
  | DoTick t, _, _ => guard (w_now w <= t);; Some (None, mkCsys (mkSys (set_now t w) db pc) c)
  | DoRotate, Idle, _ =>
      guard (mem_fits (db_activeMemtable db));;
      match flush_rotate db w with
      | ((None, db'), w') => Some (None, mkCsys (mkSys w' db' Building) c)
      | _ => None
      end
  | DoBuild, Building, _ =>
      guard (clock_ok w db);;
      let '(b, w') := flush_build db w in Some (None, mkCsys (mkSys w' db (Finishing b)) c)
  | DoInstall, Finishing (Built reader verified), _ =>
      match db_immutableMemtable db with
      | Some imm =>
          guard (verified = sl_Size imm);;
          Some (None, mkCsys (mkSys w (flush_install db reader) Removing) c)
      | None => None
      end
  | DoRemove, Removing, _ =>
      Some (None, mkCsys (mkSys (os_Remove flushingName w).2 db Idle) c)
  | DoSelect n, _, CIdle =>
      let files := (selectFilesForCompaction w db).1 in
      guard (files <> [] /\ db_sstReaders db = take n (db_sstReaders db) ++ files ++
               drop (n + length files) (db_sstReaders db));;
      Some (None, mkCsys (mkSys w db pc) (CSelected files))
  | DoCompact, _, CSelected files =>
      guard (w_dir w !! tmp_name (merged_path files) (w_now w) = None /\
             group_size w files < 2 ^ 31);;
      match compaction_build files w with
      | (inr (iters, nr), w') => Some (None, mkCsys (mkSys w' db pc) (CBuilt files iters nr))
      | _ => None
      end
  | DoReplace, _, CBuilt files iters nr =>
      Some (None, mkCsys (mkSys w (compaction_install db files nr) pc) (CInstalled files iters))
  | DoCleanup, _, CInstalled files iters =>
      Some (None, mkCsys (mkSys (compaction_cleanup files iters w).2 db pc) CIdle)
  | _, _, _ => None
  end.

Lemma act_sound a s l s' : act a s = Some (l, s') -> cstep s l s'.
Proof.
  destruct s as [[w db pc] c]. unfold act. cbn [c_sys c_pc s_world s_db s_pc].
  destruct a as [o|t| | | | |n| | |].
  - case_guard as G; [|done]. destruct G as (? & ?). cbn.
    destruct (run_op o db w) as [[r db'] w'] eqn:E. intros [= <- <-].
    apply cstep_flush. by apply step_op.
  - case_guard; [|done]. cbn. intros [= <- <-]. by apply cstep_flush, step_tick.
  - destruct pc; try done. case_guard; [|done]. cbn.
    destruct (flush_rotate db w) as [[[r|] db'] w'] eqn:E; [done|]. intros [= <- <-].
    by apply cstep_flush, step_rotate.
  - destruct pc; try done. case_guard; [|done]. cbn.
    destruct (flush_build db w) as [b w'] eqn:E. intros [= <- <-]. by apply cstep_flush, step_build.
  - destruct pc as [| |[r v|e|e]|]; try done. destruct (db_immutableMemtable db) as [imm|] eqn:Ei; [|done].
    case_guard; [|done]. cbn. intros [= <- <-]. by apply cstep_flush, (step_install _ _ _ _ imm).
  - destruct pc; try done. intros [= <- <-]. apply cstep_flush, step_remove.
  - destruct pc as [| |[rd vf|e0|e0]|], c; try done; (case_guard as G; [|done]); destruct G as [? G];
      cbn; intros [= <- <-]; (eapply cstep_select; [apply surjective_pairing|done]).
  - destruct pc as [| |[rd vf|e0|e0]|], c as [|files| |]; try done; (case_guard as G; [|done]);
      destruct G as [? ?]; cbn; destruct (compaction_build files w) as [[err0|[iters nr]] w'] eqn:E;
      try done; intros [= <- <-]; by apply (cstep_build _ _ _ _ _ _ ltac:(eassumption) ltac:(eassumption) E).
  - destruct pc as [| |[rd vf|e0|e0]|], c; try done; intros [= <- <-]; apply cstep_install.
  - destruct pc as [| |[rd vf|e0|e0]|], c; try done; intros [= <- <-]; apply cstep_cleanup.
Qed.

(** The selections of a schedule are of neighbours. *)
Lemma act_selects a s l s' : act a s = Some (l, s') -> c_pc s = CIdle -> orderly s'.
Proof.
  intros E Hc.
  destruct s as [[w db pc] c]. cbn [c_pc] in Hc. subst c. unfold act in E.
  cbn [c_sys c_pc s_world s_db s_pc] in E. destruct a as [o|t| | | | |n| | |].
  7: { destruct pc as [| |[rd vf|e0|e0]|]; (revert E; case_guard as G; [|done]); destruct G as [G1 G];
       cbn; intros [= <- <-]; unfold orderly; cbn; eauto. }
  - revert E. case_guard; [|done]. cbn. destruct (run_op o db w) as [[r db'] w']. intros [= ? ?]; by subst.
  - revert E. case_guard; [|done]. cbn. intros [= ? ?]; by subst.
  - destruct pc; try done. revert E. case_guard; [|done]. cbn.
    destruct (flush_rotate db w) as [[[r|] db'] w']; [done|]. intros [= ? ?]; by subst.
  - destruct pc; try done. revert E. case_guard; [|done]. cbn.
    destruct (flush_build db w) as [b w']. intros [= ? ?]; by subst.
  - destruct pc as [| |[r v|e|e]|]; try done. destruct (db_immutableMemtable db); [|done].
    revert E. case_guard; [|done]. cbn. intros [= ? ?]; by subst.
  - destruct pc; try done. revert E. intros [= ? ?]; by subst.
  - by destruct pc as [| |[r v|e|e]|].
  - by destruct pc as [| |[r v|e|e]|].
  - by destruct pc as [| |[r v|e|e]|].
Qed.

Lemma act_orderly a s l s' : act a s = Some (l, s') -> orderly s -> orderly s'.
Proof.
  intros E Ho. apply (cstep_orderly _ _ _ (act_sound _ _ _ _ E) Ho). by apply (act_selects a s l).
Qed.

(** a schedule, and the operations it acknowledges *)
Fixpoint run_schedule (acts : list action) (s : csys) : option (list (op * err) * csys) :=
  match acts with
  | [] => Some ([], s)
  | a :: acts' =>
      '(x, s1) ← act a s;
      '(l, s2) ← run_schedule acts' s1;
      Some (match x with Some p => p :: l | None => l end, s2)
  end.

Lemma run_schedule_sound acts : forall s l s',
  run_schedule acts s = Some (l, s') -> orderly s -> csteps orderly s l s'.
Proof.
  induction acts as [|a acts IH]; intros s l s'; cbn [run_schedule].
  - intros [= <- <-] _. constructor.
  - destruct (act a s) as [[x s1]|] eqn:Ea; [|done]. cbn [mbind option_bind].
    destruct (run_schedule acts s1) as [[l1 s2]|] eqn:Er; [|done]. cbn. intros [= <- <-] Ho.
    pose proof (act_orderly _ _ _ _ Ea Ho) as Ho1. apply act_sound in Ea. apply IH in Er; [|done].
    destruct x as [p|]; [by eapply csteps_op|by eapply csteps_silent].
Qed.
End schedules.

Section witness.
#[local] Existing Instance fnv.
#[local] Existing Instance plain_runtime.

(** one put and a whole flush, then the clock advances to [t] *)
Definition flush_round (k : bytes) (t : Z) : list action :=
  [DoOp (OpPut k (Some k)); DoRotate; DoBuild; DoInstall; DoRemove; DoTick t].

(** four tables, then a compaction among the parts of a fifth flush *)
Definition schedule1 : list action :=
  flush_round [x61] 1001 ++ flush_round [x62] 1002 ++ flush_round [x63] 1003 ++
  flush_round [x64] 1004 ++
  [DoSelect 0; DoOp (OpPut [x61] (Some [x09])); DoRotate; DoCompact; DoOp (OpDelete [x62]);
   DoBuild; DoReplace; DoInstall; DoCleanup; DoRemove; DoOp (OpPut [x65] (Some [x05]))].

(** what is left of a run: its operations, the number of tables, and the
    compaction *)
Definition outcome1 : option (list op * nat * compaction_pc) :=
  match Open empty_disk with
  | (inr db, w1) =>
      '(l, s) ← run_schedule schedule1 (mkCsys (mkSys w1 db Idle) CIdle);
      Some (l.*1, length (db_sstReaders (s_db (c_sys s))), c_pc s)
  | _ => None
  end.

Lemma schedule1_runs :
  exists db w1 l s, Open empty_disk = (inr db, w1) /\
    run_schedule schedule1 (mkCsys (mkSys w1 db Idle) CIdle) = Some (l, s) /\
    c_pc s = CIdle /\ length (db_sstReaders (s_db (c_sys s))) = 2%nat /\
    l.*1 = [OpPut [x61] (Some [x61]); OpPut [x62] (Some [x62]); OpPut [x63] (Some [x63]);
            OpPut [x64] (Some [x64]); OpPut [x61] (Some [x09]); OpDelete [x62];
            OpPut [x65] (Some [x05])].
Proof.
  assert (outcome1 = Some ([OpPut [x61] (Some [x61]); OpPut [x62] (Some [x62]);
    OpPut [x63] (Some [x63]); OpPut [x64] (Some [x64]); OpPut [x61] (Some [x09]); OpDelete [x62];
    OpPut [x65] (Some [x05])], 2%nat, CIdle)) as Ho by vm_equal.
  unfold outcome1 in Ho. destruct (Open empty_disk) as [[e|db] w1]; [discriminate|].
  exists db, w1. destruct (run_schedule _ _) as [[l s]|]; [|discriminate].
  cbn [mbind option_bind] in Ho. exists l, s. split; [done|]. split; [done|].
  split_and!; congruence.
Qed.

Lemma compaction_interleavings_refine_witness :
  exists db w1 l s,
    Open empty_disk = (inr db, w1) /\
    csteps orderly (mkCsys (mkSys w1 db Idle) CIdle) l s /\ c_pc s = CIdle /\
    length (db_sstReaders (s_db (c_sys s))) = 2%nat /\
    l.*1 = [OpPut [x61] (Some [x61]); OpPut [x62] (Some [x62]); OpPut [x63] (Some [x63]);
            OpPut [x64] (Some [x64]); OpPut [x61] (Some [x09]); OpDelete [x62];
            OpPut [x65] (Some [x05])] /\
    Forall (fun x => x.2 = None) l /\
    forall k, lookup_inside (s_world (c_sys s)) (s_db (c_sys s)) k ->
      StrataGo_Get (s_world (c_sys s)) (s_db (c_sys s)) k =
        Some (foldl (op_answer k) (initial_answer [] [] k) (l.*1)).
Proof.
  destruct schedule1_runs as (db & w1 & l & s & E0 & Er & Hc & Hn & Hl).
  exists db, w1, l, s. pose proof (run_schedule_sound _ _ _ _ Er Logic.I) as Hst.
  split; [exact E0|]. split; [exact Hst|]. split; [exact Hc|]. split; [exact Hn|].
  split; [exact Hl|].
  apply (compaction_interleavings_refine empty_disk [] [] [] db w1 l s empty_disk_ok
    ltac:(constructor) E0 Hst).
  apply (labels_nonempty l). rewrite Hl. repeat constructor; discriminate.
Defined.
End witness.
