(* ===== verification/Faults.v ===== *)
(** * Writes on a failing disk

    [Put] and [Delete] append to the log before they touch the memtable.  Here any
    write or sync of the log may fail, and a failed write may leave a part of the
    record behind: a failed operation has no effect on what the running engine
    answers, and an acknowledged one has its full effect. *)
From stdpp Require Import base gmap sets list strings numbers sorting.
From Stdlib Require Import ZArith Lia Strings.Byte.
From S2P Require Import Prelude SkipList Disk Wal Bloom GoFmt Sst Reader Engine Recovery Flush.
From S2P Require Import GoHeap Merge Compaction Provenance Concurrent.
Open Scope Z_scope.

Section faults.
Context `{Murmur3} `{Runtime}.

(** a client that goes on after an error *)
Fixpoint run_all (ops : list op) (db : StrataGo) : IO (list err * StrataGo) :=
  match ops with
  | [] => ret ([], db)
  | o :: ops' =>
      '(r, db') ← run_op o db;
      '(rs, db'') ← run_all ops' db';
      ret (r :: rs, db'')
  end.

(** the operations that were acknowledged *)
Definition acked (ops : list op) (rs : list err) : list op :=
  omap (fun x => match x.2 with None => Some x.1 | Some _ => None end) (zip ops rs).

(** an engine that serves reads, whatever is in its log *)
Record serving (w : World) (db : StrataGo) (A : list (bytes * slice))
    (I : option (list (bytes * slice))) (Ts : list (Z * list (bytes * slice))) : Prop := {
  sv_open : db_closed db = false;
  sv_chan : exists full, db_flushChan db = ChanOpen full;
  sv_active : repr (db_activeMemtable db) A;
  sv_imm : imm_repr (db_immutableMemtable db) I;
  sv_wal : exists i, w_dir w !! walName = Some i /\ file_ino w (wal_file (db_wal db)) = Some i;
  sv_tables : Forall2 (open_table w (db_wal db)) (db_sstReaders db) Ts
}.

Lemma live_serving w db log A I Ts :
  live w db log A I Ts -> db_closed db = false -> serving w db A I Ts.
Proof.
  intros [[_ _ Hc Hact Himm (_ & _ & _ & i & Hd & Hi & _) _ _ _ _] Ht _ _] Ho.
  split; try done. by exists i.
Qed.

(** The names and the open files stay, and the contents but for the log's. *)
Definition touches_log (w w' : World) (i : ino) : Prop :=
  w_dir w' = w_dir w /\ w_fds w' = w_fds w /\ forall j, j <> i -> w_data w' !! j = w_data w !! j.

Lemma WriteEntry_touches wl k v w r wl' w' i :
  file_ino w (wal_file wl) = Some i -> WAL_WriteEntry wl k v w = ((r, wl'), w') ->
  touches_log w w' i /\ wal_file wl' = wal_file wl.
Proof.
  intros Hi. unfold WAL_WriteEntry, mbind, IO_bind, file_Write, file_Sync, next_outcome, touches_log.
  rewrite Hi. destruct (w_faults w) as [|[|n] [|[|n'] fs]] eqn:Ef; cbn; unfold file_ino in *; cbn;
    rewrite ?Hi, ?Ef; cbn; intros [= <- <- <-]; cbn; (split; [|done]); (split; [done|]);
    (split; [done|]); intros j Hj; by rewrite lookup_insert_ne.
Qed.

Lemma touches_spares w w' wl wl' i :
  touches_log w w' i -> w_dir w !! walName = Some i -> wal_file wl' = wal_file wl -> spares w wl w' wl'.
Proof.
  intros (Ed & Efd & Ea) Hi Ef f (Hne & j & Hj & Hnj).
  assert (file_ino w' f = Some j) as Hj' by (unfold file_ino; by rewrite Efd).
  split.
  - split; [congruence|]. unfold file_data. rewrite Hj, Hj'. cbn. apply Ea. congruence.
  - split; [by rewrite Ef|]. exists j. split; [done|]. by rewrite Ed.
Qed.

(** One operation, whatever the disk does. *)
Lemma run_op_faulty o w db A I Ts r db' w' :
  serving w db A I Ts -> run_op o db w = ((r, db'), w') ->
  serving w' db' (match r with
                  | None => entries_put (op_entry o).1 (op_entry o).2 A
                  | Some _ => A
                  end) I Ts.
Proof.
  intros [Ho [full Hch] Hact Himm (i & Hd & Hi) Htab].
  assert (forall k v, forall r1 wl1 w1, WAL_WriteEntry (db_wal db) k v w = ((r1, wl1), w1) ->
    forall r2 db2,
      match r1 with Some e => (Some e, set_wal wl1 db) | None => apply_write (set_wal wl1 db) k v end = (r2, db2) ->
      serving w1 db2 (match r2 with None => entries_put k v A | Some _ => A end) I Ts) as Hcase.
  { intros k v r1 wl1 w1 E r2 db2.
    destruct (WriteEntry_touches _ _ _ _ _ _ _ i Hi E) as [Ht Hf].
    pose proof (touches_spares _ _ _ _ _ Ht Hd Hf) as Hsp. pose proof Ht as (Ed & Efd & _).
    pose proof (spares_tables _ _ _ _ _ _ Hsp Htab) as Htab'.
    assert (exists i, w_dir w1 !! walName = Some i /\ file_ino w1 (wal_file wl1) = Some i) as Hw1.
    { exists i. rewrite Ed, Hf. unfold file_ino in *. by rewrite Efd. }
    destruct r1 as [e|]; [intros [= <- <-]; split; try done; by exists full|].
    destruct (SkipList_Put_spec _ _ k v Hact) as (mem & Em & Hm).
    unfold apply_write. cbn [set_wal db_activeMemtable]. rewrite Em. unfold signal_flush.
    cbn [set_active db_flushChan set_wal]. rewrite Hch.
    destruct (DefaultMemtableThreshold <=? sl_SizeBytes mem); intros [= <- <-];
      split; try done; [by exists true|by exists full]. }
  destruct o as [k v|k]; cbn [run_op op_entry fst snd]; unfold StrataGo_Put, StrataGo_Delete, mbind, IO_bind;
    rewrite Ho; (destruct (WAL_WriteEntry _ _ _ w) as [[r1 wl1] w1] eqn:E);
    pose proof (Hcase _ _ _ _ _ E) as Hc; destruct r1 as [e|]; unfold ret;
    (try (destruct (apply_write _ _ _) as [r2 db2] eqn:E2)); intros [= <- <- <-];
    first [exact (Hc _ _ eq_refl)|exact (Hc _ _ E2)].
Qed.

Lemma run_all_faulty I Ts ops : forall w db A rs db' w',
  serving w db A I Ts -> run_all ops db w = ((rs, db'), w') ->
  exists A', serving w' db' A' I Ts /\
    forall k, answer A' I (Ts.*2) k = foldl (op_answer k) (answer A I (Ts.*2) k) (acked ops rs).
Proof.
  induction ops as [|o ops IH]; intros w db A rs db' w' Hs; cbn [run_all]; unfold mbind, IO_bind, ret.
  - intros [= <- <- <-]. by exists A.
  - destruct (run_op o db w) as [[r db1] w1] eqn:E1.
    destruct (run_all ops db1 w1) as [[rs1 db2] w2] eqn:E2. intros [= <- <- <-].
    destruct (IH _ _ _ _ _ _ (run_op_faulty _ _ _ _ _ _ _ _ _ Hs E1) E2) as (A' & Hs' & Ha).
    exists A'. split; [done|]. intros k. rewrite Ha. unfold acked. cbn. destruct r as [e|]; [done|].
    cbn [foldl]. f_equal. unfold op_answer. rewrite answer_put; [done|]. eapply repr_sorted, Hs.
Qed.

Lemma Get_serving w db A I Ts k :
  serving w db A I Ts -> clean_lookup Ts k -> StrataGo_Get w db k = Some (answer A I (Ts.*2) k).
Proof.
  intros [_ _ Hact Himm _ Htab] Hk. rewrite (Get_memory w db A I k Hact Himm).
  unfold answer. destruct (memory_map A I !! k); [done|]. apply get_readers_open.
  - clear -Htab. induction Htab as [|r t rs Ts [Hr _] _ IH]; [constructor|]. rewrite fmap_cons. by constructor.
  - by apply Forall_fmap.
Qed.

(** C10: A failed write leaves no trace, an acknowledged one counts.  After [Open],
    whatever writes and syncs of the log fail and however much of a record a
    failed write leaves behind, the client goes on, and [Get] answers for every
    key the last write to it that was acknowledged. *)
Theorem writes_under_faults (w : World) (log : list (bytes * slice)) (tail : bytes)
    (Ts : list (Z * list (bytes * slice))) (db : StrataGo) (w1 : World) (fs : list outcome)
    (ops : list op) (rs : list err) (db' : StrataGo) (w' : World) (k : bytes)
    (Hd : disk_ok w log tail Ts) (Hopen : Open w = (inr db, w1))
    (Hrun : run_all ops db (set_faults fs w1) = ((rs, db'), w')) (Hk : clean_lookup Ts k) :
  length rs = length ops /\
  StrataGo_Get w' db' k =
    Some (foldl (op_answer k) (initial_answer log Ts k) (acked ops rs)).
Proof.
  split.
  - clear -Hrun. revert db rs db' w' Hrun. generalize (set_faults fs w1). clear w1.
    induction ops as [|o ops IH]; intros w db rs db' w'; cbn [run_all]; unfold mbind, IO_bind, ret.
    { by intros [= <- <- <-]. }
    destruct (run_op o db w) as [[r db1] w1]. destruct (run_all ops db1 w1) as [[rs1 db2] w2] eqn:E.
    intros [= <- <- <-]. cbn. f_equal. by eapply IH.
  - destruct (Open_ok w log tail Ts Hd) as (db2 & w2 & A & E & He & HA & Hc & _).
    rewrite Hopen in E. injection E as <- <-.
    assert (serving (set_faults fs w1) db A None Ts) as Hs.
    { destruct (live_serving w1 db log A None Ts (engine_live _ _ _ _ _ _ He) Hc). by split. }
    destruct (run_all_faulty None Ts ops _ _ _ _ _ _ Hs Hrun) as (A' & Hs' & Ha).
    rewrite (Get_serving _ _ _ _ _ _ Hs' Hk), Ha. by rewrite (answer_initial log).
Qed.
End faults.

Section witness.
#[local] Existing Instance fnv.
#[local] Existing Instance plain_runtime.

(** the first write is cut after five bytes, the sync of the third fails *)
Definition faults1 : list outcome := [Fails 5; Succeeds; Succeeds; Succeeds; Fails 0].
Definition ops4 : list op :=
  [OpPut [x61] (Some [x01]); OpPut [x62] (Some [x02]); OpDelete [x62]; OpPut [x65] (Some [x03])].

Lemma writes_under_faults_witness :
  exists db w1 rs db' w',
    Open used_disk = (inr db, w1) /\ run_all ops4 db (set_faults faults1 w1) = ((rs, db'), w') /\
    rs = [Some EIO; None; Some EIO; None] /\
    forall k, clean_lookup [(5, table1)] k ->
      length rs = length ops4 /\
      StrataGo_Get w' db' k =
        Some (foldl (op_answer k) (initial_answer old_log [(5, table1)] k) (acked ops4 rs)).
Proof.
  assert (match Open used_disk with
    | (inr db, w1) => Some (run_all ops4 db (set_faults faults1 w1)).1.1
    | _ => None
    end = Some [Some EIO; None; Some EIO; None]) as Ho by vm_equal.
  destruct (Open used_disk) as [[e|db] w1] eqn:E0; [discriminate Ho|].
  destruct (run_all ops4 db (set_faults faults1 w1)) as [[rs db'] w'] eqn:E.
  injection Ho as Hrs. exists db, w1, rs, db', w'. split; [exact eq_refl|]. split; [exact E|].
  split; [exact Hrs|]. intros k Hk.
  exact (writes_under_faults used_disk old_log old_tail [(5, table1)] db w1 faults1 ops4 rs db' w' k
    used_disk_ok E0 E Hk).
Defined.
End witness.
