(* ===== verification/Durable.v ===== *)
(** * Stopping at any moment

    The process may stop while the flush worker and the compaction worker are
    anywhere in their work.  The directory they leave can always be opened again,
    and the values that are found in it are values that were written. *)
From stdpp Require Import base gmap sets list strings numbers sorting.
From Stdlib Require Import ZArith Lia Strings.Byte.
From S2P Require Import Prelude SkipList Disk Wal Bloom GoFmt Sst Reader Engine Recovery Flush.
From S2P Require Import GoHeap Merge Compaction Provenance Concurrent.
Open Scope Z_scope.

Section restart.
Context `{Murmur3} `{Runtime}.

(** What the invariant says of an answer. *)
Lemma cinv_good P exact s f log A I Ts k :
  cinv P exact s f log A I Ts -> P k None -> P k (visible (f k)).
Proof.
  intros [Hl _ _ _ Ha _ [Hlog HI HT _ _] _ _] HN. rewrite <- Ha.
  eapply answer_good; [apply (lv_engine _ _ _ _ _ _ Hl)|done..].
Qed.

Lemma cinv_get P exact s f log A I Ts k :
  cinv P exact s f log A I Ts -> lookup_inside (s_world (c_sys s)) (s_db (c_sys s)) k ->
  exists a, StrataGo_Get (s_world (c_sys s)) (s_db (c_sys s)) k = Some a /\ visible a = visible (f k).
Proof.
  intros Hi Hk. eexists. split; [|apply (ci_answer _ _ _ _ _ _ _ _ Hi)].
  exact (Get_live _ _ _ _ _ _ k (ci_live _ _ _ _ _ _ _ _ Hi) Hk).
Qed.

(** Stopping at any moment leaves a directory that can be opened. *)
Lemma cinv_at_rest P exact s f log A I Ts :
  cinv P exact s f log A I Ts -> at_rest P (crash (s_world (c_sys s))).
Proof.
  intros [Hl _ _ Hq _ _ Hsr _ _]. eapply crash_at_rest; [eapply live_wf, Hl|eapply live_inj, Hl
    |eapply live_wal, Hl|done|exact Hsr].
Qed.

Lemma at_rest_cinv P w :
  at_rest P w ->
  exists db w' f log A Ts, Open w = (inr db, w') /\
    cinv P False (mkCsys (mkSys w' db Idle) CIdle) f log A None Ts.
Proof.
  intros Hr. destruct (at_rest_Open P w Hr) as (db & w' & A & log & Ts & E & He & Hsr & Hc & Hf & Hq).
  eexists db, w', _, log, A, Ts. split; [done|]. by eapply engine_cinv.
Qed.

Lemma cinv_weaken P Q exact s f log A I Ts :
  (forall k a, P k a -> Q k a) -> cinv P exact s f log A I Ts -> cinv Q exact s f log A I Ts.
Proof. intros HPQ [H1 H2 H3 H4 H5 H6 H7 H8 H9]. split; try done. by eapply sourced_weaken. Qed.

(** Every engine that has been opened. *)
Lemma Open_sourced P w log tail Ts db w1 :
  disk_ok w log tail Ts -> Open w = (inr db, w1) -> Forall (good P) log ->
  Forall (fun t => Forall (good P) t.2) Ts ->
  exists A, cinv P False (mkCsys (mkSys w1 db Idle) CIdle) (answer A None (Ts.*2)) log A None Ts.
Proof.
  intros Hd Hopen Hlog HT.
  destruct (Open_at w log tail None Ts Hd) as (db1 & w2 & A & fl & E & -> & He & _ & Hc & Hf & Hfl & Hdir & Hq);
    [done|]. rewrite Hopen in E. injection E as <- <-. rewrite app_nil_r in He. exists A.
  apply engine_cinv; try done. by apply (engine_sourced P w1 db log A).
Qed.

Lemma Open_any w log tail Ts db w1 :
  disk_ok w log tail Ts -> Open w = (inr db, w1) ->
  exists A, cinv any_value False (mkCsys (mkSys w1 db Idle) CIdle) (answer A None (Ts.*2)) log A None Ts.
Proof.
  intros Hd Hopen. apply (Open_sourced any_value w log tail); try done; [apply any_good|].
  apply Forall_forall. intros t _. apply any_good.
Qed.

(** a running engine: opened on a well-formed directory; since then operations,
    flushes and orderly compactions in any interleaving *)
Definition running (s : csys) : Prop :=
  exists w log tail Ts db w1 l, disk_ok w log tail Ts /\ Open w = (inr db, w1) /\
    csteps orderly (mkCsys (mkSys w1 db Idle) CIdle) l s.

Lemma running_cinv s :
  running s -> exists f log A I Ts, cinv any_value False s f log A I Ts.
Proof.
  intros (w & log & tail & Ts & db & w1 & l & Hd & Hopen & Hsteps).
  destruct (Open_any w log tail Ts db w1 Hd Hopen) as (A & Hi).
  destruct (csteps_cinv _ _ _ _ _ _ _ _ _ _ Hsteps Hi) as (_ & log' & A' & I' & Ts' & Hi').
  { apply Forall_forall. by intros x _. }
  by eexists _, log', A', I', Ts'.
Qed.

(** [a] is what a client sees of a value of [k] among [es], or of no value *)
Definition written_in (es : list (bytes * slice)) (k : bytes) (a : option bytes) : Prop :=
  a = None \/ exists v, (k, v) ∈ es /\ a = visible v.

Lemma written_good es es' : es ⊆ es' -> Forall (good (written_in es')) es.
Proof.
  intros Hs. apply Forall_forall. intros [k v] Hin. right. exists v. split; [by apply Hs|done].
Qed.

(** the entries of a directory *)
Definition disk_entries (log : list (bytes * slice)) (Ts : list (Z * list (bytes * slice)))
    : list (bytes * slice) := log ++ concat (Ts.*2).

Lemma disk_entries_log log Ts : log ⊆ disk_entries log Ts.
Proof. intros e He. apply elem_of_app. by left. Qed.

Lemma disk_entries_table log (Ts : list (Z * list (bytes * slice))) t : t ∈ Ts -> t.2 ⊆ disk_entries log Ts.
Proof.
  intros Ht e He. apply elem_of_app. right. apply list_elem_of_In, in_concat. exists t.2.
  rewrite <- !list_elem_of_In. split; [by apply list_elem_of_fmap_2|done].
Qed.

(** In a running engine everything was written. *)
Lemma csteps_written w log tail Ts db w1 (l : list (op * err)) s es :
  disk_ok w log tail Ts -> Open w = (inr db, w1) -> 
  csteps orderly (mkCsys (mkSys w1 db Idle) CIdle) l s ->
  disk_entries log Ts ++ (op_entry <$> l.*1) ⊆ es ->
  exists f log' A I Ts', cinv (written_in es) False s f log' A I Ts'.
Proof.
  intros Hd Hopen Hsteps Hes.
  assert (disk_entries log Ts ⊆ es) as Hde by (intros x Hx; apply Hes, elem_of_app; by left).
  destruct (Open_sourced (written_in es) w log tail Ts db w1 Hd Hopen) as (A & Hi).
  { apply written_good. etrans; [apply disk_entries_log|done]. }
  { apply Forall_forall. intros t Ht. apply written_good. etrans; [by apply disk_entries_table|done]. }
  destruct (csteps_cinv _ False _ _ _ _ _ _ _ _ Hsteps Hi) as (_ & log' & A' & I' & Ts' & Hi');
    [|by eexists _, log', A', I', Ts'].
  apply Forall_forall. intros x Hx. split; [|done]. right. exists (op_entry x.1).2. split; [|done].
  rewrite <- surjective_pairing. apply Hes, elem_of_app. right.
  by apply list_elem_of_fmap_2, list_elem_of_fmap_2.
Qed.

(** A directory at rest opens and gives back what is in it. *)
Lemma at_rest_answers P w :
  at_rest P w -> (forall k, P k None) ->
  exists db' w', Open w = (inr db', w') /\
    forall k, lookup_inside w' db' k -> exists a, StrataGo_Get w' db' k = Some a /\ P k (visible a).
Proof.
  intros Hr HN. destruct (at_rest_cinv _ _ Hr) as (db' & w' & f & log & A & Ts & E & Hi).
  exists db', w'. split; [done|]. intros k Hk.
  destruct (cinv_get _ _ _ _ _ _ _ _ k Hi Hk) as (a & Ea & Hv). exists a. split; [exact Ea|].
  rewrite Hv. by apply (cinv_good _ _ _ _ _ _ _ _ k Hi).
Qed.

End restart.

(** ** Stopping during a flush

    Without compactions every table stays under its name, and more can be said:
    which write each key falls back to. *)
Section flush.
Context `{Murmur3} `{Runtime}.

(** the log that was set aside holds the entries of the memtable [B] *)
Definition aside (w : World) (B : list (bytes * slice)) : Prop :=
  exists es, flushing_ok w (Some es) /\
    wal_replay es ∅ = norm <$> (list_to_map B : gmap bytes slice).

(** the directory at each point of a flush *)
Definition flush_disk (w : World) (I : option (list (bytes * slice)))
    (Ts : list (Z * list (bytes * slice))) (before : bytes -> option bytes) (pc : flush_pc) : Prop :=
  match pc with
  | Idle => w_dir w !! flushingName = None /\ dir_ok w Ts
  | Building => exists B, I = Some B /\ aside w B /\ dir_ok w Ts /\
      forall k v, (list_to_map B : gmap bytes slice) !! k = Some v -> before k = v
  | Finishing b => exists B r v ts, I = Some B /\ b = Built r v /\ aside w B /\ table_ok w r (ts, B) /\
      dir_ok w (Ts ++ [(ts, B)]) /\
      forall k v, (list_to_map B : gmap bytes slice) !! k = Some v -> before k = v
  | Removing => exists B Ts0 ts, Ts = Ts0 ++ [(ts, B)] /\ aside w B /\ dir_ok w Ts /\
      forall k v, (list_to_map B : gmap bytes slice) !! k = Some v -> before k = v
  end.

(** the system after the operations [l1], the rotation of the flush that is under
    way, and the operations [l2] *)
Record flushing (base : bytes -> option bytes) (s : sys) (l1 l2 : list op) : Prop := {
  fg_state : exists log A I Ts,
    simulates s (fun k => foldl (op_answer k) (base k) (l1 ++ l2)) log A I Ts /\
    flush_disk (s_world s) I Ts (fun k => foldl (op_answer k) (base k) l1) (s_pc s) /\
    (s_pc s <> Idle -> log = op_entry <$> l2);
  fg_seq : wal_sequenceNumber (db_wal (s_db s)) < 2 ^ 64;
  fg_idle : s_pc s = Idle -> l2 = []
}.

Lemma aside_retains w w' B : aside w B -> retains w w' (eq flushingName) ->
  w_dir w' !! flushingName = w_dir w !! flushingName -> aside w' B.
Proof.
  intros (es & Hes & HB) Hr Ed. exists es. split; [|done]. apply (flushing_frame w); [done| |done].
  intros i Hi. rewrite <- Ed in Hi. by apply (Hr flushingName i).
Qed.

Lemma flush_disk_retains w w' I Ts before pc :
  flush_disk w I Ts before pc -> w_dir w' = w_dir w -> retains w w' (eq flushingName) ->
  (forall r t, table_ok w r t -> table_ok w' r t) -> flush_disk w' I Ts before pc.
Proof.
  intros Hd Ed Hr Ht.
  assert (forall B, aside w B -> aside w' B) as Ha by (intros B HB; eapply aside_retains; [done..|by rewrite Ed]).
  destruct pc; cbn [flush_disk] in *; unfold dir_ok in *; rewrite ?Ed; [done|..].
  - destruct Hd as (B & H1 & H2 & H3). exists B. auto.
  - destruct Hd as (B & r & v & ts & H1 & H2 & H3 & H4 & H5). exists B, r, v, ts. auto 7.
  - destruct Hd as (B & Ts0 & ts & H1 & H2 & H3). exists B, Ts0, ts. auto.
Qed.

Lemma op_retains w db log A I Ts o r db' w' :
  engine_ok w db log A I Ts -> db_closed db = false -> w_faults w = [] -> op_ok o ->
  wal_sequenceNumber (db_wal db) + 1 < 2 ^ 64 -> run_op o db w = ((r, db'), w') ->
  w_dir w' = w_dir w /\ retains w w' (eq flushingName) /\ (forall r t, table_ok w r t -> table_ok w' r t).
Proof.
  intros He Hc Hf Ho Hq E.
  destruct (live_op _ _ _ _ _ _ o r db' w' (engine_live _ _ _ _ _ _ He) Hc Hf Ho Hq E)
    as (-> & _ & _ & _ & _ & Hd & _ & Hr).
  destruct (run_op_ok w db log A I Ts o He Hc Hf Ho Hq) as (db2 & w2 & E2 & _ & Ht & _).
  rewrite E in E2. injection E2 as <- <-. split; [done|]. split; [|done].
  eapply retains_weaken; [exact Hr|]. by intros s <-.
Qed.

Lemma rotate_aside w db log A Ts db' w' :
  engine_ok w db log A None Ts -> w_faults w = [] -> wal_sequenceNumber (db_wal db) < 2 ^ 64 ->
  mem_fits (db_activeMemtable db) -> flush_rotate db w = ((None, db'), w') ->
  aside w' A /\ (dir_ok w Ts -> dir_ok w' Ts) /\ wal_sequenceNumber (db_wal db') = 0.
Proof.
  intros He Hf Hq [Hfit _] E.
  pose proof (live_rotate _ _ _ _ _ _ _ _ (engine_live _ _ _ _ _ _ He) Hf E) as Hr. cbn in Hr.
  destruct Hr as (Hl & _ & _ & _ & _ & Hd & i & Hi & ->).
  assert (len A < 2 ^ 64) as HA.
  { rewrite (repr_size _ _ (eo_active _ _ _ _ _ _ He)) in Hfit. unfold bloom_keys_ok, bitsPerKey in Hfit. lia. }
  split; [|split].
  - exists log. split; [|symmetry; apply He]. apply (rotated_flushing w (db_wal db) log A);
      try done;
      [apply He|apply He|apply He|eapply repr_sorted, He].
  - intros Hdir s Hs. rewrite Hd; [by apply Hdir|]. intros [-> | ->]; done.
  - pose proof (engine_seq _ _ _ _ _ _ (lv_engine _ _ _ _ _ _ Hl)) as Hz. cbn in Hz.
    change (len []) with 0 in Hz. lia.
Qed.

Lemma build_aside w db log A B Ts r w' :
  engine_ok w db log A (Some B) Ts -> w_faults w = [] -> sst_ok B -> flush_time_ok w Ts ->
  flush_build db w = (r, w') -> aside w B -> dir_ok w Ts ->
  exists reader v, r = Built reader v /\ table_ok w' reader (w_now w, B) /\ aside w' B /\
    dir_ok w' (Ts ++ [(w_now w, B)]).
Proof.
  intros He Hf HB Ht E Ha Hd.
  destruct (flush_build_ok w db log A B Ts He Hf HB Ht) as (r' & w2 & E2 & _ & Htab & _ & _ & Hdir & Hg & _).
  rewrite E in E2. injection E2 as -> <-. exists r', (len B). split; [done|]. split; [done|]. split.
  - apply (aside_retains w); [done| |apply Hdir, not_eq_sym, sst_name_not_flushing].
    apply retains_data; [apply He| |apply Hg]. intros s <-. apply Hdir, not_eq_sym, sst_name_not_flushing.
  - intros s Hs Hi. destruct (decide (s = sst_name (w_now w))) as [->|Hne].
    + exists (w_now w, B). split; [apply elem_of_app; right; by left|done].
    + rewrite Hdir in Hi by done. destruct (Hd s Hs Hi) as (t & Hin & ->). exists t.
      split; [apply elem_of_app; by left|done].
Qed.

(** *** Steps *)

Lemma fold_ops_snoc {A} (f : A -> op -> A) a l1 l2 o :
  foldl f a (l1 ++ l2 ++ [o]) = f (foldl f a (l1 ++ l2)) o.
Proof. by rewrite app_assoc, foldl_snoc. Qed.

Lemma flushing_op base w db pc l1 l2 o r db' w' :
  flushing base (mkSys w db pc) l1 l2 -> op_ok o -> op_nonempty o ->
  wal_sequenceNumber (db_wal db) + 1 < 2 ^ 64 -> run_op o db w = ((r, db'), w') ->
  exists l1' l2', l1' ++ l2' = l1 ++ l2 ++ [o] /\ (pc <> Idle -> l1' = l1) /\
    flushing base (mkSys w' db' pc) l1' l2'.
Proof.
  intros [(log & A & I & Ts & Hsim & Hd & Hlog) Hq Hidle] Ho Hne Hs E. cbn [s_world s_db s_pc] in *.
  destruct (sim_op _ _ _ _ _ _ o r db' w' Hsim Ho Hne Hs E) as [_ Hsim'].
  destruct (op_retains w db log A I Ts o r db' w') as (Ed & Hr & Ht);
    [apply Hsim|apply Hsim|apply Hsim|done..|].
  pose proof (run_op_seq _ _ _ _ _ _ (sim_open _ _ _ _ _ _ Hsim) E) as Hq'. cbn [s_db] in Hq'.
  assert (pc = Idle \/ pc <> Idle) as [->|Hpc] by (destruct pc; [by left|by right..]).
  - rewrite (Hidle eq_refl) in *. exists (l1 ++ [o]), []. split; [by rewrite app_nil_r|]. split; [done|]. split.
    + exists (log ++ [op_entry o]). eexists _, I, Ts.
      split; [|split; [by apply (flush_disk_retains w)|intros E'; by destruct E']].
      eapply simulates_ext; [|exact Hsim']. intros k. cbn. by rewrite !app_nil_r, foldl_snoc.
    + cbn. rewrite Hq'. unfold u64. lia.
    + done.
  - exists l1, (l2 ++ [o]). split; [done|]. split; [done|]. split; [|cbn; rewrite Hq'; unfold u64; lia|done].
    exists (log ++ [op_entry o]). eexists _, I, Ts. split; [|split; [by apply (flush_disk_retains w)|]].
    2: { intros _. rewrite (Hlog Hpc), fmap_app. reflexivity. }
    eapply simulates_ext; [|exact Hsim']. intros k. cbn. by rewrite fold_ops_snoc.
Qed.

(** A step of the flush worker. *)
Lemma flushing_step base s l s' l1 l2 :
  flushing base s l1 l2 -> step s l s' -> (forall x, l = Some x -> op_nonempty x.1) ->
  exists l1' l2', l1' ++ l2' = l1 ++ l2 ++ default [] ((fun x => [x.1]) <$> l) /\
    (s_pc s <> Idle -> s_pc s' <> Idle -> l1' = l1) /\ flushing base s' l1' l2'.
Proof.
  intros Hg Hst Hne. destruct Hst as [w db pc o r db' w' Ho Hseq E|w db pc t Hle
    |w db db' w' Hfit E|w db r db' w' E|w db b w' Hck E|w db reader verified imm Ei Ev|w db
    |w db b db' w' r Hb E]; cbn [default fmap option_fmap option_map fst];
    [destruct (flushing_op _ _ _ _ _ _ _ _ _ _ Hg Ho (Hne _ eq_refl) Hseq E) as (m1 & m2 & ? & ? & ?);
     exists m1, m2; by split_and!; auto|rewrite app_nil_r..].
  all: destruct Hg as [(log & A & I & Ts & Hsim & Hd & Hlog) Hq Hidle]; cbn [s_world s_db s_pc] in *.
  - exists l1, l2. split; [done|]. split; [done|]. split; [|done|done]. exists log, A, I, Ts.
    split; [by apply (sim_tick _ _ _ _ _ _ t Hsim)|]. split; [by apply (flush_disk_retains w)|done].
  - rewrite (Hidle eq_refl) in *. rewrite app_nil_r in *. pose proof (sim_pc _ _ _ _ _ _ Hsim) as HI. cbn in HI. subst I.
    destruct (rotate_aside w db log A Ts db' w') as (Ha & Hdir & Hz);
      [apply Hsim|apply Hsim|done..|]. exists l1, []. split; [by rewrite app_nil_r|]. split; [done|]. split; [|cbn; lia|done].
    exists [], [], (Some A), Ts. split; [rewrite app_nil_r; exact (sim_rotate _ _ _ _ _ _ _ _ _ _ Hsim E Hfit)|].
    split; [|done]. exists A. split; [done|]. split; [done|]. split; [by apply Hdir, Hd|]. intros k v Hv.
    rewrite <- (sim_answer _ _ _ _ _ _ Hsim). unfold answer. by rewrite memory_map_None, Hv.
  - pose proof (sim_pc _ _ _ _ _ _ Hsim) as HI. cbn in HI. subst I.
    pose proof (live_rotate _ _ _ _ _ _ _ _ (engine_live _ _ _ _ _ _ (sim_engine _ _ _ _ _ _ Hsim))
      (sim_faults _ _ _ _ _ _ Hsim) E) as Hr. cbn in Hr. destruct Hr as [-> ->].
    exists l1, l2. split; [done|]. split; [done|]. split; [|done|done]. by exists log, A, None, Ts.
  - destruct Hd as (B & -> & Ha & Hdir & Hbef). exists l1, l2. split; [done|]. split; [done|].
    destruct (sim_pc _ _ _ _ _ _ Hsim) as (B' & [= <-] & HB).
    destruct (build_aside w db log A B Ts b w') as (rd & v & -> & Ht & Ha' & Hdir'); try done;
      [apply Hsim|apply Hsim|by eapply clock_time_ok; [apply Hsim|]|].
    split; [|done|done]. exists log, A, (Some B), Ts. split; [by eapply sim_build|].
    split; [by exists B, rd, v, (w_now w)|]. intros _. by apply Hlog.
  - destruct Hd as (B & rd & v & ts & -> & [= <- <-] & Ha & Ht & Hdir & Hbef). exists l1, l2. split; [done|]. split; [done|].
    destruct (sim_install _ _ _ _ _ _ _ _ _ Hsim) as (B' & ts' & [= <-] & Ht' & Hsim').
    split; [|done|done]. exists log, A, None, (Ts ++ [(ts', B)]). split; [exact Hsim'|].
    split; [|by intros _; apply Hlog]. exists B, Ts, ts'. split; [done|]. split; [done|]. split; [|done].
    assert (sst_name ts = sst_name ts') as En.
    { destruct Ht as (_ & _ & E1 & _), Ht' as (_ & _ & E2 & _). cbn in *. congruence. }
    intros s Hs Hi. destruct (Hdir s Hs Hi) as (t & [Hin | ->%list_elem_of_singleton]%elem_of_app & ->).
    + exists t. split; [apply elem_of_app; by left|done].
    + exists (ts', B). split; [apply elem_of_app; right; by left|by cbn].
  - destruct Hd as (B & Ts0 & ts & HTs & Ha & Hdir & Hbef).
    destruct (remove_flushing_ok w db log A I Ts) as (_ & _ & _ & Ed); [apply Hsim|apply Hsim|].
    exists (l1 ++ l2), []. split; [by rewrite app_nil_r|]. split; [done|]. split; [|done|done].
    exists log, A, I, Ts. split; [rewrite app_nil_r; pose proof (sim_pc _ _ _ _ _ _ Hsim) as HI; cbn in HI; subst I; by apply sim_remove|].
    split; [|done]. cbn [flush_disk s_world s_pc]. rewrite Ed. split; [apply lookup_delete_eq|]. intros s Hs [i Hi].
    rewrite Ed in Hi. apply lookup_delete_Some in Hi as [_ Hi]. apply Hdir; eauto.
  - destruct (sim_no_failure _ _ _ _ _ _ _ _ Hsim) as (rd & imm & -> & Ei). by destruct (Hb imm).
Qed.

Lemma flushing_steps base s l s' :
  steps s l s' -> Forall (fun x => op_nonempty x.1) l -> forall l1 l2,
  flushing base s l1 l2 -> exists l1' l2', l1' ++ l2' = l1 ++ l2 ++ l.*1 /\ flushing base s' l1' l2'.
Proof.
  induction 1 as [s|s1 s2 s3 l Hs _ IH|s1 s2 s3 x l Hs _ IH]; intros Hne l1 l2 Hg.
  - exists l1, l2. by rewrite app_nil_r.
  - destruct (flushing_step _ _ _ _ _ _ Hg Hs ltac:(done)) as (m1 & m2 & E & _ & Hg').
    destruct (IH Hne _ _ Hg') as (n1 & n2 & E' & ?).
    exists n1, n2. split; [|done]. rewrite E', app_assoc, E. cbn. by rewrite app_nil_r, app_assoc.
  - apply Forall_cons in Hne as [Hne1 Hne].
    destruct (flushing_step _ _ _ _ _ _ Hg Hs ltac:(by intros y [= <-])) as (m1 & m2 & E & _ & Hg').
    destruct (IH Hne _ _ Hg') as (n1 & n2 & E' & ?).
    exists n1, n2. split; [|done]. rewrite E', app_assoc, E. cbn. by rewrite <- !app_assoc.
Qed.

(** *** The answers after the restart *)

(** [R] is recovered on top of the log *)
Section reopened.
Context (A A' : list (bytes * slice)) (R : gmap bytes slice) (I : option (list (bytes * slice))).
Context (Ts Ts' : list (list (bytes * slice))) (k : bytes).
Context (HA : (list_to_map A' : gmap bytes slice) = R ∪ (norm <$> list_to_map A)).

Lemma reopened_found v : R !! k = Some v -> visible (answer A' None Ts' k) = visible v.
Proof using HA.
  intros Hv. unfold answer. rewrite memory_map_None, HA, lookup_union, Hv.
  by destruct ((norm <$> (list_to_map A : gmap bytes slice)) !! k).
Qed.

Lemma reopened_other :
  R !! k = None -> (list_to_map (default [] I) : gmap bytes slice) !! k = None ->
  tables_map Ts' !! k = tables_map Ts !! k ->
  visible (answer A' None Ts' k) = visible (answer A I Ts k).
Proof using HA.
  intros HR HI HT. unfold answer, memory_map at 2. rewrite memory_map_None, HA, !lookup_union, HR, HI, HT.
  rewrite (left_id_L None (∪)), (right_id_L None (∪)), lookup_fmap.
  destruct ((list_to_map A : gmap bytes slice) !! k); [apply visible_norm|done].
Qed.
End reopened.

Lemma tables_map_other Ts B k :
  (list_to_map B : gmap bytes slice) !! k = None -> tables_map (Ts ++ [B]) !! k = tables_map Ts !! k.
Proof.
  intros HB. rewrite tables_map_snoc, lookup_union, plain_lookup, HB. apply (left_id_L None (∪)).
Qed.

(** The directory opens, and every key is answered as by [f] or as by [before]. *)
Definition recovers (w : World) (f before : bytes -> option bytes) : Prop :=
  exists db' w', Open w = (inr db', w') /\
    forall k, lookup_inside w' db' k ->
      exists a, StrataGo_Get w' db' k = Some a /\
        (visible a = visible (f k) \/ visible a = visible (before k)).

(** What there is to recover while a flush is interrupted. *)
Lemma aside_recovers w log A I (Ts Ts' : list (Z * list (bytes * slice))) es B before f :
  disk_at w log [] (Some es) Ts' -> norm <$> (list_to_map A : gmap bytes slice) = wal_replay log ∅ ->
  wal_replay es ∅ = norm <$> (list_to_map B : gmap bytes slice) ->
  (forall k, answer A I (Ts.*2) k = f k) ->
  (forall k v, (list_to_map B : gmap bytes slice) !! k = Some v -> before k = v) ->
  (forall k, (list_to_map B : gmap bytes slice) !! k = None ->
    (list_to_map (default [] I) : gmap bytes slice) !! k = None /\
    tables_map (Ts'.*2) !! k = tables_map (Ts.*2) !! k) ->
  recovers w f before.
Proof.
  intros Hd HA0 HB Hf Hbef Hoth.
  destruct (Open_at _ _ _ _ _ Hd) as (db' & w' & A' & es' & E & Hrec & He' & HA & _); [done|].
  exists db', w'. split; [done|]. intros k Hk.
  eexists. split; [apply (Get_ok _ _ _ _ _ _ k He'), (lookup_inside_clean _ _ _ _ _ _ k He' Hk)|].
  cbn [recovered] in Hrec. rewrite (reordered_replay log es es' Hrec), HB, <- HA0 in HA.
  destruct ((list_to_map B : gmap bytes slice) !! k) as [v|] eqn:Ek.
  - right. rewrite (reopened_found A A' _ (Ts'.*2) k HA (norm v)) by (by rewrite lookup_fmap, Ek).
    by rewrite visible_norm, (Hbef k v).
  - left. destruct (Hoth k Ek) as [H1 H2].
    rewrite (reopened_other A A' _ I (Ts.*2) (Ts'.*2) k HA), Hf; [done| |done|done].
    by rewrite lookup_fmap, Ek.
Qed.

(** What there is to recover when no flush is interrupted. *)
Lemma plain_recovers w log tail A (Ts : list (Z * list (bytes * slice))) f :
  disk_at w log tail None Ts -> norm <$> (list_to_map A : gmap bytes slice) = wal_replay log ∅ ->
  (forall k, visible (answer A None (Ts.*2) k) = visible (f k)) -> recovers w f f.
Proof.
  intros Hd HA0 Hf. destruct (Open_ok _ _ _ _ Hd) as (db' & w' & A' & E & He' & HA & _).
  exists db', w'. split; [done|]. intros k Hk. eexists.
  split; [apply (Get_ok _ _ _ _ _ _ k He'), (lookup_inside_clean _ _ _ _ _ _ k He' Hk)|].
  left. rewrite (reopened_other A A' ∅ None (Ts.*2) (Ts.*2) k), Hf; [done| |done..].
  rewrite HA, <- HA0. symmetry. apply (left_id_L ∅ (∪)).
Qed.

(** What is on the disk, and that it is enough. *)
Lemma flushing_image base s l1 l2 :
  flushing base s l1 l2 ->
  exists log fl Ts, disk_at (crash (s_world s)) log [] fl Ts /\
    forall w, disk_at w log [] fl Ts ->
      recovers w (fun k => foldl (op_answer k) (base k) (l1 ++ l2)) (fun k => foldl (op_answer k) (base k) l1).
Proof.
  intros [(log & A & I & Ts & [He Hf Hc Ha Hn Hpc] & Hd & _) Hq _].
  pose proof (tables_stored _ _ _ (eo_tables _ _ _ _ _ _ He)) as Hst.
  pose proof (eo_sorted _ _ _ _ _ _ He) as Hs. pose proof (eo_range _ _ _ _ _ _ He) as Hr.
  pose proof (eo_log _ _ _ _ _ _ He) as HA.
  destruct (s_pc s) as [| |b|]; cbn [flush_disk] in *.
  - subst I. destruct Hd as [Hfl Hdir]. exists log, None, Ts.
    split; [exact (crash_disk_ok _ _ _ _ _ He Hq Hfl Hdir)|]. intros w Hd.
    destruct (plain_recovers w log [] A Ts (fun k => foldl (op_answer k) (base k) (l1 ++ l2)) Hd HA)
      as (db' & w' & E & Hget); [by intros k; rewrite Ha|].
    exists db', w'. split; [done|]. intros k Hk. destruct (Hget k Hk) as (a & ? & [|]); eauto.
  - destruct Hd as (B & -> & (es & Hes & HB) & Hdir & Hbef). exists log, (Some es), Ts.
    split; [by eapply crash_disk|]. intros w Hd. by apply (aside_recovers w log A (Some B) Ts Ts es B).
  - destruct Hd as (B & r & v & ts & -> & -> & (es & Hes & HB) & Ht & Hdir & Hbef).
    destruct Hpc as (B' & r' & ts' & [= <-] & [= <- Hv] & Ht' & Hts & Hlt).
    assert (sst_name ts = sst_name ts') as En.
    { destruct Ht as (_ & _ & E1 & _), Ht' as (_ & _ & E2 & _). cbn in *. congruence. }
    exists log, (Some es), (Ts ++ [(ts', B)]). split.
    + eapply crash_disk; try done.
      * apply Forall_app. split; [done|]. apply (tables_stored _ [r]). by constructor.
      * rewrite fmap_app. by apply sorted_snoc.
      * apply Forall_app. split; [done|]. repeat constructor; cbn; lia.
      * intros s0 Hs0 Hi. destruct (Hdir s0 Hs0 Hi) as (t & [Hin | ->%list_elem_of_singleton]%elem_of_app & ->).
        -- exists t. split; [apply elem_of_app; by left|done].
        -- exists (ts', B). split; [apply elem_of_app; right; by left|done].
    + intros w Hd. apply (aside_recovers w log A (Some B) Ts (Ts ++ [(ts', B)]) es B); try done.
      intros k Hk. split; [done|]. rewrite fmap_app. by apply tables_map_other.
  - destruct Hd as (B & Ts0 & ts & -> & (es & Hes & HB) & Hdir & Hbef). subst I.
    exists log, (Some es), (Ts0 ++ [(ts, B)]). split; [by eapply crash_disk|]. intros w Hd.
    by apply (aside_recovers w log A None (Ts0 ++ [(ts, B)]) (Ts0 ++ [(ts, B)]) es B).
Qed.

Lemma flushing_crash base s l1 l2 :
  flushing base s l1 l2 ->
  recovers (crash (s_world s)) (fun k => foldl (op_answer k) (base k) (l1 ++ l2))
    (fun k => foldl (op_answer k) (base k) l1).
Proof. intros Hg. destruct (flushing_image _ _ _ _ Hg) as (log & fl & Ts & Hd & Hrec). by apply Hrec. Qed.

Lemma foldl_other k a l :
  k ∉ (fun o => (op_entry o).1) <$> l -> foldl (op_answer k) a l = a.
Proof.
  revert a. induction l as [|o l IH]; intros a; [done|]. rewrite fmap_cons, not_elem_of_cons. intros [Hk Hl].
  cbn [foldl]. unfold op_answer at 2. rewrite decide_False by done. by apply IH.
Qed.

(** An engine that has just been opened. *)
Lemma Open_flushing w log tail (Ts : list (Z * list (bytes * slice))) db w1 :
  disk_ok w log tail Ts -> Forall (fun e => slice_bytes e.2 <> []) log -> Open w = (inr db, w1) ->
  flushing (initial_answer log Ts) (mkSys w1 db Idle) [] [].
Proof.
  intros Hd Hne Hopen.
  destruct (Open_at w log tail None Ts Hd) as (db1 & w2 & A & es & E & -> & He & HA & Hc & Hf & Hfl & Hdir & Hq);
    [done|]. rewrite Hopen in E. injection E as <- <-. rewrite app_nil_r in *. split; [|done|done].
  exists log, A, None, Ts. split; [|by split].
  split; try done; [intros k; by apply answer_initial|by apply (replay_no_empty log)].
Qed.
End flush.

(** ** Witnesses *)

Section schedules.
Context `{Murmur3} `{Runtime}.

(** the action is not part of a compaction *)
Definition of_flush (a : action) : bool :=
  match a with DoSelect _ | DoCompact | DoReplace | DoCleanup => false | _ => true end.

Lemma act_of_flush a s l s' : of_flush a = true -> act a s = Some (l, s') -> c_pc s' = c_pc s.
Proof.
  intros Ha. destruct s as [[w db pc] c]. unfold act. cbn [c_sys c_pc s_world s_db s_pc].
  destruct a as [o|t| | | | |n| | |]; try discriminate; destruct pc as [| |[r v|e|e]|]; try done;
    try (case_guard; [|done]); cbn.
  all: try (by intros [= <- <-]).
  all: try (destruct (run_op o db w) as [[r0 db'] w']; by intros [= <- <-]).
  - destruct (flush_rotate db w) as [[[e|] db'] w']; [done|]. by intros [= <- <-].
  - destruct (flush_build db w) as [b w']. by intros [= <- <-].
  - destruct (db_immutableMemtable db); [|done]. case_guard; [|done]. by intros [= <- <-].
Qed.

Lemma cstep_same_pc s c l s' : cstep (mkCsys s c) l (mkCsys s' c) -> step s l s'.
Proof.
  intros Hst. remember (mkCsys s c) as a eqn:Ea. remember (mkCsys s' c) as b eqn:Eb. revert Ea Eb.
  destruct Hst as [? ? ? ? Hst|? ? ? ? ? _ _|? ? ? ? [?|[? ?]] ? _ _ _| |];
    intros Ea Eb; by simplify_eq/=.
Qed.

Lemma run_schedule_steps acts c : forall s l s',
  forallb of_flush acts = true -> run_schedule acts (mkCsys s c) = Some (l, s') ->
  c_pc s' = c /\ steps s l (c_sys s').
Proof.
  induction acts as [|a acts IH]; intros s l s' Hfl; cbn [run_schedule].
  - intros [= <- <-]. split; [done|constructor].
  - apply andb_prop in Hfl as [Hfa Hfl].
    destruct (act a (mkCsys s c)) as [[x [s1 c1]]|] eqn:Ea; [|done]. cbn [mbind option_bind].
    pose proof (act_of_flush _ _ _ _ Hfa Ea) as Ec. cbn in Ec. subst c1.
    apply act_sound, cstep_same_pc in Ea.
    destruct (run_schedule acts (mkCsys s1 c)) as [[l1 s2]|] eqn:Er; [|done]. cbn. intros [= <- <-].
    destruct (IH _ _ _ Hfl Er) as [Ec Hst]. split; [done|].
    destruct x as [p|]; [by eapply steps_op|by eapply steps_silent].
Qed.
End schedules.

Section witnesses.
#[local] Existing Instance fnv.
#[local] Existing Instance plain_runtime.

(** [acts] on an engine opened on [w0]; the places where its workers stand *)
Definition schedule_outcome (w0 : World) (acts : list action) :
    option (list op * flush_pc * compaction_pc) :=
  match Open w0 with
  | (inr db, w1) =>
      '(l, s) ← run_schedule acts (mkCsys (mkSys w1 db Idle) CIdle);
      Some (l.*1, s_pc (c_sys s), c_pc s)
  | _ => None
  end.

Lemma schedule_outcome_run w0 acts l pc c :
  schedule_outcome w0 acts = Some (l, pc, c) ->
  exists db w1 l0 s, Open w0 = (inr db, w1) /\
    run_schedule acts (mkCsys (mkSys w1 db Idle) CIdle) = Some (l0, s) /\
    l0.*1 = l /\ s_pc (c_sys s) = pc /\ c_pc s = c.
Proof.
  unfold schedule_outcome. destruct (Open w0) as [[e|db] w1]; [discriminate|].
  destruct (run_schedule _ _) as [[l0 s]|] eqn:Er; [|discriminate]. cbn. intros [= <- <- <-].
  by exists db, w1, l0, s.
Qed.

(** a write, the rotation, another write to the key, and the table is built *)
Definition schedule3 : list action :=
  [DoOp (OpPut [x61] (Some [x01])); DoOp (OpPut [x62] (Some [x02])); DoRotate;
   DoOp (OpPut [x61] (Some [x03])); DoBuild].

Definition ops3 : list op :=
  [OpPut [x61] (Some [x01]); OpPut [x62] (Some [x02]); OpPut [x61] (Some [x03])].

End witnesses.
