(* ===== verification/Interrupted.v ===== *)
(** * Stopping inside a part

    [Durable] stops the process between the parts of a flush or a compaction.
    Here it stops at any system call inside a part: the part runs with any calls
    failing and any write cut short, and then the process ends.  (A process that
    dies at a call leaves the directory that it leaves when that call and all that
    follow fail.)  What is left can still be opened, and holds written values
    only.  One case is left out: a record that is cut in the middle while a log is
    set aside. *)
From stdpp Require Import base gmap sets list strings numbers sorting.
From Stdlib Require Import ZArith Lia Strings.Byte.
From S2P Require Import Prelude SkipList Disk Wal Bloom GoFmt Sst Reader Engine Recovery Flush.
From S2P Require Import GoHeap Merge Compaction Provenance Concurrent Durable.
Open Scope Z_scope.

Create HintDb steady.

(** ** Runs that succeed

    A program that gets what it needs from every call does the same as without
    faults. *)

Definition sunny (w : World) : World := set_faults [] w.

Definition steady {A} (ok : A -> Prop) (m : IO A) : Prop :=
  forall w, ok (m w).1 -> m (sunny w) = ((m w).1, sunny (m w).2).

Definition no_err (r : err) : Prop := r = None.
Definition is_ok {T} (r : result T) : Prop := match r with inr _ => True | inl _ => False end.
Definition anything {A} (_ : A) : Prop := True.

Lemma steady_ret {A} ok (a : A) : steady ok (ret a).
Proof. done. Qed.

Lemma steady_bind {A B} (ok1 : A -> Prop) (ok2 : B -> Prop) (m : IO A) (k : A -> IO B) :
  steady ok1 m -> (forall a w, ok2 (k a w).1 -> ok1 a) -> (forall a, ok1 a -> steady ok2 (k a)) ->
  steady ok2 (m ≫= k).
Proof.
  intros Hm Hn Hk w. specialize (Hm w). unfold mbind, IO_bind. destruct (m w) as [a w1] eqn:E.
  intros Hok. pose proof (Hn _ _ Hok) as Ha. rewrite Hm by done. by apply Hk.
Qed.

Lemma steady_any {A B} (ok : B -> Prop) (m : IO A) (k : A -> IO B) :
  steady anything m -> (forall a, steady ok (k a)) -> steady ok (m ≫= k).
Proof. intros Hm Hk. by apply (steady_bind anything). Qed.

Lemma steady_and_then {A} (ok : A -> Prop) (c : IO err) h (k : IO A) :
  steady no_err c -> (forall e w, ~ ok (h e w).1) -> steady ok k -> steady ok (and_then c h k).
Proof.
  intros Hc Hh Hk. apply (steady_bind no_err); [done| |].
  - intros [e|] w; [|done]. intros Hok. by destruct (Hh e w).
  - by intros ? ->.
Qed.

Lemma steady_and_bind {T A} (ok : A -> Prop) (c : IO (result T)) h (k : T -> IO A) :
  steady is_ok c -> (forall e w, ~ ok (h e w).1) -> (forall x, steady ok (k x)) ->
  steady ok (and_bind c h k).
Proof.
  intros Hc Hh Hk. apply (steady_bind is_ok); [done| |].
  - intros [e|x] w; [|done]. intros Hok. by destruct (Hh e w).
  - intros [e|x]; [done|]. intros _. apply Hk.
Qed.

Lemma steady_gets {A} ok (f : World -> A) : (forall w, f (sunny w) = f w) -> steady ok (gets f).
Proof. intros Hf w _. unfold gets. cbn. by rewrite Hf. Qed.

(** the calls *)
Ltac steady_call :=
  let w := fresh "w" in
  intros w; destruct w as [wd wa wf wn wt wfs]; unfold sunny, set_faults, no_err, is_ok;
  destruct wfs as [|[|?] ?]; cbn; unfold file_ino, next_outcome; cbn; try done;
  repeat (case_match; simplify_eq/=; try done).

Lemma Write_steady f p : steady no_err (file_Write f p).
Proof. unfold file_Write. steady_call. Qed.
Lemma Sync_steady f : steady no_err (file_Sync f).
Proof. unfold file_Sync. steady_call. Qed.
Lemma Close_steady f : steady no_err (file_Close f).
Proof. unfold file_Close. steady_call. Qed.
Lemma Rename_steady a b : steady no_err (os_Rename a b).
Proof. unfold os_Rename. steady_call. Qed.
Lemma Remove_steady a : steady no_err (os_Remove a).
Proof. unfold os_Remove. steady_call. Qed.
Lemma Open_steady a : steady is_ok (os_Open a).
Proof. unfold os_Open, gets, mbind, IO_bind, new_handle, ret. steady_call. Qed.
Lemma Create_steady a : steady is_ok (os_Create a).
Proof. unfold os_Create, gets, mbind, IO_bind, new_inode, new_handle, ret. steady_call. Qed.
Lemma OpenAppend_steady a : steady is_ok (os_OpenAppend a).
Proof. unfold os_OpenAppend, gets, mbind, IO_bind, new_inode, new_handle, ret. steady_call. Qed.
Lemma Next_steady it : steady anything (Iterator_Next it).
Proof. intros w _. unfold Iterator_Next. change (file_data (sunny w)) with (file_data w). by destruct (file_data w _). Qed.

#[local] Hint Resolve Write_steady Sync_steady Close_steady Rename_steady Remove_steady Open_steady
  Create_steady OpenAppend_steady Next_steady steady_ret : steady.

Ltac no_success := let e := fresh "e" in let w := fresh "w" in let E := fresh "E" in
  intros e w E; cbn in E; first [discriminate E|contradiction E|exact (match E with end)].

(** one command of a program *)
Ltac steady_step :=
  first
    [ apply steady_ret
    | apply steady_and_then; [solve [eauto with steady]|no_success|]
    | apply steady_and_bind; [solve [eauto with steady]|no_success|intros]
    | apply steady_any; [first [apply steady_gets; intros; reflexivity|solve [eauto with steady]]|intros]
    | solve [eauto with steady] ].

Section programs.
Context `{Murmur3} `{Runtime}.

Lemma NewWAL_steady p : steady is_ok (NewWAL p).
Proof.
  unfold NewWAL. apply (steady_bind is_ok); [eauto with steady|by intros [e|f] w|].
  intros [e|f] ?; apply steady_ret.
Qed.

Lemma WriteEntry_steady wl k v : steady (fun r => r.1 = None) (WAL_WriteEntry wl k v).
Proof.
  unfold WAL_WriteEntry. apply (steady_bind no_err); [eauto with steady|by intros [e|] w|].
  intros ? ->. apply (steady_bind no_err); [eauto with steady|by intros [e|] w|].
  intros ? _. apply steady_ret.
Qed.

Lemma NewBuilder_steady name : steady is_ok (NewBuilder name).
Proof. unfold NewBuilder. repeat steady_step. Qed.

Lemma Builder_Add_steady b k v : steady (fun r => r.1 = None) (Builder_Add b k v).
Proof. unfold Builder_Add, binary_Write. repeat steady_step. Qed.

Lemma write_entries_steady f idx : steady no_err (write_entries f idx).
Proof.
  induction idx as [|x idx IH]; cbn [write_entries]; [apply steady_ret|].
  unfold binary_Write. repeat steady_step.
Qed.

Lemma writeIndex_steady b : steady no_err (Builder_writeIndex b).
Proof. unfold Builder_writeIndex, binary_Write. repeat steady_step. apply write_entries_steady. Qed.
#[local] Hint Resolve NewWAL_steady NewBuilder_steady writeIndex_steady : steady.

Lemma Finish_steady b : steady no_err (Builder_Finish b).
Proof.
  unfold Builder_Finish, binary_Write. destruct (add_hashes _ _) as [bf|]; [|apply steady_ret].
  assert (forall e w, ~ no_err ((_ ← Builder_cleanup b; ret (Some e)) w).1) as Hfail.
  { intros e w. unfold mbind, IO_bind. by destruct (Builder_cleanup b w). }
  repeat (apply steady_and_then; [solve [eauto with steady]|exact Hfail|]). apply steady_ret.
Qed.

Lemma add_entries_steady es : forall b, steady (fun r => r.1 = None) (add_entries b es).
Proof.
  induction es as [|[k v] es IH]; intros b; cbn [add_entries]; [apply steady_ret|].
  apply (steady_bind (fun r => r.1 = None)); [apply Builder_Add_steady| |].
  - intros [[e|] b'] w; [|done]. unfold mbind, IO_bind. by destruct (Builder_cleanup b' w).
  - intros [r b'] E. cbn in E. subst r. apply IH.
Qed.

Lemma Builder_Flush_steady b sl : steady no_err (Builder_Flush b sl).
Proof.
  unfold Builder_Flush. destruct (SkipList_entries sl) as [es|]; [|apply steady_ret].
  apply (steady_bind (fun r => r.1 = None)); [apply add_entries_steady|by intros [[e|] b'] w|].
  intros [r b'] E. cbn in E. subst r. apply Finish_steady.
Qed.

Lemma merge_seed_steady its : forall i h, steady anything (merge_seed i its h).
Proof.
  induction its as [|it its IH]; intros i h; cbn [merge_seed]; [apply steady_ret|].
  apply steady_any; [eauto with steady|]. intros [[|] it'].
  - apply steady_any; [apply IH|]. intros [r [rest h']]. apply steady_ret.
  - destruct (Iterator_Error it'); [apply steady_ret|].
    apply steady_any; [apply IH|]. intros [r [rest h']]. apply steady_ret.
Qed.

Lemma merge_loop_steady fuel : forall its h last b,
  steady (fun r => r.1 = None) (merge_loop fuel its h last b).
Proof.
  induction fuel as [|fuel IH]; intros its h last b; cbn [merge_loop]; [apply steady_ret|].
  destruct (length h =? 0)%nat; [apply steady_ret|].
  destruct (heap_Pop h) as [[item h1]|]; [|apply steady_ret].
  set (fresh := match last with None => true | Some k => negb (bytes_eqb k (mi_key item)) end).
  apply (steady_bind (fun r => r.1 = None)).
  - destruct fresh; [apply Builder_Add_steady|apply steady_ret].
  - by intros [[e|] b'] w.
  - intros [r b'] E. cbn in E. subst r. destruct (its !! mi_iter item) as [it|]; [|apply steady_ret].
    apply steady_any; [eauto with steady|]. intros [[|] it']; [apply IH|].
    destruct (Iterator_Error it'); [apply steady_ret|apply IH].
Qed.

Lemma Merge_steady its b : steady no_err (Merge its b).
Proof.
  unfold Merge. apply steady_any; [by apply steady_gets|]. intros fuel.
  apply steady_any; [apply merge_seed_steady|]. intros [[e|] [its' h]]; [apply steady_ret|].
  apply (steady_bind (fun r => r.1 = None)); [apply merge_loop_steady|by intros [[e|] b'] w|].
  intros [r b'] E. cbn in E. subst r. apply Finish_steady.
Qed.

Lemma NewReader_steady name : steady is_ok (NewReader name).
Proof.
  unfold NewReader. repeat steady_step. destruct (loadIndex _) as [e|[index filter]]; [|apply steady_ret].
  intros w. unfold mbind, IO_bind. by destruct (file_Close _ w).
Qed.

Lemma NewIterator_steady r : steady is_ok (NewIterator r).
Proof. unfold NewIterator. repeat steady_step. Qed.

Lemma make_iters_steady rs : steady is_ok (make_iters rs).
Proof.
  induction rs as [|r rs IH]; cbn [make_iters]; [apply steady_ret|].
  apply steady_and_bind; [apply NewIterator_steady|no_success|intros].
  apply steady_and_bind; [exact IH|no_success|intros]. apply steady_ret.
Qed.
End programs.
#[local] Hint Resolve NewWAL_steady WriteEntry_steady NewBuilder_steady NewReader_steady make_iters_steady
  Merge_steady Builder_Flush_steady : steady.

(** ** Runs that fail

    What holds of the world throughout a run, whatever the outcomes of the calls. *)

Definition keeps {A} (R : World -> Prop) (m : IO A) : Prop := forall w, R w -> R (m w).2.

Lemma keeps_ret {A} R (a : A) : keeps R (ret a).
Proof. by intros w Hw. Qed.

Lemma keeps_bind {A B} R (m : IO A) (k : A -> IO B) :
  keeps R m -> (forall a, keeps R (k a)) -> keeps R (m ≫= k).
Proof.
  intros Hm Hk w Hw. specialize (Hm w Hw). unfold mbind, IO_bind. destruct (m w) as [a w1].
  by apply (Hk a w1).
Qed.

Lemma keeps_and_then {A} R (c : IO err) (h : error -> IO A) k :
  keeps R c -> (forall e, keeps R (h e)) -> keeps R k -> keeps R (and_then c h k).
Proof. intros Hc Hh Hk. apply keeps_bind; [done|]. intros [e|]; [apply Hh|apply Hk]. Qed.

Lemma keeps_and_bind {T A} R (c : IO (result T)) (h : error -> IO A) k :
  keeps R c -> (forall e, keeps R (h e)) -> (forall x, keeps R (k x)) -> keeps R (and_bind c h k).
Proof. intros Hc Hh Hk. apply keeps_bind; [done|]. intros [e|x]; [apply Hh|apply Hk]. Qed.

Lemma keeps_gets {A} R (f : World -> A) : keeps R (gets f).
Proof. by intros w Hw. Qed.

Create HintDb keeps.
#[local] Hint Resolve keeps_ret keeps_gets : keeps.

Ltac keeps_step :=
  first
    [ solve [eauto with keeps]
    | apply keeps_and_then; [solve [eauto with keeps]|intros|]
    | apply keeps_and_bind; [solve [eauto with keeps]|intros|intros]
    | apply keeps_bind; [solve [eauto with keeps]|intros] ].

(** the world before a part; nothing that was on the disk is overwritten *)
Record intact (w0 w : World) : Prop := {
  in_wf : wf_world w;
  in_inj : dir_inj w;
  in_data : w_data w0 ⊆ w_data w
}.

(** [f] is a new file *)
Definition own (w0 : World) (f : File) (w : World) : Prop :=
  forall j, file_ino w f = Some j -> w_data w0 !! j = None.

Definition only_name (w0 : World) (tmp : string) (w : World) : Prop :=
  forall s, s <> tmp -> w_dir w !! s = w_dir w0 !! s.

(** the world while a table is written *)
Definition drafting (w0 : World) (f : File) (tmp : string) (w : World) : Prop :=
  intact w0 w /\ own w0 f w /\ only_name w0 tmp w.

Lemma outcome_cases w : exists o fs, next_outcome w = (o, set_faults fs w).
Proof.
  destruct w as [d a f n t [|o fs]]; [exists Succeeds, []|exists o, fs]; done.
Qed.

Lemma faults_wf fs w : wf_world w -> wf_world (set_faults fs w).
Proof. intros [H1 H2 H3 H4]. by split. Qed.

Lemma faults_intact w0 fs w : intact w0 w -> intact w0 (set_faults fs w).
Proof. intros [H1 H2 H3]. split; [by apply faults_wf|done|done]. Qed.

(** Files that are closed. *)
Lemma wf_close w f : wf_world w -> wf_world (set_fds (delete f (w_fds w)) w).
Proof.
  intros [H1 H2 H3 H4]. split; cbn; try done.
  - intros n Hn. rewrite lookup_delete_None. right. by apply H1.
  - intros g i [_ Hg]%lookup_delete_Some. by apply (H4 g).
Qed.

Lemma wf_write w i d : wf_world w -> is_Some (w_data w !! i) -> wf_world (with_data i d w).
Proof.
  intros [H1 H2 H3 H4] [old Ho]. split; cbn; try done.
  - intros n Hn. rewrite lookup_insert_ne; [by apply H2|]. intros <-. rewrite H2 in Ho by done. done.
  - intros s j Hj. destruct (decide (j = i)) as [->|]; [by rewrite lookup_insert_eq|].
    rewrite lookup_insert_ne by done. by eapply H3.
  - intros g j Hj. destruct (decide (j = i)) as [->|]; [by rewrite lookup_insert_eq|].
    rewrite lookup_insert_ne by done. by eapply H4.
Qed.

Lemma wf_remove w s : wf_world w -> wf_world (set_dir (delete s (w_dir w)) w).
Proof. intros [H1 H2 H3 H4]. split; cbn; try done. intros s' i [_ Hs]%lookup_delete_Some. by eapply H3. Qed.

Lemma inj_remove w s : dir_inj w -> dir_inj (set_dir (delete s (w_dir w)) w).
Proof. intros Hi s1 s2 i. cbn. rewrite !lookup_delete_Some. intros [_ H1] [_ H2]. by eapply Hi. Qed.

Lemma wf_rename w a b i :
  wf_world w -> w_dir w !! a = Some i -> wf_world (set_dir (<[b := i]> (delete a (w_dir w))) w).
Proof.
  intros [H1 H2 H3 H4] Ha. split; cbn; try done.
  intros s j [[_ <-]|[_ [_ Hs]%lookup_delete_Some]]%lookup_insert_Some; by eapply H3.
Qed.

Lemma inj_rename w a b i :
  dir_inj w -> w_dir w !! a = Some i -> dir_inj (set_dir (<[b := i]> (delete a (w_dir w))) w).
Proof.
  intros Hi Ha s1 s2 j. cbn. rewrite !lookup_insert_Some, !lookup_delete_Some.
  intros [[<- <-]|[Hn1 [Hd1 H1]]] [[<- Ej]|[Hn2 [Hd2 H2]]]; try done.
  - exfalso. apply Hd2. by eapply Hi.
  - subst j. exfalso. apply Hd1. by eapply Hi.
  - by eapply Hi.
Qed.

(** *** The calls *)

Lemma intact_close w0 w f : intact w0 w -> intact w0 (set_fds (delete f (w_fds w)) w).
Proof. intros [H1 H2 H3]. split; [by apply wf_close|done|done]. Qed.

Lemma intact_write w0 w f i d :
  intact w0 w -> own w0 f w -> file_ino w f = Some i -> intact w0 (with_data i d w).
Proof.
  intros [H1 H2 H3] Ho Hi. split; [by apply wf_write; [|eapply ww_open]|done|].
  cbn. by apply insert_subseteq_r; [apply Ho|].
Qed.

Lemma own_close w0 f w g : own w0 f w -> own w0 f (set_fds (delete g (w_fds w)) w).
Proof. intros Ho j. unfold file_ino. cbn. intros [_ Hj]%lookup_delete_Some. by apply Ho. Qed.

Section calls.
Context (w0 : World) (f : File) (tmp : string).
Abbreviation D := (drafting w0 f tmp).

Lemma drafting_faults fs w : D w -> D (set_faults fs w).
Proof. intros (H1 & H2 & H3). split; [by apply faults_intact|done]. Qed.

Lemma Write_keeps p : keeps D (file_Write f p).
Proof.
  intros w HD. unfold file_Write. destruct (file_ino w f) as [i|] eqn:Ei; [|done].
  destruct (outcome_cases w) as (o & fs & ->). apply (drafting_faults fs) in HD.
  assert (forall d, D (with_data i d (set_faults fs w))) as Hd.
  { intros d. destruct HD as (H1 & H2 & H3). split; [by eapply intact_write|done]. }
  destruct o; apply Hd.
Qed.

Lemma Sync_keeps g : keeps D (file_Sync g).
Proof.
  intros w HD. unfold file_Sync. destruct (file_ino w g); [|done].
  destruct (outcome_cases w) as (o & fs & ->). by apply (drafting_faults fs).
Qed.

Lemma Close_keeps g : keeps D (file_Close g).
Proof.
  intros w HD. unfold file_Close. destruct (file_ino w g); [|done].
  destruct (outcome_cases w) as (o & fs & ->). apply (drafting_faults fs) in HD.
  destruct HD as (H1 & H2 & H3). split; [by apply intact_close|split; [by apply own_close|done]].
Qed.

Lemma Remove_keeps : keeps D (os_Remove tmp).
Proof.
  intros w HD. unfold os_Remove. destruct (w_dir w !! tmp); [|done].
  destruct (outcome_cases w) as (o & fs & ->). apply (drafting_faults fs) in HD.
  destruct HD as ([H1 H2 H3] & H4 & H5). destruct o; [|done].
  split; [split; [by apply wf_remove|by apply inj_remove|done]|split; [done|]].
  intros s Hs. cbn. rewrite lookup_delete_ne by done. by apply H5.
Qed.

Lemma Rename_drafting final :
  triple D (os_Rename tmp final) (fun r w => match r with Some _ => D w | None => intact w0 w end).
Proof.
  intros w HD. unfold os_Rename. destruct (w_dir w !! tmp) as [i|] eqn:Ei; [|done].
  destruct (outcome_cases w) as (o & fs & ->). apply (drafting_faults fs) in HD.
  destruct o; [|done]. destruct HD as ([H1 H2 H3] & H4 & H5).
  split; [by eapply wf_rename|by eapply inj_rename|done].
Qed.

#[local] Hint Resolve Write_keeps Sync_keeps Close_keeps Remove_keeps : keeps.

(** *** The builder *)

Context `{Murmur3}.

Definition draft_of (b : Builder) : Prop := b_file b = f /\ b_tmpFilename b = tmp.

Lemma cleanup_keeps b : draft_of b -> keeps D (Builder_cleanup b).
Proof. intros [H1 H2]. unfold Builder_cleanup. rewrite H1, H2. repeat keeps_step. Qed.

Lemma write_entries_keeps idx : keeps D (write_entries f idx).
Proof.
  induction idx as [|x idx IH]; cbn [write_entries]; unfold binary_Write; repeat keeps_step.
Qed.
#[local] Hint Resolve write_entries_keeps : keeps.

Lemma Builder_Add_keeps b k v : draft_of b -> keeps D (Builder_Add b k v).
Proof. intros [H1 H2]. unfold Builder_Add, binary_Write. rewrite H1. repeat keeps_step. Qed.

Lemma Builder_Add_draft b k v w : draft_of b -> draft_of (Builder_Add b k v w).1.2.
Proof.
  intros [H1 H2]. unfold Builder_Add, and_then, mbind, IO_bind, binary_Write.
  set (b1 := if _ || _ then _ else _). assert (draft_of b1) as Hb by (unfold b1; destruct (_ || _); done).
  clearbody b1. repeat (destruct (file_Write _ _ _) as [[?|] ?]; [done|]). exact Hb.
Qed.

(** A failed [Finish] leaves the names alone. *)
Definition finished (r : err) (w : World) : Prop := intact w0 w /\ (r <> None -> only_name w0 tmp w).

Lemma drafting_finished r w : D w -> finished r w.
Proof. by intros (? & ? & ?). Qed.

Lemma Finish_finished b : draft_of b -> triple D (Builder_Finish b) finished.
Proof.
  intros Hb. pose proof Hb as [H1 H2]. unfold Builder_Finish, Builder_writeIndex, binary_Write.
  destruct (add_hashes _ _) as [bf|]; [|by apply triple_ret; apply drafting_finished].
  rewrite H1, H2. set (fail := fun e : error => _ : IO err).
  assert (forall e, triple D (fail e) finished) as Hfail.
  { intros e w HD. apply drafting_finished. unfold fail.
    apply (keeps_bind _ _ _ (cleanup_keeps b Hb)); [intros; apply keeps_ret|done]. }
  clearbody fail.
  assert (forall (c : IO err) k, keeps D c -> triple D k finished -> triple D (and_then c fail k) finished) as Hstep.
  { intros c k Hc Hk. apply (triple_and_then _ _ _ _ (fun _ => D) D); [|apply Hfail|done].
    intros w HD. specialize (Hc w HD). by destruct (c w).1. }
  repeat (apply Hstep; [solve [repeat keeps_step]|]).
  apply (triple_and_then _ _ _ _ (fun _ => D) (intact w0)); [apply Rename_drafting|apply Hfail|].
  apply triple_ret. by intros w Hi.
Qed.

(** The builder's file is still the draft after the entries, or they failed. *)
Lemma add_entries_keeps es : forall b, draft_of b -> 
  triple D (add_entries b es) (fun r w => D w /\ draft_of r.2).
Proof.
  induction es as [|[k v] es IH]; intros b Hb; cbn [add_entries]; [by apply triple_ret|].
  intros w HD. unfold mbind, IO_bind. pose proof (Builder_Add_keeps b k v Hb w HD) as HD1.
  pose proof (Builder_Add_draft b k v w Hb) as Hb1.
  destruct (Builder_Add b k v w) as [[[e|] b1] w1]; cbn in *; [|by apply IH].
  pose proof (cleanup_keeps b1 Hb1 w1 HD1) as HD2. by destruct (Builder_cleanup b1 w1) as [u w2].
Qed.

Lemma Builder_Flush_finished b sl : draft_of b -> triple D (Builder_Flush b sl) finished.
Proof.
  intros Hb. unfold Builder_Flush. destruct (SkipList_entries sl) as [es|].
  - eapply triple_bind; [by apply add_entries_keeps|]. intros [[e|] b'] w [HD Hb'].
    + by apply drafting_finished.
    + by apply (Finish_finished b').
  - apply triple_ret. intros w. apply drafting_finished.
Qed.

Lemma Next_keeps it : keeps D (Iterator_Next it).
Proof. intros w HD. unfold Iterator_Next. by destruct (file_data w (it_file it)). Qed.
#[local] Hint Resolve Next_keeps : keeps.

Lemma merge_seed_keeps its : forall i h, keeps D (merge_seed i its h).
Proof.
  induction its as [|it its IH]; intros i h; cbn [merge_seed]; [apply keeps_ret|].
  apply keeps_bind; [apply Next_keeps|]. intros [[|] it'].
  - apply keeps_bind; [apply IH|]. intros [r [rest h']]. apply keeps_ret.
  - destruct (Iterator_Error it'); [apply keeps_ret|].
    apply keeps_bind; [apply IH|]. intros [r [rest h']]. apply keeps_ret.
Qed.

Lemma merge_loop_keeps fuel : forall its h last b, draft_of b ->
  triple D (merge_loop fuel its h last b) (fun r w => D w /\ draft_of r.2).
Proof.
  induction fuel as [|fuel IH]; intros its h last b Hb; cbn [merge_loop]; [by apply triple_ret|].
  destruct (length h =? 0)%nat; [by apply triple_ret|].
  destruct (heap_Pop h) as [[item h1]|]; [|by apply triple_ret].
  set (fresh := match last with None => true | Some k => negb (bytes_eqb k (mi_key item)) end).
  apply (triple_bind _ _ _ (fun r w => D w /\ draft_of r.2)).
  - intros w HD. destruct fresh; [|done].
    split; [by apply Builder_Add_keeps|by apply Builder_Add_draft].
  - intros [[e|] b1] w [HD Hb1]; [done|]. cbn [snd] in Hb1.
    destruct (its !! mi_iter item) as [it|]; [|done]. unfold mbind, IO_bind.
    pose proof (Next_keeps it w HD) as HD1. destruct (Iterator_Next it w) as [[[|] it'] w1]; cbn in HD1.
    + by apply IH.
    + destruct (Iterator_Error it'); [done|by apply IH].
Qed.

Lemma Merge_finished its b : draft_of b -> triple D (Merge its b) finished.
Proof.
  intros Hb. unfold Merge.
  apply (triple_bind _ _ _ (fun _ => D)); [by intros w HD|]. intros fuel.
  apply (triple_bind _ _ _ (fun _ => D)); [intros w HD; by apply merge_seed_keeps|].
  intros [[e|] [its' h]]; [intros w; apply drafting_finished|].
  eapply triple_bind; [by apply merge_loop_keeps|]. intros [[e|] b'] w [HD Hb'].
  - by apply drafting_finished.
  - by apply (Finish_finished b').
Qed.
End calls.

(** *** Reading *)

Definition same_disk (w0 w : World) : Prop :=
  w_dir w = w_dir w0 /\ w_data w = w_data w0 /\ wf_world w.

Lemma same_disk_faults w0 fs w : same_disk w0 w -> same_disk w0 (set_faults fs w).
Proof. intros (H1 & H2 & H3). split; [done|]. split; [done|by apply faults_wf]. Qed.

Lemma same_disk_intact w0 w : dir_inj w0 -> same_disk w0 w -> intact w0 w.
Proof.
  intros Hi (H1 & H2 & H3). split; [done| |by rewrite H2].
  intros s1 s2 i. rewrite H1. apply Hi.
Qed.

Lemma same_disk_only w0 w tmp : same_disk w0 w -> only_name w0 tmp w.
Proof. intros (H1 & _) s _. by rewrite H1. Qed.

Lemma Open_same w0 name : keeps (same_disk w0) (os_Open name).
Proof.
  intros w Hw. unfold os_Open, gets, mbind, IO_bind. destruct (w_dir w !! name) as [i|] eqn:Ei; [|done].
  destruct (outcome_cases w) as (o & fs & ->). apply (same_disk_faults w0 fs) in Hw.
  destruct o; [|done]. destruct Hw as (H1 & H2 & H3). split; [done|]. split; [done|].
  apply (wf_opened i (set_faults fs w) H3). by apply (ww_dir _ H3 name).
Qed.

Lemma Close_same w0 f : keeps (same_disk w0) (file_Close f).
Proof.
  intros w Hw. unfold file_Close. destruct (file_ino w f); [|done].
  destruct (outcome_cases w) as (o & fs & ->). apply (same_disk_faults w0 fs) in Hw.
  destruct Hw as (H1 & H2 & H3). split; [done|]. split; [done|by apply wf_close].
Qed.
#[local] Hint Resolve Open_same Close_same : keeps.

Lemma NewReader_same w0 name : keeps (same_disk w0) (NewReader name).
Proof.
  unfold NewReader. repeat keeps_step.
  destruct (loadIndex _) as [e|[idx flt]]; repeat keeps_step.
Qed.

Lemma make_iters_same w0 rs : keeps (same_disk w0) (make_iters rs).
Proof.
  induction rs as [|r rs IH]; cbn [make_iters]; [apply keeps_ret|]. unfold NewIterator.
  apply keeps_and_bind; [repeat keeps_step|intros; apply keeps_ret|intros].
  repeat keeps_step.
Qed.

(** *** Building a table *)

Lemma NewBuilder_draft final w :
  wf_world w -> dir_inj w -> w_dir w !! tmp_name final (w_now w) = None ->
  let tmp := tmp_name final (w_now w) in
  match NewBuilder final w with
  | (inl _, w1) => same_disk w w1
  | (inr b, w1) => exists f, draft_of f tmp b /\ drafting w f tmp w1
  end.
Proof.
  intros Hw Hinj Hnew. cbn. unfold NewBuilder, and_bind, os_Create, gets, mbind, IO_bind.
  destruct (outcome_cases w) as (o & fs & ->). destruct o; [|by split; [|split; [|apply faults_wf]]].
  cbn [set_faults w_dir]. rewrite Hnew. unfold new_inode, new_handle, ret. cbn.
  eexists. split; [by split|]. pose proof Hw as [H1 H2 H3 H4].
  assert (w_data w !! w_next w = None) as Hd by (apply H2; lia). split; [split|split].
  - split; cbn.
    + intros n Hn. rewrite lookup_insert_ne by lia. apply H1. lia.
    + intros n Hn. rewrite lookup_insert_ne by lia. apply H2. lia.
    + intros s i [[_ <-]|[_ Hs]]%lookup_insert_Some; [by rewrite lookup_insert_eq|].
      pose proof (wf_dir_lt w s i Hw Hs). rewrite lookup_insert_ne by lia. by eapply H3.
    + intros g i [[_ <-]|[_ Hg]]%lookup_insert_Some; [by rewrite lookup_insert_eq|].
      pose proof (wf_open_lt w g i Hw Hg). rewrite lookup_insert_ne by lia. by eapply H4.
  - intros s1 s2 i. cbn. rewrite !lookup_insert_Some.
    intros [[<- <-]|[_ G1]] [[<- E]|[_ G2]]; try done;
      [pose proof (wf_dir_lt _ _ _ Hw G2)|pose proof (wf_dir_lt _ _ _ Hw G1)|by eapply Hinj]; lia.
  - cbn. by apply insert_subseteq.
  - intros j. unfold file_ino. cbn. rewrite lookup_insert_eq. by intros [= <-].
  - intros s Hs. cbn. by rewrite lookup_insert_ne.
Qed.

Section build.
Context `{Murmur3} `{Runtime}.

(** what a build that stopped leaves: no table, or the table of a whole build *)
Definition build_left (w : World) (tmp : string) (ws w' : World) : Prop :=
  intact w w' /\ (only_name w tmp w' \/ same_disk ws w').

Lemma same_build_left w tmp ws w1 :
  dir_inj w -> same_disk w w1 -> build_left w tmp ws w1.
Proof.
  intros Hi Hs. split; [by apply same_disk_intact|]. left. by apply same_disk_only.
Qed.

Lemma intact_published w0 w2 w' : intact w0 w2 -> same_disk w2 w' -> intact w0 w'.
Proof.
  intros [H1 H2 H3] (E1 & E2 & E3). split; [done| |by rewrite E2].
  intros s1 s2 i. rewrite E1. apply H2.
Qed.

Lemma flush_build_died db w b w' rd v ws :
  let tmp := tmp_name (sst_name (w_now w)) (w_now w) in
  wf_world w -> dir_inj w -> w_dir w !! tmp = None ->
  flush_build db (sunny w) = (Built rd v, ws) -> flush_build db w = (b, w') ->
  build_left w tmp ws w'.
Proof.
  intros tmp Hw Hi Hnew. unfold flush_build, gets. unfold mbind, IO_bind, and_bind, and_then.
  change (w_now (sunny w)) with (w_now w). change (tmp_name _ _) with tmp in Hnew.
  pose proof (NewBuilder_draft (sst_name (w_now w)) w Hw Hi Hnew) as Hb. cbn zeta in Hb.
  pose proof (NewBuilder_steady (sst_name (w_now w)) w) as Hst.
  unfold mbind, IO_bind. destruct (NewBuilder (sst_name (w_now w)) w) as [[e|bd] w1].
  { intros _ [= <- <-]. by apply same_build_left. }
  rewrite (Hst Logic.I). cbn [fst snd]. clear Hst. destruct Hb as (f & Hd & HD).
  destruct (db_immutableMemtable db) as [imm|]; [|done].
  pose proof (Builder_Flush_finished w f tmp bd imm Hd w1 HD) as Hfin.
  pose proof (Builder_Flush_steady bd imm w1) as Hst.
  destruct (Builder_Flush bd imm w1) as [[e|] w2]; cbn [fst snd] in *.
  { intros _ [= <- <-]. destruct Hfin as [Hfi Hfn]. split; [done|left]. by apply Hfn. }
  rewrite (Hst eq_refl). clear Hst. destruct Hfin as [Hfi _].
  pose proof (NewReader_same w2 (sst_name (w_now w)) w2) as Hs.
  pose proof (NewReader_same (sunny w2) (sst_name (w_now w)) (sunny w2)) as Hs'.
  pose proof (NewReader_steady (sst_name (w_now w)) w2) as Hst.
  assert (forall x, same_disk w2 x -> same_disk (sunny w2) x) as Hsun by (intros x (?&?&?); by split).
  specialize (Hs ltac:(split; [done|split; [done|apply Hfi]])).
  specialize (Hs' ltac:(split; [done|split; [done|apply faults_wf, Hfi]])).
  destruct (NewReader (sst_name (w_now w)) w2) as [[e|reader] w3].
  - destruct (NewReader (sst_name (w_now w)) (sunny w2)) as [[e'|reader'] w3']; [done|].
    cbn [fst snd] in *. destruct (Reader_ReadAll w3' reader') as [e'|m'].
    { destruct (Reader_Close reader' w3') as [? w4'].
      destruct (os_Remove (sst_name (w_now w)) w4') as [? w5']. done. }
    intros [= _ _ <-] [= <- <-]. split; [by eapply intact_published|right].
    destruct Hs as (E1 & E2 & E3), Hs' as (E1' & E2' & _). split; [|split; [|done]]; cbn in *; congruence.
  - rewrite (Hst Logic.I) in Hs' |- *. cbn [fst snd] in *.
    change (Reader_ReadAll (sunny w3) reader) with (Reader_ReadAll w3 reader).
    destruct (Reader_ReadAll w3 reader) as [e'|m'].
    { destruct (Reader_Close reader (sunny w3)) as [? w4'].
      destruct (os_Remove (sst_name (w_now w)) w4') as [? w5']. done. }
    intros [= _ _ <-] [= <- <-]. split; [by eapply intact_published|right].
    split; [done|]. split; [done|]. apply Hs.
Qed.

Lemma make_iters_now t rs : keeps (fun w => w_now w = t) (make_iters rs).
Proof.
  assert (forall name, keeps (fun w => w_now w = t) (os_Open name)) as Ho.
  { intros name w Hw. unfold os_Open, gets, mbind, IO_bind. destruct (w_dir w !! name); [|done].
    destruct (outcome_cases w) as (o & fs & ->). by destruct o. }
  induction rs as [|r rs IH]; cbn [make_iters]; [apply keeps_ret|]. unfold NewIterator.
  apply keeps_and_bind; [repeat keeps_step|intros; apply keeps_ret|intros].
  repeat keeps_step.
Qed.

Lemma compaction_build_died files w r w' iters nr ws :
  let tmp := tmp_name (merged_path files) (w_now w) in
  wf_world w -> dir_inj w -> w_dir w !! tmp = None ->
  compaction_build files (sunny w) = (inr (iters, nr), ws) -> compaction_build files w = (r, w') ->
  build_left w tmp ws w'.
Proof.
  intros tmp Hw Hi Hnew. unfold compaction_build. unfold mbind, IO_bind, and_bind, and_then.
  pose proof (make_iters_same w (rev files) w ltac:(done)) as Hs1.
  pose proof (make_iters_now (w_now w) (rev files) w eq_refl) as Hn1.
  pose proof (make_iters_steady (rev files) w) as Hst.
  unfold mbind, IO_bind. destruct (make_iters (rev files) w) as [[e|its] w1]; cbn [fst snd] in *.
  { intros _ [= <- <-]. by apply same_build_left. }
  rewrite (Hst Logic.I). clear Hst.
  pose proof (same_disk_intact _ _ Hi Hs1) as [Hw1 Hi1 _]. destruct Hs1 as (Ed1 & Ea1 & _).
  assert (forall wx, build_left w1 tmp ws wx -> build_left w tmp ws wx) as Hback.
  { intros wx [[G1 G2 G3] G4]. split; [split; [done|done|by rewrite <- Ea1]|].
    destruct G4 as [G4|G4]; [left|by right]. intros s Hs. rewrite G4 by done. by rewrite Ed1. }
  intros Hsun Hrun. apply Hback. clear Hback. revert Hsun Hrun.
  assert (tmp = tmp_name (merged_path files) (w_now w1)) as Et by by rewrite Hn1.
  rewrite <- Ed1, Et in Hnew. rewrite Et. clear tmp Et.
  pose proof (NewBuilder_draft (merged_path files) w1 Hw1 Hi1 Hnew) as Hb. cbn zeta in Hb.
  pose proof (NewBuilder_steady (merged_path files) w1) as Hst.
  set (tmp := tmp_name (merged_path files) (w_now w1)) in *.
  destruct (NewBuilder (merged_path files) w1) as [[e|bd] w2]; cbn [fst snd] in *.
  { intros _ [= <- <-]. by apply same_build_left. }
  rewrite (Hst Logic.I). clear Hst. destruct Hb as (f & Hd & HD).
  pose proof (Merge_finished w1 f tmp its bd Hd w2 HD) as Hfin.
  pose proof (Merge_steady its bd w2) as Hst.
  destruct (Merge its bd w2) as [[e|] w3]; cbn [fst snd] in *.
  { intros _ [= <- <-]. destruct Hfin as [Hfi Hfn]. split; [done|left]. by apply Hfn. }
  rewrite (Hst eq_refl). clear Hst. destruct Hfin as [Hfi _].
  pose proof (NewReader_same w3 (merged_path files) w3) as Hs.
  pose proof (NewReader_same (sunny w3) (merged_path files) (sunny w3)) as Hs'.
  specialize (Hs ltac:(split; [done|split; [done|apply Hfi]])).
  specialize (Hs' ltac:(split; [done|split; [done|apply faults_wf, Hfi]])).
  destruct (NewReader (merged_path files) (sunny w3)) as [[e'|nr'] ws']; [done|]. cbn [fst snd] in *.
  intros [= _ _ <-] Hrun.
  assert (w' = (NewReader (merged_path files) w3).2) as ->.
  { by destruct (NewReader (merged_path files) w3) as [[e|x] w4]; injection Hrun. }
  split; [by eapply intact_published|right].
  destruct Hs as (E1 & E2 & E3), Hs' as (E1' & E2' & _). split; [|split; [|done]]; cbn in *; congruence.
Qed.

(** *** The other parts *)

(** fewer names and fewer open files, outside [names] nothing changes *)
Definition fewer (w0 : World) (names : list string) (w : World) : Prop :=
  w_data w = w_data w0 /\ w_dir w ⊆ w_dir w0 /\ wf_world w /\
  forall s, s ∉ names -> w_dir w !! s = w_dir w0 !! s.

Lemma fewer_close w0 names f : keeps (fewer w0 names) (file_Close f).
Proof.
  intros w Hw. unfold file_Close. destruct (file_ino w f); [|done].
  destruct (outcome_cases w) as (o & fs & ->). destruct Hw as (H1 & H2 & H3 & H4).
  split; [done|]. split; [done|]. split; [|done]. apply (wf_close (set_faults fs w)), faults_wf, H3.
Qed.

Lemma fewer_remove w0 names s : s ∈ names -> keeps (fewer w0 names) (os_Remove s).
Proof.
  intros Hs w Hw. unfold os_Remove. destruct (w_dir w !! s); [|done].
  destruct (outcome_cases w) as (o & fs & ->). destruct Hw as (H1 & H2 & H3 & H4).
  pose proof (faults_wf fs _ H3) as H3'. destruct o; [|done].
  split; [done|]. split; [cbn; etrans; [apply delete_subseteq|done]|].
  split; [by apply (wf_remove (set_faults fs w))|]. intros s' Hs'. cbn.
  rewrite lookup_delete_ne by (intros <-; done). by apply H4.
Qed.

Lemma cleanup_fewer w0 files its : keeps (fewer w0 (Reader_Path <$> files)) (compaction_cleanup files its).
Proof.
  assert (forall its, keeps (fewer w0 (Reader_Path <$> files)) (close_iters its)) as Hclose.
  { clear. intros its. induction its as [|it its IH]; cbn [close_iters]; [apply keeps_ret|].
    apply keeps_bind; [apply fewer_close|done]. }
  unfold compaction_cleanup. apply keeps_bind; [done|]. intros _. apply keeps_bind; [|done].
  assert (forall rs, rs ⊆ files -> keeps (fewer w0 (Reader_Path <$> files)) (delete_old rs)) as Hd; [|by apply Hd].
  intros rs. induction rs as [|r rs IH]; intros Hsub; cbn [delete_old]; [apply keeps_ret|].
  apply keeps_bind; [apply fewer_close|]. intros _. apply keeps_bind.
  - apply fewer_remove, list_elem_of_fmap_2, Hsub. by left.
  - intros _. apply IH. intros x Hx. apply Hsub. by right.
Qed.

(** *** The log *)

(** the next write is whole, or none of it is *)
Definition whole_write (fs : list outcome) : Prop :=
  match fs with Fails (S _) :: _ => False | _ => True end.

#[export] Instance whole_write_dec fs : Decision (whole_write fs).
Proof. destruct fs as [|[|[|?]] ?]; cbn; apply _. Defined.

Lemma WriteEntry_died wl k v w i d r wl' w' :
  file_ino w (wal_file wl) = Some i -> w_data w !! i = Some d ->
  WAL_WriteEntry wl k v w = ((r, wl'), w') ->
  let rec := wal_record (u64 (wal_sequenceNumber wl + 1)) (k, v) in
  exists m fs, w' = set_faults fs (with_data i (d ++ take m rec) w) /\
    (whole_write (w_faults w) -> m = 0%nat \/ (length rec <= m)%nat) /\
    (r = None -> (length rec <= m)%nat).
Proof.
  intros Hi Hd. unfold WAL_WriteEntry, mbind, IO_bind, file_Write. rewrite Hi.
  set (rec := wal_header _ k _ ++ _). change (wal_record _ _) with rec.
  assert (forall n w1, next_outcome w = (Fails n, w1) -> whole_write (w_faults w) -> n = 0%nat) as Hn.
  { intros n w1. unfold next_outcome. by destruct (w_faults w) as [|[|[|m]] ?]; intros [= <- _]. }
  destruct (outcome_cases w) as (o & fs & E). rewrite E. cbn [set_faults w_data]. rewrite Hd. cbn [default].
  destruct o as [|n].
  - unfold file_Sync, file_ino. cbn. unfold file_ino in Hi. rewrite Hi.
    destruct (outcome_cases (set_data (<[i := d ++ rec]> (w_data w)) (set_faults fs w))) as (o & fs' & E').
    cbn in E'. rewrite E'. intros [= <- <- <-]. exists (length rec), fs'. rewrite take_ge by done.
    split; [done|]. split; [by right|done].
  - intros [= <- <- <-]. exists n, fs. split; [done|]. split; [|done]. intros Hw. left. by eapply Hn.
Qed.

Lemma run_op_died o db w r db' w' i d :
  db_closed db = false -> file_ino w (wal_file (db_wal db)) = Some i -> w_data w !! i = Some d ->
  run_op o db w = ((r, db'), w') ->
  let rec := wal_record (u64 (wal_sequenceNumber (db_wal db) + 1)) (op_entry o) in
  exists m fs, w' = set_faults fs (with_data i (d ++ take m rec) w) /\
    (whole_write (w_faults w) -> m = 0%nat \/ (length rec <= m)%nat) /\
    (r = None -> (length rec <= m)%nat).
Proof.
  intros Hc Hi Hd.
  destruct o as [k v|k]; cbn [run_op op_entry]; unfold StrataGo_Put, StrataGo_Delete, mbind, IO_bind;
    rewrite Hc; destruct (WAL_WriteEntry _ k _ w) as [[r1 wl] w1] eqn:Ew;
    destruct (WriteEntry_died _ _ _ _ _ _ _ _ _ Hi Hd Ew) as (m & fs & -> & Hm & Hok);
    (destruct r1; intros E; pose proof (f_equal (fun x => x.1.1) E) as Er;
      apply (f_equal snd) in E; cbn [snd ret] in E; subst w'; exists m, fs;
      (split; [done|]); (split; [exact Hm|]); intros ->; first [discriminate Er|by apply Hok]).
Qed.

(** *** The rotation *)

Definition set_aside (i : ino) (dir : gmap string ino) : gmap string ino :=
  <[flushingName := i]> (delete walName dir).

Lemma set_aside_other i dir s : s <> walName -> s <> flushingName -> set_aside i dir !! s = dir !! s.
Proof. intros H1 H2. unfold set_aside. by rewrite lookup_insert_ne, lookup_delete_ne. Qed.

(** the log is where it was, or set aside, perhaps with a fresh one in its place *)
Definition rotation_left (w : World) (i : ino) (w' : World) : Prop :=
  wf_world w' /\ dir_inj w' /\ w_data w ⊆ w_data w' /\
  (forall s, ~ log_name s -> w_dir w' !! s = w_dir w !! s) /\
  (w_dir w' !! walName = Some i /\
     (w_dir w' !! flushingName = w_dir w !! flushingName \/ w_dir w' !! flushingName = None) \/
   w_dir w' !! flushingName = Some i /\
     match w_dir w' !! walName with Some j => w_data w' !! j = Some [] | None => True end).

Lemma log_name_ne s : ~ log_name s -> s <> walName /\ s <> flushingName.
Proof. unfold log_name. tauto. Qed.

Lemma same_rotation_left w i w' :
  dir_inj w -> w_dir w !! walName = Some i -> same_disk w w' -> rotation_left w i w'.
Proof.
  intros Hi Hd Hs. pose proof (same_disk_intact _ _ Hi Hs) as [H1 H2 H3]. destruct Hs as (E1 & E2 & _).
  split; [done|]. split; [done|]. split; [done|]. rewrite E1. split; [done|]. left. tauto.
Qed.

(** The log [i] has been renamed: a new log is opened, or the renaming undone. *)
Lemma NewWAL_rotated w1 w2 i db1 undone res w' :
  wf_world w2 -> dir_inj w2 -> w_data w2 = w_data w1 -> w_dir w2 !! walName = None ->
  w_dir w2 !! flushingName = Some i -> (forall s, ~ log_name s -> w_dir w2 !! s = w_dir w1 !! s) ->
  (r ← NewWAL walName;
   match r with
   | inl e => _ ← os_Rename flushingName walName; ret (Some (Some e), undone)
   | inr newWal => ret (None, set_wal newWal db1)
   end) w2 = (res, w') ->
  rotation_left w1 i w'.
Proof.
  intros Hw2 Hi2 Ea Hn Hfl Hoth. unfold NewWAL, os_OpenAppend, mbind, IO_bind.
  destruct (outcome_cases w2) as ([|n] & fs2 & E2); rewrite E2; unfold gets, ret.
  - cbn [set_faults w_dir]. rewrite Hn. unfold new_inode, new_handle. cbn. intros [= <- <-].
    pose proof (wf_publish walName [] w2 Hw2) as [G1 G2 G3 G4].
    assert (w_data w2 !! w_next w2 = None) as Hfresh by (apply (ww_data _ Hw2); lia).
    split; [|split; [|split; [|split]]].
    + split; cbn in *; [|intros k Hk; apply G2; lia|done|].
      * intros k Hk. rewrite lookup_insert_ne by lia. apply (ww_fds _ Hw2). lia.
      * intros g j [[_ <-]|[_ Hg]]%lookup_insert_Some; [by rewrite lookup_insert_eq|by eapply G4].
    + intros s1 s2 j. apply (inj_publish walName [] w2 Hw2 Hi2).
    + rewrite <- Ea. cbn. by apply insert_subseteq.
    + intros s Hs. cbn. rewrite lookup_insert_ne by (intros <-; apply Hs; by left). by apply Hoth.
    + right. cbn. split; [by rewrite lookup_insert_ne|]. by rewrite !lookup_insert_eq.
  - unfold os_Rename. cbn [set_faults w_dir]. rewrite Hfl.
    destruct (outcome_cases (set_faults fs2 w2)) as ([|n2] & fs3 & E3); cbn [set_faults w_dir] in E3; rewrite E3;
      intros [= <- <-]; (split; [|split; [|split; [by rewrite <- Ea|split]]]).
    + apply (wf_rename (set_faults fs3 w2)); [by apply faults_wf|done].
    + by apply (inj_rename (set_faults fs3 w2)).
    + intros s Hs. pose proof (log_name_ne s Hs) as [H1' H2']. cbn.
      rewrite lookup_insert_ne, lookup_delete_ne by congruence. by apply Hoth.
    + left. cbn. split; [apply lookup_insert_eq|right]. by rewrite lookup_insert_ne, lookup_delete_eq.
    + exact (faults_wf fs3 w2 Hw2).
    + done.
    + done.
    + right. cbn. split; [done|]. by rewrite Hn.
Qed.

Lemma rotate_died db w r db' w' i :
  wf_world w -> dir_inj w -> w_dir w !! walName = Some i ->
  flush_rotate db w = ((r, db'), w') -> rotation_left w i w'.
Proof.
  intros Hw Hinj Hi. unfold flush_rotate.
  assert (rotation_left w i w) as Hsame by by apply same_rotation_left.
  destruct (db_immutableMemtable db); [by intros [= <- <- <-]|].
  destruct (sl_Size _ =? 0); [by intros [= <- <- <-]|].
  unfold gets, and_then at 1 2. unfold mbind at 1 2 3. unfold IO_bind at 1 2 3, WAL_Close.
  pose proof (Close_same w (wal_file (db_wal db)) w ltac:(done)) as Hs.
  destruct (file_Close (wal_file (db_wal db)) w) as [[e|] w1]; cbn [snd] in Hs.
  { intros [= <- <- <-]. by apply same_rotation_left. }
  pose proof (same_disk_intact _ _ Hinj Hs) as [Hw1 Hi1 _].
  assert (forall x, rotation_left w1 i x -> rotation_left w i x) as Hback.
  { intros x. unfold rotation_left. destruct Hs as (E1 & E2 & _). by rewrite E1, E2. }
  destruct Hs as (E1 & _ & _). rewrite <- E1 in Hi. intros E. apply Hback. revert E.
  unfold os_Rename at 1. rewrite Hi. destruct (outcome_cases w1) as ([|n] & fs & ->).
  2: { intros [= <- <- <-]. apply same_rotation_left; [done|done|].
       split; [done|]. split; [done|by apply faults_wf]. }
  apply NewWAL_rotated; [| |done| | |].
  - apply (wf_rename (set_faults fs w1)); [by apply faults_wf|done].
  - by apply (inj_rename (set_faults fs w1)).
  - cbn. by rewrite lookup_insert_ne, lookup_delete_eq.
  - apply lookup_insert_eq.
  - intros s [H1' H2']%log_name_ne. by apply (set_aside_other i (w_dir w1)).
Qed.
End build.

(** ** Stopping *)

Section stopped.
Context `{Murmur3} `{Runtime}.

(** The process of [s] ends at a call of the part that runs next, or of the
    operation [o]: [w'] is what is left.  One case is left out: while the log of a
    flush is set aside, the record of an operation is written as a whole or not at
    all.  [Open] does not keep the data of a directory that has a cut record next
    to a log that was set aside ([torn_log_loses_flushed_data]). *)
Inductive dies : csys -> option op -> World -> Prop :=
| dies_op w db pc c o fs r db' w' :
    op_ok o -> wal_sequenceNumber (db_wal db) + 1 < 2 ^ 64 -> w_dir w !! flushingName = None \/ whole_write fs ->
    run_op o db (set_faults fs w) = ((r, db'), w') ->
    dies (mkCsys (mkSys w db pc) c) (Some o) (crash w')
| dies_rotate w db c fs r db' w' :
    mem_fits (db_activeMemtable db) -> flush_rotate db (set_faults fs w) = ((r, db'), w') ->
    dies (mkCsys (mkSys w db Idle) c) None (crash w')
| dies_build w db c fs b w' :
    clock_ok w db -> flush_build db (set_faults fs w) = (b, w') ->
    dies (mkCsys (mkSys w db Building) c) None (crash w')
| dies_remove w db c fs r w' :
    os_Remove flushingName (set_faults fs w) = (r, w') ->
    dies (mkCsys (mkSys w db Removing) c) None (crash w')
| dies_compact w db pc files fs r w' :
    w_dir w !! tmp_name (merged_path files) (w_now w) = None -> group_size w files < 2 ^ 31 ->
    compaction_build files (set_faults fs w) = (r, w') ->
    dies (mkCsys (mkSys w db pc) (CSelected files)) None (crash w')
| dies_cleanup w db pc files iters fs w' :
    compaction_cleanup files iters (set_faults fs w) = (tt, w') ->
    dies (mkCsys (mkSys w db pc) (CInstalled files iters)) None (crash w')
| dies_between s : dies s None (crash (s_world (c_sys s))).

Context (P : bytes -> option bytes -> Prop) (exact : Prop).

Lemma at_rest_same w w' : at_rest P (crash w) -> same_disk w w' -> at_rest P (crash w').
Proof.
  intros (log & tail & fl & Ts & Hd & Hg) (E1 & E2 & Hw). exists log, tail, fl, Ts. split; [|done].
  apply (disk_at_same (crash w)); try done. by destruct Hw as [H1 H2 H3 H4]; split.
Qed.

(** The log and the tables of a running engine are still there. *)
Lemma cinv_left s f log A I Ts w' :
  cinv P exact s f log A I Ts -> wf_world w' -> dir_inj w' ->
  w_dir w' !! walName = w_dir (s_world (c_sys s)) !! walName ->
  retains (s_world (c_sys s)) w' (fun s => s = walName \/ tracked s) -> at_rest P (crash w').
Proof.
  intros [Hl _ _ Hq _ _ Hsr _ _] Hw Hi Hd Hr. destruct s as [[w db pc] c]. cbn [c_sys s_world s_db] in *.
  pose proof (live_wal _ _ _ _ _ _ Hl) as (_ & Hseq & Hlok & i & Hdir & _ & d & Hdata & Hlg).
  assert (sourced P w' log I Ts) as [Hlog _ _ Hfl Hdisk].
  { apply (sourced_retains P w w' log); [done|apply Hsr|]. eapply retains_weaken; [exact Hr|by right]. }
  apply (stopped_at_rest P w' log []); try done; [|apply torn_stops, torn_nil].
  unfold log_file_ok. rewrite Hd, Hdir. exists d, (wal_sequenceNumber (db_wal db)).
  rewrite app_nil_r. split; [|done].
  destruct (Hr walName i (or_introl eq_refl)) as [_ E]; congruence.
Qed.

Lemma tmp_not_sst name now : HasSuffix (tmp_name name now) ".sst" = false.
Proof.
  unfold HasSuffix, tmp_name. rewrite !chars_app, !rev_app_distr. unfold Itoa. rewrite chars_of_chars.
  assert (exists l c, itoa_chars now = l ++ [digit_char c] /\ 0 <= c < 10) as (l & c & -> & Hc).
  { unfold itoa_chars.
    assert (forall n, 0 <= n -> exists l c, digit_char <$> nat_digits n = l ++ [digit_char c] /\ 0 <= c < 10) as Hd.
    { intros n Hn. pose proof (nat_digits_nonempty n) as Hne. pose proof (nat_digits_range n Hn) as Hr.
      destruct (nat_digits n) as [|c l _] using rev_ind; [done|]. rewrite Forall_app, Forall_singleton in Hr.
      destruct Hr as [_ Hr]. rewrite fmap_app. exists (digit_char <$> l), c. by split. }
    destruct (Z.ltb_spec now 0) as [Hneg|Hpos].
    - destruct (Hd (- now)) as (l & c & -> & Hc); [lia|]. by eexists (_ :: l), c.
    - destruct (Hd now) as (l & c & -> & Hc); [lia|]. by exists l, c. }
  rewrite rev_app_distr. cbn. apply digit_char_cases in Hc. rewrite !elem_of_cons, elem_of_nil in Hc.
  repeat destruct Hc as [->|Hc]; done.
Qed.

(** A draft is no table. *)
Lemma draft_left s f log A I Ts ts w' :
  cinv P exact s f log A I Ts -> intact (s_world (c_sys s)) w' ->
  only_name (s_world (c_sys s)) (tmp_name (sst_name ts) (w_now (s_world (c_sys s)))) w' ->
  at_rest P (crash w').
Proof.
  intros Hi [Hw Hinj Hd] Ho.
  apply (cinv_left s f log A I Ts); [done|done|done| |].
  - apply Ho, not_eq_sym, tmp_name_not_wal.
  - apply retains_data; [eapply live_wf, Hi| |done]. intros s' [->|[->|Hs]]; apply Ho.
    + apply not_eq_sym, tmp_name_not_wal.
    + apply not_eq_sym, tmp_name_not_flushing.
    + intros ->. by rewrite tmp_not_sst in Hs.
Qed.

Lemma fewer_left s f log A I Ts names w' :
  cinv P exact s f log A I Ts -> fewer (s_world (c_sys s)) names w' -> walName ∉ names ->
  at_rest P (crash w').
Proof.
  intros Hi (Ed & Hsub & Hw & Hsame) Hn. apply (cinv_left s f log A I Ts); [done|done| |by apply Hsame|].
  - intros s1 s2 i H1 H2.
    apply (live_inj _ _ _ _ _ _ (ci_live _ _ _ _ _ _ _ _ Hi) s1 s2 i); by eapply lookup_weaken.
  - intros s' i _ Hi'. rewrite Ed. split; [by eapply lookup_weaken|done].
Qed.

Lemma sunny_faults fs w : w_faults w = [] -> sunny (set_faults fs w) = w.
Proof. destruct w. cbn. by intros ->. Qed.

(** *** The parts, one by one *)

Lemma dies_op_left w db pc c f log A I Ts o fs r db' w' :
  cinv P exact (mkCsys (mkSys w db pc) c) f log A I Ts -> op_ok o -> good P (op_entry o) ->
  wal_sequenceNumber (db_wal db) + 1 < 2 ^ 64 -> w_dir w !! flushingName = None \/ whole_write fs ->
  run_op o db (set_faults fs w) = ((r, db'), w') -> at_rest P (crash w').
Proof.
  intros [Hl _ Hc _ _ _ [Hlog _ _ Hflush Hdisk] _ _] Hok Hg Hq Hfl E. cbn [c_sys s_world s_db] in *.
  pose proof (live_wf _ _ _ _ _ _ Hl) as Hw. pose proof (live_inj _ _ _ _ _ _ Hl) as Hinj.
  pose proof (live_wal _ _ _ _ _ _ Hl) as (_ & Hseq & Hlok & i & Hdir & Hi & d & Hdata & Hlg).
  destruct (run_op_died o db (set_faults fs w) r db' w' i d Hc Hi Hdata E) as (m & fs' & -> & Hwhole & _).
  revert Hwhole. unfold u64. rewrite Z.mod_small by lia. set (rec := wal_record _ _). cbn. intros Hwhole.
  set (w1 := with_data i (d ++ take m rec) (set_faults fs w)).
  assert (wf_world w1) as Hw1 by (apply wf_write; [by apply faults_wf|by exists d]).
  assert (tables_sourced P w1) as Hdisk1.
  { apply (tables_sourced_frame P w); [done|]. intros s j Hs Hj. left. split; [done|]. cbn.
    rewrite lookup_insert_ne; [done|]. intros <-. by rewrite (Hinj _ _ _ Hj Hdir) in Hs. }
  assert (log_file_ok w1 (if decide (length rec <= m)%nat then log ++ [op_entry o] else log)
    (if decide (length rec <= m)%nat then [] else take m rec) /\
    stops (if decide (length rec <= m)%nat then [] else take m rec)) as [Hlf Hst].
  { unfold log_file_ok. cbn. rewrite Hdir, lookup_insert_eq. case_decide as Hm.
    - split; [|apply torn_stops, torn_nil]. rewrite take_ge by done.
      exists (d ++ rec), (wal_sequenceNumber (db_wal db) + 1). split; [by rewrite app_nil_r|].
      split; [apply logged_snoc; [done|lia]|]. rewrite len_app. change (len [op_entry o]) with 1. lia.
    - split; [by exists d, (wal_sequenceNumber (db_wal db)); split_and!; try lia|].
      apply torn_stops. exists (wal_sequenceNumber (db_wal db) + 1), (op_entry o), m.
      split; [exact Hok|]. split; [lia|]. split; [exact (proj1 (Nat.nle_gt _ _) Hm)|done]. }
  eapply (stopped_at_rest P (set_faults fs' w1)); [by apply faults_wf|exact Hinj|exact Hlf|exact Hst
    |..|exact Hdisk1].
  - intros Ht. destruct Hfl as [Hfl|Hwh]; [exact Hfl|]. destruct Ht. case_decide as Hm; [done|].
    by destruct (Hwhole Hwh) as [->|?].
  - case_decide; [apply Forall_app; split; [done|by constructor]|done].
  - case_decide; [apply Forall_app; split; [done|by constructor]|done].
  - apply (flushing_sourced_frame P w); [done|]. right. split; [done|]. intros j Hj. cbn.
    rewrite lookup_insert_ne; [done|]. intros <-. by specialize (Hinj _ _ _ Hj Hdir).
Qed.

Lemma dies_rotate_left w db c f log A I Ts fs r db' w' :
  cinv P exact (mkCsys (mkSys w db Idle) c) f log A I Ts -> mem_fits (db_activeMemtable db) ->
  flush_rotate db (set_faults fs w) = ((r, db'), w') -> at_rest P (crash w').
Proof.
  intros Hi Hfit E. pose proof Hi as [Hl _ _ Hq _ _ Hsr _ _]. cbn [c_sys s_world s_db] in *.
  pose proof (live_wf _ _ _ _ _ _ Hl) as Hw. pose proof (live_inj _ _ _ _ _ _ Hl) as Hinj.
  pose proof (live_wal _ _ _ _ _ _ Hl) as Hwal.
  pose proof Hwal as (_ & Hseq & Hlok & i & Hdir & _ & d & Hdata & Hlg).
  destruct (rotate_died db _ r db' w' i (faults_wf fs w Hw) Hinj Hdir E) as (Hw' & Hinj' & Hsub & Hoth & Hcase).
  cbn [set_faults w_dir w_data] in *.
  assert (forall j x, w_data w !! j = Some x -> w_data w' !! j = w_data w !! j) as Hkeep
    by (intros j x Hj; rewrite Hj; by eapply lookup_weaken).
  assert (forall s j, w_dir w' !! s = Some j -> w_dir w' !! s = w_dir w !! s ->
    w_dir w !! s = Some j /\ w_data w' !! j = w_data w !! j) as Hret.
  { intros s j Hj Es. rewrite Es in Hj. destruct (ww_dir w Hw _ _ Hj) as [x Hx]. split; [done|by eapply Hkeep]. }
  destruct Hcase as [[Hwl Hf]|[Hfl Hwl]].
  - apply (cinv_left (mkCsys (mkSys w db Idle) c) f log A I Ts); try done; [by rewrite Hwl|].
    intros s j [->|Hs] Hj; cbn [c_sys s_world]; [apply Hret; [done|congruence]|].
    destruct (decide (s = flushingName)) as [->|Hne].
    + destruct Hf as [Hf|Hf]; [by apply Hret|congruence].
    + apply Hret; [done|]. apply Hoth. intros [->|?]; [by apply tracked_not_wal in Hs|done].
  - pose proof (lv_engine _ _ _ _ _ _ Hl) as He. pose proof (eo_active _ _ _ _ _ _ He) as Hact.
    cbn [set_readers db_activeMemtable] in Hact.
    apply (stopped_at_rest P w' [] []); try done; [|apply torn_stops, torn_nil| |].
    + unfold log_file_ok. destruct (w_dir w' !! walName) as [j|]; [|done].
      exists [], 0. split; [done|]. split; [apply logged_nil|]. unfold len. cbn. lia.
    + right. exists log. split; [|apply Hsr].
      apply (aside_flushing w w' (db_wal db) log A i); try done; [apply (eo_log _ _ _ _ _ _ He)
        |by eapply repr_sorted| |by eapply Hkeep].
      destruct Hfit as [Hb _]. rewrite (repr_size _ _ Hact) in Hb.
      unfold bloom_keys_ok, bitsPerKey in Hb. lia.
    + apply (tables_sourced_frame P w); [apply Hsr|]. intros s j Hs Hj. left. apply Hret; [done|].
      apply Hoth. intros [->|?]; [done|by subst s].
Qed.

(** A build that stopped. *)
Lemma build_left_at_rest s f log A I Ts ts s2 f2 log2 A2 I2 Ts2 w' :
  cinv P exact s f log A I Ts -> cinv P exact s2 f2 log2 A2 I2 Ts2 ->
  build_left (s_world (c_sys s)) (tmp_name (sst_name ts) (w_now (s_world (c_sys s))))
    (s_world (c_sys s2)) w' -> at_rest P (crash w').
Proof.
  intros Hi Hi2 [Hin [Ho|Hs]]; [exact (draft_left _ _ _ _ _ _ ts w' Hi Hin Ho)|].
  exact (at_rest_same _ _ (cinv_at_rest _ _ _ _ _ _ _ _ Hi2) Hs).
Qed.

Lemma build_left_faults w fs tmp ws w' : build_left (set_faults fs w) tmp ws w' -> build_left w tmp ws w'.
Proof. intros [[H1 H2 H3] H4]. split; [by split|done]. Qed.

Lemma dies_build_left w db c f log A I Ts fs b w' :
  cinv P exact (mkCsys (mkSys w db Building) c) f log A I Ts -> clock_ok w db ->
  flush_build db (set_faults fs w) = (b, w') -> at_rest P (crash w').
Proof.
  intros Hi Hck E. pose proof (ci_faults _ _ _ _ _ _ _ _ Hi) as Hf.
  pose proof (ci_live _ _ _ _ _ _ _ _ Hi) as Hl. cbn [c_sys s_world s_db] in *.
  destruct (flush_build db w) as [b0 ws] eqn:Es.
  pose proof (cinv_build _ _ _ _ _ _ _ _ _ _ _ _ Hi Hck Es) as Hi2.
  destruct (cinv_no_failure _ _ _ _ _ _ _ _ _ _ _ Hi2) as (rd & imm & -> & _).
  eapply (build_left_at_rest _ _ _ _ _ _ (w_now w) _ _ _ _ _ _ _ Hi Hi2), build_left_faults.
  apply (flush_build_died db (set_faults fs w) b w' rd (sl_Size imm) ws); try done.
  - apply faults_wf. by eapply live_wf.
  - exact (live_inj _ _ _ _ _ _ Hl).
  - apply Hck.
  - by rewrite sunny_faults.
Qed.

Lemma dies_remove_left w db c f log A I Ts fs r w' :
  cinv P exact (mkCsys (mkSys w db Removing) c) f log A I Ts ->
  os_Remove flushingName (set_faults fs w) = (r, w') -> at_rest P (crash w').
Proof.
  intros Hi E. eapply (fewer_left _ _ _ _ _ _ [flushingName]); [exact Hi| |].
  - replace w' with (os_Remove flushingName (set_faults fs w)).2 by by rewrite E.
    apply fewer_remove; [by left|]. split; [done|]. split; [done|]. split; [|done].
    apply faults_wf. eapply live_wf, Hi.
  - by intros ?%list_elem_of_singleton.
Qed.

Lemma dies_compact_left w db pc files f log A I Ts fs r w' :
  cinv P exact (mkCsys (mkSys w db pc) (CSelected files)) f log A I Ts ->
  w_dir w !! tmp_name (merged_path files) (w_now w) = None -> group_size w files < 2 ^ 31 ->
  compaction_build files (set_faults fs w) = (r, w') -> at_rest P (crash w').
Proof.
  intros Hi Htmp Hsz E. pose proof (ci_faults _ _ _ _ _ _ _ _ Hi) as Hf.
  pose proof (ci_live _ _ _ _ _ _ _ _ Hi) as Hl. cbn [c_sys s_world s_db] in *.
  destruct (compaction_build files w) as [r0 ws] eqn:Es.
  destruct (cinv_cbuild _ _ _ _ _ _ _ _ _ _ _ _ _ Hi Htmp Hsz Es) as (iters & nr & -> & Hi2).
  eapply (build_left_at_rest _ _ _ _ _ _
    (Sscanf_ts (match last files with Some r => Reader_Path r | None => "" end)) _ _ _ _ _ _ _ Hi Hi2),
    build_left_faults.
  apply (compaction_build_died files (set_faults fs w) r w' iters nr ws); try done.
  - apply faults_wf. by eapply live_wf.
  - exact (live_inj _ _ _ _ _ _ Hl).
  - by rewrite sunny_faults.
Qed.

Lemma dies_cleanup_left w db pc files iters f log A I Ts fs w' :
  cinv P exact (mkCsys (mkSys w db pc) (CInstalled files iters)) f log A I Ts ->
  compaction_cleanup files iters (set_faults fs w) = (tt, w') -> at_rest P (crash w').
Proof.
  intros Hi E. eapply (fewer_left _ _ _ _ _ _ (Reader_Path <$> files)); [exact Hi| |].
  - replace w' with (compaction_cleanup files iters (set_faults fs w)).2 by by rewrite E.
    apply cleanup_fewer. split; [done|]. split; [done|]. split; [|done].
    apply faults_wf. eapply live_wf, Hi.
  - destruct Hi as [_ _ _ _ _ _ _ _ [_ _ (pre & nr & post & ts & _ & _ & _ & _ & _ & _ & HF)]].
    rewrite Forall_forall in HF. intros (r & En & Hr)%list_elem_of_fmap.
    destruct (HF r Hr) as (_ & t & Et & _). apply (sst_name_not_wal t). congruence.
Qed.

Lemma dies_at_rest s o w' f log A I Ts :
  cinv P exact s f log A I Ts -> (forall x, o = Some x -> good P (op_entry x)) -> dies s o w' -> at_rest P w'.
Proof.
  intros Hi Hg Hd. destruct Hd.
  - by eapply dies_op_left; eauto.
  - by eapply dies_rotate_left.
  - by eapply dies_build_left.
  - by eapply dies_remove_left.
  - by eapply dies_compact_left.
  - by eapply dies_cleanup_left.
  - by eapply cinv_at_rest.
Qed.
End stopped.

Section crash.
Context `{Murmur3} `{Runtime}.

(** C6: A crash leaves a directory that opens and invents nothing.  Operations,
    flushes and compactions of neighbouring tables run in any interleaving, and the
    process stops at any system call of whatever runs then, a write that is cut
    short included, or between two parts; only, while a log is set aside, the record
    of an interrupted operation is written as a whole or not at all ([dies_op]).  The
    directory can be opened, and every key is answered with a value that an operation
    wrote to it, the interrupted one included, or that the first directory held for
    it, or as absent; a deleted key may also be answered with an empty value. *)
Theorem crash_at_any_call (w : World) (log : list (bytes * slice)) (tail : bytes)
    (Ts : list (Z * list (bytes * slice))) (db : StrataGo) (w1 : World)
    (l : list (op * err)) (s : csys) (o : option op) (w' : World)
    (Hd : disk_ok w log tail Ts) (Hopen : Open w = (inr db, w1))
    (Hsteps : csteps orderly (mkCsys (mkSys w1 db Idle) CIdle) l s) (Hdies : dies s o w') :
  exists db' w2, Open w' = (inr db', w2) /\
    forall k, lookup_inside w2 db' k ->
      exists a, StrataGo_Get w2 db' k = Some a /\
        written_in (disk_entries log Ts ++ (op_entry <$> l.*1 ++ option_list o)) k (visible a).
Proof.
  set (es := disk_entries log Ts ++ (op_entry <$> l.*1 ++ option_list o)).
  destruct (csteps_written w log tail Ts db w1 l s es Hd Hopen Hsteps) as (f & log' & A & I & Ts' & Hi).
  { unfold es. rewrite fmap_app, app_assoc. intros e He'. apply elem_of_app. by left. }
  apply at_rest_answers; [|by left]. eapply dies_at_rest; [exact Hi| |exact Hdies].
  intros x ->. right. exists (op_entry x).2. split; [|done]. rewrite <- surjective_pairing.
  unfold es. rewrite fmap_app, !elem_of_app. right. right. by left.
Qed.
End crash.

(** ** Witnesses *)

Section stop_act.
Context `{Murmur3} `{Runtime}.

(** the process ends while it runs [a] with the outcomes [fs] *)
Definition stop_act (a : action) (fs : list outcome) (s : csys) : option (option op * World) :=
  let w := s_world (c_sys s) in
  let db := s_db (c_sys s) in
  match a, s_pc (c_sys s), c_pc s with
  | DoOp o, _, _ =>
      guard (op_ok o /\ wal_sequenceNumber (db_wal db) + 1 < 2 ^ 64 /\
        (w_dir w !! flushingName = None \/ whole_write fs));;
      Some (Some o, crash (run_op o db (set_faults fs w)).2)
  | DoRotate, Idle, _ =>
      guard (mem_fits (db_activeMemtable db));; Some (None, crash (flush_rotate db (set_faults fs w)).2)
  | DoBuild, Building, _ =>
      guard (clock_ok w db);; Some (None, crash (flush_build db (set_faults fs w)).2)
  | DoRemove, Removing, _ => Some (None, crash (os_Remove flushingName (set_faults fs w)).2)
  | DoCompact, _, CSelected files =>
      guard (w_dir w !! tmp_name (merged_path files) (w_now w) = None /\ group_size w files < 2 ^ 31);;
      Some (None, crash (compaction_build files (set_faults fs w)).2)
  | DoCleanup, _, CInstalled files iters =>
      Some (None, crash (compaction_cleanup files iters (set_faults fs w)).2)
  | _, _, _ => None
  end.

Lemma stop_act_sound a fs s o w' : stop_act a fs s = Some (o, w') -> dies s o w'.
Proof.
  destruct s as [[w db pc] c]. unfold stop_act. cbn [c_sys c_pc s_world s_db s_pc].
  destruct a as [x|t| | | | |n| | |]; destruct pc; try done; destruct c; try done;
    try (case_guard as Hg; [|done]); cbn; intros [= <- <-].
  all: try (destruct Hg as (? & ? & ?); destruct (run_op x db (set_faults fs w)) as [[r db'] w'] eqn:E; by eapply dies_op).
  all: try (destruct (flush_rotate db (set_faults fs w)) as [[r db'] w'] eqn:E; by eapply dies_rotate).
  all: try (destruct (flush_build db (set_faults fs w)) as [r w'] eqn:E; by eapply dies_build).
  all: try (destruct (os_Remove flushingName (set_faults fs w)) as [r w'] eqn:E; by eapply dies_remove).
  all: try (destruct Hg as [? ?]; destruct (compaction_build files (set_faults fs w)) as [r w'] eqn:E; by eapply dies_compact).
  all: destruct (compaction_cleanup files iters (set_faults fs w)) as [[] w'] eqn:E; by eapply dies_cleanup.
Qed.

Lemma stop_act_op x fs s o w' : stop_act (DoOp x) fs s = Some (o, w') -> o = Some x.
Proof. unfold stop_act. destruct (s_pc (c_sys s)), (c_pc s); case_guard; by intros [= <- _]. Qed.
End stop_act.


Section witnesses.
#[local] Existing Instance fnv.
#[local] Existing Instance plain_runtime.

(** [acts] on an engine opened on [w0], which then dies running [a] with the
    outcomes [fs] *)
Definition stopped_run (w0 : World) (acts : list action) (a : action) (fs : list outcome) :
    option (list (op * err) * csys * (option op * World)) :=
  match Open w0 with
  | (inr db, w1) =>
      '(l, s) ← run_schedule acts (mkCsys (mkSys w1 db Idle) CIdle);
      r ← stop_act a fs s;
      Some (l, s, r)
  | _ => None
  end.

Lemma stopped_run_sound w0 acts a fs l s o w' :
  stopped_run w0 acts a fs = Some (l, s, (o, w')) ->
  exists db w1, Open w0 = (inr db, w1) /\
    run_schedule acts (mkCsys (mkSys w1 db Idle) CIdle) = Some (l, s) /\ dies s o w'.
Proof.
  unfold stopped_run. destruct (Open w0) as [[e|db] w1]; [discriminate|].
  destruct (run_schedule _ _) as [[l0 s0]|] eqn:Er; [|discriminate]. cbn.
  destruct (stop_act a fs s0) as [[o0 w0']|] eqn:Es; [|discriminate]. cbn. intros [= <- <- <- <-].
  exists db, w1. split; [done|]. split; [done|]. by eapply stop_act_sound.
Qed.

(** the length of the file, if there is one *)
Definition file_length (w : World) (name : string) : option nat :=
  i ← w_dir w !! name; length <$> w_data w !! i.

(** The fourteenth and all later calls of a compaction fail, while a flush is
    between its rotation and its build. *)
Definition in_merge : option (list (op * err) * csys * (option op * World)) :=
  stopped_run empty_disk (take 27 schedule1) DoCompact (repeat Succeeds 12 ++ repeat (Fails 5) 40).

Lemma in_merge_runs :
  (fun r => (file_length r.2.2 "data_1003.sst.tmp.1004", file_length r.2.2 "wal.log.flushing"))
    <$> in_merge = Some (Some 20%nat, Some 22%nat).
Proof. vm_equal. Qed.

Lemma crash_at_any_call_witness :
  exists db w1 l s o w', Open empty_disk = (inr db, w1) /\
    csteps orderly (mkCsys (mkSys w1 db Idle) CIdle) l s /\ dies s o w' /\
    file_length w' "data_1003.sst.tmp.1004" = Some 20%nat /\
    exists db' w2, Open w' = (inr db', w2) /\
      forall k, lookup_inside w2 db' k ->
        exists a, StrataGo_Get w2 db' k = Some a /\
          written_in (disk_entries [] [] ++ (op_entry <$> l.*1 ++ option_list o)) k (visible a).
Proof.
  pose proof in_merge_runs as Hm.
  destruct in_merge as [[[l s] [o w']]|] eqn:E; [|discriminate].
  destruct (stopped_run_sound _ _ _ _ _ _ _ _ E) as (db & w1 & E0 & Er & Hdies).
  pose proof (run_schedule_sound _ _ _ _ Er Logic.I) as Hst.
  exists db, w1, l, s, o, w'. split; [exact E0|]. split; [exact Hst|]. split; [exact Hdies|].
  split; [injection Hm as Hm1 _; exact Hm1|].
  exact (crash_at_any_call empty_disk [] [] [] db w1 l s o w' empty_disk_ok E0 Hst Hdies).
Defined.
End witnesses.
