(* ===== verification/Survival.v ===== *)
(** * What a crash inside a part keeps

    [Interrupted] shows that the directories crashes leave can be opened.  While
    only flushes run besides the operations, more can be said of the acknowledged
    writes: all are kept, but for keys written during a flush that the crash
    interrupts, which may fall back to what they were before it. *)
From stdpp Require Import base gmap sets list strings numbers sorting relations.
From Stdlib Require Import ZArith Lia Strings.Byte.
From S2P Require Import Prelude SkipList Disk Wal Bloom GoFmt Sst Reader Engine Recovery Flush.
From S2P Require Import GoHeap Merge Compaction Provenance Concurrent Durable Interrupted.
Open Scope Z_scope.

(** the keys that operations write *)
Definition written_keys (l : list op) : list bytes := (fun x => (op_entry x).1) <$> l.

Section survival.
Context `{Murmur3} `{Runtime}.

(** *** Disks that hold the same data *)

(** the log and the files that hold data are as in [w] *)
Record kept (w w' : World) : Prop := {
  kp_wf : wf_world w';
  kp_inj : dir_inj w';
  kp_data : w_data w ⊆ w_data w';
  kp_names : forall s, s = walName \/ tracked s -> w_dir w' !! s = w_dir w !! s
}.

Lemma kept_retains w w' : wf_world w -> kept w w' -> retains w w' (fun s => s = walName \/ tracked s).
Proof. intros Hw [_ _ Hd Hn]. by apply retains_data. Qed.

Lemma disk_at_kept w w' log tail fl Ts :
  disk_at (crash w) log tail fl Ts -> wf_world w -> kept w w' -> disk_at (crash w') log tail fl Ts.
Proof.
  intros [_ _ _ Hwal Htl Hlog Hfl Htab Hs Hr Hd] Hw Hk.
  pose proof (kept_retains w w' Hw Hk) as Hret. destruct Hk as [Hw' Hinj' Hdata Hnames].
  split; try done; cbn in *.
  - destruct Hw' as [H1 H2 H3 H4]. by split.
  - rewrite Hnames by by left. destruct (w_dir w !! walName) as [i|] eqn:Ei; [|done].
    destruct Hwal as (d & top & Hd0 & ?). exists d, top. split; [by eapply lookup_weaken|done].
  - apply (flushing_frame (crash w)); [cbn; apply Hnames; right; by left| |done]. cbn. intros i Hi.
    apply (Hret flushingName); [right; by left|]. rewrite Hnames; [done|right; by left].
  - eapply Forall_impl; [exact Htab|]. intros t [Hok (i & Hi & Hdt)]. split; [done|]. exists i. cbn in *.
    rewrite Hnames by (right; right; apply sst_name_suffix). split; [done|by eapply lookup_weaken].
  - intros s Hsf. cbn. rewrite Hnames by (right; by right). by apply Hd.
Qed.

Lemma flushing_wf base s l1 l2 : flushing base s l1 l2 -> wf_world (s_world s) /\ dir_inj (s_world s).
Proof.
  intros [(? & ? & ? & ? & Hsim & _) _ _]. pose proof (sim_engine _ _ _ _ _ _ Hsim) as He.
  split; [exact (eo_wf _ _ _ _ _ _ He)|exact (eo_inj _ _ _ _ _ _ He)].
Qed.

Lemma flushing_kept base s l1 l2 w' :
  flushing base s l1 l2 -> kept (s_world s) w' ->
  recovers (crash w') (fun k => foldl (op_answer k) (base k) (l1 ++ l2))
    (fun k => foldl (op_answer k) (base k) l1).
Proof.
  intros Hg Hk. destruct (flushing_image _ _ _ _ Hg) as (log & fl & Ts & Hd & Hrec).
  apply Hrec. eapply disk_at_kept; [exact Hd| |exact Hk]. by eapply flushing_wf.
Qed.

Lemma same_kept w w' : dir_inj w -> same_disk w w' -> kept w w'.
Proof.
  intros Hi Hs. destruct (same_disk_intact _ _ Hi Hs) as [H1 H2 H3]. split; try done.
  intros s _. by rewrite (proj1 Hs).
Qed.

Lemma draft_kept w ts now w' : intact w w' -> only_name w (tmp_name (sst_name ts) now) w' -> kept w w'.
Proof.
  intros [H1 H2 H3] Ho. split; try done. intros s [-> | [-> | Hs]]; apply Ho.
  - apply not_eq_sym, tmp_name_not_wal.
  - apply not_eq_sym, tmp_name_not_flushing.
  - intros ->. by rewrite tmp_not_sst in Hs.
Qed.

(** *** The interrupted parts *)

Lemma aside_present w B : aside w B -> w_dir w !! flushingName <> None.
Proof. intros (es & Hes & _) E. unfold flushing_ok in Hes. by rewrite E in Hes. Qed.

(** a crash leaves a directory that recovers the operations [l1 ++ l2]; a key that
    one of [l2] wrote may fall back to [l1] *)
Definition recovers_ops (base : bytes -> option bytes) (w : World) (l1 l2 : list op) : Prop :=
  recovers w (fun k => foldl (op_answer k) (base k) (l1 ++ l2)) (fun k => foldl (op_answer k) (base k) l1).

(** A record that is cut is not recovered. *)
Lemma cut_op_died base w db pc l1 l2 o m fs :
  flushing base (mkSys w db pc) l1 l2 -> op_ok o -> wal_sequenceNumber (db_wal db) + 1 < 2 ^ 64 ->
  w_dir w !! flushingName = None ->
  let rec := wal_record (wal_sequenceNumber (db_wal db) + 1) (op_entry o) in (m < length rec)%nat ->
  forall i d, file_ino w (wal_file (db_wal db)) = Some i -> w_data w !! i = Some d ->
  recovers_ops base (crash (set_faults fs (with_data i (d ++ take m rec) w))) (l1 ++ l2) [].
Proof.
  intros [(log & A & I & Ts & Hsim & Hdisk & _) Hq Hidle] Hok Hq1 Hfl rec Hm j d0 Hj Hd0.
  cbn [s_world s_db s_pc] in *.
  assert (I = None /\ dir_ok w Ts) as [-> Hdir].
  { pose proof (sim_pc _ _ _ _ _ _ Hsim) as HI. destruct pc; cbn in *; [by destruct Hdisk|exfalso..].
    - destruct Hdisk as (B & _ & Ha & _). by apply aside_present in Ha.
    - destruct Hdisk as (B & r0 & v & ts & _ & _ & Ha & _). by apply aside_present in Ha.
    - destruct Hdisk as (B & Ts0 & ts & _ & Ha & _). by apply aside_present in Ha. }
  destruct Hsim as [He Hf Hc Hans _ _]. cbn [s_world s_db] in *.
  pose proof (crash_disk_ok _ _ _ _ _ He Hq Hfl Hdir) as Hd.
  pose proof (eo_log _ _ _ _ _ _ He) as HA.
  destruct (eo_wal _ _ _ _ _ _ He) as (_ & Hseq & Hlok & i & Hi & Hino & d & Hdata & Hlg).
  assert (j = i) as -> by congruence. assert (d0 = d) as -> by congruence.
  unfold recovers_ops. rewrite app_nil_r.
  eapply (plain_recovers _ log (take m rec) A Ts); [|done|intros k; by rewrite Hans].
  apply (disk_at_torn (crash w) log [] None Ts i d (wal_sequenceNumber (db_wal db))); try done.
  apply torn_stops. exists (wal_sequenceNumber (db_wal db) + 1), (op_entry o), m.
  split; [exact Hok|]. split; [lia|]. by split.
Qed.

Lemma written_kept w w0 i d fs fs0 : 
  wf_world w -> dir_inj w -> is_Some (w_data w !! i) ->
  w0 = set_faults fs0 (with_data i d w) -> kept w0 (set_faults fs (with_data i d w)).
Proof.
  intros Hw Hi Hd ->. split; try done. by apply faults_wf, wf_write.
Qed.

(** An operation is recovered completely or not at all. *)
Lemma op_died base w db pc l1 l2 o fs r db' w' :
  flushing base (mkSys w db pc) l1 l2 -> op_ok o -> op_nonempty o ->
  wal_sequenceNumber (db_wal db) + 1 < 2 ^ 64 ->
  w_dir w !! flushingName = None \/ whole_write fs -> run_op o db (set_faults fs w) = ((r, db'), w') ->
  exists o', (o' = [] \/ o' = [o]) /\
    (recovers_ops base (crash w') (l1 ++ l2 ++ o') [] \/
     pc <> Idle /\ recovers_ops base (crash w') l1 (l2 ++ o')).
Proof.
  intros Hg Hok Hne Hq1 Hfl E. pose proof (flushing_wf _ _ _ _ Hg) as [Hw Hinj].
  pose proof Hg as [(log & A & I & Ts & [He Hf Hc _ _ _] & _) Hq Hidle]. cbn [s_world s_db s_pc] in *.
  destruct (eo_wal _ _ _ _ _ _ He) as (_ & Hseq & _ & i & Hi & Hino & d & Hdata & _).
  destruct (run_op_died o db (set_faults fs w) r db' w' i d Hc Hino Hdata E) as (m & fs' & -> & Hwh & _).
  destruct (run_op_ok w db log A I Ts o He Hc Hf Hok Hq1) as (db1 & w1 & E1 & _ & _).
  destruct (run_op_died o db w None db1 w1 i d Hc Hino Hdata E1) as (m1 & fs1 & -> & _ & Hm1).
  specialize (Hm1 eq_refl). cbn [set_faults w_faults] in Hwh. revert Hwh Hm1 E1.
  unfold u64. rewrite Z.mod_small by lia. set (rec := wal_record _ _). cbn zeta. intros Hwh Hm1 E1.
  rewrite (take_ge rec m1) in E1 by done.
  assert (length rec <= m \/ m = 0 \/ 0 < m < length rec)%nat as [Hm|[->|Hm]] by lia.
  - rewrite (take_ge rec m) by done.
    destruct (flushing_op _ _ _ _ _ _ _ _ _ _ Hg Hok Hne Hq1 E1) as (n1 & n2 & En & E1' & Hg1).
    exists [o]. split; [by right|].
    pose proof (flushing_kept base _ n1 n2 _ Hg1 (written_kept w _ i (d ++ rec) fs' fs1 Hw Hinj
      (mk_is_Some _ _ Hdata) eq_refl)) as Hr. cbn [s_world] in Hr.
    assert (pc = Idle \/ pc <> Idle) as [->|Hpc] by (destruct pc; [by left|by right..]).
    + left. pose proof (fg_idle _ _ _ _ Hg1 eq_refl) as ->. rewrite app_nil_r in En. subst n1. apply Hr.
    + right. split; [done|]. specialize (E1' Hpc). subst n1. apply app_inv_head in En. subst n2. apply Hr.
  - exists []. rewrite !app_nil_r. split; [by left|].
    assert (kept w (set_faults fs' (with_data i d w))) as Hk.
    { apply (written_kept w w i d _ []); try done. unfold with_data. rewrite insert_id by done.
      by destruct w; cbn in *; subst. }
    pose proof (flushing_kept _ _ _ _ _ Hg Hk) as Hr.
    assert (pc = Idle \/ pc <> Idle) as [->|Hpc] by (destruct pc; [by left|by right..]); [left|by right].
    pose proof (fg_idle _ _ _ _ Hg eq_refl) as ->. unfold recovers_ops. rewrite ?app_nil_r in *. exact Hr.
  - exists []. rewrite !app_nil_r. split; [by left|]. left.
    eapply (cut_op_died base w db pc l1 l2 o m fs'); try done; [|by apply Hm].
    destruct Hfl as [Hfl|Hfl]; [done|]. destruct (Hwh Hfl); lia.
Qed.

(** A rotation leaves the log under the one name or the other. *)
Lemma rotation_died base w db l1 l2 fs r db' w' :
  flushing base (mkSys w db Idle) l1 l2 -> mem_fits (db_activeMemtable db) ->
  flush_rotate db (set_faults fs w) = ((r, db'), w') ->
  let f := fun k => foldl (op_answer k) (base k) (l1 ++ l2) in recovers (crash w') f f.
Proof.
  intros Hg Hfit E f. pose proof (flushing_wf _ _ _ _ Hg) as [Hw Hinj]. cbn [s_world] in *.
  pose proof Hg as [(log & A & I & Ts & Hsim & Hdisk & _) Hq Hidle]. cbn [s_world s_db s_pc flush_disk] in *.
  rewrite (Hidle eq_refl) in Hg. pose proof (sim_pc _ _ _ _ _ _ Hsim) as HI. cbn in HI. subst I.
  destruct Hsim as [He Hf Hc Hans _ _]. cbn [s_world s_db] in *. destruct Hdisk as [Hnone Hdir].
  pose proof (eo_wal _ _ _ _ _ _ He) as (_ & Hseq & Hlok & i & Hi & _ & d & Hdata & Hlg).
  destruct (rotate_died db _ r db' w' i (faults_wf fs w Hw) Hinj Hi E) as (Hw' & Hinj' & Hsub & Hoth & Hcase).
  cbn [set_faults w_dir w_data] in *.
  assert (forall s, HasSuffix s ".sst" = true -> w_dir w' !! s = w_dir w !! s) as Hsst.
  { intros s Hs. apply Hoth. by intros [-> | ->]. }
  destruct Hcase as [[Hwl Hfl]|[Hfl Hwl]].
  - unfold f. rewrite (Hidle eq_refl), app_nil_r. rewrite (Hidle eq_refl) in *.
    pose proof (flushing_kept base _ l1 [] w' Hg) as Hr. rewrite app_nil_r in Hr. apply Hr.
    split; try done. cbn. intros s [-> | [-> | Hs]]; [congruence| |by apply Hsst].
    rewrite Hnone. destruct Hfl; congruence.
  - pose proof (crash_disk_ok _ _ _ _ _ He Hq Hnone Hdir) as [_ _ _ _ _ _ _ Htab Hs Hr _].
    eapply (aside_recovers _ [] [] (Some A) Ts Ts log A); [split; cbn; try done|done|symmetry; apply He| | |done].
    + by destruct Hw' as [H1 H2 H3 H4]; split.
    + destruct (w_dir w' !! walName) as [j|]; [|done]. exists [], 0. split; [done|].
      split; [apply logged_nil|]. unfold len. cbn. lia.
    + apply torn_stops, torn_nil.
    + eapply (aside_flushing w (crash w') (db_wal db) log A i); try done; [apply He|apply He| | |].
      * eapply repr_sorted, He.
      * destruct Hfit as [Hb _]. rewrite (repr_size _ _ (eo_active _ _ _ _ _ _ He)) in Hb.
        unfold bloom_keys_ok, bitsPerKey in Hb. lia.
      * cbn. rewrite Hdata. by eapply lookup_weaken.
    + eapply Forall_impl; [exact Htab|]. intros t [Hok (j & Hj & Hdt)]. split; [done|]. exists j. cbn in *.
      rewrite Hsst by apply sst_name_suffix. split; [done|by eapply lookup_weaken].
    + intros s Hsf. cbn. rewrite Hsst by done. by apply Hdir.
    + intros k. unfold f. rewrite <- Hans. unfold answer, memory_map. cbn.
      by rewrite (left_id_L ∅ (∪)), (right_id_L ∅ (∪)).
    + intros k v Hk. unfold f. rewrite <- Hans. unfold answer. by rewrite memory_map_None, Hk.
Qed.

(** A build leaves a draft, or a whole table. *)
Lemma build_died base w db l1 l2 fs b w' :
  flushing base (mkSys w db Building) l1 l2 -> clock_ok w db -> flush_build db (set_faults fs w) = (b, w') ->
  recovers_ops base (crash w') l1 l2.
Proof.
  intros Hg Hck E. pose proof (flushing_wf _ _ _ _ Hg) as [Hw Hinj]. cbn [s_world] in *.
  destruct (flush_build db w) as [b0 ws] eqn:Es.
  destruct (flushing_step _ _ _ _ _ _ Hg (step_build w db b0 ws Hck Es) ltac:(done))
    as (m1 & m2 & Em & E1 & Hg2). specialize (E1 ltac:(done) ltac:(done)). subst m1.
  cbn in Em. rewrite app_nil_r in Em. apply app_inv_head in Em. subst m2.
  assert (w_faults w = [] /\ exists rd imm, b0 = Built rd (sl_Size imm)) as [Hf (rd & imm & ->)].
  { split; [destruct Hg as [(? & ? & ? & ? & Hsim & _) _ _]; apply (sim_faults _ _ _ _ _ _ Hsim)|].
    destruct Hg2 as [(? & ? & ? & ? & Hsim & _) _ _].
    destruct (sim_no_failure _ _ _ _ _ _ _ _ Hsim) as (rd & imm & -> & _). by exists rd, imm. }
  assert (build_left w (tmp_name (sst_name (w_now w)) (w_now w)) ws w') as [Hin [Ho|Hs]].
  { apply (build_left_faults w fs).
    apply (flush_build_died db (set_faults fs w) b w' rd (sl_Size imm) ws); try done; [by apply faults_wf
      |apply Hck|by rewrite sunny_faults]. }
  - apply (flushing_kept _ _ _ _ _ Hg). by eapply draft_kept.
  - apply (flushing_kept _ _ _ _ _ Hg2).
    apply same_kept; [by eapply (flushing_wf base (mkSys ws db _))|done].
Qed.

Lemma remove_died base w db l1 l2 fs r w' :
  flushing base (mkSys w db Removing) l1 l2 -> os_Remove flushingName (set_faults fs w) = (r, w') ->
  recovers_ops base (crash w') l1 l2 \/ recovers_ops base (crash w') (l1 ++ l2) [].
Proof.
  intros Hg E. pose proof (flushing_wf _ _ _ _ Hg) as [Hw Hinj]. cbn [s_world] in *.
  destruct (flushing_step _ _ _ _ _ _ Hg (step_remove w db) ltac:(done)) as (m1 & m2 & Em & _ & Hg2).
  cbn in Em. rewrite app_nil_r in Em. pose proof (fg_idle _ _ _ _ Hg2 eq_refl) as ->.
  rewrite app_nil_r in Em. subst m1.
  pose proof (flushing_wf _ _ _ _ Hg2) as [Hw2 Hinj2]. cbn [s_world] in *.
  assert (same_disk w w' \/ same_disk (os_Remove flushingName w).2 w') as [Hs|Hs].
  { assert (w_faults w = []) as Hf
      by (destruct Hg as [(? & ? & ? & ? & Hsim & _) _ _]; apply (sim_faults _ _ _ _ _ _ Hsim)).
    revert E Hw2. unfold os_Remove. cbn [set_faults w_dir]. destruct (w_dir w !! flushingName); [|].
    - rewrite (next_outcome_ok w) by done. destruct (outcome_cases (set_faults fs w)) as (o & fs' & ->).
      destruct o; intros [= <- <-] Hw2; [right|left]; (split; [done|split; [done|]]).
      + by apply (faults_wf fs') in Hw2.
      + by apply (faults_wf fs'), faults_wf.
    - intros [= <- <-] _. left. split; [done|]. split; [done|]. by apply faults_wf. }
  - left. apply (flushing_kept _ _ _ _ _ Hg). by apply same_kept.
  - right. apply (flushing_kept _ _ _ _ _ Hg2). by apply same_kept.
Qed.

(** *** Any crash *)

Lemma flushing_dies base s l1 l2 o w' :
  flushing base s l1 l2 -> dies (mkCsys s CIdle) o w' -> Forall op_nonempty (option_list o) ->
  exists o', (o' = [] \/ o' = option_list o) /\
    (recovers_ops base w' (l1 ++ l2 ++ o') [] \/ s_pc s <> Idle /\ recovers_ops base w' l1 (l2 ++ o')).
Proof.
  intros Hg Hd Hne. remember (mkCsys s CIdle) as cs eqn:Ecs.
  destruct Hd as [w db pc c x fs r db' w' Ho Hq Hfl E|w db c fs r db' w' Hfit E|w db c fs b w' Hck E
    |w db c fs r w' E| | |cs]; simplify_eq/=.
  - apply Forall_cons in Hne as [Hne _].
    exact (op_died _ _ _ _ _ _ _ _ _ _ _ Hg Ho Hne Hq Hfl E).
  - exists []. rewrite app_nil_r. split; [by left|]. left.
    unfold recovers_ops. rewrite app_nil_r. by eapply rotation_died.
  - exists []. rewrite !app_nil_r. split; [by left|]. right. split; [done|]. by eapply build_died.
  - exists []. rewrite !app_nil_r. split; [by left|].
    destruct (remove_died _ _ _ _ _ _ _ _ Hg E) as [Hr|Hr]; [by right|by left].
  - exists []. rewrite !app_nil_r. split; [by left|]. pose proof (flushing_crash _ _ _ _ Hg) as Hr.
    assert (s_pc s = Idle \/ s_pc s <> Idle) as [E|E] by (destruct (s_pc s); [by left|by right..]); [left|by right].
    rewrite (fg_idle _ _ _ _ Hg E) in *. unfold recovers_ops. rewrite ?app_nil_r in *. exact Hr.
Qed.

(** C5: What a crash keeps while the flush worker runs.  The engine runs
    operations and flushes, and the process stops at a system call of an operation
    or of a part of the flush, or between two parts.  The directory it leaves can
    be opened.  The interrupted operation is found completely or not at all, and a
    key is answered with its last acknowledged write, with one exception: when a
    flush was under way, a key written since its rotation (these are the operations
    [l2], the entries of the new log) may be answered with its last write before
    the rotation.  A deleted key may be answered with an empty value instead of as
    absent.  Left out are compactions, operations that write an empty value, and an
    operation whose log record is cut in the middle while a log is set aside. *)
Theorem crash_loses_nothing (w : World) (log : list (bytes * slice)) (tail : bytes)
    (Ts : list (Z * list (bytes * slice))) (db : StrataGo) (w1 : World)
    (l : list (op * err)) (s : sys) (o : option op) (w' : World)
    (Hd : disk_ok w log tail Ts) (Hne : Forall (fun e => slice_bytes e.2 <> []) log)
    (Hopen : Open w = (inr db, w1)) (Hsteps : steps (mkSys w1 db Idle) l s)
    (Hdies : dies (mkCsys s CIdle) o w') (Hops : Forall op_nonempty (l.*1 ++ option_list o)) :
  exists l1 l2 o' db' w2, l.*1 = l1 ++ l2 /\
    (s_pc s <> Idle -> wal_ok (s_world s) (db_wal (s_db s)) (op_entry <$> l2)) /\
    (o' = [] \/ o' = option_list o) /\ Open w' = (inr db', w2) /\
    forall k, lookup_inside w2 db' k ->
      exists a, StrataGo_Get w2 db' k = Some a /\
        (visible a = visible (foldl (op_answer k) (initial_answer log Ts k) (l.*1 ++ o')) \/
         s_pc s <> Idle /\ k ∈ written_keys (l2 ++ o') /\
         visible a = visible (foldl (op_answer k) (initial_answer log Ts k) l1)).
Proof.
  apply Forall_app in Hops as [Hops Ho]. pose proof (proj1 (Forall_fmap fst _ _) Hops) as Hops'.
  pose proof (Open_flushing _ _ _ _ _ _ Hd Hne Hopen) as Hg0.
  destruct (flushing_steps _ _ _ _ Hsteps Hops' _ _ Hg0) as (l1 & l2 & El & Hg). cbn in El.
  destruct (flushing_dies _ _ _ _ _ _ Hg Hdies Ho) as (o' & Ho' & Hrec).
  assert (s_pc s <> Idle -> wal_ok (s_world s) (db_wal (s_db s)) (op_entry <$> l2)) as Hwal.
  { intros Hpc. destruct Hg as [(log' & A & I & Ts' & Hsim & _ & Hlog) _ _]. rewrite <- (Hlog Hpc).
    apply (sim_engine _ _ _ _ _ _ Hsim). }
  rewrite <- El in *. destruct Hrec as [(db' & w2 & E & Hget)|(Hpc & db' & w2 & E & Hget)];
    exists l1, l2, o', db', w2; (split; [done|]); (split; [exact Hwal|]); (split; [done|]); (split; [done|]);
    intros k Hk; destruct (Hget k Hk) as (a & Ea & Ha); exists a; (split; [done|]).
  - left. rewrite <- (app_assoc l1). rewrite ?app_nil_r in Ha. by destruct Ha.
  - rewrite <- (app_assoc l1). destruct Ha as [Ha|Ha]; [by left|].
    destruct (decide (k ∈ written_keys (l2 ++ o'))) as [Hin|Hn]; [by right|left].
    rewrite Ha, !foldl_app. rewrite <- foldl_app. by rewrite (foldl_other k _ (l2 ++ o')).
Qed.
End survival.

(** ** Witness *)

Section witnesses.
#[local] Existing Instance fnv.
#[local] Existing Instance plain_runtime.

(** [schedule3] dies in its build, of which the ninth and all later calls fail *)
Definition in_build : option (list (op * err) * csys * (option op * World)) :=
  stopped_run used_disk (take 4 schedule3) DoBuild (repeat Succeeds 8 ++ repeat (Fails 5) 40).

Lemma in_build_runs :
  (fun r => (r.1.1.*1, r.2.1, file_length r.2.2 "data_1000.sst.tmp.1000", file_length r.2.2 "wal.log.flushing"))
    <$> in_build = Some (ops3, None, Some 20%nat, Some 66%nat).
Proof. vm_equal. Qed.

Lemma crash_loses_nothing_witness :
  exists db w1 l s o w',
    Open used_disk = (inr db, w1) /\ steps (mkSys w1 db Idle) l s /\ l.*1 = ops3 /\
    dies (mkCsys s CIdle) o w' /\ file_length w' "data_1000.sst.tmp.1000" = Some 20%nat /\
    exists l1 l2 o' db' w2, l.*1 = l1 ++ l2 /\
      (s_pc s <> Idle -> wal_ok (s_world s) (db_wal (s_db s)) (op_entry <$> l2)) /\
      (o' = [] \/ o' = option_list o) /\ Open w' = (inr db', w2) /\
      forall k, lookup_inside w2 db' k ->
        exists a, StrataGo_Get w2 db' k = Some a /\
          (visible a = visible (foldl (op_answer k) (initial_answer old_log [(5, table1)] k) (l.*1 ++ o')) \/
           s_pc s <> Idle /\ k ∈ written_keys (l2 ++ o') /\
           visible a = visible (foldl (op_answer k) (initial_answer old_log [(5, table1)] k) l1)).
Proof.
  pose proof in_build_runs as Hm.
  destruct in_build as [[[l [s c]] [o w']]|] eqn:E; [|discriminate].
  destruct (stopped_run_sound _ _ _ _ _ _ _ _ E) as (db & w1 & E0 & Er & Hdies).
  apply run_schedule_steps in Er as [Ec Hst]; [|reflexivity]. cbn in Ec. subst c.
  injection Hm as Hl Ho Hf _. exists db, w1, l, s, o, w'.
  split; [exact E0|]. split; [exact Hst|]. split; [exact Hl|]. split; [exact Hdies|]. split; [exact Hf|].
  apply (crash_loses_nothing used_disk old_log old_tail [(5, table1)] db w1 l s o w' used_disk_ok);
    [repeat constructor; discriminate|exact E0|exact Hst|exact Hdies|].
  rewrite Hl, Ho. vm_compute. repeat constructor; discriminate.
Defined.

(** *** A cut record in front of a log that was set aside *)

(** a Get after opening the directory *)
Definition reopened_get (w : World) (k : bytes) : option (option slice * World) :=
  match Open w with (inr db, w') => Some (StrataGo_Get w' db k, w') | _ => None end.

Lemma reopened_get_Some w k a w' :
  reopened_get w k = Some (a, w') -> exists db, Open w = (inr db, w') /\ StrataGo_Get w' db k = a.
Proof.
  unfold reopened_get. destruct (Open w) as [[e|db] w1]; [discriminate|]. intros [= <- <-]. by exists db.
Qed.

Definition first_put : list action := [DoOp (OpPut [x61] (Some [x01])); DoRotate].

(** the second write is cut after five bytes *)
Definition cut_put (s : csys) : World :=
  crash (run_op (OpPut [x62] (Some [x02])) (s_db (c_sys s)) (set_faults [Fails 5] (s_world (c_sys s)))).2.

Definition cut_run : option (list (op * err) * option slice * option slice) :=
  match Open empty_disk with
  | (inr db, w1) =>
      '(l, s) ← run_schedule first_put (mkCsys (mkSys w1 db Idle) CIdle);
      '(a, w2) ← reopened_get (cut_put s) [x61];
      '(b, _) ← reopened_get (crash w2) [x61];
      Some (l, a, b)
  | _ => None
  end.

(** What [crash_loses_nothing] leaves out.  A write is cut while the log of a flush
    is still set aside.  [Open] appends the entries it recovers from that log behind
    the cut record, removes the log, and then lets [Recover] truncate the other one
    at the cut record: the entries are in the memtable, but in no file, and the next
    crash loses them. *)
Theorem torn_log_loses_flushed_data :
  exists db w1 l s db2 w2 db3 w3,
    Open empty_disk = (inr db, w1) /\ csteps orderly (mkCsys (mkSys w1 db Idle) CIdle) l s /\
    l = [(OpPut [x61] (Some [x01]), None)] /\
    Open (cut_put s) = (inr db2, w2) /\ StrataGo_Get w2 db2 [x61] = Some (Some [x01]) /\
    Open (crash w2) = (inr db3, w3) /\ StrataGo_Get w3 db3 [x61] = Some None.
Proof.
  assert (cut_run = Some ([(OpPut [x61] (Some [x01]), None)], Some (Some [x01]), Some None)) as Hc by vm_equal.
  unfold cut_run in Hc. destruct (Open empty_disk) as [[e|db] w1]; [discriminate|].
  destruct (run_schedule _ _) as [[l s]|] eqn:Er; [|discriminate]. cbn [mbind option_bind] in Hc.
  destruct (reopened_get (cut_put s) [x61]) as [[a w2]|] eqn:E2; [|discriminate].
  cbn [mbind option_bind] in Hc.
  destruct (reopened_get (crash w2) [x61]) as [[b w3]|] eqn:E3; [|discriminate].
  cbn [mbind option_bind] in Hc. injection Hc as Hl Ha Hb. subst a b.
  apply reopened_get_Some in E2 as (db2 & Eo2 & Hg2). apply reopened_get_Some in E3 as (db3 & Eo3 & Hg3).
  exists db, w1, l, s, db2, w2, db3, w3. split; [done|]. split; [by apply (run_schedule_sound _ _ _ _ Er Logic.I)|].
  split; [exact Hl|]. split; [exact Eo2|]. split; [exact Hg2|]. by split.
Qed.

(** *** A table that cannot be opened *)

(** The fourth call of [Open] opens the table.  When it fails, [Open] leaves the
    table out and returns no error: a key of the table is not found. *)
Definition fourth_fails : World := set_faults [Succeeds; Succeeds; Succeeds; Fails 0] used_disk.

Theorem open_skips_unreadable_table :
  exists db w db' w', Open used_disk = (inr db, w) /\ StrataGo_Get w db [x61] = Some (Some [x01; x02]) /\
    Open fourth_fails = (inr db', w') /\ StrataGo_Get w' db' [x61] = Some None.
Proof.
  assert ((fst <$> reopened_get used_disk [x61], fst <$> reopened_get fourth_fails [x61]) =
    (Some (Some (Some [x01; x02])), Some (Some None))) as Hg by vm_equal.
  destruct (reopened_get used_disk [x61]) as [[a w]|] eqn:E1; [|discriminate Hg].
  destruct (reopened_get fourth_fails [x61]) as [[b w']|] eqn:E2; [|discriminate Hg].
  cbn [fmap option_fmap option_map fst] in Hg. injection Hg as -> ->.
  apply reopened_get_Some in E1 as (db & E1 & H1). apply reopened_get_Some in E2 as (db' & E2 & H2).
  exists db, w, db', w'. split; [exact E1|]. split; [exact H1|]. split; [exact E2|exact H2].
Qed.
End witnesses.
