(* ===== verification/Restart.v ===== *)
(** * Recovery that is interrupted

    The process may also stop while [Open] recovers a directory.  Without a log
    that was set aside every call may fail and every write may be cut; with one,
    the calls up to the one at which the process stops succeed, and that one and
    all later ones fail and write nothing. *)
From stdpp Require Import base gmap sets list strings numbers sorting relations.
From Stdlib Require Import ZArith Lia Strings.Byte.
From S2P Require Import Prelude SkipList Disk Wal Bloom GoFmt Sst Reader Engine Recovery Flush.
From S2P Require Import GoHeap Merge Compaction Provenance Concurrent Durable Interrupted Survival.
Open Scope Z_scope.

(** ** A process that stops *)

(** all calls fail, and none of them writes anything *)
Definition dead (w : World) : Prop := Forall (eq (Fails 0)) (w_faults w).

(** the calls succeed until the process stops *)
Fixpoint stopping (fs : list outcome) : Prop :=
  match fs with
  | [] => True
  | Succeeds :: fs' => stopping fs'
  | Fails n :: fs' => n = 0%nat /\ Forall (eq (Fails 0)) fs'
  end.

Lemma stopping_next w :
  stopping (w_faults w) ->
  (exists fs, next_outcome w = (Succeeds, set_faults fs w) /\ stopping fs) \/
  (exists fs, next_outcome w = (Fails 0, set_faults fs w) /\ dead (set_faults fs w)).
Proof.
  destruct w as [wd wa wf wn wt [|[|n] fs]]; cbn.
  - intros _. left. by exists [].
  - intros Hs. left. by exists fs.
  - intros [-> Hd]. right. by exists fs.
Qed.

(** A program that runs after the process has stopped changes nothing on the disk. *)
Record stalls {A} (m : IO A) : Prop := {
  sl_fades : forall w, exists pre, w_faults w = pre ++ w_faults (m w).2;
  sl_same : forall w, wf_world w -> dead w -> w_faults (m w).2 <> [] -> same_disk w (m w).2
}.

Lemma stalls_ret {A} (a : A) : stalls (ret a).
Proof. split; [intros w; by exists []|done]. Qed.

Lemma stalls_gets {A} (f : World -> A) : stalls (gets f).
Proof. split; [intros w; by exists []|done]. Qed.

Lemma dead_suffix w w' pre : dead w -> w_faults w = pre ++ w_faults w' -> dead w'.
Proof. unfold dead. intros Hd E. rewrite E in Hd. by apply Forall_app in Hd as [_ ?]. Qed.

Lemma same_disk_trans w1 w2 w3 : same_disk w1 w2 -> same_disk w2 w3 -> same_disk w1 w3.
Proof. intros (E1 & E2 & _) (E3 & E4 & ?). split; [congruence|]. split; [congruence|done]. Qed.

Lemma stalls_bind {A B} (m : IO A) (k : A -> IO B) :
  stalls m -> (forall a, stalls (k a)) -> stalls (m ≫= k).
Proof.
  intros [Hf Hs] Hk. split.
  - intros w. unfold mbind, IO_bind. specialize (Hf w). destruct (m w) as [a w1]. cbn in Hf.
    destruct Hf as [p1 E1], (sl_fades _ (Hk a) w1) as [p2 E2]. exists (p1 ++ p2).
    by rewrite E1, E2, app_assoc.
  - intros w Hw Hd. unfold mbind, IO_bind. specialize (Hf w). specialize (Hs w Hw Hd).
    destruct (m w) as [a w1]. cbn [snd] in *. intros Hne. destruct Hf as [p1 E1].
    assert (w_faults w1 <> []) as Hne1.
    { intros E. destruct (sl_fades _ (Hk a) w1) as [p2 E2]. rewrite E in E2.
      symmetry in E2. by apply app_nil in E2 as [_ ?]. }
    specialize (Hs Hne1). eapply same_disk_trans; [exact Hs|].
    apply (sl_same _ (Hk a)); [apply Hs|by eapply dead_suffix|done].
Qed.

Lemma stalls_and_then {A} (c : IO err) (h : error -> IO A) k :
  stalls c -> (forall e, stalls (h e)) -> stalls k -> stalls (and_then c h k).
Proof. intros Hc Hh Hk. apply stalls_bind; [done|]. intros [e|]; [apply Hh|apply Hk]. Qed.

Lemma stalls_and_bind {T A} (c : IO (result T)) (h : error -> IO A) k :
  stalls c -> (forall e, stalls (h e)) -> (forall x, stalls (k x)) -> stalls (and_bind c h k).
Proof. intros Hc Hh Hk. apply stalls_bind; [done|]. intros [e|x]; [apply Hh|apply Hk]. Qed.

(** the calls *)
Ltac stalls_call Hw :=
  split; intros w; destruct w as [wd wa wf wn wt [|o fs]];
  [ | |intros Hw Hd; cbn in *|intros Hw Hd; apply Forall_cons in Hd as [<- Hd]; cbn in *];
  unfold file_ino, next_outcome, gets, mbind, IO_bind, ret, new_handle, new_inode; cbn;
  repeat case_match; simplify_eq/=;
  try (by exists []); try (by eexists [_]); try done;
  try (intros _; split; [done|split; [done|exact (faults_wf _ _ Hw)]]).

Lemma Sync_stalls f : stalls (file_Sync f).
Proof. unfold file_Sync. stalls_call Hw. Qed.
Lemma Truncate_stalls f n : stalls (file_Truncate f n).
Proof. unfold file_Truncate. stalls_call Hw. Qed.
Lemma Remove_stalls s : stalls (os_Remove s).
Proof. unfold os_Remove. stalls_call Hw. Qed.
Lemma Open_stalls s : stalls (os_Open s).
Proof. unfold os_Open. stalls_call Hw. Qed.
Lemma OpenAppend_stalls s : stalls (os_OpenAppend s).
Proof. unfold os_OpenAppend. stalls_call Hw. Qed.
Lemma MkdirAll_stalls : stalls os_MkdirAll.
Proof. unfold os_MkdirAll. stalls_call Hw. Qed.

Lemma Close_stalls f : stalls (file_Close f).
Proof.
  split.
  - intros w. unfold file_Close. destruct (file_ino w f); [|by exists []].
    unfold next_outcome. destruct (w_faults w) as [|o fs] eqn:E; cbn; [by exists []|by exists [o]].
  - intros w Hw _ _. by apply (Close_same w f w).
Qed.

Lemma Write_stalls f p : stalls (file_Write f p).
Proof.
  split; intros w; unfold file_Write; destruct (file_ino w f) as [i|] eqn:Ei; try by exists [].
  - unfold next_outcome. destruct (w_faults w) as [|[|n] fs] eqn:E; cbn; [by exists []|by eexists [_]..].
  - intros Hw Hd. destruct (ww_open w Hw _ _ Ei) as [d Hdi]. unfold dead in Hd. unfold next_outcome.
    destruct (w_faults w) as [|o fs] eqn:E; cbn; [by rewrite E|]. apply Forall_cons in Hd as [<- _].
    cbn. intros _. rewrite Hdi. cbn. rewrite app_nil_r, insert_id by done.
    split; [done|]. split; [done|]. exact (faults_wf fs _ Hw).
  - done.
Qed.

Create HintDb stalls.
#[local] Hint Resolve stalls_ret stalls_gets Write_stalls Sync_stalls Close_stalls Truncate_stalls
  Remove_stalls Open_stalls OpenAppend_stalls MkdirAll_stalls : stalls.

Ltac stalls_step :=
  first
    [ solve [eauto with stalls]
    | apply stalls_and_then; [solve [eauto with stalls]|intros|]
    | apply stalls_and_bind; [solve [eauto with stalls]|intros|intros]
    | apply stalls_bind; [solve [eauto with stalls]|intros] ].

Section programs.
Context `{Murmur3} `{Runtime}.

Lemma NewWAL_stalls p : stalls (NewWAL p).
Proof. unfold NewWAL. apply stalls_bind; [eauto with stalls|]. intros [e|f]; stalls_step. Qed.

Lemma WriteEntry_stalls wl k v : stalls (WAL_WriteEntry wl k v).
Proof.
  unfold WAL_WriteEntry. apply stalls_bind; [eauto with stalls|]. intros [e|]; repeat stalls_step.
Qed.

Lemma Recover_stalls wl : stalls (WAL_Recover wl).
Proof.
  split; intros w; unfold WAL_Recover; destruct (file_data w (wal_file wl)) as [file|]; try by exists [].
  - destruct (recover_loop _ _ _ _ _ _) as [[[data sq] off]|]; [|by exists []].
    pose proof (sl_fades _ (Truncate_stalls (wal_file wl) off) w) as Hf.
    by destruct (file_Truncate (wal_file wl) off w) as [[e|] w1].
  - intros Hw Hd. destruct (recover_loop _ _ _ _ _ _) as [[[data sq] off]|]; [|done].
    pose proof (sl_same _ (Truncate_stalls (wal_file wl) off) w Hw Hd) as Hs.
    by destruct (file_Truncate (wal_file wl) off w) as [[e|] w1].
  - done.
Qed.
#[local] Hint Resolve NewWAL_stalls WriteEntry_stalls Recover_stalls : stalls.

Lemma NewReader_stalls name : stalls (NewReader name).
Proof. unfold NewReader. repeat stalls_step. destruct (loadIndex _) as [e|[idx flt]]; repeat stalls_step. Qed.
#[local] Hint Resolve NewReader_stalls : stalls.

Lemma open_readers_stalls ssts : stalls (open_readers ssts).
Proof. induction ssts as [|x ssts IH]; cbn [open_readers]; repeat stalls_step. Qed.
#[local] Hint Resolve open_readers_stalls : stalls.

Lemma open_rest_stalls mem wl : stalls (open_rest mem wl).
Proof.
  unfold open_rest. apply stalls_bind; [eauto with stalls|]. intros [[e|restored] wl']; [stalls_step|].
  destruct (put_all _ _); repeat stalls_step.
Qed.

Lemma restore_flushing_stalls es : forall mem wl, stalls (restore_flushing mem wl es).
Proof.
  induction es as [|[k v] es IH]; intros mem wl; cbn [restore_flushing]; [stalls_step|].
  destruct (SkipList_Put mem k v); [|stalls_step]. apply stalls_bind; [eauto with stalls|].
  intros [[e|] wl']; [stalls_step|apply IH].
Qed.
#[local] Hint Resolve restore_flushing_stalls open_rest_stalls : stalls.

End programs.

(** ** What the directory holds *)

Section opening.
Context `{Murmur3} `{Runtime}.

(** [Q] holds of the entries on the disk; the recovery turns nil values into empty
    ones *)
Context (Q : bytes * slice -> Prop) (HQ : forall k v, Q (k, v) -> Q (k, norm v)).
Context (Ts : list (Z * list (bytes * slice))) (m : gmap bytes slice).

(** the logs replay to [m] *)
Definition content (log : list (bytes * slice)) (tail : bytes) (fl : option (list (bytes * slice))) : Prop :=
  (fl <> None -> tail = []) /\ wal_replay (log ++ default [] fl) ∅ = m /\
  Forall Q log /\ Forall Q (default [] fl).

Definition holds (w : World) : Prop :=
  wf_world w /\ exists log tail fl, disk_at (crash w) log tail fl Ts /\ content log tail fl.

Lemma disk_holds w log tail fl :
  disk_at (sunny w) log tail fl Ts -> content log tail fl -> holds w.
Proof.
  intros Hd Hc. pose proof (do_wf _ _ _ _ _ Hd) as [H1 H2 H3 H4]. split; [by split|].
  exists log, tail, fl. split; [|done]. apply (disk_at_same (sunny w)); try done.
Qed.

Lemma holds_same w w' : holds w -> same_disk w w' -> holds w'.
Proof.
  intros [_ (log & tail & fl & Hd & Hc)] (E1 & E2 & Hw). split; [done|]. exists log, tail, fl. split; [|done].
  apply (disk_at_same (crash w)); try done. by destruct Hw as [H1 H2 H3 H4]; split.
Qed.

(** After the stop nothing happens. *)
Lemma holds_stalls {A} (p : IO A) w r w' :
  stalls p -> holds w -> dead w -> p w = (r, w') -> w_faults w' <> [] -> holds w'.
Proof.
  intros [_ Hs] Hh Hd E Hne. specialize (Hs w (proj1 Hh) Hd). rewrite E in Hs. cbn [snd] in Hs.
  eapply holds_same; [exact Hh|by apply Hs].
Qed.

(** A log is opened, or nothing happens. *)
Lemma NewWAL_outcome path w r w1 :
  NewWAL path w = (r, w1) ->
  w_faults w1 = w_faults (next_outcome w).2 /\
  match (next_outcome w).1 with
  | Succeeds => is_ok r
  | Fails _ => (exists e, r = inl e) /\ w1 = (next_outcome w).2
  end.
Proof.
  unfold NewWAL, os_OpenAppend, mbind, IO_bind. destruct (next_outcome w) as [o w2] eqn:E.
  destruct o as [|n]; [|intros [= <- <-]; split; [done|split; [by eexists|done]]].
  unfold gets. destruct (w_dir w2 !! path); unfold new_inode, new_handle, ret; intros [= <- <-]; done.
Qed.

Lemma NewWAL_opened w log tail fl wl w1 :
  disk_at (sunny w) log tail fl Ts -> NewWAL walName w = (inr wl, w1) ->
  exists i f, wl = mkWAL f walName 0 /\ disk_at (sunny w1) log tail fl Ts /\
    w_dir w1 !! walName = Some i /\ file_ino w1 f = Some i.
Proof.
  intros Hd E. pose proof (NewWAL_steady walName w) as Hst. rewrite E in Hst. cbn [fst snd] in Hst.
  destruct (NewWAL_ok _ _ _ _ _ Hd) as (i & f & w2 & E2 & Hd2 & Hi & Hf).
  rewrite (Hst Logic.I) in E2. injection E2 as -> <-. by exists i, f.
Qed.

(** ** The end of [Open] *)

(** The log is truncated behind its last record, or nothing happens. *)
Lemma Recover_died w log tail fl f i s r w1 :
  disk_at (sunny w) log tail fl Ts -> content log tail fl ->
  w_dir w !! walName = Some i -> file_ino w f = Some i -> 0 <= s <= len log -> s < 2 ^ 64 ->
  WAL_Recover (mkWAL f walName s) w = (r, w1) -> holds w1.
Proof.
  intros Hd Hc Hdir Hi Hs1 Hs2 E. pose proof (disk_holds _ _ _ _ Hd Hc) as Hh.
  pose proof Hd as [Hw Hf _ Hwal Htail Hlog _ _ _ _ _].
  cbn [sunny set_faults w_dir w_data] in Hwal. rewrite Hdir in Hwal.
  destruct Hwal as (d & top & Hdata & Hlg & Htop & Ht64).
  destruct (Recover_logged f walName (sunny w) i d (Z.max top s) log tail s Hf Hi Hdata Htail)
    as (s' & Er & _ & Hlg'); [eapply logged_mono; [exact Hlg|lia]|done|lia|lia|].
  revert E Er. unfold WAL_Recover. cbn [wal_file wal_path wal_sequenceNumber].
  change (file_data (sunny w) f) with (file_data w f). destruct (file_data w f) as [file|]; [|done].
  destruct (recover_loop _ file 0 ∅ s 0) as [[[data sq] off]|]; [|done].
  unfold file_Truncate. change (file_ino (sunny w) f) with (file_ino w f). rewrite Hi.
  rewrite (next_outcome_ok (sunny w)) by done. destruct (outcome_cases w) as (o & fs' & ->).
  assert (holds (set_faults fs' w)) as Hsame.
  { apply (holds_same w); [done|]. split; [done|]. split; [done|]. exact (faults_wf fs' _ Hw). }
  destruct o; [|by intros [= _ <-]]. destruct (off <? 0); [by intros [= _ <-]|]. cbn [set_faults sunny w_data].
  intros [= _ <-] [= _ _ Ew]. eapply disk_holds.
  - pose proof (disk_at_log (sunny w) log tail fl Ts i d top log Hd Hdir Hlg Htop Ht64 Hlog) as Hd'.
    assert (sunny (set_data (<[i := take (Z.to_nat off) (default [] (w_data w !! i)) ++
      replicate (Z.to_nat off - length (default [] (w_data w !! i))) x00]> (w_data w)) (set_faults fs' w)) =
      set_data (<[i := d]> (w_data (sunny w))) (sunny w)) as ->; [|exact Hd'].
    unfold sunny, set_data, set_faults. cbn. f_equal. exact Ew.
  - destruct Hc as (_ & H1' & H2' & H3'). by split.
Qed.

Lemma open_readers_same w0 ssts : keeps (same_disk w0) (open_readers ssts).
Proof.
  induction ssts as [|x ssts IH]; cbn [open_readers]; [apply keeps_ret|].
  apply keeps_bind; [apply NewReader_same|]. intros r. apply keeps_bind; [apply IH|]. intros rest. apply keeps_ret.
Qed.

Lemma open_rest_died w log tail fl mem f i s r w1 :
  disk_at (sunny w) log tail fl Ts -> content log tail fl ->
  w_dir w !! walName = Some i -> file_ino w f = Some i -> 0 <= s <= len log -> s < 2 ^ 64 ->
  open_rest mem (mkWAL f walName s) w = (r, w1) -> holds w1.
Proof.
  intros Hd Hc Hdir Hi Hs1 Hs2. unfold open_rest, gets, mbind, IO_bind.
  pose proof (Recover_died w log tail fl f i s) as Hr.
  destruct (WAL_Recover (mkWAL f walName s) w) as [[rr wl] w2].
  specialize (Hr _ _ Hd Hc Hdir Hi Hs1 Hs2 eq_refl).
  destruct rr as [e|restored]; [by intros [= _ <-]|].
  destruct (put_all _ _) as [mem'|]; [|by intros [= _ <-]].
  pose proof (open_readers_same w2 (sstables_of (os_ReadDir w2)) w2) as Hs.
  destruct (open_readers _ w2) as [readers w3]. intros [= _ <-].
  apply (holds_same w2); [done|]. by apply Hs; split; [|split; [|apply Hr]].
Qed.

(** ** The beginning of [Open]: the log that was set aside *)

(** Entries that are restored twice, or again after an interruption, change nothing. *)
Lemma restored_prefix (es fl done rest : list (bytes * slice)) :
  reordered es fl -> fl = done ++ rest -> (wal_replay done ∅ : gmap bytes slice) ⊆ wal_replay es ∅.
Proof.
  intros HP ->. apply map_subseteq_spec. intros k v Hk.
  destruct (wal_replay_lookup _ _ _ Hk) as ([k' u] & Hin & <- & ->). cbn [fst snd] in *.
  unfold reordered in HP.
  assert ((k', u) ∈ map_to_list (wal_replay es ∅ : gmap bytes slice)) as Hm%elem_of_map_to_list.
  { rewrite <- HP. apply elem_of_app. by left. }
  rewrite Hm. rewrite <- norm_wal_replay, lookup_fmap in Hm. apply fmap_Some in Hm as (x & _ & ->). done.
Qed.

Lemma reordered_Q es fl : reordered es fl -> Forall Q es -> Forall Q fl.
Proof using HQ.
  intros HP Hq. unfold reordered in HP. rewrite HP. apply Forall_forall.
  intros [k v] Hkv%elem_of_map_to_list. destruct (wal_replay_lookup _ _ _ Hkv) as ([k' u] & Hin & <- & ->).
  apply HQ. rewrite Forall_forall in Hq. exact (Hq _ Hin).
Qed.

Lemma logged_any d top log s e :
  logged d top log -> 0 <= s -> logged (d ++ wal_record s e) (Z.max top s) (log ++ [e]).
Proof.
  intros (ss & Hl & Hs & ->) Hs0. exists (ss ++ [s]). split; [by rewrite !length_app, Hl|]. split.
  - apply Forall_app. split; [|repeat constructor; lia]. eapply Forall_impl; [exact Hs|]. cbn. lia.
  - unfold wal_records. rewrite zip_with_app by done. rewrite concat_app. cbn. by rewrite app_nil_r.
Qed.

(** One more record in the log, whatever its number. *)
Lemma disk_at_record w log fl i d s e :
  disk_at (sunny w) log [] fl Ts -> w_dir w !! walName = Some i -> w_data w !! i = Some d ->
  0 < s <= len log + 1 -> s < 2 ^ 64 -> entry_ok e ->
  disk_at (sunny (set_data (<[i := d ++ wal_record s e]> (w_data w)) w)) (log ++ [e]) [] fl Ts.
Proof.
  intros Hd Hdir Hdata Hs Hs64 He. pose proof Hd as [_ _ _ Hwal _ Hlog _ _ _ _ _].
  cbn [sunny set_faults w_dir w_data] in Hwal. rewrite Hdir in Hwal.
  destruct Hwal as (d' & top & Hd' & Hlg & Htop & Ht64). rewrite app_nil_r in Hd'.
  assert (d' = d) as -> by congruence.
  apply (disk_at_log (sunny w) log [] fl Ts i _ (Z.max top s) (log ++ [e])); try done.
  - apply logged_any; [done|lia].
  - rewrite len_app. change (len [e]) with 1. lia.
  - lia.
  - apply Forall_app. split; [done|]. by constructor.
Qed.

(** the state of a part that recovers: finished, or stopped on the way *)
Definition stopped_holds (w : World) : Prop := dead w /\ (w_faults w <> [] -> holds w).

Lemma disk_stopped w log tail fl fs :
  disk_at (sunny w) log tail fl Ts -> content log tail fl -> dead (set_faults fs w) ->
  stopped_holds (set_faults fs w).
Proof. intros Hd Hc Hdead. split; [done|]. intros _. by eapply disk_holds. Qed.

(** [WriteEntry] writes its record, or the process stops, before or after it. *)
Lemma WriteEntry_stopped wl k v w i d r wl' w' :
  stopping (w_faults w) -> file_ino w (wal_file wl) = Some i -> w_data w !! i = Some d ->
  0 <= wal_sequenceNumber wl -> wal_sequenceNumber wl + 1 < 2 ^ 64 ->
  WAL_WriteEntry wl k v w = ((r, wl'), w') ->
  let s := wal_sequenceNumber wl + 1 in
  let w1 := set_data (<[i := d ++ wal_record s (k, v)]> (w_data w)) w in
  (r = None /\ wl' = mkWAL (wal_file wl) (wal_path wl) s /\ exists fs, w' = set_faults fs w1 /\ stopping fs) \/
  (r <> None /\ exists fs, dead (set_faults fs w) /\ (w' = set_faults fs w \/ w' = set_faults fs w1)).
Proof.
  intros Hst Hi Hd H0s Hs E. cbn zeta. revert E.
  unfold WAL_WriteEntry, mbind, IO_bind. cbn [wal_sequenceNumber]. unfold u64. rewrite Z.mod_small by lia.
  unfold file_Write. rewrite Hi. set (rec := wal_header _ k _ ++ _). change (wal_record _ (k, v)) with rec.
  destruct (stopping_next w Hst) as [(fs & -> & Hfs)|(fs & -> & Hdead)]; cbn [set_faults w_data]; rewrite Hd; cbn [default id].
  - unfold file_Sync, file_ino. cbn [set_data set_faults w_fds]. unfold file_ino in Hi. rewrite Hi.
    destruct (stopping_next (set_data (<[i := d ++ rec]> (w_data w)) (set_faults fs w)) Hfs)
      as [(fs' & -> & Hfs')|(fs' & -> & Hdead')].
    + intros [= <- <- <-]. left. split; [done|]. split; [done|]. by exists fs'.
    + intros [= <- <- <-]. right. split; [done|]. exists fs'. split; [done|by right].
  - intros [= <- <- <-]. right. split; [done|]. exists fs. split; [done|left].
    cbn. rewrite app_nil_r, insert_id by done. by destruct w.
Qed.

Section aside.
Context (log es : list (bytes * slice)) (Hc : content log [] (Some es)).
Context (fl : list (bytes * slice)) (HP : reordered es fl) (Hlen : len fl < 2 ^ 64).
Context (Hfl : Forall entry_ok fl).

Lemma content_partial done rest : fl = done ++ rest -> content (log ++ done) [] (Some es).
Proof using All.
  intros E. destruct Hc as (_ & Hm & Hl & He). pose proof (restored_prefix _ _ _ _ HP E) as Hsub.
  pose proof (reordered_Q es fl HP He) as Hq. rewrite E in Hq. apply Forall_app in Hq as [Hq _].
  split; [done|]. split; [|split; [by apply Forall_app|done]].
  cbn [default id] in *. rewrite <- Hm, !wal_replay_over, (assoc_L (∪)). f_equal.
  apply map_eq. intros k. rewrite lookup_union.
  destruct ((wal_replay done ∅ : gmap bytes slice) !! k) as [v|] eqn:Ek.
  - by rewrite (lookup_weaken _ _ _ _ Ek Hsub).
  - by rewrite (right_id_L None (∪)).
Qed.

Lemma content_whole : content (log ++ fl) [] None.
Proof using All.
  destruct Hc as (_ & Hm & Hl & He). split; [done|]. cbn [default id] in *. rewrite app_nil_r.
  split; [by rewrite (reordered_replay _ es), <- wal_replay_over|].
  split; [|constructor]. apply Forall_app. split; [done|by apply (reordered_Q es)].
Qed.

Lemma restore_stopped rest : forall done mem M0 f i w r w1,
  fl = done ++ rest -> stopping (w_faults w) -> disk_at (sunny w) (log ++ done) [] (Some es) Ts ->
  w_dir w !! walName = Some i -> file_ino w f = Some i -> repr mem M0 ->
  restore_flushing mem (mkWAL f walName (len done)) rest w = (r, w1) ->
  stopped_holds w1 \/
  stopping (w_faults w1) /\ disk_at (sunny w1) (log ++ fl) [] (Some es) Ts /\
    w_dir w1 = w_dir w /\ w_fds w1 = w_fds w /\
    exists mem', r = inr (mem', mkWAL f walName (len fl)).
Proof using All.
  induction rest as [|[k v] rest IH]; intros done mem M0 f i w r w1 E Hst Hd Hdir Hi Hm; cbn [restore_flushing].
  - intros [= <- <-]. right. rewrite app_nil_r in E. subst done. split; [done|]. split; [done|].
    split; [done|]. split; [done|]. by exists mem.
  - destruct (SkipList_Put_spec mem M0 k v Hm) as (mem' & -> & Hm').
    pose proof (do_wal _ _ _ _ _ Hd) as Hwal. cbn [sunny set_faults w_dir w_data] in Hwal. rewrite Hdir in Hwal.
    destruct Hwal as (d & top & Hdata & Hlg & Htop & Ht64). rewrite app_nil_r in Hdata.
    assert (len done + 1 + len rest = len fl) as El by (rewrite E, len_app, len_cons; lia).
    pose proof (len_nonneg rest). pose proof (len_nonneg done).
    assert (entry_ok (k, v)) as Hok.
    { rewrite Forall_forall in Hfl. apply Hfl. rewrite E. apply elem_of_app. right. by left. }
    assert (fl = (done ++ [(k, v)]) ++ rest) as E' by by rewrite <- app_assoc.
    pose proof (disk_at_record w (log ++ done) (Some es) i d (len done + 1) (k, v) Hd Hdir Hdata
      ltac:(rewrite len_app; pose proof (len_nonneg log); lia) ltac:(lia) Hok) as Hd2.
    rewrite <- app_assoc in Hd2.
    unfold mbind, IO_bind. destruct (WAL_WriteEntry _ k v w) as [[e wl'] w2] eqn:Ew.
    destruct (WriteEntry_stopped (mkWAL f walName (len done)) k v w i d e wl' w2 Hst Hi Hdata ltac:(cbn; lia) ltac:(cbn; lia) Ew)
      as [(-> & -> & fs & -> & Hfs)|(He & fs & Hdead & Hw2)]; cbn [wal_file wal_path wal_sequenceNumber] in *.
    + set (w2 := set_data _ w) in *.
      replace (len done + 1) with (len (done ++ [(k, v)])) by by rewrite len_app.
      intros Er. destruct (IH (done ++ [(k, v)]) mem' _ f i (set_faults fs w2) r w1 E' Hfs Hd2 Hdir Hi Hm' Er)
        as [?|(H1' & H2' & H3' & H4' & H5')]; [by left|right]. by split_and!.
    + destruct e as [e|]; [|done]. intros [= _ <-]. left. destruct Hw2 as [->| ->].
      * eapply disk_stopped; [exact Hd|by eapply content_partial|done].
      * eapply disk_stopped; [exact Hd2|by eapply content_partial|done].
Qed.
End aside.

(** what runs after the process has stopped *)
Lemma stalled_holds {A} (p : IO A) w r w1 :
  stalls p -> stopped_holds w -> p w = (r, w1) -> stopped_holds w1.
Proof.
  intros Hp [Hd Hh] E. destruct (sl_fades _ Hp w) as [pre Ef]. rewrite E in Ef. cbn [snd] in Ef.
  split; [by eapply dead_suffix|]. intros Hne. eapply (holds_stalls p w); try done. apply Hh.
  intros E0. rewrite E0 in Ef. symmetry in Ef. by apply app_nil in Ef as [_ ?].
Qed.

Lemma bind_run {A B} (c : IO A) (k : A -> IO B) w : (c ≫= k) w = k (c w).1 (c w).2.
Proof. unfold mbind, IO_bind. by destruct (c w). Qed.

(** A log that needs no truncation is read, or the process stops. *)
Lemma Recover_stopped wl w mm wl' :
  stopping (w_faults w) -> WAL_Recover wl (sunny w) = ((inr mm, wl'), sunny w) ->
  (exists fs, WAL_Recover wl w = ((inr mm, wl'), set_faults fs w) /\ stopping fs) \/
  (exists e fs, WAL_Recover wl w = ((inl e, wl'), set_faults fs w) /\ dead (set_faults fs w)).
Proof.
  intros Hst. unfold WAL_Recover. change (file_data (sunny w) (wal_file wl)) with (file_data w (wal_file wl)).
  destruct (file_data w (wal_file wl)) as [file|]; [|done].
  destruct (recover_loop _ file 0 ∅ _ 0) as [[[data sq] off]|]; [|done].
  unfold file_Truncate. change (file_ino (sunny w)) with (file_ino w).
  destruct (file_ino w (wal_file wl)) as [i|]; [|done]. rewrite (next_outcome_ok (sunny w)) by done.
  destruct (stopping_next w Hst) as [(fs & -> & Hfs)|(fs & -> & Hdead)].
  - destruct (off <? 0); [done|]. cbn [set_faults sunny w_data]. intros [= <- <- Ew]. left. exists fs.
    split; [|done]. f_equal. unfold set_data, set_faults. cbn. by rewrite Ew.
  - destruct (off <? 0); [done|]. intros [= _ <- _]. right. by eexists _, fs.
Qed.

(** [Close] leaves the disk alone, and stops or goes on. *)
Lemma Close_stopped f w :
  wf_world w -> stopping (w_faults w) ->
  let w1 := (file_Close f w).2 in
  same_disk w w1 /\ (stopping (w_faults w1) \/ dead w1) /\
  forall g, f_fd g <> f_fd f -> file_ino w1 g = file_ino w g.
Proof.
  intros Hw Hst. cbn zeta. split; [by apply (Close_same w f w)|]. unfold file_Close.
  destruct (file_ino w f); [|split; [by left|done]].
  destruct (stopping_next w Hst) as [(fs & -> & Hfs)|(fs & -> & Hdead)]; cbn [snd];
    (split; [first [by left|by right]|]); intros g Hg; unfold file_ino; cbn; by rewrite lookup_delete_ne.
Qed.

(** the rest of the recovery, once the log that was set aside has been opened and
    read, and once its entries have been written *)
Definition finish_aside (tempWAL : WAL) (r : result (SkipList * WAL)) : IO (result (SkipList * WAL)) :=
  match r with
  | inl e => ret (inl e)
  | inr res => _ ← WAL_Close tempWAL; _ ← os_Remove flushingName; ret (inr res)
  end.

Definition replay_aside (mem : SkipList) (walLog : WAL) (x : result (gmap bytes slice) * WAL)
    : IO (result (SkipList * WAL)) :=
  let '(rr, tempWAL) := x in
  restored ← match rr with inl _ => _ ← WAL_Close tempWAL; ret ∅ | inr m => ret m end;
  r ← restore_flushing mem walLog (go_range restored); finish_aside tempWAL r.

Lemma finish_aside_stalls temp r : stalls (finish_aside temp r).
Proof. destruct r; unfold finish_aside, WAL_Close; repeat stalls_step. Qed.

Lemma replay_aside_stalls mem wl x : stalls (replay_aside mem wl x).
Proof.
  destruct x as [rr temp]. unfold replay_aside. apply stalls_bind.
  - destruct rr; unfold WAL_Close; repeat stalls_step.
  - intros restored. apply stalls_bind; [apply restore_flushing_stalls|]. intros r. apply finish_aside_stalls.
Qed.

(** what the recovery leaves when it goes through *)
Definition recovered_log (log : list (bytes * slice)) (f : File) (i : ino)
    (r : result (SkipList * WAL)) (w1 : World) : Prop :=
  exists fl mem', r = inr (mem', mkWAL f walName (len fl)) /\ len fl < 2 ^ 64 /\
    disk_at (sunny w1) (log ++ fl) [] None Ts /\ content (log ++ fl) [] None /\
    w_dir w1 !! walName = Some i /\ file_ino w1 f = Some i.

Lemma finish_aside_stopped w log es fl f ft i j mem' r w1 :
  stopping (w_faults w) -> disk_at (sunny w) (log ++ fl) [] (Some es) Ts -> content log [] (Some es) ->
  reordered es fl -> len fl < 2 ^ 64 -> Forall entry_ok fl ->
  w_dir w !! walName = Some i -> file_ino w f = Some i -> w_dir w !! flushingName = Some j ->
  f_fd f <> f_fd (wal_file ft) ->
  finish_aside ft (inr (mem', mkWAL f walName (len fl))) w = (r, w1) ->
  stopped_holds w1 \/ recovered_log log f i r w1.
Proof using All.
  intros Hst Hd Hc HP Hlen Hfl Hdir Hi Hj Hne. unfold finish_aside. rewrite bind_run.
  pose proof (do_wf _ _ _ _ _ Hd) as Hw. apply (faults_wf (w_faults w)) in Hw.
  assert (wf_world w) as Hw' by by destruct w.
  pose proof (Close_stopped (wal_file ft) w Hw' Hst) as (Hs & Hfs & Hino). unfold WAL_Close.
  set (w2 := (file_Close _ w).2) in *. destruct Hs as (E1 & E2 & Hw2).
  assert (disk_at (sunny w2) (log ++ fl) [] (Some es) Ts) as Hd2
    by (apply (disk_at_same (sunny w)); [done|exact (faults_wf [] w2 Hw2)|done..]).
  pose proof (content_partial log es Hc fl HP Hlen Hfl fl [] (eq_sym (app_nil_r fl))) as Hc2.
  destruct Hfs as [Hfs|Hdead].
  2: { intros E. left. refine (stalled_holds _ w2 _ _ _ _ E); [repeat stalls_step|].
       split; [done|]. intros _. by eapply disk_holds. }
  rewrite bind_run. unfold os_Remove. rewrite E1, Hj.
  destruct (stopping_next w2 Hfs) as [(fs & -> & Hfs')|(fs & -> & Hdead)]; intros [= <- <-].
  - right. exists fl, mem'. split; [done|]. split; [done|].
    split; [exact (disk_at_remove _ _ _ _ _ Hd2)|]. split; [by apply content_whole with es|].
    split; [|by rewrite <- Hi, <- (Hino f Hne)]. cbn. by rewrite lookup_delete_ne, E1.
  - left. by eapply disk_stopped.
Qed.

(** The log that was set aside is recovered, or the process stops on the way. *)
Lemma recover_flushing_stopped w log es f i mem r w1 :
  stopping (w_faults w) -> disk_at (sunny w) log [] (Some es) Ts -> content log [] (Some es) ->
  w_dir w !! walName = Some i -> file_ino w f = Some i -> repr mem [] ->
  recover_flushing mem (mkWAL f walName 0) w = (r, w1) ->
  stopped_holds w1 \/ recovered_log log f i r w1.
Proof using All.
  intros Hst Hd Hc Hdir Hi Hm.
  destruct (aside_log_ok _ _ _ _ Hd) as (j & ft & s & Ej & Eft & En & Hft & Er).
  pose proof (do_flushing _ _ _ _ _ Hd) as Hfl. unfold flushing_ok in Hfl. rewrite Ej in Hfl.
  destruct Hfl as (_ & _ & _ & _ & _ & Hokf & Hsize).
  set (mm := wal_replay es ∅) in *. set (fl := go_range mm).
  assert (reordered es fl) as HP by apply go_range_perm.
  assert (len fl < 2 ^ 64) as Hlen by (unfold len; by rewrite (HP : fl ≡ₚ map_to_list mm), length_map_to_list).
  pose proof (reordered_ok es fl HP Hokf) as Hokfl.
  change (recover_flushing mem (mkWAL f walName 0)) with
    (st ← gets (fun w => os_Stat_Size w flushingName);
     match st with
     | inl _ => ret (inr (mem, mkWAL f walName 0))
     | inr _ => r ← NewWAL flushingName;
        match r with
        | inl _ => ret (inr (mem, mkWAL f walName 0))
        | inr tempWAL => x ← WAL_Recover tempWAL; replay_aside mem (mkWAL f walName 0) x
        end
     end).
  rewrite bind_run. unfold gets at 1 2, os_Stat_Size. cbn [fst snd].
  change (w_dir (sunny w)) with (w_dir w) in Ej. rewrite Ej, bind_run.
  destruct (NewWAL flushingName w) as [rn w2] eqn:E2. cbn [fst snd].
  destruct (NewWAL_outcome _ _ _ _ E2) as [Hf2 Ho].
  destruct (stopping_next w Hst) as [(fs & En2 & Hfs)|(fs & En2 & Hdead)]; rewrite En2 in Hf2, Ho; cbn [fst snd] in *.
  2: { destruct Ho as [[e ->] ->]. intros [= <- <-]. left. by eapply disk_stopped. }
  destruct rn as [e|temp]; [done|].
  pose proof (NewWAL_steady flushingName w) as Hsd. rewrite E2 in Hsd. specialize (Hsd Logic.I).
  cbn [fst snd] in Hsd. rewrite Hsd in En.
  pose proof (f_equal snd En) as Ew2. apply (f_equal fst) in En. cbn [fst snd] in En, Ew2. injection En as ->.
  assert (w2 = set_faults fs (opened j (sunny w))) as ->.
  { rewrite <- Ew2. cbn in Hf2. subst fs. by destruct w2. }
  clear E2 Hsd Ew2 Hf2 En2. set (w2 := opened j (sunny w)) in *.
  assert (disk_at (sunny (set_faults fs w2)) log [] (Some es) Ts) as Hd2.
  { apply (disk_at_same (sunny w)); try done. apply (wf_opened j (sunny w)); [apply Hd|].
    eapply (ww_dir (sunny w)); [apply Hd|exact Ej]. }
  pose proof (wf_fd_lt (sunny w) f i (do_wf _ _ _ _ _ Hd) Hi) as Hlt.
  assert (file_ino w2 f = Some i) as Hi2.
  { unfold file_ino. cbn. cbn in Hlt. by rewrite lookup_insert_ne by lia. }
  rewrite bind_run.
  destruct (Recover_stopped (mkWAL ft flushingName 0) (set_faults fs w2) mm (mkWAL ft flushingName s) Hfs Er)
    as [(fs2 & -> & Hfs2)|(e & fs2 & -> & Hdead)]; cbn [fst snd].
  2: { intros E. left. refine (stalled_holds _ _ _ _ (replay_aside_stalls _ _ _) _ E).
       eapply disk_stopped; [exact Hd2|exact Hc|exact Hdead]. }
  change (set_faults fs2 (set_faults fs w2)) with (set_faults fs2 w2).
  unfold replay_aside. rewrite bind_run. cbn [ret fst snd]. fold fl. rewrite bind_run.
  destruct (restore_flushing mem (mkWAL f walName 0) fl (set_faults fs2 w2)) as [rr w3] eqn:E3. cbn [fst snd].
  destruct (restore_stopped log es Hc fl HP Hlen Hokfl fl [] mem [] f i (set_faults fs2 w2) rr w3 eq_refl Hfs2
    ltac:(by rewrite app_nil_r) Hdir Hi2 Hm E3) as [Hsh|(Hfs3 & Hd3 & Edir & Efds & mem' & ->)].
  - intros E. left. exact (stalled_holds _ _ _ _ (finish_aside_stalls _ _) Hsh E).
  - apply (finish_aside_stopped w3 log es fl f (mkWAL ft flushingName s) i j mem'); try done.
    + by rewrite Edir.
    + unfold file_ino. rewrite Efds. exact Hi2.
    + by rewrite Edir.
    + cbn. rewrite Eft. cbn. cbn in Hlt. lia.
Qed.

(** ** [Open] *)

(** The process ends at a system call of [Open].  A log that was set aside is
    recovered by calls that succeed until the process stops: an error that [Open]
    survives can lose that log ([failed_recovery_drops_log]). *)
Definition dies_opening (w w' : World) : Prop :=
  exists fs r w1, Open (set_faults fs w) = (r, w1) /\ w' = crash w1 /\
    (w_dir w !! flushingName = None \/ fs = [] \/ stopping fs /\ w_faults w1 <> []).

(** A run of [Open] that nothing interrupts. *)
Lemma Open_whole w log tail fl r w1 :
  disk_at w log tail fl Ts -> content log tail fl -> Open w = (r, w1) -> holds w1.
Proof using All.
  intros Hd Hc E. destruct (Open_at w log tail fl Ts Hd (proj1 Hc))
    as (db & w2 & A & es & E2 & Hrec & He & HA & Hcl & Hf & Hfl & Hdir & Hq).
  rewrite E in E2. injection E2 as -> <-.
  pose proof (crash_disk_ok _ _ _ _ _ He Hq Hfl Hdir) as Hd2. split; [exact (eo_wf _ _ _ _ _ _ He)|].
  exists (log ++ es), [], None. split; [exact Hd2|]. destruct Hc as (Htl & Hm & Hl & Hq').
  split; [done|]. cbn [default id]. rewrite app_nil_r.
  destruct fl as [fl|]; cbn [recovered default id] in *.
  - split; [by rewrite (reordered_replay _ fl), <- wal_replay_over|].
    split; [|constructor]. apply Forall_app. split; [done|by apply (reordered_Q fl)].
  - subst es. rewrite app_nil_r in *. by split_and!.
Qed.

(** [Open] on a directory without a log that was set aside, whatever fails. *)
Lemma Open_died w log tail fs r w1 :
  disk_at w log tail None Ts -> content log tail None -> Open (set_faults fs w) = (r, w1) -> holds w1.
Proof.
  intros Hd Hc. unfold Open, and_then, and_bind, mbind, IO_bind, os_MkdirAll.
  assert (forall fs', sunny (set_faults fs' w) = w) as Hsun by (intros fs'; apply sunny_faults, Hd).
  destruct (outcome_cases (set_faults fs w)) as (o & fs1 & ->).
  change (set_faults fs1 (set_faults fs w)) with (set_faults fs1 w).
  assert (disk_at (sunny (set_faults fs1 w)) log tail None Ts) as Hd0 by by rewrite Hsun.
  destruct o; [|intros [= _ <-]; by eapply disk_holds].
  unfold gets at 1. destruct (NewWAL walName (set_faults fs1 w)) as [[e|wl] w2] eqn:En.
  { destruct (NewWAL_outcome _ _ _ _ En) as [_ Ho]. destruct (outcome_cases (set_faults fs1 w)) as (o & fs2 & E2).
    rewrite E2 in Ho. destruct o; [done|]. destruct Ho as [_ ->]. intros [= _ <-]. by eapply disk_holds. }
  destruct (NewWAL_opened _ _ _ _ _ _ Hd0 En) as (i & f & -> & Hd1 & Hi & Hf).
  assert (w_dir w2 !! flushingName = None) as Hfl by exact (proj1 (flushing_none (sunny w2)) (do_flushing _ _ _ _ _ Hd1)).
  unfold recover_flushing, gets, mbind, IO_bind, os_Stat_Size. rewrite Hfl. unfold ret.
  apply (open_rest_died w2 log tail None _ f i); try done. pose proof (len_nonneg log). lia.
Qed.

(** [Open] on a directory with a log that was set aside, until the process stops. *)
Lemma Open_stopped w log es fs r w1 :
  disk_at w log [] (Some es) Ts -> content log [] (Some es) -> stopping fs ->
  Open (set_faults fs w) = (r, w1) -> w_faults w1 <> [] -> holds w1.
Proof using All.
  intros Hd Hc Hst E Hne.
  assert (forall w2, stopped_holds w2 -> forall A (p : IO A) x, stalls p -> p w2 = (x, w1) -> holds w1) as Hend.
  { intros w2 Hs A p x Hp Ep. by apply (stalled_holds p w2 x w1 Hp Hs Ep). }
  assert (forall fs', sunny (set_faults fs' w) = w) as Hsun by (intros fs'; apply sunny_faults, Hd).
  revert E. unfold Open, and_then. rewrite bind_run. unfold os_MkdirAll.
  assert (disk_at (sunny w) log [] (Some es) Ts) as Hdw by (rewrite (Hsun [] : sunny w = w); exact Hd).
  destruct (stopping_next (set_faults fs w) Hst) as [(fs1 & -> & Hfs1)|(fs1 & -> & Hdead)]; cbn [fst snd].
  2: { intros [= _ <-]. by eapply disk_holds. }
  change (set_faults fs1 (set_faults fs w)) with (set_faults fs1 w).
  rewrite bind_run. unfold gets at 1. cbn [fst snd]. unfold gets at 1. cbn [fst snd]. set (mem := NewSkipList _).
  unfold and_bind at 1. rewrite bind_run.
  destruct (NewWAL walName (set_faults fs1 w)) as [rn w2] eqn:En. cbn [fst snd].
  destruct (NewWAL_outcome _ _ _ _ En) as [Hf2 Ho].
  destruct (stopping_next (set_faults fs1 w) Hfs1) as [(fs2 & E2 & Hfs2)|(fs2 & E2 & Hdead)];
    rewrite E2 in Hf2, Ho; cbn [fst snd] in *.
  2: { destruct Ho as [[e ->] ->]. intros [= _ <-]. by eapply disk_holds. }
  destruct rn as [e|wl]; [done|].
  destruct (NewWAL_opened (set_faults fs1 w) _ _ _ _ _ Hdw En) as (i & f & -> & Hd2 & Hi & Hf).
  unfold and_bind. rewrite bind_run.
  destruct (recover_flushing mem (mkWAL f walName 0) w2) as [rr w3] eqn:E3. cbn [fst snd].
  destruct (recover_flushing_stopped w2 log es f i mem rr w3 ltac:(by rewrite Hf2) Hd2 Hc Hi Hf
    (NewSkipList_repr _) E3) as [Hs|(fl & mem' & -> & Hlen & Hd3 & Hc3 & Hi3 & Hf3)].
  - intros E. refine (Hend w3 Hs _ _ _ _ E). destruct rr as [e|[mem' wl']]; [apply stalls_ret|apply open_rest_stalls].
  - apply (open_rest_died w3 _ _ _ mem' f i _ r w1 Hd3 Hc3); try done. rewrite len_app. pose proof (len_nonneg log). pose proof (len_nonneg fl). lia.
Qed.

Lemma disk_dies_opening w log tail fl w' :
  disk_at w log tail fl Ts -> content log tail fl -> dies_opening w w' ->
  exists log' tail' fl', disk_at w' log' tail' fl' Ts /\ content log' tail' fl'.
Proof using All.
  intros Hd Hc (fs & r & w1 & E & -> & Hcase).
  assert (holds w1) as [_ Hh]; [|exact Hh].
  pose proof (do_flushing _ _ _ _ _ Hd) as Hfl. unfold flushing_ok in Hfl. destruct fl as [es|]; [|by eapply Open_died].
  destruct (w_dir w !! flushingName) as [j|] eqn:Ej; [|done].
  destruct Hcase as [?|[->|[Hst Hne]]]; [done| |].
  - apply (Open_whole w log tail (Some es) r w1 Hd Hc). rewrite <- E. f_equal.
    pose proof (do_faults _ _ _ _ _ Hd). destruct w; cbn in *; by subst.
  - destruct Hc as (Htl & Hc). rewrite Htl in * by done. by eapply Open_stopped.
Qed.
End opening.

Section interrupted.
Context `{Murmur3} `{Runtime}.

(** A directory at rest stays at rest. *)
Lemma at_rest_opening P w w' : at_rest P w -> dies_opening w w' -> at_rest P w'.
Proof.
  intros (log & tail & fl & Ts & Hd & Htl & Hlog & Hfl & HT) Hdies.
  destruct (disk_dies_opening (good P) ltac:(intros k v; unfold good; cbn [fst snd]; by rewrite visible_norm)
    Ts (wal_replay (log ++ default [] fl) ∅) w log tail fl w' Hd) as (log' & tail' & fl' & Hd' & Htl' & _ & H1' & H2');
    [by split|done|]. by exists log', tail', fl', Ts.
Qed.

(** When [Open] is let run to its end it succeeds, with what the directory held at
    first. *)
Lemma interrupted_Open w w' log tail fl Ts :
  disk_at w log tail fl Ts -> (fl <> None -> tail = []) -> rtc dies_opening w w' ->
  exists db w2 log' A, Open w' = (inr db, w2) /\ engine_ok w2 db log' A None Ts /\
    (list_to_map A : gmap bytes slice) = wal_replay (log ++ default [] fl) ∅.
Proof.
  intros Hd Htl Hdies.
  assert (exists m : gmap bytes slice, m = wal_replay (log ++ default [] fl) ∅) as [m Hm] by eauto.
  rewrite <- Hm.
  assert (content (fun _ => True) m log tail fl) as Hc by (split_and!; try done; by apply Forall_true).
  clear Hm Htl. revert log tail fl Hd Hc. induction Hdies as [w|w w1 w' Hstep _ IH]; intros log tail fl Hd Hc.
  - destruct Hc as (Htl & Hm & _).
    destruct (Open_at w log tail fl Ts Hd Htl) as (db & w2 & A & es & E & Hrec & He & HA & _).
    exists db, w2, (log ++ es), A. split; [done|]. split; [done|]. rewrite HA, <- Hm.
    destruct fl as [fl|]; cbn [recovered default id] in *; [|by subst es].
    by rewrite (reordered_replay _ fl), <- wal_replay_over.
  - destruct (disk_dies_opening (fun _ => True) (fun _ _ _ => Logic.I) Ts m w log tail fl w1 Hd Hc Hstep) as (log' & tail' & fl' & Hd' & Hc').
    by apply (IH log' tail' fl').
Qed.


(** C8: Acknowledged writes survive a crash.  An engine is opened on a directory,
    with a torn record at the end of its log or with a log that an interrupted flush
    has set aside, and runs some [Put]s and [Delete]s, all acknowledged, without a
    flush or a compaction.  The process stops after them, and may stop again while
    [Open] recovers, any number of times.  When the directory has been opened, every
    key on which no table lookup runs past its entries is answered as after the same
    operations with each nil value replaced by an empty one: so a key whose last
    operation is a [Put] of a value, or that was not operated on, is answered as
    before the crash, and a deleted one with an empty value. *)
Theorem engine_crash_recovery (w : World) (log : list (bytes * slice)) (tail : bytes)
    (fl : option (list (bytes * slice))) (Ts : list (Z * list (bytes * slice))) (ops : list op)
    (Hd : disk_at w log tail fl Ts) (Htl : fl <> None -> tail = []) (Hops : Forall op_ok ops)
    (Hlen : len log + len (default [] fl) + len ops < 2 ^ 64) :
  exists db w1, session ops w = (inr db, w1) /\
    forall w', rtc dies_opening (crash w1) w' ->
      exists db' w2, Open w' = (inr db', w2) /\
        forall k, clean_lookup Ts k ->
          StrataGo_Get w2 db' k =
            Some (foldl (fun a o => if decide (k = (op_entry o).1) then norm (op_entry o).2 else a)
                    (initial_answer (log ++ default [] fl) Ts k) ops) /\
          ((forall o, last (filter (fun o => (op_entry o).1 = k) ops) = Some o ->
             is_Some (op_entry o).2) ->
           StrataGo_Get w2 db' k = StrataGo_Get w1 db k).
Proof.
  destruct (session_at_ok w log tail fl Ts ops Hd Htl Hops Hlen)
    as (db & w1 & A & es & E & Hinit & He & Ha & Hseq & Hfl & Hdir).
  exists db, w1. split; [done|]. intros w' Hdies.
  destruct (interrupted_Open _ _ _ _ _ _ (crash_disk_ok _ _ _ _ _ He Hseq Hfl Hdir) ltac:(done) Hdies)
    as (db' & w2 & log' & A' & E' & He' & HA'). cbn [default] in HA'. rewrite app_nil_r in HA'.
  exists db', w2. split; [done|]. intros k Hk.
  rewrite (Get_ok _ _ _ _ _ _ k He Hk), (Get_ok _ _ _ _ _ _ k He' Hk), Ha.
  rewrite (answer_initial ((log ++ es) ++ (op_entry <$> ops))) by done. split.
  - by rewrite initial_answer_app, Hinit.
  - intros Hlast. f_equal. rewrite initial_answer_app, Hinit. by apply foldl_norm_last.
Qed.

(** an executable version *)
#[export] Instance outcome_eq_dec : EqDecision outcome.
Proof. solve_decision. Defined.

#[export] Instance stopping_dec fs : Decision (stopping fs).
Proof. induction fs as [|[|n] fs IH]; cbn [stopping]; apply _. Defined.

Definition die_opening (fs : list outcome) (w : World) : option World :=
  let '(_, w1) := Open (set_faults fs w) in
  guard (w_dir w !! flushingName = None \/ fs = [] \/ stopping fs /\ w_faults w1 <> []);; Some (crash w1).

Lemma die_opening_dies fs w w' : die_opening fs w = Some w' -> dies_opening w w'.
Proof.
  unfold die_opening. destruct (Open (set_faults fs w)) as [r w1] eqn:E. case_guard; [|done].
  intros [= <-]. by exists fs, r, w1.
Qed.
End interrupted.

(** *** A start that is interrupted twice *)

(** a directory that a flush has left: a table, the log, and the log set aside *)
Definition aside_log : list (bytes * slice) := [([x63], Some [x01]); ([x64], None); ([x63], Some [x02])].
Definition aside_disk : World :=
  mkWorld {[sst_name 5 := 0%nat; walName := 1%nat; flushingName := 2%nat]}
    {[0%nat := sst_bytes (H := fnv) table1; 1%nat := wal_image 0 old_log; 2%nat := wal_image 0 aside_log]}
    ∅ 3%nat 1000 [].

Lemma aside_disk_ok : disk_at (H := fnv) aside_disk old_log [] (Some aside_log) [(5, table1)].
Proof.
  split; unfold aside_disk; cbn [w_dir w_data w_fds w_next w_faults].
  - split; cbn [w_dir w_data w_fds w_next].
    + done.
    + intros n Hn. rewrite !lookup_insert_ne, lookup_singleton_ne by lia. done.
    + intros s i. rewrite !lookup_insert_Some, lookup_singleton_Some.
      intros [[_ <-]|[_ [[_ <-]|[_ [_ <-]]]]]; vm_compute; eauto.
    + intros f i Hi. by rewrite lookup_empty in Hi.
  - done.
  - intros s1 s2 i. rewrite !lookup_insert_Some, !lookup_singleton_Some.
    intros [[<- <-]|[_ [[<- <-]|[_ [<- <-]]]]] [[<- E]|[_ [[<- E]|[_ [<- E]]]]]; done.
  - rewrite lookup_insert_ne, lookup_insert_eq by done.
    exists (wal_image 0 old_log), 1. split; [by vm_compute|]. split; [apply logged_image|done].
  - apply torn_stops, torn_nil.
  - repeat constructor.
  - unfold flushing_ok. cbn [w_dir w_data]. rewrite !lookup_insert_ne, lookup_singleton_eq by done.
    exists (wal_image 0 aside_log), 3. split; [by vm_compute|]. split; [apply logged_image|].
    split; [done|]. split; [repeat constructor|by vm_compute].
  - apply Forall_singleton. split; [exact table1_ok|]. exists 0%nat. split; vm_compute; reflexivity.
  - repeat constructor.
  - apply Forall_singleton. cbn. lia.
  - intros s Hs. cbn [w_dir]. rewrite !lookup_insert_is_Some, lookup_singleton_is_Some.
    intros [<-|[_ [<-|[_ <-]]]]; [exists (5, table1); split; [by apply list_elem_of_singleton|done]| |];
      vm_compute in Hs; discriminate.
Qed.

Section witnesses.
#[local] Existing Instance fnv.
#[local] Existing Instance plain_runtime.




(** operations on the directory with a log set aside; then [Open] is stopped while
    it truncates the log *)
Definition ops_aside : list op := [OpPut [x63] (Some [x09]); OpDelete [x62]; OpPut [x65] (Some [x07])].

Definition crashed_and_interrupted : option (StrataGo * World * World) :=
  match session ops_aside aside_disk with
  | (inr db, w1) => w' ← die_opening [Succeeds; Succeeds; Fails 0; Fails 0; Fails 0] (crash w1); Some (db, w1, w')
  | _ => None
  end.

Lemma engine_crash_recovery_witness :
  exists db w1 w', session ops_aside aside_disk = (inr db, w1) /\ rtc dies_opening (crash w1) w' /\
    exists db' w2, Open w' = (inr db', w2) /\
      forall k, clean_lookup [(5, table1)] k ->
        StrataGo_Get w2 db' k =
          Some (foldl (fun a o => if decide (k = (op_entry o).1) then norm (op_entry o).2 else a)
                  (initial_answer (old_log ++ aside_log) [(5, table1)] k) ops_aside) /\
        ((forall o, last (filter (fun o => (op_entry o).1 = k) ops_aside) = Some o ->
           is_Some (op_entry o).2) ->
         StrataGo_Get w2 db' k = StrataGo_Get w1 db k).
Proof.
  assert (is_Some crashed_and_interrupted) as [[[db w1] w'] Ho] by (apply is_Some_alt; vm_compute; exact Logic.I).
  unfold crashed_and_interrupted in Ho.
  destruct (engine_crash_recovery aside_disk old_log [] (Some aside_log) [(5, table1)] ops_aside
    aside_disk_ok (fun _ => eq_refl) ltac:(repeat constructor) ltac:(reflexivity)) as (db0 & w0 & E & Hall).
  rewrite E in Ho. apply bind_Some in Ho as (w2 & Hdies%die_opening_dies & [= -> -> ->]).
  exists db, w1, w'. split; [exact E|]. split; [by apply rtc_once|]. apply Hall. by apply rtc_once.
Defined.


(** What [recovery_can_be_interrupted] leaves out: with a log set aside, a call that
    fails and is followed by calls that succeed.  When reading that log ends in an
    error (here its truncation), [Open] prints a warning, recovers nothing from it,
    succeeds, and removes it: its entries are lost. *)
Definition failed_truncation : World := set_faults [Succeeds; Succeeds; Succeeds; Fails 0] aside_disk.

Definition failed_truncation_run : option (option (option bytes) * bool) :=
  match Open failed_truncation with
  | (inr db, w1) => Some (StrataGo_Get w1 db [x63], bool_decide (w_dir w1 !! flushingName = None))
  | _ => None
  end.

Theorem failed_recovery_drops_log :
  exists db w1, Open failed_truncation = (inr db, w1) /\ w_dir w1 !! flushingName = None /\
    StrataGo_Get w1 db [x63] = Some None /\
    initial_answer (old_log ++ aside_log) [(5, table1)] [x63] = Some [x02].
Proof.
  assert (failed_truncation_run = Some (Some None, true)) as Hc by vm_equal. unfold failed_truncation_run in Hc.
  destruct (Open failed_truncation) as [[e|db] w1]; [discriminate|]. injection Hc as Hg Hfl.
  exists db, w1. split; [done|]. split; [by apply bool_decide_eq_true in Hfl|]. split; [done|]. by vm_compute.
Qed.
End witnesses.
