(* ===== verification/Lifecycle.v ===== *)
(** * Life cycle of the engine: [Close], [Purge] and the background workers of
    [engine/stratago.go] and [engine/compaction.go]

    [Close] runs the last flush, closes the channels and the files; [Purge]
    closes the engine, empties the data directory and starts again.  The sections
    on [Close] and [Purge] assume idle workers; the flush worker and the clients
    that wake it up are the step relation of the section [worker]. *)
From stdpp Require Import base gmap sets list strings numbers sorting.
From Stdlib Require Import ZArith Lia Strings.Byte.
From S2P Require Import Prelude SkipList Disk Wal Bloom GoFmt Sst Reader Engine Recovery Flush.
From S2P Require Import GoHeap Merge Compaction Provenance Concurrent Durable.
Open Scope Z_scope.

Section lifecycle.
Context `{Murmur3} `{Runtime}.

(** [for _, r := range db.sstReaders { r.Close() }] *)
Fixpoint close_readers (rs : list Reader) : IO unit :=
  match rs with
  | [] => ret tt
  | r :: rs' => _ ← Reader_Close r; close_readers rs'
  end.

(** closing a channel: a second close panics *)
Definition close_chan (c : chan) : option chan :=
  match c with ChanOpen _ => Some ChanClosed | ChanClosed => None end.

Definition StrataGo_Close (db : StrataGo) : IO (err * StrataGo) :=
  if db_closed db then ret (None, db) else
  '(r, db1) ← StrataGo_Flush (set_closed true db);
  match r with
  | Some e => ret (Some (ErrWrap "final flush on close failed" e), db1)
  | None =>
      match close_chan (db_flushChan db1) with
      | None => ret (Some Panic, db1)
      | Some c =>
          let db2 := set_chan c db1 in
          _ ← WAL_Close (db_wal db2);
          _ ← close_readers (db_sstReaders db2);
          ret (None, db2)
      end
  end.

(** the part of [Purge] that follows [Close] *)
Definition purge_reset (db : StrataGo) : IO (err * StrataGo) :=
  and_then os_RemoveAll (fun e => ret (Some e, db)) (
  and_then os_MkdirAll (fun e => ret (Some e, db)) (
  mem ← gets (fun w => NewSkipList (go_coins w));
  let db' := set_readers [] (set_immutable None (set_active mem db)) in
  r ← NewWAL walName;
  match r with
  | inl e => ret (Some e, db')
  | inr newWal => ret (None, set_closed false (set_chan (ChanOpen false) (set_wal newWal db')))
  end)).

Definition StrataGo_Purge (db : StrataGo) : IO (err * StrataGo) :=
  '(r, db') ← StrataGo_Close db;
  match r with
  | Some e => ret (Some e, db')
  | None => purge_reset db'
  end.


(** the events [compactionWorker] selects on *)
Inductive compaction_event := Tick | CloseChan.

Fixpoint compactionWorker (events : list compaction_event) (db : StrataGo) : IO StrataGo :=
  match events with
  | [] => ret db
  | Tick :: es => '(_, db') ← RunCompaction db; compactionWorker es db'
  | CloseChan :: _ => ret db
  end.
End lifecycle.

(** ** Closing *)

Section closing.
Context `{Murmur3} `{Runtime}.

(** [w'] is [w] with fewer open files *)
Definition shrinks (w w' : World) : Prop :=
  w_dir w' = w_dir w /\ w_data w' = w_data w /\ w_fds w' ⊆ w_fds w /\ w_next w' = w_next w /\
  w_now w' = w_now w /\ w_faults w' = w_faults w.

#[export] Instance shrinks_preorder : PreOrder shrinks.
Proof.
  split.
  - intros w. by repeat split.
  - intros w1 w2 w3 (?&?&?&?&?&?) (?&?&?&?&?&?). split_and!; congruence || by etrans.
Qed.

Lemma file_Close_shrinks f w : w_faults w = [] -> shrinks w (file_Close f w).2.
Proof.
  intros Hf. unfold file_Close. destruct (file_ino w f) as [i|]; [|done].
  rewrite next_outcome_ok by done. split_and!; try done. cbn. apply delete_subseteq.
Qed.

Lemma close_readers_shrinks rs : forall w,
  w_faults w = [] -> shrinks w (close_readers rs w).2.
Proof.
  induction rs as [|r rs IH]; intros w Hf; [done|]. cbn [close_readers].
  unfold mbind, IO_bind, Reader_Close. pose proof (file_Close_shrinks (r_file r) w Hf) as H1.
  destruct (file_Close (r_file r) w) as [e w1]. cbn [snd] in H1.
  etrans; [exact H1|]. apply IH. destruct H1 as (_&_&_&_&_&->). done.
Qed.

Lemma shrinks_wf w w' : shrinks w w' -> wf_world w -> wf_world w'.
Proof.
  intros (Ed & Ea & Hfd & En & _) [H1 H2 H3 H4]. split.
  - intros n. rewrite En. intros Hn. eapply lookup_weaken_None; [by apply H1|done].
  - intros n. rewrite En, Ea. apply H2.
  - intros s i. rewrite Ed, Ea. apply H3.
  - intros f i Hi. rewrite Ea. apply (H4 f). by eapply lookup_weaken.
Qed.

(** A closed engine leaves a directory that can be opened. *)
Lemma shrinks_disk_ok w w' db log A Ts :
  engine_ok w db log A None Ts -> shrinks w w' -> w_faults w = [] ->
  wal_sequenceNumber (db_wal db) < 2 ^ 64 ->
  w_dir w !! flushingName = None -> dir_ok w Ts -> disk_ok w' log [] Ts.
Proof.
  intros He Hs Hf Hl Hfl Hd. pose proof (crash_disk_ok _ _ _ _ _ He Hl Hfl Hd) as Hc.
  pose proof (shrinks_wf _ _ Hs (eo_wf _ _ _ _ _ _ He)) as Hwf.
  destruct Hs as (Ed & Ea & _ & _ & _ & Ef). by apply (disk_at_same (crash w)); [|..|rewrite Ef].
Qed.

Lemma engine_ok_closed w db log A I Ts b :
  engine_ok w db log A I Ts -> engine_ok w (set_closed b db) log A I Ts.
Proof. intros [Hwf Hinj Hc Hact Himm Hwal Hlog Htab Hs Hr]. by split. Qed.

Lemma wal_replay_empty log : (wal_replay log ∅ : gmap bytes slice) = ∅ -> log = [].
Proof.
  destruct log as [|e log _] using rev_ind; [done|]. rewrite wal_replay_app. cbn. intros E.
  apply (f_equal (lookup e.1)) in E. by rewrite lookup_insert_eq, lookup_empty in E.
Qed.

Lemma nonempty_idemp (a : option bytes) : (a ≫= nonempty) ≫= nonempty = a ≫= nonempty.
Proof.
  destruct a as [v|]; [|done]. cbn. unfold nonempty at 2 3. destruct (len v =? 0) eqn:E; [done|].
  cbn. unfold nonempty. by rewrite E.
Qed.

(** After a flush the tables alone hold the answers, but for empty values. *)
Lemma answer_flushed A Ts k :
  key_sorted fst A ->
  tables_map (Ts ++ [A]) !! k ≫= nonempty = answer A None Ts k ≫= nonempty.
Proof.
  intros Hs. unfold answer, memory_map.
  change (list_to_map (default [] None)) with (∅ : gmap bytes slice).
  rewrite (right_id_L ∅ (∪)), tables_map_snoc, lookup_union, plain_lookup.
  destruct ((list_to_map A : gmap bytes slice) !! k) as [[v|]|]; cbn.
  - by destruct (tables_map Ts !! k).
  - by destruct (tables_map Ts !! k).
  - by rewrite (left_id_L None (∪)), nonempty_idemp.
Qed.

(** the conditions under which a flush of [A] can succeed now *)
Definition can_flush (w : World) (A : list (bytes * slice)) (Ts : list (Z * list (bytes * slice)))
    : Prop :=
  A = [] \/ memtable_fits A /\ flush_time_ok w Ts.

(** A flush of any memtable, the empty one included. *)
Lemma Flush_all w db log A Ts :
  engine_ok w db log A None Ts -> w_faults w = [] -> can_flush w A Ts -> dir_ok w Ts ->
  w_dir w !! flushingName = None ->
  exists db' w' Ts', StrataGo_Flush db w = ((None, db'), w') /\
    engine_ok w' db' [] [] None Ts' /\ dir_ok w' Ts' /\ w_dir w' !! flushingName = None /\
    w_faults w' = [] /\ w_now w' = w_now w /\ db_closed db' = db_closed db /\
    forall k, tables_map (Ts'.*2) !! k ≫= nonempty = answer A None (Ts.*2) k ≫= nonempty.
Proof.
  intros He Hf Hcan Hd Hfl. destruct (decide (A = [])) as [->|HA].
  - exists db, w, Ts. pose proof (eo_log _ _ _ _ _ _ He) as Hlog. cbn in Hlog.
    rewrite fmap_empty in Hlog. symmetry in Hlog. apply wal_replay_empty in Hlog as ->.
    split; [|split_and!; try done].
    + unfold StrataGo_Flush, flush_rotate, mbind, IO_bind.
      pose proof (eo_imm _ _ _ _ _ _ He) as Hi. unfold imm_repr in Hi.
      destruct (db_immutableMemtable db); [done|].
      by rewrite (repr_size _ _ (eo_active _ _ _ _ _ _ He)).
    + intros k. unfold answer, memory_map.
      change (list_to_map (default [] None)) with (∅ : gmap bytes slice).
      change (list_to_map []) with (∅ : gmap bytes slice).
      by rewrite (left_id_L ∅ (∪)), lookup_empty, nonempty_idemp.
  - destruct Hcan as [?|[Hfit Ht]]; [done|].
    destruct (Flush_ok w db log A Ts He Hf HA Hfit Ht)
      as (db' & w' & E & He' & Hf' & Hn' & Hc' & Hfl' & Hd').
    exists db', w', (Ts ++ [(w_now w, A)]). split; [done|]. split; [done|].
    split; [by apply Hd'|]. split_and!; [done..|]. intros k. rewrite fmap_app.
    apply answer_flushed, (repr_sorted _ _ (eo_active _ _ _ _ _ _ He)).
Qed.

(** [Close] makes all data durable and releases every file. *)
Lemma Close_ok w db log A Ts :
  engine_ok w db log A None Ts -> db_closed db = false -> w_faults w = [] ->
  can_flush w A Ts -> dir_ok w Ts -> w_dir w !! flushingName = None ->
  exists db' w' Ts', StrataGo_Close db w = ((None, db'), w') /\ disk_ok w' [] [] Ts' /\
    db_closed db' = true /\ w_now w' = w_now w /\
    forall k, tables_map (Ts'.*2) !! k ≫= nonempty = answer A None (Ts.*2) k ≫= nonempty.
Proof.
  intros He Hc Hf Hcan Hd Hfl. unfold StrataGo_Close, mbind, IO_bind. rewrite Hc.
  destruct (Flush_all w (set_closed true db) log A Ts) as
    (db' & w' & Ts' & -> & He' & Hd' & Hfl' & Hf' & Hn' & Hc' & Ha'); try done.
  { by apply engine_ok_closed. }
  destruct (eo_chan _ _ _ _ _ _ He') as [full Hch]. rewrite Hch. cbn [close_chan].
  pose proof (file_Close_shrinks (wal_file (db_wal db')) w' Hf') as H1.
  unfold WAL_Close. cbn [set_chan db_wal db_sstReaders].
  destruct (file_Close (wal_file (db_wal db')) w') as [e1 w1]. cbn [snd] in H1.
  assert (w_faults w1 = []) as Hf1 by (by destruct H1 as (_&_&_&_&_&->)).
  pose proof (close_readers_shrinks (db_sstReaders db') w1 Hf1) as H2.
  destruct (close_readers (db_sstReaders db') w1) as [u w2]. cbn [snd] in H2.
  eexists _, w2, Ts'. split; [done|].
  assert (shrinks w' w2) as H3 by by etrans.
  pose proof (engine_seq _ _ _ _ _ _ He') as Hseq. change (len []) with 0 in Hseq.
  split; [eapply shrinks_disk_ok; [exact He'|done|done|lia|done|done]|].
  split; [done|]. split; [|done].
  destruct H3 as (_&_&_&_&->&_). done.
Qed.

(** A closed engine refuses writes, and closing it again does nothing. *)
Lemma closed_engine db w :
  db_closed db = true ->
  (forall k v, StrataGo_Put db k v w = ((Some (ErrMsg "database is closed"), db), w)) /\
  (forall k, StrataGo_Delete db k w = ((Some (ErrMsg "database is closed"), db), w)) /\
  (StrataGo_ScanAll db w).1 = inl (ErrMsg "database is closed") /\
  StrataGo_Close db w = ((None, db), w).
Proof.
  intros Hc. unfold StrataGo_Put, StrataGo_Delete, StrataGo_ScanAll, StrataGo_Close.
  by rewrite Hc.
Qed.
End closing.

(** ** Purging *)

Section purging.
Context `{Murmur3} `{Runtime}.

(** the world after the directory has been emptied and a log created in it *)
Definition purged (w : World) : World :=
  mkWorld {[walName := w_next w]} (<[w_next w := []]> (w_data w))
    (<[S (w_next w) := w_next w]> (w_fds w)) (S (S (w_next w))) (w_now w) (w_faults w).

Lemma wf_purged w : wf_world w -> wf_world (purged w).
Proof.
  intros [H1 H2 H3 H4]. split; cbn.
  - intros n Hn. rewrite lookup_insert_ne by lia. apply H1. lia.
  - intros n Hn. rewrite lookup_insert_ne by lia. apply H2. lia.
  - intros s i [_ <-]%lookup_singleton_Some. apply lookup_insert_is_Some'. by left.
  - intros g j. rewrite lookup_insert_Some. intros [[_ <-]|[_ Hj]];
      apply lookup_insert_is_Some'; eauto.
Qed.

Lemma restart_purged w :
  w_faults w = [] ->
  exists f, NewWAL walName (set_dir ∅ w) = (inr (mkWAL f walName 0), purged w) /\
    f_name f = walName /\ f_fd f = S (w_next w).
Proof.
  intros Hf. rewrite NewWAL_fresh; [|done|apply lookup_empty]. exists (mkFile walName (S (w_next w))).
  split; [|done]. unfold purged. cbn. by rewrite insert_empty.
Qed.

(** the engine that [Purge] starts again *)
Definition restarted (coins : list bool) (f : File) (db : StrataGo) : StrataGo :=
  set_closed false (set_chan (ChanOpen false) (set_wal (mkWAL f walName 0)
    (set_readers [] (set_immutable None (set_active (NewSkipList coins) db))))).

Lemma restarted_ok coins f db w :
  wf_world w -> f_fd f = S (w_next w) -> engine_ok (purged w) (restarted coins f db) [] [] None [].
Proof.
  intros Hw Hfd. split; try done.
  - by apply wf_purged.
  - cbn. intros s1 s2 i [<- _]%lookup_singleton_Some [<- _]%lookup_singleton_Some. done.
  - by exists false.
  - apply NewSkipList_repr.
  - split; [done|]. split; [done|]. split; [constructor|]. exists (w_next w). unfold file_ino, purged.
    cbn [w_dir w_fds w_data wal_file db_wal restarted set_closed set_chan set_wal].
    rewrite lookup_singleton_eq, Hfd, !lookup_insert_eq. split; [done|]. split; [done|].
    exists []. split; [done|]. apply logged_nil.
  - constructor.
Qed.

Lemma purged_dir w : w_dir (purged w) !! flushingName = None /\ dir_ok (purged w) [].
Proof.
  split; [by apply lookup_singleton_ne|]. intros s Hs. cbn. by intros [i [<- _]%lookup_singleton_Some].
Qed.

(** What [Purge] does once the engine is closed. *)
Lemma purge_reset_ok db w :
  wf_world w -> w_faults w = [] ->
  exists db' w', purge_reset db w = ((None, db'), w') /\
    engine_ok w' db' [] [] None [] /\ db_closed db' = false /\ w_faults w' = [] /\
    w_dir w' !! flushingName = None /\ dir_ok w' [].
Proof.
  intros Hw Hf. unfold purge_reset, and_then, mbind, IO_bind, os_RemoveAll, os_MkdirAll.
  rewrite next_outcome_ok by done. unfold gets. rewrite next_outcome_ok by done.
  destruct (restart_purged w Hf) as (f & -> & Hname & Hfd).
  exists (restarted (go_coins (set_dir ∅ w)) f db), (purged w).
  split; [reflexivity|]. split; [by apply restarted_ok|]. split; [done|]. split; [done|]. apply purged_dir.
Qed.

(** [Purge] leaves an engine with no data, ready for use. *)
Lemma Purge_ok w db log A Ts :
  engine_ok w db log A None Ts -> db_closed db = false -> w_faults w = [] ->
  can_flush w A Ts -> dir_ok w Ts -> w_dir w !! flushingName = None ->
  exists db' w', StrataGo_Purge db w = ((None, db'), w') /\
    engine_ok w' db' [] [] None [] /\ db_closed db' = false /\ w_faults w' = [] /\
    w_dir w' !! flushingName = None /\ dir_ok w' [].
Proof.
  intros He Hc Hf Hcan Hd Hfl.
  destruct (Close_ok w db log A Ts He Hc Hf Hcan Hd Hfl)
    as (db1 & w1 & Ts1 & E1 & Hdo & Hc1 & Hn1 & _).
  unfold StrataGo_Purge, mbind, IO_bind. rewrite E1.
  apply purge_reset_ok; [apply (do_wf _ _ _ _ _ Hdo)|apply (do_faults _ _ _ _ _ Hdo)].
Qed.
End purging.

(** ** Properties of [Close] and [Purge] *)

Section properties.
Context `{Murmur3} `{Runtime}.

Lemma idle_can_flush w db log A Ts :
  engine_ok w db log A None Ts -> mem_fits (db_activeMemtable db) -> clock_ok w db ->
  can_flush w A Ts.
Proof.
  intros He Hfit Hck. right. split; [|by eapply clock_time_ok].
  by apply (mem_fits_ok (db_activeMemtable db)); [apply (eo_active _ _ _ _ _ _ He)|].
Qed.

(** Without empty values, what is not found is absent. *)
Lemma answer_no_empty A I Ts k : no_empty A I -> answer A I Ts k ≫= nonempty = answer A I Ts k.
Proof.
  intros Hn. specialize (Hn k). unfold answer.
  destruct (memory_map A I !! k) as [[v|]|]; [|done|apply nonempty_idemp].
  cbn. unfold nonempty. destruct (Z.eqb_spec (len v) 0) as [E|]; [|done].
  by apply len_zero in E as ->.
Qed.

(** C27: Closing loses nothing.  Operations and flushes have run in any
    interleaving since the engine was opened (no compaction, and no empty values),
    and the flush worker is idle.  [Close] succeeds and leaves an engine that
    refuses writes; when the directory is opened again, every key is answered as
    before the close: with the last value written. *)
Theorem close_reopen_roundtrip (w : World) (log : list (bytes * slice)) (tail : bytes)
    (Ts : list (Z * list (bytes * slice))) (db : StrataGo) (w1 : World)
    (l : list (op * err)) (s : sys)
    (Hd : disk_ok w log tail Ts) (Hne : Forall (fun e => slice_bytes e.2 <> []) log)
    (Hopen : Open w = (inr db, w1)) (Hsteps : steps (mkSys w1 db Idle) l s) (Hidle : s_pc s = Idle)
    (Hops : Forall (fun x => op_nonempty x.1) l)
    (Hfit : mem_fits (db_activeMemtable (s_db s))) (Hclock : clock_ok (s_world s) (s_db s)) :
  exists db1 w2 db2 w3,
    StrataGo_Close (s_db s) (s_world s) = ((None, db1), w2) /\
    (forall k v, StrataGo_Put db1 k v w2 = ((Some (ErrMsg "database is closed"), db1), w2)) /\
    Open w2 = (inr db2, w3) /\
    forall k, lookup_inside (s_world s) (s_db s) k -> lookup_inside w3 db2 k ->
      exists a, a = foldl (op_answer k) (initial_answer log Ts k) (l.*1) /\
        StrataGo_Get (s_world s) (s_db s) k = Some a /\ StrataGo_Get w3 db2 k = Some a.
Proof.
  destruct (flushing_steps _ _ _ _ Hsteps Hops _ _ (Open_flushing _ _ _ _ _ _ Hd Hne Hopen))
    as (l1 & l2 & El & Hg). cbn in El. pose proof (fg_idle _ _ _ _ Hg Hidle) as ->.
  rewrite app_nil_r in El. subst l1.
  destruct Hg as [(log' & A & I & Ts' & [He Hf Hc Ha Hn Hpc] & Hdisk & _) _ _].
  rewrite Hidle in *. subst I. destruct Hdisk as [Hfl Hdir].
  destruct (Close_ok _ _ _ A Ts' He Hc Hf (idle_can_flush _ _ _ _ _ He Hfit Hclock) Hdir Hfl)
    as (db1 & w2 & Ts2 & E1 & Hdo & Hc1 & _ & Ha1).
  destruct (Open_ok w2 [] [] Ts2 Hdo) as (db2 & w3 & A3 & E3 & He3 & HA3 & _).
  exists db1, w2, db2, w3. split; [done|]. split; [by apply closed_engine|]. split; [done|].
  intros k Hk1 Hk3. exists (answer A None (Ts'.*2) k). split; [rewrite Ha; by rewrite app_nil_r|].
  split; [by eapply Get_ok; [|eapply lookup_inside_clean]|].
  rewrite (Get_ok w3 db2 [] A3 None Ts2); [|done|by eapply lookup_inside_clean].
  rewrite (answer_initial []) by done. f_equal. unfold initial_answer. cbn. by rewrite lookup_empty, Ha1, answer_no_empty.
Qed.

End properties.

(** ** The flush worker

    A client whose write fills the memtable leaves a signal in [flushChan]; the
    worker takes the signal and runs [Flush].  The boolean of a state says that
    the signal has been taken and the flush has not begun. *)

Section worker.
Context `{Murmur3} `{Runtime}.

Definition wsys : Type := sys * bool.

Inductive wstep : wsys -> option (op * err) -> wsys -> Prop :=
| wstep_client s b x s' : step s (Some x) s' -> wstep (s, b) (Some x) (s', b)
| wstep_tick w db pc b t :
    w_now w <= t -> wstep (mkSys w db pc, b) None (mkSys (set_now t w) db pc, b)
| wstep_receive w db :
    db_flushChan db = ChanOpen true ->
    wstep (mkSys w db Idle, false) None (mkSys w (set_chan (ChanOpen false) db) Idle, true)
| wstep_begin w db r db' w' :
    mem_fits (db_activeMemtable db) ->
    flush_rotate db w = ((r, db'), w') ->
    wstep (mkSys w db Idle, true) None
          (mkSys w' db' (match r with None => Building | Some _ => Idle end), false)
| wstep_flush s s' :
    s_pc s <> Idle -> step s None s' -> wstep (s, false) None (s', false).

Inductive wsteps : wsys -> list (op * err) -> wsys -> Prop :=
| wsteps_refl s : wsteps s [] s
| wsteps_silent s1 s2 s3 l : wstep s1 None s2 -> wsteps s2 l s3 -> wsteps s1 l s3
| wsteps_op s1 s2 s3 x l : wstep s1 (Some x) s2 -> wsteps s2 l s3 -> wsteps s1 (x :: l) s3.

(** a full memtable has been signalled *)
Definition signalled (s : wsys) : Prop :=
  DefaultMemtableThreshold <= sl_SizeBytes (db_activeMemtable (s_db s.1)) ->
  db_flushChan (s_db s.1) = ChanOpen true \/ s.2 = true.

(** the system holds the answers [f] *)
Definition holds_answers (f : bytes -> option bytes) (s : wsys) : Prop :=
  exists log A I Ts, simulates s.1 f log A I Ts.

Definition op_label (l : option (op * err)) : Prop := forall x, l = Some x -> op_nonempty x.1.

Lemma run_op_signals o db w db' w' full :
  db_flushChan db = ChanOpen full -> run_op o db w = ((None, db'), w') ->
  DefaultMemtableThreshold <= sl_SizeBytes (db_activeMemtable db') ->
  db_flushChan db' = ChanOpen true.
Proof.
  assert (forall db1 k v wal, db_flushChan db1 = ChanOpen full ->
    forall db', apply_write (set_wal wal db1) k v = (None, db') ->
    DefaultMemtableThreshold <= sl_SizeBytes (db_activeMemtable db') ->
    db_flushChan db' = ChanOpen true) as Haw.
  { intros db1 k v wal Hc db2. unfold apply_write.
    destruct (SkipList_Put _ k v) as [mem|]; [|done].
    destruct (Z.leb_spec DefaultMemtableThreshold (sl_SizeBytes mem)).
    - unfold signal_flush. cbn. rewrite Hc. by intros [= <-].
    - intros [= <-]. cbn. lia. }
  intros Hc. destruct o as [k v|k]; cbn [run_op].
  - unfold StrataGo_Put, mbind, IO_bind. destruct (db_closed db); [done|].
    destruct (WAL_WriteEntry (db_wal db) k v w) as [[[e|] wal] w1]; [done|].
    intros [= E _]. by eapply Haw.
  - unfold StrataGo_Delete, mbind, IO_bind. destruct (db_closed db); [done|].
    destruct (WAL_WriteEntry (db_wal db) k None w) as [[[e|] wal] w1]; [done|].
    intros [= E _]. by eapply Haw.
Qed.

Lemma sim_receive w db f log A I Ts full :
  simulates (mkSys w db Idle) f log A I Ts ->
  simulates (mkSys w (set_chan (ChanOpen full) db) Idle) f log A I Ts.
Proof.
  intros [He Hf Hc Ha Hn Hpc]. split; try done.
  destruct He as [Hwf Hinj Hch Hact Himm Hwal Hlog Htab Hs Hr]. split; try done. by exists full.
Qed.

Lemma wstep_answers f s l s' :
  holds_answers f s -> wstep s l s' -> op_label l -> holds_answers (after f l) s'.
Proof.
  intros (log & A & I & Ts & Hsim) Hst Hne.
  destruct Hst as [s b x s' Hst|w db pc b t Hle|w db Hch|w db r db' w' Hfit E|s s' Hpc Hst].
  - destruct (step_simulates _ _ _ _ _ _ _ _ Hsim Hst Hne) as (_ & ? & ? & ? & ? & ?). do 4 eexists; eassumption.
  - pose proof (sim_tick _ _ _ _ _ _ t Hsim) as Ht. cbn in Ht. do 4 eexists; eassumption.
  - pose proof (sim_receive _ _ _ _ _ _ _ false Hsim). do 4 eexists; eassumption.
  - pose proof (sim_rotate _ _ _ _ _ _ _ _ _ _ Hsim E) as Hr. destruct r.
    + do 4 eexists; eassumption.
    + specialize (Hr Hfit). do 4 eexists; eassumption.
  - destruct (step_simulates _ _ _ _ _ _ _ _ Hsim Hst Hne) as (_ & ? & ? & ? & ? & ?). do 4 eexists; eassumption.
Qed.

(** a signal that has been taken is taken by an idle worker *)
Definition taken_idle (s : wsys) : Prop := s.2 = true -> s_pc s.1 = Idle.

Lemma wstep_taken s l s' : taken_idle s -> wstep s l s' -> taken_idle s'.
Proof.
  intros Hi Hst.
  destruct Hst as [s0 b x s1 Hst|w db pc b t Hle|w db Hch|w db r db' w' Hfit E|s0 s1 Hpc Hst]; try done.
  intros Hb. specialize (Hi Hb). cbn in *. by inversion Hst; subst.
Qed.

(** A rotation that stands leaves an empty memtable; one that returns found it empty. *)
Lemma rotate_empties w db f log A I Ts r db' w' :
  simulates (mkSys w db Idle) f log A I Ts -> flush_rotate db w = ((r, db'), w') ->
  sl_SizeBytes (db_activeMemtable db') = 0.
Proof.
  intros [He Hf Hc Ha Hn ->] E. cbn [s_world s_db s_pc] in *.
  destruct (decide (A = [])) as [->|HA].
  - revert E. unfold flush_rotate. pose proof (eo_imm _ _ _ _ _ _ He) as Himm.
    unfold imm_repr in Himm. destruct (db_immutableMemtable db); [done|].
    pose proof (eo_active _ _ _ _ _ _ He) as Hact. rewrite (repr_size _ _ Hact). cbn.
    intros [= _ <- _]. destruct Hact as (ch & Hch & EA). rewrite (rc_bytes _ _ Hch), <- EA. done.
  - destruct (flush_rotate_ok w db log A Ts He Hf HA) as (db1 & w1 & E1 & He1 & _).
    rewrite E1 in E. injection E as _ <- _.
    destruct (eo_active _ _ _ _ _ _ He1) as (ch & Hch & EA). by rewrite (rc_bytes _ _ Hch), <- EA.
Qed.

(** The parts of a flush after the rotation leave the active memtable and the
    channel alone. *)
Lemma flush_step_keeps f s s' :
  holds_answers f (s, false) -> s_pc s <> Idle -> step s None s' ->
  db_activeMemtable (s_db s') = db_activeMemtable (s_db s) /\
  db_flushChan (s_db s') = db_flushChan (s_db s).
Proof.
  intros (log & A & I & Ts & Hsim) Hpc Hst. inversion Hst; subst; try done.
  destruct (sim_no_failure _ _ _ _ _ _ _ _ Hsim) as (rd & imm & -> & Ei).
  exfalso. by eapply H1.
Qed.

Lemma op_signals f s b x s' :
  holds_answers f (s, b) -> step s (Some x) s' -> op_nonempty x.1 ->
  DefaultMemtableThreshold <= sl_SizeBytes (db_activeMemtable (s_db s')) ->
  db_flushChan (s_db s') = ChanOpen true.
Proof.
  intros (log & A & I & Ts & Hsim) Hst Hne. inversion Hst as [w db pc o r db' w' Ho Hseq E| | | | | | | ]; subst.
  destruct (sim_op _ _ _ _ _ _ _ _ _ _ Hsim Ho Hne Hseq E) as [-> _].
  destruct (eo_chan _ _ _ _ _ _ (sim_engine _ _ _ _ _ _ Hsim)) as [full Hfull]. by eapply run_op_signals.
Qed.

Lemma wstep_signalled f s l s' :
  holds_answers f s -> signalled s -> wstep s l s' -> op_label l -> signalled s'.
Proof.
  intros Hso Hsig Hst Hne. pose proof Hso as (log & A & I & Ts & Hsim).
  destruct Hst as [s b x s' Hst|w db pc b t Hle|w db Hch|w db r db' w' Hfit E|s s' Hpc Hst];
    unfold signalled in *; cbn [fst snd s_pc s_db] in *; [|done| | |].
  - intros Hle. left. exact (op_signals f s b x s' Hso Hst (Hne _ eq_refl) Hle).
  - by right.
  - rewrite (rotate_empties _ _ _ _ _ _ _ _ _ _ Hsim E). unfold DefaultMemtableThreshold. lia.
  - by destruct (flush_step_keeps f s s' Hso Hpc Hst) as [-> ->].
Qed.

(** Once an operation has been acknowledged, a full memtable is signalled. *)
Lemma wsteps_answers s l s' : wsteps s l s' -> Forall (fun x => op_nonempty x.1) l -> forall f,
  holds_answers f s -> taken_idle s ->
  holds_answers (fun k => foldl (op_answer k) (f k) (l.*1)) s' /\ taken_idle s' /\
  (l <> [] \/ signalled s -> signalled s').
Proof.
  induction 1 as [s|s1 s2 s3 l Hst _ IH|s1 s2 s3 x l Hst _ IH]; intros Hne f Hso Hi.
  - split; [done|]. split; [done|]. by intros [?|?].
  - assert (op_label None) as Hl by done.
    pose proof (wstep_answers _ _ _ _ Hso Hst Hl) as Hso2. pose proof (wstep_taken _ _ _ Hi Hst) as Hi2.
    destruct (IH Hne _ Hso2 Hi2) as (H1 & H2 & H3). split; [done|]. split; [done|].
    intros [?|Hs]; apply H3; [by left|right]. exact (wstep_signalled _ _ _ _ Hso Hs Hst Hl).
  - apply Forall_cons in Hne as [Hx Hne]. assert (op_label (Some x)) as Hl by by intros y [= <-].
    pose proof (wstep_answers _ _ _ _ Hso Hst Hl) as Hso2. pose proof (wstep_taken _ _ _ Hi Hst) as Hi2.
    destruct (IH Hne _ Hso2 Hi2) as (H1 & H2 & H3). destruct x as [o r]. split; [exact H1|]. split; [done|].
    intros _. apply H3. right. inversion Hst as [s b y s' Hop| | | |]; subst. intros Hle. left.
    exact (op_signals f s b (o, r) s' Hso Hop Hx Hle).
Qed.


Lemma Open_answers w log tail Ts db w1 :
  disk_ok w log tail Ts -> Forall (fun e => slice_bytes e.2 <> []) log ->
  Open w = (inr db, w1) -> holds_answers (initial_answer log Ts) (mkSys w1 db Idle, false).
Proof.
  intros Hd Hne E. destruct (Open_simulates w log tail Ts db w1 Hd Hne E) as [A Hsim].
  do 4 eexists. exact Hsim.
Qed.


(** C30: The engine stays well formed and keeps its answers.  In every state that
    clients, the clock and the flush worker reach from an engine opened on a
    well-formed directory (no compaction, and no empty values), the engine is not
    closed and satisfies its invariant (skip lists that are sorted and linked at
    every level, a log that replays to the active memtable, a descriptor on the
    named file for every table, tables in strictly increasing age, an open signal
    channel), the memtables and tables of the invariant hold exactly the last value
    written to each key, [Get] answers it, and a signal that has been taken is taken
    by an idle worker. *)
Theorem reachable_well_formed (w : World) (log : list (bytes * slice)) (tail : bytes)
    (Ts : list (Z * list (bytes * slice))) (db : StrataGo) (w1 : World)
    (l : list (op * err)) (s : sys) (received : bool)
    (Hd : disk_ok w log tail Ts) (Hne : Forall (fun e => slice_bytes e.2 <> []) log)
    (Hopen : Open w = (inr db, w1)) (Hops : Forall (fun x => op_nonempty x.1) l)
    (Hsteps : wsteps (mkSys w1 db Idle, false) l (s, received)) :
  (exists log' A' I' Ts', engine_ok (s_world s) (s_db s) log' A' I' Ts' /\
    forall k, answer A' I' (Ts'.*2) k = foldl (op_answer k) (initial_answer log Ts k) (l.*1)) /\
  (forall k, lookup_inside (s_world s) (s_db s) k ->
    StrataGo_Get (s_world s) (s_db s) k = Some (foldl (op_answer k) (initial_answer log Ts k) (l.*1))) /\
  db_closed (s_db s) = false /\ (received = true -> s_pc s = Idle).
Proof.
  destruct (wsteps_answers _ _ _ Hsteps Hops _ (Open_answers _ _ _ _ _ _ Hd Hne Hopen))
    as ((log' & A & I & Ts' & [He Hf Hc Ha Hn _]) & Hi & _); [done|]. cbn [fst snd] in *.
  split; [by exists log', A, I, Ts'|]. split; [|by split].
  intros k Hk. rewrite (Get_ok _ _ _ _ _ _ k He) by by eapply lookup_inside_clean. by rewrite Ha.
Qed.
End worker.

(** ** Concurrent flushes

    [Close] sets [closed] and calls [Flush] without waiting for the worker.  The
    run below interleaves the worker's flush with the one of [Close]: the worker
    rotates and builds; [Close] begins its flush, and goes on because there is an
    immutable memtable; the worker installs its table and clears the immutable
    memtable; then [Close] builds. *)

Section race.
#[local] Existing Instance fnv.
#[local] Existing Instance plain_runtime.

Definition close_during_flush : option build_result :=
  match session [OpPut [x61] (Some [x01])] empty_disk with
  | (inr db, w) =>
      let '((_, db), w) := flush_rotate db w in          (* worker *)
      let '(b, w) := flush_build db w in                 (* worker *)
      let db := set_closed true db in                    (* Close *)
      let '((early, db), w) := flush_rotate db w in      (* Close *)
      let '((_, db), w) := flush_finish db b w in        (* worker *)
      match early with
      | None => Some (flush_build db w).1                (* Close *)
      | Some _ => None
      end
  | (inl _, _) => None
  end.

(** Closing the engine while the worker flushes dereferences a nil memtable. *)
Theorem close_races_with_flush_worker : close_during_flush = Some (BuildError Panic).
Proof. vm_equal. Qed.
End race.

(** ** Witnesses *)

Section witnesses.
#[local] Existing Instance fnv.
#[local] Existing Instance plain_runtime.

(** [schedule3], the rest of its flush, a delete, and time for another flush *)
Definition schedule_rest : list action :=
  schedule3 ++ [DoInstall; DoRemove; DoOp (OpDelete [x62]); DoTick 2000].

Definition ops_rest : list op := ops3 ++ [OpDelete [x62]].

(** a run of the flush worker that has come to rest, ready for a last flush *)
Definition rested (w0 : World) (acts : list action) : option (list op) :=
  match Open w0 with
  | (inr db, w1) =>
      '(l, s) ← run_schedule acts (mkCsys (mkSys w1 db Idle) CIdle);
      let db := s_db (c_sys s) in
      guard (mem_fits (db_activeMemtable db) /\ clock_ok (s_world (c_sys s)) db);;
      match s_pc (c_sys s) with Idle => Some (l.*1) | _ => None end
  | _ => None
  end.

Lemma rested_run w0 acts ops :
  rested w0 acts = Some ops -> forallb of_flush acts = true ->
  exists db w1 l s, Open w0 = (inr db, w1) /\ steps (mkSys w1 db Idle) l s /\ l.*1 = ops /\
    s_pc s = Idle /\ mem_fits (db_activeMemtable (s_db s)) /\ clock_ok (s_world s) (s_db s).
Proof.
  unfold rested. destruct (Open w0) as [[e|db] w1]; [discriminate|].
  destruct (run_schedule _ _) as [[l [s c]]|] eqn:Er; [|discriminate]. cbn [mbind option_bind c_sys].
  case_guard as Hg; [|discriminate]. cbn. destruct (s_pc s) eqn:Hi; try discriminate.
  intros [= <-] Hfl. destruct Hg as [H1 H2].
  apply run_schedule_steps in Er as [_ Hst]; [|done]. by exists db, w1, l, s.
Qed.

Lemma close_reopen_roundtrip_witness :
  exists db w1 l s, Open used_disk = (inr db, w1) /\ steps (mkSys w1 db Idle) l s /\ l.*1 = ops_rest /\
  exists db1 w2 db2 w3,
    StrataGo_Close (s_db s) (s_world s) = ((None, db1), w2) /\
    (forall k v, StrataGo_Put db1 k v w2 = ((Some (ErrMsg "database is closed"), db1), w2)) /\
    Open w2 = (inr db2, w3) /\
    forall k, lookup_inside (s_world s) (s_db s) k -> lookup_inside w3 db2 k ->
      exists a, a = foldl (op_answer k) (initial_answer old_log [(5, table1)] k) (l.*1) /\
        StrataGo_Get (s_world s) (s_db s) k = Some a /\ StrataGo_Get w3 db2 k = Some a.
Proof.
  assert (rested used_disk schedule_rest = Some ops_rest) as Hr by vm_equal.
  destruct (rested_run _ _ _ Hr eq_refl) as (db & w1 & l & s & E & Hst & Hl & Hi & Hfit & Hck).
  exists db, w1, l, s. split; [exact E|]. split; [exact Hst|]. split; [exact Hl|].
  apply (close_reopen_roundtrip used_disk old_log old_tail [(5, table1)] db w1 l s used_disk_ok
    ltac:(repeat constructor; discriminate) E Hst Hi); [|exact Hfit|exact Hck].
  apply (proj1 (Forall_fmap fst op_nonempty l)). rewrite Hl. vm_compute. repeat constructor; discriminate.
Defined.

(** a value that fills the memtable at once; kept abstract *)
Lemma big_value : exists v : bytes, len v = DefaultMemtableThreshold.
Proof.
  exists (replicate (Z.to_nat DefaultMemtableThreshold) x00).
  unfold len. rewrite length_replicate. apply Z2Nat.id. discriminate.
Qed.

Lemma file_Write_now f p w : w_now (file_Write f p w).2 = w_now w.
Proof.
  unfold file_Write. destruct (file_ino w f); [|done]. unfold next_outcome.
  by destruct (w_faults w) as [|[]].
Qed.

Lemma file_Sync_now f w : w_now (file_Sync f w).2 = w_now w.
Proof.
  unfold file_Sync. destruct (file_ino w f); [|done]. unfold next_outcome.
  by destruct (w_faults w) as [|[]].
Qed.

Lemma WriteEntry_now l k v w : w_now (WAL_WriteEntry l k v w).2 = w_now w.
Proof.
  unfold WAL_WriteEntry, mbind, IO_bind.
  match goal with |- context [file_Write ?f ?p w] => pose proof (file_Write_now f p w) as H1;
    destruct (file_Write f p w) as [[e|] w1] end; [done|]. cbn [snd] in H1.
  pose proof (file_Sync_now (wal_file l) w1) as H2.
  destruct (file_Sync (wal_file l) w1) as [e w2]. cbn [snd] in *. unfold ret. cbn. congruence.
Qed.

Lemma Put_now db k v w : w_now (StrataGo_Put db k v w).2 = w_now w.
Proof.
  unfold StrataGo_Put, mbind, IO_bind. destruct (db_closed db); [done|].
  pose proof (WriteEntry_now (db_wal db) k v w) as H.
  by destruct (WAL_WriteEntry (db_wal db) k v w) as [[[e|] wal] w1].
Qed.

Lemma big_entry_ok v : len v = DefaultMemtableThreshold -> entry_ok ([x61], Some v).
Proof.
  intros Hv. unfold entry_ok. cbn [fst snd]. change (slice_bytes (Some v)) with v.
  by rewrite Hv.
Qed.

(** one large [Put] on an empty directory: the state before the worker wakes up *)
Lemma big_put v db w1 :
  len v = DefaultMemtableThreshold ->
  Open empty_disk = (inr db, w1) ->
  exists db' w', StrataGo_Put db [x61] (Some v) w1 = ((None, db'), w') /\
    sl_SizeBytes (db_activeMemtable db) = 0 /\
    DefaultMemtableThreshold <= sl_SizeBytes (db_activeMemtable db') /\
    mem_fits (db_activeMemtable db') /\ clock_ok w' db'.
Proof.
  intros Hv E. destruct (Open_ok empty_disk [] [] [] empty_disk_ok)
    as (db0 & w0 & A & E0 & He & HA & Hc & Hf & _).
  rewrite E in E0. injection E0 as <- <-.
  assert (A = []) as ->.
  { destruct A as [|[k u] A]; [done|]. cbn in HA.
    apply (f_equal (lookup k)) in HA. by rewrite lookup_insert_eq, lookup_empty in HA. }
  destruct (Put_ok w1 db [] [] None [] [x61] (Some v) He Hc Hf
    (big_entry_ok v Hv) ltac:(pose proof (engine_seq _ _ _ _ _ _ He) as Hq;
       change (len []) with 0 in Hq; lia))
    as (db' & w' & E' & He' & _ & _ & Hd' & _).
  exists db', w'. split; [exact E'|].
  pose proof (Put_now db [x61] (Some v) w1) as Hnow. rewrite E' in Hnow. cbn [snd] in Hnow.
  destruct (eo_active _ _ _ _ _ _ He) as (ch0 & Hr0 & EA0).
  destruct (eo_active _ _ _ _ _ _ He') as (ch & Hr & EA).
  pose proof (rc_bytes _ _ Hr) as Hb. rewrite <- EA in Hb.
  pose proof (repr_size _ _ (eo_active _ _ _ _ _ _ He')) as Hs.
  assert (sl_SizeBytes (db_activeMemtable db') = 1 + DefaultMemtableThreshold) as Hb'.
  { rewrite Hb. change (entries_put [x61] (Some v) []) with [([x61], Some v)].
    unfold entries_bytes. cbn [fmap list_fmap foldr]. unfold entry_bytes. cbn [fst snd].
    change (slice_bytes (Some v)) with v. by rewrite Hv. }
  split; [by rewrite (rc_bytes _ _ Hr0), <- EA0|]. split; [lia|].
  split; [split; rewrite Hs, ?Hb'; done|].
  unfold clock_ok. rewrite Hd', Hnow.
  vm_compute in E. injection E as <- <-. split_and!; [by vm_compute|by vm_compute|done|done|].
  pose proof (Forall2_length _ _ _ (eo_tables _ _ _ _ _ _ He')) as Hlen.
  by destruct (db_sstReaders db').
Qed.

(** the state after the large [Put], reached by the worker system *)
Lemma big_put_steps :
  exists db w1 db2 w2 l, Open empty_disk = (inr db, w1) /\
    wsteps (mkSys w1 db Idle, false) l (mkSys w2 db2 Idle, false) /\ l <> [] /\
    Forall (fun x => op_nonempty x.1) l /\
    DefaultMemtableThreshold <= sl_SizeBytes (db_activeMemtable db2) /\
    mem_fits (db_activeMemtable db2) /\ clock_ok w2 db2.
Proof.
  destruct (Open_ok empty_disk [] [] [] empty_disk_ok) as (db & w1 & A & E & _).
  destruct big_value as [v Hv].
  destruct (big_put v db w1 Hv E) as (db2 & w2 & E2 & Hsmall & Hfull & Hfit & Hck).
  assert (wsteps (mkSys w1 db Idle, false) [(OpPut [x61] (Some v), None)]
    (mkSys w2 db2 Idle, false)) as Hst.
  { eapply wsteps_op; [|apply wsteps_refl]. apply wstep_client, step_op; [|vm_compute in E|exact E2].
    - exact (big_entry_ok v Hv).
    - injection E as <- <-. done. }
  exists db, w1, db2, w2, [(OpPut [x61] (Some v), None)].
  split; [exact E|]. split; [exact Hst|]. split; [discriminate|].
  split; [repeat constructor; cbn; by intros [= ->]|].
  split; [exact Hfull|]. split; [exact Hfit|exact Hck].
Qed.


Lemma reachable_well_formed_witness :
  exists db w1 s l,
    Open empty_disk = (inr db, w1) /\ wsteps (mkSys w1 db Idle, false) l (s, false) /\ l <> [] /\
    (exists log' A' I' Ts', engine_ok (s_world s) (s_db s) log' A' I' Ts' /\
      forall k, answer A' I' (Ts'.*2) k = foldl (op_answer k) (initial_answer [] [] k) (l.*1)) /\
    (forall k, lookup_inside (s_world s) (s_db s) k ->
      StrataGo_Get (s_world s) (s_db s) k = Some (foldl (op_answer k) (initial_answer [] [] k) (l.*1))) /\
    db_closed (s_db s) = false /\ (false = true -> s_pc s = Idle).
Proof.
  destruct big_put_steps as (db & w1 & db2 & w2 & l & E & Hst & Hl & Hops & _).
  exists db, w1, (mkSys w2 db2 Idle), l. split; [exact E|]. split; [exact Hst|]. split; [exact Hl|].
  apply (reachable_well_formed empty_disk [] [] [] db w1 l (mkSys w2 db2 Idle) false empty_disk_ok
    (Forall_nil_2 _) E Hops Hst).
Defined.
End witnesses.
