(* ===== verification/Quiet.v ===== *)
(** * Scanning, compacting, closing and emptying a running engine

    The engine has been running for any time, with flushes and orderly compactions
    ([running]).  A scan may run at any moment; a whole compaction while the flush
    worker is anywhere in its work; [Flush], [Close] and [Purge] while both workers
    are idle.  The conditions on the memtable and on the clock are those of the
    steps of [Flush]. *)
From stdpp Require Import base gmap sets list strings numbers sorting.
From Stdlib Require Import ZArith Lia Strings.Byte.
From S2P Require Import Prelude SkipList Disk Wal Bloom GoFmt Sst Reader Engine Recovery Flush.
From S2P Require Import GoHeap Merge Compaction Provenance Concurrent Durable Lifecycle.
Open Scope Z_scope.

(** a flush can succeed now, or has nothing to do *)
Definition flushable (w : World) (db : StrataGo) : Prop :=
  sl_Size (db_activeMemtable db) = 0 \/ mem_fits (db_activeMemtable db) /\ clock_ok w db.

#[export] Instance flushable_dec w db : Decision (flushable w db).
Proof. unfold flushable. apply _. Defined.

(** ** Flush *)

Section flush.
Context `{Murmur3} `{Runtime}.

Lemma rotate_empty db w :
  db_immutableMemtable db = None -> sl_Size (db_activeMemtable db) = 0 ->
  flush_rotate db w = ((Some None, db), w).
Proof. intros Hi Hs. unfold flush_rotate. by rewrite Hi, Hs. Qed.

Lemma live_imm w db log A I Ts : live w db log A I Ts -> imm_repr (db_immutableMemtable db) I.
Proof. intros Hl. exact (eo_imm _ _ _ _ _ _ (lv_engine _ _ _ _ _ _ Hl)). Qed.

Lemma cinv_imm P exact w db pc c f log A Ts :
  cinv P exact (mkCsys (mkSys w db pc) c) f log A None Ts -> db_immutableMemtable db = None.
Proof.
  intros [Hl _ _ _ _ _ _ _ _]. pose proof (live_imm _ _ _ _ _ _ Hl) as Hi.
  unfold imm_repr in Hi. by destruct (db_immutableMemtable _).
Qed.

(** The rotation leaves the clock and the names of tables alone. *)
Lemma rotate_clock P exact w db c f log A I Ts db' w' :
  cinv P exact (mkCsys (mkSys w db Idle) c) f log A I Ts ->
  flush_rotate db w = ((None, db'), w') -> clock_ok w db -> clock_ok w' db'.
Proof.
  intros [Hl Hf _ _ _ _ _ Hp _] E (H1 & H2 & H3 & H4). cbn [c_sys c_pc s_world s_db s_pc flush_ok] in *.
  subst I. pose proof (live_rotate _ _ _ _ _ _ _ _ Hl Hf E) as Hr. cbn in Hr.
  destruct Hr as (_ & _ & _ & _ & Hrs & Hd & i & _ & ->).
  unfold clock_ok. rewrite Hrs. change (w_now (rotated _ _ _)) with (w_now w).
  rewrite !Hd; [done| |].
  - intros [E'|E']; [by apply (sst_name_not_wal (w_now w))|by apply (sst_name_not_flushing (w_now w))].
  - intros [E'|E']; [by apply tmp_name_not_wal in E'|by apply tmp_name_not_flushing in E'].
Qed.

(** A whole flush. *)
Lemma Flush_idle P exact w db c f log A I Ts :
  cinv P exact (mkCsys (mkSys w db Idle) c) f log A I Ts -> flushable w db ->
  exists db' w' log' A' I' Ts', StrataGo_Flush db w = ((None, db'), w') /\
    cinv P exact (mkCsys (mkSys w' db' Idle) c) f log' A' I' Ts'.
Proof.
  intros Hi Hfl. pose proof (ci_flush _ _ _ _ _ _ _ _ Hi) as Hp. cbn in Hp. subst I.
  unfold StrataGo_Flush, mbind, IO_bind.
  destruct (decide (sl_Size (db_activeMemtable db) = 0)) as [Hz|Hz].
  { rewrite rotate_empty by (done || by eapply cinv_imm). by exists db, w, log, A, None, Ts. }
  destruct Hfl as [?|[Hfit Hck]]; [done|].
  destruct (flush_rotate db w) as [[r db1] w1] eqn:E1.
  assert (r = None) as ->.
  { destruct Hi as [Hl Hf _ _ _ _ _ _ _]. pose proof (lv_engine _ _ _ _ _ _ Hl) as He.
    cbn [c_sys s_world s_db] in *. apply flush_rotate_strip in E1 as [E1 _].
    destruct (flush_rotate_ok w _ log A [] He Hf) as (db2 & w2 & E2 & _); [|congruence].
    intros ->. apply Hz. apply (repr_size _ _ (eo_active _ _ _ _ _ _ He)). }
  pose proof (cinv_rotate _ _ _ _ _ _ _ _ _ _ _ _ _ Hi E1 Hfit) as Hi1.
  pose proof (rotate_clock _ _ _ _ _ _ _ _ _ _ _ _ Hi E1 Hck) as Hck1.
  destruct (flush_build db1 w1) as [b w2] eqn:E2.
  pose proof (cinv_build _ _ _ _ _ _ _ _ _ _ _ _ Hi1 Hck1 E2) as Hi2.
  destruct (cinv_no_failure _ _ _ _ _ _ _ _ _ _ _ Hi2) as (rd & imm & -> & Ei).
  destruct (cinv_install _ _ _ _ _ _ _ _ _ _ _ _ Hi2) as [Ts' Hi3].
  pose proof (cinv_remove _ _ _ _ _ _ _ _ _ _ Hi3) as Hi4.
  unfold flush_finish. rewrite Ei, Z.eqb_refl. cbn [negb]. unfold mbind, IO_bind.
  destruct (os_Remove flushingName w2) as [x w3]. cbn [snd] in Hi4.
  by eexists _, w3, _, _, None, Ts'.
Qed.

(** [Flush] does not look at the flag that closes the engine. *)
Lemma flush_build_closed b db w : flush_build (set_closed b db) w = flush_build db w.
Proof. done. Qed.

Lemma flush_rotate_closed b db w :
  flush_rotate (set_closed b db) w =
  let '((r, db'), w') := flush_rotate db w in ((r, set_closed b db'), w').
Proof.
  unfold flush_rotate, gets, and_then, mbind, IO_bind, ret.
  cbn [set_closed db_activeMemtable db_immutableMemtable db_wal].
  destruct (db_immutableMemtable db); [done|]. destruct (sl_Size _ =? 0); [done|].
  destruct (WAL_Close _ w) as [[e|] w1]; [done|].
  destruct (os_Rename walName flushingName w1) as [[e|] w2]; [done|].
  destruct (NewWAL walName w2) as [[e|wl] w3]; [|done].
  by destruct (os_Rename flushingName walName w3) as [x w4].
Qed.

Lemma relog_recover_closed b db e w :
  recoverFromFlushFailure (set_closed b db) e w =
  let '((r, db'), w') := recoverFromFlushFailure db e w in ((r, set_closed b db'), w').
Proof.
  unfold recoverFromFlushFailure. cbn [set_closed db_immutableMemtable db_wal].
  destruct (db_immutableMemtable db ≫= SkipList_entries); [|done]. unfold mbind, IO_bind.
  by destruct (relog (db_wal db) _ w) as [wl w'].
Qed.

Lemma flush_finish_closed b db r w :
  flush_finish (set_closed b db) r w =
  let '((e, db'), w') := flush_finish db r w in ((e, set_closed b db'), w').
Proof.
  unfold flush_finish. destruct r as [rd v|e|e]; [|apply relog_recover_closed|done].
  cbn [set_closed db_immutableMemtable]. destruct (db_immutableMemtable db) as [imm|] eqn:Ei; [|done].
  destruct (negb (v =? sl_Size imm)); unfold mbind, IO_bind.
  - destruct (Reader_Close rd w) as [x1 w1]. destruct (os_Remove (Reader_Path rd) w1) as [x2 w2].
    apply relog_recover_closed.
  - by destruct (os_Remove flushingName w) as [x1 w1].
Qed.

Lemma Flush_closed b db w :
  StrataGo_Flush (set_closed b db) w =
  let '((r, db'), w') := StrataGo_Flush db w in ((r, set_closed b db'), w').
Proof.
  unfold StrataGo_Flush, mbind, IO_bind. rewrite flush_rotate_closed.
  destruct (flush_rotate db w) as [[[r|] db1] w1]; [done|]. rewrite flush_build_closed.
  destruct (flush_build db1 w1) as [r w2]. apply flush_finish_closed.
Qed.
End flush.

(** ** Close and Purge *)

Section close.
Context `{Murmur3} `{Runtime}.

Lemma shrinks_crash w w' : shrinks w w' -> crash w' = crash w.
Proof. intros (Ed & Ea & _ & En & Eo & _). unfold crash. by rewrite Ed, Ea, En, Eo. Qed.

(** [Close] flushes, and releases every file: the directory is at rest. *)
Lemma Close_idle P exact w db c f log A I Ts :
  cinv P exact (mkCsys (mkSys w db Idle) c) f log A I Ts -> flushable w db ->
  exists db' w', StrataGo_Close db w = ((None, db'), w') /\ at_rest P (crash w') /\
    wf_world w' /\ w_faults w' = [].
Proof.
  intros Hi Hfl. destruct (Flush_idle P exact w db c f log A I Ts Hi Hfl)
    as (db1 & w1 & log' & A' & I' & Ts' & E & Hi').
  unfold StrataGo_Close, mbind, IO_bind. pose proof (ci_open _ _ _ _ _ _ _ _ Hi) as Ho. cbn in Ho.
  rewrite Ho, Flush_closed, E. cbn [set_closed db_flushChan set_chan db_wal db_sstReaders].
  destruct (eo_chan _ _ _ _ _ _ (lv_engine _ _ _ _ _ _ (ci_live _ _ _ _ _ _ _ _ Hi'))) as [full Hch].
  cbn in Hch. rewrite Hch. cbn [close_chan].
  pose proof (ci_faults _ _ _ _ _ _ _ _ Hi') as Hf'. cbn in Hf'.
  pose proof (file_Close_shrinks (wal_file (db_wal db1)) w1 Hf') as H1. unfold WAL_Close.
  destruct (file_Close (wal_file (db_wal db1)) w1) as [e1 w2]. cbn [snd] in H1.
  assert (w_faults w2 = []) as Hf2 by (by destruct H1 as (_&_&_&_&_&->)).
  pose proof (close_readers_shrinks (db_sstReaders db1) w2 Hf2) as H2.
  destruct (close_readers (db_sstReaders db1) w2) as [u w3]. cbn [snd] in H2.
  assert (shrinks w1 w3) as H3 by by etrans. eexists _, w3. split; [done|]. split.
  - rewrite (shrinks_crash _ _ H3). exact (cinv_at_rest _ _ _ _ _ _ _ _ Hi').
  - split; [eapply shrinks_wf; [done|eapply live_wf, Hi']|]. by destruct H3 as (_&_&_&_&_&->).
Qed.

(** [Purge] leaves an empty engine. *)
Lemma Purge_idle P exact w db c f log A I Ts :
  cinv P exact (mkCsys (mkSys w db Idle) c) f log A I Ts -> flushable w db ->
  exists db' w', StrataGo_Purge db w = ((None, db'), w') /\
    engine_ok w' db' [] [] None [] /\ db_closed db' = false /\ w_faults w' = [] /\
    w_dir w' !! flushingName = None /\ dir_ok w' [].
Proof.
  intros Hi Hfl. destruct (Close_idle P exact w db c f log A I Ts Hi Hfl)
    as (db1 & w1 & E1 & _ & Hw & Hf).
  unfold StrataGo_Purge, mbind, IO_bind. rewrite E1. by apply purge_reset_ok.
Qed.
End close.

(** ** Compacting *)

Section compact.
Context `{Murmur3} `{Runtime}.

(** The parts of a compaction, one after the other, are a whole compaction. *)
Lemma RunCompaction_cinv P exact w db pc f log A I Ts files tier :
  cinv P exact (mkCsys (mkSys w db pc) CIdle) f log A I Ts ->
  selectFilesForCompaction w db = (files, tier) -> files <> [] ->
  (exists pre post, db_sstReaders db = pre ++ files ++ post) ->
  w_dir w !! tmp_name (merged_path files) (w_now w) = None -> group_size w files < 2 ^ 31 ->
  exists nr w' Ts', RunCompaction db w = ((None, compaction_install db files nr), w') /\
    cinv P exact (mkCsys (mkSys w' (compaction_install db files nr) pc) CIdle) f log A I Ts'.
Proof.
  intros Hi Hsel Hne Hnb Htmp Hsz.
  pose proof (cinv_select _ _ _ _ _ _ _ _ _ _ _ _ Hi Hsel Hne Hnb) as Hi1.
  unfold RunCompaction, gets, and_bind, mbind, IO_bind. rewrite Hsel.
  destruct (Nat.eqb_spec (length files) 0) as [El|_]; [by apply length_zero_iff_nil in El|].
  destruct (compaction_build files w) as [r w1] eqn:E1.
  destruct (cinv_cbuild _ _ _ _ _ _ _ _ _ _ _ _ _ Hi1 Htmp Hsz E1) as (iters & nr & -> & Hi2).
  destruct (cinv_cinstall _ _ _ _ _ _ _ _ _ _ _ _ _ Hi2) as [Ts' Hi3].
  pose proof (cinv_cleanup _ _ _ _ _ _ _ _ _ _ _ _ Hi3) as Hi4.
  destruct (compaction_cleanup files iters w1) as [u w2]. by exists nr, w2, Ts'.
Qed.

(** The group is replaced by one table. *)
Lemma install_length P exact w db pc f log A I Ts pre files post nr :
  cinv P exact (mkCsys (mkSys w db pc) CIdle) f log A I Ts ->
  db_sstReaders db = pre ++ files ++ post -> files <> [] ->
  (length (db_sstReaders (compaction_install db files nr)) + length files =
   length (db_sstReaders db) + 1)%nat.
Proof.
  intros Hi E Hne. pose proof (h_nodup _ _ _ _ _ (ci_held _ _ _ _ _ _ _ _ Hi)) as Hnd.
  cbn [c_sys s_db] in Hnd. rewrite fmap_app, NoDup_app, E in Hnd. destruct Hnd as [Hnd _].
  unfold compaction_install. cbn [set_readers db_sstReaders].
  rewrite E, rebuild_ok by done. rewrite !length_app. cbn. lia.
Qed.

(** Two tables lists with the same visible answers answer alike. *)
Lemma answer_visible_tables A I Ts Ts' k :
  visible (answer A I Ts k) = visible (answer A I Ts' k) -> answer A I Ts k = answer A I Ts' k.
Proof.
  unfold answer. destruct (memory_map A I !! k); [done|]. unfold visible. by rewrite !nonempty_idemp.
Qed.
End compact.

(** ** Properties *)

Section properties.
Context `{Murmur3} `{Runtime}.

(** C18: [ScanAll], and so the snapshot that is made from it, agrees with [Get].
    In a running engine, wherever its workers stand, while every open table still
    has its name in the directory, it succeeds and maps every key to its non-empty
    value, and leaves out the keys that are deleted, absent or hold an empty value.
    (A compaction removes the name of the table it makes: from then on [ScanAll]
    misses the table, [compaction_loses_data].) *)
Theorem engine_scan_agrees (s : csys) (Hs : running s)
    (Hnamed : Forall (named (s_world (c_sys s))) (db_sstReaders (s_db (c_sys s)))) :
  exists m w', StrataGo_ScanAll (s_db (c_sys s)) (s_world (c_sys s)) = (inr m, w') /\
    forall k, lookup_inside (s_world (c_sys s)) (s_db (c_sys s)) k ->
      exists a, StrataGo_Get (s_world (c_sys s)) (s_db (c_sys s)) k = Some a /\ m !! k = a ≫= nonempty.
Proof.
  destruct (running_cinv s Hs) as (f & log & A & I & Ts & Hi).
  destruct (cinv_scan _ _ _ _ _ _ _ _ Hi Hnamed) as (m & w' & E & Hm & Hget).
  exists m, w'. split; [done|]. intros k Hk. exists (answer A I (Ts.*2) k). by split; [apply Hget|].
Qed.

(** C25: A compaction is invisible to readers of the running engine.  On an engine
    that has been running, with flushes and orderly compactions before, and while
    the flush worker is anywhere in its work, a whole compaction of four
    neighbouring tables (together below 2 GiB, with no file in the way of the
    draft) succeeds, leaves three tables less, and every [Get] answers as before.
    (What it does to the files is [compaction_deletes_merged_table]; a selection
    that is not of neighbours can change answers, [skipped_table_overtakes].) *)
Theorem compaction_keeps_answers (w : World) (db : StrataGo) (pc : flush_pc)
    (files : list Reader) (tier : Z)
    (Hs : running (mkCsys (mkSys w db pc) CIdle))
    (Hsel : selectFilesForCompaction w db = (files, tier)) (Hne : files <> [])
    (Hnb : exists pre post, db_sstReaders db = pre ++ files ++ post)
    (Htmp : w_dir w !! tmp_name (merged_path files) (w_now w) = None) (Hsize : group_size w files < 2 ^ 31) :
  exists db' w', RunCompaction db w = ((None, db'), w') /\
    (length (db_sstReaders db') + 3 = length (db_sstReaders db))%nat /\
    forall k, lookup_inside w db k -> lookup_inside w' db' k ->
      StrataGo_Get w' db' k = StrataGo_Get w db k.
Proof.
  destruct (running_cinv _ Hs) as (f & log & A & I & Ts & Hi).
  destruct (RunCompaction_cinv _ _ _ _ _ _ _ _ _ _ _ _ Hi Hsel Hne Hnb Htmp Hsize)
    as (nr & w' & Ts' & E & Hi').
  exists (compaction_install db files nr), w'. split; [done|]. split.
  - destruct Hnb as (pre & post & Er).
    pose proof (install_length _ _ _ _ _ _ _ _ _ _ _ _ _ nr Hi Er Hne).
    destruct (select_loop_length w (db_sstReaders db) (-1) []) as [E4|E4];
      unfold selectFilesForCompaction in Hsel; rewrite Hsel in E4; [done|].
    cbn [fst] in E4. unfold CompactionThreshold in E4. lia.
  - intros k Hk Hk'. pose proof (Get_live _ _ _ _ _ _ k (ci_live _ _ _ _ _ _ _ _ Hi) Hk) as E1.
    pose proof (Get_live _ _ _ _ _ _ k (ci_live _ _ _ _ _ _ _ _ Hi') Hk') as E2.
    cbn [c_sys s_world s_db] in E1, E2. rewrite E1, E2. f_equal. apply answer_visible_tables. rewrite (ci_answer _ _ _ _ _ _ _ _ Hi' k).
    by rewrite (ci_answer _ _ _ _ _ _ _ _ Hi k).
Qed.

(** C28: A purged engine is empty.  However long the engine has been running, with
    flushes and compactions (of neighbouring tables), when its workers are idle
    [Purge] succeeds, and the
    engine it leaves accepts every sequence of operations and answers exactly as
    an engine that has seen those operations only. *)
Theorem purge_resets (w : World) (log : list (bytes * slice)) (tail : bytes)
    (Ts : list (Z * list (bytes * slice))) (db : StrataGo) (w1 : World)
    (l : list (op * err)) (w2 : World) (db2 : StrataGo)
    (Hd : disk_ok w log tail Ts) (Hopen : Open w = (inr db, w1))
    (Hsteps : csteps orderly (mkCsys (mkSys w1 db Idle) CIdle) l (mkCsys (mkSys w2 db2 Idle) CIdle))
    (Hfl : flushable w2 db2) :
  exists db3 w3,
    StrataGo_Purge db2 w2 = ((None, db3), w3) /\
    forall ops, Forall op_ok ops -> len ops < 2 ^ 64 ->
      exists db4 w4, run_ops ops db3 w3 = ((None, db4), w4) /\
        forall k, StrataGo_Get w4 db4 k = Some (foldl (op_answer k) None ops).
Proof.
  destruct (Open_any w log tail Ts db w1 Hd Hopen) as (A & Hi).
  destruct (csteps_cinv _ _ _ _ _ _ _ _ _ _ Hsteps Hi) as (_ & log' & A' & I' & Ts' & Hi').
  { apply Forall_forall. by intros x _. }
  destruct (Purge_idle _ _ _ _ _ _ _ _ _ _ Hi' Hfl) as (db3 & w3 & E3 & He3 & Hc3 & Hf3 & _).
  exists db3, w3. split; [done|]. intros ops Hops Hlen.
  destruct (run_ops_ok None [] ops w3 db3 [] [] He3 Hc3 Hf3 Hops Hlen)
    as (db4 & w4 & A4 & E4 & He4 & Ha4 & _).
  exists db4, w4. split; [done|]. intros k.
  rewrite (Get_ok _ _ _ _ _ _ k He4) by constructor. by rewrite Ha4.
Qed.
End properties.

(** ** Witnesses *)

Section witnesses.
#[local] Existing Instance fnv.
#[local] Existing Instance plain_runtime.

(** four flushes and a compaction with operations among its parts, another flush,
    and the clock advances *)
Definition schedule4 : list action := schedule1 ++ [DoTick 1005].

Lemma schedule4_runs :
  exists db w1 l w2 db2, Open empty_disk = (inr db, w1) /\
    csteps orderly (mkCsys (mkSys w1 db Idle) CIdle) l (mkCsys (mkSys w2 db2 Idle) CIdle) /\
    length l = 7%nat /\ flushable w2 db2.
Proof.
  assert (match Open empty_disk with
    | (inr db, w1) =>
        match run_schedule schedule4 (mkCsys (mkSys w1 db Idle) CIdle) with
        | Some (l, mkCsys (mkSys w2 db2 Idle) CIdle) => Some (length l, bool_decide (flushable w2 db2))
        | _ => None
        end
    | _ => None
    end = Some (7%nat, true)) as Ho by vm_equal.
  destruct (Open empty_disk) as [[e|db] w1] eqn:E0; [discriminate Ho|].
  destruct (run_schedule _ _) as [[l [[w2 db2 [| | |]] [| | |]]]|] eqn:Er; try discriminate Ho.
  injection Ho as Hl Hfl. apply bool_decide_eq_true in Hfl.
  exists db, w1, l, w2, db2. exact (conj eq_refl (conj (run_schedule_sound _ _ _ _ Er Logic.I) (conj Hl Hfl))).
Qed.

(** a run, when it ends with both workers idle *)
Definition idle_run (w0 : World) (acts : list action) : option (World * StrataGo) :=
  match Open w0 with
  | (inr db, w1) =>
      '(_, s) ← run_schedule acts (mkCsys (mkSys w1 db Idle) CIdle);
      match s with mkCsys (mkSys w2 db2 Idle) CIdle => Some (w2, db2) | _ => None end
  | _ => None
  end.

Lemma idle_run_running w0 log tail Ts acts w2 db2 :
  disk_ok w0 log tail Ts -> idle_run w0 acts = Some (w2, db2) ->
  running (mkCsys (mkSys w2 db2 Idle) CIdle).
Proof.
  intros Hd. unfold idle_run. destruct (Open w0) as [[e|db] w1] eqn:E0; [discriminate|].
  destruct (run_schedule _ _) as [[l [[w3 db3 pc] c]]|] eqn:Er; [|discriminate]. cbn [mbind option_bind].
  destruct pc, c; try discriminate. intros [= <- <-].
  exists w0, log, tail, Ts, db, w1, l. split; [exact Hd|]. split; [exact E0|].
  exact (run_schedule_sound _ _ _ _ Er Logic.I).
Qed.

(** two flushes, a delete and a put of an empty value *)
Definition schedule_scan : list action :=
  flush_round [x61] 1001 ++ flush_round [x62] 1002 ++
  [DoOp (OpDelete [x61]); DoOp (OpPut [x63] (Some [])); DoOp (OpPut [x64] (Some [x04]))].

Lemma engine_scan_agrees_witness :
  exists w db, running (mkCsys (mkSys w db Idle) CIdle) /\ length (db_sstReaders db) = 2%nat /\
    exists m w', StrataGo_ScanAll db w = (inr m, w') /\
      forall k, lookup_inside w db k ->
        exists a, StrataGo_Get w db k = Some a /\ m !! k = a ≫= nonempty.
Proof.
  assert ((fun x => (length (db_sstReaders x.2), bool_decide (Forall (named x.1) (db_sstReaders x.2))))
    <$> idle_run empty_disk schedule_scan = Some (2%nat, true)) as Ho by vm_equal.
  destruct (idle_run empty_disk schedule_scan) as [[w db]|] eqn:Er; [|discriminate Ho].
  injection Ho as Hn Hnm. apply bool_decide_eq_true in Hnm.
  pose proof (idle_run_running _ _ _ _ _ _ _ empty_disk_ok Er) as Hr. exists w, db. split; [exact Hr|]. split; [exact Hn|].
  exact (engine_scan_agrees (mkCsys (mkSys w db Idle) CIdle) Hr Hnm).
Defined.

(** a compaction, and three more flushes after it: another group of four *)
Definition schedule5 : list action :=
  schedule4 ++ flush_round [x66] 1006 ++ flush_round [x67] 1007 ++ flush_round [x68] 1008.

(** the selected group: where it stands, and that it can be compacted *)
Definition can_compact (n : nat) (w : World) (db : StrataGo) : bool :=
  let files := (selectFilesForCompaction w db).1 in
  (length files =? 4)%nat &&
  bool_decide (db_sstReaders db = take n (db_sstReaders db) ++ files ++
    drop (n + length files) (db_sstReaders db)) &&
  bool_decide (w_dir w !! tmp_name (merged_path files) (w_now w) = None) && (group_size w files <? 2 ^ 31).

Lemma compaction_keeps_answers_witness :
  exists w db files tier, running (mkCsys (mkSys w db Idle) CIdle) /\ length (db_sstReaders db) = 5%nat /\
    selectFilesForCompaction w db = (files, tier) /\ files <> [] /\
    exists db' w', RunCompaction db w = ((None, db'), w') /\
      (length (db_sstReaders db') + 3 = length (db_sstReaders db))%nat /\
      forall k, lookup_inside w db k -> lookup_inside w' db' k ->
        StrataGo_Get w' db' k = StrataGo_Get w db k.
Proof.
  assert ((fun x => (length (db_sstReaders x.2), can_compact 1 x.1 x.2))
    <$> idle_run empty_disk schedule5 = Some (5%nat, true)) as Ho by vm_equal.
  destruct (idle_run empty_disk schedule5) as [[w db]|] eqn:Er; [|discriminate Ho].
  injection Ho as Hn Hc. pose proof (idle_run_running _ _ _ _ _ _ _ empty_disk_ok Er) as Hr.
  unfold can_compact in Hc. destruct (selectFilesForCompaction w db) as [files tier] eqn:Esel. cbn [fst] in Hc.
  rewrite !andb_true_iff in Hc. destruct Hc as [[[Hl Hnb] Htmp] Hsz].
  apply bool_decide_eq_true in Hnb, Htmp. apply Z.ltb_lt in Hsz. apply Nat.eqb_eq in Hl.
  assert (files <> []) as Hne by by intros ->.
  exists w, db, files, tier. split; [exact Hr|]. split; [exact Hn|]. split; [exact Esel|]. split; [exact Hne|].
  apply (compaction_keeps_answers w db Idle files tier Hr Esel Hne); [|exact Htmp|exact Hsz].
  eexists _, _. exact Hnb.
Defined.

Lemma purge_resets_witness :
  exists db w1 l w2 db2, Open empty_disk = (inr db, w1) /\
    csteps orderly (mkCsys (mkSys w1 db Idle) CIdle) l (mkCsys (mkSys w2 db2 Idle) CIdle) /\
    length l = 7%nat /\
    exists db3 w3,
      StrataGo_Purge db2 w2 = ((None, db3), w3) /\
      forall ops, Forall op_ok ops -> len ops < 2 ^ 64 ->
        exists db4 w4, run_ops ops db3 w3 = ((None, db4), w4) /\
          forall k, StrataGo_Get w4 db4 k = Some (foldl (op_answer k) None ops).
Proof.
  destruct schedule4_runs as (db & w1 & l & w2 & db2 & E0 & Hst & Hl & Hfl).
  exists db, w1, l, w2, db2. split; [exact E0|]. split; [exact Hst|]. split; [exact Hl|].
  exact (purge_resets empty_disk [] [] [] db w1 l w2 db2 empty_disk_ok E0 Hst Hfl).
Defined.
End witnesses.
