(* ===== verification/GoNet.v ===== *)
(** * Network addresses: [net.SplitHostPort], [fmt.Sprintf("%s:%d")]

    The server and [main.go] compute ports from [host:port] texts. *)
From stdpp Require Import base gmap sets list strings numbers.
From Stdlib Require Import ZArith Lia Ascii.
From S2P Require Import Prelude Disk GoFmt.
Open Scope Z_scope.

(** [strings.IndexByte] and [strings.LastIndexByte] *)
Fixpoint index_byte (c : ascii) (l : list ascii) : option nat :=
  match l with
  | [] => None
  | d :: l' => if Ascii.eqb c d then Some 0%nat else S <$> index_byte c l'
  end.

Definition last_index_byte (c : ascii) (l : list ascii) : option nat :=
  (fun j => length l - 1 - j)%nat <$> index_byte c (rev l).

Definition contains (c : ascii) (l : list ascii) : bool :=
  match index_byte c l with Some _ => true | None => false end.

Definition missingPort : error := ErrMsg "missing port in address".
Definition tooManyColons : error := ErrMsg "too many colons in address".

(** [net.SplitHostPort] *)
Definition SplitHostPort (hostport : string) : result (string * string) :=
  let l := chars hostport in
  match last_index_byte ":" l with
  | None => inl missingPort
  | Some i =>
      let finish (host : list ascii) (j k : nat) : result (string * string) :=
        if contains "[" (drop j l) then inl (ErrMsg "unexpected '[' in address")
        else if contains "]" (drop k l) then inl (ErrMsg "unexpected ']' in address")
        else inr (of_chars host, of_chars (drop (S i) l)) in
      if bool_decide (head l = Some "["%char) then
        match index_byte "]" l with
        | None => inl (ErrMsg "missing ']' in address")
        | Some e =>
            if (S e =? length l)%nat then inl missingPort
            else if (S e =? i)%nat then finish (take (e - 1) (drop 1 l)) 1%nat (S e)
            else if bool_decide (l !! S e = Some ":"%char) then inl tooManyColons
            else inl missingPort
        end
      else
        let host := take i l in
        if contains ":" host then inl tooManyColons else finish host 0%nat 0%nat
  end.

(** [fmt.Sprintf("%s:%d", host, port)] *)
Definition host_port (host : string) (port : Z) : string := (host +:+ ":" +:+ Itoa port)%string.

(** ** Lemmas *)

Lemma index_byte_None c l : c ∉ l -> index_byte c l = None.
Proof.
  induction l as [|d l IH]; [done|]. intros Hn%not_elem_of_cons. destruct Hn as [Hne Hn]. cbn.
  destruct (Ascii.eqb_spec c d); [done|]. by rewrite IH.
Qed.

Lemma index_byte_app c l r : c ∉ l -> index_byte c (l ++ c :: r) = Some (length l).
Proof.
  induction l as [|d l IH]; intros Hn.
  - cbn. by rewrite Ascii.eqb_refl.
  - apply not_elem_of_cons in Hn as [Hne Hn]. cbn. destruct (Ascii.eqb_spec c d); [done|].
    by rewrite IH.
Qed.

Lemma last_index_byte_app c l r : c ∉ r -> last_index_byte c (l ++ c :: r) = Some (length l).
Proof.
  intros Hn. unfold last_index_byte.
  assert (rev (l ++ c :: r) = rev r ++ c :: rev l) as ->
    by (rewrite rev_app_distr; cbn [rev]; by rewrite <- app_assoc).
  rewrite index_byte_app.
  - cbn. f_equal. rewrite length_app, length_rev. cbn. lia.
  - intros Hin. apply Hn. rewrite list_elem_of_In in *. by apply in_rev.
Qed.

Lemma contains_false c l : c ∉ l -> contains c l = false.
Proof. intros Hn. unfold contains. by rewrite index_byte_None. Qed.

(** a text without the characters that structure an address *)
Definition plain (l : list ascii) : Prop := (":"%char ∉ l) /\ ("["%char ∉ l) /\ ("]"%char ∉ l).

Lemma plain_itoa z : plain (itoa_chars z).
Proof.
  assert (forall c ds, Forall (fun d => 0 <= d < 10) ds -> c ∈ (digit_char <$> ds) ->
    c ∈ ["0";"1";"2";"3";"4";"5";"6";"7";"8";"9"]%char) as Hd.
  { intros c ds Hds (d & -> & Hin)%list_elem_of_fmap. rewrite Forall_forall in Hds.
    apply digit_char_cases. apply Hds. by apply list_elem_of_In. }
  assert (forall c, c ∈ itoa_chars z ->
    c ∈ ["-";"0";"1";"2";"3";"4";"5";"6";"7";"8";"9"]%char) as Hc.
  { intros c. unfold itoa_chars. case_match eqn:E.
    - rewrite elem_of_cons. intros [->|Hin]; [by left|]. right. eapply Hd; [|exact Hin].
      apply nat_digits_range. lia.
    - intros Hin. right. eapply Hd; [|exact Hin]. apply nat_digits_range. lia. }
  assert (forall c, c ∉ ["-";"0";"1";"2";"3";"4";"5";"6";"7";"8";"9"]%char -> c ∉ itoa_chars z) as Hn
    by (intros c Hn Hin; by apply Hn, Hc).
  split_and!; apply Hn; apply (bool_decide_unpack _); vm_compute; exact I.
Qed.

Lemma chars_host_port host port :
  chars (host_port host port) = chars host ++ ":"%char :: itoa_chars port.
Proof. unfold host_port, Itoa. rewrite !chars_app, chars_of_chars. done. Qed.

(** What is joined is split again, when the host is a name or an IPv4 address. *)
Lemma SplitHostPort_host_port host port :
  plain (chars host) -> SplitHostPort (host_port host port) = inr (host, Itoa port).
Proof.
  intros (Hc & Ho & Hb). destruct (plain_itoa port) as (Hpc & Hpo & Hpb).
  unfold SplitHostPort. rewrite chars_host_port, last_index_byte_app by done.
  rewrite bool_decide_eq_false_2.
  2: { destruct (chars host) as [|c l]; [done|]. cbn. intros [= ->]. apply Ho. by left. }
  rewrite take_app_length.
  assert (forall c, c ∉ chars host -> c ∉ itoa_chars port -> c <> ":"%char ->
    contains c (drop 0 (chars host ++ ":"%char :: itoa_chars port)) = false) as Hn.
  { intros c H1 H2 H3. apply contains_false. rewrite drop_0, elem_of_app, elem_of_cons. tauto. }
  rewrite contains_false by done. rewrite !Hn by done.
  rewrite drop_app_ge by lia.
  replace (S (length (chars host)) - length (chars host))%nat with 1%nat by lia. cbn [drop].
  unfold Itoa. f_equal. f_equal. apply chars_inj. by rewrite chars_of_chars.
Qed.
