(* ===== verification/Pb.v ===== *)
(** * Messages: the generated types of [proto/gen/kv.pb.go] and their codec

    The messages are the structs of the generated code, without the fields of
    the protobuf runtime.  The codec itself ([proto.Marshal],
    [proto.Unmarshal]) is third-party code: an interface with the laws that the
    documentation of protobuf promises.  A Go string is a byte string. *)
From stdpp Require Import base gmap sets list strings numbers.
From Stdlib Require Import ZArith Lia Strings.Byte.
From S2P Require Import Prelude Disk.
Open Scope Z_scope.

(** [Command_Operation], an open [int32] enumeration *)
Definition Command_PUT : Z := 0.
Definition Command_DELETE : Z := 1.

Record Command := mkCommand { cmd_Op : Z; cmd_Key : bytes; cmd_Value : slice }.
Record KVEntry := mkKVEntry { kve_Key : bytes; kve_Value : slice }.

(** [GetRequest_ConsistencyLevel] *)
Definition GetRequest_STRONG : Z := 0.
Definition GetRequest_FAST : Z := 1.
Definition GetRequest_EVENTUAL : Z := 2.

Record PutRequest := mkPutRequest { put_Key : bytes; put_Value : slice }.
Record PutResponse :=
  MkPutResponse { putr_Success : bool; putr_Message : string; putr_LeaderAddress : string }.
(** the struct literal with the two fields that the server fills in *)
Definition mkPutResponse (success : bool) (message : string) : PutResponse :=
  MkPutResponse success message "".
Record GetRequest := mkGetRequest { get_Key : bytes; get_Consistency : Z }.
Record GetResponse :=
  mkGetResponse { getr_Found : bool; getr_Value : slice; getr_LeaderAddress : string }.
Record DeleteRequest := mkDeleteRequest { del_Key : bytes }.
Record DeleteResponse := mkDeleteResponse { delr_Success : bool; delr_LeaderAddress : string }.

(** what a bytes field is after a trip over the wire: proto3 does not serialize
    default values, so an empty field comes back as nil *)
Definition wire_bytes (v : slice) : slice :=
  match v with Some [] => None | _ => v end.

Definition wire_Command (c : Command) : Command :=
  mkCommand (cmd_Op c) (cmd_Key c) (wire_bytes (cmd_Value c)).
Definition wire_KVEntry (e : KVEntry) : KVEntry :=
  mkKVEntry (kve_Key e) (wire_bytes (kve_Value e)).

Class Proto := {
  Command_Marshal : Command -> result bytes;
  Command_Unmarshal : bytes -> result Command;
  KVEntry_Marshal : KVEntry -> result bytes;
  KVEntry_Unmarshal : bytes -> result KVEntry
}.

(** Unmarshalling what was marshalled gives the message as seen on the wire;
    messages are smaller than 2 GiB. *)
Class ProtoLaws `{Proto} := {
  Command_roundtrip c d :
    Command_Marshal c = inr d -> Command_Unmarshal d = inr (wire_Command c);
  KVEntry_roundtrip e d :
    KVEntry_Marshal e = inr d -> KVEntry_Unmarshal d = inr (wire_KVEntry e);
  KVEntry_size e d : KVEntry_Marshal e = inr d -> len d < 2 ^ 31
}.

(** ** A concrete codec, for the witnesses

    Fixed-width fields, and nil for empty values: it satisfies the laws. *)

Definition put_field (b : bytes) : bytes := le32 (len b) ++ b.

Definition get_field (d : bytes) : option (bytes * bytes) :=
  let n := le_decode (take 4 d) in
  let rest := drop 4 d in
  if (4 <=? len d) && (n <=? len rest) then
    Some (take (Z.to_nat n) rest, drop (Z.to_nat n) rest)
  else None.

Lemma get_put_field b rest : len b < 2 ^ 32 -> get_field (put_field b ++ rest) = Some (b, rest).
Proof.
  intros Hb. unfold get_field, put_field. pose proof (len_nonneg b). pose proof (len_nonneg rest).
  rewrite <- app_assoc. rewrite take_app_length', drop_app_length' by (symmetry; apply length_le_encode).
  rewrite le32_decode, to_nat_len by lia. rewrite take_app_length, drop_app_length.
  rewrite !len_app, len_le32. rewrite (proj2 (Z.leb_le 4 _)), (proj2 (Z.leb_le (len b) _)) by lia.
  done.
Qed.

(** an empty value is not told from nil *)
Definition of_field (v : bytes) : slice := match v with [] => None | _ => Some v end.

Lemma of_field_slice v : of_field (slice_bytes v) = wire_bytes v.
Proof. by destruct v as [[|]|]. Qed.

Definition plain_encode (op : bytes) (k : bytes) (v : slice) : result bytes :=
  if len k + len (slice_bytes v) <? 2 ^ 30 then
    inr (op ++ put_field k ++ put_field (slice_bytes v))
  else inl (ErrMsg "message too large").

Definition plain_decode (d : bytes) : result (bytes * slice) :=
  match get_field d with
  | Some (k, d') =>
      match get_field d' with
      | Some (v, []) => inr (k, of_field v)
      | _ => inl (ErrMsg "invalid message")
      end
  | None => inl (ErrMsg "invalid message")
  end.

Lemma plain_decode_encode op k v d :
  plain_encode op k v = inr d ->
  exists d', d = op ++ d' /\ plain_decode d' = inr (k, wire_bytes v) /\
    len d < len op + 2 ^ 30 + 8.
Proof.
  unfold plain_encode. destruct (Z.ltb_spec (len k + len (slice_bytes v)) (2 ^ 30)); [|done].
  intros E. assert (d = op ++ put_field k ++ put_field (slice_bytes v)) as -> by congruence.
  clear E. eexists. split; [done|]. pose proof (len_nonneg k).
  pose proof (len_nonneg (slice_bytes v)). split.
  - unfold plain_decode. rewrite get_put_field by lia. cbv beta iota.
    rewrite <- (app_nil_r (put_field (slice_bytes v))), get_put_field by lia.
    by rewrite of_field_slice.
  - unfold put_field. rewrite !len_app, !len_le32. lia.
Qed.

Definition plain_proto : Proto := {|
  Command_Marshal c :=
    if (0 <=? cmd_Op c) && (cmd_Op c <? 256)
    then plain_encode [byte_of (cmd_Op c)] (cmd_Key c) (cmd_Value c)
    else inl (ErrMsg "operation not supported");
  Command_Unmarshal d :=
    match d with
    | op :: d' =>
        match plain_decode d' with
        | inr (k, v) => inr (mkCommand (byte_val op) k v)
        | inl e => inl e
        end
    | [] => inl (ErrMsg "invalid message")
    end;
  KVEntry_Marshal e := plain_encode [] (kve_Key e) (kve_Value e);
  KVEntry_Unmarshal d :=
    match plain_decode d with inr (k, v) => inr (mkKVEntry k v) | inl e => inl e end
|}.

Lemma plain_proto_laws : @ProtoLaws plain_proto.
Proof.
  split.
  - intros c d. cbn [Command_Marshal Command_Unmarshal plain_proto].
    destruct (Z.leb_spec 0 (cmd_Op c)), (Z.ltb_spec (cmd_Op c) 256); try done. cbn [andb].
    intros (d' & -> & E & _)%plain_decode_encode. cbn [app]. rewrite E.
    unfold wire_Command. do 2 f_equal. rewrite byte_val_of. by apply Z.mod_small.
  - intros e d. cbn [KVEntry_Marshal KVEntry_Unmarshal plain_proto].
    intros (d' & -> & E & _)%plain_decode_encode. cbn [app]. by rewrite E.
  - intros e d. cbn [KVEntry_Marshal plain_proto].
    intros (d' & -> & _ & Hd)%plain_decode_encode. cbn [app] in *. rewrite len_nil in Hd. lia.
Qed.
