(* ===== verification/Fsm.v ===== *)
(** * The replicated state machine: [consensus/fsm.go]

    [StrataFSM] connects Raft with the engine: [Apply] for a committed entry,
    [Snapshot] and [Persist] to write the state as a stream of length-prefixed
    entries, [Restore] to rebuild an engine from such a stream.  Raft itself and
    the snapshot store are third-party code: the log is a list of byte strings,
    the sink an interface. *)
From stdpp Require Import base gmap sets list strings numbers sorting.
From Stdlib Require Import ZArith Lia Strings.Byte.
From S2P Require Import Prelude SkipList Disk Wal Bloom GoFmt Sst Reader Engine Recovery Flush.
From S2P Require Import GoHeap Merge Compaction Provenance Concurrent Durable Lifecycle Quiet Pb.
Open Scope Z_scope.

(** [raft.SnapshotSink] *)
Class SnapshotSink (S : Type) := {
  sink_Write : bytes -> S -> err * S;
  sink_Close : S -> err * S;
  sink_Cancel : S -> S
}.

(** what a sink promises: a write that succeeds appends its bytes *)
Class SinkLaws (S : Type) `{SnapshotSink S} := {
  sink_data : S -> bytes;
  sink_Write_data p s s' : sink_Write p s = (None, s') -> sink_data s' = sink_data s ++ p;
  sink_Close_data s s' : sink_Close s = (None, s') -> sink_data s' = sink_data s
}.

(** the stream given to [Restore]: its bytes, and the error that ends it if that
    is not [io.EOF] *)
Record stream := mkStream { st_data : bytes; st_err : option error }.

(** [io.ReadFull] on a stream *)
Definition stream_ReadFull (st : stream) (pos n : Z) : result (bytes * Z) :=
  match ReadFull (st_data st) pos n with
  | inl e => inl (default e (st_err st))
  | inr r => inr r
  end.

Record strataSnapshot := mkStrataSnapshot { snap_state : gmap bytes bytes }.

(** no result of the code; [restore_terminates] shows that it does not occur *)
Definition out_of_fuel : error := ErrMsg "restore does not terminate".

Section fsm.
Context `{Murmur3} `{Runtime} `{Proto}.

(** ** Apply *)

Definition StrataFSM_Apply (db : StrataGo) (data : bytes) : IO (err * StrataGo) :=
  match Command_Unmarshal data with
  | inl e => ret (Some (ErrWrap "failed to unmarshal Raft command" e), db)
  | inr cmd =>
      if cmd_Op cmd =? Command_PUT then StrataGo_Put db (cmd_Key cmd) (cmd_Value cmd)
      else if cmd_Op cmd =? Command_DELETE then StrataGo_Delete db (cmd_Key cmd)
      else ret (Some (ErrMsg "unknown operation"), db)
  end.

(** ** Snapshot and Persist *)

Definition StrataFSM_Snapshot (db : StrataGo) : IO (result strataSnapshot) :=
  and_bind (StrataGo_ScanAll db)
    (fun e => ret (inl (ErrWrap "failed to scan database for snapshot" e)))
    (fun state => ret (inr (mkStrataSnapshot state))).

(** the loop of the closure in [Persist] *)
Fixpoint persist_entries {S} `{SnapshotSink S} (es : list (bytes * slice)) (sink : S) : err * S :=
  match es with
  | [] => sink_Close sink
  | (k, v) :: es' =>
      match KVEntry_Marshal (mkKVEntry k v) with
      | inl e => (Some e, sink)
      | inr data =>
          match sink_Write (le32 (u32 (len data))) sink with
          | (Some e, sink) => (Some e, sink)
          | (None, sink) =>
              match sink_Write data sink with
              | (Some e, sink) => (Some e, sink)
              | (None, sink) => persist_entries es' sink
              end
          end
      end
  end.

Definition strataSnapshot_Persist {S} `{SnapshotSink S} (s : strataSnapshot) (sink : S) : err * S :=
  match persist_entries (go_range (Some <$> snap_state s)) sink with
  | (None, sink) => (None, sink)
  | (Some e, sink) => (Some e, sink_Cancel sink)
  end.

(** ** Restore *)

Fixpoint restore_loop (fuel : nat) (rc : stream) (pos : Z) (db : StrataGo) : IO (err * StrataGo) :=
  match fuel with
  | O => ret (Some out_of_fuel, db)
  | S fuel' =>
      match stream_ReadFull rc pos 4 with
      | inl EOF => ret (None, db)
      | inl e => ret (Some (ErrWrap "failed to read snapshot length prefix" e), db)
      | inr (header, pos1) =>
          match stream_ReadFull rc pos1 (le_decode header) with
          | inl e => ret (Some (ErrWrap "failed to read snapshot payload" e), db)
          | inr (buf, pos2) =>
              match KVEntry_Unmarshal buf with
              | inl e => ret (Some (ErrWrap "failed to unmarshal snapshot entry" e), db)
              | inr entry =>
                  '(r, db') ← StrataGo_Put db (kve_Key entry) (kve_Value entry);
                  match r with
                  | Some e => ret (Some (ErrWrap "failed to ingest restored key" e), db')
                  | None => restore_loop fuel' rc pos2 db'
                  end
              end
          end
      end
  end.

Definition restore_fuel (rc : stream) : nat := S (length (st_data rc)).

Definition StrataFSM_Restore (db : StrataGo) (rc : stream) : IO (err * StrataGo) :=
  '(r, db') ← StrataGo_Purge db;
  match r with
  | Some e => ret (Some (ErrWrap "failed to purge engine before restore" e), db')
  | None => restore_loop (restore_fuel rc) rc 0 db'
  end.

(** ** Specification *)

(** the committed log, applied in order by Raft *)
Fixpoint apply_log (log : list bytes) (db : StrataGo) : IO (list err * StrataGo) :=
  match log with
  | [] => ret ([], db)
  | d :: log' =>
      '(r, db') ← StrataFSM_Apply db d;
      '(rs, db'') ← apply_log log' db';
      ret (r :: rs, db'')
  end.

(** the operation a log entry stands for, if any *)
Definition entry_effect (data : bytes) : option op :=
  match Command_Unmarshal data with
  | inl _ => None
  | inr cmd =>
      if cmd_Op cmd =? Command_PUT then Some (OpPut (cmd_Key cmd) (cmd_Value cmd))
      else if cmd_Op cmd =? Command_DELETE then Some (OpDelete (cmd_Key cmd))
      else None
  end.

(** the response to an entry that stands for no operation *)
Definition entry_error (data : bytes) : err :=
  match Command_Unmarshal data with
  | inl e => Some (ErrWrap "failed to unmarshal Raft command" e)
  | inr cmd =>
      if cmd_Op cmd =? Command_PUT then None
      else if cmd_Op cmd =? Command_DELETE then None
      else Some (ErrMsg "unknown operation")
  end.

(** the sizes of the entries fit the log of the engine *)
Definition log_ok (log : list bytes) : Prop :=
  Forall (fun d => forall o, entry_effect d = Some o -> op_ok o) log.

Lemma Apply_effect db data w :
  StrataFSM_Apply db data w =
  match entry_effect data with
  | Some o => run_op o db w
  | None => ((entry_error data, db), w)
  end.
Proof.
  unfold StrataFSM_Apply, entry_effect, entry_error. destruct (Command_Unmarshal data); [done|].
  by repeat case_match.
Qed.

Lemma entry_effect_error data o : entry_effect data = Some o -> entry_error data = None.
Proof.
  unfold entry_effect, entry_error. destruct (Command_Unmarshal data); [done|].
  by repeat case_match.
Qed.

(** Applying a log is running the operations its entries stand for. *)
Lemma apply_log_ok I Ts log : forall w db wal A,
  engine_ok w db wal A I Ts -> db_closed db = false -> w_faults w = [] -> log_ok log ->
  len wal + len log < 2 ^ 64 ->
  exists db' w' wal' A', apply_log log db w = ((entry_error <$> log, db'), w') /\
    engine_ok w' db' wal' A' I Ts /\
    (forall k, answer A' I (Ts.*2) k =
       foldl (op_answer k) (answer A I (Ts.*2) k) (omap entry_effect log)) /\
    w_faults w' = [] /\ db_closed db' = false.
Proof.
  induction log as [|d log IH]; intros w db wal A He Hc Hf Hok Hlen.
  - by exists db, w, wal, A.
  - apply Forall_cons in Hok as [Hd Hok]. rewrite len_cons in Hlen. pose proof (len_nonneg log).
    cbn [apply_log]. unfold mbind, IO_bind. rewrite Apply_effect.
    destruct (entry_effect d) as [o|] eqn:Eo.
    + pose proof (engine_seq _ _ _ _ _ _ He) as Hseq.
      destruct (run_op_ok w db wal A I Ts o He Hc Hf (Hd o eq_refl) ltac:(lia))
        as (db1 & w1 & -> & He1 & _ & Hf1 & _ & Hc1).
      destruct (IH w1 db1 _ _ He1 Hc1 Hf1 Hok) as (db2 & w2 & wal2 & A2 & -> & He2 & Ha2 & Hf2 & Hc2);
        [lens|].
      exists db2, w2, wal2, A2. rewrite fmap_cons, (entry_effect_error d o Eo).
      split; [done|]. split; [done|]. split; [|done]. intros k. rewrite Ha2. cbn. rewrite Eo.
      cbn [foldl]. f_equal. unfold op_answer.
      by rewrite answer_put by by eapply repr_sorted, (eo_active _ _ _ _ _ _ He).
    + destruct (IH w db wal A He Hc Hf Hok ltac:(lia))
        as (db2 & w2 & wal2 & A2 & -> & He2 & Ha2 & Hf2 & Hc2).
      exists db2, w2, wal2, A2. rewrite fmap_cons. split; [done|]. split; [done|].
      split; [|done]. intros k. rewrite Ha2. cbn. by rewrite Eo.
Qed.
End fsm.

(** ** The snapshot stream *)

Section snapshot.
Context `{Murmur3} `{Runtime} `{ProtoLaws}.

(** one entry of the stream *)
Definition frame (d : bytes) : bytes := le32 (len d) ++ d.

(** the stream of a list of entries *)
Fixpoint snapshot_bytes (es : list (bytes * slice)) : result bytes :=
  match es with
  | [] => inr []
  | (k, v) :: es' =>
      match KVEntry_Marshal (mkKVEntry k v) with
      | inl e => inl e
      | inr d =>
          match snapshot_bytes es' with inl e => inl e | inr b => inr (frame d ++ b) end
      end
  end.

Definition restored_ops (es : list (bytes * slice)) : list op :=
  (fun e => OpPut e.1 (wire_bytes e.2)) <$> es.

(** Persisting that succeeds has appended the stream. *)
Lemma persist_entries_data {S} `{SinkLaws S} es : forall s s' : S,
  persist_entries es s = (None, s') ->
  exists b, snapshot_bytes es = inr b /\ sink_data s' = sink_data s ++ b.
Proof.
  induction es as [|[k v] es IH]; intros s s'; cbn [persist_entries snapshot_bytes].
  - intros E. exists []. split; [done|]. rewrite app_nil_r. by apply sink_Close_data.
  - destruct (KVEntry_Marshal (mkKVEntry k v)) as [|d] eqn:Em; [done|].
    pose proof (KVEntry_size _ _ Em) as Hd. pose proof (len_nonneg d).
    destruct (sink_Write _ s) as [[e|] s1] eqn:E1; [done|].
    destruct (sink_Write d s1) as [[e|] s2] eqn:E2; [done|]. intros E3.
    destruct (IH _ _ E3) as (b & -> & Hb). exists (frame d ++ b). split; [done|].
    rewrite Hb, (sink_Write_data _ _ _ E2), (sink_Write_data _ _ _ E1).
    rewrite u32_small by lia. unfold frame. by rewrite <- !app_assoc.
Qed.

Lemma snapshot_bytes_cons k v es b :
  snapshot_bytes ((k, v) :: es) = inr b ->
  exists d b', KVEntry_Marshal (mkKVEntry k v) = inr d /\ snapshot_bytes es = inr b' /\
    b = frame d ++ b'.
Proof.
  cbn [snapshot_bytes]. destruct (KVEntry_Marshal (mkKVEntry k v)) as [|d]; [done|].
  destruct (snapshot_bytes es) as [|b']; [done|]. intros E. exists d, b'.
  split; [done|]. split; [done|]. congruence.
Qed.

Lemma stream_read rc pre p post n :
  st_data rc = pre ++ p ++ post -> n = len p ->
  stream_ReadFull rc (len pre) n = inr (p, len pre + n).
Proof. intros E Hn. unfold stream_ReadFull. by rewrite E, ReadFull_app. Qed.

(** One entry is read and put. *)
Lemma restore_loop_put fuel rc pre k v d post db w :
  KVEntry_Marshal (mkKVEntry k v) = inr d -> st_data rc = pre ++ frame d ++ post ->
  restore_loop (S fuel) rc (len pre) db w =
  match StrataGo_Put db k (wire_bytes v) w with
  | ((Some e, db'), w') => ((Some (ErrWrap "failed to ingest restored key" e), db'), w')
  | ((None, db'), w') => restore_loop fuel rc (len pre + len (frame d)) db' w'
  end.
Proof.
  intros Em E. pose proof (KVEntry_size _ _ Em) as Hd. pose proof (len_nonneg d).
  cbn [restore_loop]. unfold frame in E. rewrite <- app_assoc in E.
  rewrite (stream_read rc pre (le32 (len d)) (d ++ post) 4 E) by (by rewrite len_le32).
  rewrite le32_decode by lia.
  assert (len pre + 4 = len (pre ++ le32 (len d))) as -> by lens.
  rewrite (stream_read rc (pre ++ le32 (len d)) d post (len d)) by (by rewrite ?E, <- ?app_assoc).
  rewrite (KVEntry_roundtrip _ _ Em). unfold wire_KVEntry. cbn [kve_Key kve_Value].
  unfold mbind, IO_bind. destruct (StrataGo_Put db k (wire_bytes v) w) as [[[e|] db'] w']; [done|].
  f_equal. unfold frame. lens.
Qed.

Lemma restore_loop_entry fuel rc pre k v d post db w db' w' :
  KVEntry_Marshal (mkKVEntry k v) = inr d -> st_data rc = pre ++ frame d ++ post ->
  StrataGo_Put db k (wire_bytes v) w = ((None, db'), w') ->
  restore_loop (S fuel) rc (len pre) db w =
  restore_loop fuel rc (len pre + len (frame d)) db' w'.
Proof. intros Em E Ep. by rewrite (restore_loop_put _ _ _ _ _ _ _ _ _ Em E), Ep. Qed.

Lemma restore_loop_entries es : forall b rc pre post fuel db w db' w',
  snapshot_bytes es = inr b -> st_data rc = pre ++ b ++ post ->
  run_ops (restored_ops es) db w = ((None, db'), w') ->
  restore_loop (length es + fuel) rc (len pre) db w =
  restore_loop fuel rc (len pre + len b) db' w'.
Proof.
  induction es as [|[k v] es IH]; intros b rc pre post fuel db w db' w'.
  - intros [= <-] E [= -> ->]. rewrite len_nil. by rewrite Z.add_0_r.
  - intros (d & b' & Em & Eb & ->)%snapshot_bytes_cons E.
    unfold restored_ops. rewrite fmap_cons. cbn [run_ops run_op fst snd]. unfold mbind, IO_bind.
    destruct (StrataGo_Put db k (wire_bytes v) w) as [[[e|] db1] w1] eqn:Ep; [done|].
    intros Er. cbn [length]. rewrite <- app_assoc in E.
    rewrite Nat.add_succ_l, (restore_loop_entry _ rc pre k v d (b' ++ post) db w db1 w1 Em E Ep).
    rewrite <- len_app. rewrite (IH b' rc (pre ++ frame d) post fuel db1 w1 db' w' Eb);
      [|by rewrite E, <- !app_assoc|done].
    f_equal. lens.
Qed.

Lemma snapshot_bytes_length es b : snapshot_bytes es = inr b -> (length es <= length b)%nat.
Proof.
  revert b. induction es as [|[k v] es IH]; intros b; [cbn; lia|].
  intros (d & b' & _ & Eb & ->)%snapshot_bytes_cons. specialize (IH b' Eb). cbn [length]. unfold frame. rewrite !length_app, length_le_encode. lia.
Qed.

(** The stream ends on an entry boundary. *)
Lemma restore_loop_end fuel rc pre db w :
  st_data rc = pre -> st_err rc = None -> restore_loop (S fuel) rc (len pre) db w = ((None, db), w).
Proof.
  intros E Ee. cbn [restore_loop]. unfold stream_ReadFull.
  rewrite E, <- (app_nil_r pre), Ee, ReadFull_short; [done|by rewrite app_nil_r|done].
Qed.

(** The stream ends inside an entry. *)
Lemma restore_loop_torn fuel rc pre p q d db w :
  st_data rc = pre ++ p -> st_err rc = None -> frame d = p ++ q -> p <> [] -> q <> [] ->
  len d < 2 ^ 31 ->
  exists e, restore_loop (S fuel) rc (len pre) db w = ((Some e, db), w).
Proof.
  intros E Ee Hf Hp Hq Hd. cbn [restore_loop]. unfold stream_ReadFull. rewrite Ee, E.
  pose proof (len_nonneg d). destruct (Z.lt_ge_cases (len p) 4) as [Hlt|Hge].
  - rewrite ReadFull_short by done. rewrite decide_False by done. eauto.
  - assert (exists p', p = le32 (len d) ++ p' /\ d = p' ++ q) as (p' & -> & ->).
    { unfold frame in Hf. unfold len in Hge.
      assert (length (le32 (len d)) = 4%nat) as H4 by apply length_le_encode.
      exists (drop 4 p). split.
      - rewrite <- (take_drop 4 p) at 1. f_equal.
        apply (f_equal (take 4)) in Hf. rewrite take_app_le in Hf by lia.
        rewrite take_app_le in Hf by lia. rewrite <- Hf. apply take_ge. lia.
      - apply (f_equal (drop 4)) in Hf. rewrite drop_app_le in Hf by lia.
        rewrite drop_app_le in Hf by lia. rewrite drop_ge in Hf by lia. done. }
    rewrite (ReadFull_app pre (le32 (len (p' ++ q))) p') by (done || by rewrite len_le32).
    rewrite le32_decode by lia.
    assert (0 < len q) as Hlq.
    { destruct q; [done|]. rewrite len_cons. pose proof (len_nonneg q). lia. }
    assert (len pre + 4 = len (pre ++ le32 (len (p' ++ q)))) as -> by lens.
    rewrite app_assoc. rewrite ReadFull_short; [eauto|done|lens].
Qed.

(** [Restore] up to the end of the entries: an empty engine into which exactly
    the entries have been put. *)
Lemma Restore_purged w db db1 w1 es b rc post :
  StrataGo_Purge db w = ((None, db1), w1) ->
  engine_ok w1 db1 [] [] None [] -> db_closed db1 = false -> w_faults w1 = [] ->
  snapshot_bytes es = inr b -> st_data rc = b ++ post ->
  Forall op_ok (restored_ops es) -> len es < 2 ^ 64 ->
  exists fuel db2 w2 A, StrataFSM_Restore db rc w = restore_loop (S fuel) rc (len b) db2 w2 /\
    engine_ok w2 db2 (op_entry <$> restored_ops es) A None [] /\
    (forall k, answer A None [] k = foldl (op_answer k) None (restored_ops es)) /\
    db_closed db2 = false /\ w_faults w2 = [] /\ w_dir w2 = w_dir w1.
Proof.
  intros E1 He1 Hc1 Hf1 Eb Est Hok Hlen.
  assert (len (@nil (bytes * slice)) + len (restored_ops es) < 2 ^ 64) as Hl.
  { unfold restored_ops, len in *. rewrite length_fmap. cbn [length]. lia. }
  destruct (run_ops_ok None [] (restored_ops es) w1 db1 [] [] He1 Hc1 Hf1 Hok Hl)
    as (db2 & w2 & A2 & E2 & He2 & Ha2 & Hf2 & Hd2 & Hc2).
  unfold StrataFSM_Restore, mbind, IO_bind. rewrite E1.
  pose proof (snapshot_bytes_length es b Eb).
  assert (restore_fuel rc = length es + S (length b - length es + length post))%nat as ->.
  { unfold restore_fuel. rewrite Est, length_app. lia. }
  rewrite (restore_loop_entries es b rc [] post _ db1 w1 db2 w2 Eb Est E2).
  by eexists _, db2, w2, A2.
Qed.

Lemma Restore_entries w db log A Ts es b rc post :
  engine_ok w db log A None Ts -> db_closed db = false -> w_faults w = [] ->
  can_flush w A Ts -> dir_ok w Ts -> w_dir w !! flushingName = None ->
  snapshot_bytes es = inr b -> st_data rc = b ++ post ->
  Forall op_ok (restored_ops es) -> len es < 2 ^ 64 ->
  exists fuel db2 w2, StrataFSM_Restore db rc w = restore_loop (S fuel) rc (len b) db2 w2 /\
    forall k, StrataGo_Get w2 db2 k = Some (foldl (op_answer k) None (restored_ops es)).
Proof.
  intros He Hc Hf Hcan Hd Hfl Eb Est Hok Hlen.
  destruct (Purge_ok w db log A Ts He Hc Hf Hcan Hd Hfl)
    as (db1 & w1 & E1 & He1 & Hc1 & Hf1 & _).
  destruct (Restore_purged w db db1 w1 es b rc post E1 He1 Hc1 Hf1 Eb Est Hok Hlen)
    as (fuel & db2 & w2 & A2 & -> & He2 & Ha2 & _).
  exists fuel, db2, w2. split; [done|]. intros k.
  rewrite (Get_ok _ _ _ _ _ _ k He2) by constructor. by rewrite Ha2.
Qed.

Lemma foldl_puts k es : forall a,
  NoDup (es.*1) ->
  foldl (op_answer k) a (restored_ops es) =
  match (list_to_map es : gmap bytes slice) !! k with Some v => wire_bytes v | None => a end.
Proof.
  induction es as [|[k' v] es IH]; intros a Hnd; [done|]. rewrite fmap_cons in Hnd.
  apply NoDup_cons in Hnd as [Hn Hnd]. unfold restored_ops. rewrite fmap_cons. cbn [foldl].
  fold (restored_ops es). rewrite IH by done. cbn [list_to_map foldr]. unfold op_answer.
  cbn [op_entry fst snd]. case_decide as E.
  - subst k'. cbn. rewrite lookup_insert_eq. by rewrite not_elem_of_list_to_map_1.
  - cbn. by rewrite lookup_insert_ne.
Qed.

(** The entries of a state, put in any order into an empty engine, give the state. *)
Lemma restored_state (m : gmap bytes bytes) es k :
  es ≡ₚ map_to_list (Some <$> m) -> (forall v, m !! k = Some v -> v <> []) ->
  foldl (op_answer k) None (restored_ops es) = m !! k.
Proof.
  intros HP Hne. destruct (list_to_map_perm _ _ HP) as [Hnd Em].
  rewrite foldl_puts, Em by done.
  rewrite lookup_fmap. destruct (m !! k) as [v|] eqn:E; [|done]. cbn.
  destruct v; [by destruct (Hne [])|done].
Qed.
End snapshot.

(** ** Properties *)

Section properties.
Context `{Murmur3} `{Proto}.

Lemma restore_loop_total fuel : forall rc pos db w,
  0 <= pos -> (Z.to_nat (len (st_data rc) - pos) < fuel)%nat ->
  (restore_loop fuel rc pos db w).1.1 <> Some out_of_fuel.
Proof.
  induction fuel as [|fuel IH]; intros rc pos db w Hpos Hf; [lia|]. cbn [restore_loop].
  unfold stream_ReadFull. destruct (ReadFull (st_data rc) pos 4) as [e|[hdr pos1]] eqn:E1.
  { by destruct (default e (st_err rc)). }
  apply ReadFull_inr in E1 as (-> & _ & Hle); [|done..].
  destruct (ReadFull (st_data rc) (pos + 4) (le_decode hdr)) as [e|[buf pos2]] eqn:E2; [done|].
  pose proof (le_decode_range hdr) as Hr.
  apply ReadFull_inr in E2 as (-> & _ & _); [|lia..].
  destruct (KVEntry_Unmarshal buf) as [e|entry]; [done|]. unfold mbind, IO_bind.
  destruct (StrataGo_Put db (kve_Key entry) (kve_Value entry) w) as [[[e|] db'] w']; [done|].
  apply IH; lia.
Qed.

(** [Restore] reads any stream to its end.  Whatever the bytes are (lengths
    that are zero, too large or do not decode) and however the engine reacts, the
    loop ends within one iteration per byte of the stream. *)
Theorem restore_terminates (rc : stream) (db : StrataGo) (w : World) :
  (restore_loop (restore_fuel rc) rc 0 db w).1.1 <> Some out_of_fuel.
Proof. apply restore_loop_total; [done|]. unfold restore_fuel, len. lia. Qed.

(** Apply refines the committed log.  On an engine opened on any well-formed
    directory, whatever bytes the log holds, applying it answers an entry that
    does not decode or has an unknown operation with an error and leaves the
    state alone, acknowledges every other entry, and afterwards [Get] answers as
    if the operations of the log alone had been run, in order. *)
Theorem fsm_refines_log `{Runtime} (w : World) (wal : list (bytes * slice)) (tail : bytes)
    (Ts : list (Z * list (bytes * slice))) (log : list bytes)
    (Hd : disk_ok w wal tail Ts) (Hok : log_ok log) (Hlen : len wal + len log < 2 ^ 64) :
  exists db w1 db' w2,
    Open w = (inr db, w1) /\ apply_log log db w1 = ((entry_error <$> log, db'), w2) /\
    forall k, clean_lookup Ts k ->
      StrataGo_Get w2 db' k =
        Some (foldl (op_answer k) (initial_answer wal Ts k) (omap entry_effect log)).
Proof.
  destruct (Open_ok w wal tail Ts Hd) as (db & w1 & A & E & He & HA & Hc & Hf & _).
  destruct (apply_log_ok None Ts log w1 db wal A He Hc Hf Hok Hlen)
    as (db' & w2 & wal' & A' & E2 & He2 & Ha2 & _).
  exists db, w1, db', w2. split; [done|]. split; [done|]. intros k Hk.
  by rewrite (Get_ok _ _ _ _ _ _ k He2), Ha2, (answer_initial wal) by done.
Qed.

(** Replicas agree.  Two nodes whose directories answer alike apply the same
    committed log: whatever their skip lists' random levels and map orders are,
    and however the data is split between log and tables, they give the same
    responses and the same answers. *)
Theorem replicas_agree (R1 R2 : Runtime)
    (u w : World) (wal1 wal2 : list (bytes * slice)) (tail1 tail2 : bytes)
    (Ts1 Ts2 : list (Z * list (bytes * slice))) (log : list bytes)
    (Hd1 : disk_ok u wal1 tail1 Ts1) (Hd2 : disk_ok w wal2 tail2 Ts2)
    (Hsame : forall k, initial_answer wal1 Ts1 k = initial_answer wal2 Ts2 k)
    (Hok : log_ok log) (Hl1 : len wal1 + len log < 2 ^ 64) (Hl2 : len wal2 + len log < 2 ^ 64) :
  exists db1 u1 db2 w1,
    Open (H0 := R1) u = (inr db1, u1) /\ Open (H0 := R2) w = (inr db2, w1) /\
    let '((rs1, db1'), u2) := apply_log log db1 u1 in
    let '((rs2, db2'), w2) := apply_log log db2 w1 in
    rs1 = rs2 /\
    forall k, clean_lookup Ts1 k -> clean_lookup Ts2 k ->
      StrataGo_Get u2 db1' k = StrataGo_Get w2 db2' k /\ is_Some (StrataGo_Get u2 db1' k).
Proof.
  destruct (Open_ok (H0 := R1) u wal1 tail1 Ts1 Hd1) as (db1 & u1 & A1 & E1 & He1 & HA1 & Hc1 & Hf1 & _).
  destruct (Open_ok (H0 := R2) w wal2 tail2 Ts2 Hd2) as (db2 & w1 & A2 & E2 & He2 & HA2 & Hc2 & Hf2 & _).
  exists db1, u1, db2, w1. split; [done|]. split; [done|].
  destruct (apply_log_ok None Ts1 log u1 db1 wal1 A1 He1 Hc1 Hf1 Hok Hl1)
    as (db1' & u2 & wal1' & A1' & -> & He1' & Ha1' & _).
  destruct (apply_log_ok None Ts2 log w1 db2 wal2 A2 He2 Hc2 Hf2 Hok Hl2)
    as (db2' & w2 & wal2' & A2' & -> & He2' & Ha2' & _).
  split; [done|]. intros k Hk1 Hk2.
  rewrite (Get_ok _ _ _ _ _ _ k He1' Hk1), (Get_ok _ _ _ _ _ _ k He2' Hk2), Ha1', Ha2'.
  rewrite (answer_initial wal1), (answer_initial wal2), Hsame by done. eauto.
Qed.
End properties.

Section snapshots.
Context `{Murmur3} `{Runtime} `{ProtoLaws}.

(** a node: an engine opened on a well-formed directory after some operations,
    at a time at which its memtable can be flushed *)
Record node_ok (db : StrataGo) (w : World) (Ts : list (Z * list (bytes * slice))) : Prop := {
  no_session : exists w0 wal tail ops, disk_ok w0 wal tail Ts /\ Forall op_ok ops /\
    len wal + len ops < 2 ^ 64 /\ session ops w0 = (inr db, w);
  no_fits : mem_fits (db_activeMemtable db);
  no_clock : clock_ok w db
}.

(** the entries of the snapshot fit the log of an engine *)
Definition snapshot_fits (s : strataSnapshot) : Prop :=
  (forall k v, snap_state s !! k = Some v -> entry_ok (k, Some v)) /\
  Z.of_nat (size (snap_state s)) < 2 ^ 64.

Lemma snapshot_fits_ops m :
  snapshot_fits (mkStrataSnapshot m) ->
  Forall op_ok (restored_ops (go_range (Some <$> m))) /\ len (go_range (Some <$> m)) < 2 ^ 64.
Proof.
  intros [Hfit Hsz]. cbn [snap_state] in *. pose proof (go_range_perm (Some <$> m)) as HP. split.
  - apply Forall_fmap. rewrite HP. apply Forall_forall. intros [k v] Hin%elem_of_map_to_list.
    apply lookup_fmap_Some in Hin as (u & <- & Hu). specialize (Hfit k u Hu).
    unfold compose, op_ok, entry_ok in *. cbn in *. destruct u; cbn in *; lia.
  - unfold len. rewrite HP, length_map_to_list, map_size_fmap. done.
Qed.

Lemma node_engine db w Ts :
  node_ok db w Ts ->
  exists wal A, engine_ok w db wal A None Ts /\ db_closed db = false /\ w_faults w = [] /\
    can_flush w A Ts /\ dir_ok w Ts /\ w_dir w !! flushingName = None.
Proof.
  intros [(w0 & wal & tail & ops & Hd & Hops & Hl & Hs) Hfit Hck].
  destruct (session_ok w0 wal tail Ts ops Hd Hops Hl) as (db' & w' & A & E & He & _ & Hf & Hc & Hfl & Hdir).
  rewrite Hs in E. injection E as <- <-. eexists _, A. split; [exact He|].
  split_and!; try done. by eapply idle_can_flush.
Qed.

(** C33: A snapshot carries the whole state.  Node A's engine has been running,
    with flushes and orderly compactions, and its workers stand anywhere, but every
    table it has open still has its name in the directory (after a compaction the
    merged table has none, and the snapshot misses it,
    [snapshot_misses_compacted_data]).  When A's snapshot is persisted without an
    error and node B, running with idle workers, restores the stream, B succeeds
    whatever it held before, and answers every key as A did when the snapshot was
    taken; an empty value counts as absent. *)
Theorem fsm_snapshot_restore {S} `{SinkLaws S} (sA : csys) (dbB : StrataGo) (wA' wB : World)
    (snap : strataSnapshot) (s0 s1 : S)
    (HA : running sA)
    (Hnamed : Forall (named (s_world (c_sys sA))) (db_sstReaders (s_db (c_sys sA))))
    (HB : running (mkCsys (mkSys wB dbB Idle) CIdle)) (HflB : flushable wB dbB)
    (Hsnap : StrataFSM_Snapshot (s_db (c_sys sA)) (s_world (c_sys sA)) = (inr snap, wA'))
    (Hfits : snapshot_fits snap)
    (Hempty : sink_data s0 = []) (Hpersist : strataSnapshot_Persist snap s0 = (None, s1)) :
  exists dbB' wB',
    StrataFSM_Restore dbB (mkStream (sink_data s1) None) wB = ((None, dbB'), wB') /\
    forall k, lookup_inside (s_world (c_sys sA)) (s_db (c_sys sA)) k ->
      exists a, StrataGo_Get (s_world (c_sys sA)) (s_db (c_sys sA)) k = Some a /\
        StrataGo_Get wB' dbB' k = Some (a ≫= nonempty).
Proof.
  destruct (running_cinv _ HA) as (f & walA & A & I & TsA & HiA).
  destruct (cinv_scan _ _ _ _ _ _ _ _ HiA Hnamed) as (m & w' & Escan & Hm & HgetA).
  unfold StrataFSM_Snapshot, and_bind, mbind, IO_bind in Hsnap. rewrite Escan in Hsnap.
  injection Hsnap as <- _. unfold strataSnapshot_Persist in Hpersist. cbn [snap_state] in *.
  destruct (persist_entries _ s0) as [[e|] s2] eqn:Ep; [done|]. injection Hpersist as <-.
  destruct (persist_entries_data _ _ _ Ep) as (b & Eb & Hdata). rewrite Hempty in Hdata.
  pose proof (go_range_perm (Some <$> m)) as HP.
  destruct (snapshot_fits_ops m Hfits) as [Hops Hlen].
  destruct (running_cinv _ HB) as (g & walB & B & J & TsB & HiB).
  destruct (Purge_idle _ _ _ _ _ _ _ _ _ _ HiB HflB) as (db1 & w1 & E1 & He1 & Hc1 & Hf1 & _).
  destruct (Restore_purged wB dbB db1 w1 _ b (mkStream b None) [] E1 He1 Hc1 Hf1 Eb
    (eq_sym (app_nil_r b)) Hops Hlen) as (fuel & db2 & w2 & A2 & Er & He2 & Ha2 & _).
  rewrite restore_loop_end in Er by done. exists db2, w2. rewrite Hdata. split; [done|].
  intros k Hk. exists (answer A I (TsA.*2) k). split; [by apply HgetA|].
  rewrite (Get_ok _ _ _ _ _ _ k He2) by constructor.
  rewrite Ha2, (restored_state m), Hm; [done|apply go_range_perm|]. intros v Hv ->. rewrite Hm in Hv.
  destruct (answer A I (TsA.*2) k) as [[|]|]; done.
Qed.

(** C34: A torn snapshot is refused.  When the stream ends inside an entry,
    [Restore] reports an error; the engine has been purged, and holds exactly the
    complete entries before the cut. *)
Theorem fsm_restore_truncated (db : StrataGo) (w : World) (Ts : list (Z * list (bytes * slice)))
    (es : list (bytes * slice)) (b p q d : bytes)
    (HB : node_ok db w Ts) (Eb : snapshot_bytes es = inr b)
    (Hok : Forall op_ok (restored_ops es)) (Hlen : len es < 2 ^ 64)
    (Hcut : frame d = p ++ q) (Hp : p <> []) (Hq : q <> []) (Hd : len d < 2 ^ 31) :
  exists e db' w', StrataFSM_Restore db (mkStream (b ++ p) None) w = ((Some e, db'), w') /\
    forall k, StrataGo_Get w' db' k = Some (foldl (op_answer k) None (restored_ops es)).
Proof.
  destruct (node_engine _ _ _ HB) as (wal & A & He & Hc & Hf & Hcan & Hdir & Hfl).
  destruct (Restore_entries w db wal A Ts es b (mkStream (b ++ p) None) p He Hc Hf Hcan Hdir Hfl Eb
    eq_refl Hok Hlen) as (fuel & db2 & w2 & -> & Hget).
  destruct (restore_loop_torn fuel (mkStream (b ++ p) None) b p q d db2 w2) as [e ->]; try done.
  by exists e, db2, w2.
Qed.
End snapshots.

(** ** A value that does not survive replication *)

Section empty_values.
Context `{Murmur3} `{Runtime} `{ProtoLaws}.

(** A committed [Put] of an empty value is a delete: the value comes back from
    the log as nil, which the engine takes for a tombstone. *)
Theorem fsm_put_empty_deletes (k d : bytes) :
  Command_Marshal (mkCommand Command_PUT k (Some [])) = inr d ->
  entry_error d = None /\ entry_effect d = Some (OpPut k None).
Proof.
  intros E%Command_roundtrip. unfold entry_error, entry_effect. by rewrite E.
Qed.
End empty_values.

(** ** Witnesses *)

(** an in-memory sink: its bytes, and whether it was closed or cancelled *)
Record buffer_sink := mkSink { bs_data : bytes; bs_closed : bool; bs_canceled : bool }.

#[export] Instance buffer_sink_ops : SnapshotSink buffer_sink := {|
  sink_Write p s := (None, mkSink (bs_data s ++ p) (bs_closed s) (bs_canceled s));
  sink_Close s := (None, mkSink (bs_data s) true (bs_canceled s));
  sink_Cancel s := mkSink (bs_data s) (bs_closed s) true
|}.

#[export] Instance buffer_sink_laws : SinkLaws buffer_sink.
Proof. exists bs_data; [intros p s s' [= <-]|intros s s' [= <-]]; reflexivity. Defined.

Section witnesses.
#[local] Existing Instance fnv.
#[local] Existing Instance plain_runtime.
#[local] Existing Instance plain_proto.
#[local] Existing Instance plain_proto_laws.

(** another choice of levels and of the order of maps *)
Definition other_runtime : Runtime :=
  {| go_range m := rev (map_to_list m);
     go_range_perm m := symmetry (Permutation_rev (map_to_list m));
     go_coins _ := [true; false; true; true; false] |}.

Definition marshal (c : Command) : bytes :=
  match Command_Marshal c with inr d => d | inl _ => [] end.

(** a log with two writes, a delete, an unknown operation and garbage *)
Definition log1 : list bytes :=
  [marshal (mkCommand Command_PUT [x61] (Some [x09])); [x07; x07];
   marshal (mkCommand Command_DELETE [x62] None); marshal (mkCommand 99 [x63] None);
   marshal (mkCommand Command_PUT [x65] (Some [x05]))].

Lemma log1_ok : log_ok log1.
Proof.
  unfold log_ok, log1. repeat apply Forall_cons_2; [..|constructor];
    intros o E; vm_compute in E; first [discriminate|injection E as <-; done].
Qed.

Lemma fsm_refines_log_witness :
  exists db w1 db' w2,
    Open used_disk = (inr db, w1) /\ apply_log log1 db w1 = ((entry_error <$> log1, db'), w2) /\
    forall k, clean_lookup [(5, table1)] k ->
      StrataGo_Get w2 db' k =
        Some (foldl (op_answer k) (initial_answer old_log [(5, table1)] k) (omap entry_effect log1)).
Proof.
  apply (fsm_refines_log used_disk old_log old_tail [(5, table1)] log1 used_disk_ok log1_ok).
  vm_compute. reflexivity.
Defined.

Lemma replicas_agree_witness :
  exists db1 u1 db2 w1,
    Open (H0 := plain_runtime) used_disk = (inr db1, u1) /\
    Open (H0 := other_runtime) used_disk = (inr db2, w1) /\
    let '((rs1, db1'), u2) := apply_log log1 db1 u1 in
    let '((rs2, db2'), w2) := apply_log log1 db2 w1 in
    rs1 = rs2 /\
    forall k, clean_lookup [(5, table1)] k -> clean_lookup [(5, table1)] k ->
      StrataGo_Get u2 db1' k = StrataGo_Get w2 db2' k /\ is_Some (StrataGo_Get u2 db1' k).
Proof.
  apply (replicas_agree plain_runtime other_runtime used_disk used_disk old_log old_log
    old_tail old_tail [(5, table1)] [(5, table1)] log1 used_disk_ok used_disk_ok
    (fun _ => eq_refl) log1_ok); vm_compute; reflexivity.
Defined.

Definition ops2 : list op := [OpPut [x78] (Some [x01])].

Lemma node2_ok db w : session ops2 empty_disk = (inr db, w) -> node_ok db w [].
Proof.
  intros E. split.
  - exists empty_disk, [], [], ops2. split; [exact empty_disk_ok|].
    split; [repeat constructor|]. split; [reflexivity|exact E].
  - vm_compute in E. injection E as <- <-. split; vm_compute; reflexivity.
  - vm_compute in E. injection E as <- <-. split; [vm_compute; reflexivity|].
    split; [vm_compute; reflexivity|]. split; [vm_compute; split; [discriminate|reflexivity]|].
    constructor.
Qed.

Lemma fsm_restore_truncated_witness :
  exists db w b d, session ops2 empty_disk = (inr db, w) /\
  snapshot_bytes [([x61], Some [x01])] = inr b /\
  KVEntry_Marshal (mkKVEntry [x62] (Some [x02])) = inr d /\
  exists e db' w', StrataFSM_Restore db (mkStream (b ++ take 7 (frame d)) None) w = ((Some e, db'), w') /\
    forall k, StrataGo_Get w' db' k =
      Some (foldl (op_answer k) None (restored_ops [([x61], Some [x01])])).
Proof.
  destruct (session_ok empty_disk [] [] [] ops2 empty_disk_ok ltac:(repeat constructor)
    ltac:(reflexivity)) as (db & w & A & E & _).
  destruct (snapshot_bytes [([x61], Some [x01])]) as [|b] eqn:Eb; [vm_compute in Eb; discriminate|].
  destruct (KVEntry_Marshal (mkKVEntry [x62] (Some [x02]))) as [|d] eqn:Ed;
    [vm_compute in Ed; discriminate|].
  exists db, w, b, d. split; [exact E|]. split; [reflexivity|]. split; [reflexivity|].
  vm_compute in Ed. injection Ed as <-.
  eapply (fsm_restore_truncated db w [] [([x61], Some [x01])] b _ _ _ (node2_ok db w E) Eb);
    [repeat constructor|reflexivity|symmetry; apply take_drop|discriminate|discriminate|reflexivity].
Defined.

(** the state of the first node: that of [schedule_scan] *)
Definition snap1 : strataSnapshot :=
  mkStrataSnapshot (list_to_map [([x64], [x04]); ([x62], [x62])]).

Lemma snapshot1_fits : snapshot_fits snap1.
Proof.
  split; [|reflexivity]. apply map_Forall_lookup. unfold snap1. cbn [snap_state list_to_map foldr fst snd].
  repeat (apply map_Forall_insert_2; [done|]). apply map_Forall_empty.
Qed.

(** the sink after the state has been persisted *)
Definition sink1 : buffer_sink := (strataSnapshot_Persist snap1 (mkSink [] false false)).2.

Lemma fsm_snapshot_restore_witness :
  exists dbA wA wA' dbB wB,
    running (mkCsys (mkSys wA dbA Idle) CIdle) /\ length (db_sstReaders dbA) = 2%nat /\
    running (mkCsys (mkSys wB dbB Idle) CIdle) /\ length (db_sstReaders dbB) = 2%nat /\
    StrataFSM_Snapshot dbA wA = (inr snap1, wA') /\
    exists dbB' wB',
      StrataFSM_Restore dbB (mkStream (sink_data sink1) None) wB = ((None, dbB'), wB') /\
      forall k, lookup_inside wA dbA k ->
        exists a, StrataGo_Get wA dbA k = Some a /\ StrataGo_Get wB' dbB' k = Some (a ≫= nonempty).
Proof.
  assert ((fun x => (length (db_sstReaders x.2), bool_decide (Forall (named x.1) (db_sstReaders x.2)),
    (StrataFSM_Snapshot x.2 x.1).1)) <$> idle_run empty_disk schedule_scan =
    Some (2%nat, true, inr snap1)) as Ha by vm_equal.
  assert ((fun x => (length (db_sstReaders x.2), bool_decide (flushable x.1 x.2))) <$>
    idle_run empty_disk schedule4 = Some (2%nat, true)) as Hb by vm_equal.
  destruct (idle_run empty_disk schedule_scan) as [[wA dbA]|] eqn:Ea; [|discriminate Ha].
  destruct (idle_run empty_disk schedule4) as [[wB dbB]|] eqn:Eb; [|discriminate Hb].
  injection Ha as HnA Hnm Hsn. injection Hb as HnB Hfl.
  apply bool_decide_eq_true in Hnm, Hfl.
  pose proof (idle_run_running _ _ _ _ _ _ _ empty_disk_ok Ea) as HrA.
  pose proof (idle_run_running _ _ _ _ _ _ _ empty_disk_ok Eb) as HrB.
  destruct (StrataFSM_Snapshot dbA wA) as [r wA'] eqn:Es. cbn [fst] in Hsn. subst r.
  exists dbA, wA, wA', dbB, wB. split; [exact HrA|]. split; [exact HnA|]. split; [exact HrB|].
  split; [exact HnB|]. split; [exact Es|].
  apply (fsm_snapshot_restore (mkCsys (mkSys wA dbA Idle) CIdle) dbB wA' wB snap1 (mkSink [] false false) sink1
    HrA Hnm HrB Hfl Es snapshot1_fits); vm_compute; reflexivity.
Defined.
End witnesses.
