(* ===== verification/Halt.v ===== *)
(** * Stopping inside [Restore]

    [Restore] flushes and closes the engine, removes its files, starts it again
    and puts the entries of the snapshot.  [Interrupted] covers a crash during the
    flush; here the process stops at a system call of the rest. *)
From stdpp Require Import base gmap sets list strings numbers sorting.
From Stdlib Require Import ZArith Lia Strings.Byte.
From S2P Require Import Prelude SkipList Disk Wal Bloom GoFmt Sst Reader Engine Recovery Flush.
From S2P Require Import GoHeap Merge Compaction Provenance Concurrent Durable Interrupted.
From S2P Require Import Survival Lifecycle Quiet Pb Fsm.
Open Scope Z_scope.

Section halt.
Context `{Murmur3} `{Runtime} `{ProtoLaws}.

(** ** The rest of [Restore] *)

(** [Restore], once the flush of its [Close] is done *)
Definition after_flush (rc : stream) (db : StrataGo) : IO (err * StrataGo) :=
  match close_chan (db_flushChan db) with
  | None => ret (Some (ErrWrap "failed to purge engine before restore" Panic), db)
  | Some c =>
      _ ← WAL_Close (db_wal db);
      _ ← close_readers (db_sstReaders db);
      '(r, db') ← purge_reset (set_chan c db);
      match r with
      | Some e => ret (Some (ErrWrap "failed to purge engine before restore" e), db')
      | None => restore_loop (restore_fuel rc) rc 0 db'
      end
  end.

(** ** Removing the files *)

Lemma survivors_subseteq n dir : survivors n dir ⊆ dir.
Proof.
  unfold survivors. apply map_subseteq_spec. intros s i Hs.
  apply elem_of_list_to_map_2, list_elem_of_omap in Hs as ([j [s' i']] & Hin & E). cbn in E.
  destruct (Nat.testbit n j); [done|]. injection E as -> ->.
  apply list_elem_of_lookup in Hin as [m Hm]. rewrite list_lookup_imap in Hm.
  destruct (map_to_list dir !! m) as [x|] eqn:Ex; [|done]. injection Hm as -> ->.
  apply elem_of_map_to_list. by eapply list_elem_of_lookup_2.
Qed.

(** A directory that lost some of its files is still at rest. *)
Lemma cinv_lost P exact s f log A I Ts w' :
  cinv P exact s f log A I Ts -> wf_world w' -> w_data w' = w_data (s_world (c_sys s)) ->
  w_dir w' ⊆ w_dir (s_world (c_sys s)) -> at_rest P (crash w').
Proof.
  intros [Hl _ _ Hq _ _ Hsr _ _] Hw Ed Hsub. destruct s as [[w db pc] c]. cbn [c_sys s_world s_db] in *.
  pose proof (live_wal _ _ _ _ _ _ Hl) as (_ & Hseq & Hlok & i & Hdir & _ & d & Hdata & Hlg).
  assert (retains w w' tracked) as Hret.
  { intros s j _ Hj. rewrite Ed. split; [by eapply lookup_weaken|done]. }
  destruct (sourced_retains P w w' log log I Ts Hsr) as [Hlog _ _ Hfl Hdisk]; [apply Hsr|exact Hret|].
  assert (exists log', log_file_ok w' log' [] /\ Forall entry_ok log' /\ Forall (good P) log')
    as (log' & Hlf & Hok & Hg).
  { unfold log_file_ok. destruct (w_dir w' !! walName) as [j|] eqn:Ej; [|by exists []].
    exists log. split; [|done]. exists d, (wal_sequenceNumber (db_wal db)). rewrite app_nil_r, Ed.
    pose proof (lookup_weaken _ _ _ _ Ej Hsub) as Ej'. split; [congruence|done]. }
  apply (stopped_at_rest P w' log' []); try done; [|apply torn_stops, torn_nil].
  intros s1 s2 j H1' H2'. eapply (live_inj _ _ _ _ _ _ Hl s1 s2 j); by eapply lookup_weaken.
Qed.

Lemma wf_lost dir w : wf_world w -> dir ⊆ w_dir w -> wf_world (set_dir dir w).
Proof.
  intros [H1' H2' H3' H4'] Hsub. split; cbn; try done. intros s i Hs. apply (H3' s). by eapply lookup_weaken.
Qed.

(** what is left of the files when it fails *)
Definition lost (w0 w : World) : Prop :=
  wf_world w /\ w_data w = w_data w0 /\ w_dir w ⊆ w_dir w0.

(** The directory has been emptied and the engine started again, or something failed
    on the way. *)
Lemma purge_reset_died db w r db' w' :
  wf_world w -> purge_reset db w = ((r, db'), w') ->
  match r with
  | Some _ => lost w w'
  | None => exists coins f, sunny w' = purged (sunny w) /\ db' = restarted coins f db /\
      f_fd f = S (w_next w)
  end.
Proof.
  intros Hw. unfold purge_reset, and_then, mbind, IO_bind, os_RemoveAll, os_MkdirAll.
  destruct (outcome_cases w) as ([|n] & fs & ->).
  2: { intros [= <- _ <-]. split; [|split; [done|apply survivors_subseteq]].
       apply wf_lost; [by apply faults_wf|apply survivors_subseteq]. }
  set (w1 := set_dir ∅ (set_faults fs w)).
  assert (forall fs', lost w (set_faults fs' w1)) as Hl.
  { intros fs'. split; [|split; [done|apply map_empty_subseteq]].
    apply faults_wf, wf_lost; [by apply faults_wf|apply map_empty_subseteq]. }
  destruct (outcome_cases w1) as ([|n] & fs1 & ->); [|by intros [= <- _ <-]].
  unfold gets. set (w2 := set_faults fs1 w1).
  pose proof (NewWAL_steady walName w2) as Hst.
  destruct (restart_purged (sunny w) eq_refl) as (f & En & _ & Hfd).
  change (set_dir ∅ (sunny w)) with (sunny w2) in En. rewrite En in Hst. clear En.
  destruct (NewWAL walName w2) as [[e|wl] w3] eqn:E3; cbn [fst snd] in Hst.
  - intros [= <- _ <-]. revert E3. unfold NewWAL, os_OpenAppend, mbind, IO_bind.
    destruct (outcome_cases w2) as ([|n] & fs2 & ->); [|intros [= _ <-]; apply (Hl fs2)].
    unfold gets. destruct (w_dir _ !! walName); unfold new_inode, new_handle, ret; discriminate.
  - intros [= <- <- <-]. pose proof (Hst Logic.I) as E. pose proof (f_equal snd E) as Ew.
    apply (f_equal fst) in E. cbn [fst snd] in E, Ew. injection E as <-. by eexists _, f.
Qed.

(** ** Putting the entries of the snapshot *)

Lemma Put_steady db k v : steady (fun r => r.1 = None) (StrataGo_Put db k v).
Proof.
  unfold StrataGo_Put. destruct (db_closed db); [by intros w|].
  apply (steady_bind (fun r => r.1 = None)); [apply WriteEntry_steady|by intros [[e|] wl] w|].
  intros [[e|] wl]; [done|]. intros _. apply steady_ret.
Qed.

Context (P : bytes -> option bytes -> Prop) (exact : Prop).

Lemma restore_died es : forall b rc pre fuel db w f log A Ts r w',
  snapshot_bytes es = inr b -> st_data rc = pre ++ b -> st_err rc = None -> (length es < fuel)%nat ->
  cinv P exact (mkCsys (mkSys (sunny w) db Idle) CIdle) f log A None Ts ->
  w_dir w !! flushingName = None -> Forall op_ok (restored_ops es) ->
  Forall (good P) (op_entry <$> restored_ops es) ->
  wal_sequenceNumber (db_wal db) + len es < 2 ^ 64 ->
  restore_loop fuel rc (len pre) db w = (r, w') -> at_rest P (crash w').
Proof.
  induction es as [|[k v] es IH]; intros b rc pre fuel db w f log A Ts r w' Eb E Ee Hfu Hi Hfl Hok Hg Hq.
  - destruct fuel as [|fuel]; [cbn in Hfu; lia|]. injection Eb as <-. rewrite app_nil_r in E.
    rewrite (restore_loop_end _ _ _ _ _ E Ee). intros [= _ <-]. exact (cinv_at_rest _ _ _ _ _ _ _ _ Hi).
  - apply snapshot_bytes_cons in Eb as (d & b' & Em & Eb & ->).
    destruct fuel as [|fuel]; [cbn in Hfu; lia|]. cbn [length] in Hfu. rewrite len_cons in Hq.
    pose proof (len_nonneg es). unfold restored_ops in Hok, Hg. rewrite !fmap_cons in Hg. rewrite fmap_cons in Hok.
    apply Forall_cons in Hok as [Hok Hoks]. apply Forall_cons in Hg as [Hg Hgs].
    rewrite (restore_loop_put _ _ _ _ _ _ _ _ _ Em E). set (o := OpPut k (wire_bytes v)) in *.
    assert (set_faults (w_faults w) (sunny w) = w) as Ew by by destruct w.
    destruct (StrataGo_Put db k (wire_bytes v) w) as [[e db1] w1] eqn:Ep.
    destruct e as [e|].
    + intros [= _ <-]. rewrite <- Ew in Ep.
      by apply (dies_op_left P exact _ _ _ _ _ _ _ _ _ o _ _ _ _ Hi Hok Hg ltac:(lia) (or_introl Hfl) Ep).
    + pose proof (Put_steady db k (wire_bytes v) w) as Hst. rewrite Ep in Hst. cbn [fst snd] in Hst.
      specialize (Hst eq_refl).
      destruct (cinv_op P exact _ _ _ _ _ _ _ _ _ o None db1 (sunny w1) Hi Hok ltac:(intros _; by destruct v as [[|]|])
        Hg ltac:(lia) Hst) as [_ Hi1].
      pose proof (run_op_seq o _ _ _ _ _ (ci_open _ _ _ _ _ _ _ _ Hi) Hst) as Eq. cbn [c_sys s_db] in Eq.
      pose proof (engine_seq _ _ _ _ _ _ (lv_engine _ _ _ _ _ _ (ci_live _ _ _ _ _ _ _ _ Hi))) as Hs0.
      cbn in Hs0. unfold u64 in Eq. rewrite Z.mod_small in Eq by lia.
      rewrite <- len_app. eapply (IH b' rc (pre ++ frame d) fuel db1 w1);
        [exact Eb|by rewrite E, <- app_assoc|exact Ee|lia|exact Hi1| |exact Hoks|exact Hgs|lia].
      destruct (live_op _ _ _ _ _ _ o None db1 (sunny w1) (ci_live _ _ _ _ _ _ _ _ Hi) (ci_open _ _ _ _ _ _ _ _ Hi)
        eq_refl Hok ltac:(cbn; lia) Hst) as (_ & _ & _ & _ & _ & Ed & _).
      cbn in Ed. by rewrite Ed.
Qed.

(** ** The whole rest *)

Lemma close_readers_same w0 rs : keeps (same_disk w0) (close_readers rs).
Proof.
  induction rs as [|r rs IH]; cbn [close_readers]; [apply keeps_ret|].
  apply keeps_bind; [apply Close_same|done].
Qed.

(** a purged engine has nothing that was not written *)
Lemma restarted_cinv coins g db w :
  wf_world w -> w_faults w = [] -> f_fd g = S (w_next w) ->
  cinv P exact (mkCsys (mkSys (purged w) (restarted coins g db) Idle) CIdle) (answer [] None []) [] [] None [].
Proof.
  intros Hw Hf Hg. pose proof (restarted_ok coins g db w Hw Hg) as He. pose proof (purged_dir w) as [Hfl Hdir].
  apply (engine_cinv P exact _ _ [] [] []); try done.
  by apply (engine_sourced P _ (restarted coins g db) [] []).
Qed.

(** Wherever it stops, the directory is at rest. *)
Lemma after_flush_died w db c f log A I Ts es b fs r w' :
  cinv P exact (mkCsys (mkSys w db Idle) c) f log A I Ts ->
  snapshot_bytes es = inr b -> Forall op_ok (restored_ops es) ->
  Forall (good P) (op_entry <$> restored_ops es) -> len es < 2 ^ 64 ->
  after_flush (mkStream b None) (set_closed true db) (set_faults fs w) = (r, w') -> at_rest P (crash w').
Proof.
  intros Hi Eb Hok Hg Hlen. pose proof (cinv_at_rest _ _ _ _ _ _ _ _ Hi) as Hrest. cbn [c_sys s_world] in Hrest.
  pose proof (live_wf _ _ _ _ _ _ (ci_live _ _ _ _ _ _ _ _ Hi)) as Hw. cbn [c_sys s_world] in Hw.
  assert (same_disk w (set_faults fs w)) as Hs by by split; [|split; [|apply faults_wf]].
  unfold after_flush, mbind, IO_bind, WAL_Close.
  destruct (close_chan _) as [ch|]; [|intros [= _ <-]; by apply (at_rest_same P w)].
  pose proof (Close_same w (wal_file (db_wal (set_closed true db))) _ Hs) as Hs1.
  destruct (file_Close _ _) as [x1 w1]. cbn [snd] in Hs1.
  pose proof (close_readers_same w (db_sstReaders (set_closed true db)) _ Hs1) as Hs2.
  destruct (close_readers _ w1) as [x2 w2]. cbn [snd] in Hs2. pose proof (proj2 (proj2 Hs2)) as Hw2.
  destruct (purge_reset _ w2) as [[e db3] w3] eqn:Ep. pose proof (purge_reset_died _ _ _ _ _ Hw2 Ep) as Hp.
  destruct e as [e|].
  - intros [= _ <-]. destruct Hp as (Hw3 & Ea & Hsub). destruct Hs2 as (Ed2 & Ea2 & _).
    apply (cinv_lost _ _ _ _ _ _ _ _ _ Hi Hw3); cbn [c_sys s_world]; [congruence|by rewrite <- Ed2].
  - destruct Hp as (coins & g & Ew & -> & Hfd).
    pose proof (restarted_cinv coins g (set_chan ch (set_closed true db)) (sunny w2) (faults_wf [] _ Hw2) eq_refl Hfd) as Hc.
    rewrite <- Ew in Hc. pose proof (purged_dir (sunny w2)) as [Hfl _]. rewrite <- Ew in Hfl.
    eapply (restore_died es b (mkStream b None) []);
      [exact Eb|done|done| |exact Hc|exact Hfl|exact Hok|exact Hg|cbn; lia].
    unfold restore_fuel. cbn [st_data]. pose proof (snapshot_bytes_length es b Eb). lia.
Qed.

(** The process ends at a system call of [Restore] after its flush. *)
Definition dies_restoring (b : bytes) (db : StrataGo) (w w' : World) : Prop :=
  flushable w db /\ exists db1 w1 fs r w2,
    StrataGo_Flush (set_closed true db) w = ((None, db1), w1) /\
    after_flush (mkStream b None) db1 (set_faults fs w1) = (r, w2) /\ w' = crash w2.

Lemma dies_restoring_at_rest w db c f log A I Ts es b w' :
  cinv P exact (mkCsys (mkSys w db Idle) c) f log A I Ts ->
  snapshot_bytes es = inr b -> Forall op_ok (restored_ops es) ->
  Forall (good P) (op_entry <$> restored_ops es) -> len es < 2 ^ 64 ->
  dies_restoring b db w w' -> at_rest P w'.
Proof.
  intros Hi Eb Hok Hg Hlen (Hfl & db1 & w1 & fs & r & w2 & Ef & Ea & ->).
  destruct (Flush_idle P exact w db c f log A I Ts Hi Hfl) as (db2 & w3 & ? & ? & ? & ? & E & Hi').
  rewrite Flush_closed, E in Ef. injection Ef as <- <-. by eapply after_flush_died.
Qed.

(** an executable version *)
Definition die_restoring (fs : list outcome) (b : bytes) (db : StrataGo) (w : World) : option World :=
  guard (flushable w db);;
  match StrataGo_Flush (set_closed true db) w with
  | ((None, db1), w1) => Some (crash (after_flush (mkStream b None) db1 (set_faults fs w1)).2)
  | _ => None
  end.

Lemma die_restoring_dies fs b db w w' : die_restoring fs b db w = Some w' -> dies_restoring b db w w'.
Proof.
  unfold die_restoring. case_guard as Hfl; [|done]. cbn.
  destruct (StrataGo_Flush _ w) as [[[e|] db1] w1] eqn:E; [done|]. intros [= <-]. split; [done|].
  destruct (after_flush _ db1 _) as [r w2] eqn:Ea. by exists db1, w1, fs, r, w2.
Qed.
End halt.
