(* ===== verification/Cluster.v ===== *)
(** * A cluster of replicas

    Raft is third-party code.  What the program relies on is its interface: one
    committed log; [Apply] in log order on every running node; [Snapshot] between
    two [Apply]s; [Restore] on a start with a stored snapshot, or when a snapshot
    arrives from another node; a start without a snapshot applies the log from its
    beginning.  Here any number of nodes take their steps in any order over one
    log: operations, flushes and compactions as in [Concurrent], crashes at any
    system call of these, of a start and of a restore ([Interrupted], [Survival],
    [Halt]), stops and snapshots. *)
From stdpp Require Import base gmap sets list strings numbers sorting relations.
From Stdlib Require Import ZArith Lia Strings.Byte.
From S2P Require Import Prelude SkipList Disk Wal Bloom GoFmt Sst Reader Engine Recovery Flush.
From S2P Require Import GoHeap Merge Compaction Provenance Concurrent Durable Interrupted.
From S2P Require Import Survival Restart Lifecycle Quiet Pb Fsm Halt.
Open Scope Z_scope.

(** ** The committed log *)

Section log.
Context `{Proto}.

(** the operations of the first [n] entries *)
Definition log_ops (log : list bytes) (n : nat) : list op := omap entry_effect (take n log).

(** what a map holds after the first [n] entries *)
Definition state_at (log : list bytes) (n : nat) (k : bytes) : option bytes :=
  foldl (op_answer k) None (log_ops log n).

(** one of the first [n] entries writes or deletes [k] *)
Definition touched (log : list bytes) (n : nat) (k : bytes) : Prop :=
  exists o, o ∈ log_ops log n /\ (op_entry o).1 = k.

(** a client has seen [a] for [k] at some point of the log *)
Definition seen (log : list bytes) (k : bytes) (a : option bytes) : Prop :=
  exists n, (n <= length log)%nat /\ a = visible (state_at log n k).

(** [f] is the state after [n] entries, up to keys that those do not touch *)
Definition agrees (log : list bytes) (n : nat) (f : bytes -> option bytes) : Prop :=
  forall k, visible (f k) = visible (state_at log n k) \/ ~ touched log n k.

(** what servers propose: [entry_proposed] below *)
Definition committable (d : bytes) : Prop :=
  forall o, entry_effect d = Some o -> op_ok o /\ op_nonempty o.

Lemma log_ops_app log d n : (n <= length log)%nat -> log_ops (log ++ [d]) n = log_ops log n.
Proof. intros Hn. unfold log_ops. by rewrite take_app_le. Qed.

Lemma log_ops_S log n d :
  log !! n = Some d -> log_ops log (S n) = log_ops log n ++ default [] ((fun o => [o]) <$> entry_effect d).
Proof.
  intros Hd. unfold log_ops. rewrite (take_S_r _ _ _ Hd), omap_app. f_equal.
  cbn. by destruct (entry_effect d).
Qed.

Lemma log_ops_all log n : (length log <= n)%nat -> log_ops log n = omap entry_effect log.
Proof. intros Hn. unfold log_ops. by rewrite take_ge. Qed.

Lemma log_ops_elem log n o : o ∈ log_ops log n -> exists d, d ∈ log /\ entry_effect d = Some o.
Proof.
  unfold log_ops. intros (d & Hd & E)%list_elem_of_omap. exists d. split; [|done].
  by apply (subseteq_take n log).
Qed.

Lemma seen_app log d k a : seen log k a -> seen (log ++ [d]) k a.
Proof.
  intros (n & Hn & ->). exists n. rewrite length_app. split; [lia|].
  unfold state_at. by rewrite log_ops_app.
Qed.

Lemma seen_None log k : seen log k None.
Proof. exists 0%nat. split; [lia|done]. Qed.

Lemma agrees_app log d n f : (n <= length log)%nat -> agrees log n f -> agrees (log ++ [d]) n f.
Proof.
  intros Hn Hf k. unfold state_at, touched. rewrite log_ops_app by done. apply Hf.
Qed.

Lemma agrees_0 log f : agrees log 0 f.
Proof. intros k. right. by intros (o & Ho%elem_of_nil & _). Qed.

(** a key that is never touched is never there *)
Lemma untouched_None log n m k : (m <= n)%nat -> ~ touched log n k -> state_at log m k = None.
Proof.
  intros Hm Hn. unfold state_at. apply foldl_other. intros (o & Hk & Ho)%list_elem_of_fmap.
  apply Hn. exists o. split; [|done]. unfold log_ops in *. apply list_elem_of_omap in Ho as (d & Hd & E).
  apply list_elem_of_omap. exists d. split; [|done]. replace m with (m `min` n)%nat in Hd by lia.
  rewrite <- take_take in Hd. by apply (subseteq_take m (take n log)).
Qed.

(** A state that agrees with the whole log, and holds nothing else, is the log's. *)
Lemma agrees_all log f k :
  agrees log (length log) f -> seen log k (visible (f k)) ->
  visible (f k) = visible (state_at log (length log) k).
Proof.
  intros Hf (n & Hn & E). destruct (Hf k) as [|Hk]; [done|].
  rewrite E, !(untouched_None log (length log)); done.
Qed.

(** One more entry. *)
Lemma state_at_S log n d k :
  log !! n = Some d ->
  state_at log (S n) k =
  match entry_effect d with Some o => op_answer k (state_at log n k) o | None => state_at log n k end.
Proof.
  intros Hd. unfold state_at. rewrite (log_ops_S _ _ _ Hd), foldl_app. by destruct (entry_effect d).
Qed.

Lemma agrees_S log n d f :
  log !! n = Some d -> agrees log n f ->
  agrees log (S n) (match entry_effect d with Some o => fun k => op_answer k (f k) o | None => f end).
Proof.
  intros Hd Hf k. rewrite (state_at_S _ _ _ k Hd). unfold touched. rewrite (log_ops_S _ _ _ Hd).
  destruct (entry_effect d) as [o|]; cbn [default fmap option_fmap option_map].
  - unfold op_answer. case_decide as Ek; [by left|]. destruct (Hf k) as [E|Hn]; [by left|right].
    intros (o' & [Ho | ->%list_elem_of_singleton]%elem_of_app & E); [|done]. apply Hn. by exists o'.
  - rewrite app_nil_r. apply Hf.
Qed.

Lemma written_seen log n d o :
  log !! n = Some d -> entry_effect d = Some o -> good (seen log) (op_entry o).
Proof.
  intros Hd Ho. exists (S n). split; [by apply lookup_lt_Some in Hd|].
  rewrite (state_at_S _ _ _ _ Hd), Ho. unfold op_answer. by rewrite decide_True.
Qed.

(** Every value of a state was written. *)
Lemma state_at_written log n k v :
  state_at log n k = Some v -> exists o, o ∈ log_ops log n /\ op_entry o = (k, Some v).
Proof.
  unfold state_at. induction (log_ops log n) as [|o l IH] using rev_ind; [done|].
  rewrite foldl_snoc. unfold op_answer at 1. case_decide as Ek.
  - intros E. exists o. split; [apply elem_of_app; right; by left|].
    rewrite (surjective_pairing (op_entry o)). by f_equal.
  - intros E. destruct (IH E) as (o' & Ho' & ?). exists o'. split; [apply elem_of_app; by left|done].
Qed.
End log.

(** What servers propose can be committed. *)
Lemma entry_proposed `{ProtoLaws} (c : Command) (d : bytes) :
  Command_Marshal c = inr d -> entry_ok (cmd_Key c, cmd_Value c) -> committable d.
Proof.
  intros E%Command_roundtrip Hok o. unfold entry_effect. rewrite E. cbn [wire_Command cmd_Op cmd_Key cmd_Value].
  assert (slice_bytes (wire_bytes (cmd_Value c)) = slice_bytes (cmd_Value c) /\
    wire_bytes (cmd_Value c) <> Some []) as [H1 H2] by by destruct (cmd_Value c) as [[|]|].
  unfold entry_ok in Hok. cbn [fst snd] in Hok.
  destruct (cmd_Op c =? Command_PUT); [intros [= <-]|destruct (cmd_Op c =? Command_DELETE); [|done];
    intros [= <-]]; (split; [|done]); unfold op_ok, entry_ok; cbn [op_entry fst snd].
  - by rewrite H1.
  - change (len (slice_bytes None)) with 0. pose proof (len_nonneg (slice_bytes (cmd_Value c))). lia.
Qed.

(** ** One replica *)

(** a node's process: running, with its workers at some point, or ended *)
Inductive process := Up (s : csys) | Down (w : World).

Record replica := mkReplica {
  rp_process : process;
  rp_applied : nat;                                (* entries of the log it has applied *)
  rp_pending : option (nat * strataSnapshot);      (* taken by [Snapshot], not yet persisted *)
  rp_stored : option (nat * bytes)                 (* the snapshot store, which retains one *)
}.

Definition idle (w : World) (db : StrataGo) : csys := mkCsys (mkSys w db Idle) CIdle.

Section replica.
Context `{Murmur3} `{Runtime} `{ProtoLaws} {S : Type} `{SinkLaws S}.

(** a running replica restores the snapshot [b] of the first [n] entries *)
Definition restored (r : replica) (n : nat) (b : bytes) (e : err) (w : World) (db : StrataGo) : replica :=
  mkReplica (Up (idle w db)) (match e with None => n | Some _ => rp_applied r end)
    (rp_pending r) (Some (n, b)).

(** The steps of a node, when the log is [log] and the snapshots that nodes have
    stored are [available].  The conditions on clocks and sizes are those of
    [Flush] and [Concurrent].  Left out are the steps after which the code loses
    data:
    - a snapshot is taken while every open table is in the directory: a compaction
      removes the name of its table, and [ScanAll] reopens tables by their names
      ([snapshot_misses_compacted_data]);
    - a compaction selects neighbours: a table without a name is skipped, and the
      selection may reach across it ([skipped_table_overtakes]);
    - while a log is set aside, no write to the log is cut ([dies_op];
      [torn_log_loses_flushed_data]), and a start that stops has had no failing call
      before ([dies_opening]; [failed_recovery_drops_log]).
    [Restore] and [Close] begin while the workers are idle. *)
Inductive rstep (log : list bytes) (available : nat -> bytes -> Prop) : replica -> replica -> Prop :=
| r_work s s' n p t :
    cstep s None s' -> (c_pc s = CIdle -> orderly s') ->
    rstep log available (mkReplica (Up s) n p t) (mkReplica (Up s') n p t)
| r_apply w db pc c n p t d e db' w' :
    log !! n = Some d -> wal_sequenceNumber (db_wal db) + 1 < 2 ^ 64 ->
    StrataFSM_Apply db d w = ((e, db'), w') ->
    rstep log available (mkReplica (Up (mkCsys (mkSys w db pc) c)) n p t)
                        (mkReplica (Up (mkCsys (mkSys w' db' pc) c)) (Datatypes.S n) p t)
| r_snapshot w db pc c n p t res w' :
    Forall (named w) (db_sstReaders db) -> StrataFSM_Snapshot db w = (res, w') ->
    rstep log available (mkReplica (Up (mkCsys (mkSys w db pc) c)) n p t)
      (mkReplica (Up (mkCsys (mkSys w' db pc) c)) n
         (match res with inr snap => Some (n, snap) | inl _ => p end) t)
| r_persist s n m snap t (s0 s1 : S) e :
    sink_data s0 = [] -> strataSnapshot_Persist snap s0 = (e, s1) ->
    rstep log available (mkReplica (Up s) n (Some (m, snap)) t)
      (mkReplica (Up s) n None (match e with None => Some (m, sink_data s1) | Some _ => t end))
| r_install w db n p t m b e db' w' :
    available m b -> flushable w db ->
    StrataFSM_Restore db (mkStream b None) w = ((e, db'), w') ->
    rstep log available (mkReplica (Up (idle w db)) n p t)
      (restored (mkReplica (Up (idle w db)) n p t) m b e w' db')
| r_crash s o w' n p t :
    dies s o w' -> (forall x, o = Some x -> log !! n ≫= entry_effect = Some x) ->
    rstep log available (mkReplica (Up s) n p t) (mkReplica (Down w') 0 None t)
| r_stop w db n p t e db' w' :
    flushable w db -> StrataGo_Close db w = ((e, db'), w') ->
    rstep log available (mkReplica (Up (idle w db)) n p t) (mkReplica (Down (crash w')) 0 None t)
| r_wait w n p t now :
    w_now w <= now ->
    rstep log available (mkReplica (Down w) n p t) (mkReplica (Down (set_now now w)) n p t)
| r_start w n p db w' :
    Open w = (inr db, w') ->
    rstep log available (mkReplica (Down w) n p None) (mkReplica (Up (idle w' db)) 0 None None)
| r_start_restore w n p m b db w' e db' w'' :
    Open w = (inr db, w') -> flushable w' db ->
    StrataFSM_Restore db (mkStream b None) w' = ((e, db'), w'') ->
    rstep log available (mkReplica (Down w) n p (Some (m, b)))
      (match e with
       | None => mkReplica (Up (idle w'' db')) m None (Some (m, b))
       | Some _ => mkReplica (Down (crash w'')) 0 None (Some (m, b))
       end)
| r_start_failed w n p t e w' :
    Open w = (inl e, w') ->
    rstep log available (mkReplica (Down w) n p t) (mkReplica (Down (crash w')) 0 None t)
| r_start_died w n p t w' :
    dies_opening w w' ->
    rstep log available (mkReplica (Down w) n p t) (mkReplica (Down w') 0 None t)
| r_started_crash w n p t db w0 s w' :
    Open w = (inr db, w0) -> csteps orderly (idle w0 db) [] s -> dies s None w' ->
    rstep log available (mkReplica (Down w) n p t) (mkReplica (Down w') 0 None t)
| r_install_died w db n p t m b w' :
    available m b -> dies_restoring b db w w' ->
    rstep log available (mkReplica (Up (idle w db)) n p t) (mkReplica (Down w') 0 None t)
| r_restore_died w n p m b db w0 w' :
    Open w = (inr db, w0) -> dies_restoring b db w0 w' ->
    rstep log available (mkReplica (Down w) n p (Some (m, b))) (mkReplica (Down w') 0 None (Some (m, b))).

(** *** The invariant *)

(** a snapshot taken after [n] entries *)
Definition snapshot_ok (log : list bytes) (n : nat) (m : gmap bytes bytes) : Prop :=
  (n <= length log)%nat /\ (forall k, seen log k (m !! k)) /\ agrees log n (fun k => m !! k).

(** its stream *)
Definition stream_ok (log : list bytes) (n : nat) (b : bytes) : Prop :=
  exists m es, snapshot_bytes es = inr b /\ es ≡ₚ map_to_list (Some <$> m) /\ snapshot_ok log n m.

(** a running node holds a state of the log, but for keys it has still to apply *)
Definition process_ok (log : list bytes) (n : nat) (p : process) : Prop :=
  match p with
  | Up s => (n <= length log)%nat /\ exists f wal A I Ts,
      cinv (seen log) False s f wal A I Ts /\ agrees log n f
  | Down w => at_rest (seen log) w
  end.

Record replica_ok (log : list bytes) (r : replica) : Prop := {
  ro_process : process_ok log (rp_applied r) (rp_process r);
  ro_pending : forall n snap, rp_pending r = Some (n, snap) -> snapshot_ok log n (snap_state snap);
  ro_stored : forall n b, rp_stored r = Some (n, b) -> stream_ok log n b
}.

(** the log, as Raft hands it out *)
Definition log_wf (log : list bytes) : Prop := Forall committable log /\ len log < 2 ^ 64.

(** *** Snapshots *)

Lemma snapshot_ok_app log d n m : snapshot_ok log n m -> snapshot_ok (log ++ [d]) n m.
Proof.
  intros (Hn & Hs & Ha). split; [rewrite length_app; lia|]. split; [intros k; by apply seen_app|].
  by apply agrees_app.
Qed.

(** The entries of a snapshot were written by the log. *)
Lemma snapshot_written log n m k v :
  snapshot_ok log n m -> m !! k = Some v -> v <> [] /\ exists o, o ∈ log_ops log (length log) /\ op_entry o = (k, Some v).
Proof.
  intros (_ & Hs & _) Hk. destruct (Hs k) as (i & Hi & E). rewrite Hk in E.
  assert (state_at log i k = Some v /\ v <> []) as [Es Hv].
  { destruct (state_at log i k) as [u|]; [|done]. cbn in E. unfold nonempty in E.
    destruct (Z.eqb_spec (len u) 0); [done|]. injection E as ->. split; [done|]. by intros ->. }
  split; [done|]. destruct (state_at_written _ _ _ _ Es) as (o & Ho & Eo). exists o. split; [|done].
  apply log_ops_elem in Ho as (d & Hd & Ed). rewrite log_ops_all by lia.
  apply list_elem_of_omap. by exists d.
Qed.

Lemma snapshot_size log n m : log_wf log -> snapshot_ok log n m -> Z.of_nat (size m) < 2 ^ 64.
Proof.
  intros [_ Hlen] Hm. unfold len in Hlen.
  assert ((map_to_list m).*1 ⊆+ (fun o => (op_entry o).1) <$> log_ops log (length log)) as Hsub.
  { apply NoDup_submseteq; [apply NoDup_fst_map_to_list|].
    intros k ([k' v] & -> & Hk%elem_of_map_to_list)%list_elem_of_fmap. cbn [fst].
    destruct (snapshot_written _ _ _ _ _ Hm Hk) as (_ & o & Ho & E).
    apply list_elem_of_fmap. exists o. by rewrite E. }
  apply submseteq_length in Hsub. rewrite !length_fmap, length_map_to_list in Hsub.
  assert (length (log_ops log (length log)) <= length log)%nat; [|lia].
  rewrite log_ops_all by lia. apply length_omap_le.
Qed.

Lemma snapshot_ops log n m es :
  log_wf log -> snapshot_ok log n m -> es ≡ₚ map_to_list (Some <$> m) ->
  Forall op_ok (restored_ops es) /\ len es < 2 ^ 64 /\ Forall (good (seen log)) (op_entry <$> restored_ops es).
Proof.
  intros Hlog Hm HP.
  assert (forall k v, (k, v) ∈ es -> exists u, v = Some u /\ u <> [] /\ m !! k = Some u) as Hes.
  { intros k v Hin. rewrite HP in Hin. apply elem_of_map_to_list, lookup_fmap_Some in Hin as (u & <- & Hu).
    exists u. split; [done|]. split; [|done]. by apply (snapshot_written log n m k u). }
  split; [|split].
  - apply Forall_fmap, Forall_forall. intros [k v] Hin. destruct (Hes k v Hin) as (u & -> & Hne & Hu).
    destruct (snapshot_written _ _ _ _ _ Hm Hu) as (_ & o & Ho & E).
    apply log_ops_elem in Ho as (d & Hd & Ed). destruct Hlog as [Hc _]. rewrite Forall_forall in Hc.
    destruct (Hc d Hd o Ed) as [Hok _]. unfold compose, op_ok in *. rewrite E in Hok. cbn.
    by destruct u.
  - unfold len. rewrite HP, length_map_to_list, map_size_fmap. by apply (snapshot_size log n).
  - apply Forall_fmap, Forall_fmap, Forall_forall. intros [k v] Hin.
    destruct (Hes k v Hin) as (u & -> & Hne & Hu). unfold compose, good. cbn.
    destruct Hm as (_ & Hs & _). specialize (Hs k). rewrite Hu in Hs. by destruct u.
Qed.

(** *** The steps *)

(** A compaction that has selected its tables has selected neighbours. *)
Lemma cinv_orderly P exact s f wal A I Ts : cinv P exact s f wal A I Ts -> orderly s.
Proof.
  intros Hi. pose proof (h_comp _ _ _ _ _ (ci_held _ _ _ _ _ _ _ _ Hi)) as Hc. unfold orderly.
  destruct (c_pc s); try done. apply Hc.
Qed.

(** [Restore] of a stored snapshot succeeds. *)
Lemma Restore_idle log exact w db c f wal A I Ts n b :
  log_wf log -> stream_ok log n b ->
  cinv (seen log) exact (mkCsys (mkSys w db Idle) c) f wal A I Ts -> flushable w db ->
  exists db' w', StrataFSM_Restore db (mkStream b None) w = ((None, db'), w') /\
    process_ok log n (Up (idle w' db')).
Proof.
  intros Hlog (m & es & Eb & HP & Hm) Hi Hfl.
  destruct (Purge_idle _ _ _ _ _ _ _ _ _ _ Hi Hfl) as (db1 & w1 & E1 & He1 & Hc1 & Hf1 & Hfl1 & Hd1).
  destruct (snapshot_ops log n m es Hlog Hm HP) as (Hok & Hlen & Hgood).
  destruct (Restore_purged w db db1 w1 es b (mkStream b None) [] E1 He1 Hc1 Hf1 Eb
    (eq_sym (app_nil_r b)) Hok Hlen) as (fuel & db2 & w2 & A2 & -> & He2 & Ha2 & Hc2 & Hf2 & Hd2).
  rewrite restore_loop_end by done. exists db2, w2. split; [done|]. split; [apply Hm|].
  assert (sourced (seen log) w2 (op_entry <$> restored_ops es) None []) as Hsr.
  { apply (engine_sourced _ w2 db2 _ A2); try done; [|by rewrite Hd2].
    intros s Hs. rewrite Hd2. by apply Hd1. }
  pose proof (engine_seq _ _ _ _ _ _ He2) as Hseq. unfold len in Hseq, Hlen.
  unfold restored_ops in Hseq. rewrite !length_fmap in Hseq.
  eexists _, _, A2, None, []. split; [apply engine_cinv; try done; lia|].
  intros k. destruct Hm as (_ & Hs & Ha). cbn [fmap list_fmap]. rewrite Ha2, (restored_state m es k HP); [apply Ha|].
  intros v Hv ->. destruct (Hs k) as (j & _ & E). rewrite Hv in E.
  destruct (state_at log j k) as [u|]; [|done]. cbn in E. unfold nonempty in E.
  destruct (Z.eqb_spec (len u) 0) as [|Hne]; [done|]. injection E as <-. done.
Qed.

(** [Restore] of a stored snapshot may be interrupted. *)
Lemma restoring_at_rest log exact w db c f wal A I Ts n b w' :
  log_wf log -> stream_ok log n b ->
  cinv (seen log) exact (mkCsys (mkSys w db Idle) c) f wal A I Ts ->
  dies_restoring b db w w' -> at_rest (seen log) w'.
Proof.
  intros Hlog (m & es & Eb & HP & Hm) Hi Hdies.
  destruct (snapshot_ops log n m es Hlog Hm HP) as (Hok & Hlen & Hgood).
  by eapply dies_restoring_at_rest.
Qed.

(** [Snapshot] of an engine whose tables are all in the directory. *)
Lemma Snapshot_ok log n w db pc c res w' :
  process_ok log n (Up (mkCsys (mkSys w db pc) c)) -> Forall (named w) (db_sstReaders db) ->
  StrataFSM_Snapshot db w = (res, w') ->
  exists snap, res = inr snap /\ snapshot_ok log n (snap_state snap) /\
    process_ok log n (Up (mkCsys (mkSys w' db pc) c)).
Proof.
  intros (Hn & f & wal & A & I & Ts & Hi & Hf) Hnamed E.
  pose proof (live_engine _ _ _ _ _ _ (ci_live _ _ _ _ _ _ _ _ Hi) Hnamed) as He.
  cbn [c_sys s_world s_db] in He.
  destruct (ScanAll_ok w db wal A I Ts He (ci_faults _ _ _ _ _ _ _ _ Hi) (ci_open _ _ _ _ _ _ _ _ Hi))
    as (m & Es & Hm).
  unfold StrataFSM_Snapshot, and_bind, mbind, IO_bind in E. rewrite Es in E. injection E as <- <-.
  assert (forall k, m !! k = visible (f k)) as Hmf.
  { intros k. rewrite <- (ci_answer _ _ _ _ _ _ _ _ Hi). apply Hm. }
  exists (mkStrataSnapshot m). split; [done|]. split.
  - split; [done|]. split; intros k; cbn [snap_state]; rewrite Hmf.
    + apply (cinv_good _ _ _ _ _ _ _ _ k Hi), seen_None.
    + rewrite visible_idemp. apply Hf.
  - split; [done|]. exists f, wal, A, I, Ts. split; [|done]. apply (cinv_same _ _ w); try done.
    destruct (live_wf _ _ _ _ _ _ (ci_live _ _ _ _ _ _ _ _ Hi)) as [H1' H2' H3' H4'].
    split; cbn; try done; intros j Hj; [apply H1'|apply H2']; cbn; lia.
Qed.

(** [Apply] of the next entry: the response is the same on every node. *)
Lemma Apply_ok log n w db pc c d e db' w' :
  log_wf log -> process_ok log n (Up (mkCsys (mkSys w db pc) c)) -> log !! n = Some d ->
  wal_sequenceNumber (db_wal db) + 1 < 2 ^ 64 -> StrataFSM_Apply db d w = ((e, db'), w') ->
  e = entry_error d /\ process_ok log (Datatypes.S n) (Up (mkCsys (mkSys w' db' pc) c)).
Proof.
  intros [Hlog _] (Hn & f & wal & A & I & Ts & Hi & Hf) Hd Hq. rewrite Apply_effect.
  pose proof (agrees_S _ _ _ _ Hd Hf) as Hf'. pose proof (lookup_lt_Some _ _ _ Hd) as Hlt.
  destruct (entry_effect d) as [o|] eqn:Eo.
  - intros E. rewrite Forall_forall in Hlog.
    destruct (Hlog d (list_elem_of_lookup_2 _ _ _ Hd) o Eo) as [Hok Hne].
    destruct (cinv_op _ _ _ _ _ _ _ _ _ _ _ o e db' w' Hi Hok (fun _ => Hne) (written_seen _ _ _ _ Hd Eo) Hq E)
      as [-> Hi']. rewrite (entry_effect_error d o Eo). split; [done|]. split; [lia|].
    eexists _, _, _, _, _. split; [exact Hi'|done].
  - intros [= <- <- <-]. split; [done|]. split; [lia|]. by exists f, wal, A, I, Ts.
Qed.

Lemma rstep_ok log available r r' :
  log_wf log -> (forall n b, available n b -> stream_ok log n b) -> replica_ok log r ->
  rstep log available r r' -> replica_ok log r'.
Proof.
  intros Hlog Hav [Hp Hpend Hst] Hstep. destruct Hstep as [s s' n p t Hs Hs'|w db pc c n p t d e db' w' Hd Hq E
    |w db pc c n p t res w' Hnamed E|s n m snap t s0 s1 e Hs0 E|w db n p t m b e db' w' Hb Hfl E|s o w' n p t Hdies Ho
    |w db n p t e db' w' Hfl E|w n p t now Hnow|w n p db w' E|w n p m b db w' e db' w'' E Hfl E2|w n p t e w' E|w n p t w' Hdies
    |w n p t db w0 s w' E Hst' Hdies|w db n p t m b w' Hb Hdies|w n p m b db w0 w' E Hdies];
    cbn [rp_process rp_applied rp_pending rp_stored] in *.
  - destruct Hp as (Hn & f & wal & A & I & Ts & Hi & Hf).
    destruct (cstep_cinv _ _ _ _ _ _ _ _ _ _ Hi Hs (cstep_orderly _ _ _ Hs (cinv_orderly _ _ _ _ _ _ _ _ Hi) Hs')
      ltac:(done)) as (_ & wal' & A' & I' & Ts' & Hi').
    split; cbn [rp_process rp_applied rp_pending rp_stored]; try done. split; [done|]. by eexists _, _, _, _, _.
  - destruct (Apply_ok _ _ _ _ _ _ _ _ _ _ Hlog Hp Hd Hq E) as [_ Hp']. by split.
  - destruct (Snapshot_ok _ _ _ _ _ _ _ _ Hp Hnamed E) as (snap & -> & Hsn & Hp').
    split; cbn [rp_process rp_applied rp_pending rp_stored]; try done. by intros ? ? [= <- <-].
  - split; cbn [rp_process rp_applied rp_pending rp_stored]; try done.
    destruct e as [e|]; [done|]. intros ? ? [= <- <-]. unfold strataSnapshot_Persist in E.
    destruct (persist_entries _ s0) as [[e|] s2] eqn:Ep; [done|]. injection E as <-.
    destruct (persist_entries_data _ _ _ Ep) as (b & Eb & Hdata). rewrite Hs0 in Hdata. cbn in Hdata.
    exists (snap_state snap), (go_range (Some <$> snap_state snap)). rewrite Hdata.
    split; [done|]. split; [apply go_range_perm|by apply Hpend].
  - destruct Hp as (Hn & f & wal & A & I & Ts & Hi & Hf).
    destruct (Restore_idle _ _ _ _ _ _ _ _ _ _ _ _ Hlog (Hav _ _ Hb) Hi Hfl) as (db2 & w2 & E2 & Hp').
    rewrite E in E2. injection E2 as -> -> ->.
    split; cbn [restored rp_process rp_applied rp_pending rp_stored]; try done. intros ? ? [= <- <-]. by apply Hav.
  - destruct Hp as (Hn & f & wal & A & I & Ts & Hi & Hf). split; try done.
    eapply dies_at_rest; [exact Hi| |exact Hdies]. intros x Hx. specialize (Ho x Hx).
    destruct (log !! n) as [d|] eqn:Hd; [|done]. by eapply written_seen.
  - destruct Hp as (Hn & f & wal & A & I & Ts & Hi & Hf).
    destruct (Close_idle _ _ _ _ _ _ _ _ _ _ Hi Hfl) as (db2 & w2 & E2 & Hr & _).
    rewrite E in E2. injection E2 as -> -> ->. by split.
  - split; try done. by apply at_rest_tick.
  - destruct (at_rest_cinv _ _ Hp) as (db2 & w2 & f & wal & A & Ts & E2 & Hi).
    rewrite E in E2. injection E2 as -> ->. split; try done. split; [cbn; lia|].
    eexists _, _, _, _, _. split; [exact Hi|apply agrees_0].
  - destruct (at_rest_cinv _ _ Hp) as (db2 & w2 & f & wal & A & Ts & E3 & Hi).
    rewrite E in E3. injection E3 as -> ->.
    destruct (Restore_idle _ _ _ _ _ _ _ _ _ _ _ _ Hlog (Hst _ _ eq_refl) Hi Hfl) as (db3 & w3 & E4 & Hp').
    rewrite E2 in E4. injection E4 as -> -> ->. by split.
  - destruct (at_rest_cinv _ _ Hp) as (db2 & w2 & f & wal & A & Ts & E2 & Hi). congruence.
  - split; try done. by eapply at_rest_opening.
  - destruct (at_rest_cinv _ _ Hp) as (db2 & w2 & f & wal & A & Ts & E2 & Hi).
    rewrite E in E2. injection E2 as -> ->. split; try done.
    destruct (csteps_cinv _ _ _ _ _ _ _ _ _ _ Hst' Hi) as (_ & wal' & A' & I' & Ts' & Hi'); [done|].
    eapply dies_at_rest; [exact Hi'| |exact Hdies]. done.
  - destruct Hp as (Hn & f & wal & A & I & Ts & Hi & Hf). split; try done.
    eapply restoring_at_rest; [done|by apply Hav|exact Hi|exact Hdies].
  - destruct (at_rest_cinv _ _ Hp) as (db2 & w2 & f & wal & A & Ts & E2 & Hi).
    rewrite E in E2. injection E2 as -> ->. split; try done.
    eapply restoring_at_rest; [done|by apply Hst|exact Hi|exact Hdies].
Qed.
End replica.

(** ** The cluster *)

Record cluster := mkCluster { cl_log : list bytes; cl_nodes : gmap string replica }.

(** a node's disk before its first start *)
Definition fresh_disk (w : World) : Prop := w_dir w = ∅ /\ wf_world w /\ w_faults w = [].

Section cluster.
Context `{Murmur3} `{ProtoLaws} {S : Type} `{SinkLaws S} (rt : string -> Runtime).

(** some node has stored the snapshot *)
Definition stored_somewhere (c : cluster) (n : nat) (b : bytes) : Prop :=
  exists i r, cl_nodes c !! i = Some r /\ rp_stored r = Some (n, b).

(** The steps of the cluster.  Each node has its own random levels and orders of
    maps. *)
Inductive gstep : cluster -> cluster -> Prop :=
| g_commit c d :
    committable d -> len (cl_log c) + 1 < 2 ^ 64 ->
    gstep c (mkCluster (cl_log c ++ [d]) (cl_nodes c))
| g_join c i w :
    cl_nodes c !! i = None -> fresh_disk w ->
    gstep c (mkCluster (cl_log c) (<[i := mkReplica (Down w) 0 None None]> (cl_nodes c)))
| g_node c i r r' :
    cl_nodes c !! i = Some r ->
    rstep (H0 := rt i) (cl_log c) (stored_somewhere c) r r' ->
    gstep c (mkCluster (cl_log c) (<[i := r']> (cl_nodes c))).

Definition empty_cluster : cluster := mkCluster [] ∅.

Definition reachable (c : cluster) : Prop := rtc gstep empty_cluster c.

Record cluster_ok (c : cluster) : Prop := {
  co_log : log_wf (cl_log c);
  co_nodes : forall i r, cl_nodes c !! i = Some r -> replica_ok (cl_log c) r
}.

Lemma fresh_at_rest P w : fresh_disk w -> at_rest P w.
Proof.
  intros (Ed & Hw & Hf). exists [], [], None, []. split; [|done]. split; try done.
  - intros s1 s2 i. by rewrite Ed, lookup_empty.
  - by rewrite Ed, lookup_empty.
  - apply torn_stops, torn_nil.
  - apply flushing_none. by rewrite Ed, lookup_empty.
  - constructor.
  - intros s _ [i Hi]. by rewrite Ed, lookup_empty in Hi.
Qed.

Lemma replica_ok_app log d r : replica_ok log r -> replica_ok (log ++ [d]) r.
Proof.
  intros [Hp Hpend Hst]. split.
  - destruct (rp_process r) as [s|w]; cbn in *.
    + destruct Hp as (Hn & f & wal & A & I & Ts & Hi & Hf). rewrite length_app. split; [lia|].
      exists f, wal, A, I, Ts. split; [|by apply agrees_app].
      eapply cinv_weaken; [|exact Hi]. intros k a. apply seen_app.
    + eapply at_rest_weaken; [|exact Hp]. intros k a. apply seen_app.
  - intros n snap E. by apply snapshot_ok_app, Hpend.
  - intros n b E. destruct (Hst n b E) as (m & es & H5' & H6' & Hm). exists m, es.
    split; [done|]. split; [done|by apply snapshot_ok_app].
Qed.

Lemma gstep_ok c c' : cluster_ok c -> gstep c c' -> cluster_ok c'.
Proof.
  intros [Hl Hn] Hst. destruct Hst as [c d Hd Hlen|c i w Hi Hw|c i r r' Hi Hr]; split;
    cbn [cl_log cl_nodes]; try done.
  - destruct Hl as [Hl1 Hl2]. split; [by apply Forall_snoc|]. rewrite len_app, len_cons, len_nil. lia.
  - intros j r Hj. by apply replica_ok_app, (Hn j).
  - intros j r. rewrite lookup_insert_Some. intros [[_ <-]|[_ Hj]]; [|by apply (Hn j)].
    split; try done. by apply fresh_at_rest.
  - intros j r0. rewrite lookup_insert_Some. intros [[_ <-]|[_ Hj]]; [|by apply (Hn j)].
    eapply (rstep_ok (H0 := rt i)); [done| |by apply (Hn i)|exact Hr].
    intros n b (i' & r1 & Hi' & E). by apply (ro_stored _ _ (Hn i' r1 Hi')).
Qed.

Lemma reachable_ok c : reachable c -> cluster_ok c.
Proof.
  intros Hr. unfold reachable in Hr. revert Hr. apply rtc_ind_r.
  - split; [split; [constructor|done]|]. intros i r Hi. cbn [cl_nodes empty_cluster] in Hi. by rewrite lookup_empty in Hi.
  - intros c1 c2 _ Hst Hok. by eapply gstep_ok.
Qed.

(** *** Properties *)

(** A running node answers with a state of the log; with the last one when it
    has applied it all. *)
Lemma answer_of_log log s n p t k :
  replica_ok log (mkReplica (Up s) n p t) ->
  lookup_inside (s_world (c_sys s)) (s_db (c_sys s)) k ->
  exists a, StrataGo_Get (s_world (c_sys s)) (s_db (c_sys s)) k = Some a /\
    seen log k (visible a) /\
    (n = length log \/ touched log n k -> visible a = visible (state_at log n k)).
Proof.
  intros [(Hle & f & wal & A & I & Ts & Hinv & Hf) _ _] Hk.
  destruct (cinv_get _ _ _ _ _ _ _ _ k Hinv Hk) as (a & Ea & Hv). exists a. split; [done|]. rewrite Hv.
  pose proof (cinv_good _ _ _ _ _ _ _ _ k Hinv (seen_None _ _)) as Hs. split; [exact Hs|].
  cbn in Hf. intros [->|Ht]; [by apply agrees_all|]. by destruct (Hf k).
Qed.

(** C4: Every node answers with a state of the log.  The nodes of a cluster apply,
    flush, compact, crash, stop, start again with or without a snapshot, and
    exchange snapshots, by the steps of [rstep]: snapshots are taken while every
    open table still has its name in the directory (a compaction takes one away),
    compactions merge neighbouring tables, no write to a log is cut while another
    log is set aside, and snapshots are installed and nodes stopped when their
    workers are idle.  A running node then answers each key with what the log says
    of it after some number of committed entries; a node that has applied [n]
    entries answers each key that one of them is about with the state after these
    [n], and when they are the whole log, every key.  Empty values count as
    absent. *)
Theorem cluster_reads (c : cluster) (i : string) (s : csys) (n : nat)
    (p : option (nat * strataSnapshot)) (t : option (nat * bytes)) (k : bytes)
    (Hc : reachable c) (Hi : cl_nodes c !! i = Some (mkReplica (Up s) n p t))
    (Hk : lookup_inside (s_world (c_sys s)) (s_db (c_sys s)) k) :
  exists a, StrataGo_Get (s_world (c_sys s)) (s_db (c_sys s)) k = Some a /\
    (exists m, (m <= length (cl_log c))%nat /\ visible a = visible (state_at (cl_log c) m k)) /\
    (n = length (cl_log c) \/ touched (cl_log c) n k -> visible a = visible (state_at (cl_log c) n k)).
Proof.
  destruct (reachable_ok c Hc) as [_ Hn]. exact (answer_of_log _ _ _ _ _ _ (Hn _ _ Hi) Hk).
Qed.

(** C7: Replicas agree.  Two nodes that have applied the same entries answer alike
    every key that one of these entries is about, and every key when they have
    applied the whole log, whatever steps of [rstep] either of them went through
    and whatever their random choices were: crashes, restarts, flushes, compactions
    of neighbouring tables, and snapshots taken while every open table has its
    name, under the conditions listed at [cluster_reads].  Empty values count as
    absent. *)
Theorem caught_up_replicas_agree (c : cluster) (i j : string) (s1 s2 : csys) (n : nat)
    (p1 p2 : option (nat * strataSnapshot)) (t1 t2 : option (nat * bytes)) (k : bytes)
    (Hc : reachable c) (Hn : n = length (cl_log c) \/ touched (cl_log c) n k)
    (Hi : cl_nodes c !! i = Some (mkReplica (Up s1) n p1 t1))
    (Hj : cl_nodes c !! j = Some (mkReplica (Up s2) n p2 t2))
    (Hk1 : lookup_inside (s_world (c_sys s1)) (s_db (c_sys s1)) k)
    (Hk2 : lookup_inside (s_world (c_sys s2)) (s_db (c_sys s2)) k) :
  exists a1 a2, StrataGo_Get (s_world (c_sys s1)) (s_db (c_sys s1)) k = Some a1 /\
    StrataGo_Get (s_world (c_sys s2)) (s_db (c_sys s2)) k = Some a2 /\ visible a1 = visible a2.
Proof.
  destruct (reachable_ok c Hc) as [_ Hok].
  destruct (answer_of_log _ _ _ _ _ _ (Hok _ _ Hi) Hk1) as (a1 & E1 & _ & H1').
  destruct (answer_of_log _ _ _ _ _ _ (Hok _ _ Hj) Hk2) as (a2 & E2 & _ & H2').
  exists a1, a2. split; [done|]. split; [done|]. by rewrite H1', H2'.
Qed.

(** C32: A node comes back.  When a node of such a cluster has gone down (between two
    system calls, or at a system call of an operation, a flush, a compaction, a
    start or a restore, by the steps of [rstep]: no write is cut, and no start has
    a failing call before it ends, while a log is set aside), [Open] succeeds on
    what is left of its directory, and when the node has stored a snapshot,
    [Restore] of that snapshot succeeds, if the memtable that [Open] recovered can
    be flushed first: the clock is ahead of the tables and the sizes fit. *)
Theorem restart_succeeds (c : cluster) (i : string) (w : World) (n : nat)
    (p : option (nat * strataSnapshot)) (t : option (nat * bytes))
    (Hc : reachable c) (Hi : cl_nodes c !! i = Some (mkReplica (Down w) n p t)) :
  exists db w', Open (H0 := rt i) w = (inr db, w') /\
    forall m b, t = Some (m, b) -> flushable w' db ->
      exists db' w'', StrataFSM_Restore (H0 := rt i) db (mkStream b None) w' = ((None, db'), w'').
Proof.
  destruct (reachable_ok c Hc) as [Hl Hok]. destruct (Hok _ _ Hi) as [Hp _ Hst]. cbn in Hp, Hst.
  destruct (at_rest_cinv (H0 := rt i) _ _ Hp) as (db & w' & f & wal & A & Ts & E & Hinv).
  exists db, w'. split; [done|]. intros m b -> Hfl.
  destruct (Restore_idle (H0 := rt i) _ _ _ _ _ _ _ _ _ _ _ _ Hl (Hst _ _ eq_refl) Hinv Hfl)
    as (db' & w'' & E' & _). by exists db', w''.
Qed.

(** An entry takes at most one sequence number. *)
Lemma Apply_seq (R : Runtime) db d w e db' w' :
  db_closed db = false -> 0 <= wal_sequenceNumber (db_wal db) ->
  wal_sequenceNumber (db_wal db) + 1 < 2 ^ 64 ->
  StrataFSM_Apply db d w = ((e, db'), w') ->
  wal_sequenceNumber (db_wal db') <= wal_sequenceNumber (db_wal db) + 1.
Proof.
  intros Hc H0' Hq. rewrite Apply_effect. destruct (entry_effect d) as [o|].
  - intros E. rewrite (run_op_seq _ _ _ _ _ _ Hc E). unfold u64. lia.
  - intros [= <- <- <-]. lia.
Qed.

(** A running node applies what is left of the log. *)
Lemma catch_up todo log nodes i s n p t :
  reachable (mkCluster log nodes) -> nodes !! i = Some (mkReplica (Up s) n p t) ->
  length log = (n + todo)%nat -> wal_sequenceNumber (db_wal (s_db (c_sys s))) + Z.of_nat todo < 2 ^ 64 ->
  exists db' w',
    apply_log (drop n log) (s_db (c_sys s)) (s_world (c_sys s)) =
      ((entry_error <$> drop n log, db'), w') /\
    wal_sequenceNumber (db_wal db') <= wal_sequenceNumber (db_wal (s_db (c_sys s))) + Z.of_nat todo /\
    rtc gstep (mkCluster log nodes) (mkCluster log
      (<[i := mkReplica (Up (mkCsys (mkSys w' db' (s_pc (c_sys s))) (c_pc s))) (length log) p t]> nodes)).
Proof.
  revert nodes s n. induction todo as [|todo IH]; intros nodes s n Hc Hi Et Hq.
  - assert (n = length log) as -> by lia. destruct s as [[w db pc] cpc]. cbn [c_sys c_pc s_world s_db s_pc].
    exists db, w. rewrite drop_all. split; [done|]. split; [lia|]. by rewrite insert_id.
  - destruct (lookup_lt_is_Some_2 log n) as [d Hd]; [lia|]. destruct s as [[w db pc] cpc].
    cbn [c_sys c_pc s_world s_db s_pc] in *.
    destruct (StrataFSM_Apply db d w) as [[e db1] w1] eqn:E.
    destruct (reachable_ok _ Hc) as [Hlog Hok]. destruct (Hok _ _ Hi) as [Hp _ _]. cbn [rp_process rp_applied] in Hp.
    destruct (Apply_ok _ _ _ _ _ _ _ _ _ _ Hlog Hp Hd ltac:(lia) E) as [-> _].
    destruct Hp as (_ & f & wal & A & I & Ts & Hinv & _).
    pose proof (engine_seq _ _ _ _ _ _ (lv_engine _ _ _ _ _ _ (ci_live _ _ _ _ _ _ _ _ Hinv))) as H0'.
    pose proof (Apply_seq (rt i) _ _ _ _ _ _ (ci_open _ _ _ _ _ _ _ _ Hinv) (proj1 H0') ltac:(cbn; lia) E) as Hseq.
    cbn in Hseq. set (r1 := mkReplica (Up (mkCsys (mkSys w1 db1 pc) cpc)) (Datatypes.S n) p t).
    assert (gstep (mkCluster log nodes) (mkCluster log (<[i := r1]> nodes))) as Hst
      by (eapply g_node; [exact Hi|]; eapply r_apply; [exact Hd|lia|exact E]).
    pose proof (rtc_r _ _ _ Hc Hst) as Hc1.
    destruct (IH _ _ _ Hc1 (lookup_insert_eq _ _ _) ltac:(lia)) as (db' & w' & E' & Hq' & Hr); [cbn; lia|].
    cbn [c_sys c_pc s_world s_db s_pc] in *. exists db', w'. rewrite insert_insert_eq in Hr.
    split; [|split; [lia|by eapply rtc_l]].
    rewrite (drop_S _ _ _ Hd). cbn [apply_log]. unfold mbind, IO_bind. by rewrite E, E'.
Qed.

(** C31: A running node catches up.  From any point, wherever its workers are, a
    node can apply the rest of the log; every entry is answered with the response
    that depends on its bytes alone, so no write that was committed fails on one
    node and succeeds on another. *)
Theorem replica_catches_up (c : cluster) (i : string) (s : csys) (n : nat)
    (p : option (nat * strataSnapshot)) (t : option (nat * bytes))
    (Hc : reachable c) (Hi : cl_nodes c !! i = Some (mkReplica (Up s) n p t))
    (Hq : wal_sequenceNumber (db_wal (s_db (c_sys s))) + len (cl_log c) < 2 ^ 64) :
  exists db' w',
    apply_log (drop n (cl_log c)) (s_db (c_sys s)) (s_world (c_sys s)) =
      ((entry_error <$> drop n (cl_log c), db'), w') /\
    reachable (mkCluster (cl_log c)
      (<[i := mkReplica (Up (mkCsys (mkSys w' db' (s_pc (c_sys s))) (c_pc s)))
                (length (cl_log c)) p t]> (cl_nodes c))).
Proof.
  destruct c as [log nodes]. cbn [cl_log cl_nodes] in *.
  assert (n <= length log)%nat as Hn by (destruct (reachable_ok _ Hc) as [_ Hok]; apply (Hok _ _ Hi)).
  destruct (catch_up (length log - n) log nodes i s n p t Hc Hi ltac:(lia) ltac:(unfold len in Hq; lia))
    as (db' & w' & E & _ & Hr).
  exists db', w'. split; [done|]. unfold reachable in *. by etransitivity.
Qed.
End cluster.

(** ** Schedules

    An executable version of the steps; the runs are reachable. *)

Inductive node_action :=
| NWork (a : action) | NApply | NSnapshot | NPersist | NInstall (m : nat) (b : bytes)
| NCrash | NDie (a : action) (fs : list outcome) | NDieApply (fs : list outcome)
| NStop | NWait (now : Z) | NStart | NDieStart (fs : list outcome) | NDieRestore (fs : list outcome).

Section schedules.
Context `{Murmur3} `{Runtime} `{Proto} {S : Type} `{SinkLaws S}.


(** [s0] is an empty sink *)
Definition node_act (s0 : S) (log : list bytes) (a : node_action) (r : replica) : option replica :=
  let '(mkReplica proc n p t) := r in
  match a, proc with
  | NWork a, Up s =>
      match act a s with Some (None, s') => Some (mkReplica (Up s') n p t) | _ => None end
  | NApply, Up (mkCsys (mkSys w db pc) c) =>
      d ← log !! n;
      guard (wal_sequenceNumber (db_wal db) + 1 < 2 ^ 64);;
      let '((_, db'), w') := StrataFSM_Apply db d w in
      Some (mkReplica (Up (mkCsys (mkSys w' db' pc) c)) (Datatypes.S n) p t)
  | NSnapshot, Up (mkCsys (mkSys w db pc) c) =>
      guard (Forall (named w) (db_sstReaders db));;
      let '(res, w') := StrataFSM_Snapshot db w in
      Some (mkReplica (Up (mkCsys (mkSys w' db pc) c)) n
        (match res with inr snap => Some (n, snap) | inl _ => p end) t)
  | NPersist, Up s =>
      '(m, snap) ← p;
      let '(e, s1) := strataSnapshot_Persist snap s0 in
      Some (mkReplica (Up s) n None (match e with None => Some (m, sink_data s1) | Some _ => t end))
  | NInstall m b, Up (mkCsys (mkSys w db Idle) CIdle) =>
      guard (flushable w db);;
      let '((e, db'), w') := StrataFSM_Restore db (mkStream b None) w in
      Some (restored (mkReplica (Up (idle w db)) n p t) m b e w' db')
  | NCrash, Up s => Some (mkReplica (Down (crash (s_world (c_sys s)))) 0 None t)
  | NDie a fs, Up s =>
      match stop_act a fs s with
      | Some (None, w') => Some (mkReplica (Down w') 0 None t)
      | _ => None
      end
  | NDieApply fs, Up s =>
      x ← log !! n ≫= entry_effect;
      '(_, w') ← stop_act (DoOp x) fs s;
      Some (mkReplica (Down w') 0 None t)
  | NStop, Up (mkCsys (mkSys w db Idle) CIdle) =>
      guard (flushable w db);;
      let '(_, w') := StrataGo_Close db w in Some (mkReplica (Down (crash w')) 0 None t)
  | NWait now, Down w =>
      guard (w_now w <= now);; Some (mkReplica (Down (set_now now w)) n p t)
  | NStart, Down w =>
      match Open w with
      | (inl _, w') => Some (mkReplica (Down (crash w')) 0 None t)
      | (inr db, w') =>
          match t with
          | None => Some (mkReplica (Up (idle w' db)) 0 None None)
          | Some (m, b) =>
              guard (flushable w' db);;
              match StrataFSM_Restore db (mkStream b None) w' with
              | ((None, db'), w'') => Some (mkReplica (Up (idle w'' db')) m None (Some (m, b)))
              | ((Some _, _), w'') => Some (mkReplica (Down (crash w'')) 0 None (Some (m, b)))
              end
          end
      end
  | NDieStart fs, Down w =>
      w' ← die_opening fs w; Some (mkReplica (Down w') 0 None t)
  | NDieRestore fs, Down w =>
      match t, Open w with
      | Some (m, b), (inr db, w0) =>
          w' ← die_restoring fs b db w0; Some (mkReplica (Down w') 0 None (Some (m, b)))
      | _, _ => None
      end
  | _, _ => None
  end.

(** the snapshot that an action installs *)
Definition installs (a : node_action) : option (nat * bytes) :=
  match a with NInstall m b => Some (m, b) | _ => None end.

Lemma node_act_sound s0 log available a r r' :
  sink_data s0 = [] -> (forall m b, installs a = Some (m, b) -> available m b) ->
  node_act s0 log a r = Some r' -> rstep (S := S) log available r r'.
Proof.
  intros Hs0 Hav. destruct r as [proc n p t]. unfold node_act.
  destruct a as [a| | | |m b| |a fs|fs| |now| |fs|fs], proc as [s|w]; try done.
  - destruct (act a s) as [[[?|] s']|] eqn:E; try done. intros [= <-].
    apply r_work; [by apply (act_sound a)|by apply (act_selects a s None)].
  - destruct s as [[w db pc] c]. destruct (log !! n) as [d|] eqn:Hd; [|done]. cbn [mbind option_bind].
    case_guard; [|done]. cbn. destruct (StrataFSM_Apply db d w) as [[e db'] w'] eqn:E. intros [= <-].
    by apply (r_apply _ _ w db pc c n p t d e).
  - destruct s as [[w db pc] c]. case_guard; [|done]. cbn.
    destruct (StrataFSM_Snapshot db w) as [res w'] eqn:E. intros [= <-]. by apply r_snapshot.
  - destruct p as [[m snap]|]; [|done]. cbn. destruct (strataSnapshot_Persist snap s0) as [e s1] eqn:E.
    intros [= <-]. by eapply r_persist.
  - destruct s as [[w db [| |[rd vf|e|e]|]] [| | |]]; try done. case_guard; [|done]. cbn.
    destruct (StrataFSM_Restore db _ w) as [[e db'] w'] eqn:E. intros [= <-].
    apply r_install; [by apply Hav|done|done].
  - intros [= <-]. by apply (r_crash _ _ s None _ n p t (dies_between s)).
  - destruct (stop_act a fs s) as [[[?|] w']|] eqn:E; try done. intros [= <-].
    apply (r_crash _ _ s None); [by apply (stop_act_sound a fs)|done].
  - destruct (log !! n ≫= entry_effect) as [x|] eqn:Ex; [|done]. cbn [mbind option_bind].
    destruct (stop_act (DoOp x) fs s) as [[o w']|] eqn:E; [|done]. cbn. intros [= <-].
    pose proof (stop_act_op _ _ _ _ _ E) as ->. apply (r_crash _ _ s (Some x)); [|by intros ? [= <-]].
    by apply (stop_act_sound (DoOp x) fs).
  - destruct s as [[w db [| |[rd vf|e|e]|]] [| | |]]; try done. case_guard; [|done]. cbn.
    destruct (StrataGo_Close db w) as [[e db'] w'] eqn:E. intros [= <-]. by eapply r_stop.
  - case_guard; [|done]. cbn. intros [= <-]. by apply r_wait.
  - destruct (Open w) as [[e|db] w'] eqn:E; [intros [= <-]; by eapply r_start_failed|].
    destruct t as [[m b]|]; [|intros [= <-]; by eapply r_start]. case_guard; [|done]. cbn.
    destruct (StrataFSM_Restore db _ w') as [[[e|] db'] w''] eqn:E2; intros [= <-].
    + by apply (r_start_restore _ _ w n p m b db w' (Some e) db' w'').
    + by apply (r_start_restore _ _ w n p m b db w' None db' w'').
  - destruct (die_opening fs w) as [w'|] eqn:E; [|done]. cbn. intros [= <-].
    by apply r_start_died, (die_opening_dies fs).
  - destruct t as [[m b]|]; [|done]. destruct (Open w) as [[e|db] w0] eqn:E; [done|].
    destruct (die_restoring fs b db w0) as [w'|] eqn:Ed; [|done]. cbn. intros [= <-].
    by eapply r_restore_died, die_restoring_dies.
Qed.
End schedules.

Inductive cluster_action :=
| ACommit (d : bytes) | AJoin (i : string) | ANode (i : string) (a : node_action)
| AInstall (i j : string).   (* the snapshot that [j] has stored, on [i] *)

Section cluster_schedules.
Context `{Murmur3} `{ProtoLaws} {S : Type} `{SinkLaws S} (rt : string -> Runtime).

Definition committableb (d : bytes) : bool :=
  match entry_effect d with
  | Some o => bool_decide (op_ok o) && bool_decide (op_nonempty o)
  | None => true
  end.

Lemma committableb_sound d : committableb d = true -> committable d.
Proof.
  unfold committableb, committable. destruct (entry_effect d) as [o|]; [|done].
  intros [H1' H2']%andb_prop o' [= <-]. apply bool_decide_eq_true in H1', H2'. done.
Qed.

Definition cluster_act (s0 : S) (a : cluster_action) (c : cluster) : option cluster :=
  let log := cl_log c in
  let nodes := cl_nodes c in
  match a with
  | ACommit d =>
      guard (committableb d = true /\ len log + 1 < 2 ^ 64);; Some (mkCluster (log ++ [d]) nodes)
  | AJoin i =>
      guard (nodes !! i = None);;
      Some (mkCluster log (<[i := mkReplica (Down empty_disk) 0 None None]> nodes))
  | ANode i a =>
      guard (installs a = None);;
      r ← nodes !! i;
      r' ← node_act (H0 := rt i) s0 log a r;
      Some (mkCluster log (<[i := r']> nodes))
  | AInstall i j =>
      '(m, b) ← nodes !! j ≫= rp_stored;
      r ← nodes !! i;
      r' ← node_act (H0 := rt i) s0 log (NInstall m b) r;
      Some (mkCluster log (<[i := r']> nodes))
  end.

Fixpoint cluster_run (s0 : S) (acts : list cluster_action) (c : cluster) : option cluster :=
  match acts with
  | [] => Some c
  | a :: acts' => c' ← cluster_act s0 a c; cluster_run s0 acts' c'
  end.

Lemma cluster_act_sound s0 a c c' :
  sink_data s0 = [] -> cluster_act s0 a c = Some c' -> gstep (S := S) rt c c'.
Proof.
  intros Hs0. destruct a as [d|i|i a|i j]; cbn [cluster_act].
  - case_guard as G; [|done]. destruct G as [G1 G2]. cbn. intros [= <-].
    apply g_commit; [by apply committableb_sound|done].
  - case_guard; [|done]. cbn. intros [= <-]. apply g_join; [done|].
    split; [done|]. split; [exact (do_wf _ _ _ _ _ empty_disk_ok)|done].
  - case_guard as G; [|done]. cbn. destruct (cl_nodes c !! i) as [r|] eqn:Hi; [|done]. cbn.
    destruct (node_act s0 (cl_log c) a r) as [r'|] eqn:Ha; [|done]. cbn. intros [= <-].
    eapply g_node; [done|]. eapply node_act_sound; [exact Hs0| |exact Ha]. by rewrite G.
  - destruct (cl_nodes c !! j ≫= rp_stored) as [[m b]|] eqn:Hj; [|done].
    destruct (cl_nodes c !! j) as [rj|] eqn:Ej; [|done]. cbn in Hj |- *.
    destruct (cl_nodes c !! i) as [r|] eqn:Hi; [|done]. cbn [mbind option_bind].
    destruct (node_act s0 (cl_log c) (NInstall m b) r) as [r'|] eqn:Ha; [|done]. cbn. intros [= <-].
    eapply g_node; [done|]. eapply node_act_sound; [exact Hs0| |exact Ha].
    intros m' b' [= <- <-]. by exists j, rj.
Qed.

Lemma cluster_run_sound s0 acts : forall c c',
  sink_data s0 = [] -> cluster_run s0 acts c = Some c' ->
  reachable (S := S) rt c -> reachable (S := S) rt c'.
Proof.
  induction acts as [|a acts IH]; intros c c' Hs0; cbn [cluster_run]; [by intros [= <-]|].
  destruct (cluster_act s0 a c) as [c1|] eqn:Ea; [|done]. cbn. intros Er Hc.
  apply (IH c1 c' Hs0 Er). eapply rtc_r; [exact Hc|]. by eapply cluster_act_sound.
Qed.
End cluster_schedules.

(** ** Witnesses *)

Section witnesses.
#[local] Existing Instance fnv.
#[local] Existing Instance plain_proto.
#[local] Existing Instance plain_proto_laws.

(** the nodes make different choices *)
Definition runtimes (i : string) : Runtime :=
  if String.eqb i "a" then plain_runtime else other_runtime.

Definition fresh_sink : buffer_sink := mkSink [] false false.

Definition put_entry (k v : bytes) : bytes := marshal (mkCommand Command_PUT k (Some v)).
Definition delete_entry (k : bytes) : bytes := marshal (mkCommand Command_DELETE k None).

Definition on (i : string) : list node_action -> list cluster_action := map (ANode i).

(** node a flushes and takes a snapshot; node b installs it, dies while it writes a
    table, and dies again while it restores the snapshot *)
Definition life1 : list cluster_action :=
  [AJoin "a"; AJoin "b"] ++ on "a" [NStart] ++ on "b" [NStart] ++
  [ACommit (put_entry [x61] [x01]); ACommit (put_entry [x62] [x02])] ++
  on "a" [NApply; NApply; NWork DoRotate; NWork DoBuild; NWork DoInstall; NWork DoRemove;
          NWork (DoTick 1001); NSnapshot; NPersist] ++
  [ACommit (delete_entry [x62]); AInstall "b" "a"] ++
  on "b" [NApply; NWork DoRotate; NDie DoBuild (repeat Succeeds 6 ++ repeat (Fails 3) 40); NWait 1010;
          NDieRestore (repeat Succeeds 6 ++ repeat (Fails 3) 9); NWait 1020].

(** node b comes back, and both apply what is left *)
Definition life2 : list cluster_action := on "b" [NStart; NApply] ++ on "a" [NApply].

Definition run_life (acts : list cluster_action) : option cluster :=
  cluster_run runtimes fresh_sink acts empty_cluster.

Lemma run_life_reachable acts c : run_life acts = Some c -> reachable (S := buffer_sink) runtimes c.
Proof. intros E. eapply cluster_run_sound; [|exact E|]; [done|]. apply rtc_refl. Qed.

(** what a node is doing *)
Definition status (c : cluster) (i : string) : option (bool * nat * option nat) :=
  r ← cl_nodes c !! i;
  Some (match rp_process r with Up _ => true | Down _ => false end, rp_applied r, fst <$> rp_stored r).

Lemma status_up c i n m :
  status c i = Some (true, n, m) ->
  exists s p t, cl_nodes c !! i = Some (mkReplica (Up s) n p t).
Proof.
  unfold status. destruct (cl_nodes c !! i) as [[proc n' p t]|]; [|discriminate]. cbn.
  destruct proc as [s|w]; [|discriminate]. intros [= <- <-]. by exists s, p, t.
Qed.

Lemma status_down c i n m :
  status c i = Some (false, n, m) ->
  exists w p t, cl_nodes c !! i = Some (mkReplica (Down w) n p t) /\ fst <$> t = m.
Proof.
  unfold status. destruct (cl_nodes c !! i) as [[proc n' p t]|]; [|discriminate]. cbn.
  destruct proc as [s|w]; [discriminate|]. intros [= <- <-]. by exists w, p, t.
Qed.

(** a node has crashed during a flush *)
Lemma life1_runs :
  exists c, reachable (S := buffer_sink) runtimes c /\ length (cl_log c) = 3%nat /\
    status c "a" = Some (true, 2%nat, Some 2%nat) /\ status c "b" = Some (false, 0%nat, Some 2%nat).
Proof.
  assert ((fun c => (length (cl_log c), status c "a", status c "b")) <$> run_life life1 =
    Some (3%nat, Some (true, 2%nat, Some 2%nat), Some (false, 0%nat, Some 2%nat))) as Ho by vm_equal.
  destruct (run_life life1) as [c|] eqn:E; [|discriminate]. injection Ho as H1 H2 H3.
  exists c. exact (conj (run_life_reachable life1 c E) (conj H1 (conj H2 H3))).
Qed.

(** both nodes have applied the whole log *)
Lemma life2_runs :
  exists c, reachable (S := buffer_sink) runtimes c /\ length (cl_log c) = 3%nat /\
    status c "a" = Some (true, 3%nat, Some 2%nat) /\ status c "b" = Some (true, 3%nat, Some 2%nat).
Proof.
  assert ((fun c => (length (cl_log c), status c "a", status c "b")) <$> run_life (life1 ++ life2) =
    Some (3%nat, Some (true, 3%nat, Some 2%nat), Some (true, 3%nat, Some 2%nat))) as Ho by vm_equal.
  destruct (run_life (life1 ++ life2)) as [c|] eqn:E; [|discriminate]. injection Ho as H1 H2 H3.
  exists c. exact (conj (run_life_reachable (life1 ++ life2) c E) (conj H1 (conj H2 H3))).
Qed.

Lemma cluster_reads_witness :
  exists c s p t, reachable (S := buffer_sink) runtimes c /\
    cl_nodes c !! "b"%string = Some (mkReplica (Up s) 3 p t) /\ length (cl_log c) = 3%nat /\
    forall k, lookup_inside (s_world (c_sys s)) (s_db (c_sys s)) k ->
      exists a, StrataGo_Get (s_world (c_sys s)) (s_db (c_sys s)) k = Some a /\
        (exists m, (m <= length (cl_log c))%nat /\ visible a = visible (state_at (cl_log c) m k)) /\
        (3%nat = length (cl_log c) \/ touched (cl_log c) 3 k ->
           visible a = visible (state_at (cl_log c) 3 k)).
Proof.
  destruct life2_runs as (c & Hc & Hl & _ & Hb). destruct (status_up _ _ _ _ Hb) as (s & p & t & Hi).
  exists c, s, p, t. split; [exact Hc|]. split; [exact Hi|]. split; [exact Hl|]. intros k Hk.
  exact (cluster_reads runtimes c "b" s 3 p t k Hc Hi Hk).
Defined.

Lemma caught_up_replicas_agree_witness :
  exists c s1 s2 p1 t1 p2 t2, reachable (S := buffer_sink) runtimes c /\
    cl_nodes c !! "a"%string = Some (mkReplica (Up s1) 3 p1 t1) /\
    cl_nodes c !! "b"%string = Some (mkReplica (Up s2) 3 p2 t2) /\
    forall k, lookup_inside (s_world (c_sys s1)) (s_db (c_sys s1)) k ->
      lookup_inside (s_world (c_sys s2)) (s_db (c_sys s2)) k ->
      exists a1 a2, StrataGo_Get (s_world (c_sys s1)) (s_db (c_sys s1)) k = Some a1 /\
        StrataGo_Get (s_world (c_sys s2)) (s_db (c_sys s2)) k = Some a2 /\ visible a1 = visible a2.
Proof.
  destruct life2_runs as (c & Hc & Hl & Ha & Hb). destruct (status_up _ _ _ _ Ha) as (s1 & p1 & t1 & Hi).
  destruct (status_up _ _ _ _ Hb) as (s2 & p2 & t2 & Hj).
  exists c, s1, s2, p1, t1, p2, t2. split; [exact Hc|]. split; [exact Hi|]. split; [exact Hj|].
  intros k Hk1 Hk2.
  exact (caught_up_replicas_agree runtimes c "a" "b" s1 s2 3 p1 p2 t1 t2 k Hc (or_introl (eq_sym Hl)) Hi Hj Hk1 Hk2).
Defined.

Lemma restart_succeeds_witness :
  exists c w p m b, reachable (S := buffer_sink) runtimes c /\
    cl_nodes c !! "b"%string = Some (mkReplica (Down w) 0 p (Some (m, b))) /\
    exists db w', Open (H0 := runtimes "b") w = (inr db, w') /\
      forall m' b', Some (m, b) = Some (m', b') -> flushable w' db ->
        exists db' w'',
          StrataFSM_Restore (H0 := runtimes "b") db (mkStream b' None) w' = ((None, db'), w'').
Proof.
  destruct life1_runs as (c & Hc & _ & _ & Hb). destruct (status_down _ _ _ _ Hb) as (w & p & t & Hi & Ht).
  destruct t as [[m b]|]; [|discriminate]. exists c, w, p, m, b. split; [exact Hc|]. split; [exact Hi|].
  exact (restart_succeeds runtimes c "b" w 0 p (Some (m, b)) Hc Hi).
Defined.

(** sequence number of the log of a running node *)
Definition node_seq (c : cluster) (i : string) : option Z :=
  match rp_process <$> cl_nodes c !! i with
  | Some (Up s) => Some (wal_sequenceNumber (db_wal (s_db (c_sys s))))
  | _ => None
  end.

Lemma replica_catches_up_witness :
  exists c s p t, reachable (S := buffer_sink) runtimes c /\
    cl_nodes c !! "a"%string = Some (mkReplica (Up s) 2 p t) /\ length (cl_log c) = 3%nat /\
    exists db' w',
      apply_log (drop 2 (cl_log c)) (s_db (c_sys s)) (s_world (c_sys s)) =
        ((entry_error <$> drop 2 (cl_log c), db'), w') /\
      reachable (S := buffer_sink) runtimes (mkCluster (cl_log c)
        (<["a"%string := mkReplica (Up (mkCsys (mkSys w' db' (s_pc (c_sys s))) (c_pc s)))
             (length (cl_log c)) p t]> (cl_nodes c))).
Proof.
  assert ((fun c => (length (cl_log c), status c "a", node_seq c "a")) <$> run_life life1 =
    Some (3%nat, Some (true, 2%nat, Some 2%nat), Some 0)) as Ho by vm_equal.
  destruct (run_life life1) as [c|] eqn:E; [|discriminate]. injection Ho as Hl Ha Hs.
  pose proof (run_life_reachable life1 c E) as Hc. clear E.
  destruct (status_up _ _ _ _ Ha) as (s & p & t & Hi).
  exists c, s, p, t. split; [exact Hc|]. split; [exact Hi|]. split; [exact Hl|].
  apply (replica_catches_up runtimes c "a" s 2 p t Hc Hi).
  unfold node_seq in Hs. rewrite Hi in Hs. cbn in Hs. injection Hs as ->. unfold len. rewrite Hl. reflexivity.
Defined.

(** *** What a restart and a compaction do to reads and snapshots *)

(** what a client reads on a running node *)
Definition read (c : cluster) (i : string) (k : bytes) : option (option bytes) :=
  match rp_process <$> cl_nodes c !! i with
  | Some (Up s) => StrataGo_Get (s_world (c_sys s)) (s_db (c_sys s)) k
  | _ => None
  end.

(** two writes to a key, applied; then the only node dies and starts again *)
Definition life3 : list cluster_action :=
  [AJoin "a"] ++ on "a" [NStart] ++
  [ACommit (put_entry [x61] [x01]); ACommit (put_entry [x61] [x02])] ++
  on "a" [NApply; NApply; NCrash; NStart].

(** Reads go back in time after a restart.  A node without a snapshot starts with
    the data of its engine and applies the log from its beginning on top of it:
    having answered with the newest value, it answers with the oldest one, which
    had been overwritten, until it has applied the rest. *)
Theorem restart_rewinds_reads :
  (fun c => read c "a" [x61]) <$> run_life life3 = Some (Some (Some [x02])) /\
  (fun c => read c "a" [x61]) <$> run_life (life3 ++ on "a" [NApply]) = Some (Some (Some [x01])) /\
  (fun c => read c "a" [x61]) <$> run_life (life3 ++ on "a" [NApply; NApply]) = Some (Some (Some [x02])).
Proof. split; [vm_equal|split; vm_equal]. Qed.

#[local] Existing Instance plain_runtime.

(** after four flushes and a compaction: what [Get] finds, and what is in the snapshot *)
Definition snapshot_after (acts : list action) (k : bytes) : option (option (option bytes) * option bytes) :=
  match Open empty_disk with
  | (inr db, w1) =>
      '(_, s) ← run_schedule acts (mkCsys (mkSys w1 db Idle) CIdle);
      match StrataFSM_Snapshot (s_db (c_sys s)) (s_world (c_sys s)) with
      | (inr snap, _) =>
          Some (StrataGo_Get (s_world (c_sys s)) (s_db (c_sys s)) k, snap_state snap !! k)
      | _ => None
      end
  | _ => None
  end.

(** A snapshot misses compacted data.  Before the old tables are deleted the
    snapshot has the key; afterwards [Get] still finds it through the open file,
    and the snapshot, taken without an error, lacks it: a node that restores it, and
    the log entries that Raft drops for it, lose the key for good. *)
Theorem snapshot_misses_compacted_data :
  snapshot_after (take 31 schedule1) [x63] = Some (Some (Some [x63]), Some [x63]) /\
  snapshot_after schedule1 [x63] = Some (Some (Some [x63]), None).
Proof. split; vm_equal. Qed.
End witnesses.
