(* ===== verification/Server.v ===== *)
(** * The gRPC server: [server/kv_server.go]

    A cluster maps gRPC addresses to nodes.  A node has a core (its Raft
    instance, engine and disk), the state of its [KVServer] (the cached
    connection to the leader) and its request counters.  Raft and gRPC are
    third-party code: interfaces, with the law that Raft's documentation gives for
    [Apply].  A proxied request runs the handler of the target node; [fuel] is
    the number of hops that fit into the deadline. *)
From stdpp Require Import base gmap sets list strings numbers sorting.
From Stdlib Require Import ZArith Lia Strings.Byte.
From S2P Require Import Prelude SkipList Disk Wal Bloom GoFmt Sst Reader Engine Recovery Flush.
From S2P Require Import Lifecycle GoNet Pb Fsm.
Open Scope Z_scope.

(** the text of an error *)
Fixpoint err_Error (e : error) : string :=
  match e with
  | EIO => "input/output error"
  | ENOENT => "no such file or directory"
  | ErrClosed => "file already closed"
  | EOF => "EOF"
  | ErrUnexpectedEOF => "unexpected EOF"
  | Panic => "panic"
  | ErrMsg msg => msg
  | ErrWrap msg e => (msg +:+ ": " +:+ err_Error e)%string
  end.

(** ** Raft and gRPC *)

Inductive RaftState := Follower | Candidate | Leader | Shutdown.

#[export] Instance RaftState_eq_dec : EqDecision RaftState.
Proof. solve_decision. Defined.

(** [*raft.Raft]: [raft_Apply] is [Apply] with its future: the error of the
    future, the response of the state machine if that is an error, and the state
    of the node when the future is ready *)
Class Raft (R : Type) := {
  raft_State : R -> RaftState;
  raft_Leader : R -> string;
  raft_VerifyLeader : R -> err * R;
  raft_Apply : bytes -> R -> StrataGo -> World -> (err * err) * (R * StrataGo * World);
  raft_ErrNotLeader : error
}.

(** [grpc.NewClient] connects lazily, and fails on an invalid target only *)
Class Grpc := { grpc_NewClient : string -> err }.

(** [Apply]: a future without an error means that the entry was committed and
    applied by the state machine, possibly between other committed entries, and
    that the response is what the state machine returned for it. *)
Class RaftLaws (R : Type) `{Raft R} `{Proto} := {
  raft_Apply_ok data r db w resp r' db' w' :
    raft_Apply data r db w = ((None, resp), (r', db', w')) ->
    exists before after rs,
      apply_log (before ++ data :: after) db w = ((rs, db'), w') /\ rs !! length before = Some resp
}.

(** metadata of a request *)
Record Ctx := mkCtx { ctx_incoming : list (string * string); ctx_outgoing : list (string * string) }.

Definition proxy_key : string := "x-stratago-proxy".

Definition isProxyRequest (ctx : Ctx) : bool :=
  existsb (fun kv => String.eqb kv.1 proxy_key) (ctx_incoming ctx).

(** [metadata.AppendToOutgoingContext] *)
Definition AppendToOutgoingContext (ctx : Ctx) (k v : string) : Ctx :=
  mkCtx (ctx_incoming ctx) (ctx_outgoing ctx ++ [(k, v)]).

(** the context of the handler that receives a call made with [ctx] *)
Definition received (ctx : Ctx) : Ctx := mkCtx (ctx_outgoing ctx) [].

(** ** The leader's address *)

Definition getLeaderGRPCAddress (raftAddr : string) : result string :=
  if String.eqb raftAddr "" then inl (ErrMsg "no leader currently elected") else
  match SplitHostPort raftAddr with
  | inl e => inl e
  | inr (host, portStr) =>
      match Atoi portStr with
      | None => inl (ErrMsg "invalid port")
      | Some raftPort => inr (host_port host (int64 (raftPort + 1000)))
      end
  end.

(** ** The cached connection *)

(** connections are numbered; [kv_conns] are the open ones with their targets *)
Record KVServer := mkKVServer {
  kv_leaderConn : option nat;
  kv_leaderAddr : string;
  kv_conns : gmap nat string;
  kv_next : nat
}.

Definition NewKVServer : KVServer := mkKVServer None "" ∅ 0.

Definition invalidateLeader (s : KVServer) : KVServer :=
  match kv_leaderConn s with
  | Some c => mkKVServer None "" (delete c (kv_conns s)) (kv_next s)
  | None => s
  end.

Definition KVServer_Close (s : KVServer) : KVServer :=
  match kv_leaderConn s with
  | Some c => mkKVServer (Some c) (kv_leaderAddr s) (delete c (kv_conns s)) (kv_next s)
  | None => s
  end.

(** the test that is made under the read lock, and again under the write lock *)
Definition cached_client (s : KVServer) (grpcAddr : string) : option nat :=
  if String.eqb (kv_leaderAddr s) grpcAddr then kv_leaderConn s else None.

Section cache.
Context `{Grpc}.

(** the part under the write lock *)
Definition dial_client (s : KVServer) (grpcAddr : string) : result nat * KVServer :=
  match cached_client s grpcAddr with
  | Some c => (inr c, s)
  | None =>
      let conns := match kv_leaderConn s with
                   | Some c => delete c (kv_conns s)
                   | None => kv_conns s
                   end in
      let s1 := mkKVServer (kv_leaderConn s) (kv_leaderAddr s) conns (kv_next s) in
      match grpc_NewClient grpcAddr with
      | Some e => (inl (ErrWrap "failed to connect to leader" e), s1)
      | None =>
          (inr (kv_next s),
           mkKVServer (Some (kv_next s)) grpcAddr (<[kv_next s := grpcAddr]> conns) (S (kv_next s)))
      end
  end.

Definition getLeaderClient (currentLeaderAddr : string) (s : KVServer) : result nat * KVServer :=
  if String.eqb currentLeaderAddr "" then (inl (ErrMsg "no leader currently elected"), s) else
  match getLeaderGRPCAddress currentLeaderAddr with
  | inl e => (inl e, s)
  | inr grpcAddr =>
      match cached_client s grpcAddr with
      | Some c => (inr c, s)
      | None => dial_client s grpcAddr
      end
  end.
End cache.

(** ** Nodes and clusters *)

Record Core (R : Type) := mkCore { c_raft : R; c_db : StrataGo; c_world : World }.
Arguments mkCore {R}. Arguments c_raft {R}. Arguments c_db {R}. Arguments c_world {R}.

Record Node (R : Type) := mkNode {
  n_core : Core R;
  n_srv : KVServer;
  n_requests : gmap string Z     (* [metrics.RequestsTotal], by method *)
}.
Arguments mkNode {R}. Arguments n_core {R}. Arguments n_srv {R}. Arguments n_requests {R}.

Definition node_State {R} `{Raft R} (n : Node R) : RaftState := raft_State (c_raft (n_core n)).
Definition node_Leader {R} `{Raft R} (n : Node R) : string := raft_Leader (c_raft (n_core n)).

Definition set_srv {R} (s : KVServer) (n : Node R) : Node R := mkNode (n_core n) s (n_requests n).
Definition set_core {R} (c : Core R) (n : Node R) : Node R := mkNode c (n_srv n) (n_requests n).

(** [metrics.RequestsTotal.WithLabelValues(_, method).Inc()] *)
Definition count_request {R} (method : string) (n : Node R) : Node R :=
  mkNode (n_core n) (n_srv n)
    (<[method := default 0 (n_requests n !! method) + 1]> (n_requests n)).

(** the fate of a call on the network *)
Inductive net_outcome := Delivered | RequestLost | ReplyLost.

Record Cluster (R : Type) := mkCluster { cl_nodes : gmap string (Node R); cl_net : list net_outcome }.
Arguments mkCluster {R}. Arguments cl_nodes {R}. Arguments cl_net {R}.

Definition on_node {R} (i : string) (f : Node R -> Node R) (c : Cluster R) : Cluster R :=
  mkCluster (alter f i (cl_nodes c)) (cl_net c).

Definition next_net {R} (c : Cluster R) : net_outcome * Cluster R :=
  match cl_net c with
  | [] => (Delivered, c)
  | o :: os => (o, mkCluster (cl_nodes c) os)
  end.

Definition Unavailable : error := ErrMsg "rpc error: code = Unavailable".
Definition DeadlineExceeded : error := ErrMsg "rpc error: code = DeadlineExceeded".
Definition ClientClosing : error := ErrMsg "grpc: the client connection is closing".

Section handlers.
Context {R : Type} `{Raft R} `{Grpc} `{Proto} `{Murmur3}.

(** ** Calls to another node *)

(** a handler on node [i]: a response, an error, or both *)
Abbreviation handler Req Resp :=
  (string -> Ctx -> Req -> Cluster R -> (option Resp * err) * Cluster R).
Abbreviation caller Req Resp := (string -> Ctx -> Req -> Cluster R -> result Resp * Cluster R).

(** a unary call: gRPC drops the response of a handler that returns an error *)
Definition rpc {Req Resp} (h : handler Req Resp) : caller Req Resp := fun target ctx req c =>
  let '(o, c1) := next_net c in
  match o with
  | RequestLost => (inl Unavailable, c1)
  | _ =>
      match cl_nodes c1 !! target with
      | None => (inl Unavailable, c1)
      | Some _ =>
          let '((resp, e), c2) := h target (received ctx) req c1 in
          (match o, e, resp with
           | ReplyLost, _, _ => inl DeadlineExceeded
           | _, Some e, _ => inl e
           | _, None, Some r => inr r
           | _, None, None => inl Unavailable
           end, c2)
      end
  end.

(** the call through connection [conn] of node [i] *)
Definition call_conn {Req Resp} (call : caller Req Resp) (i : string) (conn : nat) : Ctx -> Req ->
    Cluster R -> result Resp * Cluster R := fun ctx req c =>
  match n ← cl_nodes c !! i; kv_conns (n_srv n) !! conn with
  | None => (inl ClientClosing, c)
  | Some target => call target ctx req c
  end.

(** the forwarding of a request by a node that does not lead, which [Put] and
    [Delete] share: [on_err1] when there is no client, [on_err2] when the call
    fails *)
Definition forward {Req Resp} (call : caller Req Resp) (i : string) (n : Node R) (ctx : Ctx)
    (req : Req) (on_err1 on_err2 : error -> option Resp * err) (c : Cluster R)
    : (option Resp * err) * Cluster R :=
  let '(client, s1) := getLeaderClient (node_Leader n) (n_srv n) in
  let c1 := on_node i (set_srv s1) c in
  match client with
  | inl e => (on_err1 e, c1)
  | inr conn =>
      let proxyCtx := AppendToOutgoingContext ctx proxy_key "true" in
      let '(r, c2) := call_conn call i conn proxyCtx req c1 in
      match r with
      | inl e => (on_err2 e, on_node i (fun n => set_srv (invalidateLeader (n_srv n)) n) c2)
      | inr resp => ((Some resp, None), c2)
      end
  end.

(** ** Put *)

(** the path of the leader *)
Definition propose_put (req : PutRequest) (co : Core R) : (option PutResponse * err) * Core R :=
  match Command_Marshal (mkCommand Command_PUT (put_Key req) (put_Value req)) with
  | inl e =>
      ((Some (mkPutResponse false ("failed to marshal command: " +:+ err_Error e)%string), None), co)
  | inr eventBytes =>
      let '((e, response), (r', db', w')) :=
        raft_Apply eventBytes (c_raft co) (c_db co) (c_world co) in
      (match e with
       | Some e =>
           if bool_decide (e = raft_ErrNotLeader) then
             (Some (mkPutResponse false "leadership lost during write, please retry"), None)
           else (Some (mkPutResponse false (err_Error e)), None)
       | None =>
           match response with
           | Some e => (Some (mkPutResponse false (err_Error e)), None)
           | None => (Some (mkPutResponse true "Key saved successfully"), None)
           end
       end, mkCore r' db' w')
  end.

Definition KVServer_Put (call : caller PutRequest PutResponse) : handler PutRequest PutResponse :=
  fun i ctx req c =>
  match cl_nodes c !! i with
  | None => ((None, Some Unavailable), c)
  | Some n =>
      let '(res, c') :=
        if negb (bool_decide (node_State n = Leader)) then
          forward call i n ctx req
            (fun e => (Some (mkPutResponse false (err_Error e)), None))
            (fun e => (Some (mkPutResponse false "leader unavailable, connection reset"), Some e)) c
        else
          let '(res, co) := propose_put req (n_core n) in (res, on_node i (set_core co) c) in
      (res, if isProxyRequest ctx then c' else on_node i (count_request "Put") c')
  end.

(** the nodes of the cluster calling each other *)
Fixpoint rpc_Put (hops : nat) : caller PutRequest PutResponse :=
  match hops with
  | O => fun _ _ _ c => (inl DeadlineExceeded, c)
  | S hops' => rpc (KVServer_Put (rpc_Put hops'))
  end.

(** ** Delete *)

(** the response of the state machine is not looked at *)
Definition propose_delete (req : DeleteRequest) (co : Core R)
    : (option DeleteResponse * err) * Core R :=
  match Command_Marshal (mkCommand Command_DELETE (del_Key req) None) with
  | inl e => ((Some (mkDeleteResponse false (raft_Leader (c_raft co))),
               Some (ErrWrap "failed to marshal command" e)), co)
  | inr eventBytes =>
      let '((e, _), (r', db', w')) :=
        raft_Apply eventBytes (c_raft co) (c_db co) (c_world co) in
      (match e with
       | Some e =>
           if bool_decide (e = raft_ErrNotLeader) then
             (Some (mkDeleteResponse false (raft_Leader r')),
              Some (ErrMsg "leadership lost during write, please retry"))
           else (Some (mkDeleteResponse false ""), None)
       | None => (Some (mkDeleteResponse true ""), None)
       end, mkCore r' db' w')
  end.

Definition KVServer_Delete (call : caller DeleteRequest DeleteResponse)
    : handler DeleteRequest DeleteResponse := fun i ctx req c =>
  match cl_nodes c !! i with
  | None => ((None, Some Unavailable), c)
  | Some n =>
      let '(res, c') :=
        if negb (bool_decide (node_State n = Leader)) then
          forward call i n ctx req
            (fun e => (Some (mkDeleteResponse false (node_Leader n)), Some e))
            (fun e => (Some (mkDeleteResponse false ""), Some e)) c
        else
          let '(res, co) := propose_delete req (n_core n) in (res, on_node i (set_core co) c) in
      (res, if isProxyRequest ctx then c' else on_node i (count_request "Delete") c')
  end.

Fixpoint rpc_Delete (hops : nat) : caller DeleteRequest DeleteResponse :=
  match hops with
  | O => fun _ _ _ c => (inl DeadlineExceeded, c)
  | S hops' => rpc (KVServer_Delete (rpc_Delete hops'))
  end.

(** ** Get *)

(** the leader's address in an error message *)
Definition or_unknown (addr : string) : string := if String.eqb addr "" then "unknown" else addr.

(** the check of the consistency level: other values have no case *)
Definition check_consistency (level : Z) (r : R) : err * R :=
  if level =? GetRequest_STRONG then
    let '(e, r') := raft_VerifyLeader r in
    match e with
    | Some _ => (Some (ErrMsg ("stale read prevented: not the leader (leader: " +:+
                          or_unknown (raft_Leader r') +:+ ")")%string), r')
    | None => (None, r')
    end
  else if level =? GetRequest_FAST then
    if negb (bool_decide (raft_State r = Leader)) then
      (Some (ErrMsg ("not the leader (leader: " +:+ or_unknown (raft_Leader r) +:+ ")")%string), r)
    else (None, r)
  else (None, r).

Definition KVServer_Get (req : GetRequest) (n : Node R) : (option GetResponse * err) * Node R :=
  let co := n_core n in
  let '(e, r') := check_consistency (get_Consistency req) (c_raft co) in
  let n' := count_request "Get" (set_core (mkCore r' (c_db co) (c_world co)) n) in
  match e with
  | Some e => ((None, Some e), n')
  | None =>
      match StrataGo_Get (c_world co) (c_db co) (get_Key req) with
      | None => ((None, Some Panic), n')
      | Some val =>
          ((Some (mkGetResponse (bool_decide (is_Some val)) val (raft_Leader r')), None), n')
      end
  end.
End handlers.

(** ** The cached connection: invariant *)

Section cache_invariant.
Context `{Grpc}.

(** the sections of [getLeaderClient], [invalidateLeader] and [Close] that run
    under the write lock, in any order and on behalf of any request; the test
    under the read lock changes nothing *)
Inductive cache_step : KVServer -> KVServer -> Prop :=
| cache_dial s grpcAddr : cache_step s (dial_client s grpcAddr).2
| cache_invalidate s : cache_step s (invalidateLeader s)
| cache_close s : cache_step s (KVServer_Close s).

(** the steps of a server that is not shut down and whose dials succeed *)
Inductive serving_step : KVServer -> KVServer -> Prop :=
| serving_dial s grpcAddr : grpc_NewClient grpcAddr = None ->
    serving_step s (dial_client s grpcAddr).2
| serving_invalidate s : serving_step s (invalidateLeader s).

(** no connection is open but the cached one, whose target is the cached address *)
Definition cache_ok (s : KVServer) : Prop :=
  forall c t, kv_conns s !! c = Some t -> kv_leaderConn s = Some c /\ kv_leaderAddr s = t.

(** the cached connection is open *)
Definition cache_live (s : KVServer) : Prop :=
  forall c, kv_leaderConn s = Some c -> kv_conns s !! c = Some (kv_leaderAddr s).

Lemma delete_cached s c :
  cache_ok s -> kv_leaderConn s = Some c -> delete c (kv_conns s) = ∅.
Proof.
  intros Hok Hc. apply map_eq. intros d. rewrite lookup_empty.
  destruct (decide (d = c)) as [->|Hne]; [apply lookup_delete_eq|].
  rewrite lookup_delete_ne by done. destruct (kv_conns s !! d) as [t|] eqn:E; [|done].
  destruct (Hok d t E) as [Hd _]. congruence.
Qed.

Lemma no_cached s : cache_ok s -> kv_leaderConn s = None -> kv_conns s = ∅.
Proof.
  intros Hok Hc. apply map_eq. intros d. rewrite lookup_empty.
  destruct (kv_conns s !! d) as [t|] eqn:E; [|done]. destruct (Hok d t E) as [Hd _]. congruence.
Qed.

Lemma dial_client_ok s a : cache_ok s -> cache_ok (dial_client s a).2.
Proof.
  intros Hok. unfold dial_client. destruct (cached_client s a); [done|].
  assert (match kv_leaderConn s with Some c => delete c (kv_conns s) | None => kv_conns s end = ∅) as ->.
  { destruct (kv_leaderConn s) eqn:E; [by apply delete_cached|by apply no_cached]. }
  destruct (grpc_NewClient a); cbn.
  - intros c t. cbn. by rewrite lookup_empty.
  - intros c t. cbn. rewrite insert_empty, lookup_singleton_Some. by intros [-> ->].
Qed.

Lemma invalidate_ok s : cache_ok s -> cache_ok (invalidateLeader s).
Proof.
  intros Hok. unfold invalidateLeader. destruct (kv_leaderConn s) eqn:E; [|done].
  rewrite (delete_cached s n Hok E). intros c t. cbn. by rewrite lookup_empty.
Qed.

Lemma close_ok s : cache_ok s -> cache_ok (KVServer_Close s).
Proof.
  intros Hok. unfold KVServer_Close. destruct (kv_leaderConn s) eqn:E; [|done].
  rewrite (delete_cached s n Hok E). intros c t. cbn. by rewrite lookup_empty.
Qed.

Lemma cache_step_ok s s' : cache_ok s -> cache_step s s' -> cache_ok s'.
Proof.
  intros Hok Hst. destruct Hst; [by apply dial_client_ok|by apply invalidate_ok|by apply close_ok].
Qed.

Lemma serving_step_live s s' : cache_live s -> serving_step s s' -> cache_live s'.
Proof.
  intros Hl Hst. destruct Hst as [s0 a Ha|s0].
  - unfold dial_client. destruct (cached_client s0 a); [done|]. rewrite Ha. cbn.
    intros c. cbn. intros [= <-]. apply lookup_insert_eq.
  - unfold invalidateLeader. destruct (kv_leaderConn s0); done.
Qed.

Lemma dial_client_live s a :
  grpc_NewClient a = None -> cache_live s ->
  exists c s', dial_client s a = (inr c, s') /\ kv_conns s' !! c = Some a.
Proof.
  intros Ha Hl. unfold dial_client, cached_client. destruct (String.eqb_spec (kv_leaderAddr s) a) as [<-|].
  - destruct (kv_leaderConn s) as [c|] eqn:E; [exists c, s; auto|]. rewrite Ha.
    eexists _, _. split; [done|]. apply lookup_insert_eq.
  - rewrite Ha. eexists _, _. split; [done|]. apply lookup_insert_eq.
Qed.

(** C35: The connection cache leaks nothing and hands out live clients.  Under
    every interleaving of the locked sections of any number of requests, with
    failing dials and a shutdown anywhere, at most one connection is open, and it
    is the cached one, to the cached address; and as long as dials succeed, every
    address asked for is answered with an open connection to that address. *)
Theorem leader_cache_invariant (s : KVServer) :
  (rtc cache_step NewKVServer s ->
     (size (kv_conns s) <= 1)%nat /\
     forall c t, kv_conns s !! c = Some t -> kv_leaderConn s = Some c /\ kv_leaderAddr s = t) /\
  (rtc serving_step NewKVServer s ->
     forall grpcAddr, grpc_NewClient grpcAddr = None ->
       exists c s', dial_client s grpcAddr = (inr c, s') /\ kv_conns s' !! c = Some grpcAddr).
Proof.
  split.
  - intros Hst. assert (cache_ok s) as Hok.
    { eapply (rtc_ind_r cache_ok); [..|exact Hst]; [by intros c t; cbn; rewrite lookup_empty|].
      intros y z _ Hyz Hy. by eapply cache_step_ok. }
    split; [|exact Hok]. destruct (kv_leaderConn s) as [c|] eqn:E.
    + pose proof (delete_cached s c Hok E) as Hd.
      destruct (kv_conns s !! c) eqn:Ec.
      * rewrite <- (insert_delete_id (kv_conns s) c s0), Hd by done.
        rewrite insert_empty, map_size_singleton. lia.
      * rewrite delete_id in Hd by done. rewrite Hd, map_size_empty. lia.
    + rewrite (no_cached s Hok E), map_size_empty. lia.
  - intros Hst a Ha. apply dial_client_live; [done|].
    eapply (rtc_ind_r cache_live); [..|exact Hst]; [done|].
    intros y z _ Hyz Hy. by eapply serving_step_live.
Qed.
End cache_invariant.

(** ** The leader's address: property *)

(** A follower finds the leader's gRPC server.  For every host that is a name
    or an IPv4 address and every port, the Raft address [host:port] is turned into
    [host:(port+1000)], with the sum of a 64-bit integer; without a leader it is
    an error. *)
Theorem leader_grpc_address (host : string) (port : Z)
    (Hhost : plain (chars host)) (Hport : - 2 ^ 63 <= port < 2 ^ 63) :
  getLeaderGRPCAddress (host_port host port) = inr (host_port host (int64 (port + 1000))) /\
  getLeaderGRPCAddress "" = inl (ErrMsg "no leader currently elected").
Proof.
  split; [|done]. unfold getLeaderGRPCAddress.
  assert (String.eqb (host_port host port) "" = false) as ->.
  { apply String.eqb_neq. intros E. apply (f_equal chars) in E. rewrite chars_host_port in E.
    by destruct (chars host). }
  rewrite SplitHostPort_host_port by done. by rewrite Atoi_Itoa.
Qed.

(** ** Reads and writes at one node *)

Section node_properties.
Context {R : Type} `{Raft R} `{Grpc} `{ProtoLaws} `{!RaftLaws R} `{Murmur3}.

(** C36: Tunable consistency.  A read changes neither the engine nor the disk.  It
    is refused with an error and without a value when the level is [STRONG] and
    the leadership cannot be verified, or [FAST] and the node does not lead; in
    all other cases, unknown levels included, it returns exactly what the engine
    answers. *)
Theorem get_consistency (req : GetRequest) (n : Node R) :
  let co := n_core n in
  let level := get_Consistency req in
  let '((resp, e), n') := KVServer_Get req n in
  c_db (n_core n') = c_db co /\ c_world (n_core n') = c_world co /\
  n_requests n' !! "Get" = Some (default 0 (n_requests n !! "Get") + 1) /\
  (level = GetRequest_STRONG /\ (raft_VerifyLeader (c_raft co)).1 <> None \/
   level = GetRequest_FAST /\ raft_State (c_raft co) <> Leader ->
   resp = None /\ is_Some e) /\
  ((level = GetRequest_STRONG -> (raft_VerifyLeader (c_raft co)).1 = None) ->
   (level = GetRequest_FAST -> raft_State (c_raft co) = Leader) ->
   forall a, StrataGo_Get (c_world co) (c_db co) (get_Key req) = Some a ->
     e = None /\
     exists addr, resp = Some (mkGetResponse (bool_decide (is_Some a)) a addr)).
Proof.
  intros co level. unfold KVServer_Get, check_consistency. fold co. fold level. clearbody level.
  assert (GetRequest_FAST <> GetRequest_STRONG) as HFS by done.
  destruct (Z.eqb_spec level GetRequest_STRONG) as [E1|E1].
  - destruct (raft_VerifyLeader (c_raft co)) as [[e|] r'] eqn:Ev.
    + split; [done|]. split; [done|]. split; [apply lookup_insert_eq|]. split; [eauto|].
      intros Hs _. by specialize (Hs E1).
    + destruct (StrataGo_Get (c_world co) (c_db co) (get_Key req)) as [a|] eqn:Eg;
        (split; [done|]; split; [done|]; split; [apply lookup_insert_eq|]; split;
          [intros [[_ Hx]|[? _]]; [by destruct Hx|congruence]|intros _ _ a' [= <-]; eauto]).
  - destruct (Z.eqb_spec level GetRequest_FAST) as [E2|E2].
    + destruct (bool_decide_reflect (raft_State (c_raft co) = Leader)) as [El|El]; cbn [negb].
      * destruct (StrataGo_Get (c_world co) (c_db co) (get_Key req)) as [a|] eqn:Eg;
          (split; [done|]; split; [done|]; split; [apply lookup_insert_eq|]; split;
            [intros [[? _]|[_ Hx]]; [congruence|by destruct Hx]|intros _ _ a' [= <-]; eauto]).
      * split; [done|]. split; [done|]. split; [apply lookup_insert_eq|]. split; [eauto|].
        intros _ Hs. by specialize (Hs E2).
    + destruct (StrataGo_Get (c_world co) (c_db co) (get_Key req)) as [a|] eqn:Eg;
        (split; [done|]; split; [done|]; split; [apply lookup_insert_eq|]; split;
          [intros [[? _]|[? _]]; congruence|intros _ _ a' [= <-]; eauto]).
Qed.

(** Operations on other keys do not change an answer. *)
Lemma foldl_other_keys k ops a :
  Forall (fun o => (op_entry o).1 <> k) ops -> foldl (op_answer k) a ops = a.
Proof.
  induction ops as [|o ops IH] in a |- *; [done|]. intros [Ho Hops]%Forall_cons. cbn [foldl].
  rewrite IH by done. unfold op_answer. by rewrite decide_False by congruence.
Qed.

Lemma propose_put_committed req (co co' : Core R) r e :
  propose_put req co = ((Some r, e), co') -> putr_Success r = true ->
  exists data before after rs,
    Command_Marshal (mkCommand Command_PUT (put_Key req) (put_Value req)) = inr data /\
    apply_log (before ++ data :: after) (c_db co) (c_world co) = ((rs, c_db co'), c_world co') /\
    rs !! length before = Some None.
Proof.
  unfold propose_put. destruct (Command_Marshal _) as [em|data] eqn:Em; [by intros [= <- _ _]|].
  destruct (raft_Apply data (c_raft co) (c_db co) (c_world co)) as [[er resp] [[r' db'] w']] eqn:Ea.
  destruct er as [er|].
  { by case_match; intros [= <- _ _]. }
  destruct resp as [er|]; [by intros [= <- _ _]|]. intros [= <- _ <-] _. cbn.
  destruct (raft_Apply_ok _ _ _ _ _ _ _ _ Ea) as (before & after & rs & Hl & Hr).
  by exists data, before, after, rs.
Qed.

(** C37: An acknowledged [Put] is committed, applied and visible.  When the leader
    answers with success, the command is in the replicated log, the state machine
    has applied it without an error, and unless another committed operation on the
    key came later, a read at this node returns the value written (an empty value
    as absent). *)
Theorem put_ack_committed (call : string -> Ctx -> PutRequest -> Cluster R -> result PutResponse * Cluster R)
    (i : string) (ctx : Ctx) (req : PutRequest) (c c' : Cluster R) (n : Node R) (r : PutResponse) (e : err)
    (Hn : cl_nodes c !! i = Some n) (Hlead : node_State n = Leader)
    (Hput : KVServer_Put call i ctx req c = ((Some r, e), c')) (Hack : putr_Success r = true) :
  exists data before after rs n',
    Command_Marshal (mkCommand Command_PUT (put_Key req) (put_Value req)) = inr data /\
    cl_nodes c' !! i = Some n' /\
    apply_log (before ++ data :: after) (c_db (n_core n)) (c_world (n_core n)) =
      ((rs, c_db (n_core n')), c_world (n_core n')) /\
    rs !! length before = Some None /\
    forall wal A Ts,
      engine_ok (c_world (n_core n)) (c_db (n_core n)) wal A None Ts ->
      db_closed (c_db (n_core n)) = false -> w_faults (c_world (n_core n)) = [] ->
      log_ok (before ++ data :: after) -> len wal + len (before ++ data :: after) < 2 ^ 64 ->
      Forall (fun o => (op_entry o).1 <> put_Key req) (omap entry_effect after) ->
      clean_lookup Ts (put_Key req) ->
      (KVServer_Get (mkGetRequest (put_Key req) GetRequest_EVENTUAL) n').1 =
        (Some (mkGetResponse (bool_decide (is_Some (wire_bytes (put_Value req))))
                 (wire_bytes (put_Value req)) (node_Leader n')), None).
Proof.
  unfold KVServer_Put in Hput. rewrite Hn in Hput. rewrite bool_decide_eq_true_2 in Hput by done.
  cbn [negb] in Hput. destruct (propose_put req (n_core n)) as [res co] eqn:Ep.
  assert (res = (Some r, e)) as -> by congruence.
  destruct (propose_put_committed req _ _ _ _ Ep Hack) as (data & before & after & rs & Em & Hl & Hr).
  set (n1 := set_core co n). set (n' := if isProxyRequest ctx then n1 else count_request "Put" n1).
  exists data, before, after, rs, n'. split; [done|].
  assert (cl_nodes c' !! i = Some n') as Hn'.
  { injection Hput as <-. unfold n'. destruct (isProxyRequest ctx); cbn.
    - by rewrite lookup_alter_eq, Hn.
    - by rewrite !lookup_alter_eq, Hn. }
  assert (n_core n' = co) as Hco by (unfold n'; by destruct (isProxyRequest ctx)).
  split; [done|]. rewrite Hco. split; [done|]. split; [done|].
  intros wal A Ts He Hc Hf Hok Hlen Hlater Hclean.
  assert (entry_effect data = Some (OpPut (put_Key req) (wire_bytes (put_Value req)))) as Heff.
  { unfold entry_effect. by rewrite (Command_roundtrip _ _ Em). }
  destruct (apply_log_ok None Ts _ _ _ _ _ He Hc Hf Hok Hlen)
    as (db2 & w2 & wal2 & A2 & E2 & He2 & Ha2 & _).
  rewrite Hl in E2. injection E2 as _ <- <-.
  unfold KVServer_Get, check_consistency. cbn [get_Consistency get_Key]. rewrite Hco.
  change (GetRequest_EVENTUAL =? GetRequest_STRONG) with false.
  change (GetRequest_EVENTUAL =? GetRequest_FAST) with false. cbv beta iota zeta.
  rewrite (Get_ok _ _ _ _ _ _ _ He2 Hclean), Ha2, omap_app, foldl_app. cbn [omap list_omap].
  rewrite Heff. cbn [foldl]. rewrite foldl_other_keys by done.
  unfold op_answer. rewrite decide_True by done. cbn. unfold node_Leader. by rewrite Hco.
Qed.
End node_properties.

(** ** Proxying *)

Section proxy.
Context {R : Type} `{Raft R} `{Grpc} `{Proto} `{Murmur3}.

(** the leader [l] is found from [i] in [k] hops *)
Inductive leads (nodes : gmap string (Node R)) : nat -> string -> string -> Prop :=
| leads_here i n : nodes !! i = Some n -> node_State n = Leader -> leads nodes 0 i i
| leads_hop k i j l n :
    nodes !! i = Some n -> node_State n <> Leader ->
    getLeaderGRPCAddress (node_Leader n) = inr j -> leads nodes k j l -> leads nodes (S k) i l.

(** every node's cached connection is open *)
Definition caches_live (nodes : gmap string (Node R)) : Prop :=
  forall i n, nodes !! i = Some n -> cache_live (n_srv n).

(** the same nodes with the same cores *)
Definition same_cores (nodes nodes' : gmap string (Node R)) : Prop :=
  n_core <$> nodes = n_core <$> nodes'.

Lemma same_cores_lookup nodes nodes' i n :
  same_cores nodes nodes' -> nodes !! i = Some n ->
  exists n', nodes' !! i = Some n' /\ n_core n' = n_core n.
Proof.
  intros E Hi. apply (f_equal (lookup i)) in E. rewrite !lookup_fmap, Hi in E.
  destruct (nodes' !! i) as [n'|]; [|done]. exists n'. split; [done|]. cbn in E. congruence.
Qed.

Lemma same_cores_alter nodes i f :
  (forall n : Node R, n_core (f n) = n_core n) -> same_cores nodes (alter f i nodes).
Proof.
  intros Hf. apply map_eq. intros j. rewrite !lookup_fmap. destruct (decide (i = j)) as [->|].
  - rewrite lookup_alter_eq. destruct (nodes !! j); [|done]. cbn. by rewrite Hf.
  - by rewrite lookup_alter_ne.
Qed.

Lemma leads_same_cores nodes nodes' k i l :
  same_cores nodes nodes' -> leads nodes k i l -> leads nodes' k i l.
Proof.
  intros Hs. induction 1 as [i n Hi Hl|k i j l n Hi Hl Ha _ IH].
  - destruct (same_cores_lookup _ _ _ _ Hs Hi) as (n' & Hi' & Hc). eapply leads_here; [exact Hi'|].
    unfold node_State in *. by rewrite Hc.
  - destruct (same_cores_lookup _ _ _ _ Hs Hi) as (n' & Hi' & Hc).
    eapply leads_hop; [exact Hi'| | |done]; unfold node_State, node_Leader in *; by rewrite Hc.
Qed.

Lemma getLeaderClient_live a s j :
  getLeaderGRPCAddress a = inr j -> grpc_NewClient j = None -> cache_live s ->
  exists conn s', getLeaderClient a s = (inr conn, s') /\ kv_conns s' !! conn = Some j /\ cache_live s'.
Proof.
  intros Ha Hj Hl. unfold getLeaderClient.
  destruct (String.eqb_spec a "") as [->|_]; [done|]. rewrite Ha.
  destruct (cached_client s j) as [c|] eqn:Ec.
  - exists c, s. split; [done|]. split; [|done]. unfold cached_client in Ec.
    destruct (String.eqb_spec (kv_leaderAddr s) j) as [<-|]; [|done]. by apply Hl.
  - destruct (dial_client_live s j Hj Hl) as (c & s' & E & Hc). exists c, s'.
    split; [done|]. split; [done|].
    apply (serving_step_live s); [done|]. rewrite <- (f_equal snd E : _ = s'). by apply serving_dial.
Qed.

Lemma received_proxy ctx v : isProxyRequest (received (AppendToOutgoingContext ctx proxy_key v)) = true.
Proof.
  unfold isProxyRequest. cbn. apply existsb_exists. exists (proxy_key, v).
  split; [apply in_app_iff; right; by left|]. apply String.eqb_refl.
Qed.

Lemma propose_put_responds req (co : Core R) :
  exists r, (propose_put req co).1 = (Some r, None).
Proof.
  unfold propose_put. destruct (Command_Marshal _); [by eexists|].
  destruct (raft_Apply _ _ _ _) as [[[e|] [e'|]] [[r' db'] w']]; cbn; repeat case_match; eauto.
Qed.

Lemma propose_delete_responds req (co : Core R) :
  exists r e, (propose_delete req co).1 = (Some r, e).
Proof.
  unfold propose_delete. destruct (Command_Marshal _); [by do 2 eexists|].
  destruct (raft_Apply _ _ _ _) as [[[e|] e'] [[r' db'] w']]; cbn; repeat case_match; eauto.
Qed.

Lemma caches_live_set nodes i s :
  caches_live nodes -> cache_live s -> caches_live (alter (set_srv s) i nodes).
Proof.
  intros Hl Hs j n. rewrite lookup_alter_Some.
  intros [(<- & m & Hm & ->)|[_ Hj]]; [done|by eapply Hl].
Qed.

End proxy.

(** [Put] and [Delete] have the same shape: a node that leads proposes, another
    one forwards.  [failed] is the response when the forwarded call fails. *)
Section write_handler.
Context {R Req Resp : Type} `{Raft R} `{Grpc} (method : string).
Context (propose : Req -> Core R -> (option Resp * err) * Core R).
Context (on_err1 : Node R -> error -> option Resp * err) (failed : Resp).

Definition write_handler (call : string -> Ctx -> Req -> Cluster R -> result Resp * Cluster R)
    (i : string) (ctx : Ctx) (req : Req) (c : Cluster R) : (option Resp * err) * Cluster R :=
  match cl_nodes c !! i with
  | None => ((None, Some Unavailable), c)
  | Some n =>
      let '(res, c') :=
        if negb (bool_decide (node_State n = Leader)) then
          forward call i n ctx req (on_err1 n) (fun e => (Some failed, Some e)) c
        else
          let '(res, co) := propose req (n_core n) in (res, on_node i (set_core co) c) in
      (res, if isProxyRequest ctx then c' else on_node i (count_request method) c')
  end.

Fixpoint write_rpc (hops : nat) : string -> Ctx -> Req -> Cluster R -> result Resp * Cluster R :=
  match hops with
  | O => fun _ _ _ c => (inl DeadlineExceeded, c)
  | S hops' => rpc (write_handler (write_rpc hops'))
  end.

(** what a node that forwards makes of the answer it gets *)
Definition relayed (res : option Resp * err) : option Resp * err :=
  match res with
  | (Some r, None) => (Some r, None)
  | (_, Some e) => (Some failed, Some e)
  | (None, None) => (Some failed, Some Unavailable)
  end.

Lemma relayed_twice res : relayed (relayed res) = relayed res.
Proof. by destruct res as [[r|] [e|]]. Qed.

(** what a write that entered at [i] does to node [a], when [l] leads and its core
    becomes [co] *)
Definition after_write (ctx : Ctx) (i l : string) (co : Core R) (a : string) (n n' : Node R) : Prop :=
  n_core n' = (if decide (a = l) then co else n_core n) /\
  n_requests n' = (if decide (a = i /\ isProxyRequest ctx = false)
                   then n_requests (count_request method n) else n_requests n).

Lemma write_at_leader hops i ctx req (c : Cluster R) n :
  cl_nodes c !! i = Some n -> node_State n = Leader ->
  exists c', write_handler (write_rpc hops) i ctx req c = ((propose req (n_core n)).1, c') /\
    forall a m, cl_nodes c !! a = Some m ->
      exists m', cl_nodes c' !! a = Some m' /\ after_write ctx i i (propose req (n_core n)).2 a m m'.
Proof.
  intros Hi Hl. unfold write_handler. rewrite Hi, bool_decide_eq_true_2 by done. cbn [negb].
  destruct (propose req (n_core n)) as [res co]. cbn [fst snd].
  eexists. split; [reflexivity|].
  intros a m Ha. unfold after_write. destruct (decide (a = i)) as [->|Hne].
  - replace m with n in * by congruence. clear Ha. destruct (isProxyRequest ctx); cbn.
    + rewrite lookup_alter_eq, Hi. eexists. split; [done|]. split; [done|].
      rewrite decide_False; [done|]. by intros [_ ?].
    + rewrite !lookup_alter_eq, Hi. eexists. split; [done|]. split; [done|]. by rewrite decide_True.
  - exists m. split; [destruct (isProxyRequest ctx); cbn; by rewrite ?lookup_alter_ne|].
    split; [done|]. rewrite decide_False; [done|]. by intros [? _].
Qed.

Lemma set_srv_lookup s i (c : Cluster R) a m :
  cl_nodes c !! a = Some m ->
  exists m1, cl_nodes (on_node i (set_srv s) c) !! a = Some m1 /\
    n_core m1 = n_core m /\ n_requests m1 = n_requests m.
Proof.
  intros Ha. cbn. destruct (decide (i = a)) as [->|].
  - rewrite lookup_alter_eq, Ha. by eexists.
  - rewrite lookup_alter_ne by done. by exists m.
Qed.

Lemma leads_start (nodes : gmap string (Node R)) k i l : leads nodes k i l -> is_Some (nodes !! i).
Proof. by destruct 1; eauto. Qed.

(** the node's last act: the request is counted unless it was proxied to it *)
Definition counted (ctx : Ctx) (i : string) (c : Cluster R) : Cluster R :=
  if isProxyRequest ctx then c else on_node i (count_request method) c.

(** a node drops its connection when the forwarded call failed *)
Definition dropped (i : string) (res : option Resp * err) (c : Cluster R) : Cluster R :=
  match res with
  | (Some _, None) => c
  | _ => on_node i (fun n => set_srv (invalidateLeader (n_srv n)) n) c
  end.

(** One hop: the node forwards the request, and passes the response on or drops
    the connection. *)
Lemma write_hop hops i j ctx req (c c2 : Cluster R) n s conn res :
  cl_nodes c !! i = Some n -> node_State n <> Leader -> cl_net c = [] ->
  getLeaderClient (node_Leader n) (n_srv n) = (inr conn, s) -> kv_conns s !! conn = Some j ->
  is_Some (cl_nodes c !! j) ->
  write_handler (write_rpc hops) j (received (AppendToOutgoingContext ctx proxy_key "true")) req
    (on_node i (set_srv s) c) = (res, c2) ->
  write_handler (write_rpc (S hops)) i ctx req c =
    (relayed res, counted ctx i (dropped i res c2)).
Proof.
  intros Hi Hl Hnet Ec Hj [nj Hnj] Ein. unfold write_handler at 1.
  rewrite Hi, bool_decide_eq_false_2 by done. cbn [negb]. unfold forward. rewrite Ec.
  unfold call_conn. cbn [on_node cl_nodes]. rewrite lookup_alter_eq, Hi.
  cbn [fmap option_fmap option_map mbind option_bind set_srv n_srv]. rewrite Hj.
  cbn [write_rpc]. unfold rpc, next_net. cbn [on_node cl_net]. rewrite Hnet.
  destruct (set_srv_lookup s i c j nj Hnj) as (m1 & Hm1 & _). cbn [on_node cl_nodes] in Hm1.
  cbn [on_node cl_nodes]. rewrite Hm1. unfold on_node in Ein. rewrite Hnet in Ein.
  unfold on_node at 1. rewrite Hnet, Ein. destruct res as [[r|] [e|]]; done.
Qed.

Lemma dropped_lookup i res (c : Cluster R) a m :
  cl_nodes c !! a = Some m ->
  exists m', cl_nodes (dropped i res c) !! a = Some m' /\ n_core m' = n_core m /\
    n_requests m' = n_requests m.
Proof.
  intros Ha. assert (exists m', cl_nodes (on_node i (fun n => set_srv (invalidateLeader (n_srv n)) n) c)
    !! a = Some m' /\ n_core m' = n_core m /\ n_requests m' = n_requests m) as Hd.
  { cbn. destruct (decide (i = a)) as [->|].
    - rewrite lookup_alter_eq, Ha. by eexists.
    - rewrite lookup_alter_ne by done. by exists m. }
  destruct res as [[r|] [e|]]; cbn [dropped]; [exact Hd|by exists m|exact Hd|exact Hd].
Qed.

Lemma counted_lookup ctx i l co (c : Cluster R) a m m2 :
  cl_nodes c !! a = Some m2 -> n_core m2 = (if decide (a = l) then co else n_core m) ->
  n_requests m2 = n_requests m ->
  exists m', cl_nodes (counted ctx i c) !! a = Some m' /\ after_write ctx i l co a m m'.
Proof.
  intros Ha Hco Hr. unfold counted, after_write. destruct (isProxyRequest ctx) eqn:Ep.
  - exists m2. split; [done|]. split; [done|]. rewrite decide_False; [done|]. by intros [_ ?].
  - cbn. destruct (decide (a = i)) as [->|Hne].
    + rewrite lookup_alter_eq, Ha. eexists. split; [done|]. split; [done|]. cbn.
      rewrite decide_True by done. by rewrite Hr.
    + rewrite lookup_alter_ne by done. exists m2. split; [done|]. split; [done|].
      rewrite decide_False; [done|]. by intros [? _].
Qed.

(** the answer after [k] hops *)
Definition answered (k : nat) (res : option Resp * err) : option Resp * err :=
  match k with O => res | S _ => relayed res end.

Lemma proxied_write_ok req k : forall hops i l ctx (c : Cluster R) L,
  leads (cl_nodes c) k i l -> (k <= hops)%nat -> caches_live (cl_nodes c) ->
  (forall a, grpc_NewClient a = None) -> cl_net c = [] -> cl_nodes c !! l = Some L ->
  exists c', write_handler (write_rpc hops) i ctx req c =
      (answered k (propose req (n_core L)).1, c') /\
    forall a m, cl_nodes c !! a = Some m ->
      exists m', cl_nodes c' !! a = Some m' /\
        after_write ctx i l (propose req (n_core L)).2 a m m'.
Proof.
  induction k as [|k IH]; intros hops i l ctx c L Hk Hhops Hlive Hdial Hnet HL.
  - inversion Hk as [i' n Hi Hlead|]; subst. assert (L = n) as -> by congruence.
    destruct (write_at_leader hops l ctx req c n Hi Hlead) as (c' & E & Ha). eauto.
  - inversion Hk as [|k' i' j l' n Hi Hlead Haddr Hk']; subst.
    destruct (getLeaderClient_live _ (n_srv n) j Haddr (Hdial j) (Hlive i n Hi))
      as (conn & s & Ec & Hconn & Hs).
    destruct hops as [|hops]; [lia|]. set (c1 := on_node i (set_srv s) c).
    assert (same_cores (cl_nodes c) (cl_nodes c1)) as Hsame by by apply same_cores_alter.
    destruct (same_cores_lookup _ _ _ _ Hsame HL) as (L1 & HL1 & HcL).
    destruct (IH hops j l (received (AppendToOutgoingContext ctx proxy_key "true")) c1 L1)
      as (c2 & E & Hafter); [by eapply leads_same_cores|lia|by apply caches_live_set|done..|].
    rewrite HcL in E, Hafter. eexists. split.
    { rewrite (write_hop hops i j ctx req c c2 n s conn _ Hi Hlead Hnet Ec Hconn
        (leads_start _ _ _ _ Hk') E). f_equal. destruct k; [done|apply relayed_twice]. }
    intros a m Ha. destruct (set_srv_lookup s i c a m Ha) as (m1 & Hm1 & Hcm & Hrm).
    destruct (Hafter a m1 Hm1) as (m2 & Hm2 & Hco & Hreq).
    rewrite received_proxy in Hreq. rewrite decide_False in Hreq by by intros [_ ?].
    rewrite Hcm in Hco. rewrite Hrm in Hreq.
    destruct (dropped_lookup i (answered k (propose req (n_core L)).1) c2 a m2 Hm2)
      as (m3 & Hm3 & Hc3 & Hr3).
    apply (counted_lookup ctx i l _ _ a m m3); [done|congruence|congruence].
Qed.

(** Two nodes that take each other for the leader pass a request back and forth. *)
Lemma write_loop req hops : forall (i j : string) (ctx : Ctx) (c : Cluster R) (n m : Node R),
  cl_nodes c !! i = Some n -> cl_nodes c !! j = Some m ->
  node_State n <> Leader -> node_State m <> Leader ->
  getLeaderGRPCAddress (node_Leader n) = inr j -> getLeaderGRPCAddress (node_Leader m) = inr i ->
  caches_live (cl_nodes c) -> (forall a, grpc_NewClient a = None) -> cl_net c = [] ->
  exists e c', write_handler (write_rpc hops) i ctx req c = ((Some failed, Some e), c') /\
    same_cores (cl_nodes c) (cl_nodes c').
Proof.
  assert (forall i ctx e (c' : Cluster R),
    same_cores (cl_nodes c') (cl_nodes (counted ctx i (dropped i (Some failed, Some e) c')))) as Hend.
  { intros i ctx e c'. unfold counted. cbn [dropped].
    destruct (isProxyRequest ctx); [by apply same_cores_alter|].
    transitivity (n_core <$> cl_nodes (dropped i (Some failed, Some e) c')); by apply same_cores_alter. }
  induction hops as [|hops IH]; intros i j ctx c n m Hi Hj Hn Hm Han Ham Hlive Hdial Hnet;
    destruct (getLeaderClient_live _ (n_srv n) j Han (Hdial j) (Hlive i n Hi))
      as (conn & s & Ec & Hconn & Hs); set (c1 := on_node i (set_srv s) c);
    assert (same_cores (cl_nodes c) (cl_nodes c1)) as Hsame by by apply same_cores_alter.
  - unfold write_handler. rewrite Hi, bool_decide_eq_false_2 by done. cbn [negb].
    unfold forward. rewrite Ec. unfold call_conn. cbn [on_node cl_nodes].
    rewrite lookup_alter_eq, Hi.
    cbn [fmap option_fmap option_map mbind option_bind set_srv n_srv]. rewrite Hconn.
    cbn [write_rpc]. eexists _, _. split; [reflexivity|].
    transitivity (n_core <$> cl_nodes c1); [exact Hsame|apply (Hend i ctx DeadlineExceeded)].
  - destruct (same_cores_lookup _ _ _ _ Hsame Hi) as (n1 & Hn1 & Hcn).
    destruct (same_cores_lookup _ _ _ _ Hsame Hj) as (m1 & Hm1 & Hcm).
    destruct (IH j i (received (AppendToOutgoingContext ctx proxy_key "true")) c1 m1 n1)
      as (e & c2 & E & Hsame2); try done; unfold node_State, node_Leader in *;
      try (by rewrite Hcm); try (by rewrite Hcn); [by apply caches_live_set|].
    exists e. eexists.
    split; [exact (write_hop hops i j ctx req c c2 n s conn _ Hi Hn Hnet Ec Hconn (ex_intro _ _ Hj) E)|].
    transitivity (n_core <$> cl_nodes c1); [exact Hsame|].
    transitivity (n_core <$> cl_nodes c2); [exact Hsame2|apply Hend].
Qed.
End write_handler.

Section proxied.
Context {R : Type} `{Raft R} `{Grpc} `{Proto} `{Murmur3}.

(** the answers to a forwarded request that failed *)
Definition put_failed : PutResponse := mkPutResponse false "leader unavailable, connection reset".
Definition delete_failed : DeleteResponse := mkDeleteResponse false "".

(** the answers when there is no connection to a leader *)
Definition put_no_client (_ : Node R) (e : error) : option PutResponse * err :=
  (Some (mkPutResponse false (err_Error e)), None).
Definition delete_no_client (n : Node R) (e : error) : option DeleteResponse * err :=
  (Some (mkDeleteResponse false (node_Leader n)), Some e).

Lemma rpc_Put_write hops :
  rpc_Put (R := R) hops = write_rpc "Put" propose_put put_no_client put_failed hops.
Proof. induction hops as [|hops IH]; [done|]. cbn [rpc_Put write_rpc]. by rewrite IH. Qed.

Lemma rpc_Delete_write hops :
  rpc_Delete (R := R) hops =
  write_rpc "Delete" propose_delete delete_no_client delete_failed hops.
Proof. induction hops as [|hops IH]; [done|]. cbn [rpc_Delete write_rpc]. by rewrite IH. Qed.

(** C38: A write sent to a node that can reach the leader has the leader's effect.
    When following the nodes' ideas of the leader ends at the leader [l] after [k]
    hops, the network delivers every call, every dial succeeds, every node's cached
    connection is open ([failed_dial_keeps_closed_connection] shows one that is not),
    and the deadline leaves room for [k] hops, then only the leader's core has
    changed, by that one proposal, and the request has been counted once, at the node
    the client called, unless it came in as a proxied one.  A [Put] is answered with
    the leader's response, and so is a [Delete] that has no error; an error of a
    forwarded [Delete] comes with a response of its own, without the leader's
    address. *)
Theorem proxied_writes_reach_leader (k hops : nat) (i l : string) (ctx : Ctx) (put : PutRequest)
    (del : DeleteRequest) (c : Cluster R) (L : Node R)
    (Hleads : leads (cl_nodes c) k i l) (Hhops : (k <= hops)%nat)
    (Hlive : caches_live (cl_nodes c)) (Hdial : forall a, grpc_NewClient a = None)
    (Hnet : cl_net c = []) (HL : cl_nodes c !! l = Some L) :
  let effect method co c' := forall a m, cl_nodes c !! a = Some m ->
      exists m', cl_nodes c' !! a = Some m' /\
        n_core m' = (if decide (a = l) then co else n_core m) /\
        n_requests m' = (if decide (a = i /\ isProxyRequest ctx = false)
                         then n_requests (count_request method m) else n_requests m) in
  (exists c', KVServer_Put (rpc_Put hops) i ctx put c = ((propose_put put (n_core L)).1, c') /\
     effect "Put"%string (propose_put put (n_core L)).2 c') /\
  (exists c', KVServer_Delete (rpc_Delete hops) i ctx del c =
       (match k, (propose_delete del (n_core L)).1 with
        | S _, (_, Some e) => (Some (mkDeleteResponse false ""), Some e)
        | _, res => res
        end, c') /\
     effect "Delete"%string (propose_delete del (n_core L)).2 c').
Proof.
  intros effect. split.
  - destruct (proxied_write_ok "Put" propose_put put_no_client put_failed put k hops i l ctx c L Hleads Hhops
      Hlive Hdial Hnet HL) as (c' & E & Ha). exists c'. rewrite rpc_Put_write. split; [|exact Ha].
    etrans; [exact E|]. f_equal. destruct (propose_put_responds put (n_core L)) as [r Er].
    rewrite Er. by destruct k.
  - destruct (proxied_write_ok "Delete" propose_delete delete_no_client delete_failed del k hops i l ctx c L Hleads
      Hhops Hlive Hdial Hnet HL) as (c' & E & Ha). exists c'. rewrite rpc_Delete_write.
    split; [|exact Ha]. etrans; [exact E|]. f_equal.
    destruct (propose_delete_responds del (n_core L)) as (r & e & Er). rewrite Er.
    by destruct k, e.
Qed.

(** No number of hops commits a request between two such nodes. *)
Theorem proxy_loop_never_commits (req : PutRequest) (hops : nat)
    (i j : string) (ctx : Ctx) (c : Cluster R) (n m : Node R) :
  cl_nodes c !! i = Some n -> cl_nodes c !! j = Some m ->
  node_State n <> Leader -> node_State m <> Leader ->
  getLeaderGRPCAddress (node_Leader n) = inr j -> getLeaderGRPCAddress (node_Leader m) = inr i ->
  caches_live (cl_nodes c) -> (forall a, grpc_NewClient a = None) -> cl_net c = [] ->
  exists e c', KVServer_Put (rpc_Put hops) i ctx req c =
      ((Some (mkPutResponse false "leader unavailable, connection reset"), Some e), c') /\
    same_cores (cl_nodes c) (cl_nodes c').
Proof. rewrite rpc_Put_write. exact (write_loop "Put" propose_put put_no_client put_failed req hops i j ctx c n m). Qed.
End proxied.

(** ** A concrete Raft, divergences and witnesses

    One node that is its own quorum: what the leader proposes is committed and
    applied at once. *)

Record single := mkSingle { sg_state : RaftState; sg_leader : string }.

Section single_node.
Context `{Proto} `{Murmur3}.

Definition not_leader : error := ErrMsg "node is not the leader".

#[export] Instance single_raft : Raft single := {|
  raft_State := sg_state;
  raft_Leader := sg_leader;
  raft_VerifyLeader r :=
    (if bool_decide (sg_state r = Leader) then None else Some not_leader, r);
  raft_Apply data r db w :=
    if bool_decide (sg_state r = Leader) then
      let '((resp, db'), w') := StrataFSM_Apply db data w in ((None, resp), (r, db', w'))
    else ((Some not_leader, None), (r, db, w));
  raft_ErrNotLeader := not_leader
|}.

#[export] Instance single_raft_laws : RaftLaws single.
Proof.
  split. intros data r db w resp r' db' w'. cbn. case_bool_decide; [|done].
  destruct (StrataFSM_Apply db data w) as [[rs db1] w1] eqn:E. intros [= <- _ <- <-].
  exists [], [], [rs]. split; [|done]. cbn [app apply_log]. unfold mbind, IO_bind. by rewrite E.
Qed.
End single_node.

(** every dial succeeds *)
Definition good_grpc : Grpc := {| grpc_NewClient _ := None |}.

Section divergences.
#[local] Existing Instance fnv.
#[local] Existing Instance plain_runtime.
#[local] Existing Instance plain_proto.
#[local] Existing Instance good_grpc.

(** a leader whose engine was opened on an empty disk, with the outcomes of its
    next system calls *)
Definition leader_with (faults : list outcome) : option (Node single) :=
  match session [OpPut [x61] (Some [x01])] empty_disk with
  | (inr db, w) =>
      Some (mkNode (mkCore (mkSingle Leader "127.0.0.1:17001") db (set_faults faults w)) NewKVServer ∅)
  | (inl _, _) => None
  end.

Definition plain_ctx : Ctx := mkCtx [] [].

(** One leader, when the log of its engine cannot be written: the responses to a
    [Delete] and to a [Put], and what a read finds after the [Delete]. *)
Definition delete_on_full_disk : option (option DeleteResponse * option PutResponse * option GetResponse) :=
  n ← leader_with [Fails 0];
  let c := mkCluster {["127.0.0.1:18001" := n]} [] in
  let '((d, _), c1) := KVServer_Delete (rpc_Delete 1) "127.0.0.1:18001" plain_ctx (mkDeleteRequest [x61]) c in
  let '((p, _), _) := KVServer_Put (rpc_Put 1) "127.0.0.1:18001" plain_ctx (mkPutRequest [x61] (Some [x02])) c in
  n1 ← cl_nodes c1 !! "127.0.0.1:18001";
  Some (d, p, (KVServer_Get (mkGetRequest [x61] GetRequest_STRONG) n1).1.1).

(** [Delete] does not look at the response of the state machine: when the engine
    fails to log the tombstone, the client is told that the key was deleted, and
    the key is still there; [Put] reports the same failure. *)
Theorem delete_acks_failed_apply :
  delete_on_full_disk =
    Some (Some (mkDeleteResponse true ""),
          Some (mkPutResponse false "input/output error"),
          Some (mkGetResponse true (Some [x01]) "127.0.0.1:17001")).
Proof. vm_equal. Qed.

(** The brackets of an IPv6 host are lost, and the resulting address is invalid. *)
Theorem ipv6_leader_unreachable :
  getLeaderGRPCAddress "[::1]:17001" = inr "::1:18001"%string /\
  SplitHostPort "::1:18001" = inl tooManyColons.
Proof. split; vm_equal. Qed.
End divergences.

(** After a dial that fails, the connection that was closed for it stays in the
    cache, and is handed out again when the old leader returns. *)
Theorem failed_dial_keeps_closed_connection :
  let bad_grpc := {| grpc_NewClient a := if String.eqb a "b:1" then Some (ErrMsg "invalid target") else None |} in
  let s1 := (dial_client (H := good_grpc) NewKVServer "a:1").2 in
  let s2 := (dial_client (H := bad_grpc) s1 "b:1").2 in
  cached_client s2 "a:1" = Some 0%nat /\ kv_conns s2 !! 0%nat = None.
Proof. split; vm_equal. Qed.

Section witnesses.
#[local] Existing Instance fnv.
#[local] Existing Instance plain_runtime.
#[local] Existing Instance plain_proto.
#[local] Existing Instance plain_proto_laws.
#[local] Existing Instance good_grpc.

Lemma leader_grpc_address_witness :
  getLeaderGRPCAddress (host_port "node1" 17001) = inr (host_port "node1" 18001) /\
  getLeaderGRPCAddress "" = inl (ErrMsg "no leader currently elected").
Proof.
  apply (leader_grpc_address "node1" 17001); [|lia].
  split_and!; apply (bool_decide_unpack _); vm_compute; exact I.
Defined.

(** three nodes: the first takes the second for the leader, the third leads *)
Definition node_at (db : StrataGo) (w : World) (st : RaftState) (leader : string) : Node single :=
  mkNode (mkCore (mkSingle st leader) db w) NewKVServer ∅.

Definition cluster3 (db : StrataGo) (w : World) : Cluster single :=
  mkCluster {["a:18001" := node_at db w Follower "b:17001"; "b:18001" := node_at db w Candidate "c:17001";
              "c:18001" := node_at db w Leader "c:17001"]} [].

Definition put1 : PutRequest := mkPutRequest [x61] (Some [x09]).

Definition del1 : DeleteRequest := mkDeleteRequest [x78].

Lemma proxied_writes_reach_leader_witness :
  exists db w, session ops2 empty_disk = (inr db, w) /\
  let L := node_at db w Leader "c:17001" in
  let effect method co c' := forall a m, cl_nodes (cluster3 db w) !! a = Some m ->
      exists m', cl_nodes c' !! a = Some m' /\
        n_core m' = (if decide (a = "c:18001"%string) then co else n_core m) /\
        n_requests m' = (if decide (a = "a:18001"%string /\ isProxyRequest plain_ctx = false)
                         then n_requests (count_request method m) else n_requests m) in
  (exists c', KVServer_Put (rpc_Put 2) "a:18001" plain_ctx put1 (cluster3 db w) =
       ((propose_put put1 (n_core L)).1, c') /\ effect "Put"%string (propose_put put1 (n_core L)).2 c') /\
  (exists c', KVServer_Delete (rpc_Delete 2) "a:18001" plain_ctx del1 (cluster3 db w) =
       (match (propose_delete del1 (n_core L)).1 with
        | (_, Some e) => (Some (mkDeleteResponse false ""), Some e)
        | res => res
        end, c') /\
     effect "Delete"%string (propose_delete del1 (n_core L)).2 c').
Proof.
  destruct (session_ok empty_disk [] [] [] ops2 empty_disk_ok ltac:(repeat constructor)
    ltac:(reflexivity)) as (db & w & A & E & _). exists db, w. split; [exact E|]. clear E.
  apply (proxied_writes_reach_leader 2 2 "a:18001" "c:18001" plain_ctx put1 del1 (cluster3 db w)
    (node_at db w Leader "c:17001")); [|lia| |reflexivity|reflexivity|reflexivity].
  - eapply leads_hop; [reflexivity|discriminate|vm_compute; reflexivity|].
    eapply leads_hop; [reflexivity|discriminate|vm_compute; reflexivity|].
    eapply leads_here; reflexivity.
  - intros i n. cbn [cluster3 cl_nodes]. rewrite !lookup_insert_Some, lookup_singleton_Some.
    intros [[_ <-]|[_ [[_ <-]|[_ [_ <-]]]]]; intros c Hc; discriminate.
Defined.

Lemma proposal2 db w :
  session ops2 empty_disk = (inr db, w) ->
  (propose_put put1 (mkCore (mkSingle Leader "c:17001") db w)).1 =
    (Some (mkPutResponse true "Key saved successfully"), None).
Proof.
  intros E. assert (match session ops2 empty_disk with
                    | (inr db, w) => (propose_put put1 (mkCore (mkSingle Leader "c:17001") db w)).1
                    | (inl _, _) => (None, None)
                    end = (Some (mkPutResponse true "Key saved successfully"), None)) as Hp by vm_equal.
  by rewrite E in Hp.
Qed.

Lemma put_ack_committed_witness :
  exists db w r c', session ops2 empty_disk = (inr db, w) /\
  KVServer_Put (rpc_Put 0) "c:18001" plain_ctx put1 (cluster3 db w) = ((Some r, None), c') /\
  exists data before after rs n',
    Command_Marshal (mkCommand Command_PUT [x61] (Some [x09])) = inr data /\
    cl_nodes c' !! "c:18001"%string = Some n' /\
    apply_log (before ++ data :: after) db w = ((rs, c_db (n_core n')), c_world (n_core n')) /\
    rs !! length before = Some None /\
    forall wal A Ts,
      engine_ok w db wal A None Ts -> db_closed db = false -> w_faults w = [] ->
      log_ok (before ++ data :: after) -> len wal + len (before ++ data :: after) < 2 ^ 64 ->
      Forall (fun o => (op_entry o).1 <> [x61]) (omap entry_effect after) ->
      clean_lookup Ts [x61] ->
      (KVServer_Get (mkGetRequest [x61] GetRequest_EVENTUAL) n').1 =
        (Some (mkGetResponse true (Some [x09]) (node_Leader n')), None).
Proof.
  destruct (session_ok empty_disk [] [] [] ops2 empty_disk_ok ltac:(repeat constructor)
    ltac:(reflexivity)) as (db & w & A & E & _).
  pose proof (proposal2 db w E) as E2. set (r := mkPutResponse true "Key saved successfully").
  assert (exists c', KVServer_Put (rpc_Put 0) "c:18001" plain_ctx put1 (cluster3 db w) =
    ((Some r, None), c')) as [c' Ep].
  { rewrite rpc_Put_write. destruct (write_at_leader "Put" propose_put put_no_client put_failed 0
      "c:18001" plain_ctx put1 (cluster3 db w) (node_at db w Leader "c:17001")
      ltac:(reflexivity) ltac:(reflexivity)) as (c' & Ep & _).
    exists c'. etrans; [exact Ep|]. cbn [node_at n_core]. by rewrite E2. }
  assert (putr_Success r = true) as Hack by done.
  exists db, w, r, c'. split; [exact E|]. split; [exact Ep|]. clear E.
  exact (put_ack_committed (rpc_Put 0) "c:18001" plain_ctx put1 (cluster3 db w) c'
    (node_at db w Leader "c:17001") r None ltac:(reflexivity) ltac:(reflexivity) Ep Hack).
Defined.

Lemma leader_cache_invariant_witness :
  let s := invalidateLeader (dial_client (dial_client NewKVServer "a:1").2 "b:1").2 in
  (size (kv_conns s) <= 1)%nat /\
  exists c s', dial_client s "b:1" = (inr c, s') /\ kv_conns s' !! c = Some "b:1"%string.
Proof.
  intros s. destruct (leader_cache_invariant s) as [H1 H2]. split.
  - apply H1. eapply rtc_l; [apply (cache_dial _ "a:1")|]. eapply rtc_l; [apply (cache_dial _ "b:1")|].
    eapply rtc_l; [apply cache_invalidate|]. apply rtc_refl.
  - apply H2; [|reflexivity]. eapply rtc_l; [apply (serving_dial _ "a:1"); reflexivity|].
    eapply rtc_l; [apply (serving_dial _ "b:1"); reflexivity|].
    eapply rtc_l; [apply serving_invalidate|]. apply rtc_refl.
Defined.
End witnesses.
