(* ===== verification/System.v ===== *)
(** * The whole system: servers over a cluster of engines

    [Server] is proved against the interface [Raft], and [Cluster] says what nodes
    do with a committed log.  Here they meet: [RaftOnCluster] states what the
    library documents of a proposal whose future has no error, in terms of the steps
    of the cluster.  The theorem follows an acknowledged [Put] from the handler of
    the leader to every node that has applied its entry, through all later steps of
    the cluster.  An instance in which proposals are committed at once shows that
    the interface can be met. *)
From stdpp Require Import base gmap sets list strings numbers relations.
From Stdlib Require Import ZArith Lia Strings.Byte.
From S2P Require Import Prelude SkipList Disk Wal Bloom GoFmt Sst Reader Engine Recovery Flush.
From S2P Require Import GoHeap Merge Compaction Provenance Concurrent Durable Interrupted.
From S2P Require Import Survival Restart Lifecycle Quiet GoNet Pb Fsm Halt Server Cluster.
Open Scope Z_scope.

(** ** Raft on a node of the cluster *)

Section raft.
Context `{Murmur3} `{ProtoLaws} {S : Type} `{SinkLaws S} (rt : string -> Runtime).

(** From [c] on, [data] was committed and the node [i] applied it, with the response
    [resp]; the cluster has got to [c'], with the engine [db'] and the disk [w'] on
    the node.  Other steps, on this node and on others, happen before and after. *)
Definition commits (c : cluster) (i : string) (data : bytes) (resp : err) (db' : StrataGo)
    (w' : World) (c' : cluster) : Prop :=
  exists c1 w db pc cpc n p t db1 w1,
    rtc (gstep (S := S) rt) c c1 /\
    cl_nodes c1 !! i = Some (mkReplica (Up (mkCsys (mkSys w db pc) cpc)) n p t) /\
    (length (cl_log c) <= n)%nat /\ cl_log c1 !! n = Some data /\
    wal_sequenceNumber (db_wal db) + 1 < 2 ^ 64 /\
    StrataFSM_Apply db data w = ((resp, db1), w1) /\
    rtc (gstep (S := S) rt)
      (mkCluster (cl_log c1)
         (<[i := mkReplica (Up (mkCsys (mkSys w1 db1 pc) cpc)) (Datatypes.S n) p t]> (cl_nodes c1))) c' /\
    exists s' n' p' t', cl_nodes c' !! i = Some (mkReplica (Up s') n' p' t') /\
      s_db (c_sys s') = db' /\ s_world (c_sys s') = w'.

(** [Apply] of the library: a future without an error means that the entry was
    committed to the log and applied by the local state machine, whose result is
    the response.  [view] is the cluster, [self] the node's name. *)
Class RaftOnCluster (R : Type) `{Raft R} (view : R -> cluster) (self : R -> string) : Prop := {
  roc_Apply data r db w resp r' db' w' s n p t :
    reachable (S := S) rt (view r) ->
    cl_nodes (view r) !! self r = Some (mkReplica (Up s) n p t) ->
    s_db (c_sys s) = db -> s_world (c_sys s) = w ->
    raft_Apply data r db w = ((None, resp), (r', db', w')) ->
    self r' = self r /\ commits (view r) (self r) data resp db' w' (view r')
}.
End raft.

(** ** What the log says of the last write *)

Section last_write.
Context `{Proto}.

(** Behind an entry about a key, with no later entry about it. *)
Lemma state_after_write log d o later n :
  entry_effect d = Some o ->
  Forall (fun o' => (op_entry o').1 <> (op_entry o).1) (omap entry_effect later) -> (length log < n)%nat ->
  let log' := (log ++ [d]) ++ later in
  touched log' n (op_entry o).1 /\ state_at log' n (op_entry o).1 = (op_entry o).2.
Proof.
  intros Hd Hlater Hn log'.
  assert (log_ops log' n = omap entry_effect log ++ o :: omap entry_effect (take (n - S (length log)) later)) as E.
  { unfold log_ops, log'. rewrite take_app_ge by (rewrite length_app; cbn; lia). rewrite length_app.
    replace (n - (length log + length [d]))%nat with (n - S (length log))%nat by (cbn; lia).
    rewrite !omap_app, <- app_assoc. f_equal. cbn. by rewrite Hd. }
  split.
  - exists o. split; [|done]. rewrite E. apply elem_of_app. right. by left.
  - unfold state_at. rewrite E, foldl_app. cbn [foldl]. rewrite foldl_other.
    + unfold op_answer. by rewrite decide_True.
    + intros (o' & Hk & Ho)%list_elem_of_fmap. apply list_elem_of_omap in Ho as (x & Hx & Ex).
      rewrite Forall_forall in Hlater. apply (Hlater o'); [|done]. apply list_elem_of_omap.
      exists x. split; [|done]. by apply (subseteq_take (n - S (length log))).
Qed.
End last_write.

Section system.
Context `{Murmur3} `{ProtoLaws} `{Grpc} {S : Type} `{SinkLaws S} (rt : string -> Runtime).

(** The log only grows. *)
Lemma gsteps_log c c' : rtc (gstep (S := S) rt) c c' -> exists later, cl_log c' = cl_log c ++ later.
Proof.
  induction 1 as [c|c c1 c' Hst _ [l IH]]; [exists []; by rewrite app_nil_r|].
  destruct Hst as [c d ? ?|c i w ? ?|c i r r' ? ?]; cbn [cl_log] in IH.
  - exists ([d] ++ l). by rewrite IH, <- app_assoc.
  - by exists l.
  - by exists l.
Qed.

(** A proposal that was committed has its place in the log, behind the entries that
    were there. *)
Lemma commits_log c i data resp db' w' c' :
  commits (S := S) rt c i data resp db' w' c' ->
  rtc (gstep (S := S) rt) c c' /\
  exists before after, cl_log c' = cl_log c ++ before ++ data :: after.
Proof.
  intros (c1 & w & db & pc & cpc & n & p & t & db1 & w1 & Hr1 & Hi & Hn & Hd & Hq & E & Hr2 & _). split.
  - etransitivity; [exact Hr1|]. eapply rtc_l; [|exact Hr2].
    eapply g_node; [exact Hi|]. by eapply r_apply.
  - destruct (gsteps_log _ _ Hr1) as [l1 E1], (gsteps_log _ _ Hr2) as [l2 E2]. cbn [cl_log] in E2.
    rewrite E1 in E2, Hd. rewrite lookup_app_r in Hd by done.
    exists (take (n - length (cl_log c)) l1), (drop (Datatypes.S (n - length (cl_log c))) l1 ++ l2).
    rewrite E2, <- app_assoc. f_equal. rewrite app_comm_cons, app_assoc. f_equal.
    by rewrite <- (take_drop_middle l1 _ _ Hd) at 1.
Qed.

(** From then on it is answered by every node that has applied it, until a later
    entry is about its key. *)
Lemma committed_survives c i data resp db' w' c' o :
  reachable (S := S) rt c -> commits (S := S) rt c i data resp db' w' c' -> entry_effect data = Some o ->
  exists before after, rtc (gstep (S := S) rt) c c' /\ cl_log c' = cl_log c ++ before ++ data :: after /\
    forall c2, rtc (gstep (S := S) rt) c' c2 ->
      exists later, cl_log c2 = cl_log c ++ before ++ data :: later /\
        (Forall (fun o' => (op_entry o').1 <> (op_entry o).1) (omap entry_effect later) ->
         forall j s2 n2 p2 t2,
           cl_nodes c2 !! j = Some (mkReplica (Up s2) n2 p2 t2) ->
           (length (cl_log c ++ before) < n2)%nat ->
           lookup_inside (s_world (c_sys s2)) (s_db (c_sys s2)) (op_entry o).1 ->
           exists a, StrataGo_Get (s_world (c_sys s2)) (s_db (c_sys s2)) (op_entry o).1 = Some a /\
             visible a = visible (op_entry o).2).
Proof.
  intros Hc Hcom Heff. destruct (commits_log _ _ _ _ _ _ _ Hcom) as (Hr & before & after & Hlog).
  exists before, after. split; [exact Hr|]. split; [exact Hlog|]. intros c2 Hc2.
  destruct (gsteps_log _ _ Hc2) as [more El]. exists (after ++ more). split.
  { by rewrite El, Hlog, <- !app_assoc. }
  set (log0 := cl_log c ++ before) in *. intros Hlater j s2 n2 p2 t2 Hj Hn2 Hk.
  assert (cl_log c2 = (log0 ++ [data]) ++ (after ++ more)) as E2
    by (rewrite El, Hlog; unfold log0; by rewrite <- !app_assoc).
  destruct (reachable_ok rt c2) as [_ Hok2]; [unfold reachable in *; by do 2 (etransitivity; [done|])|].
  destruct (answer_of_log _ _ _ _ _ _ (Hok2 _ _ Hj) Hk) as (a & E & _ & Hv). exists a. split; [done|].
  rewrite E2 in Hv. destruct (state_after_write log0 data o (after ++ more) n2 Heff Hlater Hn2) as [Ht Es].
  rewrite Hv by (by right). by rewrite Es.
Qed.

(** What [Put] does at a leader. *)
Lemma Put_at_leader {R : Type} `{Raft R} (call : string -> Ctx -> PutRequest -> Server.Cluster R ->
      result PutResponse * Server.Cluster R) g ctx req C n :
  Server.cl_nodes C !! g = Some n -> node_State n = Leader ->
  exists C' n', KVServer_Put call g ctx req C = ((propose_put req (n_core n)).1, C') /\
    Server.cl_nodes C' !! g = Some n' /\ n_core n' = (propose_put req (n_core n)).2.
Proof.
  intros Hn Hl. unfold KVServer_Put. rewrite Hn, bool_decide_eq_true_2 by done. cbn [negb].
  destruct (propose_put req (n_core n)) as [res co]. cbn [fst snd].
  destruct (isProxyRequest ctx).
  - eexists _, _. split; [done|]. cbn. by rewrite lookup_alter_eq, Hn.
  - eexists _, _. split; [done|]. cbn. by rewrite !lookup_alter_eq, Hn.
Qed.

(** C3: An acknowledged [Put] survives.  Over any Raft library that does what its
    [Apply] documents: when the leader has answered a [Put] with success, the entry
    is in the log; and whatever the nodes do from then on by the steps of [rstep],
    as long as no later entry is about the key, every running node that has
    applied the entry answers the key with the value that was put, an empty value
    counting as absent.  The steps are crashes, restarts, flushes, compactions of
    neighbouring tables, and snapshots taken while every open table has its name;
    no write to a log is cut while another log is set aside.  Where the code goes
    beyond these, [snapshot_misses_compacted_data], [skipped_table_overtakes] and
    [torn_log_loses_flushed_data] show acknowledged data lost. *)
Theorem acked_put_survives {R : Type} {HR : Raft R} (view : R -> cluster) (self : R -> string)
    `{!RaftOnCluster (S := S) rt R view self}
    (call : string -> Ctx -> PutRequest -> Server.Cluster R -> result PutResponse * Server.Cluster R)
    (g : string) (ctx : Ctx) (req : PutRequest) (C C' : Server.Cluster R) (N : Node R)
    (r : PutResponse) (e : err) (s : csys) (n : nat) (p : option (nat * strataSnapshot))
    (t : option (nat * bytes))
    (HN : Server.cl_nodes C !! g = Some N) (Hlead : node_State N = Leader)
    (Hc : reachable (S := S) rt (view (c_raft (n_core N))))
    (Hi : cl_nodes (view (c_raft (n_core N))) !! self (c_raft (n_core N)) = Some (mkReplica (Up s) n p t))
    (Hdb : s_db (c_sys s) = c_db (n_core N)) (Hw : s_world (c_sys s) = c_world (n_core N))
    (Hput : KVServer_Put call g ctx req C = ((Some r, e), C')) (Hack : putr_Success r = true) :
  exists N' data before after,
    Server.cl_nodes C' !! g = Some N' /\
    entry_effect data = Some (OpPut (put_Key req) (wire_bytes (put_Value req))) /\
    let c := view (c_raft (n_core N)) in
    let c' := view (c_raft (n_core N')) in
    rtc (gstep (S := S) rt) c c' /\ cl_log c' = cl_log c ++ before ++ data :: after /\
    forall c2, rtc (gstep (S := S) rt) c' c2 ->
      exists later, cl_log c2 = cl_log c ++ before ++ data :: later /\
        (Forall (fun o => (op_entry o).1 <> put_Key req) (omap entry_effect later) ->
         forall j s2 n2 p2 t2,
           cl_nodes c2 !! j = Some (mkReplica (Up s2) n2 p2 t2) ->
           (length (cl_log c ++ before) < n2)%nat ->
           lookup_inside (s_world (c_sys s2)) (s_db (c_sys s2)) (put_Key req) ->
           exists a, StrataGo_Get (s_world (c_sys s2)) (s_db (c_sys s2)) (put_Key req) = Some a /\
             visible a = visible (wire_bytes (put_Value req))).
Proof.
  destruct (Put_at_leader call g ctx req C N HN Hlead) as (C1 & N' & Ep & HN' & Hco).
  rewrite Hput in Ep. injection Ep as Ep ->. unfold propose_put in Ep, Hco.
  destruct (Command_Marshal _) as [em|data] eqn:Em; [by injection Ep as -> _|].
  destruct (raft_Apply data (c_raft (n_core N)) (c_db (n_core N)) (c_world (n_core N)))
    as [[[er|] resp] [[r' db'] w']] eqn:Ea.
  { cbn [fst] in Ep. by case_bool_decide; injection Ep as -> _. }
  assert (commits rt (view (c_raft (n_core N))) (self (c_raft (n_core N))) data resp db' w' (view r')) as Hcom
    by (eapply roc_Apply; [apply _|exact Hc|exact Hi|exact Hdb|exact Hw|exact Ea]).
  assert (entry_effect data = Some (OpPut (put_Key req) (wire_bytes (put_Value req)))) as Heff
    by (unfold entry_effect; by rewrite (Command_roundtrip _ _ Em)).
  destruct (committed_survives _ _ _ _ _ _ _ _ Hc Hcom Heff) as (before & after & Hall).
  exists N', data, before, after. split; [exact HN'|]. split; [exact Heff|]. cbv zeta. rewrite Hco. exact Hall.
Qed.
End system.

(** ** An instance

    What the leader proposes is committed at once, and the leader's replica applies
    what it has not applied yet. *)

(** a node's view of Raft: the cluster, its own name, its role and the address
    of the leader *)
Record member := mkMember {
  mb_cluster : cluster;
  mb_id : string;
  mb_state : RaftState;
  mb_leader : string
}.

Section member.
Context `{Murmur3} `{ProtoLaws} {S : Type} `{SinkLaws S} (rt : string -> Runtime).

(** a replica with its engine and disk replaced, [n] entries applied *)
Definition caught_up (s : csys) (db : StrataGo) (w : World) (n : nat)
    (p : option (nat * strataSnapshot)) (t : option (nat * bytes)) : replica :=
  mkReplica (Up (mkCsys (mkSys w db (s_pc (c_sys s))) (c_pc s))) n p t.

Definition member_Apply (data : bytes) (r : member) (db : StrataGo) (w : World)
    : (err * err) * (member * StrataGo * World) :=
  let refused := ((Some not_leader, None), (r, db, w)) in
  let log := cl_log (mb_cluster r) in
  let nodes := cl_nodes (mb_cluster r) in
  match mb_state r, nodes !! mb_id r with
  | Leader, Some (mkReplica (Up s) n p t) =>
      if decide (committableb data = true /\ (n <= length log)%nat /\ len log + 1 < 2 ^ 64 /\
                 wal_sequenceNumber (db_wal db) + len log + 1 < 2 ^ 64) then
        let '((_, db1), w1) := apply_log (drop n log) db w in
        let '((resp, db2), w2) := StrataFSM_Apply db1 data w1 in
        let log' := log ++ [data] in
        ((None, resp),
         (mkMember (mkCluster log' (<[mb_id r := caught_up s db2 w2 (length log') p t]> nodes))
            (mb_id r) (mb_state r) (mb_leader r),
          db2, w2))
      else refused
  | _, _ => refused
  end.

#[export] Instance member_raft : Raft member := {|
  raft_State := mb_state;
  raft_Leader := mb_leader;
  raft_VerifyLeader r :=
    (if bool_decide (mb_state r = Leader) then None else Some not_leader, r);
  raft_Apply := member_Apply;
  raft_ErrNotLeader := not_leader
|}.

(** The replica applies what is left of the log. *)
Lemma catch_up_all c i s n p t :
  reachable (S := S) rt c -> cl_nodes c !! i = Some (mkReplica (Up s) n p t) ->
  (n <= length (cl_log c))%nat -> wal_sequenceNumber (db_wal (s_db (c_sys s))) + len (cl_log c) + 1 < 2 ^ 64 ->
  exists db1 w1,
    apply_log (drop n (cl_log c)) (s_db (c_sys s)) (s_world (c_sys s)) =
      ((entry_error <$> drop n (cl_log c), db1), w1) /\
    wal_sequenceNumber (db_wal db1) + 1 < 2 ^ 64 /\
    rtc (gstep (S := S) rt) c
      (mkCluster (cl_log c) (<[i := caught_up s db1 w1 (length (cl_log c)) p t]> (cl_nodes c))).
Proof.
  intros Hc Hi Hn Hq. destruct c as [log nodes]. cbn [cl_log cl_nodes] in *.
  destruct (catch_up rt (length log - n) log nodes i s n p t Hc Hi ltac:(lia) ltac:(unfold len in Hq; lia))
    as (db1 & w1 & E & Hq1 & Hr). exists db1, w1. split; [exact E|]. split; [|exact Hr]. unfold len in Hq. lia.
Qed.

#[export] Instance member_raft_cluster : RaftOnCluster (S := S) rt member mb_cluster mb_id.
Proof.
  split. intros data r db w resp r' db' w' s n p t Hc Hi <- <-. cbn [raft_Apply member_raft].
  unfold member_Apply. rewrite Hi. destruct (mb_state r); try done. case_decide as Hg; [|done].
  destruct Hg as (Hd & Hn & Hlen & Hq). set (log := cl_log (mb_cluster r)) in *.
  destruct (catch_up_all _ _ _ _ _ _ Hc Hi Hn Hq) as (db1 & w1 & E1 & Hq1 & Hr). fold log in E1, Hr. rewrite E1.
  destruct (StrataFSM_Apply db1 data w1) as [[e db2] w2] eqn:E2. intros [= <- <- <- <-]. cbn [mb_id mb_cluster].
  split; [done|]. set (c1 := mkCluster log _) in Hr.
  exists (mkCluster (log ++ [data]) (cl_nodes c1)), w1, db1, (s_pc (c_sys s)), (c_pc s), (length log), p, t, db2, w2.
  split; [|split; [apply lookup_insert_eq|split; [done|split]]].
  - eapply rtc_r; [exact Hr|]. apply (g_commit rt c1); [by apply committableb_sound|exact Hlen].
  - cbn [cl_log]. by rewrite lookup_app_r, Nat.sub_diag.
  - split; [exact Hq1|]. split; [exact E2|]. unfold c1. cbn [cl_nodes cl_log]. rewrite insert_insert_eq, length_app.
    replace (length log + length [data])%nat with (Datatypes.S (length log)) by (cbn; lia).
    split; [apply rtc_refl|]. eexists _, _, _, _. split; [apply lookup_insert_eq|done].
Qed.
End member.

(** ** A run: the leader is behind the log and in the middle of a flush *)

Section witnesses.
#[local] Existing Instance fnv.
#[local] Existing Instance plain_proto.
#[local] Existing Instance plain_proto_laws.
#[local] Existing Instance good_grpc.

Definition life4 : list cluster_action :=
  [AJoin "a"; AJoin "b"] ++ on "a" [NStart] ++
  [ACommit (put_entry [x61] [x01]); ACommit (put_entry [x62] [x02])] ++
  on "a" [NApply; NWork DoRotate; NWork DoBuild].

Definition leader_node (c : cluster) (s : csys) : Node member :=
  mkNode (mkCore (mkMember c "a" Leader "a:17001") (s_db (c_sys s)) (s_world (c_sys s))) NewKVServer ∅.

(** the leader after [life4], with the [Put] of a client *)
Definition acked_run : option (cluster * csys * PutResponse * err * Server.Cluster member) :=
  c ← run_life life4;
  match cl_nodes c !! "a"%string with
  | Some (mkReplica (Up s) 1 _ _) =>
      match KVServer_Put (rpc_Put 0) "a:18001" plain_ctx put1
              (Server.mkCluster {["a:18001"%string := leader_node c s]} []) with
      | ((Some r, e), C') => Some (c, s, r, e, C')
      | _ => None
      end
  | _ => None
  end.

Lemma acked_put_survives_witness :
  exists c s r C', reachable (S := buffer_sink) runtimes c /\ putr_Success r = true /\
    KVServer_Put (rpc_Put 0) "a:18001" plain_ctx put1
      (Server.mkCluster {["a:18001"%string := leader_node c s]} []) = ((Some r, None), C') /\
    exists N' data before after,
      Server.cl_nodes C' !! "a:18001"%string = Some N' /\
      entry_effect data = Some (OpPut [x61] (Some [x09])) /\
      let c' := mb_cluster (c_raft (n_core N')) in
      rtc (gstep (S := buffer_sink) runtimes) c c' /\ cl_log c' = cl_log c ++ before ++ data :: after /\
      forall c2, rtc (gstep (S := buffer_sink) runtimes) c' c2 ->
        exists later, cl_log c2 = cl_log c ++ before ++ data :: later /\
          (Forall (fun o => (op_entry o).1 <> [x61]) (omap entry_effect later) ->
           forall j s2 n2 p2 t2,
             cl_nodes c2 !! j = Some (mkReplica (Up s2) n2 p2 t2) ->
             (length (cl_log c ++ before) < n2)%nat ->
             lookup_inside (s_world (c_sys s2)) (s_db (c_sys s2)) [x61] ->
             exists a, StrataGo_Get (s_world (c_sys s2)) (s_db (c_sys s2)) [x61] = Some a /\
               visible a = Some [x09]).
Proof.
  assert ((fun x => (putr_Success x.1.1.2, x.1.2)) <$> acked_run = Some (true, None)) as Ho by vm_equal.
  unfold acked_run in Ho. destruct (run_life life4) as [c|] eqn:E; [|discriminate Ho]. cbn [mbind option_bind] in Ho.
  apply run_life_reachable in E.
  destruct (cl_nodes c !! "a"%string) as [[[s|w] n p t]|] eqn:Hi; [|discriminate Ho..].
  destruct n as [|[|n]]; [discriminate Ho| |discriminate Ho].
  destruct (KVServer_Put _ _ _ _ _) as [[[r|] e] C'] eqn:Ep; [|discriminate Ho]. injection Ho as Hr ->.
  exists c, s, r, C'. split; [exact E|]. split; [exact Hr|]. split; [exact Ep|].
  exact (acked_put_survives (HR := member_raft) runtimes mb_cluster mb_id (rpc_Put 0) "a:18001" plain_ctx put1 _ C' (leader_node c s)
    r None s 1 p t (lookup_insert_eq _ _ _) eq_refl E Hi eq_refl eq_refl Ep Hr).
Defined.
End witnesses.
