(* ===== verification/Main.v ===== *)
(** * The process: [main.go], and the gauges of [metrics/metrics.go] it drives

    Flags, the addresses and ports derived from them, the start of a node with
    its data directory, engine and Raft instance, the bootstrap or join of the
    cluster, the admin handlers ([/join], [/status]), the loop that samples the
    Raft state, and the shutdown sequence.  [log.Fatalf] is an error that ends
    the start.  The constructors of Raft's stores and transport are library
    calls: an interface. *)
From stdpp Require Import base gmap sets list strings numbers sorting.
From Stdlib Require Import ZArith Lia Ascii Strings.Byte.
From S2P Require Import Prelude SkipList Disk Wal Bloom GoFmt Sst Reader Engine Recovery Flush.
From S2P Require Import Lifecycle GoNet Pb Fsm Server.
Open Scope Z_scope.

Record Flags := mkFlags {
  f_nodeID : string; f_raftPort : Z; f_grpcPort : Z; f_raftHost : string; f_joinAddr : string
}.

Definition default_flags : Flags := mkFlags "node1" 7001 8001 "127.0.0.1" "".

(** ** Paths *)

Fixpoint split_path (l : list ascii) : list string :=
  match l with
  | [] => [""%string]
  | c :: l' =>
      if Ascii.eqb c "/" then ""%string :: split_path l'
      else match split_path l' with
           | x :: xs => String.String c x :: xs
           | [] => [of_chars [c]]
           end
  end.

(** one component of [filepath.Clean] of a relative path; the stack has the last
    component first *)
Definition clean_step (stack : list string) (c : string) : list string :=
  if String.eqb c "" || String.eqb c "." then stack
  else if String.eqb c ".." then
    match stack with
    | [] => [c]
    | top :: stack' => if String.eqb top ".." then c :: stack else stack'
    end
  else c :: stack.

(** [filepath.Join] of elements the first of which is not empty and relative *)
Definition filepath_Join (elems : list string) : string :=
  let out := String.concat "/" (rev (foldl clean_step [] (elems ≫= (split_path ∘ chars)))) in
  if String.eqb out "" then "." else out.

Definition dataDir (f : Flags) : string := filepath_Join ["data"; f_nodeID f]%string.

(** ** Addresses and ports *)

Definition bindAddr (f : Flags) : string := host_port "0.0.0.0" (f_raftPort f).
Definition advertiseAddr (f : Flags) : string := host_port (f_raftHost f) (f_raftPort f).
Definition httpPort (f : Flags) : Z := int64 (f_raftPort f + 2000).
Definition metricsPort (f : Flags) : Z := int64 (f_raftPort f + 3000).

(** the listen address of the gRPC server, [":%d"] *)
Definition grpcListenAddr (f : Flags) : string := (":" +:+ Itoa (f_grpcPort f))%string.

(** the URL at which the node asks to join; an error ends the process *)
Definition joinURL (f : Flags) : result string :=
  match SplitHostPort (f_joinAddr f) with
  | inl e => inl (ErrWrap "Invalid join address format. Expected host:port" e)
  | inr (host, portStr) =>
      match Atoi portStr with
      | None => inl (ErrMsg "Invalid port in join address")
      | Some leaderRaftPort =>
          let leaderHttpPort := int64 (leaderRaftPort + 2000) in
          inr ("http://" +:+ host +:+ ":" +:+ Itoa leaderHttpPort +:+ "/join?id=" +:+ f_nodeID f
               +:+ "&addr=" +:+ advertiseAddr f)%string
      end
  end.

(** ** Bootstrap or join *)

Inductive startup :=
| Bootstrap (servers : list (string * string))   (* [BootstrapCluster]: identifiers and addresses *)
| Join (url : string)
| Fatal (e : error).

Definition cluster_startup (f : Flags) : startup :=
  if String.eqb (f_joinAddr f) "" then Bootstrap [(f_nodeID f, advertiseAddr f)]
  else match joinURL f with inl e => Fatal e | inr url => Join url end.

(** the goroutine that asks to join until the answer is 200: the number of
    requests sent, [None] while it is still trying *)
Fixpoint join_loop (answers : list (result Z)) : option nat :=
  match answers with
  | [] => None
  | inr 200 :: _ => Some 1%nat
  | _ :: answers' => S <$> join_loop answers'
  end.

(** ** The admin handlers *)

(** the calls of [*raft.Raft] that change the cluster or end the node *)
Class RaftAdmin (R : Type) := {
  raft_AddVoter : string -> string -> R -> err * R;
  raft_BootstrapCluster : list (string * string) -> R -> R;
  raft_Shutdown : R -> err * R
}.

(** the constructors of Raft's parts, and the calls on the network, by their
    arguments: each succeeds or fails *)
Class RaftSetup (R : Type) := {
  raftboltdb_NewBoltStore : string -> err;
  raft_NewFileSnapshotStore : string -> Z -> err;
  net_ResolveTCPAddr : string -> err;
  raft_NewTCPTransport : string -> string -> Z -> err;
  raft_NewRaft : string -> result R;
  net_Listen : string -> err
}.

Definition StatusOK : Z := 200.
Definition StatusBadRequest : Z := 400.
Definition StatusInternalServerError : Z := 500.

Definition status_handler : Z * string := (StatusOK, ""%string).

Section process.
Context {R : Type} `{Raft R} `{RaftAdmin R}.

Definition join_handler (id addr : string) (r : R) : (Z * string) * R :=
  if negb (bool_decide (raft_State r = Leader)) then
    ((StatusBadRequest, "I am not the leader"%string), r)
  else
    let '(e, r') := raft_AddVoter id addr r in
    match e with
    | Some e => ((StatusInternalServerError, err_Error e), r')
    | None => ((StatusOK, ""%string), r')
    end.

(** ** Sampling the Raft state *)

Definition RaftState_value (s : RaftState) : Z :=
  match s with Candidate => 1 | Leader => 2 | _ => 0 end.

(** one round: the gauge, the election counter and the state remembered *)
Definition sample (lastState currentState : RaftState) (elections : Z) : Z * Z * RaftState :=
  (RaftState_value currentState,
   (if bool_decide (currentState = Candidate /\ lastState <> Candidate)
    then elections + 1 else elections),
   currentState).

Fixpoint sample_loop (lastState : RaftState) (elections : Z) (states : list RaftState) : Z :=
  match states with
  | [] => elections
  | s :: states' =>
      let '(_, elections', last') := sample lastState s elections in
      sample_loop last' elections' states'
  end.

(** ** Start *)

Context `{Murmur3} `{Runtime} `{RaftSetup R}.

(** [if err != nil { log.Fatalf(msg, err) }] *)
Definition or_fatal {A} (msg : string) (e : err) (k : result A) : result A :=
  match e with Some e => inl (ErrWrap msg e) | None => k end.

Definition raft_setup (f : Flags) : result R :=
  or_fatal "Failed to create Raft log store"
    (raftboltdb_NewBoltStore (filepath_Join [dataDir f; "raft-log.bolt"%string])) (
  or_fatal "Failed to create Raft stable store"
    (raftboltdb_NewBoltStore (filepath_Join [dataDir f; "raft-stable.bolt"%string])) (
  or_fatal "Failed to create Raft snapshot store" (raft_NewFileSnapshotStore (dataDir f) 1) (
  or_fatal "Failed to resolve Raft TCP address" (net_ResolveTCPAddr (advertiseAddr f)) (
  or_fatal "Failed to create Raft TCP transport"
    (raft_NewTCPTransport (bindAddr f) (advertiseAddr f) 3) (
  match raft_NewRaft (f_nodeID f) with
  | inl e => inl (ErrWrap "Failed to start Raft" e)
  | inr r => inr r
  end))))).

(** the engine and the Raft instance of the node *)
Definition boot (f : Flags) : IO (result (R * StrataGo)) :=
  and_then os_MkdirAll (fun e => ret (inl (ErrWrap "Failed to create data directory" e))) (
  and_bind Open (fun e => ret (inl (ErrWrap "Failed to start StrataGo engine" e))) (fun db =>
  ret (match raft_setup f with inl e => inl e | inr r => inr (r, db) end))).

(** [main] up to the servers: how the node enters the cluster, and the node *)
Definition start (f : Flags) (w : World) : result (startup * Node R) :=
  match boot f w with
  | (inl e, _) => inl e
  | (inr (r, db), w') =>
      let node r := mkNode (mkCore r db w') NewKVServer ∅ in
      let listen st r :=
        or_fatal "Failed to listen on gRPC port" (net_Listen (grpcListenAddr f)) (inr (st, node r)) in
      match cluster_startup f with
      | Fatal e => inl e
      | Bootstrap servers => listen (Bootstrap servers) (raft_BootstrapCluster servers r)
      | Join url => listen (Join url) r
      end
  end.

(** ** Shutdown *)

(** [GracefulStop] waits for the running requests; then the proxy connections,
    Raft and the engine are closed, and errors are only printed *)
Definition shutdown (n : Node R) : err * err * Node R :=
  let srv := KVServer_Close (n_srv n) in
  let '(e1, r') := raft_Shutdown (c_raft (n_core n)) in
  let '((e2, db'), w') := StrataGo_Close (c_db (n_core n)) (c_world (n_core n)) in
  (e1, e2, mkNode (mkCore r' db' w') srv (n_requests n)).
End process.

(** ** Properties *)

(** The ports of the parts agree.  When a node's gRPC port is its Raft port
    plus 1000, as in the defaults and in the documented clusters, the address at
    which the other nodes look for its gRPC server is the one it serves; and a
    node that is started to join it sends its request to the port on which that
    node's admin server listens, with its own identifier and Raft address. *)
Theorem ports_agree (f g : Flags)
    (Hhost : plain (chars (f_raftHost f))) (Hport : 0 <= f_raftPort f < 2 ^ 16)
    (Hgrpc : f_grpcPort f = f_raftPort f + 1000) (Hjoin : f_joinAddr g = advertiseAddr f) :
  getLeaderGRPCAddress (advertiseAddr f) = inr (host_port (f_raftHost f) (f_grpcPort f)) /\
  cluster_startup g =
    Join ("http://" +:+ f_raftHost f +:+ ":" +:+ Itoa (httpPort f) +:+ "/join?id=" +:+ f_nodeID g
          +:+ "&addr=" +:+ advertiseAddr g)%string /\
  NoDup [f_raftPort f; f_grpcPort f; httpPort f; metricsPort f].
Proof.
  assert (String.eqb (advertiseAddr f) "" = false) as Hne.
  { apply String.eqb_neq. intros E. apply (f_equal chars) in E. unfold advertiseAddr in E.
    rewrite chars_host_port in E. by destruct (chars (f_raftHost f)). }
  split_and!.
  - unfold getLeaderGRPCAddress. rewrite Hne. unfold advertiseAddr.
    rewrite SplitHostPort_host_port, Atoi_Itoa, Hgrpc by (done || lia). do 2 f_equal.
    apply int64_small. lia.
  - unfold cluster_startup, joinURL. rewrite Hjoin, Hne. unfold advertiseAddr at 1.
    by rewrite SplitHostPort_host_port, Atoi_Itoa by (done || lia).
  - unfold httpPort, metricsPort. rewrite Hgrpc, !int64_small by lia.
    repeat (apply NoDup_cons; split; [rewrite ?not_elem_of_cons; split_and?; try lia;
      apply not_elem_of_nil|]). apply NoDup_nil_2.
Qed.

Lemma ports_agree_witness :
  let g := mkFlags "node2" 17002 18002 "127.0.0.1" "127.0.0.1:7001" in
  getLeaderGRPCAddress (advertiseAddr default_flags) = inr "127.0.0.1:8001"%string /\
  cluster_startup g = Join "http://127.0.0.1:9001/join?id=node2&addr=127.0.0.1:17002" /\
  NoDup [7001; 8001; 9001; 10001].
Proof.
  apply (ports_agree default_flags (mkFlags "node2" 17002 18002 "127.0.0.1" "127.0.0.1:7001"));
    [split_and!; apply (bool_decide_unpack _); vm_compute; exact I|cbn; lia|reflexivity|reflexivity].
Defined.

(** The joining loop ends at the first positive answer. *)
Lemma join_loop_first answers rest :
  Forall (fun a => a <> inr 200) answers ->
  join_loop (answers ++ inr 200 :: rest) = Some (S (length answers)).
Proof.
  induction answers as [|a answers IH]; [done|]. intros [Ha Hr]%Forall_cons. cbn [app join_loop].
  rewrite IH by done. destruct a as [e|z]; [done|]. cbn.
  destruct z as [|p|p]; try done. repeat (destruct p as [p|p|]; try done).
Qed.

(** The election counter counts the rises to [Candidate] in the samples. *)
Lemma sample_loop_counts states : forall last elections,
  sample_loop last elections states =
  elections + len (filter (fun p => p.2 = Candidate /\ p.1 <> Candidate)
                     (zip (last :: states) states)).
Proof.
  induction states as [|s states IH]; intros last elections; [cbn; unfold len; cbn; lia|].
  cbn [sample_loop sample]. rewrite IH. cbn [zip_with]. rewrite filter_cons. cbn [fst snd].
  case_bool_decide; case_decide; try done; rewrite ?len_cons; lia.
Qed.

(** A node that starts on a well-formed directory has a well-formed engine with
    the answers of the directory, and no cached connection. *)
Lemma start_ok {R} `{Raft R} `{RaftAdmin R} `{RaftSetup R} `{Murmur3} `{Runtime}
    (f : Flags) w log tail Ts st (n : Node R) :
  disk_ok w log tail Ts -> len log < 2 ^ 64 -> start f w = inr (st, n) ->
  let db := c_db (n_core n) in let w' := c_world (n_core n) in
  cache_ok (n_srv n) /\ (mem_fits (db_activeMemtable db) -> clock_ok w' db -> node_ok db w' Ts) /\
  forall k, lookup_inside w' db k -> StrataGo_Get w' db k = Some (initial_answer log Ts k).
Proof.
  intros Hd Hlen. unfold start, boot, and_then, and_bind, mbind, IO_bind, os_MkdirAll.
  rewrite next_outcome_ok by apply (do_faults _ _ _ _ _ Hd).
  destruct (session_ok w log tail Ts [] Hd ltac:(constructor)) as (db & w' & A & E & He & Ha & _).
  { by rewrite len_nil, Z.add_0_r. }
  assert (Open w = (inr db, w')) as ->.
  { revert E. unfold session, and_bind, mbind, IO_bind. destruct (Open w) as [[e|db0] w0];
      [done|]. unfold run_ops, ret. by intros [= -> ->]. }
  unfold ret. destruct (raft_setup f) as [e|r]; [done|]. intros Hst.
  assert (n_srv n = NewKVServer /\ c_db (n_core n) = db /\ c_world (n_core n) = w') as (-> & -> & ->).
  { revert Hst. unfold or_fatal. destruct (cluster_startup f); [..|done];
      (destruct (net_Listen _); [done|]); by intros [= _ <-]. }
  split; [intros c t; cbn; by rewrite lookup_empty|]. split.
  - intros Hfit Hck. split; [|done|done]. exists w, log, tail, []. rewrite len_nil.
    split_and!; [done|constructor|lia|done].
  - intros k Hk. rewrite (Get_ok _ _ _ _ _ _ k He) by by eapply lookup_inside_clean.
    by rewrite Ha.
Qed.

(** A node that is shut down holds no connection, and its data is on the disk:
    the directory can be opened again, and answers as the node did. *)
Lemma shutdown_durable {R} `{Raft R} `{RaftAdmin R} `{Murmur3} `{Runtime} (n : Node R) Ts :
  node_ok (c_db (n_core n)) (c_world (n_core n)) Ts -> cache_ok (n_srv n) ->
  exists e1 n' Ts', shutdown n = (e1, None, n') /\ kv_conns (n_srv n') = ∅ /\
    disk_ok (c_world (n_core n')) [] [] Ts'.
Proof.
  intros Hn Hs. destruct (node_engine _ _ _ Hn) as (wal & A & He & Hc & Hf & Hcan & Hd & Hfl).
  destruct (Close_ok _ _ wal A Ts He Hc Hf Hcan Hd Hfl) as (db' & w' & Ts' & E & Hdo & _).
  unfold shutdown. destruct (raft_Shutdown _) as [e1 r']. rewrite E.
  eexists e1, _, Ts'. split; [done|]. split; [|done]. cbn. unfold KVServer_Close.
  destruct (kv_leaderConn (n_srv n)) eqn:Ec; [by apply delete_cached|by apply no_cached].
Qed.
