(* ===== verification/Cli.v ===== *)
(** * The command line client: [cmd/cli/main.go]

    The four commands as functions of their arguments and of a client of the
    service: what they print and the error they return.  The parsing of the
    command line is cobra's; of it only the check of the number of arguments is
    here.  The last section runs the commands against the servers of [Server] over
    a cluster of engines, as [System] does for a [Put]. *)
From stdpp Require Import base gmap sets list strings numbers sorting.
From Stdlib Require Import ZArith Lia Ascii Strings.Byte.
From S2P Require Import Prelude SkipList Disk Wal Bloom GoFmt Sst Reader Engine Recovery Flush.
From S2P Require Import GoHeap Merge Compaction Provenance Concurrent Durable Interrupted.
From S2P Require Import Survival Restart Lifecycle Quiet GoNet Pb Fsm Halt Server Cluster System.
Open Scope Z_scope.

(** conversions between a Go string and its bytes *)
Definition string_bytes (s : string) : bytes := String.list_byte_of_string s.
Definition bytes_string (b : bytes) : string := String.string_of_list_byte b.

Lemma bytes_string_bytes s : bytes_string (string_bytes s) = s.
Proof. apply String.string_of_list_byte_of_string. Qed.

(** [strings.ToUpper] on UTF-8 text, as far as the result can be ASCII: besides
    the ASCII letters, dotless i (C4 B1) and long s (C5 BF) have ASCII capitals *)
Fixpoint ToUpper (l : list ascii) : list ascii :=
  match l with
  | [] => []
  | c :: l' =>
      let z := Z_of_ascii c in
      if (97 <=? z) && (z <=? 122) then ascii_of_Z (z - 32) :: ToUpper l'
      else match l' with
           | d :: l'' =>
               if (z =? 196) && (Z_of_ascii d =? 177) then "I"%char :: ToUpper l''
               else if (z =? 197) && (Z_of_ascii d =? 191) then "S"%char :: ToUpper l''
               else c :: ToUpper l'
           | [] => [c]
           end
  end.

Definition consistency_level (consistency : string) : option Z :=
  let s := of_chars (ToUpper (chars consistency)) in
  if String.eqb s "STRONG" then Some GetRequest_STRONG
  else if String.eqb s "FAST" then Some GetRequest_FAST
  else if String.eqb s "EVENTUAL" then Some GetRequest_EVENTUAL
  else None.

(** [pb.KVStoreClient] *)
Class KVStoreClient (C : Type) := {
  client_Put : PutRequest -> C -> result PutResponse * C;
  client_Get : GetRequest -> C -> result GetResponse * C;
  client_Delete : DeleteRequest -> C -> result DeleteResponse * C
}.

(** the lines printed and the error returned *)
Abbreviation outcome_of_cmd := (list string * err)%type.

Definition args_error : error := ErrMsg "accepts another number of arg(s)".
Definition level_error : error :=
  ErrMsg "invalid consistency level. Must be STRONG, FAST, or EVENTUAL".

Section commands.
Context {C : Type} `{KVStoreClient C} `{Grpc}.

(** [getClient] *)
Definition getClient (targetAddr : string) : err :=
  match grpc_NewClient targetAddr with
  | Some e => Some (ErrWrap ("failed to connect to " +:+ targetAddr)%string e)
  | None => None
  end.

Definition putCmd (targetAddr : string) (args : list string) (c : C) : outcome_of_cmd * C :=
  match args with
  | [key; value] =>
      match getClient targetAddr with
      | Some e => (([], Some e), c)
      | None =>
          let '(resp, c') := client_Put (mkPutRequest (string_bytes key) (Some (string_bytes value))) c in
          match resp with
          | inl e => (([], Some (ErrWrap "rpc failed" e)), c')
          | inr r =>
              (([if putr_Success r then "OK"%string
                 else ("FAILED: " +:+ putr_Message r)%string], None), c')
          end
      end
  | _ => (([], Some args_error), c)
  end.

Definition getCmd (targetAddr consistency : string) (args : list string) (c : C) : outcome_of_cmd * C :=
  match args with
  | [key] =>
      match getClient targetAddr with
      | Some e => (([], Some e), c)
      | None =>
          match consistency_level consistency with
          | None => (([], Some level_error), c)
          | Some level =>
              let '(resp, c') := client_Get (mkGetRequest (string_bytes key) level) c in
              match resp with
              | inl e => (([], Some (ErrWrap "rpc failed" e)), c')
              | inr r =>
                  (([if getr_Found r then bytes_string (slice_bytes (getr_Value r))
                     else "(nil) - key not found"%string], None), c')
              end
          end
      end
  | _ => (([], Some args_error), c)
  end.

Definition deleteCmd (targetAddr : string) (args : list string) (c : C) : outcome_of_cmd * C :=
  match args with
  | [key] =>
      match getClient targetAddr with
      | Some e => (([], Some e), c)
      | None =>
          let '(resp, c') := client_Delete (mkDeleteRequest (string_bytes key)) c in
          match resp with
          | inl e => (([], Some (ErrWrap "rpc failed" e)), c')
          | inr r => (([if delr_Success r then "OK"%string else "FAILED"%string], None), c')
          end
      end
  | _ => (([], Some args_error), c)
  end.

Definition statusCmd (targetAddr : string) (c : C) : outcome_of_cmd * C :=
  match getClient targetAddr with
  | Some e => (([], Some e), c)
  | None =>
      let '(resp, c') :=
        client_Get (mkGetRequest (string_bytes "__status__") GetRequest_EVENTUAL) c in
      match resp with
      | inl e => (([], Some (ErrWrap "rpc failed" e)), c')
      | inr r => (([("Leader: " +:+ getr_LeaderAddress r)%string], None), c')
      end
  end.
End commands.

(** ** Against the servers *)

Section client.
Context {R : Type} `{Raft R} `{Grpc} `{Proto} `{Murmur3}.

(** the client of the node at [addr] *)
Definition cluster_client (hops : nat) (addr : string) : KVStoreClient (Server.Cluster R) := {|
  client_Put req c := rpc (KVServer_Put (rpc_Put hops)) addr (mkCtx [] []) req c;
  client_Get req c :=
    rpc (fun i _ req c =>
           match Server.cl_nodes c !! i with
           | None => ((None, Some Unavailable), c)
           | Some n => let '(res, n') := KVServer_Get req n in (res, on_node i (fun _ => n') c)
           end) addr (mkCtx [] []) req c;
  client_Delete req c := rpc (KVServer_Delete (rpc_Delete hops)) addr (mkCtx [] []) req c
|}.

(** A call that is answered has reached its handler. *)
Lemma rpc_answered {Req Resp} (h : string -> Ctx -> Req -> Server.Cluster R -> (option Resp * err) * Server.Cluster R)
    addr ctx req C r C1 :
  rpc h addr ctx req C = (inr r, C1) ->
  exists C0, Server.cl_nodes C0 = Server.cl_nodes C /\ h addr (received ctx) req C0 = ((Some r, None), C1).
Proof.
  unfold rpc. destruct (next_net C) as [o c1] eqn:En.
  assert (Server.cl_nodes c1 = Server.cl_nodes C) as Hn
    by (revert En; unfold next_net; destruct (cl_net C); by intros [= <- <-]).
  destruct o; [|done|]; (destruct (Server.cl_nodes c1 !! addr); [|done]);
    destruct (h addr (received ctx) req c1) as [[[r'|] [e|]] C2] eqn:E; try done.
  intros [= <- <-]. by exists c1.
Qed.

Lemma putCmd_OK hops addr target key value C C1 :
  putCmd (H := cluster_client hops addr) target [key; value] C = ((["OK"%string], None), C1) ->
  exists r C0, putr_Success r = true /\ Server.cl_nodes C0 = Server.cl_nodes C /\
    KVServer_Put (rpc_Put hops) addr (received (mkCtx [] []))
      (mkPutRequest (string_bytes key) (Some (string_bytes value))) C0 = ((Some r, None), C1).
Proof.
  unfold putCmd. destruct (getClient target); [done|]. cbn [client_Put cluster_client].
  destruct (rpc _ _ _ _ C) as [[e|r] C'] eqn:E; [done|]. destruct (putr_Success r) eqn:Hr; [|done].
  intros [= <-]. apply rpc_answered in E as (C0 & Hn & E). by exists r, C0.
Qed.

Lemma deleteCmd_OK hops addr target key C C1 :
  deleteCmd (H := cluster_client hops addr) target [key] C = ((["OK"%string], None), C1) ->
  exists r C0, delr_Success r = true /\ Server.cl_nodes C0 = Server.cl_nodes C /\
    KVServer_Delete (rpc_Delete hops) addr (received (mkCtx [] []))
      (mkDeleteRequest (string_bytes key)) C0 = ((Some r, None), C1).
Proof.
  unfold deleteCmd. destruct (getClient target); [done|]. cbn [client_Delete cluster_client].
  destruct (rpc _ _ _ _ C) as [[e|r] C'] eqn:E; [done|]. destruct (delr_Success r) eqn:Hr; [|done].
  intros [= <-]. apply rpc_answered in E as (C0 & Hn & E). by exists r, C0.
Qed.

(** What [Delete] does at a leader. *)
Lemma Delete_at_leader call g ctx req (C : Server.Cluster R) n :
  Server.cl_nodes C !! g = Some n -> node_State n = Leader ->
  exists C' n', KVServer_Delete call g ctx req C = ((propose_delete req (n_core n)).1, C') /\
    Server.cl_nodes C' !! g = Some n' /\ n_core n' = (propose_delete req (n_core n)).2.
Proof.
  intros Hn Hl. unfold KVServer_Delete. rewrite Hn, bool_decide_eq_true_2 by done. cbn [negb].
  destruct (propose_delete req (n_core n)) as [res co]. cbn [fst snd].
  destruct (isProxyRequest ctx).
  - eexists _, _. split; [done|]. cbn. by rewrite lookup_alter_eq, Hn.
  - eexists _, _. split; [done|]. cbn. by rewrite !lookup_alter_eq, Hn.
Qed.
End client.

(** *** A write and a later read *)

(** the commands that write *)
Inductive cli_write := CliPut (value : string) | CliDelete.

Definition not_found : string := "(nil) - key not found".

(** what [get] prints behind the write: an empty value and a deleted key are shown
    as no key, or, when they have been recovered from a log, as an empty line *)
Definition prints (x : cli_write) (line : string) : Prop :=
  match x with
  | CliPut value => if String.eqb value "" then line = not_found \/ line = ""%string else line = value
  | CliDelete => line = not_found \/ line = ""%string
  end.

Definition written (x : cli_write) : slice :=
  match x with CliPut value => wire_bytes (Some (string_bytes value)) | CliDelete => None end.

Lemma printed x a :
  visible a = visible (written x) ->
  prints x (if bool_decide (is_Some a) then bytes_string (slice_bytes a) else not_found).
Proof.
  assert (forall v, v = None -> visible a = v ->
    (if bool_decide (is_Some a) then bytes_string (slice_bytes a) else not_found) = not_found \/
    (if bool_decide (is_Some a) then bytes_string (slice_bytes a) else not_found) = ""%string) as Hnone.
  { intros v -> Hv. destruct a as [[|b a]|]; [by right|discriminate Hv|by left]. }
  destruct x as [v|]; cbn [prints written]; [|by apply Hnone].
  destruct (String.eqb_spec v "") as [->|Hv]; [by apply Hnone|].
  assert (string_bytes v <> []) as Hne.
  { intros E. apply Hv. by rewrite <- (bytes_string_bytes v), E. }
  destruct (string_bytes v) as [|b bs] eqn:Eb; [done|]. cbn. intros Ha.
  destruct a as [[|b' a]|]; [discriminate Ha| |discriminate Ha]. cbn in Ha. injection Ha as -> ->.
  cbn. by rewrite <- (bytes_string_bytes v), Eb.
Qed.

Section end_to_end.
Context `{Murmur3} `{ProtoLaws} `{Grpc} {S : Type} `{SinkLaws S} (rt : string -> Runtime).
Context {R : Type} {HR : Raft R} (view : R -> cluster) (self : R -> string).

(** the server [N] has the engine and the disk of a replica that has applied [n]
    entries *)
Definition hosts (N : Server.Node R) (s : csys) (n : nat) : Prop :=
  (exists p t, cl_nodes (view (c_raft (n_core N))) !! self (c_raft (n_core N)) = Some (mkReplica (Up s) n p t)) /\
  s_db (c_sys s) = c_db (n_core N) /\ s_world (c_sys s) = c_world (n_core N).

Definition run_write (hops : nat) (addr target key : string) (x : cli_write) :
    Server.Cluster R -> outcome_of_cmd * Server.Cluster R :=
  match x with
  | CliPut value => putCmd (H := cluster_client hops addr) target [key; value]
  | CliDelete => deleteCmd (H := cluster_client hops addr) target [key]
  end.

(** A write that prints OK has proposed its entry, and the future had no error. *)
Lemma run_write_OK hops addr target key x C C1 N :
  Server.cl_nodes C !! addr = Some N -> node_State N = Leader ->
  run_write hops addr target key x C = ((["OK"%string], None), C1) ->
  exists N1 data o resp,
    Server.cl_nodes C1 !! addr = Some N1 /\ entry_effect data = Some o /\
    op_entry o = (string_bytes key, written x) /\
    raft_Apply data (c_raft (n_core N)) (c_db (n_core N)) (c_world (n_core N)) =
      ((None, resp), (c_raft (n_core N1), c_db (n_core N1), c_world (n_core N1))).
Proof.
  intros HN Hl. destruct x as [value|]; cbn [run_write].
  - intros (r & C0 & Hr & HC & E)%putCmd_OK. rewrite <- HC in HN.
    destruct (Put_at_leader (rpc_Put hops) _ (received (mkCtx [] []))
      (mkPutRequest (string_bytes key) (Some (string_bytes value))) _ _ HN Hl) as (C1' & N1 & Ep & HN1 & Hco). rewrite E in Ep. injection Ep as Ep <-.
    unfold propose_put in Ep, Hco. destruct (Command_Marshal _) as [em|data] eqn:Em; [by injection Ep as ->|].
    destruct (raft_Apply data _ _ _) as [[[er|] resp] [[r' db'] w']] eqn:Ea.
    { cbn [fst] in Ep. by case_bool_decide; injection Ep as ->. }
    exists N1, data. eexists _, resp. split; [exact HN1|].
    split; [unfold entry_effect; by rewrite (Command_roundtrip _ _ Em)|]. split; [done|]. by rewrite Hco.
  - intros (r & C0 & Hr & HC & E)%deleteCmd_OK. rewrite <- HC in HN.
    destruct (Delete_at_leader (rpc_Delete hops) _ (received (mkCtx [] []))
      (mkDeleteRequest (string_bytes key)) _ _ HN Hl) as (C1' & N1 & Ep & HN1 & Hco). rewrite E in Ep. injection Ep as Ep <-.
    unfold propose_delete in Ep, Hco. destruct (Command_Marshal _) as [em|data] eqn:Em; [by injection Ep as ->|].
    destruct (raft_Apply data _ _ _) as [[[er|] resp] [[r' db'] w']] eqn:Ea.
    { cbn [fst] in Ep. by case_bool_decide; injection Ep as ->. }
    exists N1, data. eexists _, resp. split; [exact HN1|].
    split; [unfold entry_effect; by rewrite (Command_roundtrip _ _ Em)|]. split; [done|]. by rewrite Hco.
Qed.

(** [get] prints what the engine answers. *)
Lemma getCmd_prints hops addr target level lv key C N a :
  Server.cl_nodes C !! addr = Some N -> Server.cl_net C = [] -> grpc_NewClient target = None ->
  consistency_level level = Some lv -> (check_consistency lv (c_raft (n_core N))).1 = None ->
  StrataGo_Get (c_world (n_core N)) (c_db (n_core N)) (string_bytes key) = Some a ->
  exists C', getCmd (H := cluster_client hops addr) target level [key] C =
    (([if bool_decide (is_Some a) then bytes_string (slice_bytes a) else not_found], None), C').
Proof.
  intros HN Hnet Hdial Hlv Hcheck Ha. unfold getCmd, getClient. rewrite Hdial, Hlv.
  cbn [client_Get cluster_client]. unfold rpc, next_net. rewrite Hnet, HN.
  unfold KVServer_Get. cbn [get_Consistency get_Key].
  destruct (check_consistency lv _) as [e r']. cbn [fst] in Hcheck. subst e. rewrite Ha.
  eexists. cbn. done.
Qed.

(** C40: The command line sees a map.  Over any Raft library that does what its
    [Apply] documents: when [put key value] or [delete key], run against a leader,
    has printed OK, its entry is in the log; and from then on, whatever the nodes do
    by the steps of [rstep], as long as no later entry is about the key, [get key]
    run against any server whose replica has applied the entry, over a network that
    delivers and at a consistency level whose check passes there, prints the value
    that was put.  For an empty value and after [delete] it reports that there is no
    such key, or, when the entry has been recovered from a log, prints an empty
    line. *)
Theorem cli_put_get_delete `{!RaftOnCluster (S := S) rt R view self} (hops : nat)
    (addr target key : string) (x : cli_write) (C C1 : Server.Cluster R) (N : Server.Node R)
    (s : csys) (n : nat)
    (HN : Server.cl_nodes C !! addr = Some N) (Hlead : node_State N = Leader)
    (Hc : reachable (S := S) rt (view (c_raft (n_core N)))) (Hhost : hosts N s n)
    (Hok : run_write hops addr target key x C = ((["OK"%string], None), C1)) :
  exists N1 data before after,
    Server.cl_nodes C1 !! addr = Some N1 /\
    let c := view (c_raft (n_core N)) in
    let c1 := view (c_raft (n_core N1)) in
    rtc (gstep (S := S) rt) c c1 /\ cl_log c1 = cl_log c ++ before ++ data :: after /\
    forall c2, rtc (gstep (S := S) rt) c1 c2 ->
      exists later, cl_log c2 = cl_log c ++ before ++ data :: later /\
        (Forall (fun o => (op_entry o).1 <> string_bytes key) (omap entry_effect later) ->
         forall C2 hops2 addr2 target2 level lv N2 s2 n2,
           Server.cl_nodes C2 !! addr2 = Some N2 -> view (c_raft (n_core N2)) = c2 ->
           hosts N2 s2 n2 -> (length (cl_log c ++ before) < n2)%nat ->
           lookup_inside (c_world (n_core N2)) (c_db (n_core N2)) (string_bytes key) ->
           Server.cl_net C2 = [] -> grpc_NewClient target2 = None ->
           consistency_level level = Some lv -> (check_consistency lv (c_raft (n_core N2))).1 = None ->
           exists line C3,
             getCmd (H := cluster_client hops2 addr2) target2 level [key] C2 = (([line], None), C3) /\
             prints x line).
Proof.
  destruct (run_write_OK _ _ _ _ _ _ _ _ HN Hlead Hok) as (N1 & data & o & resp & HN1 & Heff & Eo & Ea).
  destruct Hhost as ((p & t & Hi) & Hdb & Hw).
  assert (commits rt (view (c_raft (n_core N))) (self (c_raft (n_core N))) data resp (c_db (n_core N1))
    (c_world (n_core N1)) (view (c_raft (n_core N1)))) as Hcom
    by (eapply roc_Apply; [apply _|exact Hc|exact Hi|exact Hdb|exact Hw|exact Ea]).
  destruct (committed_survives _ _ _ _ _ _ _ _ _ Hc Hcom Heff) as (before & after & Hr & Hlog & Hall).
  exists N1, data, before, after. split; [exact HN1|]. split; [exact Hr|]. split; [exact Hlog|].
  intros c2 Hc2. destruct (Hall c2 Hc2) as (later & El & Hget). exists later. split; [exact El|].
  rewrite Eo in Hget. cbn [fst snd] in Hget.
  intros Hlater C2 hops2 addr2 target2 level lv N2 s2 n2 HN2 Hv ((p2 & t2 & Hi2) & Hdb2 & Hw2) Hn2 Hk Hnet Hdial Hlv Hcheck.
  rewrite Hv in Hi2. rewrite <- Hdb2, <- Hw2 in Hk.
  destruct (Hget Hlater _ _ _ _ _ Hi2 Hn2 Hk) as (a & Ea2 & Hvis). rewrite Hdb2, Hw2 in Ea2.
  destruct (getCmd_prints hops2 addr2 target2 level lv key C2 N2 a) as [C3 Eg]; try done.
  eexists _, C3. split; [exact Eg|by apply printed].
Qed.
End end_to_end.

Section witnesses.
#[local] Existing Instance fnv.
#[local] Existing Instance plain_proto.
#[local] Existing Instance plain_proto_laws.
#[local] Existing Instance good_grpc.
#[local] Existing Instance member_raft.

(** a leader behind the log and in the middle of a flush, a command that writes, and
    a command that reads *)
Definition cli_run (x : cli_write) : option (cluster * csys * nat * outcome_of_cmd * Server.Cluster member) :=
  c ← run_life life4;
  match cl_nodes c !! "a"%string with
  | Some (mkReplica (Up s) n _ _) =>
      let '(out, C') := run_write 0 "a:18001" "a:18001" "city" x
        (Server.mkCluster {["a:18001"%string := leader_node c s]} []) in
      Some (c, s, n, out, C')
  | _ => None
  end.

Lemma cli_outputs :
  (fun r => (r.1.2, (getCmd (H := cluster_client 0 "a:18001") "a:18001" "strong" ["city"%string] r.2).1))
    <$> cli_run (CliPut "Oslo") = Some (["OK"%string], None, (["Oslo"%string], None)) /\
  (fun r => (r.1.2, (getCmd (H := cluster_client 0 "a:18001") "a:18001" "strong" ["city"%string] r.2).1))
    <$> cli_run CliDelete = Some (["OK"%string], None, ([not_found], None)).
Proof. split; vm_equal. Qed.

Lemma cli_put_get_delete_witness :
  exists c s C1, reachable (S := buffer_sink) runtimes c /\
    run_write 0 "a:18001" "a:18001" "city" (CliPut "Oslo")
      (Server.mkCluster {["a:18001"%string := leader_node c s]} []) = ((["OK"%string], None), C1) /\
    exists N1 data before after,
      Server.cl_nodes C1 !! "a:18001"%string = Some N1 /\
      let c1 := mb_cluster (c_raft (n_core N1)) in
      rtc (gstep (S := buffer_sink) runtimes) c c1 /\ cl_log c1 = cl_log c ++ before ++ data :: after /\
      forall c2, rtc (gstep (S := buffer_sink) runtimes) c1 c2 ->
        exists later, cl_log c2 = cl_log c ++ before ++ data :: later /\
          (Forall (fun o => (op_entry o).1 <> string_bytes "city") (omap entry_effect later) ->
           forall C2 hops2 addr2 target2 level lv N2 s2 n2,
             Server.cl_nodes C2 !! addr2 = Some N2 -> mb_cluster (c_raft (n_core N2)) = c2 ->
             hosts mb_cluster mb_id N2 s2 n2 -> (length (cl_log c ++ before) < n2)%nat ->
             lookup_inside (c_world (n_core N2)) (c_db (n_core N2)) (string_bytes "city") ->
             Server.cl_net C2 = [] -> grpc_NewClient target2 = None ->
             consistency_level level = Some lv -> (check_consistency lv (c_raft (n_core N2))).1 = None ->
             exists line C3,
               getCmd (H := cluster_client hops2 addr2) target2 level ["city"%string] C2 = (([line], None), C3) /\
               prints (CliPut "Oslo") line).
Proof.
  pose proof (proj1 cli_outputs) as Ho. unfold cli_run in Ho.
  destruct (run_life life4) as [c|] eqn:E; [|discriminate Ho]. cbn [mbind option_bind] in Ho.
  apply run_life_reachable in E.
  destruct (cl_nodes c !! "a"%string) as [[[s|w] n p t]|] eqn:Hi; [|discriminate Ho..].
  destruct (run_write _ _ _ _ _ _) as [out C1] eqn:Ew. cbn [fmap option_fmap option_map fst snd] in Ho.
  injection Ho as Ho _. subst out.
  exists c, s, C1. split; [exact E|]. split; [exact Ew|].
  exact (cli_put_get_delete (HR := member_raft) runtimes mb_cluster mb_id 0 "a:18001" "a:18001" "city" (CliPut "Oslo") _ C1
    (leader_node c s) s n (lookup_insert_eq _ _ _) eq_refl E
    (conj (ex_intro _ p (ex_intro _ t Hi)) (conj eq_refl eq_refl)) Ew).
Defined.
End witnesses.
