(* ===== verification/Metrics.v ===== *)
(** * Metrics: [metrics/metrics.go] and the engine's gauges

    The six collectors, as they are registered when the process starts, and the
    two gauges that the engine sets: the size of the active memtable and the
    number of tables.  The Prometheus client library is an interface.  [mstep]
    adds the gauges to the steps of [Concurrent]: [Put], the end of [Flush] and
    the replacement of tables by a compaction update them.  [Flush] updates them
    after it has released the lock, so that a compaction may come in between. *)
From stdpp Require Import base gmap sets list strings numbers sorting.
From Stdlib Require Import ZArith Lia Strings.Byte.
From S2P Require Import Prelude SkipList Disk Wal Bloom GoFmt Sst Reader Engine Recovery Flush.
From S2P Require Import GoHeap Merge Compaction Provenance Concurrent.
Open Scope Z_scope.

(** ** The collectors *)

Inductive collector_kind := GaugeVec | CounterVec | HistogramVec (buckets : list Z).

Record Collector := mkCollector {
  c_kind : collector_kind;
  c_name : string;
  c_help : string;
  c_labels : list string
}.

#[export] Instance collector_kind_eq_dec : EqDecision collector_kind.
Proof. solve_decision. Defined.
#[export] Instance Collector_eq_dec : EqDecision Collector.
Proof. solve_decision. Defined.

Section collectors.
#[local] Open Scope string_scope.

Definition metrics_RaftState : Collector :=
  mkCollector GaugeVec "stratago_raft_state"
    "Current Raft state (0=Follower, 1=Candidate, 2=Leader)" ["node_id"].

Definition metrics_ElectionTotal : Collector :=
  mkCollector CounterVec "stratago_raft_elections_total"
    "Total number of Raft elections initiated" ["node_id"].

(** buckets in thousandths of a second *)
Definition metrics_RequestDuration : Collector :=
  mkCollector (HistogramVec [5; 10; 25; 50; 100; 250; 500; 1000])
    "stratago_grpc_request_duration_seconds" "gRPC request latencies in seconds"
    ["node_id"; "method"; "consistency"].

Definition metrics_MemtableSizeBytes : Collector :=
  mkCollector GaugeVec "stratago_memtable_size_bytes"
    "Current byte size of the active Memtable" ["node_id"].

Definition metrics_SSTableCount : Collector :=
  mkCollector GaugeVec "stratago_sstable_count" "Total number of SSTables on disk" ["node_id"].

Definition metrics_RequestsTotal : Collector :=
  mkCollector CounterVec "stratago_requests_total" "Total operations processed"
    ["node_id"; "method"].

Definition metrics_vars : list Collector :=
  [metrics_RaftState; metrics_ElectionTotal; metrics_RequestDuration;
   metrics_MemtableSizeBytes; metrics_SSTableCount; metrics_RequestsTotal].

End collectors.

(** ** The client library *)

(** [None] is a panic. *)
Class Prometheus (G : Type) := {
  prom_has : G -> Collector -> Prop;
  prom_value : G -> Collector -> list string -> Z;
  promauto_New : Collector -> G -> option G;
  vec_Set : Collector -> list string -> Z -> G -> option G;
  vec_Inc : Collector -> list string -> G -> option G
}.

Definition ident_char (c : Ascii.ascii) : bool :=
  let n := Z.of_nat (Ascii.nat_of_ascii c) in
  (65 <=? n) && (n <=? 90) || (97 <=? n) && (n <=? 122) || (n =? 95).
Definition digit_char (c : Ascii.ascii) : bool :=
  let n := Z.of_nat (Ascii.nat_of_ascii c) in (48 <=? n) && (n <=? 57).

(** a name without colons *)
Definition name_ok (s : string) : bool :=
  match String.list_ascii_of_string s with
  | [] => false
  | c :: cs => ident_char c && forallb (fun c => ident_char c || digit_char c) cs
  end.

Fixpoint increasing (l : list Z) : bool :=
  match l with
  | x :: (y :: _) as l' => (x <? y) && increasing l'
  | _ => true
  end.

Definition collector_ok (c : Collector) : bool :=
  name_ok (c_name c) && forallb name_ok (c_labels c) &&
  match c_kind c with
  | HistogramVec b => increasing b && bool_decide ("le"%string ∉ c_labels c)
  | _ => true
  end.

(** A [float64] holds these integers exactly. *)
Definition float_exact (z : Z) : Prop := Z.abs z <= 2 ^ 53.

(** [g'] is [g] with one more value *)
Definition updated {G} `{Prometheus G} (g : G) (c : Collector) (lvs : list string) (z : Z)
    (g' : G) : Prop :=
  (forall d, prom_has g' d <-> prom_has g d) /\ prom_value g' c lvs = z /\
  forall d l, (d, l) <> (c, lvs) -> prom_value g' d l = prom_value g d l.

(** Registering a valid collector under a new name succeeds; an update of a
    registered collector succeeds when the number of label values is right. *)
Class PrometheusLaws (G : Type) `{Prometheus G} := {
  promauto_New_ok c g :
    collector_ok c = true -> (forall d, prom_has g d -> c_name d <> c_name c) ->
    exists g', promauto_New c g = Some g' /\ forall d, prom_has g' d <-> d = c \/ prom_has g d;
  vec_Set_ok c lvs z g :
    prom_has g c -> c_kind c = GaugeVec -> length lvs = length (c_labels c) -> float_exact z ->
    exists g', vec_Set c lvs z g = Some g' /\ updated g c lvs z g';
  vec_Inc_ok c lvs g :
    prom_has g c -> c_kind c = GaugeVec \/ c_kind c = CounterVec ->
    length lvs = length (c_labels c) ->
    float_exact (prom_value g c lvs) -> float_exact (prom_value g c lvs + 1) ->
    exists g', vec_Inc c lvs g = Some g' /\ updated g c lvs (prom_value g c lvs + 1) g'
}.

(** ** Start and updates *)

Section gauges.
Context {G : Type} `{Prometheus G}.

(** the initialisation of the package's variables *)
Fixpoint register (cs : list Collector) (g : G) : option G :=
  match cs with
  | [] => Some g
  | c :: cs' => g' ← promauto_New c g; register cs' g'
  end.
Definition metrics_init : G -> option G := register metrics_vars.

Context `{Murmur3} `{Runtime} (NodeID : string).

(** the last lines of [Open] *)
Definition Open_metrics (db : StrataGo) (g : G) : option G :=
  vec_Set metrics_SSTableCount [NodeID] (len (db_sstReaders db)) g.

(** [Put] sets the gauge after the memtable, when the log has the entry; [Delete]
    does not *)
Definition op_metrics (o : op) (r : err) (db : StrataGo) (g : G) : option G :=
  match o, r with
  | OpPut _ _, None =>
      vec_Set metrics_MemtableSizeBytes [NodeID] (sl_SizeBytes (db_activeMemtable db)) g
  | _, _ => Some g
  end.

(** after the lock is released, before the old log is removed *)
Definition flush_metrics (db : StrataGo) (g : G) : option G :=
  g' ← vec_Inc metrics_SSTableCount [NodeID] g;
  vec_Set metrics_MemtableSizeBytes [NodeID] (sl_SizeBytes (db_activeMemtable db)) g'.

(** under the lock, after the new list of tables is in place *)
Definition compaction_metrics (db : StrataGo) (g : G) : option G :=
  vec_Set metrics_SSTableCount [NodeID] (len (db_sstReaders db)) g.

(** what a step of the engine does to the gauges *)
Definition step_metrics (s : csys) (l : option (op * err)) (s' : csys) (g : G) : option G :=
  let db' := s_db (c_sys s') in
  match l with
  | Some (o, r) => op_metrics o r db' g
  | None =>
      match s_pc (c_sys s), s_pc (c_sys s'), c_pc s, c_pc s' with
      | Removing, Idle, _, _ => flush_metrics db' g
      | _, _, CBuilt _ _ _, CInstalled _ _ => compaction_metrics db' g
      | _, _, _, _ => Some g
      end
  end.
End gauges.

(** ** The system with its gauges

    [m_gauges] is [None] when an update has panicked.  [m_late] records the moment
    of the last replacement of tables by a compaction: it is true when a flush had
    released the lock and not yet counted its table. *)
Record msys (G : Type) := mkMsys { m_sys : csys; m_gauges : option G; m_late : bool }.
Arguments mkMsys {G}. Arguments m_sys {G}. Arguments m_gauges {G}. Arguments m_late {G}.

(** a flush has installed its table and is about to count it *)
Definition uncounted (s : csys) : bool :=
  match s_pc (c_sys s) with Removing => true | _ => false end.

Definition late_after (s s' : csys) (late : bool) : bool :=
  match c_pc s, c_pc s' with
  | CBuilt _ _ _, CInstalled _ _ => uncounted s
  | _, _ => late
  end.

Definition sizes_exact (db : StrataGo) : Prop :=
  len (db_sstReaders db) < 2 ^ 53 /\ float_exact (sl_SizeBytes (db_activeMemtable db)).

Section system.
Context {G : Type} `{PrometheusLaws G} `{Murmur3} `{Runtime} (NodeID : string).

Inductive mstep : msys G -> option (op * err) -> msys G -> Prop :=
| mstep_intro s l s' og late :
    cstep s l s' -> sizes_exact (s_db (c_sys s')) ->
    mstep (mkMsys s og late) l
          (mkMsys s' (og ≫= step_metrics NodeID s l s') (late_after s s' late)).

Inductive msteps : msys G -> list (op * err) -> msys G -> Prop :=
| msteps_refl s : msteps s [] s
| msteps_silent s1 s2 s3 l : mstep s1 None s2 -> msteps s2 l s3 -> msteps s1 l s3
| msteps_op s1 s2 s3 x l : mstep s1 (Some x) s2 -> msteps s2 l s3 -> msteps s1 (x :: l) s3.

Definition registered (g : G) : Prop := Forall (prom_has g) metrics_vars.

Definition tables_shown (g : G) : Z := prom_value g metrics_SSTableCount [NodeID].
Definition bytes_shown (g : G) : Z := prom_value g metrics_MemtableSizeBytes [NodeID].

Definition one (b : bool) : Z := if b then 1 else 0.

(** The gauge of the tables, against the tables the engine holds. *)
Definition gauge_ok (m : msys G) : Prop :=
  exists g, m_gauges m = Some g /\ registered g /\
    tables_shown g = len (db_sstReaders (s_db (c_sys (m_sys m)))) -
      one (uncounted (m_sys m)) + one (m_late m) /\
    len (db_sstReaders (s_db (c_sys (m_sys m)))) < 2 ^ 53.

Lemma updated_registered g c lvs z g' : updated g c lvs z g' -> registered g -> registered g'.
Proof. intros (Hh & _) Hr. eapply Forall_impl; [exact Hr|]. intros d. apply Hh. Qed.

Lemma registered_has g c : registered g -> c ∈ metrics_vars -> prom_has g c.
Proof. intros Hr. by apply Forall_forall. Qed.

Lemma updated_tables g lvs z g' :
  updated g metrics_MemtableSizeBytes lvs z g' -> tables_shown g' = tables_shown g.
Proof. intros (_ & _ & Ho). apply Ho. discriminate. Qed.

Lemma set_tables z g :
  registered g -> float_exact z ->
  exists g', vec_Set metrics_SSTableCount [NodeID] z g = Some g' /\ registered g' /\
    tables_shown g' = z.
Proof.
  intros Hr Hz. destruct (vec_Set_ok metrics_SSTableCount [NodeID] z g) as (g' & E & Hu); try done.
  { apply registered_has; [done|by apply (bool_decide_unpack _)]. }
  exists g'. split; [done|]. split; [by eapply updated_registered|]. apply Hu.
Qed.

Lemma set_bytes z g :
  registered g -> float_exact z ->
  exists g', vec_Set metrics_MemtableSizeBytes [NodeID] z g = Some g' /\ registered g' /\
    tables_shown g' = tables_shown g /\ bytes_shown g' = z.
Proof.
  intros Hr Hz.
  destruct (vec_Set_ok metrics_MemtableSizeBytes [NodeID] z g) as (g' & E & Hu); try done.
  { apply registered_has; [done|by apply (bool_decide_unpack _)]. }
  exists g'. split; [done|]. split; [by eapply updated_registered|].
  split; [by eapply updated_tables|]. apply Hu.
Qed.

Lemma inc_tables g :
  registered g -> -1 <= tables_shown g < 2 ^ 53 ->
  exists g', vec_Inc metrics_SSTableCount [NodeID] g = Some g' /\ registered g' /\
    tables_shown g' = tables_shown g + 1.
Proof.
  intros Hr Hz. destruct (vec_Inc_ok metrics_SSTableCount [NodeID] g) as (g' & E & Hu);
    try (done || by left); try (unfold float_exact, tables_shown in *; lia).
  { apply registered_has; [done|by apply (bool_decide_unpack _)]. }
  exists g'. split; [done|]. split; [by eapply updated_registered|]. apply Hu.
Qed.

(** A flush that fails keeps the tables. *)
Lemma flush_fail_readers db b w r db' w' :
  match b with
  | Built _ verified => forall imm, db_immutableMemtable db = Some imm -> verified <> sl_Size imm
  | _ => True
  end ->
  flush_finish db b w = ((r, db'), w') -> db_sstReaders db' = db_sstReaders db.
Proof.
  assert (forall e w r db' w', recoverFromFlushFailure db e w = ((r, db'), w') ->
    db_sstReaders db' = db_sstReaders db) as Hrec.
  { clear. intros e w r db' w'. unfold recoverFromFlushFailure, mbind, IO_bind.
    destruct (option_bind _ _ _ _) as [es|]; [|by intros [= <- <- <-]].
    destruct (relog (db_wal db) es w) as [wl w1]. by intros [= <- <- <-]. }
  unfold flush_finish. destruct b as [rd v|e|e]; [|intros _; apply Hrec|by intros _ [= <- <- <-]].
  destruct (db_immutableMemtable db) as [imm|]; [|by intros _ [= <- <- <-]].
  intros Hv. specialize (Hv imm eq_refl). apply Z.eqb_neq in Hv. rewrite Hv. cbn [negb].
  unfold mbind, IO_bind. destruct (Reader_Close rd w) as [x w1].
  destruct (os_Remove (Reader_Path rd) w1) as [y w2]. apply Hrec.
Qed.

(** What holds after a step that neither counts nor replaces tables. *)
Lemma gauge_kept s s' og late :
  gauge_ok (mkMsys s og late) -> len (db_sstReaders (s_db (c_sys s'))) < 2 ^ 53 ->
  len (db_sstReaders (s_db (c_sys s'))) - one (uncounted s') =
    len (db_sstReaders (s_db (c_sys s))) - one (uncounted s) ->
  gauge_ok (mkMsys s' og late).
Proof.
  intros (g & E & Hr & Hg & _) Hl Hs. exists g. cbn [m_sys m_gauges m_late] in *.
  split_and!; try done. lia.
Qed.

Lemma gauge_op w db pc c w' db' o r og late :
  gauge_ok (mkMsys (mkCsys (mkSys w db pc) c) og late) ->
  db_sstReaders db' = db_sstReaders db -> sizes_exact db' ->
  gauge_ok (mkMsys (mkCsys (mkSys w' db' pc) c) (og ≫= op_metrics NodeID o r db') late).
Proof.
  intros (g & E & Hr & Hg & Hl) Hrs [Hl' Hb]. cbn [m_sys m_gauges m_late c_sys s_db uncounted s_pc] in *.
  subst og. cbn [mbind option_bind].
  assert (gauge_ok (mkMsys (mkCsys (mkSys w' db' pc) c) (Some g) late)) as Hg0.
  { exists g. cbn [m_sys m_gauges m_late c_sys s_db uncounted s_pc] in *. rewrite Hrs. done. }
  destruct o as [k v|k]; [|done]. destruct r as [e|]; [done|]. cbn [op_metrics].
  destruct (set_bytes _ g Hr Hb) as (g' & E & Hr' & Ht & _).
  exists g'. cbn [m_sys m_gauges m_late c_sys s_db uncounted s_pc] in *. rewrite Ht, Hrs. done.
Qed.

Lemma gauge_counted w db c w' og late :
  gauge_ok (mkMsys (mkCsys (mkSys w db Removing) c) og late) -> sizes_exact db ->
  gauge_ok (mkMsys (mkCsys (mkSys w' db Idle) c) (og ≫= flush_metrics NodeID db) late).
Proof.
  intros (g & E & Hr & Hg & Hl) [_ Hb]. cbn [m_sys m_gauges m_late c_sys s_db uncounted s_pc] in *.
  subst og. cbn [mbind option_bind]. unfold flush_metrics.
  destruct (inc_tables g Hr) as (g1 & E1 & Hr1 & Ht1).
  { rewrite Hg. unfold len in *. destruct late; cbn [one]; lia. }
  destruct (set_bytes _ g1 Hr1 Hb) as (g2 & E2 & Hr2 & Ht2 & _).
  exists g2. cbn [m_sys m_gauges m_late c_sys s_db uncounted s_pc] in *. rewrite E1. cbn. rewrite E2.
  split_and!; try done. rewrite Ht2, Ht1, Hg. cbn [one]. lia.
Qed.

Lemma gauge_replaced w db db' pc files iters nr og late :
  gauge_ok (mkMsys (mkCsys (mkSys w db pc) (CBuilt files iters nr)) og late) -> sizes_exact db' ->
  let s' := mkCsys (mkSys w db' pc) (CInstalled files iters) in
  gauge_ok (mkMsys s' (og ≫= compaction_metrics NodeID db') (uncounted s')).
Proof.
  intros (g & E & Hr & Hg & Hl) [Hl' _]. cbn [m_sys m_gauges m_late c_sys s_db uncounted s_pc] in *.
  subst og. cbn [mbind option_bind]. unfold compaction_metrics.
  destruct (set_tables (len (db_sstReaders db')) g Hr) as (g1 & E1 & Hr1 & Ht1).
  { unfold float_exact. unfold len in *. lia. }
  exists g1. cbn [m_sys m_gauges m_late c_sys s_db s_pc] in *. rewrite E1.
  split_and!; try done. rewrite Ht1. lia.
Qed.

Lemma bind_Some_id (og : option G) : og ≫= (fun g => Some g) = og.
Proof. by destruct og. Qed.

Lemma step_gauge w db pc s' l c og late :
  step (mkSys w db pc) l s' -> gauge_ok (mkMsys (mkCsys (mkSys w db pc) c) og late) ->
  sizes_exact (s_db s') ->
  gauge_ok (mkMsys (mkCsys s' c)
    (og ≫= step_metrics NodeID (mkCsys (mkSys w db pc) c) l (mkCsys s' c)) late).
Proof.
  intros Hst Hg Hx. pose proof (proj1 Hx) as Hl.
  assert (forall pc' w' db', match pc, pc' with Removing, Idle => False | _, _ => True end ->
    db_sstReaders db' = db_sstReaders db \/
      (exists r, db_sstReaders db' = db_sstReaders db ++ [r] /\ pc' = Removing /\ pc <> Removing) ->
    (db_sstReaders db' = db_sstReaders db -> (pc = Removing <-> pc' = Removing)) ->
    len (db_sstReaders db') < 2 ^ 53 ->
    gauge_ok (mkMsys (mkCsys (mkSys w' db' pc') c)
      (og ≫= step_metrics NodeID (mkCsys (mkSys w db pc) c) None (mkCsys (mkSys w' db' pc') c)) late))
    as Hquiet.
  { clear -Hg. intros pc' w' db' Hpc Hrs Hu Hl.
    replace (og ≫= _) with og; cycle 1.
    { symmetry. etransitivity; [|apply bind_Some_id]. destruct og; [|done]. cbn.
      destruct pc, pc', c; done. }
    eapply gauge_kept; [exact Hg|done|]. cbn [c_sys s_db uncounted s_pc].
    destruct Hrs as [Hrs|(r & Hrs & -> & Hn)].
    - specialize (Hu Hrs). rewrite Hrs. f_equal.
      destruct pc, pc'; try done; exfalso; destruct Hu as [H5 H6];
        first [by specialize (H5 eq_refl)|by specialize (H6 eq_refl)].
    - rewrite Hrs, len_app. destruct pc; try done; unfold len; cbn; lia. }
  inversion Hst as [? ? ? o r db' w' Hop Hseq E|? ? ? t Ht|? ? db' w' Hfit E|? ? r db' w' E
    |? ? b w' Hck E|? ? rd v imm Ei Hv|? ?|? ? b db' w' r Hb E]; subst; cbn [s_db] in *.
  - apply run_op_strip in E as [_ Hrs]. by apply (gauge_op w db pc).
  - apply Hquiet; [by destruct pc|by left|done|done].
  - apply flush_rotate_strip in E as [_ Hrs]. apply Hquiet; [done|by left|done|done].
  - apply flush_rotate_strip in E as [_ Hrs]. apply Hquiet; [done|by left|done|done].
  - apply Hquiet; [done|by left|done|done].
  - apply Hquiet; [done|right; by exists rd| |done].
    intros Hrs. apply (f_equal length) in Hrs. cbn in Hrs. rewrite length_app in Hrs. cbn in Hrs. lia.
  - by eapply gauge_counted.
  - apply flush_fail_readers in E; [|done]. apply Hquiet; [done|by left|done|done].
Qed.

(** the other parts of a compaction *)
Lemma gauge_compaction s s' og late :
  gauge_ok (mkMsys s og late) -> s_pc (c_sys s') = s_pc (c_sys s) -> c_pc s <> c_pc s' ->
  match c_pc s' with CInstalled _ _ => False | _ => True end ->
  s_db (c_sys s') = s_db (c_sys s) ->
  gauge_ok (mkMsys s' (og ≫= step_metrics NodeID s None s') (late_after s s' late)).
Proof.
  destruct s as [[w db pc] c], s' as [[w' db' pc'] c']. cbn [c_sys c_pc s_pc s_db].
  intros Hg -> _ Hc' ->.
  replace (late_after _ _ late) with late by by destruct c, c'.
  replace (og ≫= _) with og; cycle 1.
  { symmetry. etransitivity; [|apply bind_Some_id]. destruct og; [|done]. by destruct pc, c, c'. }
  apply (gauge_kept _ _ _ _ Hg); [|done]. by destruct Hg as (g & _ & _ & _ & Hl).
Qed.

Lemma mstep_gauge m l m' : mstep m l m' -> gauge_ok m -> gauge_ok m'.
Proof.
  intros Hst Hg. destruct Hst as [s l s' og late Hc Hx].
  destruct Hc as [[w db pc] l s' c Hs|w db pc files tier|w db pc files r w'|w db pc files iters nr
    |w db pc files iters].
  - replace (late_after _ _ late) with late by by destruct c. by apply step_gauge.
  - by apply gauge_compaction.
  - apply gauge_compaction; try done; cbn; by destruct r as [|[]].
  - replace (og ≫= _) with (og ≫= compaction_metrics NodeID (compaction_install db files nr))
      by (destruct og; [|done]; cbn; by destruct pc).
    by eapply gauge_replaced.
  - by apply gauge_compaction.
Qed.

Lemma msteps_gauge m l m' : msteps m l m' -> gauge_ok m -> gauge_ok m'.
Proof. induction 1; eauto using mstep_gauge. Qed.

Lemma register_ok cs : forall g,
  NoDup (c_name <$> cs) -> Forall (fun c => collector_ok c = true) cs ->
  (forall d, prom_has g d -> c_name d ∉ c_name <$> cs) ->
  exists g', register cs g = Some g' /\ forall d, prom_has g' d <-> d ∈ cs \/ prom_has g d.
Proof.
  induction cs as [|c cs IH]; intros g Hnd Hok Hnew; cbn [register].
  { exists g. split; [done|]. intros d. rewrite elem_of_nil. tauto. }
  rewrite fmap_cons in Hnd, Hnew. apply NoDup_cons in Hnd as [Hc Hnd].
  apply Forall_cons in Hok as [Ho Hok].
  destruct (promauto_New_ok c g Ho) as (g1 & E1 & Hh1).
  { intros d Hd Hn. apply (Hnew d Hd). rewrite Hn. apply list_elem_of_here. }
  rewrite E1. cbn [mbind option_bind]. destruct (IH g1 Hnd Hok) as (g' & E & Hh).
  { intros d [->|Hd]%Hh1; [done|]. intros Hn. apply (Hnew d Hd). by apply list_elem_of_further. }
  exists g'. split; [done|]. intros d. rewrite Hh, Hh1, elem_of_cons. tauto.
Qed.

(** The collectors register in any registry without their names. *)
Lemma metrics_init_ok g :
  (forall d, prom_has g d -> c_name d ∉ c_name <$> metrics_vars) ->
  exists g', metrics_init g = Some g' /\ registered g'.
Proof.
  intros Hg. destruct (register_ok metrics_vars g) as (g' & E & Hh);
    [by apply (bool_decide_unpack _)|repeat constructor|done|].
  exists g'. split; [done|]. apply Forall_forall. intros d Hd. apply Hh. by left.
Qed.

(** [Put] shows the size it has reached. *)
Lemma put_shows_size s k v s' g late m' :
  mstep (mkMsys s (Some g) late) (Some (OpPut k v, None)) m' -> registered g ->
  m_sys m' = s' ->
  exists g', m_gauges m' = Some g' /\
    bytes_shown g' = sl_SizeBytes (db_activeMemtable (s_db (c_sys s'))).
Proof.
  intros Hst Hr. inversion Hst as [s0 l0 s1 og0 late0 Hc Hx]; subst. cbn [m_sys m_gauges].
  intros <-. cbn [mbind option_bind step_metrics op_metrics].
  destruct (set_bytes (sl_SizeBytes (db_activeMemtable (s_db (c_sys s1)))) g Hr)
    as (g' & E & _ & _ & Hb); [apply Hx|]. by exists g'.
Qed.

(** C39: Between [Open] and the next [Purge] or [Restore], the gauge of the tables is
    right, or too large by one.  From the registration of the collectors on, no
    update panics, and in every interleaving of flushes, compactions and operations,
    [stratago_sstable_count] is the number of tables the engine holds open, but for a
    table that a flush has installed and not counted yet, and for one counted twice:
    that happens exactly when the last compaction put its table in place between
    those two moments.  (The help text of the gauge speaks of tables on disk, of
    which there is one less after a compaction, and [Purge] leaves the gauge as it
    was.) *)
Theorem table_gauge_accurate (g : G) (db : StrataGo) (w : World) (l : list (op * err)) (m : msys G)
    (Hnew : forall d, prom_has g d -> c_name d ∉ c_name <$> metrics_vars)
    (Hsize : sizes_exact db)
    (Hst : msteps (mkMsys (mkCsys (mkSys w db Idle) CIdle)
                     (metrics_init g ≫= Open_metrics NodeID db) false) l m) :
  exists g', m_gauges m = Some g' /\
    prom_value g' metrics_SSTableCount [NodeID] =
      len (db_sstReaders (s_db (c_sys (m_sys m)))) - one (uncounted (m_sys m)) + one (m_late m).
Proof.
  destruct (metrics_init_ok g Hnew) as (g1 & E1 & Hr1). rewrite E1 in Hst. cbn [mbind option_bind] in Hst.
  destruct Hsize as [Hs _]. destruct (set_tables (len (db_sstReaders db)) g1 Hr1) as (g2 & E2 & Hr2 & Ht2).
  { unfold float_exact, len in *. lia. }
  unfold Open_metrics in Hst. rewrite E2 in Hst. apply msteps_gauge in Hst as (g' & E & _ & Hg & _).
  - by exists g'.
  - exists g2. cbn [m_sys m_gauges m_late c_sys s_db uncounted s_pc one]. split_and!; try done. lia.
Qed.
End system.

(** ** A registry *)

Record registry := mkRegistry {
  reg_collectors : list Collector;
  reg_value : Collector * list string -> Z
}.

Definition registry_set (c : Collector) (lvs : list string) (z : Z) (g : registry) :
    option registry :=
  guard (c ∈ reg_collectors g /\ length lvs = length (c_labels c));;
  Some (mkRegistry (reg_collectors g)
          (fun x => if decide (x = (c, lvs)) then z else reg_value g x)).

#[export] Instance registry_ops : Prometheus registry := {
  prom_has g c := c ∈ reg_collectors g;
  prom_value g c lvs := reg_value g (c, lvs);
  promauto_New c g :=
    guard (c_name c ∉ c_name <$> reg_collectors g);;
    Some (mkRegistry (c :: reg_collectors g) (reg_value g));
  vec_Set := registry_set;
  vec_Inc c lvs g := registry_set c lvs (reg_value g (c, lvs) + 1) g
}.

Lemma registry_set_ok c lvs z g :
  prom_has g c -> length lvs = length (c_labels c) ->
  exists g', registry_set c lvs z g = Some g' /\ updated g c lvs z g'.
Proof.
  cbn [prom_has registry_ops]. intros Hc Hl. unfold registry_set.
  case_guard; [|tauto]. cbn [mbind option_bind].
  eexists. split; [done|]. unfold updated. cbn [prom_has prom_value registry_ops reg_value reg_collectors].
  split_and!; [done|by rewrite decide_True|]. intros d l Hne. by rewrite decide_False.
Qed.

#[export] Instance registry_laws : PrometheusLaws registry.
Proof.
  split.
  - cbn [promauto_New prom_has registry_ops]. intros c g _ Hnew. case_guard as Hc.
    + cbn. eexists. split; [done|]. intros d. cbn [reg_collectors].
      by rewrite elem_of_cons.
    + exfalso. apply list_elem_of_fmap in Hc as (d & Hn & Hd). by apply (Hnew d).
  - intros c lvs z g Hh _ Hl _. by apply registry_set_ok.
  - intros c lvs g Hh _ Hl _ _. by apply registry_set_ok.
Qed.

Definition empty_registry : registry := mkRegistry [] (fun _ => 0).

(** ** Schedules with gauges *)

Section schedules.
Context {G : Type} `{PrometheusLaws G} `{Murmur3} `{Runtime} (NodeID : string).

#[export] Instance sizes_exact_dec db : Decision (sizes_exact db).
Proof. unfold sizes_exact, float_exact. apply _. Defined.

Fixpoint run_gauges (acts : list action) (m : msys G) : option (list (op * err) * msys G) :=
  match acts with
  | [] => Some ([], m)
  | a :: acts' =>
      '(x, s') ← act a (m_sys m);
      guard (sizes_exact (s_db (c_sys s')));;
      '(l, m2) ← run_gauges acts' (mkMsys s' (m_gauges m ≫= step_metrics NodeID (m_sys m) x s')
                                     (late_after (m_sys m) s' (m_late m)));
      Some (match x with Some p => p :: l | None => l end, m2)
  end.

Lemma run_gauges_sound acts : forall m l m',
  run_gauges acts m = Some (l, m') -> msteps NodeID m l m'.
Proof.
  induction acts as [|a acts IH]; intros m l m'; cbn [run_gauges].
  - intros [= <- <-]. constructor.
  - destruct (act a (m_sys m)) as [[x s1]|] eqn:Ea; [|done]. cbn [mbind option_bind].
    case_guard as Hx; [|done]. cbn [mbind option_bind].
    destruct (run_gauges acts _) as [[l1 m2]|] eqn:Er; [|done]. intros [= <- <-].
    apply act_sound in Ea. apply IH in Er. destruct m as [s og late]. cbn [m_sys m_gauges m_late] in *.
    destruct x; [eapply msteps_op|eapply msteps_silent]; try exact Er; by constructor.
Qed.
End schedules.

Section witness.
#[local] Existing Instance fnv.
#[local] Existing Instance plain_runtime.

(** four tables are compacted while a fifth is flushed; the replacement comes
    between the installation of the fifth table and its counting *)
Definition schedule2 : list action :=
  flush_round [x61] 1001 ++ flush_round [x62] 1002 ++ flush_round [x63] 1003 ++
  flush_round [x64] 1004 ++
  [DoSelect 0; DoCompact; DoOp (OpPut [x65] (Some [x05])); DoRotate; DoBuild; DoInstall; DoReplace;
   DoRemove].

Definition gauge_run : option (list (op * err) * msys registry) :=
  match Open empty_disk with
  | (inr db, w1) =>
      run_gauges "node1" schedule2
        (mkMsys (mkCsys (mkSys w1 db Idle) CIdle)
           (metrics_init empty_registry ≫= Open_metrics "node1" db) false)
  | _ => None
  end.

(** tables held, tables shown, bytes shown *)
Definition gauge_outcome : option (Z * Z * Z * bool) :=
  '(_, m) ← gauge_run;
  g ← m_gauges m;
  Some (len (db_sstReaders (s_db (c_sys (m_sys m)))),
        prom_value g metrics_SSTableCount ["node1"%string],
        prom_value g metrics_MemtableSizeBytes ["node1"%string], m_late m).

(** At rest, with two tables in the engine, three are shown. *)
Theorem table_gauge_overcounts : gauge_outcome = Some (2, 3, 0, true).
Proof. vm_equal. Qed.

Lemma table_gauge_accurate_witness :
  exists db w1 l m g', Open empty_disk = (inr db, w1) /\
    msteps "node1" (mkMsys (mkCsys (mkSys w1 db Idle) CIdle)
      (metrics_init empty_registry ≫= Open_metrics "node1" db) false) l m /\
    m_gauges m = Some g' /\ m_late m = true /\
    prom_value g' metrics_SSTableCount ["node1"%string] =
      len (db_sstReaders (s_db (c_sys (m_sys m)))) - one (uncounted (m_sys m)) + one (m_late m).
Proof.
  assert (exists db w1, Open empty_disk = (inr db, w1) /\ sizes_exact db) as (db & w1 & E & Hx).
  { assert (match Open empty_disk with (inr db, _) => bool_decide (sizes_exact db) | _ => false end
      = true) as Ho by vm_equal.
    destruct (Open empty_disk) as [[e|db] w1]; [discriminate Ho|].
    exists db, w1. split; [reflexivity|exact (bool_decide_eq_true_1 _ Ho)]. }
  pose proof table_gauge_overcounts as Ho. unfold gauge_outcome, gauge_run in Ho. rewrite E in Ho.
  destruct (run_gauges _ _ _) as [[l m]|] eqn:Er; [|discriminate Ho]. apply run_gauges_sound in Er.
  assert (forall d, prom_has empty_registry d -> c_name d ∉ c_name <$> metrics_vars) as Hnew.
  { intros d Hd. exfalso. exact (not_elem_of_nil _ Hd). }
  destruct (table_gauge_accurate "node1" empty_registry db w1 l m Hnew Hx Er) as (g' & Eg & Hg).
  exists db, w1, l, m, g'. cbn [mbind option_bind] in Ho. rewrite Eg in Ho. cbn [mbind option_bind] in Ho.
  split; [exact E|]. split; [exact Er|]. split; [exact Eg|]. split; [|exact Hg].
  by injection Ho.
Defined.
End witness.
